(* ===== verification/_CoqProject ===== *)
-Q . S2P
Prelude.v
Types.v
StdText.v
Wire.v
ErrorText.v
Samples.v
ProofId.v
ConfigTypes.v
StoreRecord.v
Store.v
StoreProps.v
StoreLimits.v
Config.v
Control.v
Lifecycle.v
LifecycleProps.v
Chain.v
ChainProps.v
Noir.v
Submission.v
Rpc.v
P2pIdentity.v
Listener.v
ListenerProps.v
ListenerTransport.v
Broadcast.v
Verification.v
VerificationProps.v
P2pTypes.v
P2pAvailability.v
P2pBehaviour.v
P2pDriver.v
P2pDriverProps.v
P2pWorker.v
P2pWorkerProps.v
P2pSystem.v
App.v
AppProps.v
Provenance.v
Main.v
