(* ===== verification/Prelude.v ===== *)
(** * Pulsar Verifier: a verification development

    The program (src/src) is the verifier process that runs beside a node of the Pulsar chain.
    It watches the chain for proofs that were submitted, obtains their content from its own
    submission service or from other validators, verifies them, and answers the node's
    questions about the verdicts. This development models it and proves what makes its parts
    correct.

    ** The parts and how they interact

    - The proof store (store/) holds a record per verification identifier and publishes every
      change. All other parts read and write it.
    - The listener (listener.rs) follows committed blocks through the chain client (chain/) and
      tells the store which proofs the chain has; it also gives the network its validators.
    - The submission service (submission.rs, rpc/submission.rs) validates a signed transaction
      with its proof, stores the proof, and only then relays the transaction.
    - The P2P service (p2p/) is two tasks: the driver owns the libp2p swarm, the retrieval worker
      decides what to fetch and answers other validators' requests from the store.
    - The verification worker (verification/worker.rs) claims queued records, runs the verifier
      registered for their type (verification/noir.rs), and commits the outcome.
    - The query service (rpc/) answers with results and statuses from the store.
    - The application (app.rs, control.rs, lib.rs, main.rs, cli.rs, config.rs) loads the
      configuration, starts these parts, and shuts them down in order.

    ** Files

    Shared:
    - [Prelude]: results, the state and error monad [stm] with its weakest preconditions, machine
      integers, durations, fixed-size arrays, list lemmas, and the hint database [stm].
    - [Types]: the data and errors shared by the parts (proof.rs, error.rs, store/record.rs).
    - [StdText]: the standard library's text functions the crate calls. [ErrorText]: the texts of
      error.rs. [Wire]: the protobuf messages, and type classes for prost, SHA-256, libp2p's
      identities and hex. [Samples]: concrete instances of those classes for the witnesses.
    - [Broadcast]: tokio's broadcast channel as a history and a position in it.

    Components, each with the source functions as definitions of the same name:
    - [ProofId]: proof.rs.
    - [ConfigTypes], [Config]: config.rs.
    - [StoreRecord], [Store]: store/record.rs, event.rs, expiry.rs, mod.rs; an operation is a
      computation [storeM] on the record [ProofStore]. Proofs in [StoreProps], [StoreLimits].
    - [Control]: control.rs.
    - [Lifecycle]: the tasks and their end, of app.rs, p2p/service.rs, listener.rs and rpc/*.rs, as
      computations on the set of owned tasks with a log. Proofs in [LifecycleProps].
    - [App]: [App::run] with the starts of the P2P service and the listener, composed from the
      models of everything they call. Proofs in [AppProps]. [Main]: cli.rs, lib.rs, main.rs.
    - [Chain]: chain/descriptor.rs, chain/client.rs. Proofs in [ChainProps].
    - [Noir]: verification/noir.rs. [Submission]: submission.rs, as a transition system [sub_step]
      over the concurrent callers. [Rpc]: rpc/contract.rs, rpc/service.rs, rpc/submission.rs.
    - [P2pIdentity]: p2p/identity.rs, p2p/authorization.rs.
    - [Listener]: listener.rs. Proofs in [ListenerProps]; [ListenerTransport] follows the task
      that drives the subscription's transport.
    - [Verification]: verification/mod.rs, verification/worker.rs; [node_step] interleaves the
      worker, split at its await points, with the store's other users. Proofs in
      [VerificationProps].
    - [P2pTypes], [P2pAvailability], [P2pBehaviour], [P2pDriver], [P2pWorker]: p2p/types.rs,
      availability.rs and codec.rs, behaviour.rs, driver.rs, worker.rs. Proofs in the first four
      files' own sections, [P2pDriverProps] and [P2pWorkerProps].

    Compositions:
    - [P2pSystem]: the driver's client, and the relation [joint] of a retrieval worker whose calls
      a driver serves and who reads that driver's events.
    - [Provenance]: the store, the verification worker with the registry the application builds,
      the Noir verifier and the query service together.
    - [Main]: the process and the stop command that another process runs against it.

    ** How code becomes a definition

    A fallible function returns [result]; a method that changes [self] is a computation in [stm],
    where a change made before an error is kept. Foreign code is never defined: pure foreign
    functions are type classes, with the laws a theorem needs as separate classes; stateful foreign
    code (the swarm, CometBFT, the external process, the file system, the clock, the random
    generator, the outcome of a [select!]) is a world record that answers by the number of the
    question, so that a theorem over all worlds is one over all its behaviours. What the code does
    to such a part is logged in order. A panic ([expect], [unwrap], [unreachable!]) is a value of
    its own, and theorems say where it cannot happen.

    ** What the theorems show

    - Store: the invariant of every reachable store; a claim commits at most once; every step
      follows the abstract lifecycle; a verdict is final until its eviction is published; replaying
      the changes in the order of their commits gives the state, and each is published exactly once,
      though perhaps in another order; the weigher does not panic; content and observation commute.
    - Identity: an identifier is the digest of the chain's commitment to the proof; equal identifiers
      mean equal proofs or a collision among the strings hashed; the hand-written size is the proto3
      size.
    - Verification worker: claims and running jobs correspond, nothing queued is forgotten, the
      drain completes, attempts and time are bounded. Noir: a verdict is the process's answer to
      this proof, key and inputs, and nothing else is a verdict. Together ([Provenance]): a verdict
      read over RPC is such an answer, in an attempt of a job that the worker ran earlier in the
      same run, for the stored proof with that identifier.
    - Submission and RPC: stored before relayed, receipts only for what the node accepted,
      validation exactly as specified, the protocol's answers, and that they fit the limits.
    - Listener and chain client: the active window is covered, the right peers are authorized while
      it runs (a fatal end, or a stop during the change of the set, may leave others), the listener
      and its recovery queries end; no session leaves its transport task behind, but for
      a stop while the subscribe request is awaited.
    - Network: exchange accounting, single answers, proofs only for peers in the set when they asked,
      drain, failures of the driver; slots and progress of the retrieval worker, and what its drain
      answers, to the end or up to an error; the two together ([P2pSystem]):
      each slot in use is a request of the driver that will end; round trips and limits of the
      messages; the provider index refines a set of facts; what equal message identifiers mean.
    - Process: configuration that is accepted is fit for the components; whatever is started was
      checked before; a run leaves no task behind; a requested shutdown stops the parts in order;
      what ends the control server and the stop command; a stop command that succeeds means that
      the run of the instance is over and the tasks of [App::run] are joined or aborted. The ledger of
      tasks holds those that [App::run] and the services it starts spawn and own; the transport task of
      a subscription is followed in [ListenerTransport], the jobs of the verification worker in
      [Verification].

    ** Bounds and fuel

    - [PAGE_FUEL] is 257: each page with a continuation has a record at a new position, and more
      than 256 positions are refused. [proofs_by_height_total] proves that it is enough.
    - [POLL_FUEL] is the shutdown timeout over the polling interval, plus two;
      [stop_command_ends] proves that it is enough.
    - The retrieval loop of the P2P worker tries each authorized peer at most once per round: fuel
      above the number of peers is enough, and [retrieval_slots] proves it.
    - The listener runs for ever by design; its fuel counts rounds, [StillRunning] is a state of
      its own, and [listener_ends] says when it cannot occur.
    - [varint] has fuel 10, the length of the longest 64-bit varint.

    ** Idealisations

    - Moka serialises the computations on a key and orders its eviction notices with them; any
      entry may leave at any time. A snapshot or status query of several keys reads one state.
    - The address of a record ([Arc]) is a number that is not reused: a claim holds its record, so
      its address cannot be.
    - The counters of requests and timers (64 bits) and the sum of a time and a duration do not
      overflow. Sizes, proof limits, heights and back-offs are computed at their width.
    - Taken alone, the retrieval worker and the listener get the replies to their commands from
      their worlds; in [P2pSystem] the worker gets them from the driver.
    - The driver's event channel is bounded, and the source awaits a free place in it; the model's
      [emit] appends at once. The driver's order of events and actions is the same, but that a slow
      reader can hold the driver up is not modelled.
    - An await that a stop token overtakes may have had its effect: the listener's world decides,
      for the observations and the peers given to the driver.
    - Log lines are left out, and so is the health status the RPC servers report once they run;
      its withdrawal at shutdown is an entry of the log.

    ** Not modelled

    - telemetry.rs installs a foreign logging subscriber; its result is a parameter of [Main.run].
    - The code generated from the .proto files, and the foreign libraries themselves (libp2p,
      Moka, tonic, prost, tokio, tendermint-rpc, clap, toml, serde): parameters, as above.
    - What an aborted task had in hand: an abort ends a task at an await point of its own, and the
      values it owned are dropped there. The log of the process records the abort only.
    - Argument parsing, and the module files, which only re-export. *)

From Stdlib Require Import ZArith Lia.
From Stdlib Require Export Strings.Byte.
From stdpp Require Import base gmap sets list strings pretty numbers.

#[global] Open Scope Z_scope.

(** ** Results *)

(** Rust's [Result<T, E>]. *)
Inductive result (E T : Type) : Type :=
| Ok (t : T)
| Err (e : E).
Arguments Ok {E T} t.
Arguments Err {E T} e.

#[export] Instance result_ret {E} : MRet (result E) := fun T t => Ok t.
#[export] Instance result_bind {E} : MBind (result E) :=
  fun T U f r => match r with Ok t => f t | Err e => Err e end.
#[export] Instance result_fmap {E} : FMap (result E) :=
  fun T U f r => match r with Ok t => Ok (f t) | Err e => Err e end.
#[export] Instance result_eq_dec {E T} `{EqDecision E, EqDecision T} :
  EqDecision (result E T).
Proof. solve_decision. Defined.

Definition is_ok {E T} (r : result E T) : bool :=
  match r with Ok _ => true | Err _ => false end.

Definition ok_or {E T} (o : option T) (e : E) : result E T :=
  match o with Some t => Ok t | None => Err e end.

Definition map_err {E F T} (f : E -> F) (r : result E T) : result F T :=
  match r with Ok t => Ok t | Err e => Err (f e) end.

Definition ok {E T} (r : result E T) : option T :=
  match r with Ok t => Some t | Err _ => None end.

Lemma map_err_ok {E F T} (f : E -> F) (r : result E T) t : map_err f r = Ok t <-> r = Ok t.
Proof. destruct r; simpl; naive_solver. Qed.

Lemma result_bind_ok {E T U} (r : result E T) (k : T -> result E U) u :
  r ≫= k = Ok u <-> exists t, r = Ok t /\ k t = Ok u.
Proof. destruct r; simpl; naive_solver. Qed.

(** Proves a closed equation by evaluating both sides in the virtual machine. *)
Ltac vm_refl := match goal with |- _ = ?b => vm_cast_no_check (eq_refl b) end.

(** ** State and error: the effects of a [&self]/[&mut self] method returning a [Result].
    A state change made before an error is kept, as in the source. *)

Definition stm (S E T : Type) : Type := S -> result E T * S.

#[export] Instance stm_ret {S E} : MRet (stm S E) := fun T t s => (Ok t, s).
#[export] Instance stm_bind {S E} : MBind (stm S E) :=
  fun T U f m s =>
    match m s with
    | (Ok t, s') => f t s'
    | (Err e, s') => (Err e, s')
    end.

Definition lift {S E T} (r : result E T) : stm S E T := fun s => (r, s).
Definition throw {S E T} (e : E) : stm S E T := fun s => (Err e, s).
Definition get_state {S E} : stm S E S := fun s => (Ok s, s).
Definition put_state {S E} (s' : S) : stm S E unit := fun _ => (Ok tt, s').
Definition modify {S E} (f : S -> S) : stm S E unit := fun s => (Ok tt, f s).

Fixpoint for_each {S E A} (f : A -> stm S E unit) (l : list A) : stm S E unit :=
  match l with
  | [] => mret tt
  | a :: l' => f a ≫= fun _ => for_each f l'
  end.

(** ** Machine integers (64-bit target) *)

Definition u32_max : Z := 2 ^ 32 - 1.
Definition u64_max : Z := 2 ^ 64 - 1.
Definition usize_max : Z := u64_max.
Definition i32_min : Z := - 2 ^ 31.
Definition i32_max : Z := 2 ^ 31 - 1.

Definition checked_add (limit a b : Z) : option Z :=
  if a + b <=? limit then Some (a + b) else None.

Definition saturating_add (limit a b : Z) : Z := Z.min limit (a + b).

(** [saturating_sub] on an unsigned integer. *)
Definition saturating_sub (a b : Z) : Z := Z.max 0 (a - b).

(** [u32::try_from] and [u64::try_from] on a non-negative integer. *)
Definition try_from_u32 (a : Z) : option Z := if a <=? u32_max then Some a else None.

(** ** Durations and instants, in nanoseconds *)

Definition NANOS_PER_SEC : Z := 1000000000.
Definition duration_max : Z := u64_max * NANOS_PER_SEC + 999999999.
Definition from_secs (s : Z) : Z := s * NANOS_PER_SEC.
Definition from_millis (m : Z) : Z := m * 1000000.
Definition duration_checked_mul (d m : Z) : option Z :=
  if d * m <=? duration_max then Some (d * m) else None.
Definition duration_saturating_mul (d m : Z) : Z :=
  default duration_max (duration_checked_mul d m).

(** ** Bytes *)

Abbreviation bytes := (list byte).

#[export] Instance byte_eq_dec : EqDecision byte := Byte.byte_eq_dec.

#[export] Program Instance byte_countable : Countable byte :=
  inj_countable Byte.to_N Byte.of_N _.
Next Obligation. apply Byte.of_to_N. Qed.

Definition byte_of_Z (z : Z) : byte := default Byte.x00 (Byte.of_N (Z.to_N (z mod 256))).
Definition byte_to_Z (b : byte) : Z := Z.of_N (Byte.to_N b).

Definition len {A} (l : list A) : Z := Z.of_nat (length l).

(** [String::len] and [str::len], in bytes. *)
Definition str_len (s : string) : Z := Z.of_nat (String.length s).

(** [u32::to_be_bytes] and [u32::to_le_bytes]. *)
Definition u32_to_be_bytes (n : Z) : bytes :=
  [byte_of_Z (n / 2 ^ 24); byte_of_Z (n / 2 ^ 16); byte_of_Z (n / 2 ^ 8); byte_of_Z n].
Definition u32_to_le_bytes (n : Z) : bytes := reverse (u32_to_be_bytes n).

(** ** Fixed-size byte arrays, [[u8; N]] *)

Record array (n : nat) : Type := Array
  { arr_data : bytes; arr_len : bool_decide (length arr_data = n) }.
Arguments Array {n}.
Arguments arr_data {n}.
Arguments arr_len {n}.

(** [<[u8; N]>::try_from(&[u8])]. *)
Definition array_of (n : nat) (b : bytes) : option (array n) :=
  (if bool_decide (length b = n) as c return ((c -> array n) -> option (array n))
   then fun f => Some (f I) else fun _ => None) (Array b).

Lemma array_ext {n} (a b : array n) : arr_data a = arr_data b -> a = b.
Proof.
  destruct a as [a Ha], b as [b Hb]; simpl; intros ->.
  f_equal. apply proof_irrel.
Qed.

Lemma array_length {n} (a : array n) : length (arr_data a) = n.
Proof. destruct a as [a Ha]; simpl. by apply bool_decide_unpack in Ha. Qed.

Lemma array_of_Some n b a : array_of n b = Some a <-> arr_data a = b.
Proof.
  unfold array_of.
  assert (forall (c : bool) (f : c -> array n), (forall h, arr_data (f h) = b) ->
    (Is_true c <-> length b = n) ->
    (if c as c return ((c -> array n) -> option (array n))
     then fun f => Some (f I) else fun _ => None) f = Some a <-> arr_data a = b) as Hgen.
  { intros [] f Hf Hc; split.
    - intros [= <-]. apply Hf.
    - intros E. f_equal. apply array_ext. by rewrite Hf.
    - done.
    - intros <-. destruct (proj2 Hc (array_length a)). }
  apply Hgen; [done|]. apply bool_decide_spec.
Qed.

Lemma array_of_data {n} (a : array n) : array_of n (arr_data a) = Some a.
Proof. by apply array_of_Some. Qed.

Lemma array_of_None n b : array_of n b = None <-> length b <> n.
Proof.
  destruct (array_of n b) as [a|] eqn:E.
  - apply array_of_Some in E as <-. by rewrite array_length.
  - split; [|done]. intros _ Hl.
    by rewrite (proj2 (array_of_Some n b (Array b (bool_decide_pack _ Hl)))) in E.
Qed.

#[export] Instance array_eq_dec n : EqDecision (array n).
Proof.
  refine (fun a b => cast_if (decide (arr_data a = arr_data b))).
  - by apply array_ext.
  - congruence.
Defined.

#[export] Program Instance array_countable n : Countable (array n) :=
  inj_countable arr_data (array_of n) _.
Next Obligation. intros. apply array_of_data. Qed.

(** ** Lists *)

Lemma NoDup_map_inj {A B} (f : A -> B) (l : list A) x y :
  NoDup (map f l) -> x ∈ l -> y ∈ l -> f x = f y -> x = y.
Proof.
  induction l as [|z l IH]; simpl; [set_solver|]. inversion_clear 1 as [|? ? Hz Hnd].
  rewrite !elem_of_cons. intros [->|Hx] [->|Hy] E; [done|..|by apply IH];
    destruct Hz; apply list_elem_of_fmap; eauto.
Qed.

Lemma byte_to_Z_range b : 0 <= byte_to_Z b < 256.
Proof. unfold byte_to_Z. pose proof (Byte.to_N_bounded b). lia. Qed.

Lemma byte_to_of_Z z : byte_to_Z (byte_of_Z z) = z mod 256.
Proof.
  unfold byte_to_Z, byte_of_Z. pose proof (Z.mod_pos_bound z 256).
  destruct (Byte.of_N (Z.to_N (z mod 256))) as [b|] eqn:E; simpl.
  - apply Byte.to_of_N in E. rewrite E. lia.
  - apply Byte.of_N_None_iff in E. lia.
Qed.

Lemma byte_to_Z_inj b c : byte_to_Z b = byte_to_Z c -> b = c.
Proof.
  unfold byte_to_Z. intros E%N2Z.inj. apply (inj Some). by rewrite <- !Byte.of_to_N, E.
Qed.

(** The four bytes of a number, the lowest one first. *)
Definition le32 (n : Z) (b : bytes) : Prop :=
  exists b0 b1 b2 b3, b = [b0; b1; b2; b3] /\
    n = byte_to_Z b0 + 2 ^ 8 * byte_to_Z b1 + 2 ^ 16 * byte_to_Z b2 + 2 ^ 24 * byte_to_Z b3.

Lemma le32_to_le_bytes n b : 0 <= n <= u32_max -> le32 n b <-> b = u32_to_le_bytes n.
Proof.
  unfold u32_max, u32_to_le_bytes, u32_to_be_bytes. change (reverse [?a; ?b; ?c; ?d]) with [d; c; b; a].
  intros Hn. split.
  - intros (b0 & b1 & b2 & b3 & -> & ->).
    pose proof (byte_to_Z_range b0). pose proof (byte_to_Z_range b1).
    pose proof (byte_to_Z_range b2). pose proof (byte_to_Z_range b3).
    f_equal; [|f_equal; [|f_equal; [|f_equal]]]; apply byte_to_Z_inj; rewrite byte_to_of_Z;
      Z.div_mod_to_equations; lia.
  - intros ->. do 4 eexists. split; [done|]. rewrite !byte_to_of_Z. Z.div_mod_to_equations. lia.
Qed.

Lemma length_omap_le {A B} (f : A -> option B) (l : list A) : (length (omap f l) <= length l)%nat.
Proof. induction l as [|a l IH]; csimpl; [lia|]. destruct (f a); csimpl; lia. Qed.

Lemma len_app {A} (l k : list A) : len (l ++ k) = len l + len k.
Proof. unfold len. rewrite length_app. lia. Qed.

Lemma len_cons {A} (x : A) l : len (x :: l) = 1 + len l.
Proof. unfold len. simpl. lia. Qed.

Lemma len_nonneg {A} (l : list A) : 0 <= len l.
Proof. unfold len. lia. Qed.

(** ** A weakest-precondition calculus for [stm] *)

(** [Q] holds after a value, [X] after an error. *)
Definition wp {S E T} (m : stm S E T) (Q : T -> S -> Prop) (X : E -> S -> Prop) (s : S) : Prop :=
  match m s with
  | (Ok t, s') => Q t s'
  | (Err e, s') => X e s'
  end.

Section wp.
Context {S E : Type} (X : E -> S -> Prop).

Lemma wp_ret {T} (t : T) (Q : T -> S -> Prop) s : Q t s -> wp (mret t) Q X s.
Proof. done. Qed.

Lemma wp_bind {T U} (m : stm S E T) (f : T -> stm S E U) (Q : U -> S -> Prop) s :
  wp m (fun t => wp (f t) Q X) X s -> wp (m ≫= f) Q X s.
Proof. unfold wp, mbind, stm_bind. by destruct (m s) as [[t|e] s']. Qed.

Lemma wp_mono {T} (m : stm S E T) (Q Q' : T -> S -> Prop) s :
  wp m Q X s -> (forall t s', Q t s' -> Q' t s') -> wp m Q' X s.
Proof. unfold wp. destruct (m s) as [[t|e] s']; eauto. Qed.

Lemma wp_get (Q : S -> S -> Prop) s : Q s s -> wp get_state Q X s.
Proof. done. Qed.

Lemma wp_modify (f : S -> S) (Q : unit -> S -> Prop) s : Q tt (f s) -> wp (modify f) Q X s.
Proof. done. Qed.

Lemma wp_throw {T} e (Q : T -> S -> Prop) s : X e s -> wp (throw e) Q X s.
Proof. done. Qed.

Lemma wp_for_each {A} (f : A -> stm S E unit) (l : list A) (I : S -> Prop) s :
  (forall a s, a ∈ l -> I s -> wp (f a) (fun _ => I) X s) -> I s ->
  wp (for_each f l) (fun _ => I) X s.
Proof.
  revert s. induction l as [|a l IH]; intros s Hf Hs; simpl; [done|].
  apply wp_bind. eapply wp_mono; [apply Hf; [left|done]|]. intros [] s' Hs'.
  apply IH; [|done]. intros a' s2 Ha'. apply Hf. by right.
Qed.
End wp.

Create HintDb stm discriminated.
#[export] Hint Resolve wp_ret wp_get wp_modify wp_throw : stm.
