(* ===== verification/Types.v ===== *)
(** * Shared data types and the crate's error type

    [VerificationId] and [ProofType] (src/src/proof.rs), the verification lifecycle's data
    (src/src/store/record.rs) and [Error] (src/src/error.rs), which mentions both.
    Paths and messages are strings, with a Rust string taken as its UTF-8 bytes. A
    [source] of a foreign error type is kept as far as the code inspects it: the kind of
    an I/O error and whether a join error is a cancellation. *)

From stdpp Require Import base gmap list strings.
From S2P Require Import Prelude.

(** ** Proof identity *)

Definition VERIFICATION_ID_LEN : nat := 32.

(** [struct VerificationId([u8; 32])]. *)
Abbreviation VerificationId := (array VERIFICATION_ID_LEN).

(** [VerificationId::as_bytes]. *)
Definition as_bytes (id : VerificationId) : bytes := arr_data id.

Inductive ProofType : Set :=
| MinaPickles
| NoirBarretenberg.

#[export] Instance ProofType_eq_dec : EqDecision ProofType.
Proof. solve_decision. Defined.

#[export] Program Instance ProofType_countable : Countable ProofType :=
  inj_countable (fun t => match t with MinaPickles => false | NoirBarretenberg => true end)
    (fun b : bool => Some (if b then NoirBarretenberg else MinaPickles)) _.
Next Obligation. by intros []. Qed.

(** ** Verification lifecycle *)

Inductive VerificationVerdict : Set :=
| Valid
| Invalid.

#[export] Instance VerificationVerdict_eq_dec : EqDecision VerificationVerdict.
Proof. solve_decision. Defined.

Record VerificationFailure : Set := mkFailure
  { code : string; message : string; retryable : bool }.

#[export] Instance VerificationFailure_eq_dec : EqDecision VerificationFailure.
Proof. solve_decision. Defined.

Inductive VerificationState : Set :=
| Queued
| Verifying
| Completed (verdict : VerificationVerdict)
| Failed (failure : VerificationFailure).

#[export] Instance VerificationState_eq_dec : EqDecision VerificationState.
Proof. solve_decision. Defined.

(** ** Socket addresses, [std::net] *)

(** An IPv4 address as its four octets, an IPv6 address as its eight segments. *)
Inductive IpAddr : Set :=
| V4 (a b c d : Z)
| V6 (segments : list Z).

#[export] Instance IpAddr_eq_dec : EqDecision IpAddr.
Proof. solve_decision. Defined.

(** [std::net::SocketAddr]; [scope_id] is 0 for an IPv4 address, and so is the flow
    information of every address that was parsed from text. *)
Record SocketAddr : Set := mkSocketAddr { ip : IpAddr; port : Z; scope_id : Z }.

#[export] Instance SocketAddr_eq_dec : EqDecision SocketAddr.
Proof. solve_decision. Defined.

(** ** Errors *)

(** [io::ErrorKind], as far as the crate distinguishes it. *)
Inductive IoErrorKind : Set :=
| KindNotFound
| KindConnectionRefused
| KindInvalidData
| KindInvalidInput
| KindOther.

#[export] Instance IoErrorKind_eq_dec : EqDecision IoErrorKind.
Proof. solve_decision. Defined.

Record IoError : Set := mkIoError { io_kind : IoErrorKind; io_message : string }.

#[export] Instance IoError_eq_dec : EqDecision IoError.
Proof. solve_decision. Defined.

(** [tokio::task::JoinError]. *)
Inductive JoinError : Set :=
| JoinCancelled
| JoinPanicked.

#[export] Instance JoinError_eq_dec : EqDecision JoinError.
Proof. solve_decision. Defined.

(** The reason of an [InvalidVerificationTransition]: one constructor per message the
    store formats, with the value the message prints. *)
Inductive TransitionReason : Set :=
| ClaimedRecordHasNoProof
| ExpectedVerifying (found : option VerificationState)
| RecordDoesNotExist
| ExpectedRetryableFailed (found : option VerificationState).

#[export] Instance TransitionReason_eq_dec : EqDecision TransitionReason.
Proof. solve_decision. Defined.

Inductive Error : Set :=
| ConfigRead (path : string) (source : IoError)
| ConfigParse (path : string) (source : string)
| InvalidConfig (message : string)
| AlreadyRunning (path : string)
| NotRunning (path : string)
| UnsafeSocketPath (path : string) (reason : string)
| ControlIo (path : string) (source : IoError)
| ControlTimeout (path : string)
| ControlProtocol (message : string)
| ShutdownTimeout (timeout : Z)
| SignalError (source : IoError)
| TaskError (source : JoinError)
| TelemetryError (message : string)
| P2pIdentity (message : string)
| P2pAuthorization (message : string)
| ChainError (message : string)
| InvalidSubmission (message : string)
| TransactionTooLarge (actual_bytes max_bytes : Z)
| CheckTxRejected (transaction_hash codespace : string) (code : Z) (log : string)
| TransactionHashMismatch
| ChainIdMismatch (expected actual : string)
| InvalidChainContract (message : string)
| LocalValidatorRemoved (peer : string)
| P2pProtocol (message : string)
| P2pDriver (message : string)
| P2pDraining
| P2pDriverClosed
| TaskExitedUnexpectedly (task : string)
| InvalidVerificationId (message : string)
| UnsupportedProofType (value : Z)
| ProofStoreError (message : string)
| ProofTooLarge (verification_id : VerificationId) (actual_bytes max_bytes : Z)
| VerificationIdMismatch (verification_id : VerificationId)
| ProofNotObserved (verification_id : VerificationId)
| InvalidVerificationTransition (verification_id : VerificationId)
    (reason : TransitionReason)
| InvalidVerificationFailure (message : string)
| DuplicateVerifier (proof_type : ProofType)
| NoirInitialization (message : string)
| InvalidVerificationRequest (message : string)
| RpcBind (address : SocketAddr) (source : IoError)
| RpcServerError (message : string).

#[export] Instance Error_eq_dec : EqDecision Error.
Proof. solve_decision. Defined.

(** [crate::Result<T>]. *)
Abbreviation Result := (result Error).
