(* ===== verification/StdText.v ===== *)
(** * Standard-library text functions the crate uses

    [str::trim], [str::starts_with], [Path::is_absolute], [Path::join], [str::from_utf8], the parsers
    of [std::net::SocketAddr] and of the integers. A string is its UTF-8 bytes. *)

From stdpp Require Import base list strings pretty.
From S2P Require Import Prelude Types.

(** ** Trimming *)

Definition text (s : string) : bytes := String.list_byte_of_string s.
Definition of_text (b : bytes) : string := String.string_of_list_byte b.

Lemma length_text s : length (text s) = String.length s.
Proof. unfold text, String.list_byte_of_string. rewrite length_map. induction s as [|c s IH]; simpl; congruence. Qed.

(** The UTF-8 encodings of the characters with the White_Space property. *)
Definition whitespace : list bytes :=
  [[Byte.x09]; [Byte.x0a]; [Byte.x0b]; [Byte.x0c]; [Byte.x0d]; [Byte.x20];
   [Byte.xc2; Byte.x85]; [Byte.xc2; Byte.xa0]; [Byte.xe1; Byte.x9a; Byte.x80];
   [Byte.xe2; Byte.x80; Byte.x80]; [Byte.xe2; Byte.x80; Byte.x81]; [Byte.xe2; Byte.x80; Byte.x82];
   [Byte.xe2; Byte.x80; Byte.x83]; [Byte.xe2; Byte.x80; Byte.x84]; [Byte.xe2; Byte.x80; Byte.x85];
   [Byte.xe2; Byte.x80; Byte.x86]; [Byte.xe2; Byte.x80; Byte.x87]; [Byte.xe2; Byte.x80; Byte.x88];
   [Byte.xe2; Byte.x80; Byte.x89]; [Byte.xe2; Byte.x80; Byte.x8a]; [Byte.xe2; Byte.x80; Byte.xa8];
   [Byte.xe2; Byte.x80; Byte.xa9]; [Byte.xe2; Byte.x80; Byte.xaf]; [Byte.xe2; Byte.x81; Byte.x9f];
   [Byte.xe3; Byte.x80; Byte.x80]].

(** [b] without the prefix [p], if it has it. *)
Fixpoint strip_prefix (p b : bytes) : option bytes :=
  match p, b with
  | [], _ => Some b
  | x :: p', y :: b' => if Byte.eqb x y then strip_prefix p' b' else None
  | _ :: _, [] => None
  end.

(** [b] without the first of [ps] that it starts with. *)
Fixpoint strip_any (ps : list bytes) (b : bytes) : option bytes :=
  match ps with
  | [] => None
  | p :: ps' => match strip_prefix p b with Some r => Some r | None => strip_any ps' b end
  end.

(** Strips as long as something can be stripped; each round takes a byte at least. *)
Fixpoint strip_all (fuel : nat) (ps : list bytes) (b : bytes) : bytes :=
  match fuel with
  | O => b
  | S fuel => match strip_any ps b with Some r => strip_all fuel ps r | None => b end
  end.

Definition trim (s : string) : string :=
  let front := strip_all (length (text s)) whitespace (text s) in
  of_text (reverse (strip_all (length front) (map reverse whitespace) (reverse front))).

Definition starts_with (s p : string) : bool :=
  match strip_prefix (text p) (text s) with Some _ => true | None => false end.

(** [Path::is_absolute] on Unix. *)
Definition is_absolute (path : string) : bool := starts_with path "/".

(** [Path::join] of a relative file name. *)
Definition path_join (path file : string) : string :=
  match reverse (text path) with
  | c :: _ => if Byte.eqb c Byte.x2f then path +:+ file else path +:+ "/" +:+ file
  | [] => file
  end.

(** ** UTF-8 *)

Definition between (low high : Z) (b : byte) : bool := (low <=? byte_to_Z b) && (byte_to_Z b <=? high).

(** The ranges the continuation bytes of a first byte are in. *)
Definition utf8_continuation (first : byte) : option (list (Z * Z)) :=
  if between 0 127 first then Some []
  else if between 194 223 first then Some [(128, 191)]
  else if between 224 224 first then Some [(160, 191); (128, 191)]
  else if between 237 237 first then Some [(128, 159); (128, 191)]
  else if between 225 239 first then Some [(128, 191); (128, 191)]
  else if between 240 240 first then Some [(144, 191); (128, 191); (128, 191)]
  else if between 241 243 first then Some [(128, 191); (128, 191); (128, 191)]
  else if between 244 244 first then Some [(128, 143); (128, 191); (128, 191)]
  else None.

(** What is after the continuation bytes; else how many bytes are wrong, [None] at the end. *)
Fixpoint utf8_rest (ranges : list (Z * Z)) (b : bytes) (bad : nat) : result (option nat) bytes :=
  match ranges with
  | [] => Ok b
  | (low, high) :: ranges =>
      match b with
      | [] => Err None
      | c :: b' => if between low high c then utf8_rest ranges b' (S bad) else Err (Some bad)
      end
  end.

(** [Utf8Error]: the index of the first invalid sequence, and its length. *)
Fixpoint utf8_check (fuel index : nat) (b : bytes) : result (nat * option nat) unit :=
  match fuel, b with
  | S fuel, first :: rest =>
      match utf8_continuation first with
      | None => Err (index, Some 1%nat)
      | Some ranges =>
          match utf8_rest ranges rest 1 with
          | Ok rest => utf8_check fuel (index + S (length ranges)) rest
          | Err bad => Err (index, bad)
          end
      end
  | _, _ => Ok tt
  end.

Definition utf8_error_text (e : nat * option nat) : string :=
  match snd e with
  | Some n => "invalid utf-8 sequence of " +:+ pretty n +:+ " bytes from index " +:+ pretty (fst e)
  | None => "incomplete utf-8 byte sequence from index " +:+ pretty (fst e)
  end.

(** [String::from_utf8] *)
Definition from_utf8 (b : bytes) : result string string :=
  match utf8_check (length b) 0 b with Ok _ => Ok (of_text b) | Err e => Err (utf8_error_text e) end.

(** ** Socket addresses *)

(** A parser of [core::net::parser]: the value and the input after it. *)
Definition parser (A : Type) : Type := bytes -> option (A * bytes).

#[export] Instance parser_ret : MRet parser := fun A a b => Some (a, b).
#[export] Instance parser_bind : MBind parser := fun A B f p b =>
  match p b with Some (a, r) => f a r | None => None end.

Definition read_char (c : byte) : parser unit := fun b =>
  match b with x :: r => if Byte.eqb x c then Some (tt, r) else None | [] => None end.

(** [char::to_digit] *)
Definition to_digit (radix : Z) (c : byte) : option Z :=
  let v := byte_to_Z c in
  let d := if (48 <=? v) && (v <=? 57) then v - 48
    else if (97 <=? v) && (v <=? 122) then v - 87
    else if (65 <=? v) && (v <=? 90) then v - 55 else radix in
  if d <? radix then Some d else None.

(** [read_number]: digits up to [limit], at most [max_digits] of them. *)
Fixpoint read_digits (radix limit : Z) (max_digits : option nat) (b : bytes) (value : Z) (count : nat)
  : option (Z * nat * bytes) :=
  match b with
  | [] => Some (value, count, [])
  | c :: r =>
      match to_digit radix c with
      | None => Some (value, count, b)
      | Some d =>
          if limit <? value * radix + d then None
          else if match max_digits with Some m => (m <=? count)%nat | None => false end then None
          else read_digits radix limit max_digits r (value * radix + d) (S count)
      end
  end.

Definition read_number (radix limit : Z) (max_digits : option nat) (allow_zero_prefix : bool)
  : parser Z := fun b =>
  match read_digits radix limit max_digits b 0 0 with
  | None | Some (_, O, _) => None
  | Some (value, count, r) =>
      if negb allow_zero_prefix && bool_decide (head b = Some Byte.x30) && (1 <? count)%nat then None
      else Some (value, r)
  end.

(** [read_separator]: every element but the first comes after a separator. *)
Definition separated {A} (c : byte) (index : nat) (p : parser A) : parser A :=
  if (0 <? index)%nat then _ ← read_char c; p else p.

Definition dot : byte := Byte.x2e.
Definition colon : byte := Byte.x3a.

Definition read_ipv4_addr : parser (Z * Z * Z * Z) :=
  let octet := read_number 10 255 (Some 3%nat) false in
  a ← octet; b ← separated dot 1 octet; c ← separated dot 2 octet; d ← separated dot 3 octet;
  mret (a, b, c, d).

(** [read_groups]: up to [limit] groups, of which the i-th comes next; whether an embedded
    IPv4 address ended them, and the rest of the input. *)
Fixpoint read_groups (limit i : nat) (left : nat) (b : bytes) : list Z * bool * bytes :=
  match left with
  | O => ([], false, b)
  | S left' =>
      match (if (i <? limit - 1)%nat then separated colon i read_ipv4_addr b else None) with
      | Some ((w, x, y, z), r) => ([w * 256 + x; y * 256 + z], true, r)
      | None =>
          match separated colon i (read_number 16 65535 (Some 4%nat) true) b with
          | Some (g, r) => let '(gs, v4, r') := read_groups limit (S i) left' r in (g :: gs, v4, r')
          | None => ([], false, b)
          end
      end
  end.

Definition read_ipv6_addr : parser (list Z) := fun b =>
  let '(head, head_v4, r) := read_groups 8 0 8 b in
  if (length head =? 8)%nat then Some (head, r)
  else if head_v4 then None
  else match (_ ← read_char colon; read_char colon) r with
  | None => None
  | Some (_, r) =>
      let limit := (8 - (length head + 1))%nat in
      let '(tail, _, r') := read_groups limit 0 limit r in
      Some (head ++ replicate (8 - length head - length tail) 0 ++ tail, r')
  end.

Definition read_port : parser Z := _ ← read_char colon; read_number 10 65535 None true.

Definition optional {A} (p : parser A) : parser (option A) := fun b =>
  match p b with Some (a, r) => Some (Some a, r) | None => Some (None, b) end.

Definition read_socket_addr_v4 : parser SocketAddr :=
  '(a, b, c, d) ← read_ipv4_addr; port ← read_port; mret (mkSocketAddr (V4 a b c d) port 0).

Definition read_socket_addr_v6 : parser SocketAddr :=
  _ ← read_char Byte.x5b;
  segments ← read_ipv6_addr;
  scope ← optional (_ ← read_char Byte.x25; read_number 10 u32_max None true);
  _ ← read_char Byte.x5d;
  port ← read_port;
  mret (mkSocketAddr (V6 segments) port (default 0 scope)).

(** [value.parse::<SocketAddr>()]; the whole text must be read. *)
Definition socket_addr_from_str (s : string) : result string SocketAddr :=
  let finished (p : option (SocketAddr * bytes)) := match p with Some (a, []) => Some a | _ => None end in
  match read_socket_addr_v4 (text s) with
  | Some r => ok_or (finished (Some r)) "invalid socket address syntax"
  | None => ok_or (finished (read_socket_addr_v6 (text s))) "invalid socket address syntax"
  end.

Definition is_loopback (a : IpAddr) : bool :=
  match a with
  | V4 a _ _ _ => a =? 127
  | V6 segments => bool_decide (segments = [0; 0; 0; 0; 0; 0; 0; 1])
  end.

(** ** The parser on known addresses *)

Lemma socket_addr_samples :
  map socket_addr_from_str ["127.0.0.1:50051"; "[::1]:80"; "[fe80::1%3]:9"; "[::ffff:10.0.0.1]:1"] =
    [Ok (mkSocketAddr (V4 127 0 0 1) 50051 0); Ok (mkSocketAddr (V6 [0; 0; 0; 0; 0; 0; 0; 1]) 80 0);
     Ok (mkSocketAddr (V6 [65152; 0; 0; 0; 0; 0; 0; 1]) 9 3);
     Ok (mkSocketAddr (V6 [0; 0; 0; 0; 0; 65535; 2560; 1]) 1 0)] /\
  map (fun s => is_ok (socket_addr_from_str s))
    ["localhost:80"; "127.0.0.01:80"; "127.0.0.1"; "256.0.0.1:1"; "127.0.0.1:65536"; "[::1]:80 "] =
    [false; false; false; false; false; false].
Proof. split; vm_compute; reflexivity. Qed.

Lemma trim_samples : trim "  pulsar-1	" = "pulsar-1" /\ trim "   " = "" /\ trim "a b" = "a b".
Proof. split_and!; vm_compute; reflexivity. Qed.

(** ** Integers, [str::parse] *)

Inductive IntErrorKind : Set := IntEmpty | IntInvalidDigit | IntPosOverflow | IntNegOverflow.

Definition int_error_text (e : IntErrorKind) : string :=
  match e with
  | IntEmpty => "cannot parse integer from empty string"
  | IntInvalidDigit => "invalid digit found in string"
  | IntPosOverflow => "number too large to fit in target type"
  | IntNegOverflow => "number too small to fit in target type"
  end.

(** The digits of a number between [low] and [high], with the given sign. *)
Fixpoint parse_digits (low high : Z) (negative : bool) (digits : bytes) (value : Z)
  : result IntErrorKind Z :=
  match digits with
  | [] => Ok value
  | c :: rest =>
      match to_digit 10 c with
      | None => Err IntInvalidDigit
      | Some d =>
          if negative then
            if (value * 10 <? low) || (value * 10 - d <? low) then Err IntNegOverflow
            else parse_digits low high negative rest (value * 10 - d)
          else
            if (high <? value * 10) || (high <? value * 10 + d) then Err IntPosOverflow
            else parse_digits low high negative rest (value * 10 + d)
      end
  end.

Definition parse_int (low high : Z) (s : string) : result IntErrorKind Z :=
  match text s with
  | [] => Err IntEmpty
  | c :: rest =>
      let plus := Byte.eqb c Byte.x2b in
      let minus := Byte.eqb c Byte.x2d in
      if (plus || minus) && bool_decide (rest = []) then Err IntInvalidDigit
      else if plus then parse_digits low high false rest 0
      else if minus && (low <? 0) then parse_digits low high true rest 0
      else parse_digits low high false (c :: rest) 0
  end.

Lemma parse_digits_bounds low high (negative : bool) digits value n :
  low <= 0 <= high -> low <= value <= high -> (if negative then value <= 0 else 0 <= value) ->
  parse_digits low high negative digits value = Ok n -> low <= n <= high.
Proof.
  intros Hb. revert value. induction digits as [|c digits IH]; intros value Hv Hs; simpl; [by intros [= <-]|].
  unfold to_digit. set (d := if _ && _ then _ else _). destruct (Z.ltb_spec d 10); [|done].
  assert (0 <= d).
  { pose proof (byte_to_Z_range c). unfold d. repeat case_match; try lia;
      rewrite ?andb_true_iff, ?Z.leb_le in *; lia. }
  destruct negative.
  - destruct (Z.ltb_spec (value * 10) low), (Z.ltb_spec (value * 10 - d) low); simpl; try done.
    apply IH; lia.
  - destruct (Z.ltb_spec high (value * 10)), (Z.ltb_spec high (value * 10 + d)); simpl; try done.
    apply IH; lia.
Qed.

Lemma parse_int_bounds low high s n :
  low <= 0 <= high -> parse_int low high s = Ok n -> low <= n <= high.
Proof.
  intros Hb. unfold parse_int. destruct (text s); [done|].
  repeat case_match; try done; by apply parse_digits_bounds.
Qed.
