(* ===== verification/Wire.v ===== *)
(** * Protobuf messages and the foreign code behind them

    The messages of src/crates/pulsar-verifier-proto/proto that the crate reads or writes.
    The code that encodes and decodes them is generated by prost during the build, so it
    is a parameter: [Message] is prost's trait of the same name. A record keeps the
    fields the crate touches. SHA-256, libp2p's peer identities and the hex text format
    are parameters in the same way. *)

From stdpp Require Import base gmap list strings.
From S2P Require Import Prelude Types.

(** ** Foreign code *)

(** [sha2::Sha256::digest]. *)
Class Sha256 := sha256 : bytes -> array 32.

(** [libp2p::PeerId]: an opaque identity with its binary and textual form. *)
Class Libp2p := {
  PeerId : Type;
  PeerId_eq_dec :: EqDecision PeerId;
  PeerId_countable :: Countable PeerId;
  peer_to_bytes : PeerId -> bytes;
  peer_from_bytes : bytes -> result string PeerId;
  peer_to_string : PeerId -> string
}.

(** What the crate relies on of a peer identity: its bytes decode to it. *)
Class Libp2pLaws `{Libp2p} : Prop :=
  peer_from_to_bytes : forall p, peer_from_bytes (peer_to_bytes p) = Ok p.

(** [libp2p::Multiaddr]; [multiaddr_pop] takes off the last protocol. *)
Inductive Protocol `{Libp2p} : Type :=
| P2p (peer : PeerId)
| OtherProtocol.

Class Multiaddrs `{Libp2p} := {
  Multiaddr : Type;
  multiaddr_from_str : string -> result string Multiaddr;
  multiaddr_to_string : Multiaddr -> string;
  multiaddr_pop : Multiaddr -> option Protocol * Multiaddr
}.

(** The [hex] crate. *)
Class Hex := {
  hex_encode : bytes -> string;
  hex_decode : string -> result string bytes
}.

Class HexLaws `{Hex} : Prop := hex_decode_encode : forall b, hex_decode (hex_encode b) = Ok b.

(** [prost::encoding::encoded_len_varint]. *)
Class ProstVarint := encoded_len_varint : Z -> Z.

(** [prost::Message]: an error is its display text. *)
Class Message (M : Type) := {
  encode_to_vec : M -> bytes;
  encoded_len : M -> Z;
  decode : bytes -> result string M
}.

(** What the crate relies on of generated message code. *)
Class MessageLaws (M : Type) `{Message M} : Prop := {
  decode_encode : forall m, decode (encode_to_vec m) = Ok m;
  encoded_len_encode : forall m, encoded_len m = len (encode_to_vec m)
}.

(** ** pulsarchain.verification.v1 *)

(** [enum ProofType] of types.proto. *)
Inductive WireProofType : Set :=
| WireUnspecified
| WireMinaPickles
| WireNoirBarretenberg.

Definition wire_proof_type_value (t : WireProofType) : Z :=
  match t with WireUnspecified => 0 | WireMinaPickles => 1 | WireNoirBarretenberg => 2 end.

(** [WireProofType::try_from(i32)]: the variant with that number, if there is one. *)
Definition wire_proof_type_try_from (value : Z) : option WireProofType :=
  if value =? 0 then Some WireUnspecified
  else if value =? 1 then Some WireMinaPickles
  else if value =? 2 then Some WireNoirBarretenberg
  else None.

Record MsgSubmitProof : Set := mkMsgSubmitProof {
  signer : string;
  msg_proof_hash : bytes;
  msg_proof_type : Z;
  msg_public_inputs_hash : bytes;
  msg_verification_key_hash : bytes
}.

(** ** cosmos.tx.v1beta1 *)

(** [google.protobuf.Any]. *)
Record Any : Set := mkAny { type_url : string; any_value : bytes }.

Record TxRaw : Set := mkTxRaw
  { body_bytes : bytes; auth_info_bytes : bytes; signatures : list bytes }.

Record TxBody : Set := mkTxBody { messages : list Any; memo : string }.

Record SignerInfo : Set := mkSignerInfo { public_key : option Any; sequence : Z }.

Record AuthInfo : Set := mkAuthInfo { signer_infos : list SignerInfo }.

(** ** pulsar.verifier.v1 *)

(** [message Proof] of proof.proto. *)
Record WireProof : Set := mkWireProof {
  wire_proof_type : Z;
  wire_proof : bytes;
  wire_public_inputs : bytes;
  wire_verification_key : bytes
}.

Record AvailabilityAnnouncement : Set := mkAvailabilityAnnouncement
  { ann_verification_id : bytes }.

Record AvailabilityQuery : Set := mkAvailabilityQuery
  { query_request_id : bytes; query_verification_id : bytes }.

Record AvailabilityResponse : Set := mkAvailabilityResponse {
  resp_request_id : bytes;
  resp_verification_id : bytes;
  provider_peer_ids : list bytes
}.

Inductive AvailabilityPayload : Set :=
| PayloadAnnouncement (v : AvailabilityAnnouncement)
| PayloadQuery (v : AvailabilityQuery)
| PayloadResponse (v : AvailabilityResponse).

Record AvailabilityMessage : Set := mkAvailabilityMessage
  { avail_chain_id : string; payload : option AvailabilityPayload }.

Record GetProofRequest : Set := mkGetProofRequest
  { gpr_chain_id : string; gpr_verification_id : bytes }.

Inductive GetProofResult : Set :=
| ResultProof (proof : WireProof)
| ResultNotFound.

Record GetProofResponse : Set := mkGetProofResponse
  { gps_chain_id : string; gps_result : option GetProofResult }.

Record SubmitProofRequest : Set := mkSubmitProofRequest
  { submit_proof : option WireProof; submit_tx_raw : bytes }.

Record SubmitProofResponse : Set := mkSubmitProofResponse
  { submitted_verification_id : bytes; submitted_transaction_hash : bytes }.

(** The verification service's messages (verification_service.proto). *)
Inductive WireVerdict : Set :=
| VerdictUnspecified
| VerdictValid
| VerdictInvalid.

Definition wire_verdict_value (v : WireVerdict) : Z :=
  match v with VerdictUnspecified => 0 | VerdictValid => 1 | VerdictInvalid => 2 end.

Inductive WirePhase : Set :=
| PhaseUnspecified
| PhaseUnavailable
| PhaseQueued
| PhaseVerifying
| PhaseCompleted
| PhaseFailed.

Definition wire_phase_value (p : WirePhase) : Z :=
  match p with
  | PhaseUnspecified => 0
  | PhaseUnavailable => 1
  | PhaseQueued => 2
  | PhaseVerifying => 3
  | PhaseCompleted => 4
  | PhaseFailed => 5
  end.

Record WireResult : Set := mkWireResult
  { result_verification_id : bytes; result_verdict : Z }.

Record WireFailure : Set := mkWireFailure
  { wire_code : string; wire_message : string; wire_retryable : bool }.

Record ProofVerificationStatus : Set := mkProofVerificationStatus {
  status_verification_id : bytes;
  status_phase : Z;
  status_verdict : Z;
  status_failure : option WireFailure
}.

(** ** The proto3 wire format, as the reference for the sizes *)

(** Little-endian base-128: the varint of an unsigned 64-bit integer takes at most ten
    bytes, which is the fuel. *)
Fixpoint leb128 (fuel : nat) (v : Z) : bytes :=
  match fuel with
  | O => []
  | S fuel' =>
      if v <? 128 then [byte_of_Z v] else byte_of_Z (v mod 128 + 128) :: leb128 fuel' (v / 128)
  end.

Definition varint (v : Z) : bytes := leb128 10 v.

(** A length-delimited [bytes] field with its tag; proto3 leaves out an empty one. *)
Definition proto3_bytes_field (tag : byte) (b : bytes) : bytes :=
  if (len b =? 0)%Z then [] else tag :: varint (len b) ++ b.

(** An enum field; proto3 leaves out the default 0, and a negative number is sent as its
    64-bit two's complement. *)
Definition proto3_enum_field (tag : byte) (v : Z) : bytes :=
  if (v =? 0)%Z then [] else tag :: varint (v mod 2 ^ 64).

(** [message Proof] of proof.proto. *)
Definition proto3_proof (w : WireProof) : bytes :=
  proto3_enum_field Byte.x08 (wire_proof_type w)
    ++ proto3_bytes_field Byte.x12 (wire_proof w)
    ++ proto3_bytes_field Byte.x1a (wire_public_inputs w)
    ++ proto3_bytes_field Byte.x22 (wire_verification_key w).

(** prost's documented behaviour: the length of a varint, and the proto3 encoding of a
    message. *)
Class VarintLaw `{ProstVarint} : Prop :=
  encoded_len_varint_spec : forall v, 0 <= v < 2 ^ 64 -> encoded_len_varint v = len (varint v).
Class ProofMessageLaw `{Message WireProof} : Prop :=
  encode_wire_proof : forall w, encode_to_vec w = proto3_proof w.

Lemma leb128_nonempty fuel v : (fuel <> 0)%nat -> (1 <= length (leb128 fuel v) <= fuel)%nat.
Proof.
  revert v. induction fuel as [|fuel IH]; intros v Hf; [done|]. cbn [leb128].
  destruct (v <? 128); simpl; [lia|].
  destruct fuel as [|fuel]; simpl; [lia|]. specialize (IH (v / 128)). simpl in IH. lia.
Qed.
