(* ===== verification/ErrorText.v ===== *)
(** * The texts of the errors (src/src/error.rs, the [#[error]] attributes) *)

From stdpp Require Import base list strings pretty.
From S2P Require Import Prelude Types Wire.

(** Renderings of foreign values: [JoinError]'s display (it prints tokio's task number), the
    escaping of a string under [{:?}] (it follows the Unicode tables) and a socket address. *)
Class Formatting := {
  join_error_to_string : JoinError -> string;
  str_debug : string -> string;
  socket_addr_to_string : SocketAddr -> string
}.

Section text.
Context `{Hex, Formatting}.

(** [impl Display for VerificationId]. *)
Definition verification_id_to_string (id : VerificationId) : string := hex_encode (as_bytes id).

(** The derived [Debug] of the verification types. *)
Definition verdict_debug (v : VerificationVerdict) : string :=
  match v with Valid => "Valid" | Invalid => "Invalid" end.
Definition bool_debug (b : bool) : string := if b then "true" else "false".
Definition failure_debug (f : VerificationFailure) : string :=
  "VerificationFailure { code: " +:+ str_debug (code f) +:+ ", message: " +:+ str_debug (message f)
    +:+ ", retryable: " +:+ bool_debug (retryable f) +:+ " }".
Definition state_debug (s : VerificationState) : string :=
  match s with
  | Queued => "Queued"
  | Verifying => "Verifying"
  | Completed v => "Completed(" +:+ verdict_debug v +:+ ")"
  | Failed f => "Failed(" +:+ failure_debug f +:+ ")"
  end.
Definition option_debug {A} (debug : A -> string) (o : option A) : string :=
  match o with Some a => "Some(" +:+ debug a +:+ ")" | None => "None" end.
Definition proof_type_debug (t : ProofType) : string :=
  match t with MinaPickles => "MinaPickles" | NoirBarretenberg => "NoirBarretenberg" end.

(** [Debug] of [Duration]: the largest unit that leaves a whole part, the fraction without
    trailing zeros. *)
Fixpoint fraction_digits (fuel : nat) (fraction divisor : Z) : string :=
  match fuel with
  | O => ""
  | S fuel =>
      if fraction =? 0 then ""
      else pretty (fraction / divisor) +:+ fraction_digits fuel (fraction mod divisor) (divisor / 10)
  end.
Definition decimal (whole fraction divisor : Z) (unit : string) : string :=
  pretty whole +:+ (if fraction =? 0 then "" else "." +:+ fraction_digits 9 fraction divisor) +:+ unit.
Definition duration_debug (d : Z) : string :=
  let secs := d / NANOS_PER_SEC in
  let nanos := d mod NANOS_PER_SEC in
  if 0 <? secs then decimal secs nanos 100000000 "s"
  else if 1000000 <=? nanos then decimal (nanos / 1000000) (nanos mod 1000000) 100000 "ms"
  else if 1000 <=? nanos then decimal (nanos / 1000) (nanos mod 1000) 100 "µs"
  else decimal nanos 0 1 "ns".

Definition transition_reason_text (r : TransitionReason) : string :=
  match r with
  | ClaimedRecordHasNoProof => "claimed record has no proof"
  | ExpectedVerifying found => "expected Verifying, found " +:+ option_debug state_debug found
  | RecordDoesNotExist => "record does not exist"
  | ExpectedRetryableFailed found =>
      "expected retryable Failed, found " +:+ option_debug state_debug found
  end.

(** [error.to_string()] *)
Definition error_to_string (e : Error) : string :=
  match e with
  | ConfigRead path source => "failed to read config " +:+ path +:+ ": " +:+ io_message source
  | ConfigParse path source => "failed to parse config " +:+ path +:+ ": " +:+ source
  | InvalidConfig m => "invalid configuration: " +:+ m
  | AlreadyRunning path => "another verifier is already listening on " +:+ path
  | NotRunning path => "no verifier is listening on " +:+ path
  | UnsafeSocketPath path reason => "unsafe control socket path " +:+ path +:+ ": " +:+ reason
  | ControlIo path source => "control socket operation failed for " +:+ path +:+ ": " +:+ io_message source
  | ControlTimeout path => "control request timed out for " +:+ path
  | ControlProtocol m => "unexpected control response: " +:+ m
  | ShutdownTimeout d => "verifier did not stop within " +:+ duration_debug d
  | SignalError source => "failed to install process signal handler: " +:+ io_message source
  | TaskError source => "runtime task failed: " +:+ join_error_to_string source
  | TelemetryError m => "failed to initialize telemetry: " +:+ m
  | P2pIdentity m => "P2P identity error: " +:+ m
  | P2pAuthorization m => "P2P authorization error: " +:+ m
  | ChainError m => "Pulsar chain client error: " +:+ m
  | InvalidSubmission m => "invalid proof submission: " +:+ m
  | TransactionTooLarge actual maximum =>
      "transaction is " +:+ pretty actual +:+ " bytes; maximum is " +:+ pretty maximum
  | CheckTxRejected hash codespace code log =>
      "transaction " +:+ hash +:+ " was rejected by CheckTx (" +:+ codespace +:+ ":" +:+ pretty code
        +:+ "): " +:+ log
  | TransactionHashMismatch => "CometBFT returned an unexpected transaction hash"
  | ChainIdMismatch expected actual =>
      "CometBFT chain ID mismatch: expected " +:+ expected +:+ ", got " +:+ actual
  | InvalidChainContract m => "invalid committed verification contract: " +:+ m
  | LocalValidatorRemoved peer => "local validator " +:+ peer +:+ " is not in the active validator set"
  | P2pProtocol m => "P2P protocol error: " +:+ m
  | P2pDriver m => "P2P driver error: " +:+ m
  | P2pDraining => "P2P driver is draining"
  | P2pDriverClosed => "P2P driver is closed"
  | TaskExitedUnexpectedly task => task +:+ " task exited unexpectedly"
  | InvalidVerificationId m => "invalid verification ID: " +:+ m
  | UnsupportedProofType v => "unsupported proof type: " +:+ pretty v
  | ProofStoreError m => "proof store error: " +:+ m
  | ProofTooLarge id actual maximum =>
      "proof " +:+ verification_id_to_string id +:+ " is " +:+ pretty actual
        +:+ " bytes; maximum is " +:+ pretty maximum
  | VerificationIdMismatch id =>
      "proof does not match expected verification ID " +:+ verification_id_to_string id
  | ProofNotObserved id =>
      "verification " +:+ verification_id_to_string id +:+ " has not been observed on-chain"
  | InvalidVerificationTransition id reason =>
      "invalid verification transition for " +:+ verification_id_to_string id +:+ ": "
        +:+ transition_reason_text reason
  | InvalidVerificationFailure m => "invalid verification failure: " +:+ m
  | DuplicateVerifier t => "a verifier is already registered for " +:+ proof_type_debug t
  | NoirInitialization m => "failed to initialize Noir verifier: " +:+ m
  | InvalidVerificationRequest m => "invalid verification service request: " +:+ m
  | RpcBind address source =>
      "failed to bind RPC server on " +:+ socket_addr_to_string address +:+ ": " +:+ io_message source
  | RpcServerError m => "RPC server failed: " +:+ m
  end.
End text.
