(* ===== verification/Samples.v ===== *)
(** * Concrete instances of the foreign parameters

    Used by the witnesses, which run the model on small inputs. None of them claims to be
    the library it stands for: the hash keeps the last 32 bytes, a peer identity is a number,
    and a message is written as its stdpp encoding. *)

From stdpp Require Import base gmap list strings countable.
From S2P Require Import Prelude Types Wire.

(** The last 32 bytes, most recent first, padded with zeros. *)
Definition sample_digest (b : bytes) : bytes := take 32 (reverse b ++ replicate 32 Byte.x00).

Definition zero_array : array 32 := @Array 32 (replicate 32 Byte.x00) I.

Definition sample_sha256 : Sha256 := fun b => default zero_array (array_of 32 (sample_digest b)).

(** Peers numbered by a byte. *)
Definition sample_libp2p : Libp2p := {|
  PeerId := byte;
  peer_to_bytes p := [p];
  peer_from_bytes b := match b with [p] => Ok p | _ => Err "invalid multihash" end;
  peer_to_string p := String (Ascii.ascii_of_byte p) EmptyString
|}.

Lemma sample_libp2p_laws : @Libp2pLaws sample_libp2p.
Proof. intros p. reflexivity. Qed.

(** Addresses as their text. *)
Definition sample_multiaddrs : @Multiaddrs sample_libp2p := {|
  Multiaddr := string;
  multiaddr_from_str s := Ok s;
  multiaddr_to_string s := s;
  multiaddr_pop s := (None, s)
|}.

(** The bytes themselves as text. *)
Definition sample_hex : Hex := {|
  hex_encode := String.string_of_list_byte;
  hex_decode s := Ok (String.list_byte_of_string s)
|}.

Lemma sample_hex_laws : @HexLaws sample_hex.
Proof. intros b. simpl. by rewrite String.list_byte_of_string_of_list_byte. Qed.

Definition sample_varint : ProstVarint := fun v => len (varint v).

Lemma sample_varint_law : @VarintLaw sample_varint.
Proof. intros v Hv. reflexivity. Qed.

(** proto3 for [message Proof], written only. *)
Definition sample_wire_proof_message : Message WireProof := {|
  encode_to_vec := proto3_proof;
  encoded_len w := len (proto3_proof w);
  decode _ := Err "not decoded"
|}.

Lemma sample_wire_proof_law : @ProofMessageLaw sample_wire_proof_message.
Proof. intros w. reflexivity. Qed.

(** A codec for any countable type: a positive number's binary digits, one per byte. *)
Fixpoint positive_to_bytes (p : positive) : bytes :=
  match p with
  | xH => []
  | xO p' => Byte.x00 :: positive_to_bytes p'
  | xI p' => Byte.x01 :: positive_to_bytes p'
  end.

Fixpoint positive_of_bytes (b : bytes) : option positive :=
  match b with
  | [] => Some xH
  | Byte.x00 :: b' => xO <$> positive_of_bytes b'
  | Byte.x01 :: b' => xI <$> positive_of_bytes b'
  | _ => None
  end.

Lemma positive_of_to_bytes p : positive_of_bytes (positive_to_bytes p) = Some p.
Proof. induction p as [p IH|p IH|]; simpl; [by rewrite IH..|done]. Qed.

Definition sample_message (M : Type) `{Countable M} : Message M := {|
  encode_to_vec m := positive_to_bytes (countable.encode m);
  encoded_len m := len (positive_to_bytes (countable.encode m));
  decode b := ok_or (positive_of_bytes b ≫= countable.decode) "invalid message"
|}.

Lemma sample_message_laws (M : Type) `{Countable M} : @MessageLaws M (sample_message M).
Proof.
  split; intros m; [|done]. unfold Wire.decode, Wire.encode_to_vec; simpl.
  rewrite positive_of_to_bytes. simpl. by rewrite countable.decode_encode.
Qed.
