(* ===== verification/ProofId.v ===== *)
(** * Proofs and their canonical identifier (src/src/proof.rs)

    The hash is a parameter; the identifier's theorems say what a coincidence of two
    identifiers means for it. *)

From stdpp Require Import base gmap list strings pretty.
From S2P Require Import Prelude Types Wire Samples.

(** ** Definitions *)

(** [b"pulsar/verification/v1\0"]. *)
Definition VERIFICATION_ID_DOMAIN : bytes :=
  String.list_byte_of_string "pulsar/verification/v1" ++ [Byte.x00].

(** [impl From<ProofType> for u32] and [for i32]. *)
Definition proof_type_u32 (t : ProofType) : Z :=
  match t with MinaPickles => 1 | NoirBarretenberg => 2 end.

Definition proof_type_i32 (t : ProofType) : Z :=
  match t with MinaPickles => 1 | NoirBarretenberg => 2 end.

(** [impl TryFrom<i32> for ProofType]. *)
Definition proof_type_try_from (value : Z) : Result ProofType :=
  match wire_proof_type_try_from value with
  | Some WireMinaPickles => Ok MinaPickles
  | Some WireNoirBarretenberg => Ok NoirBarretenberg
  | Some WireUnspecified | None => Err (UnsupportedProofType value)
  end.

(** [impl TryFrom<&[u8]> for VerificationId]. *)
Definition verification_id_try_from (value : bytes) : Result VerificationId :=
  match array_of VERIFICATION_ID_LEN value with
  | Some id => Ok id
  | None =>
      Err (InvalidVerificationId
        ("verification ID must be " +:+ pretty VERIFICATION_ID_LEN +:+ " bytes, got "
          +:+ pretty (length value)))
  end.

(** [struct Proof]. *)
Record Proof_ : Set := mkProof {
  proof_type : ProofType;
  proof : bytes;
  public_inputs : bytes;
  verification_key : bytes
}.

#[export] Instance Proof_eq_dec : EqDecision Proof_.
Proof. solve_decision. Defined.

Section identity.
Context `{Sha256}.

(** What [VerificationId::from_component_hashes] feeds to the hasher, in order. *)
Definition id_preimage (t : ProofType) (proof_hash public_inputs_hash verification_key_hash : array 32)
  : bytes :=
  VERIFICATION_ID_DOMAIN ++ u32_to_be_bytes (proof_type_u32 t)
    ++ arr_data proof_hash ++ arr_data public_inputs_hash ++ arr_data verification_key_hash.

Definition from_component_hashes (t : ProofType)
  (proof_hash public_inputs_hash verification_key_hash : array 32) : VerificationId :=
  sha256 (id_preimage t proof_hash public_inputs_hash verification_key_hash).

(** [Proof::verification_id]. *)
Definition verification_id (p : Proof_) : VerificationId :=
  from_component_hashes (proof_type p)
    (sha256 (proof p)) (sha256 (public_inputs p)) (sha256 (verification_key p)).
End identity.

Section sizes.
Context `{ProstVarint}.

Definition encoded_bytes_len (b : bytes) : Z :=
  if (len b =? 0)%Z then 0 else 1 + encoded_len_varint (len b) + len b.

(** [Proof::encoded_len]. *)
Definition proof_encoded_len (p : Proof_) : Z :=
  2 + encoded_bytes_len (proof p) + encoded_bytes_len (public_inputs p)
    + encoded_bytes_len (verification_key p).
End sizes.

(** [Proof::payload_len]: [None] is the overflow of [usize]. *)
Definition payload_len (p : Proof_) : option Z :=
  checked_add usize_max (len (proof p)) (len (public_inputs p)) ≫= fun n =>
  checked_add usize_max n (len (verification_key p)).

(** [impl From<&Proof> for WireProof]. *)
Definition wire_of_proof (p : Proof_) : WireProof :=
  mkWireProof (proof_type_i32 (proof_type p)) (proof p) (public_inputs p) (verification_key p).

(** [impl TryFrom<WireProof> for Proof]. *)
Definition proof_try_from (w : WireProof) : Result Proof_ :=
  t ← proof_type_try_from (wire_proof_type w);
  Ok (mkProof t (wire_proof w) (wire_public_inputs w) (wire_verification_key w)).

(** ** Lemmas *)

Lemma proof_type_try_from_spec v t :
  proof_type_try_from v = Ok t <-> v = proof_type_i32 t.
Proof.
  unfold proof_type_try_from, wire_proof_type_try_from.
  destruct (Z.eqb_spec v 0), (Z.eqb_spec v 1), (Z.eqb_spec v 2); subst;
    destruct t; simpl; naive_solver.
Qed.

Lemma proof_type_try_from_err v e :
  proof_type_try_from v = Err e <-> e = UnsupportedProofType v /\ v <> 1 /\ v <> 2.
Proof.
  unfold proof_type_try_from, wire_proof_type_try_from.
  destruct (Z.eqb_spec v 0), (Z.eqb_spec v 1), (Z.eqb_spec v 2); subst;
    (split; [intros [= <-]; split_and!; lia || done | intros (-> & ? & ?); done || lia]).
Qed.

Lemma verification_id_try_from_spec b id :
  verification_id_try_from b = Ok id <-> as_bytes id = b.
Proof.
  unfold verification_id_try_from, as_bytes.
  destruct (array_of _ b) as [a|] eqn:E.
  - apply array_of_Some in E. split; [congruence|].
    intros E'. f_equal. apply array_ext. congruence.
  - split; [done|]. intros <-. by rewrite array_of_data in E.
Qed.

Lemma verification_id_try_from_bytes id : verification_id_try_from (as_bytes id) = Ok id.
Proof. by apply verification_id_try_from_spec. Qed.

Lemma verification_id_try_from_len b :
  is_ok (verification_id_try_from b) = bool_decide (length b = 32%nat).
Proof.
  unfold verification_id_try_from. destruct (array_of _ b) eqn:E.
  - apply array_of_Some in E as <-. symmetry. apply bool_decide_eq_true. apply array_length.
  - apply array_of_None in E. by rewrite bool_decide_eq_false_2.
Qed.

Lemma id_preimage_inj t1 a1 b1 c1 t2 a2 b2 c2 :
  id_preimage t1 a1 b1 c1 = id_preimage t2 a2 b2 c2 ->
  t1 = t2 /\ a1 = a2 /\ b1 = b2 /\ c1 = c2.
Proof.
  unfold id_preimage. intros E.
  apply (inj (app _)) in E.
  apply app_inj_1 in E as [Et E]; [|by destruct t1, t2].
  apply app_inj_1 in E as [Ea E]; [|by rewrite !array_length].
  apply app_inj_1 in E as [Eb Ec]; [|by rewrite !array_length].
  split_and!; [by destruct t1, t2 | by apply array_ext..].
Qed.

Section size_lemmas.
Context `{VarintLaw}.

Lemma encoded_len_varint_bounds v : 0 <= v < 2 ^ 64 -> 1 <= encoded_len_varint v <= 10.
Proof.
  intros Hv. rewrite encoded_len_varint_spec by done. unfold len, varint.
  pose proof (leb128_nonempty 10 v). lia.
Qed.

Lemma encoded_bytes_len_proto3 tag b :
  len b < 2 ^ 64 -> encoded_bytes_len b = len (proto3_bytes_field tag b).
Proof.
  intros Hb. unfold encoded_bytes_len, proto3_bytes_field.
  destruct (Z.eqb_spec (len b) 0); [done|].
  rewrite encoded_len_varint_spec by (unfold len in *; lia).
  unfold len. simpl. rewrite length_app. lia.
Qed.

Lemma encoded_bytes_len_bounds b :
  len b < 2 ^ 64 -> len b <= encoded_bytes_len b <= len b + 11.
Proof.
  intros Hb. unfold encoded_bytes_len.
  destruct (Z.eqb_spec (len b) 0); [lia|].
  pose proof (encoded_len_varint_bounds (len b)). unfold len in *. lia.
Qed.

(** The payload of a proof whose encoding fits in [limit] fits in it too. *)
Lemma payload_len_le_encoded p limit :
  proof_encoded_len p <= limit -> limit <= usize_max ->
  len (proof p) < 2 ^ 64 -> len (public_inputs p) < 2 ^ 64 ->
  len (verification_key p) < 2 ^ 64 ->
  exists n, payload_len p = Some n /\
    n = len (proof p) + len (public_inputs p) + len (verification_key p) /\
    0 <= n /\ n + 2 <= limit.
Proof.
  intros He Hl Ha Hb Hc. unfold proof_encoded_len in He.
  pose proof (encoded_bytes_len_bounds (proof p) Ha).
  pose proof (encoded_bytes_len_bounds (public_inputs p) Hb).
  pose proof (encoded_bytes_len_bounds (verification_key p) Hc).
  assert (0 <= len (proof p) /\ 0 <= len (public_inputs p) /\ 0 <= len (verification_key p))
    by (unfold len; lia).
  unfold payload_len, checked_add.
  destruct (Z.leb_spec (len (proof p) + len (public_inputs p)) usize_max); [|lia].
  simpl.
  destruct (Z.leb_spec (len (proof p) + len (public_inputs p) + len (verification_key p))
    usize_max); [|lia].
  eexists. split_and!; [done | lia..].
Qed.
End size_lemmas.

(** ** Properties *)

(** What an identifier commits to, in the chain's format: the domain with its terminating zero, the
    type as a big-endian 32-bit number, and the digests of the proof, of the public inputs and of the
    verification key. *)
Definition commitment `{Sha256} (p : Proof_) : bytes :=
  String.list_byte_of_string "pulsar/verification/v1" ++ [Byte.x00; Byte.x00; Byte.x00; Byte.x00] ++
    [match proof_type p with MinaPickles => Byte.x01 | NoirBarretenberg => Byte.x02 end] ++
    arr_data (sha256 (proof p)) ++ arr_data (sha256 (public_inputs p)) ++ arr_data (sha256 (verification_key p)).

(** The byte strings that are hashed on the way to the identifier. *)
Definition hashed `{Sha256} (p : Proof_) : list bytes :=
  [proof p; public_inputs p; verification_key p; commitment p].

Lemma commitment_preimage `{Sha256} (p : Proof_) :
  commitment p = id_preimage (proof_type p) (sha256 (proof p)) (sha256 (public_inputs p))
    (sha256 (verification_key p)).
Proof. by destruct (proof_type p) eqn:E; unfold commitment; rewrite E. Qed.

(** C25: the identifier is the digest of the chain's commitment to the proof, and it binds: if two
    proofs have the same identifier they are equal, type and all components, or at one of the four
    places of the computation two different byte strings were hashed to the same digest: their
    proofs, their public inputs, their verification keys or their commitments are a collision of
    SHA-256. *)
Theorem verification_id_binding `{Sha256} (p q : Proof_) :
  verification_id p = sha256 (commitment p) /\
  (verification_id p = verification_id q ->
   p = q \/ exists x y, (x, y) ∈ zip (hashed p) (hashed q) /\ x <> y /\ sha256 x = sha256 y).
Proof.
  assert (forall p, verification_id p = sha256 (commitment p)) as Hid.
  { intros p'. by rewrite commitment_preimage. }
  split; [done|]. rewrite !Hid. intros E.
  destruct (decide (commitment p = commitment q)) as [Ec|]; [|right; exists (commitment p), (commitment q); set_solver].
  rewrite !commitment_preimage in Ec. apply id_preimage_inj in Ec as (Et & E1 & E2 & E3).
  destruct (decide (proof p = proof q)); [|right; exists (proof p), (proof q); set_solver].
  destruct (decide (public_inputs p = public_inputs q));
    [|right; exists (public_inputs p), (public_inputs q); set_solver].
  destruct (decide (verification_key p = verification_key q));
    [|right; exists (verification_key p), (verification_key q); set_solver].
  left. destruct p, q; simpl in *; congruence.
Qed.

(** The size against the proto3 format. *)
Lemma proto3_proof_len `{VarintLaw} (p : Proof_) :
  len (proof p) < 2 ^ 64 -> len (public_inputs p) < 2 ^ 64 -> len (verification_key p) < 2 ^ 64 ->
  proof_encoded_len p = len (proto3_proof (wire_of_proof p)).
Proof.
  intros Ha Hb Hc. unfold proof_encoded_len, proto3_proof.
  rewrite (encoded_bytes_len_proto3 Byte.x12), (encoded_bytes_len_proto3 Byte.x1a),
    (encoded_bytes_len_proto3 Byte.x22) by done.
  unfold wire_of_proof, len; simpl. rewrite !length_app.
  assert (length (proto3_enum_field Byte.x08 (proof_type_i32 (proof_type p))) = 2%nat) as ->
    by (by destruct (proof_type p)).
  lia.
Qed.

(** The hand-written size of a proof is the length of the message prost writes for it. *)
Theorem proof_encoded_len_correct `{VarintLaw, ProofMessageLaw} (p : Proof_) :
  len (proof p) < 2 ^ 64 -> len (public_inputs p) < 2 ^ 64 ->
  len (verification_key p) < 2 ^ 64 ->
  proof_encoded_len p = len (encode_to_vec (wire_of_proof p)).
Proof.
  rewrite encode_wire_proof. apply proto3_proof_len.
Qed.

Lemma proof_try_from_Ok w p : proof_try_from w = Ok p <-> w = wire_of_proof p.
Proof.
  destruct w as [tw a b c], p as [t a' b' c']. unfold proof_try_from, wire_of_proof; simpl.
  destruct (proof_type_try_from tw) as [t'|e] eqn:E; simpl.
  - apply proof_type_try_from_spec in E as ->.
    destruct t, t'; naive_solver.
  - split; [done|]. intros [= -> -> -> ->].
    by rewrite (proj2 (proof_type_try_from_spec _ t)) in E.
Qed.

(** A proof survives its wire form, and a wire proof is accepted exactly when its type is
    one of the two supported ones, with every field unchanged. *)
Theorem wire_proof_round_trip (p : Proof_) (w : WireProof) :
  proof_try_from (wire_of_proof p) = Ok p /\
  (proof_try_from w = Ok p <-> w = wire_of_proof p) /\
  (is_ok (proof_try_from w) = false <->
    proof_try_from w = Err (UnsupportedProofType (wire_proof_type w))).
Proof.
  split_and!; [by apply proof_try_from_Ok | apply proof_try_from_Ok |].
  unfold proof_try_from. destruct (proof_type_try_from (wire_proof_type w)) as [t|e] eqn:E;
    simpl; [done|].
  apply proof_type_try_from_err in E as [-> _]. done.
Qed.

(** ** Witnesses *)

Definition sample_proof : Proof_ :=
  mkProof NoirBarretenberg (String.list_byte_of_string "proof")
    (String.list_byte_of_string "inputs") (String.list_byte_of_string "key").

(** the sample hash cuts its input, so that two proofs with a long common beginning collide *)
Definition colliding_proof : Proof_ :=
  mkProof NoirBarretenberg (replicate 33 Byte.x07) (public_inputs sample_proof) (verification_key sample_proof).
Definition colliding_proof' : Proof_ :=
  mkProof NoirBarretenberg (replicate 32 Byte.x07 ++ [Byte.x08]) (public_inputs sample_proof)
    (verification_key sample_proof).

Lemma verification_id_binding_witness :
  @verification_id sample_sha256 colliding_proof = @verification_id sample_sha256 colliding_proof' /\
  (colliding_proof = colliding_proof' \/
   exists x y, (x, y) ∈ zip (@hashed sample_sha256 colliding_proof) (@hashed sample_sha256 colliding_proof') /\
     x <> y /\ sample_sha256 x = sample_sha256 y).
Proof.
  split; [vm_refl|].
  apply (@verification_id_binding sample_sha256 colliding_proof colliding_proof'). vm_refl.
Defined.

Lemma proof_encoded_len_correct_witness :
  @proof_encoded_len sample_varint sample_proof = 22 /\
  @proof_encoded_len sample_varint sample_proof =
    len (@encode_to_vec _ sample_wire_proof_message (wire_of_proof sample_proof)).
Proof.
  split; [vm_refl|].
  apply (@proof_encoded_len_correct sample_varint sample_varint_law
    sample_wire_proof_message sample_wire_proof_law); vm_compute; reflexivity.
Defined.
