(* ===== verification/ConfigTypes.v ===== *)
(** * Validated settings (src/src/config.rs, the structures the components take)

    Durations are in nanoseconds, sizes in bytes. *)

From stdpp Require Import base list strings.
From S2P Require Import Prelude Types Wire.

Record RuntimeConfig : Set := mkRuntimeConfig
  { control_socket : string; shutdown_timeout : Z }.

Record ChainConfig : Set := mkChainConfig
  { chain_id : string; comet_rpc_url : string; request_timeout : Z }.

Record ListenerConfig : Set := mkListenerConfig {
  listener_enabled : bool;
  reconnect_initial_backoff : Z;
  reconnect_max_backoff : Z
}.

Record RpcConfig : Set := mkRpcConfig
  { rpc_enabled : bool; rpc_listen_address : SocketAddr }.

Record SubmissionConfig : Set := mkSubmissionConfig {
  submission_enabled : bool;
  submission_listen_address : SocketAddr;
  max_transaction_bytes : Z;
  max_concurrent_requests : Z
}.

Record VerificationConfig : Set := mkVerificationConfig {
  max_concurrent_jobs : Z;
  job_timeout : Z;
  max_retries : Z;
  retry_backoff : Z
}.

Record NoirConfig : Set := mkNoirConfig {
  noir_enabled : bool;
  binary_path : string;
  home_directory : string;
  threads_per_job : Z
}.

Record ProofStoreConfig : Set := mkProofStoreConfig {
  max_capacity_bytes : Z;
  cfg_max_proof_bytes : Z;
  terminal_retention : Z;
  event_buffer : Z
}.

Section p2p.
Context `{Multiaddrs}.

Record P2pConfig : Type := mkP2pConfig {
  p2p_enabled : bool;
  p2p_chain_id : string;
  listen_addresses : list Multiaddr;
  bootnodes : list Multiaddr;
  validator_key_path : string;
  max_availability_message_bytes : Z;
  p2p_max_proof_bytes : Z;
  proof_request_timeout : Z;
  cfg_max_concurrent_retrievals : Z;
  cfg_retrieval_timeout : Z;
  cfg_retrieval_initial_backoff : Z;
  cfg_retrieval_max_backoff : Z;
  command_buffer : Z;
  p2p_event_buffer : Z
}.
End p2p.
