(* ===== verification/StoreRecord.v ===== *)
(** * Store records, events and expiry
    (src/src/store/record.rs, src/src/store/event.rs, src/src/store/expiry.rs) *)

From stdpp Require Import base gmap list strings pretty.
From S2P Require Import Prelude Types Wire ProofId.

(** ** Failures *)

Definition FAILURE_CODE_MAX_BYTES : Z := 64.
Definition FAILURE_MESSAGE_MAX_BYTES : Z := 256.

(** [u8::is_ascii_lowercase] and [u8::is_ascii_digit]. *)
Definition is_ascii_lowercase (b : byte) : bool := (97 <=? byte_to_Z b) && (byte_to_Z b <=? 122).
Definition is_ascii_digit (b : byte) : bool := (48 <=? byte_to_Z b) && (byte_to_Z b <=? 57).

(** The closure of [code.bytes().enumerate().all(..)]. *)
Definition code_byte_ok (index : nat) (b : byte) : bool :=
  is_ascii_lowercase b ||
    (Nat.ltb 0 index && (is_ascii_digit b || bool_decide (b = Byte.x5f))).

Fixpoint all_enumerated (f : nat -> byte -> bool) (index : nat) (l : bytes) : bool :=
  match l with
  | [] => true
  | b :: l' => f index b && all_enumerated f (S index) l'
  end.

(** [VerificationFailure::new]. *)
Definition VerificationFailure_new (code message : string) (retryable : bool)
  : Result VerificationFailure :=
  if (str_len code =? 0) || (FAILURE_CODE_MAX_BYTES <? str_len code) then
    Err (InvalidVerificationFailure
      ("code must contain 1 to " +:+ pretty FAILURE_CODE_MAX_BYTES +:+ " bytes"))
  else if negb (all_enumerated code_byte_ok 0 (String.list_byte_of_string code)) then
    Err (InvalidVerificationFailure
      "code must start with a lowercase ASCII letter and contain only lowercase ASCII letters, digits, or underscores")
  else if FAILURE_MESSAGE_MAX_BYTES <? str_len message then
    Err (InvalidVerificationFailure
      ("message must contain at most " +:+ pretty FAILURE_MESSAGE_MAX_BYTES +:+ " bytes"))
  else Ok (mkFailure code message retryable).

(** What every [VerificationFailure] satisfies: its fields are private, so one comes from
    [VerificationFailure_new] only. *)
Definition failure_wf (f : VerificationFailure) : Prop :=
  VerificationFailure_new (code f) (message f) (retryable f) = Ok f.

(** ** Records *)

(** [Arc<T>]: a value with the address of its allocation. *)
Record Arc (T : Type) : Type := mkArc { arc_ptr : nat; arc_value : T }.
Arguments mkArc {T}.
Arguments arc_ptr {T}.
Arguments arc_value {T}.

(** [Arc::ptr_eq]. *)
Definition ptr_eq {T} (a b : Arc T) : bool := Nat.eqb (arc_ptr a) (arc_ptr b).

(** [std::time::Instant], in nanoseconds of some clock. *)
Abbreviation Instant := Z.

Section records.
Context `{Libp2p}.

Inductive ProofSource : Type :=
| Rpc
| Peer (peer : PeerId).

Record ProofMetadata : Type := mkMetadata {
  chain_observed_at : option Instant;
  content_source : option ProofSource;
  content_stored_at : option Instant;
  verification : option VerificationState;
  completed_at : option Instant
}.

Record ProofRecord : Type := mkRecord {
  metadata : ProofMetadata;
  record_proof : option Proof_
}.

Record StoredProof : Type := mkStoredProof {
  stored_id : VerificationId;
  stored_record : Arc ProofRecord
}.

Record VerificationJob : Type := mkJob {
  job_id : VerificationId;
  job_proof : Proof_;
  claim : Arc ProofRecord
}.

(** ** Events *)

Inductive ProofEvictionCause : Type :=
| Expired
| Explicit
| Size.

Inductive ProofStoreEvent : Type :=
| VerificationObserved (id : VerificationId)
| ProofStored (id : VerificationId) (source : ProofSource)
| VerificationChanged (id : VerificationId) (state : VerificationState)
| ProofEvicted (id : VerificationId) (cause : ProofEvictionCause).

(** ** Expiry *)

(** [TerminalExpiry::duration]. *)
Definition expiry_duration (retention : Z) (record : ProofRecord) : option Z :=
  match verification (metadata record) with
  | Some (Completed _) => Some retention
  | _ => None
  end.

(** The three hooks of [impl Expiry for TerminalExpiry]; each returns the time left until
    the entry expires, [None] for never. *)
Definition expire_after_create (retention : Z) (value : Arc ProofRecord) (created_at : Instant)
  : option Z := expiry_duration retention (arc_value value).

Definition expire_after_read (retention : Z) (value : Arc ProofRecord) (read_at : Instant)
  (duration_until_expiry : option Z) (last_modified_at : Instant) : option Z :=
  duration_until_expiry.

Definition expire_after_update (retention : Z) (value : Arc ProofRecord) (updated_at : Instant)
  (duration_until_expiry : option Z) : option Z := expiry_duration retention (arc_value value).
End records.

Inductive VerificationOutcome : Set :=
| OutcomeCompleted (verdict : VerificationVerdict)
| OutcomeFailed (failure : VerificationFailure).

#[export] Instance VerificationOutcome_eq_dec : EqDecision VerificationOutcome.
Proof. solve_decision. Defined.

Inductive VerificationStatus : Set :=
| StatusUnavailable
| StatusQueued
| StatusVerifying
| StatusCompleted (verdict : VerificationVerdict)
| StatusFailed (failure : VerificationFailure).

#[export] Instance VerificationStatus_eq_dec : EqDecision VerificationStatus.
Proof. solve_decision. Defined.

Record StoredVerificationStatus : Set := mkStoredStatus
  { status_id : VerificationId; status : VerificationStatus }.

Record CompletedVerification : Set := mkCompleted
  { completed_id : VerificationId; verdict : VerificationVerdict }.

Inductive StoreChange : Set :=
| ChangeInserted
| ChangeUpdated
| ChangeUnchanged.

#[export] Instance StoreChange_eq_dec : EqDecision StoreChange.
Proof. solve_decision. Defined.
