(* ===== verification/Store.v ===== *)
(** * The proof store (src/src/store/mod.rs)

    The records are held by a Moka cache, which is foreign code: it serialises the
    computations on one key, and any entry may leave it at any time, with a notification
    that is ordered with the writes of that key. The model keeps the cache's contents as
    a finite map, the addresses of the records it allocated, and everything that was sent
    on the broadcast channel, oldest first. *)

From stdpp Require Import base gmap list strings pretty fin_maps.
From S2P Require Import Prelude Types Wire ProofId StoreRecord ConfigTypes.

Definition METADATA_WEIGHT_BYTES : Z := 256.

(** ** The cache's interface *)

(** [moka::ops::compute::Op]. *)
Inductive Op (V : Type) : Type :=
| Put (v : V)
| Remove
| Nop.
Arguments Put {V}.
Arguments Remove {V}.
Arguments Nop {V}.

(** [moka::ops::compute::CompResult]. *)
Inductive CompResult (V : Type) : Type :=
| CompInserted (v : V)
| CompReplacedWith (v : V)
| CompUnchanged (v : V)
| CompStillNone
| CompRemoved (v : V).
Arguments CompInserted {V}.
Arguments CompReplacedWith {V}.
Arguments CompUnchanged {V}.
Arguments CompStillNone {V}.
Arguments CompRemoved {V}.

(** [moka::notification::RemovalCause]. *)
Inductive RemovalCause : Set :=
| CauseExpired
| CauseExplicit
| CauseSize
| CauseReplaced.

(** ** Weights and sizes *)

(** The admission test of [ProofStore::new]: the largest weight an entry may reach, if it
    fits Moka's [u32]. *)
Definition maximum_weight (max_proof_bytes : Z) : option Z :=
  weight ← try_from_u32 max_proof_bytes;
  weight ← checked_add u32_max weight METADATA_WEIGHT_BYTES;
  failure ← checked_add usize_max FAILURE_CODE_MAX_BYTES FAILURE_MESSAGE_MAX_BYTES;
  failure ← try_from_u32 failure;
  checked_add u32_max weight failure.

Section store.
Context `{Libp2p, Sha256, ProstVarint}.

(** [proof_weight]: [None] is a panic of one of its [expect] calls. *)
Definition proof_weight (record : ProofRecord) : option Z :=
  payload ← match record_proof record with
            | Some p => payload_len p
            | None => Some 0
            end;
  let failure := match verification (metadata record) with
                 | Some (Failed f) => str_len (code f) + str_len (message f)
                 | _ => 0
                 end in
  weight ← try_from_u32 payload;
  weight ← checked_add u32_max weight METADATA_WEIGHT_BYTES;
  failure ← try_from_u32 failure;
  checked_add u32_max weight failure.

(** ** State *)

Record ProofStore : Type := mkStore {
  records : gmap VerificationId (Arc ProofRecord);
  (** the next address [Arc::new] returns *)
  next_ptr : nat;
  (** everything sent on the broadcast channel, oldest first *)
  events : list ProofStoreEvent;
  max_proof_bytes : Z;
  (** what the cache was built with *)
  max_capacity : Z;
  retention : Z
}.

Definition set_records (m : gmap VerificationId (Arc ProofRecord)) (s : ProofStore) : ProofStore :=
  mkStore m (next_ptr s) (events s) (max_proof_bytes s) (max_capacity s) (retention s).

Definition set_events (l : list ProofStoreEvent) (s : ProofStore) : ProofStore :=
  mkStore (records s) (next_ptr s) l (max_proof_bytes s) (max_capacity s) (retention s).

Abbreviation storeM := (stm ProofStore Error).

(** [ProofStore::new]. *)
Definition ProofStore_new (config : ProofStoreConfig) : Result ProofStore :=
  if (max_capacity_bytes config =? 0) || (cfg_max_proof_bytes config =? 0)
    || (terminal_retention config =? 0) || (event_buffer config =? 0) then
    Err (ProofStoreError "capacity, proof limit, retention, and event buffer must be positive")
  else if max_capacity_bytes config <? cfg_max_proof_bytes config then
    Err (ProofStoreError "maximum proof size must not exceed cache capacity")
  else match maximum_weight (cfg_max_proof_bytes config) with
  | None => Err (ProofStoreError "maximum proof size exceeds Moka's per-entry weight range")
  | Some _ =>
      Ok (mkStore ∅ 0 [] (cfg_max_proof_bytes config) (max_capacity_bytes config)
        (terminal_retention config))
  end.

(** [publish]: a send with no receiver is not an error. *)
Definition publish (e : ProofStoreEvent) : storeM unit :=
  modify (fun s => set_events (events s ++ [e]) s).

(** The closure given to [eviction_listener]. *)
Definition eviction_listener (id : VerificationId) (cause : RemovalCause) : list ProofStoreEvent :=
  match cause with
  | CauseExpired => [ProofEvicted id Expired]
  | CauseExplicit => [ProofEvicted id Explicit]
  | CauseSize => [ProofEvicted id Size]
  | CauseReplaced => []
  end.

(** [cache.entry(id).and_try_compute_with(f)]; a value that is put is boxed in a new
    [Arc], and replacing an entry notifies the listener. *)
Definition and_try_compute_with (id : VerificationId)
  (f : option (Arc ProofRecord) -> Result (Op ProofRecord))
  : storeM (CompResult (Arc ProofRecord)) := fun s =>
  let entry := records s !! id in
  match f entry with
  | Err e => (Err e, s)
  | Ok Nop =>
      (Ok (match entry with Some a => CompUnchanged a | None => CompStillNone end), s)
  | Ok Remove =>
      match entry with
      | Some a =>
          (Ok (CompRemoved a),
            set_events (events s ++ eviction_listener id CauseExplicit)
              (set_records (delete id (records s)) s))
      | None => (Ok CompStillNone, s)
      end
  | Ok (Put record) =>
      let a := mkArc (next_ptr s) record in
      let s' := mkStore (<[id := a]> (records s)) (S (next_ptr s)) (events s)
        (max_proof_bytes s) (max_capacity s) (retention s) in
      match entry with
      | Some _ =>
          (Ok (CompReplacedWith a),
            set_events (events s ++ eviction_listener id CauseReplaced) s')
      | None => (Ok (CompInserted a), s')
      end
  end.

Definition store_change {V} (r : CompResult V) : StoreChange :=
  match r with
  | CompInserted _ => ChangeInserted
  | CompReplacedWith _ => ChangeUpdated
  | CompUnchanged _ | CompStillNone | CompRemoved _ => ChangeUnchanged
  end.

Definition result_state (r : CompResult (Arc ProofRecord)) : option VerificationState :=
  match r with
  | CompInserted a | CompReplacedWith a | CompUnchanged a => verification (metadata (arc_value a))
  | CompStillNone | CompRemoved _ => None
  end.

(** Record updates. *)
Definition set_verification (v : option VerificationState) (r : ProofRecord) : ProofRecord :=
  let m := metadata r in
  mkRecord (mkMetadata (chain_observed_at m) (content_source m) (content_stored_at m) v
    (completed_at m)) (record_proof r).

Definition set_completed_at (t : option Instant) (r : ProofRecord) : ProofRecord :=
  let m := metadata r in
  mkRecord (mkMetadata (chain_observed_at m) (content_source m) (content_stored_at m)
    (verification m) t) (record_proof r).

Definition set_chain_observed_at (t : option Instant) (r : ProofRecord) : ProofRecord :=
  let m := metadata r in
  mkRecord (mkMetadata t (content_source m) (content_stored_at m) (verification m)
    (completed_at m)) (record_proof r).

Definition set_content (p : Proof_) (source : ProofSource) (t : Instant) (r : ProofRecord)
  : ProofRecord :=
  let m := metadata r in
  mkRecord (mkMetadata (chain_observed_at m) (Some source) (Some t) (verification m)
    (completed_at m)) (Some p).

Definition is_some {A} (o : option A) : bool := match o with Some _ => true | None => false end.
Definition is_none {A} (o : option A) : bool := negb (is_some o).

Definition queue_if_ready (r : ProofRecord) : ProofRecord :=
  if is_some (chain_observed_at (metadata r)) && is_some (record_proof r)
    && is_none (verification (metadata r))
  then set_verification (Some Queued) r else r.

(** The tail shared by the three operations that can make a record ready: what is
    published after the computation. *)
Definition announce_queued (id : VerificationId) (r : CompResult (Arc ProofRecord)) : storeM unit :=
  if bool_decide (result_state r = Some Queued)
  then publish (VerificationChanged id Queued) else mret tt.

(** ** Operations *)

Definition observe_chain_verification (observed_at : Instant) (id : VerificationId)
  : storeM StoreChange :=
  r ← and_try_compute_with id (fun entry =>
    match entry with
    | None => Ok (Put (mkRecord (mkMetadata (Some observed_at) None None None None) None))
    | Some a =>
        let current := arc_value a in
        if is_some (chain_observed_at (metadata current)) then Ok Nop
        else Ok (Put (queue_if_ready (set_chain_observed_at (Some observed_at) current)))
    end);
  let change := store_change r in
  (if bool_decide (change = ChangeUnchanged) then mret tt
   else publish (VerificationObserved id) ≫= fun _ => announce_queued id r) ≫= fun _ =>
  mret change.

Definition validate_proof (expected_id : VerificationId) (p : Proof_) (s : ProofStore) : Result unit :=
  let actual_bytes := proof_encoded_len p in
  if max_proof_bytes s <? actual_bytes then
    Err (ProofTooLarge expected_id actual_bytes (max_proof_bytes s))
  else if negb (bool_decide (verification_id p = expected_id)) then
    Err (VerificationIdMismatch expected_id)
  else Ok tt.

Definition insert_local_proof (stored_at : Instant) (p : Proof_) (source : ProofSource)
  : storeM (VerificationId * StoreChange) :=
  let id := verification_id p in
  s ← get_state;
  _ ← lift (validate_proof id p s);
  r ← and_try_compute_with id (fun entry =>
    match entry with
    | None =>
        Ok (Put (mkRecord (mkMetadata None (Some source) (Some stored_at) None None) (Some p)))
    | Some a =>
        let current := arc_value a in
        if is_some (record_proof current) then Ok Nop
        else Ok (Put (queue_if_ready (set_content p source stored_at current)))
    end);
  let change := store_change r in
  (if bool_decide (change = ChangeUnchanged) then mret tt
   else publish (ProofStored id source) ≫= fun _ => announce_queued id r) ≫= fun _ =>
  mret (id, change).

Definition attach_downloaded_proof (stored_at : Instant) (expected_id : VerificationId)
  (p : Proof_) (peer : PeerId) : storeM StoreChange :=
  s ← get_state;
  _ ← lift (validate_proof expected_id p s);
  let source := Peer peer in
  r ← and_try_compute_with expected_id (fun entry =>
    match entry with
    | None => Err (ProofNotObserved expected_id)
    | Some a =>
        let current := arc_value a in
        if is_none (chain_observed_at (metadata current)) then Err (ProofNotObserved expected_id)
        else if is_some (record_proof current) then Ok Nop
        else Ok (Put (queue_if_ready (set_content p source stored_at current)))
    end);
  let change := store_change r in
  (if bool_decide (change = ChangeUnchanged) then mret tt
   else publish (ProofStored expected_id source) ≫= fun _ => announce_queued expected_id r)
  ≫= fun _ => mret change.

(** [get]: no transition of the store. *)
Definition get (id : VerificationId) (s : ProofStore) : option (Arc ProofRecord) := records s !! id.

Definition get_proof (id : VerificationId) (s : ProofStore) : option Proof_ :=
  a ← get id s; record_proof (arc_value a).

Definition begin_verification (id : VerificationId) : storeM (option VerificationJob) :=
  r ← and_try_compute_with id (fun entry =>
    match entry with
    | None => Ok Nop
    | Some a =>
        let current := arc_value a in
        if is_none (chain_observed_at (metadata current)) || is_none (record_proof current)
          || negb (bool_decide (verification (metadata current) = Some Queued))
        then Ok Nop
        else Ok (Put (set_verification (Some Verifying) current))
    end);
  match r with
  | CompReplacedWith claim =>
      p ← lift (ok_or (record_proof (arc_value claim))
        (InvalidVerificationTransition id ClaimedRecordHasNoProof));
      _ ← publish (VerificationChanged id Verifying);
      mret (Some (mkJob id p claim))
  | _ => mret None
  end.

Definition outcome_state (outcome : VerificationOutcome) : VerificationState :=
  match outcome with
  | OutcomeCompleted v => Completed v
  | OutcomeFailed f => Failed f
  end.

Definition finish_verification (now : Instant) (job : VerificationJob)
  (outcome : VerificationOutcome) : storeM StoreChange :=
  let id := job_id job in
  let next := outcome_state outcome in
  let completed := match next with Completed _ => Some now | _ => None end in
  r ← and_try_compute_with id (fun entry =>
    match entry with
    | None => Ok Nop
    | Some a =>
        if negb (ptr_eq a (claim job)) then Ok Nop
        else
          let current := arc_value a in
          if negb (bool_decide (verification (metadata current) = Some Verifying)) then
            Err (InvalidVerificationTransition id
              (ExpectedVerifying (verification (metadata current))))
          else Ok (Put (set_completed_at completed (set_verification (Some next) current)))
    end);
  let change := store_change r in
  (if bool_decide (change = ChangeUnchanged) then mret tt
   else publish (VerificationChanged id next)) ≫= fun _ =>
  mret change.

Definition retry_verification (id : VerificationId) : storeM StoreChange :=
  r ← and_try_compute_with id (fun entry =>
    match entry with
    | None => Err (InvalidVerificationTransition id RecordDoesNotExist)
    | Some a =>
        let current := arc_value a in
        let requeued := Ok (Put (set_completed_at None (set_verification (Some Queued) current))) in
        match verification (metadata current) with
        | Some (Failed f) =>
            if retryable f then requeued
            else Err (InvalidVerificationTransition id
              (ExpectedRetryableFailed (verification (metadata current))))
        | Some Queued => Ok Nop
        | state => Err (InvalidVerificationTransition id (ExpectedRetryableFailed state))
        end
    end);
  let change := store_change r in
  (if bool_decide (change = ChangeUnchanged) then mret tt
   else publish (VerificationChanged id Queued)) ≫= fun _ =>
  mret change.

(** The status of one identifier, the body of the loop of [statuses]. *)
Definition status_of (s : ProofStore) (id : VerificationId) : VerificationStatus :=
  match get id s with
  | None => StatusUnavailable
  | Some a =>
      match verification (metadata (arc_value a)) with
      | None => StatusUnavailable
      | Some Queued => StatusQueued
      | Some Verifying => StatusVerifying
      | Some (Completed v) => StatusCompleted v
      | Some (Failed f) => StatusFailed f
      end
  end.

Definition statuses (ids : list VerificationId) (s : ProofStore) : list StoredVerificationStatus :=
  map (fun id => mkStoredStatus id (status_of s id)) ids.

Definition completed_results (ids : list VerificationId) (s : ProofStore)
  : list CompletedVerification :=
  omap (fun id =>
    a ← get id s;
    match verification (metadata (arc_value a)) with
    | Some (Completed v) => Some (mkCompleted id v)
    | _ => None
    end) ids.

(** An entry leaves the cache: its own eviction, or [invalidate]. *)
Definition evict (id : VerificationId) (cause : RemovalCause) (s : ProofStore) : ProofStore :=
  match records s !! id with
  | Some _ =>
      set_events (events s ++ eviction_listener id cause) (set_records (delete id (records s)) s)
  | None => s
  end.

Definition invalidate (id : VerificationId) (s : ProofStore) : ProofStore :=
  evict id CauseExplicit s.

(** [snapshot]: the cache's iterator visits each entry once, in an order of its own. *)
Definition snapshot (predicate : ProofRecord -> bool) (s : ProofStore) : list StoredProof :=
  omap (fun '(id, a) =>
    if predicate (arc_value a) then Some (mkStoredProof id a) else None)
    (map_to_list (records s)).

Definition waiting_for_content (r : ProofRecord) : bool :=
  is_some (chain_observed_at (metadata r)) && is_none (record_proof r).

Definition ready_for_verification (r : ProofRecord) : bool :=
  is_some (chain_observed_at (metadata r)) && is_some (record_proof r)
    && bool_decide (verification (metadata r) = Some Queued).

Definition records_waiting_for_content := snapshot waiting_for_content.
Definition records_ready_for_verification := snapshot ready_for_verification.
Definition locally_available_proofs := snapshot (fun r => is_some (record_proof r)).
End store.
