(* ===== verification/StoreProps.v ===== *)
(** * The proof store's invariant, lifecycle and event log

    Every operation of [Store] is shown to be one of a few record transitions
    ([record_step]); the invariant, the abstract lifecycle and the event log follow from
    those. [sys_step] is the interleaving of all operations with evictions. *)

From stdpp Require Import base gmap list strings relations fin_maps.
From S2P Require Import Prelude Types Wire Samples ProofId StoreRecord ConfigTypes Store.

Section props.
Context `{Libp2p, Sha256, ProstVarint}.

(** ** Definitions *)

(** The one way a record enters or changes in the cache. *)
Definition put_record (id : VerificationId) (r : ProofRecord) (evs : list ProofStoreEvent)
  (s : ProofStore) : ProofStore :=
  mkStore (<[id := mkArc (next_ptr s) r]> (records s)) (S (next_ptr s)) (events s ++ evs)
    (max_proof_bytes s) (max_capacity s) (retention s).

Definition queued_events (id : VerificationId) (r : ProofRecord) : list ProofStoreEvent :=
  if bool_decide (verification (metadata r) = Some Queued)
  then [VerificationChanged id Queued] else [].

Definition outcome_wf (o : VerificationOutcome) : Prop :=
  match o with OutcomeCompleted _ => True | OutcomeFailed f => failure_wf f end.

(** The transitions of one record, with what they publish. *)
Inductive record_step (max : Z) (id : VerificationId)
  : option ProofRecord -> ProofRecord -> list ProofStoreEvent -> Prop :=
| rs_observe_new t :
    record_step max id None
      (mkRecord (mkMetadata (Some t) None None None None) None) [VerificationObserved id]
| rs_observe t r :
    chain_observed_at (metadata r) = None ->
    record_step max id (Some r) (queue_if_ready (set_chain_observed_at (Some t) r))
      (VerificationObserved id
        :: queued_events id (queue_if_ready (set_chain_observed_at (Some t) r)))
| rs_store_new t p source :
    proof_encoded_len p <= max -> verification_id p = id ->
    record_step max id None
      (mkRecord (mkMetadata None (Some source) (Some t) None None) (Some p))
      [ProofStored id source]
| rs_store t p source r :
    proof_encoded_len p <= max -> verification_id p = id -> record_proof r = None ->
    record_step max id (Some r) (queue_if_ready (set_content p source t r))
      (ProofStored id source :: queued_events id (queue_if_ready (set_content p source t r)))
| rs_begin r :
    chain_observed_at (metadata r) <> None -> record_proof r <> None ->
    verification (metadata r) = Some Queued ->
    record_step max id (Some r) (set_verification (Some Verifying) r)
      [VerificationChanged id Verifying]
| rs_finish t r o :
    outcome_wf o -> verification (metadata r) = Some Verifying ->
    record_step max id (Some r)
      (set_completed_at (match o with OutcomeCompleted _ => Some t | _ => None end)
        (set_verification (Some (outcome_state o)) r))
      [VerificationChanged id (outcome_state o)]
| rs_retry r f :
    verification (metadata r) = Some (Failed f) -> retryable f = true ->
    record_step max id (Some r) (set_completed_at None (set_verification (Some Queued) r))
      [VerificationChanged id Queued].

(** One operation of the store, by any of its users. *)
Inductive op_step : ProofStore -> ProofStore -> Prop :=
| step_observe t id s :
    op_step s (snd (observe_chain_verification t id s))
| step_insert t p source s :
    op_step s (snd (insert_local_proof t p source s))
| step_attach t id p peer s :
    op_step s (snd (attach_downloaded_proof t id p peer s))
| step_begin id s :
    op_step s (snd (begin_verification id s))
| step_finish t job o s :
    outcome_wf o -> op_step s (snd (finish_verification t job o s))
| step_retry id s :
    op_step s (snd (retry_verification id s)).

(** The store with the tasks that use it. An operation is atomic on its record, but what it
    publishes is sent after the computation, so other operations come in between: the
    publications still owed are [inflight], one list per unfinished call. [commits] lists
    all publications in the order of their computations; the program does not have it. *)
Record system : Type := mkSystem {
  sys_store : ProofStore;
  inflight : list (list ProofStoreEvent);
  commits : list ProofStoreEvent
}.

Definition new_events (s s' : ProofStore) : list ProofStoreEvent :=
  drop (length (events s)) (events s').

(** An operation has computed, and owes its publications. *)
Definition commit (s' : ProofStore) (y : system) : system :=
  let evs := new_events (sys_store y) s' in
  mkSystem (set_events (events (sys_store y)) s') (inflight y ++ [evs]) (commits y ++ evs).

(** The cache drops an entry; its listener sends at once. *)
Definition sys_evict (id : VerificationId) (cause : RemovalCause) (y : system) : system :=
  let s' := evict id cause (sys_store y) in
  mkSystem s' (inflight y) (commits y ++ new_events (sys_store y) s').

(** An unfinished call sends its next event. *)
Inductive pub_step (y : system) : system -> Prop :=
| pub_next l1 e evs l2 :
    inflight y = l1 ++ (e :: evs) :: l2 ->
    pub_step y (mkSystem (set_events (events (sys_store y) ++ [e]) (sys_store y))
      (l1 ++ evs :: l2) (commits y)).

Inductive sys_step (y : system) : system -> Prop :=
| sys_op s' : op_step (sys_store y) s' -> sys_step y (commit s' y)
| sys_publish y' : pub_step y y' -> sys_step y y'
| sys_eviction id cause :
    cause <> CauseReplaced -> sys_step y (sys_evict id cause y).

Definition sys_init (s : ProofStore) : system := mkSystem s [] [].

(** The program's systems: a new store, then any interleaving. *)
Definition sys_reachable (config : ProofStoreConfig) (y : system) : Prop :=
  exists s0, ProofStore_new config = Ok s0 /\ rtc sys_step (sys_init s0) y.

Definition reachable (config : ProofStoreConfig) (s : ProofStore) : Prop :=
  exists y, sys_reachable config y /\ sys_store y = s.

(** Well-formedness of a record stored under [id]. *)
Record record_wf (max : Z) (id : VerificationId) (r : ProofRecord) : Prop := {
  wf_ready : is_some (verification (metadata r)) =
    is_some (chain_observed_at (metadata r)) && is_some (record_proof r);
  wf_proof : forall p, record_proof r = Some p ->
    verification_id p = id /\ proof_encoded_len p <= max;
  wf_source : is_some (content_source (metadata r)) = is_some (record_proof r);
  wf_stored_at : is_some (content_stored_at (metadata r)) = is_some (record_proof r);
  wf_completed : is_some (completed_at (metadata r)) =
    match verification (metadata r) with Some (Completed _) => true | _ => false end;
  wf_failure : forall f, verification (metadata r) = Some (Failed f) -> failure_wf f;
  wf_known : is_some (chain_observed_at (metadata r)) || is_some (record_proof r) = true
}.

Record store_inv (s : ProofStore) : Prop := {
  inv_records : forall id a, records s !! id = Some a ->
    record_wf (max_proof_bytes s) id (arc_value a);
  inv_ptr : forall id a, records s !! id = Some a -> (arc_ptr a < next_ptr s)%nat;
  inv_ptr_inj : forall id1 id2 a1 a2, records s !! id1 = Some a1 -> records s !! id2 = Some a2 ->
    arc_ptr a1 = arc_ptr a2 -> id1 = id2
}.

(** What the event log says of an identifier's state. *)
Definition replay_event (id : VerificationId) (st : option VerificationState)
  (e : ProofStoreEvent) : option VerificationState :=
  match e with
  | VerificationChanged id' v => if bool_decide (id' = id) then Some v else st
  | ProofEvicted id' _ => if bool_decide (id' = id) then None else st
  | VerificationObserved _ | ProofStored _ _ => st
  end.

Definition replay (l : list ProofStoreEvent) (id : VerificationId) : option VerificationState :=
  foldl (replay_event id) None l.

Definition state_of (s : ProofStore) (id : VerificationId) : option VerificationState :=
  a ← records s !! id; verification (metadata (arc_value a)).

(** The abstract lifecycle of a verification: what a status may become. *)
Inductive lifecycle : VerificationStatus -> VerificationStatus -> Prop :=
| lc_queue : lifecycle StatusUnavailable StatusQueued
| lc_claim : lifecycle StatusQueued StatusVerifying
| lc_complete v : lifecycle StatusVerifying (StatusCompleted v)
| lc_fail f : failure_wf f -> lifecycle StatusVerifying (StatusFailed f)
| lc_retry f : retryable f = true -> lifecycle (StatusFailed f) StatusQueued
| lc_evict st : lifecycle st StatusUnavailable.

(** ** Functional equations of the operations *)

Ltac store_unfold :=
  unfold mbind, stm_bind, mret, stm_ret, lift, get_state, modify, throw,
    and_try_compute_with, announce_queued, publish, put_record, queued_events in *.

Lemma observe_eq t id s :
  observe_chain_verification t id s =
  match records s !! id with
  | None =>
      (Ok ChangeInserted,
        put_record id (mkRecord (mkMetadata (Some t) None None None None) None)
          [VerificationObserved id] s)
  | Some a =>
      if is_some (chain_observed_at (metadata (arc_value a))) then (Ok ChangeUnchanged, s)
      else
        let r := queue_if_ready (set_chain_observed_at (Some t) (arc_value a)) in
        (Ok ChangeUpdated, put_record id r (VerificationObserved id :: queued_events id r) s)
  end.
Proof.
  unfold observe_chain_verification. store_unfold.
  destruct (records s !! id) as [a|] eqn:E; simpl; [|done].
  destruct (is_some _); simpl; [done|].
  rewrite app_nil_r. case_bool_decide; simpl; [by rewrite <- app_assoc|done].
Qed.

(** The outcome of the compute step shared by the two operations that store content. *)
Lemma insert_eq t p source s :
  insert_local_proof t p source s =
  match validate_proof (verification_id p) p s with
  | Err e => (Err e, s)
  | Ok _ =>
      let id := verification_id p in
      match records s !! id with
      | None =>
          (Ok (id, ChangeInserted),
            put_record id (mkRecord (mkMetadata None (Some source) (Some t) None None) (Some p))
              [ProofStored id source] s)
      | Some a =>
          if is_some (record_proof (arc_value a)) then (Ok (id, ChangeUnchanged), s)
          else
            let r := queue_if_ready (set_content p source t (arc_value a)) in
            (Ok (id, ChangeUpdated), put_record id r (ProofStored id source :: queued_events id r) s)
      end
  end.
Proof.
  unfold insert_local_proof. store_unfold.
  destruct (validate_proof _ _ _); [|done].
  destruct (records s !! verification_id p) as [a|] eqn:E; simpl; [|done].
  destruct (is_some _); simpl; [done|].
  rewrite app_nil_r. case_bool_decide; simpl; [by rewrite <- app_assoc|done].
Qed.

Lemma attach_eq t id p peer s :
  attach_downloaded_proof t id p peer s =
  match validate_proof id p s with
  | Err e => (Err e, s)
  | Ok _ =>
      match records s !! id with
      | None => (Err (ProofNotObserved id), s)
      | Some a =>
          if is_none (chain_observed_at (metadata (arc_value a))) then (Err (ProofNotObserved id), s)
          else if is_some (record_proof (arc_value a)) then (Ok ChangeUnchanged, s)
          else
            let r := queue_if_ready (set_content p (Peer peer) t (arc_value a)) in
            (Ok ChangeUpdated, put_record id r (ProofStored id (Peer peer) :: queued_events id r) s)
      end
  end.
Proof.
  unfold attach_downloaded_proof. store_unfold.
  destruct (validate_proof _ _ _); [|done].
  destruct (records s !! id) as [a|] eqn:E; simpl; [|done].
  destruct (is_none _); simpl; [done|].
  destruct (is_some _); simpl; [done|].
  rewrite app_nil_r. case_bool_decide; simpl; [by rewrite <- app_assoc|done].
Qed.

Lemma begin_eq id s :
  begin_verification id s =
  match records s !! id with
  | None => (Ok None, s)
  | Some a =>
      let r := arc_value a in
      match chain_observed_at (metadata r), record_proof r with
      | Some _, Some p =>
          if bool_decide (verification (metadata r) = Some Queued) then
            let r' := set_verification (Some Verifying) r in
            (Ok (Some (mkJob id p (mkArc (next_ptr s) r'))),
              put_record id r' [VerificationChanged id Verifying] s)
          else (Ok None, s)
      | _, _ => (Ok None, s)
      end
  end.
Proof.
  unfold begin_verification. store_unfold.
  destruct (records s !! id) as [[ptr [[o cs ct v c] p]]|] eqn:E; simpl; [|done].
  destruct o, p; simpl; try done.
  case_bool_decide; simpl; [by rewrite app_nil_r|done].
Qed.

Lemma finish_eq t job o s :
  finish_verification t job o s =
  match records s !! job_id job with
  | None => (Ok ChangeUnchanged, s)
  | Some a =>
      if negb (ptr_eq a (claim job)) then (Ok ChangeUnchanged, s)
      else if negb (bool_decide (verification (metadata (arc_value a)) = Some Verifying)) then
        (Err (InvalidVerificationTransition (job_id job)
          (ExpectedVerifying (verification (metadata (arc_value a))))), s)
      else
        (Ok ChangeUpdated,
          put_record (job_id job)
            (set_completed_at (match o with OutcomeCompleted _ => Some t | _ => None end)
              (set_verification (Some (outcome_state o)) (arc_value a)))
            [VerificationChanged (job_id job) (outcome_state o)] s)
  end.
Proof.
  unfold finish_verification. store_unfold.
  destruct (records s !! job_id job) as [a|] eqn:E; simpl; [|done].
  destruct (ptr_eq _ _); simpl; [|done].
  destruct (bool_decide _); simpl; [|done].
  rewrite app_nil_r. by destruct o.
Qed.

Lemma retry_eq id s :
  retry_verification id s =
  match records s !! id with
  | None => (Err (InvalidVerificationTransition id RecordDoesNotExist), s)
  | Some a =>
      match verification (metadata (arc_value a)) with
      | Some (Failed f) =>
          if retryable f then
            (Ok ChangeUpdated,
              put_record id (set_completed_at None (set_verification (Some Queued) (arc_value a)))
                [VerificationChanged id Queued] s)
          else (Err (InvalidVerificationTransition id (ExpectedRetryableFailed (Some (Failed f)))), s)
      | Some Queued => (Ok ChangeUnchanged, s)
      | st => (Err (InvalidVerificationTransition id (ExpectedRetryableFailed st)), s)
      end
  end.
Proof.
  unfold retry_verification. store_unfold.
  destruct (records s !! id) as [a|] eqn:E; simpl; [|done].
  destruct (verification _) as [[| |v|f]|] eqn:Ev; simpl; try done.
  destruct (retryable f); simpl; [by rewrite app_nil_r|done].
Qed.

Lemma validate_proof_ok id p s :
  validate_proof id p s = Ok tt <->
  proof_encoded_len p <= max_proof_bytes s /\ verification_id p = id.
Proof.
  unfold validate_proof.
  destruct (Z.ltb_spec (max_proof_bytes s) (proof_encoded_len p)).
  { split; [done|]. intros [? _]. lia. }
  destruct (bool_decide_reflect (verification_id p = id)) as [Hid|Hid]; simpl; [done|].
  split; [done|]. by intros [_ ?].
Qed.

(** ** Operations as record transitions *)

Inductive op_effect (s : ProofStore) : ProofStore -> Prop :=
| eff_none : op_effect s s
| eff_put id r evs :
    record_step (max_proof_bytes s) id (arc_value <$> records s !! id) r evs ->
    op_effect s (put_record id r evs s).

Lemma op_step_effect s s' : op_step s s' -> op_effect s s'.
Proof.
  intros Hs. inversion Hs as [t id ? | t p source ? | t id p peer ? | id ? | t job o ? Ho | id ?];
    subst; clear Hs.
  - rewrite observe_eq. destruct (records s !! id) as [a|] eqn:E.
    + destruct (chain_observed_at _) eqn:Ec; simpl; [constructor|].
      apply eff_put. rewrite E. by constructor.
    + apply eff_put. rewrite E. constructor.
  - rewrite insert_eq. destruct (validate_proof _ _ _) as [[]|e] eqn:Ev; [|constructor].
    apply validate_proof_ok in Ev as [Hl _]. simpl.
    destruct (records s !! verification_id p) as [a|] eqn:E.
    + destruct (record_proof (arc_value a)) eqn:Ep; simpl; [constructor|].
      apply eff_put. rewrite E. by constructor.
    + apply eff_put. rewrite E. by constructor.
  - rewrite attach_eq. destruct (validate_proof _ _ _) as [[]|e] eqn:Ev; [|constructor].
    apply validate_proof_ok in Ev as [Hl Hid].
    destruct (records s !! id) as [a|] eqn:E; [|constructor].
    destruct (is_none _) eqn:En; [constructor|].
    destruct (record_proof (arc_value a)) eqn:Ep; simpl; [constructor|].
    apply eff_put. rewrite E. by constructor.
  - rewrite begin_eq. destruct (records s !! id) as [a|] eqn:E; [|constructor]. simpl.
    destruct (chain_observed_at (metadata (arc_value a))) eqn:Ec; [|constructor].
    destruct (record_proof (arc_value a)) eqn:Ep; [|constructor].
    case_bool_decide; [|constructor].
    apply eff_put. rewrite E. constructor; congruence.
  - rewrite finish_eq. destruct (records s !! job_id job) as [a|] eqn:E; [|constructor].
    destruct (ptr_eq _ _); simpl; [|constructor].
    case_bool_decide; simpl; [|constructor].
    apply eff_put. rewrite E. by constructor.
  - rewrite retry_eq. destruct (records s !! id) as [a|] eqn:E; [|constructor].
    destruct (verification (metadata (arc_value a))) as [[| |v|f]|] eqn:Ev; try constructor.
    destruct (retryable f) eqn:Er; [|constructor].
    apply eff_put. rewrite E. by eapply rs_retry.
Qed.

(** ** Record transitions: well-formedness, replay, lifecycle *)

Lemma queue_if_ready_cases r :
  queue_if_ready r = r /\
    is_some (chain_observed_at (metadata r)) && is_some (record_proof r)
      && is_none (verification (metadata r)) = false \/
  queue_if_ready r = set_verification (Some Queued) r /\
    verification (metadata r) = None /\ record_proof r <> None /\
    chain_observed_at (metadata r) <> None.
Proof.
  destruct r as [[o cs ct v c] p]. unfold queue_if_ready; simpl.
  destruct o, p, v; simpl; naive_solver.
Qed.

Lemma record_step_wf max id old r evs :
  (forall r0, old = Some r0 -> record_wf max id r0) ->
  record_step max id old r evs -> record_wf max id r.
Proof.
  intros Hold Hs.
  destruct Hs as [t | t r0 Hc | t p src Hl Hid | t p src r0 Hl Hid Hp | r0 Hc Hp Hv | t r0 o Ho Hv | r0 f Hv Hf];
    [by split; simpl | destruct (Hold _ eq_refl) as [W1 W2 W3 W4 W5 W6 W7]
    | by split; simpl; naive_solver
    | destruct (Hold _ eq_refl) as [W1 W2 W3 W4 W5 W6 W7]..];
    destruct r0 as [[oo cs ct v c] pr]; simpl in *; subst; simpl in *.
  - destruct pr as [p|]; simpl in *; [|done]. destruct v; [done|].
    unfold queue_if_ready; simpl. by split; simpl.
  - destruct oo; simpl in *; [|done]. destruct v; [done|].
    unfold queue_if_ready; simpl. split; simpl; naive_solver.
  - split; simpl; naive_solver.
  - destruct o; split; simpl in *; naive_solver.
  - split; simpl; naive_solver.
Qed.

Lemma record_step_replay max id old r evs :
  record_step max id old r evs ->
  foldl (replay_event id) (old ≫= fun r0 => verification (metadata r0)) evs
    = verification (metadata r) /\
  forall id' st, id' <> id -> foldl (replay_event id') st evs = st.
Proof.
  intros Hs. split.
  - destruct Hs as [t | t r0 Hc | t p src Hl Hid | t p src r0 Hl Hid Hp | r0 Hc Hp Hv | t r0 o Ho Hv | r0 f Hv Hf];
      simpl; rewrite ?bool_decide_eq_true_2 by done; try done.
    + unfold queued_events. case_bool_decide as Eq; simpl.
      * by rewrite bool_decide_eq_true_2, Eq by done.
      * destruct (queue_if_ready_cases (set_chain_observed_at (Some t) r0)) as [[-> _]|[E _]];
          [by destruct r0 as [[]] | by rewrite E in Eq].
    + unfold queued_events. case_bool_decide as Eq; simpl.
      * by rewrite bool_decide_eq_true_2, Eq by done.
      * destruct (queue_if_ready_cases (set_content p src t r0)) as [[-> _]|[E _]];
          [by destruct r0 as [[]] | by rewrite E in Eq].
  - intros id' st Hne.
    destruct Hs; simpl; unfold queued_events; repeat case_bool_decide; simpl;
      rewrite ?bool_decide_eq_false_2 by done; congruence || done.
Qed.

Definition status_of_state (st : option VerificationState) : VerificationStatus :=
  match st with
  | None => StatusUnavailable
  | Some Queued => StatusQueued
  | Some Verifying => StatusVerifying
  | Some (Completed v) => StatusCompleted v
  | Some (Failed f) => StatusFailed f
  end.

Lemma status_of_state_of s id : status_of s id = status_of_state (state_of s id).
Proof.
  unfold status_of, state_of, get. destruct (records s !! id) as [a|]; simpl; [|done].
  by destruct (verification _) as [[]|].
Qed.

Lemma record_step_lifecycle max id old r evs :
  record_step max id old r evs ->
  let before := status_of_state (old ≫= fun r0 => verification (metadata r0)) in
  let after := status_of_state (verification (metadata r)) in
  after = before \/ (lifecycle before after /\ after <> StatusUnavailable).
Proof.
  intros Hs.
  destruct Hs as [t | t r0 Hc | t p src Hl Hid | t p src r0 Hl Hid Hp | r0 Hc Hp Hv | t r0 o Ho Hv | r0 f Hv Hf];
    simpl; [by left | | by left | | rewrite Hv..].
  - destruct (queue_if_ready_cases (set_chain_observed_at (Some t) r0)) as [[-> _]|[-> (E & _)]];
      [by left; destruct r0 as [[]] | right; simpl in *; rewrite E].
    split; [constructor|done].
  - destruct (queue_if_ready_cases (set_content p src t r0)) as [[-> _]|[-> (E & _)]];
      [by left; destruct r0 as [[]] | right; simpl in *; rewrite E].
    split; [constructor|done].
  - right. split; [constructor|done].
  - right. destruct o; simpl; (split; [by constructor|done]).
  - right. split; [by constructor|done].
Qed.


(** ** Steps of the whole system *)

(** The way from a fact about stores to a fact about systems. *)
Lemma sys_steps_preserve (P : ProofStore -> Prop) y y' :
  (forall s l, P s -> P (set_events l s)) ->
  (forall s s', P s -> op_effect s s' -> P s') ->
  (forall s id c, P s -> P (evict id c s)) ->
  rtc sys_step y y' -> P (sys_store y) -> P (sys_store y').
Proof.
  intros Hl Hop Hev. induction 1 as [y|y y1 y2 Hs _ IH]; [done|]. intros HP. apply IH.
  destruct Hs as [s' Hs|? []|id c Hc]; simpl; eauto using op_step_effect.
Qed.

Lemma op_effect_events s s' : op_effect s s' -> events s' = events s ++ new_events s s'.
Proof.
  unfold new_events. intros []; simpl.
  - by rewrite drop_all, app_nil_r.
  - by rewrite drop_app_length.
Qed.

Lemma evict_events s id c :
  evict id c s = s \/
  (exists a, records s !! id = Some a) /\
    evict id c s = set_events (events s ++ eviction_listener id c)
      (set_records (delete id (records s)) s).
Proof. unfold evict. destruct (records s !! id); eauto. Qed.

Lemma evict_new_events s id c : events (evict id c s) = events s ++ new_events s (evict id c s).
Proof.
  unfold new_events. destruct (evict_events s id c) as [->|[_ ->]]; simpl.
  - by rewrite drop_all, app_nil_r.
  - by rewrite drop_app_length.
Qed.

Lemma sys_steps_log y y' :
  rtc sys_step y y' -> exists evs, events (sys_store y') = events (sys_store y) ++ evs.
Proof.
  induction 1 as [y|y y1 y2 Hs _ [evs IH]]; [exists []; by rewrite app_nil_r|].
  rewrite IH. destruct Hs as [s'|? [l1 e es l2]|id c]; simpl; [by eauto| |].
  - rewrite <- app_assoc. eauto.
  - rewrite evict_new_events, <- app_assoc. eauto.
Qed.

Lemma inv_set_events l s : store_inv s -> store_inv (set_events l s).
Proof. intros [I1 I2 I3]. by split. Qed.

Lemma op_effect_inv s s' : store_inv s -> op_effect s s' -> store_inv s'.
Proof.
  intros [I1 I2 I3] Hs. destruct Hs as [|id r evs Hr]; [by split|].
  split; simpl.
  - intros id' a'. rewrite lookup_insert. case_decide as Hd; [subst id'|by apply I1].
    intros [= <-]. simpl. eapply record_step_wf; [|done].
    intros r0. rewrite fmap_Some. intros (a0 & Ha0 & ->). eauto.
  - intros id' a'. rewrite lookup_insert. case_decide; [intros [= <-]; simpl; lia|].
    intros Hl%I2. lia.
  - intros id1 id2 a1 a2. rewrite !lookup_insert.
    repeat case_decide; subst; simplify_eq; simpl; try done.
    + intros [= <-] Hl%I2; simpl. lia.
    + intros Hl%I2 [= <-]; simpl. lia.
    + by apply I3.
Qed.

Lemma evict_inv s id c : store_inv s -> store_inv (evict id c s).
Proof.
  intros I. destruct (evict_events s id c) as [->|[_ ->]]; [done|]. destruct I as [I1 I2 I3].
  split; simpl; intros *; rewrite ?lookup_delete_Some; naive_solver.
Qed.

Lemma steps_inv y y' : rtc sys_step y y' -> store_inv (sys_store y) -> store_inv (sys_store y').
Proof. apply sys_steps_preserve; eauto using inv_set_events, op_effect_inv, evict_inv. Qed.

Lemma new_inv config s :
  ProofStore_new config = Ok s -> store_inv s /\ events s = [] /\ records s = ∅.
Proof.
  unfold ProofStore_new. repeat case_match; try done. intros [= <-].
  split; [|done]. split; simpl; intros *; rewrite ?lookup_empty; done.
Qed.

Lemma reachable_inv config s : reachable config s -> store_inv s.
Proof.
  intros (y & (s0 & Hn & Hs) & <-). eapply steps_inv; [done|]. by apply new_inv in Hn as [].
Qed.

(** What a step does to the status of each identifier. *)
Lemma op_effect_status s s' id :
  op_effect s s' ->
  status_of s' id = status_of s id \/
  (lifecycle (status_of s id) (status_of s' id) /\ status_of s' id <> StatusUnavailable).
Proof.
  intros Hs. rewrite !status_of_state_of. destruct Hs as [|id' r evs Hr]; [by left|].
  apply record_step_lifecycle in Hr. unfold state_of; simpl.
  rewrite lookup_insert. case_decide as Hd; simpl; [subst id'|by left].
  replace (records s !! id ≫= fun a => verification (metadata (arc_value a)))
    with ((arc_value <$> records s !! id) ≫= fun r0 => verification (metadata r0))
    by (by destruct (records s !! id)).
  naive_solver.
Qed.

Lemma evict_status s id' c id :
  c <> CauseReplaced ->
  status_of (evict id' c s) id = status_of s id \/
  (status_of (evict id' c s) id = StatusUnavailable /\ records (evict id' c s) !! id = None /\
    exists c', events (evict id' c s) = events s ++ [ProofEvicted id c']).
Proof.
  intros Hc. destruct (evict_events s id' c) as [->|[_ ->]]; [by left|].
  rewrite !status_of_state_of. unfold state_of; simpl. rewrite lookup_delete.
  case_decide as Hd; simpl; [subst id'|by left].
  right. split_and!; [done..|]. destruct c; naive_solver.
Qed.

Lemma sys_step_status y y' id :
  let s := sys_store y in let s' := sys_store y' in
  sys_step y y' ->
  status_of s' id = status_of s id \/
  (lifecycle (status_of s id) (status_of s' id) /\ status_of s' id <> StatusUnavailable) \/
  (status_of s' id = StatusUnavailable /\ records s' !! id = None /\
    exists c, events s' = events s ++ [ProofEvicted id c]).
Proof.
  cbv zeta. intros Hs. destruct Hs as [s' Hs|? [l1 e evs l2 Hi]|id0 cause Hc]; simpl;
    [|left; reflexivity|].
  - destruct (op_effect_status (sys_store y) s' id) as [E|E];
      [by apply op_step_effect|by left|by right; left].
  - destruct (evict_status (sys_store y) id0 cause id) as [E|E]; [done|by left|by right; right].
Qed.

(** An address that left the cache, or was never in it, does not come back. *)
Definition dead (p : nat) (s : ProofStore) : Prop :=
  (p < next_ptr s)%nat /\ forall id a, records s !! id = Some a -> arc_ptr a <> p.

Lemma op_effect_dead p s s' : dead p s -> op_effect s s' -> dead p s'.
Proof.
  intros [D1 D2] Hs. destruct Hs as [|id r evs Hr]; [by split|].
  split; simpl; [lia|]. intros id' a'. rewrite lookup_insert.
  case_decide; [intros [= <-]; simpl; lia|apply D2].
Qed.

Lemma evict_dead p s id c : dead p s -> dead p (evict id c s).
Proof.
  intros [D1 D2]. destruct (evict_events s id c) as [->|[_ ->]]; [by split|].
  split; simpl; [done|]. intros id' a'. rewrite lookup_delete_Some. naive_solver.
Qed.

Lemma steps_dead p y y' : rtc sys_step y y' -> dead p (sys_store y) -> dead p (sys_store y').
Proof. apply sys_steps_preserve; eauto using op_effect_dead, evict_dead. Qed.

Lemma finish_dead t job o s :
  dead (arc_ptr (claim job)) s -> finish_verification t job o s = (Ok ChangeUnchanged, s).
Proof.
  intros [_ D]. rewrite finish_eq. destruct (records s !! job_id job) as [a|] eqn:E; [|done].
  unfold ptr_eq. by rewrite (proj2 (Nat.eqb_neq _ _) (D _ _ E)).
Qed.

(** A record stays under its address until it is replaced or evicted. *)
Definition held (id : VerificationId) (a : Arc ProofRecord) (s : ProofStore) : Prop :=
  store_inv s /\ (records s !! id = Some a \/ dead (arc_ptr a) s).

Lemma op_effect_held s s' id a : held id a s -> op_effect s s' -> held id a s'.
Proof.
  intros [I Hh] Hs. split; [by eapply op_effect_inv|].
  destruct Hh as [Hl|D]; [|by right; eapply op_effect_dead].
  pose proof (inv_ptr _ I _ _ Hl) as Hp. destruct Hs as [|id' r evs Hr]; [by left|].
  destruct (decide (id' = id)) as [->|Hne]; [|left; simpl; by rewrite lookup_insert_ne].
  right. split; simpl; [lia|]. intros id2 a2. rewrite lookup_insert.
  case_decide as Hd; [intros [= <-]; simpl; lia|].
  intros Ha2 E. apply Hd. by eapply (inv_ptr_inj _ I).
Qed.

Lemma evict_held s id' c id a : held id a s -> held id a (evict id' c s).
Proof.
  intros [I Hh]. split; [by apply evict_inv|].
  destruct Hh as [Hl|D]; [|by right; apply evict_dead].
  destruct (evict_events s id' c) as [->|[_ ->]]; [by left|].
  destruct (decide (id' = id)) as [->|Hne]; [|left; simpl; by rewrite lookup_delete_ne].
  right. split; simpl; [by eapply (inv_ptr _ I)|]. intros id2 a2. rewrite lookup_delete_Some.
  intros [Hd Ha2] E. apply Hd. by eapply (inv_ptr_inj _ I).
Qed.

Lemma steps_held id a y y' :
  rtc sys_step y y' -> held id a (sys_store y) -> held id a (sys_store y').
Proof.
  apply sys_steps_preserve; eauto using op_effect_held, evict_held.
  intros s l [I Hh]. split; [by apply inv_set_events|done].
Qed.

(** What a successful [begin_verification] leaves behind. *)
Lemma begin_some id s job s1 :
  begin_verification id s = (Ok (Some job), s1) ->
  job_id job = id /\ records s1 !! id = Some (claim job) /\
  verification (metadata (arc_value (claim job))) = Some Verifying /\
  record_proof (arc_value (claim job)) = Some (job_proof job) /\
  chain_observed_at (metadata (arc_value (claim job))) <> None /\
  state_of s id = Some Queued /\ arc_ptr (claim job) = next_ptr s.
Proof.
  rewrite begin_eq. destruct (records s !! id) as [a|] eqn:E; [|done]. simpl.
  destruct (chain_observed_at _) eqn:Ec; [|done].
  destruct (record_proof _) eqn:Ep; [|done].
  case_bool_decide as Ev; [|done]. intros [= <- <-]; simpl.
  unfold state_of. rewrite E, lookup_insert_eq. simpl. rewrite Ec. done.
Qed.

(** Finishing a claim that is current. *)
Lemma finish_current t job o s :
  store_inv s -> records s !! job_id job = Some (claim job) ->
  verification (metadata (arc_value (claim job))) = Some Verifying ->
  exists s3, finish_verification t job o s = (Ok ChangeUpdated, s3) /\
    status_of s3 (job_id job) = status_of_state (Some (outcome_state o)) /\
    dead (arc_ptr (claim job)) s3.
Proof.
  intros I Hl Hv. rewrite finish_eq, Hl. unfold ptr_eq. rewrite Nat.eqb_refl, Hv. simpl.
  eexists; split_and!; [done| |].
  - rewrite status_of_state_of. unfold state_of; simpl. by rewrite lookup_insert_eq.
  - pose proof (inv_ptr _ I _ _ Hl) as Hlt. split; simpl; [lia|].
    intros id' a'. rewrite lookup_insert. case_decide as Hd; [intros [= <-]; simpl; lia|].
    intros Ha' E. apply Hd. by eapply (inv_ptr_inj _ I).
Qed.

(** The commit order replays to the state, one operation at a time. *)
Lemma op_effect_replay s s' id :
  op_effect s s' -> foldl (replay_event id) (state_of s id) (new_events s s') = state_of s' id.
Proof.
  unfold new_events. intros [|id' r evs Hr]; [by rewrite drop_all|]. simpl.
  rewrite drop_app_length. destruct (record_step_replay _ _ _ _ _ Hr) as [R1 R2].
  unfold state_of; simpl. rewrite lookup_insert. case_decide as Hd; simpl; [subst id'|by rewrite R2].
  rewrite <- R1. by destruct (records s !! id).
Qed.

Lemma evict_replay s id' c id :
  c <> CauseReplaced ->
  foldl (replay_event id) (state_of s id) (new_events s (evict id' c s)) =
  state_of (evict id' c s) id.
Proof.
  intros Hc. unfold new_events. destruct (evict_events s id' c) as [->|[_ ->]]; [by rewrite drop_all|].
  simpl. rewrite drop_app_length. unfold state_of; simpl. rewrite lookup_delete.
  case_decide as Hd; simpl; [subst id'|];
    destruct c; simpl; rewrite ?bool_decide_eq_true_2, ?bool_decide_eq_false_2 by done; done.
Qed.

Record log_inv (y : system) : Prop := {
  log_state : forall id, replay (commits y) id = state_of (sys_store y) id;
  log_sent : events (sys_store y) ++ concat (inflight y) ≡ₚ commits y
}.

Lemma sys_step_log y y' : sys_step y y' -> log_inv y -> log_inv y'.
Proof.
  intros Hs [L1 L2]. unfold replay in L1. split.
  - intros id. unfold replay. destruct Hs as [s' Hs|? [l1 e evs l2 Hi]|id' c Hc]; simpl;
      rewrite ?foldl_app, ?L1;
      [exact (op_effect_replay _ _ _ (op_step_effect _ _ Hs))|done|by apply evict_replay].
  - destruct Hs as [s' Hs|? [l1 e evs l2 Hi]|id' c Hc]; simpl.
    + by rewrite concat_app, app_assoc, L2; simpl; rewrite app_nil_r.
    + rewrite <- L2, Hi, !concat_app. simpl. solve_Permutation.
    + rewrite evict_new_events, <- L2. solve_Permutation.
Qed.

(** The unfinished calls can always send what they owe. *)
Definition deliver (y : system) : system :=
  mkSystem (set_events (events (sys_store y) ++ concat (inflight y)) (sys_store y))
    (map (fun _ => []) (inflight y)) (commits y).

Lemma deliver_one s l1 evs l2 c :
  rtc pub_step (mkSystem s (l1 ++ evs :: l2) c)
    (mkSystem (set_events (events s ++ evs) s) (l1 ++ [] :: l2) c).
Proof.
  revert s. induction evs as [|e evs IH]; intros s.
  - rewrite !app_nil_r. destruct s. apply rtc_refl.
  - eapply rtc_l; [by apply (pub_next _ l1 e evs l2)|]. simpl.
    specialize (IH (set_events (events s ++ [e]) s)). simpl in IH.
    by rewrite <- app_assoc in IH.
Qed.

Lemma deliver_steps y : rtc pub_step y (deliver y).
Proof.
  destruct y as [s fl c]. unfold deliver; simpl.
  enough (forall l1, rtc pub_step (mkSystem s (l1 ++ fl) c)
    (mkSystem (set_events (events s ++ concat fl) s) (l1 ++ map (fun _ => []) fl) c)) as Hl
    by exact (Hl []).
  revert s. induction fl as [|evs fl IH]; intros s l1; simpl.
  - rewrite !app_nil_r. destruct s. apply rtc_refl.
  - etransitivity; [apply deliver_one|].
    specialize (IH (set_events (events s ++ evs) s) (l1 ++ [[]])). simpl in IH.
    by rewrite <- !app_assoc in IH.
Qed.

(** ** Properties *)

(** C1: every reachable store is well formed: a record's state is set exactly when its
    proof is stored and its request was observed on chain, the proof is the one its
    identifier names and within the size limit, the completion time is set exactly for a
    verdict, failures respect the wire bounds, and every record has an address of its own. *)
Theorem store_invariant config s : reachable config s -> store_inv s.
Proof. apply reachable_inv. Qed.

(** C2: a claim is exclusive and commits at most once. Whatever the other tasks do after a
    successful [begin_verification], either the claim is still current, and then a second
    claim is refused and finishing commits the outcome after which the job is spent, or the
    claim is stale, and then finishing changes nothing, now and later. *)
Theorem claim_single_flight y s1 y2 id job :
  store_inv (sys_store y) -> begin_verification id (sys_store y) = (Ok (Some job), s1) ->
  rtc sys_step (commit s1 y) y2 ->
  let s2 := sys_store y2 in
  (begin_verification id s2 = (Ok None, s2) /\ status_of s2 id = StatusVerifying /\
    forall t o, exists s3, finish_verification t job o s2 = (Ok ChangeUpdated, s3) /\
      status_of s3 id = status_of_state (Some (outcome_state o)) /\
      forall y4 t' o', rtc sys_step (commit s3 y2) y4 ->
        finish_verification t' job o' (sys_store y4) = (Ok ChangeUnchanged, sys_store y4)) \/
  (forall y4 t o, rtc sys_step y2 y4 ->
    finish_verification t job o (sys_store y4) = (Ok ChangeUnchanged, sys_store y4)).
Proof.
  intros I Hb Hs s2. pose proof (begin_some _ _ _ _ Hb) as (Hj & Hl & Hv & Hp & Hc & _ & Hptr).
  assert (store_inv s1) as I1.
  { apply (op_effect_inv (sys_store y)); [done|]. apply op_step_effect.
    replace s1 with (snd (begin_verification id (sys_store y))) by (by rewrite Hb). constructor. }
  destruct (steps_held id (claim job) _ _ Hs) as [I2 [Hl2|D]];
    [split; [by apply inv_set_events|by left] | left
    |right; intros y4 t o H4; apply finish_dead; by eapply steps_dead].
  fold s2 in Hl2, I2. split_and!.
  - rewrite begin_eq, Hl2. simpl. rewrite Hv, Hp. by destruct (chain_observed_at _).
  - rewrite status_of_state_of. unfold state_of. rewrite Hl2. simpl. by rewrite Hv.
  - intros t o. rewrite <- Hj in Hl2 |- *.
    destruct (finish_current t job o s2 I2 Hl2 Hv) as (s3 & E1 & E2 & E3).
    exists s3. split_and!; [done..|]. intros y4 t' o' H4. apply finish_dead.
    by eapply steps_dead.
Qed.

(** C3: the abstract lifecycle is implemented: in every step of the system, each
    identifier's status stays, advances along the lifecycle, or is lost to an eviction of
    that very record, which is published. *)
Theorem store_refines_lifecycle y y' id :
  let s := sys_store y in let s' := sys_store y' in
  sys_step y y' ->
  status_of s' id = status_of s id \/
  (lifecycle (status_of s id) (status_of s' id) /\ status_of s' id <> StatusUnavailable) \/
  (lifecycle (status_of s id) (status_of s' id) /\ records s' !! id = None /\
    exists c, events s' = events s ++ [ProofEvicted id c]).
Proof.
  intros s s' Hs. destruct (sys_step_status y y' id Hs) as [E|[E|(E' & E)]];
    [by left | by right; left |]. fold s' in E'.
  right; right. split; [rewrite E'; constructor|done].
Qed.

(** C4: a verdict is final: after any further steps it is still reported, unchanged, or
    an eviction of the record has been published since. *)
Theorem completed_verdict_final y y' id v :
  status_of (sys_store y) id = StatusCompleted v -> rtc sys_step y y' ->
  status_of (sys_store y') id = StatusCompleted v \/
  exists c evs, events (sys_store y') = events (sys_store y) ++ evs /\ ProofEvicted id c ∈ evs.
Proof.
  intros Hv Hs. revert Hv. induction Hs as [y|y y1 y2 Hstep Hs IH]; [by left|]. intros Hv.
  destruct (sys_steps_log _ _ Hs) as [evs2 E2].
  destruct (sys_steps_log _ _ (rtc_once _ _ Hstep)) as [evs1 E1].
  destruct (sys_step_status y y1 id Hstep) as [E|[[E E']|(_ & _ & c & E)]].
  - destruct IH as [?|(c & evs & E3 & Hin)]; [by rewrite E | by left | right].
    exists c, (evs1 ++ evs). rewrite E3, E1, <- app_assoc. set_solver.
  - rewrite Hv in E. inversion E; subst; congruence.
  - right. exists c, ([ProofEvicted id c] ++ evs2). rewrite E2, E, <- app_assoc. set_solver.
Qed.

Lemma replay_Some_elem l id v : replay l id = Some v -> VerificationChanged id v ∈ l.
Proof.
  unfold replay. induction l as [|e l IH] using rev_ind; [done|]. rewrite foldl_app, elem_of_app. simpl.
  destruct e; simpl; repeat case_bool_decide; subst; try (intros E; left; by apply IH); try done.
  intros [= ->]. right. by apply list_elem_of_singleton.
Qed.

(** C20: every change of state is published exactly once. The calls commit their changes in some
    order; replaying the changes in that order gives the current verification state of every
    identifier, evicted ones included. The events sent so far and those still owed by unfinished
    calls are these changes, each as often as it was committed; only their order may differ, since a
    call sends after it has committed ([publication_reordered]). So the event of an identifier's
    current state was sent or is owed. *)
Theorem event_log_faithful config y :
  sys_reachable config y ->
  (forall id, replay (commits y) id = state_of (sys_store y) id) /\
  events (sys_store y) ++ concat (inflight y) ≡ₚ commits y /\
  (forall id v, state_of (sys_store y) id = Some v ->
     VerificationChanged id v ∈ events (sys_store y) ++ concat (inflight y)).
Proof.
  intros (s0 & Hn & Hs). apply new_inv in Hn as (_ & He & Hr).
  assert (log_inv (sys_init s0)) as L.
  { split; simpl; [|by rewrite He]. intros id. unfold state_of. by rewrite Hr, lookup_empty. }
  clear He Hr. assert (log_inv y) as [L1 L2] by (revert L; induction Hs; eauto using sys_step_log).
  split_and!; [done..|]. intros id v. rewrite <- L1, L2. apply replay_Some_elem.
Qed.
End props.

(** ** Witnesses *)

Section witnesses.
#[local] Existing Instance sample_libp2p.
#[local] Existing Instance sample_sha256.
#[local] Existing Instance sample_varint.

Definition sample_config : ProofStoreConfig := mkProofStoreConfig 1048576 1024 900 8.
Definition sample_id : VerificationId :=
  Eval vm_compute in verification_id sample_proof.

Lemma sample_id_eq : verification_id sample_proof = sample_id.
Proof. vm_refl. Qed.

(** A store that holds the sample record only. *)
Definition sample_store (ptr : nat) (observed stored : option Instant)
  (state : option VerificationState) (completed : option Instant) (evs : list ProofStoreEvent)
  : ProofStore :=
  mkStore {[ sample_id := mkArc ptr (mkRecord (mkMetadata observed ((fun _ => Rpc) <$> stored) stored state
      completed) ((fun _ => sample_proof) <$> stored)) ]} (S ptr) evs
    (cfg_max_proof_bytes sample_config) (max_capacity_bytes sample_config)
    (terminal_retention sample_config).

(** observed on chain, proof submitted, claimed, verified *)
Definition sample_events : list ProofStoreEvent :=
  [VerificationObserved sample_id; ProofStored sample_id Rpc; VerificationChanged sample_id Queued;
   VerificationChanged sample_id Verifying; VerificationChanged sample_id (Completed Valid)].
Definition sample_store0 : ProofStore :=
  mkStore ∅ 0 [] (cfg_max_proof_bytes sample_config) (max_capacity_bytes sample_config)
    (terminal_retention sample_config).
Definition sample_store1 : ProofStore :=
  sample_store 0 (Some 10) None None None (take 1 sample_events).
Definition sample_store2 : ProofStore :=
  sample_store 1 (Some 10) (Some 20) (Some Queued) None (take 3 sample_events).
Definition sample_store3 : ProofStore :=
  sample_store 2 (Some 10) (Some 20) (Some Verifying) None (take 4 sample_events).
Definition sample_store4 : ProofStore :=
  sample_store 3 (Some 10) (Some 20) (Some (Completed Valid)) (Some 30) sample_events.
Definition sample_job : VerificationJob :=
  mkJob sample_id sample_proof
    (mkArc 2 (mkRecord (mkMetadata (Some 10) (Some Rpc) (Some 20) (Some Verifying) None)
      (Some sample_proof))).

(** the systems in which these stores are reached, everything sent *)
Definition sample_sys (s : ProofStore) (k : nat) : system := mkSystem s (replicate k []) (events s).

Lemma sample_sys_step s s' s2 k :
  op_step s s' -> s' = s2 -> deliver (commit s2 (sample_sys s k)) = sample_sys s2 (S k) ->
  rtc sys_step (sample_sys s k) (sample_sys s2 (S k)).
Proof.
  intros Hs -> <-. eapply rtc_l; [exact (sys_op (sample_sys s k) s2 Hs)|].
  eapply (rtc_congruence id); [exact sys_publish|apply deliver_steps].
Qed.

Lemma sample_steps_0_1 : rtc sys_step (sample_sys sample_store0 0) (sample_sys sample_store1 1).
Proof. eapply sample_sys_step; [exact (step_observe 10 sample_id sample_store0)|vm_refl|vm_refl]. Qed.

Lemma sample_steps_1_2 : rtc sys_step (sample_sys sample_store1 1) (sample_sys sample_store2 2).
Proof. eapply sample_sys_step; [exact (step_insert 20 sample_proof Rpc sample_store1)|vm_refl|vm_refl]. Qed.

Lemma sample_steps_2_3 : rtc sys_step (sample_sys sample_store2 2) (sample_sys sample_store3 3).
Proof. eapply sample_sys_step; [exact (step_begin sample_id sample_store2)|vm_refl|vm_refl]. Qed.

Lemma sample_steps_3_4 : rtc sys_step (sample_sys sample_store3 3) (sample_sys sample_store4 4).
Proof.
  eapply sample_sys_step;
    [exact (step_finish 30 sample_job (OutcomeCompleted Valid) sample_store3 I)|vm_refl|vm_refl].
Qed.

Lemma sample_sys2_reachable : sys_reachable sample_config (sample_sys sample_store2 2).
Proof.
  exists sample_store0. split; [vm_refl|].
  etransitivity; [exact sample_steps_0_1|exact sample_steps_1_2].
Qed.

Lemma sample_sys4_reachable : sys_reachable sample_config (sample_sys sample_store4 4).
Proof.
  destruct sample_sys2_reachable as (s0 & Hn & Hs). exists s0. split; [done|].
  etransitivity; [exact Hs|]. etransitivity; [exact sample_steps_2_3|exact sample_steps_3_4].
Qed.

Lemma sample_store2_reachable : reachable sample_config sample_store2.
Proof. exists (sample_sys sample_store2 2). split; [exact sample_sys2_reachable|reflexivity]. Qed.

Lemma sample_store4_reachable : reachable sample_config sample_store4.
Proof. exists (sample_sys sample_store4 4). split; [exact sample_sys4_reachable|reflexivity]. Qed.

Lemma sample_store4_status : status_of sample_store4 sample_id = StatusCompleted Valid.
Proof. vm_refl. Qed.

Lemma store_invariant_witness : reachable sample_config sample_store4 /\ store_inv sample_store4.
Proof.
  split; [apply sample_store4_reachable|].
  apply (store_invariant sample_config). apply sample_store4_reachable.
Defined.

Lemma claim_single_flight_witness :
  let s2 := sys_store (commit sample_store3 (sample_sys sample_store2 2)) in
  (begin_verification sample_id s2 = (Ok None, s2) /\ status_of s2 sample_id = StatusVerifying /\
    forall t o, exists s3, finish_verification t sample_job o s2 = (Ok ChangeUpdated, s3) /\
      status_of s3 sample_id = status_of_state (Some (outcome_state o)) /\
      forall y4 t' o', rtc sys_step (commit s3 (commit sample_store3 (sample_sys sample_store2 2))) y4 ->
        finish_verification t' sample_job o' (sys_store y4) = (Ok ChangeUnchanged, sys_store y4)) \/
  (forall y4 t o, rtc sys_step (commit sample_store3 (sample_sys sample_store2 2)) y4 ->
    finish_verification t sample_job o (sys_store y4) = (Ok ChangeUnchanged, sys_store y4)).
Proof.
  apply (claim_single_flight (sample_sys sample_store2 2) sample_store3 _ sample_id sample_job).
  - apply (reachable_inv sample_config). apply sample_store2_reachable.
  - vm_refl.
  - apply rtc_refl.
Defined.

Lemma store_refines_lifecycle_witness :
  let s := sample_store2 in let s' := sys_store (commit sample_store3 (sample_sys sample_store2 2)) in
  status_of s sample_id = StatusQueued /\ status_of s' sample_id = StatusVerifying /\
  (status_of s' sample_id = status_of s sample_id \/
  (lifecycle (status_of s sample_id) (status_of s' sample_id) /\
    status_of s' sample_id <> StatusUnavailable) \/
  (lifecycle (status_of s sample_id) (status_of s' sample_id) /\
    records s' !! sample_id = None /\
    exists c, events s' = events s ++ [ProofEvicted sample_id c])).
Proof.
  cbv zeta. split; [vm_refl|]. split; [vm_refl|].
  refine (store_refines_lifecycle (sample_sys sample_store2 2) (commit sample_store3 (sample_sys sample_store2 2)) sample_id _).
  apply (sys_op (sample_sys sample_store2 2) sample_store3).
  replace sample_store3 with (snd (begin_verification sample_id sample_store2)) by vm_refl.
  exact (step_begin sample_id sample_store2).
Defined.

Lemma completed_verdict_final_witness :
  let s' := sys_store (sys_evict sample_id CauseExpired (sample_sys sample_store4 4)) in
  status_of s' sample_id = StatusUnavailable /\
  (status_of s' sample_id = StatusCompleted Valid \/
  exists c evs, events s' = events (sys_store (sample_sys sample_store4 4)) ++ evs /\ ProofEvicted sample_id c ∈ evs).
Proof.
  cbv zeta. split; [vm_refl|].
  apply (completed_verdict_final (sample_sys sample_store4 4) _ sample_id Valid); [apply sample_store4_status|].
  apply rtc_once. by apply (sys_eviction (sample_sys sample_store4 4) sample_id CauseExpired).
Defined.

Lemma event_log_faithful_witness :
  replay (commits (sample_sys sample_store4 4)) sample_id = Some (Completed Valid) /\
  (forall id, replay (commits (sample_sys sample_store4 4)) id = state_of (sys_store (sample_sys sample_store4 4)) id) /\
  events (sys_store (sample_sys sample_store4 4)) ++ concat (inflight (sample_sys sample_store4 4)) ≡ₚ commits (sample_sys sample_store4 4) /\
  (forall id v, state_of (sys_store (sample_sys sample_store4 4)) id = Some v ->
     VerificationChanged id v ∈
       events (sys_store (sample_sys sample_store4 4)) ++ concat (inflight (sample_sys sample_store4 4))).
Proof.
  split; [vm_refl|].
  apply (event_log_faithful sample_config). apply sample_sys4_reachable.
Defined.

(** The record is claimed before the call that queued it has sent its events, and the claim is
    announced first. *)
Definition reordered_sys : system :=
  mkSystem (set_events [VerificationObserved sample_id; VerificationChanged sample_id Verifying;
      ProofStored sample_id Rpc; VerificationChanged sample_id Queued] sample_store3)
    [[]; []; []] (take 4 sample_events).

(** Everything is sent, but a subscriber that replays what it received takes the record for a queued
    one while it is being verified: the order of the events is not that of the changes. *)
Lemma publication_reordered :
  sys_reachable sample_config reordered_sys /\ concat (inflight reordered_sys) = [] /\
  replay (events (sys_store reordered_sys)) sample_id = Some Queued /\
  state_of (sys_store reordered_sys) sample_id = Some Verifying.
Proof.
  split; [|split; [done|split; vm_refl]]. exists sample_store0. split; [vm_refl|].
  etransitivity; [exact sample_steps_0_1|].
  eapply rtc_l; [exact (sys_op (sample_sys sample_store1 1) _ (step_insert 20 sample_proof Rpc sample_store1))|].
  set (y1 := commit _ _).
  eapply rtc_l; [exact (sys_op y1 _ (step_begin sample_id (sys_store y1)))|]. set (y2 := commit _ _).
  assert (inflight y2 = [[]; take 2 (drop 1 sample_events); [VerificationChanged sample_id Verifying]]) as E2
    by vm_refl.
  eapply rtc_l; [exact (sys_publish _ _ (pub_next y2 [[]; take 2 (drop 1 sample_events)] _ [] [] E2))|].
  eapply rtc_l; [apply sys_publish; exact (pub_next (mkSystem _ _ _) [[]] _ _ [[]] eq_refl)|].
  eapply rtc_l; [apply sys_publish; exact (pub_next (mkSystem _ _ _) [[]] _ _ [[]] eq_refl)|].
  match goal with |- rtc _ ?y _ => replace y with reordered_sys by vm_refl end. apply rtc_refl.
Qed.
End witnesses.
