(* ===== verification/StoreLimits.v ===== *)
(** * The store's limits: weights, expiry, arrival order, snapshots

    The cache's weigher never panics on a record the store holds, retention starts at a
    verdict and reads do not extend it, content and observation may arrive in either
    order, and the snapshots taken after a subscriber lags are complete. *)

From stdpp Require Import base gmap list strings relations fin_maps pretty.
From S2P Require Import Prelude Types Wire Samples ProofId StoreRecord ConfigTypes Store StoreProps.

(** ** Definitions *)

Section limits.
Context `{Libp2p, Sha256, ProstVarint}.

(** A [Vec] or [Bytes] has a length that fits [usize]. *)
Definition proof_fits (p : Proof_) : Prop :=
  len (proof p) < 2 ^ 64 /\ len (public_inputs p) < 2 ^ 64 /\ len (verification_key p) < 2 ^ 64.

(** The accesses to one cache entry that consult the expiry policy. *)
Inductive access : Type :=
| AccessCreate (t : Instant) (v : Arc ProofRecord)
| AccessUpdate (t : Instant) (v : Arc ProofRecord)
| AccessRead (t : Instant) (v : Arc ProofRecord).

(** The entry's expiry time after one more access: the cache passes the time that is left
    and counts the answer from the access. *)
Definition deadline_step (retention : Z) (deadline : option Instant) (a : access) : option Instant :=
  match a with
  | AccessCreate t v => Z.add t <$> expire_after_create retention v t
  | AccessUpdate t v =>
      Z.add t <$> expire_after_update retention v t ((fun d => d - t) <$> deadline)
  | AccessRead t v =>
      Z.add t <$> expire_after_read retention v t ((fun d => d - t) <$> deadline) t
  end.

Definition deadline_after (retention : Z) (l : list access) : option Instant :=
  foldl (deadline_step retention) None l.

(** The last write of a history. *)
Definition last_write (l : list access) : option (Instant * Arc ProofRecord) :=
  foldl (fun w a => match a with
                    | AccessCreate t v | AccessUpdate t v => Some (t, v)
                    | AccessRead _ _ => w
                    end) None l.

(** ** Lemmas *)

Lemma failure_wf_bounds f :
  failure_wf f -> 1 <= str_len (code f) <= 64 /\ 0 <= str_len (message f) <= 256.
Proof.
  unfold failure_wf, VerificationFailure_new, FAILURE_CODE_MAX_BYTES, FAILURE_MESSAGE_MAX_BYTES.
  destruct (Z.eqb_spec (str_len (code f)) 0), (Z.ltb_spec 64 (str_len (code f))); simpl; try done.
  destruct (all_enumerated _ _ _); simpl; [|done].
  destruct (Z.ltb_spec 256 (str_len (message f))); [done|].
  unfold str_len in *. lia.
Qed.

Lemma maximum_weight_value max m :
  maximum_weight max = Some m -> max <= u32_max /\ m = max + 576 /\ m <= u32_max.
Proof.
  unfold maximum_weight, try_from_u32, checked_add, METADATA_WEIGHT_BYTES,
    FAILURE_CODE_MAX_BYTES, FAILURE_MESSAGE_MAX_BYTES, usize_max, u64_max, u32_max.
  destruct (Z.leb_spec max (2 ^ 32 - 1)); simpl; [|done].
  destruct (Z.leb_spec (max + 256) (2 ^ 32 - 1)); simpl; [|done].
  destruct (Z.leb_spec (max + 256 + (64 + 256)) (2 ^ 32 - 1)); simpl; [|done].
  intros [= <-]. lia.
Qed.

Lemma new_limits config s :
  ProofStore_new config = Ok s ->
  max_proof_bytes s = cfg_max_proof_bytes config /\
  exists m, maximum_weight (cfg_max_proof_bytes config) = Some m.
Proof.
  unfold ProofStore_new. repeat case_match; try done. intros [= <-]; eauto.
Qed.

Lemma evict_limit id c s : max_proof_bytes (evict id c s) = max_proof_bytes s.
Proof. by destruct (evict_events s id c) as [->|[_ ->]]. Qed.

Lemma reachable_limit config s :
  reachable config s ->
  max_proof_bytes s = cfg_max_proof_bytes config /\
  exists m, maximum_weight (cfg_max_proof_bytes config) = Some m.
Proof.
  intros (y & (s0 & Hn & Hs) & <-). destruct (new_limits _ _ Hn) as [Hmax Hm].
  split; [|done]. revert Hmax.
  apply (sys_steps_preserve (fun s => max_proof_bytes s = _) (sys_init s0) y); [done|..|done].
  - by intros s s' E [].
  - intros s id c. by rewrite evict_limit.
Qed.

Lemma elem_of_snapshot f s x :
  x ∈ snapshot f s <->
  records s !! stored_id x = Some (stored_record x) /\ f (arc_value (stored_record x)) = true.
Proof.
  unfold snapshot. rewrite list_elem_of_omap. split.
  - intros ([id a] & Hin & Hx). apply elem_of_map_to_list in Hin.
    destruct (f (arc_value a)) eqn:Ef; simplify_eq; simpl; done.
  - intros [Hl Hf]. exists (stored_id x, stored_record x).
    split; [by apply elem_of_map_to_list|]. rewrite Hf. by destruct x.
Qed.

Lemma snapshot_NoDup f s : NoDup (map stored_id (snapshot f s)).
Proof.
  unfold snapshot. pose proof (NoDup_fst_map_to_list (records s)) as Hnd.
  induction (map_to_list (records s)) as [|[id a] l IH]; simpl in *; [constructor|].
  inversion Hnd as [|x l' Hni Hnd']; subst.
  destruct (f (arc_value a)); simpl; [|by apply IH].
  constructor; [|by apply IH].
  contradict Hni. apply list_elem_of_fmap in Hni as (y & -> & Hy).
  apply list_elem_of_omap in Hy as ([id2 a2] & Hy & E).
  apply list_elem_of_fmap. exists (id2, a2).
  split; [by destruct (f (arc_value a2)); simplify_eq|done].
Qed.

Lemma elem_of_snapshot_ids f s id :
  id ∈ map stored_id (snapshot f s) <->
  exists a, records s !! id = Some a /\ f (arc_value a) = true.
Proof.
  rewrite list_elem_of_fmap. split.
  - intros (x & -> & Hx%elem_of_snapshot). eauto.
  - intros (a & Hl & Hf). exists (mkStoredProof id a). by rewrite elem_of_snapshot.
Qed.

Lemma ready_snapshot_queued s id :
  store_inv s ->
  id ∈ map stored_id (records_ready_for_verification s) <-> status_of s id = StatusQueued.
Proof.
  intros I. unfold records_ready_for_verification. rewrite elem_of_snapshot_ids.
  rewrite status_of_state_of. unfold state_of. split.
  - intros (a & -> & Hf). unfold ready_for_verification in Hf.
    apply andb_true_iff in Hf as [_ Hf%bool_decide_eq_true]. simpl. by rewrite Hf.
  - destruct (records s !! id) as [a|] eqn:E; simpl; [|done].
    destruct (verification (metadata (arc_value a))) as [[]|] eqn:Ev; try done. intros _.
    exists a. split; [done|]. pose proof (wf_ready _ _ _ (inv_records _ I _ _ E)) as W.
    rewrite Ev in W. unfold ready_for_verification. rewrite <- W, Ev. done.
Qed.

Lemma payload_bound `{!VarintLaw} max id r :
  record_wf max id r -> 0 <= max -> max <= u32_max ->
  (forall p, record_proof r = Some p -> proof_fits p) ->
  exists n, (match record_proof r with Some p => payload_len p | None => Some 0 end) = Some n /\
    0 <= n <= max.
Proof.
  intros W Hpos Hu Hfit. destruct (record_proof r) as [p|] eqn:Ep; [|by exists 0; split; [|lia]].
  destruct (wf_proof _ _ _ W p Ep) as [_ Hlen]. destruct (Hfit p eq_refl) as (F1 & F2 & F3).
  destruct (payload_len_le_encoded p max) as (n & -> & _ & ? & ?);
    [done|unfold usize_max, u64_max, u32_max in *; lia|done..|].
  exists n. split; [done|lia].
Qed.

Lemma failure_bound max id r :
  record_wf max id r ->
  exists k, (match verification (metadata r) with
    | Some (Failed f) => str_len (code f) + str_len (message f) | _ => 0 end) = k /\
    0 <= k <= 320.
Proof.
  intros W. eexists; split; [reflexivity|].
  destruct (verification (metadata r)) as [[| |v|f]|] eqn:Ev; try lia.
  pose proof (failure_wf_bounds f (wf_failure _ _ _ W f Ev)). lia.
Qed.

(** ** Properties *)

(** C37: the weigher given to the cache never panics: every record of a reachable store
    has a weight, at least the metadata's and at most the bound the store was admitted
    with, so no [expect] of [proof_weight] fails. *)
Theorem proof_weight_total `{!VarintLaw} config s id a :
  0 <= cfg_max_proof_bytes config ->
  reachable config s -> records s !! id = Some a ->
  (forall p, record_proof (arc_value a) = Some p -> proof_fits p) ->
  exists w m, maximum_weight (cfg_max_proof_bytes config) = Some m /\
    proof_weight (arc_value a) = Some w /\ 256 <= w <= m.
Proof.
  intros Hpos Hr Hl Hfit. pose proof (reachable_inv _ _ Hr) as I.
  destruct (reachable_limit _ _ Hr) as (Hc & m & Hm).
  pose proof (inv_records _ I _ _ Hl) as W. rewrite Hc in W.
  destruct (maximum_weight_value _ _ Hm) as (Hu & -> & Hu').
  destruct (payload_bound _ _ _ W Hpos Hu Hfit) as (n & En & Hn').
  destruct (failure_bound _ _ _ W) as (k & Ek & Hk).
  exists (n + 256 + k), (cfg_max_proof_bytes config + 576).
  unfold proof_weight. rewrite En. simpl. rewrite Ek.
  unfold try_from_u32, checked_add, METADATA_WEIGHT_BYTES in *. unfold u32_max in *.
  split_and!; [done| |lia..].
  rewrite (proj2 (Z.leb_le _ _)) by lia. simpl.
  rewrite (proj2 (Z.leb_le _ _)) by lia. simpl.
  rewrite (proj2 (Z.leb_le _ _)) by lia. simpl.
  by rewrite (proj2 (Z.leb_le _ _)) by lia.
Qed.

(** Retention runs from the last write and only for a verdict: after any sequence of
    accesses an entry expires exactly [retention] after its last write if that write
    stored a verdict, and never otherwise; reads do not move the deadline. *)
Theorem expiry_from_last_write retention l :
  deadline_after retention l =
  '(t, v) ← last_write l; Z.add t <$> expiry_duration retention (arc_value v).
Proof.
  unfold deadline_after, last_write. induction l as [|a l IH] using rev_ind; [done|].
  rewrite !foldl_app. cbn [foldl]. rewrite IH.
  destruct a as [t v|t v|t v]; cbn [deadline_step]; [done|done|].
  unfold expire_after_read.
  match goal with |- context [foldl ?f None l] => destruct (foldl f None l) as [[t' v']|] end;
    simpl; [|done].
  destruct (expiry_duration retention (arc_value v')); simpl; [|done]. f_equal. lia.
Qed.

(** Content and chain observation may arrive in either order: both orders leave the
    same record, queued, and each publishes that it is queued exactly once. *)
Theorem arrival_order_irrelevant s p t1 t2 source :
  records s !! verification_id p = None ->
  proof_encoded_len p <= max_proof_bytes s ->
  let id := verification_id p in
  let observed_first := snd (insert_local_proof t2 p source (snd (observe_chain_verification t1 id s))) in
  let stored_first := snd (observe_chain_verification t1 id (snd (insert_local_proof t2 p source s))) in
  let r := mkRecord (mkMetadata (Some t1) (Some source) (Some t2) (Some Queued) None) (Some p) in
  arc_value <$> records observed_first !! id = Some r /\
  arc_value <$> records stored_first !! id = Some r /\
  events observed_first =
    events s ++ [VerificationObserved id; ProofStored id source; VerificationChanged id Queued] /\
  events stored_first =
    events s ++ [ProofStored id source; VerificationObserved id; VerificationChanged id Queued].
Proof.
  intros Hnone Hlen id observed_first stored_first r.
  assert (forall s', max_proof_bytes s' = max_proof_bytes s ->
    validate_proof id p s' = Ok tt) as Hv.
  { intros s' E. apply validate_proof_ok. by rewrite E. }
  fold id in Hnone.
  assert (observed_first = put_record id r [ProofStored id source; VerificationChanged id Queued]
    (put_record id (mkRecord (mkMetadata (Some t1) None None None None) None)
      [VerificationObserved id] s)) as ->.
  { subst observed_first. rewrite observe_eq, Hnone. cbn [snd]. rewrite insert_eq. fold id.
    rewrite Hv by done. simpl. by rewrite lookup_insert_eq. }
  assert (stored_first = put_record id r [VerificationObserved id; VerificationChanged id Queued]
    (put_record id (mkRecord (mkMetadata None (Some source) (Some t2) None None) (Some p))
      [ProofStored id source] s)) as ->.
  { subst stored_first. rewrite insert_eq. fold id. rewrite Hv by done. simpl. rewrite Hnone.
    cbn [snd]. rewrite observe_eq. simpl. by rewrite lookup_insert_eq. }
  simpl. rewrite !lookup_insert_eq, <- !app_assoc. done.
Qed.

(** The snapshots are complete: on a reachable store the identifiers ready for
    verification are exactly the queued ones, each once, and those waiting for content are
    exactly the observed ones without a proof. *)
Theorem snapshots_complete config s id :
  reachable config s ->
  (id ∈ map stored_id (records_ready_for_verification s) <-> status_of s id = StatusQueued) /\
  (id ∈ map stored_id (records_waiting_for_content s) <->
    exists a, records s !! id = Some a /\ chain_observed_at (metadata (arc_value a)) <> None /\
      get_proof id s = None) /\
  NoDup (map stored_id (records_ready_for_verification s)) /\
  NoDup (map stored_id (records_waiting_for_content s)).
Proof.
  intros Hr. pose proof (reachable_inv _ _ Hr) as I.
  split_and!; [by apply ready_snapshot_queued| |apply snapshot_NoDup..].
  unfold records_waiting_for_content. rewrite elem_of_snapshot_ids. unfold get_proof, get.
  split.
  - intros (a & Hl & Hw). exists a. rewrite Hl. unfold waiting_for_content in Hw. simpl.
    destruct (chain_observed_at _), (record_proof _); done.
  - intros (a & Hl & Ho & Hp). exists a. rewrite Hl in Hp. simpl in Hp.
    unfold waiting_for_content. rewrite Hp. by destruct (chain_observed_at _).
Qed.
End limits.

(** ** Witnesses *)

Section witnesses.
#[local] Existing Instance sample_libp2p.
#[local] Existing Instance sample_sha256.
#[local] Existing Instance sample_varint.

Definition sample_record : ProofRecord :=
  mkRecord (mkMetadata (Some 10) (Some Rpc) (Some 20) (Some (Completed Valid)) (Some 30))
    (Some sample_proof).

Lemma proof_weight_total_witness :
  records sample_store4 !! sample_id = Some (mkArc 3 sample_record) /\
  exists w m, maximum_weight (cfg_max_proof_bytes sample_config) = Some m /\
    proof_weight sample_record = Some w /\ 256 <= w <= m.
Proof.
  split; [vm_refl|].
  apply (@proof_weight_total sample_libp2p sample_sha256 sample_varint sample_varint_law
    sample_config sample_store4 sample_id (mkArc 3 sample_record)).
  - vm_compute. discriminate.
  - apply sample_store4_reachable.
  - vm_refl.
  - intros p [= <-]. repeat split; vm_compute; reflexivity.
Defined.

Lemma arrival_order_irrelevant_witness :
  let id := verification_id sample_proof in
  let observed_first := snd (insert_local_proof 2 sample_proof Rpc
    (snd (observe_chain_verification 1 id sample_store0))) in
  arc_value <$> records observed_first !! id =
    Some (mkRecord (mkMetadata (Some 1) (Some Rpc) (Some 2) (Some Queued) None) (Some sample_proof)).
Proof.
  refine (proj1 (arrival_order_irrelevant sample_store0 sample_proof 1 2 Rpc _ _)).
  - vm_refl.
  - vm_compute. discriminate.
Defined.

Lemma snapshots_complete_witness :
  (sample_id ∈ map stored_id (records_ready_for_verification sample_store2) <->
    status_of sample_store2 sample_id = StatusQueued) /\
  map stored_id (records_ready_for_verification sample_store2) = [sample_id].
Proof.
  split; [|vm_refl].
  exact (proj1 (snapshots_complete sample_config sample_store2 sample_id sample_store2_reachable)).
Defined.
End witnesses.
