(* ===== verification/Config.v ===== *)
(** * Configuration (src/src/config.rs)

    The file as [toml] hands it over ([FileConfig] with its defaults), the validation of each
    section, and [Config::from_file]. Numbers of the file are unsigned 64-bit integers
    ([max_retries] 32-bit), which the deserializer ensures. *)

From stdpp Require Import base gmap list strings.
From S2P Require Import Prelude Types StdText Wire Samples ConfigTypes ProofId StoreRecord Store.

(** ** The file *)

Record FileChainConfig : Set := mkFileChain
  { f_chain_id : string; f_comet_rpc_url : string; f_request_timeout_secs : Z }.
Record FileListenerConfig : Set := mkFileListener
  { f_listener_enabled : bool; f_reconnect_initial_backoff_millis : Z; f_reconnect_max_backoff_secs : Z }.
Record FileRpcConfig : Set := mkFileRpc { f_rpc_enabled : bool; f_rpc_listen_address : string }.
Record FileSubmissionConfig : Set := mkFileSubmission {
  f_submission_enabled : bool;
  f_submission_listen_address : string;
  f_max_transaction_bytes : Z;
  f_max_concurrent_requests : Z
}.
Record FileNoirConfig : Set := mkFileNoir {
  f_noir_enabled : bool;
  f_binary_path : string;
  f_home_directory : string;
  f_threads_per_job : Z
}.
Record FileVerificationConfig : Set := mkFileVerification {
  f_max_concurrent_jobs : Z;
  f_job_timeout_secs : Z;
  f_max_retries : Z;
  f_retry_backoff_millis : Z;
  f_noir : FileNoirConfig
}.
Record FileProofStoreConfig : Set := mkFileProofStore {
  f_max_capacity_bytes : Z;
  f_max_proof_bytes : Z;
  f_terminal_retention_secs : Z;
  f_store_event_buffer : Z
}.
Record FileRuntimeConfig : Set := mkFileRuntime
  { f_control_socket : string; f_shutdown_timeout_secs : Z }.
Record FileP2pConfig : Set := mkFileP2p {
  f_p2p_enabled : bool;
  f_listen_addresses : list string;
  f_bootnodes : list string;
  f_validator_key_path : string;
  f_max_availability_message_bytes : Z;
  f_proof_request_timeout_secs : Z;
  f_max_concurrent_retrievals : Z;
  f_retrieval_timeout_secs : Z;
  f_retrieval_initial_backoff_millis : Z;
  f_retrieval_max_backoff_secs : Z;
  f_command_buffer : Z;
  f_p2p_event_buffer : Z
}.
Record FileConfig : Set := mkFileConfig {
  f_runtime : FileRuntimeConfig;
  f_chain : FileChainConfig;
  f_listener : FileListenerConfig;
  f_proof_store : FileProofStoreConfig;
  f_p2p : FileP2pConfig;
  f_verification : FileVerificationConfig;
  f_rpc : FileRpcConfig;
  f_submission : FileSubmissionConfig
}.

(** The [Default] instances, which fill in what a file leaves out. *)
Definition FileChainConfig_default : FileChainConfig := mkFileChain "" "http://127.0.0.1:26657" 5.
Definition FileListenerConfig_default : FileListenerConfig := mkFileListener false 250 30.
Definition FileRpcConfig_default : FileRpcConfig := mkFileRpc false "127.0.0.1:50051".
Definition FileSubmissionConfig_default : FileSubmissionConfig :=
  mkFileSubmission false "127.0.0.1:50052" (1024 * 1024) 16.
Definition FileNoirConfig_default : FileNoirConfig := mkFileNoir false "" "" 1.
Definition FileVerificationConfig_default : FileVerificationConfig :=
  mkFileVerification 2 30 2 250 FileNoirConfig_default.
Definition FileProofStoreConfig_default : FileProofStoreConfig :=
  mkFileProofStore (512 * 1024 * 1024) (8 * 1024 * 1024) (15 * 60) 256.
Definition FileP2pConfig_default : FileP2pConfig :=
  mkFileP2p false [] [] "" (64 * 1024) 10 16 30 250 2 64 256.

Section validate.
Context `{Multiaddrs}.
(** [HttpClient::new], of which only the failure is used. *)
Context (http_client_new : string -> result string unit).

Record Config : Type := mkConfig {
  runtime : RuntimeConfig;
  chain : ChainConfig;
  listener : ListenerConfig;
  proof_store : ProofStoreConfig;
  p2p : P2pConfig;
  verification : VerificationConfig;
  noir : NoirConfig;
  rpc : RpcConfig;
  submission : SubmissionConfig
}.

(** An early return. *)
Definition refuse_if (b : bool) (message : string) : Result unit :=
  if b then Err (InvalidConfig message) else Ok tt.

(** [(low..=high).contains(&x)] *)
Definition within (low high x : Z) : bool := (low <=? x) && (x <=? high).

Definition validate_chain (file : FileChainConfig) (required : bool) : Result ChainConfig :=
  let id := trim (f_chain_id file) in
  _ ← refuse_if (required && bool_decide (id = ""))
        "chain.chain_id must not be empty when Listener, P2P, or submission is enabled";
  _ ← refuse_if (negb (starts_with (f_comet_rpc_url file) "http://")
                 && negb (starts_with (f_comet_rpc_url file) "https://"))
        "chain.comet_rpc_url must use http or https";
  _ ← map_err (fun error => InvalidConfig ("chain.comet_rpc_url is invalid: " +:+ error))
        (http_client_new (f_comet_rpc_url file));
  _ ← refuse_if (f_request_timeout_secs file =? 0) "chain.request_timeout_secs must be greater than zero";
  Ok (mkChainConfig id (f_comet_rpc_url file) (from_secs (f_request_timeout_secs file))).

Definition validate_listener (file : FileListenerConfig) : Result ListenerConfig :=
  _ ← refuse_if ((f_reconnect_initial_backoff_millis file =? 0) || (f_reconnect_max_backoff_secs file =? 0))
        "Listener reconnect backoffs must be greater than zero";
  let initial := from_millis (f_reconnect_initial_backoff_millis file) in
  let maximum := from_secs (f_reconnect_max_backoff_secs file) in
  _ ← refuse_if (maximum <? initial)
        "listener.reconnect_initial_backoff_millis must not exceed reconnect_max_backoff_secs";
  Ok (mkListenerConfig (f_listener_enabled file) initial maximum).

Definition validate_loopback_address (section : string) (enabled : bool) (value : string)
  : Result SocketAddr :=
  address ← map_err (fun error =>
      InvalidConfig (section +:+ ".listen_address must be a literal IP and port: " +:+ error))
    (socket_addr_from_str value);
  _ ← refuse_if (enabled && (port address =? 0))
        (section +:+ ".listen_address port must be greater than zero when enabled");
  _ ← refuse_if (enabled && negb (is_loopback (ip address)))
        (section +:+ ".listen_address must use a loopback IP when enabled");
  Ok address.

Definition validate_rpc (file : FileRpcConfig) : Result RpcConfig :=
  listen_address ← validate_loopback_address "rpc" (f_rpc_enabled file) (f_rpc_listen_address file);
  Ok (mkRpcConfig (f_rpc_enabled file) listen_address).

Definition validate_submission (file : FileSubmissionConfig) : Result SubmissionConfig :=
  listen_address ← validate_loopback_address "submission" (f_submission_enabled file)
    (f_submission_listen_address file);
  _ ← refuse_if (negb (within 1 (16 * 1024 * 1024) (f_max_transaction_bytes file)))
        "submission.max_transaction_bytes must be between 1 byte and 16 MiB";
  _ ← refuse_if (negb (within 1 64 (f_max_concurrent_requests file)))
        "submission.max_concurrent_requests must be between 1 and 64";
  Ok (mkSubmissionConfig (f_submission_enabled file) listen_address (f_max_transaction_bytes file)
        (f_max_concurrent_requests file)).

Definition validate_verification (file : FileVerificationConfig)
  : Result (VerificationConfig * NoirConfig) :=
  _ ← refuse_if (negb (within 1 256 (f_max_concurrent_jobs file)))
        "verification.max_concurrent_jobs must be between 1 and 256";
  _ ← refuse_if (f_job_timeout_secs file =? 0) "verification.job_timeout_secs must be greater than zero";
  _ ← refuse_if (10 <? f_max_retries file) "verification.max_retries must not exceed 10";
  _ ← refuse_if ((0 <? f_max_retries file) && (f_retry_backoff_millis file =? 0))
        "verification.retry_backoff_millis must be greater than zero when retries are enabled";
  let n := f_noir file in
  _ ← refuse_if (negb (within 1 256 (f_threads_per_job n)))
        "verification.noir.threads_per_job must be between 1 and 256";
  _ ← refuse_if (f_noir_enabled n
                 && (negb (is_absolute (f_binary_path n)) || negb (is_absolute (f_home_directory n))))
        "verification.noir binary_path and home_directory must be absolute when enabled";
  Ok (mkVerificationConfig (f_max_concurrent_jobs file) (from_secs (f_job_timeout_secs file))
        (f_max_retries file) (from_millis (f_retry_backoff_millis file)),
      mkNoirConfig (f_noir_enabled n) (f_binary_path n) (f_home_directory n) (f_threads_per_job n)).

Definition validate_proof_store (file : FileProofStoreConfig) : Result ProofStoreConfig :=
  _ ← refuse_if ((f_max_capacity_bytes file =? 0) || (f_max_proof_bytes file =? 0)
                 || (f_terminal_retention_secs file =? 0) || (f_store_event_buffer file =? 0))
        "proof store capacity, proof limit, retention, and event buffer must be greater than zero";
  _ ← refuse_if (f_max_capacity_bytes file <? f_max_proof_bytes file)
        "proof_store.max_proof_bytes must not exceed max_capacity_bytes";
  Ok (mkProofStoreConfig (f_max_capacity_bytes file) (f_max_proof_bytes file)
        (from_secs (f_terminal_retention_secs file)) (f_store_event_buffer file)).

Fixpoint parse_multiaddrs (field : string) (values : list string) : Result (list Multiaddr) :=
  match values with
  | [] => Ok []
  | value :: rest =>
      a ← map_err (fun error => InvalidConfig (field +:+ " contains invalid multiaddr " +:+ value
            +:+ ": " +:+ error)) (multiaddr_from_str value);
      l ← parse_multiaddrs field rest;
      Ok (a :: l)
  end.

Definition validate_p2p (file : FileP2pConfig) (max_proof_bytes : Z) (id : string) : Result P2pConfig :=
  _ ← refuse_if (f_p2p_enabled file && bool_decide (f_listen_addresses file = []))
        "p2p.listen_addresses must not be empty when P2P is enabled";
  _ ← refuse_if (f_p2p_enabled file && negb (is_absolute (f_validator_key_path file)))
        "p2p.validator_key_path must be absolute when P2P is enabled";
  listen ← parse_multiaddrs "p2p.listen_addresses" (f_listen_addresses file);
  boot ← parse_multiaddrs "p2p.bootnodes" (f_bootnodes file);
  _ ← refuse_if ((f_proof_request_timeout_secs file =? 0) || (f_retrieval_timeout_secs file =? 0)
                 || (f_retrieval_initial_backoff_millis file =? 0)
                 || (f_retrieval_max_backoff_secs file =? 0)
                 || (f_max_availability_message_bytes file =? 0) || (f_command_buffer file =? 0)
                 || (f_p2p_event_buffer file =? 0))
        "P2P timeouts, message limits, and channel capacities must be greater than zero";
  _ ← refuse_if (negb (within 1 256 (f_max_concurrent_retrievals file)))
        "p2p.max_concurrent_retrievals must be between 1 and 256";
  let request_timeout := from_secs (f_proof_request_timeout_secs file) in
  let timeout := from_secs (f_retrieval_timeout_secs file) in
  let initial := from_millis (f_retrieval_initial_backoff_millis file) in
  let maximum := from_secs (f_retrieval_max_backoff_secs file) in
  _ ← refuse_if (maximum <? initial)
        "p2p.retrieval_initial_backoff_millis must not exceed retrieval_max_backoff_secs";
  _ ← refuse_if (timeout <? maximum)
        "p2p.retrieval_max_backoff_secs must not exceed retrieval_timeout_secs";
  _ ← refuse_if (timeout <=? request_timeout)
        "p2p.retrieval_timeout_secs must be greater than proof_request_timeout_secs";
  Ok (mkP2pConfig (f_p2p_enabled file) id listen boot (f_validator_key_path file)
        (f_max_availability_message_bytes file) max_proof_bytes request_timeout
        (f_max_concurrent_retrievals file) timeout initial maximum (f_command_buffer file)
        (f_p2p_event_buffer file)).

(** What [from_file] does with a file that has been read and parsed. *)
Definition validate (file : FileConfig) : Result Config :=
  _ ← refuse_if (negb (is_absolute (f_control_socket (f_runtime file))))
        "runtime.control_socket must be an absolute path";
  _ ← refuse_if (f_shutdown_timeout_secs (f_runtime file) =? 0)
        "runtime.shutdown_timeout_secs must be greater than zero";
  let runtime := mkRuntimeConfig (f_control_socket (f_runtime file))
    (from_secs (f_shutdown_timeout_secs (f_runtime file))) in
  proof_store ← validate_proof_store (f_proof_store file);
  listener ← validate_listener (f_listener file);
  submission ← validate_submission (f_submission file);
  chain ← validate_chain (f_chain file)
    (f_p2p_enabled (f_p2p file) || listener_enabled listener || submission_enabled submission);
  p2p ← validate_p2p (f_p2p file) (cfg_max_proof_bytes proof_store) (chain_id chain);
  '(verification, noir) ← validate_verification (f_verification file);
  rpc ← validate_rpc (f_rpc file);
  _ ← refuse_if (p2p_enabled p2p && (shutdown_timeout runtime <=? proof_request_timeout p2p))
        "runtime.shutdown_timeout_secs must be greater than p2p.proof_request_timeout_secs when P2P is enabled";
  _ ← refuse_if (submission_enabled submission && (shutdown_timeout runtime <=? request_timeout chain))
        "runtime.shutdown_timeout_secs must be greater than chain.request_timeout_secs when submission is enabled";
  _ ← refuse_if (p2p_enabled p2p && negb (listener_enabled listener))
        "listener.enabled must be true when P2P is enabled";
  _ ← refuse_if (submission_enabled submission && negb (listener_enabled listener))
        "listener.enabled must be true when submission is enabled";
  _ ← refuse_if (submission_enabled submission && negb (rpc_enabled rpc))
        "rpc.enabled must be true when submission is enabled";
  _ ← refuse_if (submission_enabled submission && rpc_enabled rpc
                 && bool_decide (submission_listen_address submission = rpc_listen_address rpc))
        "submission.listen_address must differ from rpc.listen_address";
  Ok (mkConfig runtime chain listener proof_store p2p verification noir rpc submission).

(** [Config::from_file]; reading and parsing are foreign. *)
Definition from_file (read_to_string : string -> result IoError string)
  (toml_from_str : string -> result string FileConfig) (path : string) : Result Config :=
  contents ← map_err (ConfigRead path) (read_to_string path);
  file ← map_err (ConfigParse path) (toml_from_str contents);
  validate file.
End validate.

(** ** Lemmas *)

(** Splits an accepted validation into its accepted checks. *)
Ltac accepted :=
  repeat match goal with
  | E : (mbind _ _) = Ok _ |- _ =>
      match type of E with context [mbind _ ?m = Ok _] =>
        let F := fresh "F" in destruct m eqn:F; [simpl in E|discriminate E]
      end
  | E : (let (_, _) := ?q in _) = Ok _ |- _ => destruct q
  | E : refuse_if ?b _ = Ok _ |- _ =>
      let F := fresh "F" in destruct b eqn:F; [discriminate E|clear E]
  | E : Ok _ = Ok _ |- _ => injection E; clear E; intros; subst
  end.

(** Turns the boolean checks into propositions. *)
Ltac checks :=
  unfold within in *;
  repeat match goal with
  | E : _ || _ = false |- _ => apply orb_false_iff in E as [? ?]
  | E : negb _ = false |- _ => apply negb_false_iff in E
  | E : _ && _ = true |- _ => apply andb_true_iff in E as [? ?]
  end;
  rewrite ?Z.eqb_neq, ?Z.ltb_ge, ?Z.leb_gt, ?Z.leb_le in *.

Section sound.
Context `{Multiaddrs, Sha256, ProstVarint} (http_client_new : string -> result string unit).

Definition listener_ok (l : ListenerConfig) : Prop :=
  0 < reconnect_initial_backoff l <= reconnect_max_backoff l.
Definition server_ok (enabled : bool) (a : SocketAddr) : Prop :=
  enabled = true -> port a <> 0 /\ is_loopback (ip a) = true.
Definition verification_ok (v : VerificationConfig) : Prop :=
  1 <= max_concurrent_jobs v <= 256 /\ 0 < job_timeout v /\ 0 <= max_retries v <= 10 /\
  0 <= retry_backoff v /\ (0 < max_retries v -> 0 < retry_backoff v).
Definition noir_ok (n : NoirConfig) : Prop :=
  1 <= threads_per_job n <= 256 /\
  (noir_enabled n = true -> is_absolute (binary_path n) = true /\ is_absolute (home_directory n) = true).
Definition store_ok (c : ProofStoreConfig) : Prop :=
  0 < cfg_max_proof_bytes c <= max_capacity_bytes c /\ 0 < terminal_retention c /\ 0 < event_buffer c.
Definition p2p_ok (c : P2pConfig) : Prop :=
  0 < cfg_retrieval_initial_backoff c <= cfg_retrieval_max_backoff c /\
  cfg_retrieval_max_backoff c <= cfg_retrieval_timeout c /\
  0 < proof_request_timeout c < cfg_retrieval_timeout c /\
  1 <= cfg_max_concurrent_retrievals c <= 256 /\ 0 < max_availability_message_bytes c /\
  0 < command_buffer c /\ 0 < p2p_event_buffer c /\
  (p2p_enabled c = true -> listen_addresses c <> [] /\ is_absolute (validator_key_path c) = true).

Lemma validate_listener_ok file l :
  0 <= f_reconnect_initial_backoff_millis file -> 0 <= f_reconnect_max_backoff_secs file ->
  validate_listener file = Ok l -> listener_ok l.
Proof.
  unfold validate_listener, listener_ok. intros Ha Hb E. accepted. checks. simpl.
  unfold from_millis, from_secs, NANOS_PER_SEC in *. lia.
Qed.

Lemma validate_loopback_ok section enabled value a :
  validate_loopback_address section enabled value = Ok a -> server_ok enabled a.
Proof.
  unfold validate_loopback_address, server_ok. intros E He. accepted. simpl in *. checks.
  done.
Qed.

Lemma validate_verification_ok file v n :
  0 <= f_job_timeout_secs file -> 0 <= f_max_retries file -> 0 <= f_retry_backoff_millis file ->
  validate_verification file = Ok (v, n) -> verification_ok v /\ noir_ok n.
Proof.
  unfold validate_verification, verification_ok, noir_ok. intros Ha Hb Hc E. accepted.
  simpl. checks.
  unfold from_millis, from_secs, NANOS_PER_SEC in *.
  match goal with E : (0 <? _) && _ = false |- _ =>
    apply andb_false_iff in E; rewrite Z.ltb_ge, Z.eqb_neq in E end.
  split_and!; try lia.
  intros Hn. rewrite Hn in *. simpl in *. checks. done.
Qed.

Lemma validate_proof_store_ok file c :
  0 <= f_max_capacity_bytes file -> 0 <= f_max_proof_bytes file -> 0 <= f_terminal_retention_secs file ->
  0 <= f_store_event_buffer file -> validate_proof_store file = Ok c -> store_ok c.
Proof.
  unfold validate_proof_store, store_ok. intros Ha Hb Hc Hd E. accepted. checks. simpl.
  unfold from_secs, NANOS_PER_SEC in *. lia.
Qed.

Lemma parse_multiaddrs_nil field l : parse_multiaddrs field l = Ok [] -> l = [].
Proof. destruct l; [done|]. simpl. intros E. accepted. discriminate. Qed.

Lemma validate_p2p_ok file limit id c :
  0 <= f_proof_request_timeout_secs file -> 0 <= f_retrieval_timeout_secs file ->
  0 <= f_retrieval_initial_backoff_millis file -> 0 <= f_retrieval_max_backoff_secs file ->
  0 <= f_max_availability_message_bytes file -> 0 <= f_command_buffer file ->
  0 <= f_p2p_event_buffer file ->
  validate_p2p file limit id = Ok c ->
  p2p_ok c /\ p2p_max_proof_bytes c = limit /\ p2p_chain_id c = id /\
  p2p_enabled c = f_p2p_enabled file.
Proof.
  unfold validate_p2p, p2p_ok. intros G1 G2 G3 G4 G5 G6 G7 E. accepted. checks. simpl.
  unfold from_millis, from_secs, NANOS_PER_SEC in *. split_and!; try lia; try done.
  intros He. rewrite He in *. simpl in *. checks. rewrite bool_decide_eq_false in *.
  split; [|done]. intros ->.
  match goal with E : parse_multiaddrs _ (f_listen_addresses file) = _ |- _ =>
    by apply parse_multiaddrs_nil in E end.
Qed.

(** What the deserializer ensures: every number is unsigned. *)
Definition unsigned (file : FileConfig) : Prop :=
  0 <= f_shutdown_timeout_secs (f_runtime file) /\
  0 <= f_request_timeout_secs (f_chain file) /\
  (0 <= f_reconnect_initial_backoff_millis (f_listener file) /\
   0 <= f_reconnect_max_backoff_secs (f_listener file)) /\
  (0 <= f_max_capacity_bytes (f_proof_store file) /\ 0 <= f_max_proof_bytes (f_proof_store file) /\
   0 <= f_terminal_retention_secs (f_proof_store file) /\ 0 <= f_store_event_buffer (f_proof_store file)) /\
  (0 <= f_proof_request_timeout_secs (f_p2p file) /\ 0 <= f_retrieval_timeout_secs (f_p2p file) /\
   0 <= f_retrieval_initial_backoff_millis (f_p2p file) /\ 0 <= f_retrieval_max_backoff_secs (f_p2p file) /\
   0 <= f_max_availability_message_bytes (f_p2p file) /\ 0 <= f_command_buffer (f_p2p file) /\
   0 <= f_p2p_event_buffer (f_p2p file)) /\
  (0 <= f_job_timeout_secs (f_verification file) /\ 0 <= f_max_retries (f_verification file) /\
   0 <= f_retry_backoff_millis (f_verification file)).

Definition runtime_ok (c : RuntimeConfig) : Prop :=
  is_absolute (control_socket c) = true /\ 0 < shutdown_timeout c.
Definition chain_ok (c : ChainConfig) : Prop :=
  0 < request_timeout c /\
  (starts_with (comet_rpc_url c) "http://" = true \/ starts_with (comet_rpc_url c) "https://" = true).

(** The sections on their own. *)
Definition sections_ok (c : Config) : Prop :=
  runtime_ok (runtime c) /\ chain_ok (chain c) /\ store_ok (proof_store c) /\ listener_ok (listener c) /\ p2p_ok (p2p c) /\
  verification_ok (verification c) /\ noir_ok (noir c) /\
  server_ok (rpc_enabled (rpc c)) (rpc_listen_address (rpc c)) /\
  server_ok (submission_enabled (submission c)) (submission_listen_address (submission c)) /\
  1 <= max_transaction_bytes (submission c) <= 16 * 1024 * 1024 /\
  1 <= max_concurrent_requests (submission c) <= 64.

(** What one section requires of another. *)
Definition sections_agree (c : Config) : Prop :=
  p2p_max_proof_bytes (p2p c) = cfg_max_proof_bytes (proof_store c) /\
  p2p_chain_id (p2p c) = chain_id (chain c) /\
  (p2p_enabled (p2p c) = true -> listener_enabled (listener c) = true /\
    proof_request_timeout (p2p c) < shutdown_timeout (runtime c)) /\
  (submission_enabled (submission c) = true -> listener_enabled (listener c) = true /\
    rpc_enabled (rpc c) = true /\ request_timeout (chain c) < shutdown_timeout (runtime c) /\
    submission_listen_address (submission c) <> rpc_listen_address (rpc c)) /\
  (listener_enabled (listener c) = true -> chain_id (chain c) <> "").

Lemma validate_chain_ok file required c :
  0 <= f_request_timeout_secs file -> validate_chain http_client_new file required = Ok c ->
  chain_ok c /\ http_client_new (comet_rpc_url c) = Ok tt /\ (required = true -> chain_id c <> "").
Proof.
  unfold validate_chain, chain_ok. intros Ha E. accepted. checks. simpl.
  unfold from_secs, NANOS_PER_SEC in *. split_and!; [lia| | |].
  - match goal with U : negb _ && negb _ = false |- _ =>
      apply andb_false_iff in U as [U|U]; apply negb_false_iff in U; [by left|by right] end.
  - match goal with U : map_err _ _ = Ok ?u |- _ => destruct u; by apply map_err_ok in U end.
  - intros ->. simpl in *. by rewrite bool_decide_eq_false in *.
Qed.

Lemma validate_submission_ok file c :
  validate_submission file = Ok c ->
  server_ok (submission_enabled c) (submission_listen_address c) /\
  1 <= max_transaction_bytes c <= 16 * 1024 * 1024 /\ 1 <= max_concurrent_requests c <= 64.
Proof.
  unfold validate_submission. intros E. accepted. checks. simpl. split_and!; try done.
  by eapply validate_loopback_ok.
Qed.

Lemma maximum_weight_some limit : 0 <= limit <= u32_max - 576 -> is_Some (maximum_weight limit).
Proof.
  intros Hl. unfold maximum_weight.
  assert (try_from_u32 limit = Some limit) as ->.
  { unfold try_from_u32. by rewrite (proj2 (Z.leb_le _ _)) by lia. }
  assert (forall a b, a + b <= u32_max -> checked_add u32_max a b = Some (a + b)) as Hadd.
  { intros a b Hab. unfold checked_add. by rewrite (proj2 (Z.leb_le _ _)). }
  simpl. rewrite Hadd by (unfold METADATA_WEIGHT_BYTES; lia). simpl.
  rewrite Hadd by (unfold METADATA_WEIGHT_BYTES, FAILURE_CODE_MAX_BYTES, FAILURE_MESSAGE_MAX_BYTES; lia).
  by eauto.
Qed.

Lemma validate_sections file c :
  unsigned file -> validate http_client_new file = Ok c ->
  sections_ok c /\ sections_agree c /\ http_client_new (comet_rpc_url (chain c)) = Ok tt.
Proof.
  intros (Hr & Hc & Hl & Hs & Hp & Hv). unfold validate. intros E. accepted.
  repeat match goal with
  | F : validate_proof_store _ = _ |- _ => apply validate_proof_store_ok in F; [|tauto..]
  | F : validate_listener _ = _ |- _ => apply validate_listener_ok in F; [|tauto..]
  | F : validate_submission _ = _ |- _ => apply validate_submission_ok in F as (? & ? & ?)
  | F : validate_chain _ _ _ = _ |- _ => apply validate_chain_ok in F as (? & ? & Hid); [|tauto..]
  | F : validate_p2p _ _ _ = _ |- _ => apply validate_p2p_ok in F as (? & ? & ? & He); [|tauto..]
  | F : validate_verification _ = _ |- _ => apply validate_verification_ok in F as [? ?]; [|tauto..]
  | F : validate_rpc _ = _ |- _ => unfold validate_rpc in F; accepted
  | F : validate_loopback_address _ _ _ = _ |- _ => apply validate_loopback_ok in F
  end.
  unfold sections_ok, sections_agree, runtime_ok. checks. simpl in *.
  assert (0 < from_secs (f_shutdown_timeout_secs (f_runtime file))) by (unfold from_secs, NANOS_PER_SEC; lia).
  split_and!; try tauto; try lia.
  - intros E. rewrite E in *. simpl in *. checks. split; [done|lia].
  - intros E. rewrite E in *. simpl in *. checks.
    match goal with R : f_rpc_enabled _ = true |- _ => rewrite R in * end. simpl in *.
    rewrite bool_decide_eq_false in *. split_and!; [done|done|lia|done].
  - intros E. apply Hid. rewrite E. apply orb_true_iff. left. apply orb_true_r.
Qed.

(** A validation fails with [InvalidConfig] only. *)
Definition invalid_only {A} (r : Result A) : Prop := forall e, r = Err e -> exists m, e = InvalidConfig m.

Lemma invalid_bind {A B} (r : Result A) (f : A -> Result B) :
  invalid_only r -> (forall a, invalid_only (f a)) -> invalid_only (r ≫= f).
Proof. intros Hr Hf e. destruct r; simpl; [apply Hf|]. intros [= <-]. by apply Hr. Qed.
Lemma invalid_ok {A} (a : A) : invalid_only (Ok a).
Proof. done. Qed.
Lemma invalid_refuse b m : invalid_only (refuse_if b m).
Proof. intros e. destruct b; [|done]. intros [= <-]. eauto. Qed.
Lemma invalid_map_err {E A} (f : E -> string) (r : result E A) :
  invalid_only (map_err (fun x => InvalidConfig (f x)) r).
Proof. intros e. destruct r; [done|]. intros [= <-]. eauto. Qed.
End sound.

Create HintDb invalid discriminated.
#[export] Hint Resolve invalid_bind invalid_ok invalid_refuse invalid_map_err : invalid.

Section errors.
Context `{Multiaddrs} (http_client_new : string -> result string unit).

Lemma parse_multiaddrs_invalid f l : invalid_only (parse_multiaddrs f l).
Proof. induction l; simpl; auto with invalid. Qed.
#[local] Hint Resolve parse_multiaddrs_invalid : invalid.

Lemma validate_invalid file : invalid_only (validate http_client_new file).
Proof.
  unfold validate, validate_proof_store, validate_listener, validate_submission, validate_chain,
    validate_p2p, validate_verification, validate_rpc, validate_loopback_address.
  repeat first [ apply invalid_ok | apply invalid_refuse | apply invalid_map_err
    | apply parse_multiaddrs_invalid | apply invalid_bind; [|intros] | case_match ].
Qed.
End errors.

(** ** Properties *)

(** C34: what [from_file] returns is fit for every component: each section satisfies the
    component's requirements (an absolute control socket and a time to shut down, an HTTP address of
    the node that its client accepts, back-offs ordered and positive, limits in range, servers on
    loopback ports), the sections agree (a shared proof limit and chain identity, what each
    service needs enabled, distinct addresses, a shutdown longer than the requests it waits
    for), and the proof store accepts its section unless the limit exceeds what a cache entry may
    weigh. When it fails, the file could not be read or parsed, or a setting was refused. *)
Theorem config_sound `{Multiaddrs, Sha256, ProstVarint} http_client_new read toml path :
  (forall text file, toml text = Ok file -> unsigned file) ->
  match from_file http_client_new read toml path with
  | Ok c => sections_ok c /\ sections_agree c /\ http_client_new (comet_rpc_url (chain c)) = Ok tt /\
      (cfg_max_proof_bytes (proof_store c) <= u32_max - 576 ->
        is_ok (ProofStore_new (proof_store c)) = true)
  | Err e => (exists s, e = ConfigRead path s /\ read path = Err s) \/
      (exists text s, e = ConfigParse path s /\ read path = Ok text /\ toml text = Err s) \/
      exists m, e = InvalidConfig m
  end.
Proof.
  intros Hu. unfold from_file. destruct (read path) as [text|s]; simpl; [|left; by exists s].
  destruct (toml text) as [file|s] eqn:Et; simpl; [|right; left; by exists text, s].
  destruct (validate http_client_new file) as [c|e] eqn:Ev.
  - destruct (validate_sections http_client_new file c (Hu _ _ Et) Ev) as (Hs & Ha & Hu').
    split_and!; [done..|]. intros Hlimit. destruct Hs as (_ & _ & (Hp & Ht & Hb) & _). unfold ProofStore_new.
    destruct (maximum_weight_some (cfg_max_proof_bytes (proof_store c))) as [w ->]; [lia|].
    rewrite !(proj2 (Z.eqb_neq _ _)) by lia. simpl. by rewrite (proj2 (Z.ltb_ge _ _)) by lia.
  - right. right. by eapply validate_invalid.
Qed.

(** A file with nothing but the runtime section is accepted. *)
Lemma minimal_config_accepted `{Multiaddrs} http_client_new socket secs :
  (forall url, http_client_new url = Ok tt) -> is_absolute socket = true -> 0 < secs ->
  exists c, validate http_client_new (mkFileConfig (mkFileRuntime socket secs) FileChainConfig_default
    FileListenerConfig_default FileProofStoreConfig_default FileP2pConfig_default
    FileVerificationConfig_default FileRpcConfig_default FileSubmissionConfig_default) = Ok c /\
  p2p_enabled (p2p c) = false /\ rpc_enabled (rpc c) = false /\ shutdown_timeout (runtime c) = from_secs secs.
Proof.
  intros Hh Hs Hsecs. unfold validate. simpl. rewrite Hs, (proj2 (Z.eqb_neq _ _)) by lia. simpl.
  unfold validate_chain. rewrite Hh. simpl. eexists. done.
Qed.

(** ** Witness *)

Section witness.
#[local] Existing Instance sample_libp2p.
#[local] Existing Instance sample_multiaddrs.
#[local] Existing Instance sample_sha256.
#[local] Existing Instance sample_varint.

Definition sample_file : FileConfig :=
  mkFileConfig (mkFileRuntime "/run/v.sock" 20) (mkFileChain " pulsar-1 " "http://127.0.0.1:26657" 5)
    (mkFileListener true 250 30) FileProofStoreConfig_default
    (mkFileP2p true ["/ip4/127.0.0.1/tcp/0"] [] "/key" 65536 10 16 30 250 2 64 256)
    FileVerificationConfig_default (mkFileRpc true "127.0.0.1:50051") FileSubmissionConfig_default.

Lemma config_sound_witness :
  match from_file (fun _ => Ok tt) (fun _ => Ok "") (fun _ => Ok sample_file) "/etc/v.toml" with
  | Ok c => sections_agree c
  | Err _ => False
  end.
Proof.
  assert (unsigned sample_file) as Hu by (repeat split; vm_compute; discriminate).
  pose proof (config_sound (fun _ => Ok tt) (fun _ => Ok "") (fun _ => Ok sample_file) "/etc/v.toml"
    (fun _ f E => match E in _ = r return match r with Ok f => unsigned f | Err _ => True end with
      eq_refl => Hu end)) as P.
  assert (is_ok (from_file (fun _ => Ok tt) (fun _ => Ok "") (fun _ => Ok sample_file) "/etc/v.toml") = true)
    as Eok by vm_refl.
  destruct (from_file _ _ _ _) as [c|e]; [exact (proj1 (proj2 P))|discriminate Eok].
Defined.
End witness.
