(* ===== verification/Control.v ===== *)
(** * The control socket (src/src/control.rs)

    The file system, the socket and the clock are a world that answers; a connection is what
    its peer sends before the stream ends, and how it ends. *)

From stdpp Require Import base list strings pretty sets.
From S2P Require Import Prelude Types StdText Wire ConfigTypes.

Definition SHUTDOWN_REQUEST : bytes := text "shutdown" ++ [Byte.x0a].
Definition ACCEPTED_RESPONSE : bytes := text "accepted" ++ [Byte.x0a].
Definition UNKNOWN_RESPONSE : bytes := text "error unknown-command" ++ [Byte.x0a].
Definition TOO_LARGE_RESPONSE : bytes := text "error frame-too-large" ++ [Byte.x0a].
Definition MAX_FRAME_LEN : nat := 64.
Definition STOP_POLL_INTERVAL : Z := from_millis 50.

(** What happens when the bytes of a stream are used up: a read error ([read_u8] reports the
    end of the stream as one), or nothing more until the time limit. *)
Inductive StreamEnd : Set :=
| EndError (e : IoError)
| EndTimeout.

(** Writing a frame within the time limit. *)
Inductive WriteOutcome : Set :=
| WriteOk
| WriteError (e : IoError)
| WriteTimeout.

Record Connection : Set := mkConnection
  { incoming : bytes; stream_end : StreamEnd; on_write : WriteOutcome }.

Definition TOO_LARGE_TEXT : string := "frame exceeds 64 bytes".

(** The loop of [read_frame], with the room left in the frame. *)
Fixpoint read_loop (room : nat) (input : bytes) (e : StreamEnd) (path : string) (frame : bytes)
  : Result bytes :=
  match room with
  | O => Err (ControlProtocol TOO_LARGE_TEXT)
  | S room =>
      match input with
      | [] =>
          match e with
          | EndTimeout => Err (ControlTimeout path)
          | EndError error =>
              if bool_decide (io_kind error = KindInvalidData) then Err (ControlProtocol (io_message error))
              else Err (ControlIo path error)
          end
      | c :: rest =>
          if Byte.eqb c Byte.x0a then Ok (frame ++ [c]) else read_loop room rest e path (frame ++ [c])
      end
  end.

Definition read_frame (c : Connection) (path : string) : Result bytes :=
  read_loop MAX_FRAME_LEN (incoming c) (stream_end c) path [].

Definition write_frame (c : Connection) (path : string) : Result unit :=
  match on_write c with
  | WriteOk => Ok tt
  | WriteError e => Err (ControlIo path e)
  | WriteTimeout => Err (ControlTimeout path)
  end.

(** Whether the connection asked for a shutdown, and the response it was sent. *)
Definition handle_connection (c : Connection) (path : string) : Result bool * option bytes :=
  match read_frame c path with
  | Ok request =>
      if bool_decide (request = SHUTDOWN_REQUEST)
      then (_ ← write_frame c path; Ok true, Some ACCEPTED_RESPONSE)
      else (_ ← write_frame c path; Ok false, Some UNKNOWN_RESPONSE)
  | Err (ControlProtocol message) =>
      if bool_decide (message = TOO_LARGE_TEXT)
      then (_ ← write_frame c path; Ok false, Some TOO_LARGE_RESPONSE)
      else (Err (ControlProtocol message), None)
  | Err error => (Err error, None)
  end.

(** [wait_for_shutdown], over what [accept] gives in turn; [None] while it still waits. *)
Fixpoint wait_for_shutdown (accepted : list (result IoError Connection)) (path : string)
  : option (Result unit) :=
  match accepted with
  | [] => None
  | Err e :: _ => Some (Err (ControlIo path e))
  | Ok c :: rest =>
      match fst (handle_connection c path) with
      | Ok true => Some (Ok tt)
      | Ok false => wait_for_shutdown rest path
      | Err e => Some (Err e)
      end
  end.

Definition is_not_running_error (e : IoError) : bool :=
  match io_kind e with KindNotFound | KindConnectionRefused => true | _ => false end.

(** ** Binding *)

(** [fs::symlink_metadata] *)
Record EntryMetadata : Set := mkEntry { is_dir : bool; is_socket : bool; uid : Z }.

(** Connecting within the time limit; [None] is the limit. *)
Abbreviation ConnectOutcome := (option (result IoError unit)).

Record FsWorld : Set := mkFsWorld {
  fs_parent : option string;
  fs_create_dir_all : result IoError unit;
  fs_parent_metadata : result IoError EntryMetadata;
  fs_set_parent_permissions : result IoError unit;
  fs_socket_metadata : result IoError EntryMetadata;
  fs_connect : ConnectOutcome;
  fs_remove_file : result IoError unit;
  fs_bind : result IoError unit;
  fs_set_socket_permissions : result IoError unit;
  effective_uid : Z
}.

Definition ensure_owned_by_uid (path : string) (m : EntryMetadata) (effective_uid : Z) : Result unit :=
  if negb (uid m =? effective_uid) then
    Err (UnsafeSocketPath path ("entry is owned by uid " +:+ pretty (uid m)
      +:+ ", current effective uid is " +:+ pretty effective_uid))
  else Ok tt.

Definition prepare_parent_directory (w : FsWorld) (path : string) : Result unit :=
  parent ← ok_or (fs_parent w) (UnsafeSocketPath path "socket path has no parent directory");
  _ ← map_err (ControlIo parent) (fs_create_dir_all w);
  metadata ← map_err (ControlIo parent) (fs_parent_metadata w);
  if negb (is_dir metadata) then Err (UnsafeSocketPath parent "socket parent is not a directory")
  else
    _ ← ensure_owned_by_uid parent metadata (effective_uid w);
    map_err (ControlIo parent) (fs_set_parent_permissions w).

(** Whether the entry was removed; [Ok false] when there was none. *)
Definition prepare_socket_path (w : FsWorld) (path : string) : Result bool :=
  match fs_socket_metadata w with
  | Err error =>
      if bool_decide (io_kind error = KindNotFound) then Ok false else Err (ControlIo path error)
  | Ok metadata =>
      if negb (is_socket metadata) then
        Err (UnsafeSocketPath path "existing entry is not a Unix socket")
      else
        _ ← ensure_owned_by_uid path metadata (effective_uid w);
        match fs_connect w with
        | Some (Ok _) | None => Err (AlreadyRunning path)
        | Some (Err error) =>
            if is_not_running_error error
            then _ ← map_err (ControlIo path) (fs_remove_file w); Ok true
            else Err (ControlIo path error)
        end
  end.

Definition ControlServer_bind (w : FsWorld) (path : string) : Result unit :=
  _ ← prepare_parent_directory w path;
  _ ← prepare_socket_path w path;
  _ ← map_err (ControlIo path) (fs_bind w);
  map_err (ControlIo path) (fs_set_socket_permissions w).

(** [ControlServer::drop], by what [remove_file] answers: whether the socket is gone. *)
Definition ControlServer_drop (remove_file : result IoError unit) : bool :=
  match remove_file with
  | Ok _ => true
  | Err error => bool_decide (io_kind error = KindNotFound)
  end.

(** ** The stop command *)

Record StopWorld : Set := mkStopWorld {
  st_connect : ConnectOutcome;
  st_connection : Connection;
  (** whether the socket exists, and the clock, at the i-th look *)
  st_exists : nat -> bool;
  st_now : nat -> Z;
  st_start : Z;
  (** [String::from_utf8_lossy] *)
  st_lossy : bytes -> string
}.

(** The polling loop; [None] when the fuel runs out. *)
Fixpoint poll_removed (w : StopWorld) (deadline timeout : Z) (fuel i : nat) : option (Result unit) :=
  match fuel with
  | O => None
  | S fuel =>
      if st_exists w i
      then if deadline <=? st_now w i then Some (Err (ShutdownTimeout timeout))
           else poll_removed w deadline timeout fuel (S i)
      else Some (Ok tt)
  end.

(** Enough looks for the polling interval to use up the timeout. *)
Definition POLL_FUEL (timeout : Z) : nat := S (S (Z.to_nat (timeout / STOP_POLL_INTERVAL))).

Definition request_shutdown (w : StopWorld) (config : RuntimeConfig) : option (Result unit) :=
  let path := control_socket config in
  match st_connect w with
  | None => Some (Err (ControlTimeout path))
  | Some (Err error) =>
      Some (Err (if is_not_running_error error then NotRunning path else ControlIo path error))
  | Some (Ok _) =>
      match write_frame (st_connection w) path with
      | Err e => Some (Err e)
      | Ok _ =>
          match read_frame (st_connection w) path with
          | Err e => Some (Err e)
          | Ok response =>
              if negb (bool_decide (response = ACCEPTED_RESPONSE))
              then Some (Err (ControlProtocol (trim (st_lossy w response))))
              else poll_removed w (st_start w + shutdown_timeout config) (shutdown_timeout config)
                     (POLL_FUEL (shutdown_timeout config)) 0
          end
      end
  end.

(** ** Lemmas *)

Lemma read_loop_ok room input e path frame r :
  read_loop room input e path frame = Ok r <->
  exists line rest, input = line ++ [Byte.x0a] ++ rest /\ Byte.x0a ∉ line /\ (length line < room)%nat /\
    r = frame ++ line ++ [Byte.x0a].
Proof.
  revert input frame. induction room as [|room IH]; intros input frame; simpl.
  { split; [done|]. intros (line & rest & _ & _ & ? & _). lia. }
  destruct input as [|c input].
  { split; [by repeat case_match|]. intros (line & rest & Heq & _). by destruct line. }
  destruct (Byte.eqb c Byte.x0a) eqn:Ec.
  - apply Byte.byte_dec_bl in Ec as ->. split.
    + intros [= <-]. exists [], input. split_and!; [done|set_solver|simpl; lia|done].
    + intros (line & rest & Heq & Hn & _ & ->). destruct line as [|x line]; [done|].
      injection Heq as <- _. destruct Hn. by left.
  - assert (c <> Byte.x0a) by (intros ->; done). rewrite IH. split.
    + intros (line & rest & -> & Hn & Hl & ->). exists (c :: line), rest. simpl.
      rewrite <- app_assoc. split_and!; [done| |lia|done]. rewrite not_elem_of_cons. done.
    + intros (line & rest & Heq & Hn & Hl & ->). destruct line as [|x line]; [by injection Heq|].
      injection Heq as <- ->. exists line, rest. simpl in Hl. rewrite not_elem_of_cons in Hn.
      rewrite <- app_assoc. split_and!; [done|tauto|lia|done].
Qed.

(** A frame is the first line of the input, if its terminator is among the first 64 bytes. *)
Lemma read_frame_ok c path r :
  read_frame c path = Ok r <->
  exists line rest, incoming c = line ++ [Byte.x0a] ++ rest /\ Byte.x0a ∉ line /\
    (length line < 64)%nat /\ r = line ++ [Byte.x0a].
Proof. apply read_loop_ok. Qed.

Lemma poll_removed_ends w deadline timeout fuel i :
  (forall j, st_now w j + STOP_POLL_INTERVAL <= st_now w (S j)) ->
  deadline - st_now w i <= STOP_POLL_INTERVAL * (Z.of_nat fuel - 1) -> (0 < fuel)%nat ->
  exists r, poll_removed w deadline timeout fuel i = Some r /\
    (r = Ok tt <-> exists k, st_exists w k = false /\ (i <= k)%nat /\
      forall j, (i <= j < k)%nat -> st_exists w j = true /\ st_now w j < deadline).
Proof.
  intros Hclock. revert i. induction fuel as [|fuel IH]; intros i Hd Hf; [lia|]. simpl.
  destruct (st_exists w i) eqn:Ex.
  2: { eexists. split; [done|]. split; [|done]. intros _. exists i. split_and!; [done..|]. lia. }
  destruct (Z.leb_spec deadline (st_now w i)) as [Hle|Hgt].
  - eexists. split; [done|]. split; [done|]. intros (k & Hk & Hik & Hall).
    destruct (decide (k = i)) as [->|Hne]; [congruence|]. destruct (Hall i) as [_ ?]; lia.
  - destruct fuel as [|fuel]; [unfold STOP_POLL_INTERVAL in *; lia|].
    destruct (IH (S i)) as (r & Hr & Hiff); [specialize (Hclock i); lia|lia|].
    exists r. split; [done|]. rewrite Hiff. split; intros (k & Hk & Hik & Hall); exists k.
    + split_and!; [done|lia|]. intros j Hj. destruct (decide (j = i)) as [->|]; [done|]. apply Hall. lia.
    + destruct (decide (k = i)) as [->|Hne]; [congruence|]. split_and!; [done|lia|].
      intros j Hj. apply Hall. lia.
Qed.

(** The stop command succeeds only when it saw the socket gone. *)
Lemma stop_saw_gone w config :
  request_shutdown w config = Some (Ok tt) -> exists i, st_exists w i = false.
Proof.
  assert (forall deadline timeout fuel i, poll_removed w deadline timeout fuel i = Some (Ok tt) ->
    exists j, st_exists w j = false) as Hpoll.
  { intros deadline timeout fuel. induction fuel as [|fuel IH]; intros i; simpl; [done|].
    destruct (st_exists w i) eqn:E; [|by eauto]. destruct (_ <=? _); [done|apply IH]. }
  unfold request_shutdown. destruct (st_connect w) as [[[]|]|]; [|done..].
  destruct (write_frame _ _); [|done]. destruct (read_frame _ _); [|done].
  destruct (negb _); [done|apply Hpoll].
Qed.

(** A connection that is answered and leaves the server running: another line, or too much. *)
Definition harmless (path : string) (a : result IoError Connection) : Prop :=
  match a with
  | Ok c => on_write c = WriteOk /\
      match read_frame c path with
      | Ok r => r <> SHUTDOWN_REQUEST
      | Err e => e = ControlProtocol TOO_LARGE_TEXT
      end
  | Err _ => False
  end.

Definition asks_shutdown (path : string) (a : result IoError Connection) : Prop :=
  match a with
  | Ok c => on_write c = WriteOk /\ read_frame c path = Ok SHUTDOWN_REQUEST
  | Err _ => False
  end.

(** A connection whose error ends the server: it cannot be accepted, its frame cannot be read,
    or the answer to what was read cannot be written. *)
Definition breaks (path : string) (e : Error) (a : result IoError Connection) : Prop :=
  match a with
  | Ok c => (read_frame c path = Err e /\ e <> ControlProtocol TOO_LARGE_TEXT) \/
      ((is_ok (read_frame c path) = true \/ read_frame c path = Err (ControlProtocol TOO_LARGE_TEXT)) /\
       write_frame c path = Err e)
  | Err s => e = ControlIo path s
  end.

(** How the server ends with this connection. *)
Definition ends (path : string) (r : Result unit) (a : result IoError Connection) : Prop :=
  match r with Ok _ => asks_shutdown path a | Err e => breaks path e a end.

Lemma handle_connection_cases c path :
  match fst (handle_connection c path) with
  | Ok true => forall r, ends path r (Ok c) <-> r = Ok tt
  | Ok false => harmless path (Ok c) /\ forall r, ~ ends path r (Ok c)
  | Err e => forall r, ends path r (Ok c) <-> r = Err e
  end /\
  (harmless path (Ok c) -> fst (handle_connection c path) = Ok false).
Proof.
  unfold ends, breaks, handle_connection, asks_shutdown, harmless, write_frame.
  destruct (read_frame c path) as [request|[]]; try case_bool_decide; subst; destruct (on_write c); simpl;
    repeat match goal with
    | |- _ /\ _ => split
    | |- _ <-> _ => split
    | |- forall _, _ => intro
    | r : Result unit |- _ => destruct r as [[]|]
    end; naive_solver.
Qed.

Lemma wait_for_shutdown_first accepted path r :
  wait_for_shutdown accepted path = Some r <->
  exists before a after, accepted = before ++ a :: after /\ Forall (harmless path) before /\ ends path r a.
Proof.
  induction accepted as [|a accepted IH]; simpl.
  { split; [done|]. intros ([|] & ? & ? & ? & _); done. }
  destruct a as [c|e]; simpl.
  - destruct (handle_connection_cases c path) as [Hc Hh].
    destruct (fst (handle_connection c path)) as [[|]|e].
    + split.
      * intros [= <-]. exists [], (Ok c), accepted. split_and!; [done..|by apply Hc].
      * intros ([|x before] & a & after & [= <- ->] & Hb & Ha); [by apply Hc in Ha as ->|].
        apply Forall_cons in Hb as [Hx _]. by specialize (Hh Hx).
    + rewrite IH. destruct Hc as [Hc Hn]. split.
      * intros (before & a & after & -> & Hb & Ha). exists (Ok c :: before), a, after.
        split_and!; [done|by constructor|done].
      * intros ([|x before] & a & after & [= <- ->] & Hb & Ha); [by destruct (Hn r)|].
        apply Forall_cons in Hb as [_ Hb]. by exists before, a, after.
    + split.
      * intros [= <-]. exists [], (Ok c), accepted. split_and!; [done..|by apply Hc].
      * intros ([|x before] & a & after & [= <- ->] & Hb & Ha); [by apply Hc in Ha as ->|].
        apply Forall_cons in Hb as [Hx _]. by specialize (Hh Hx).
  - split.
    + intros [= <-]. by exists [], (Err e), accepted.
    + intros ([|x before] & a & after & [= <- ->] & Hb & Ha).
      * destruct r as [[]|]; simpl in Ha; [done|by subst].
      * by apply Forall_cons in Hb as [? _].
Qed.

(** The connection [prepare_socket_path] of a second process makes: opened and closed. The end of
    the stream is the error [UnexpectedEof], one of [KindOther]. *)
Definition unexpected_eof (message : string) : IoError := mkIoError KindOther message.
Definition probe (message : string) (w : WriteOutcome) : Connection :=
  mkConnection [] (EndError (unexpected_eof message)) w.


(** C40: the stop command always ends: with a clock that advances by the polling interval
    between looks, after at most [timeout / 50 ms + 2] of them. It succeeds only if the running
    instance accepted the request and its socket disappeared before the deadline. *)
Theorem stop_command_ends w config :
  0 <= shutdown_timeout config -> st_start w <= st_now w 0 ->
  (forall j, st_now w j + STOP_POLL_INTERVAL <= st_now w (S j)) ->
  exists r, request_shutdown w config = Some r /\
  (r = Ok tt <->
    st_connect w = Some (Ok tt) /\ on_write (st_connection w) = WriteOk /\
    read_frame (st_connection w) (control_socket config) = Ok ACCEPTED_RESPONSE /\
    exists k, st_exists w k = false /\ forall j, (j < k)%nat ->
      st_exists w j = true /\ st_now w j < st_start w + shutdown_timeout config).
Proof.
  intros Ht Hs Hclock. unfold request_shutdown, write_frame.
  destruct (st_connect w) as [[[]|e]|].
  2: { eexists. split; [done|]. split; [done|]. intros (? & _). done. }
  2: { eexists. split; [done|]. split; [done|]. intros (? & _). done. }
  destruct (on_write (st_connection w)) eqn:Ew.
  2: { eexists. split; [done|]. split; [done|]. intros (_ & ? & _). done. }
  2: { eexists. split; [done|]. split; [done|]. intros (_ & ? & _). done. }
  destruct (read_frame _ _) as [r|e] eqn:Er.
  2: { eexists. split; [done|]. split; [done|]. intros (_ & _ & ? & _). done. }
  case_bool_decide as Hr; simpl.
  2: { eexists. split; [done|]. split; [done|]. intros (_ & _ & ? & _). congruence. }
  destruct (poll_removed_ends w (st_start w + shutdown_timeout config) (shutdown_timeout config)
    (POLL_FUEL (shutdown_timeout config)) 0 Hclock) as (r0 & Hr0 & Hiff).
  { unfold POLL_FUEL. rewrite !Nat2Z.inj_succ, Z2Nat.id by (apply Z.div_pos; [lia|done]).
    pose proof (Z.mod_pos_bound (shutdown_timeout config) STOP_POLL_INTERVAL ltac:(done)).
    pose proof (Z.div_mod (shutdown_timeout config) STOP_POLL_INTERVAL ltac:(done)). lia. }
  { unfold POLL_FUEL. lia. }
  exists r0. split; [done|]. rewrite Hiff, Hr. split.
  - intros (k & Hk & _ & Hall). split_and!; [done..|]. exists k. split; [done|]. intros j Hj. apply Hall. lia.
  - intros (_ & _ & _ & k & Hk & Hall). exists k. split_and!; [done|lia|]. intros j Hj. apply Hall. lia.
Qed.

(** ** Witnesses *)

Definition sample_stop_world : StopWorld :=
  mkStopWorld (Some (Ok tt)) (mkConnection ACCEPTED_RESPONSE EndTimeout WriteOk) (fun i => (i <? 2)%nat)
    (fun i => Z.of_nat i * STOP_POLL_INTERVAL) 0 of_text.

Lemma stop_command_ends_witness :
  exists r, request_shutdown sample_stop_world (mkRuntimeConfig "/run/v.sock" (from_secs 1)) = Some r /\
  (r = Ok tt <-> st_connect sample_stop_world = Some (Ok tt) /\
    on_write (st_connection sample_stop_world) = WriteOk /\
    read_frame (st_connection sample_stop_world) "/run/v.sock" = Ok ACCEPTED_RESPONSE /\
    exists k, st_exists sample_stop_world k = false /\ forall j, (j < k)%nat ->
      st_exists sample_stop_world j = true /\ st_now sample_stop_world j < 0 + from_secs 1).
Proof.
  apply (stop_command_ends sample_stop_world (mkRuntimeConfig "/run/v.sock" (from_secs 1))).
  - vm_compute. discriminate.
  - reflexivity.
  - intros j. unfold sample_stop_world, st_now. rewrite Nat2Z.inj_succ. lia.
Defined.
