(* ===== verification/Lifecycle.v ===== *)
(** * Tasks and shutdown
    (src/src/p2p/service.rs, src/src/app.rs; the task handles of src/src/listener.rs,
    src/src/rpc/server.rs, src/src/rpc/submission.rs)

    A process owns the handles of the tasks it spawned. Waiting for one is an answer of a world:
    how the task ended, or that the time limit came first. What is done to a task is logged. *)

From stdpp Require Import base gmap list strings.
From S2P Require Import Prelude Types Wire Samples ConfigTypes Config Control.

Inductive Task : Set :=
| DriverTask | WorkerTask | ListenerTask | VerificationTask | RpcTask | SubmissionTask.

#[export] Instance Task_eq_dec : EqDecision Task.
Proof. solve_decision. Defined.
#[export] Instance Task_countable : Countable Task.
Proof.
  refine (inj_countable' (fun t => match t with DriverTask => 0 | WorkerTask => 1 | ListenerTask => 2
    | VerificationTask => 3 | RpcTask => 4 | SubmissionTask => 5 end)%nat
    (fun n => match n with 0 => DriverTask | 1 => WorkerTask | 2 => ListenerTask
    | 3 => VerificationTask | 4 => RpcTask | _ => SubmissionTask end)%nat _).
  by intros [].
Defined.

Definition task_name (t : Task) : string :=
  match t with
  | DriverTask => "p2p driver"
  | WorkerTask => "p2p worker"
  | ListenerTask => "Pulsar listener"
  | VerificationTask => "verification worker"
  | RpcTask => "verification RPC server"
  | SubmissionTask => "submission RPC server"
  end.

(** How a task ended: [Result<Result<()>, JoinError>]. *)
Abbreviation JoinResult := (result JoinError (Result unit)).

Definition task_result (r : JoinResult) : Result unit :=
  match r with Ok r => r | Err e => Err (TaskError e) end.

(** The error of a task that ended when it should not have. *)
Definition unexpected_task_error (t : Task) (r : JoinResult) : Error :=
  match r with
  | Ok (Ok _) => TaskExitedUnexpectedly (task_name t)
  | Ok (Err error) => error
  | Err error => TaskError error
  end.

(** [P2pExit::into_error], [ListenerExit::into_error], [RpcExit::into_error],
    [SubmissionRpcExit::into_error]. *)
Definition P2pExit_into_error (t : Task) (r : JoinResult) : Error :=
  match r with
  | Ok (Ok _) => TaskExitedUnexpectedly (task_name t)
  | Ok (Err error) => error
  | Err error => TaskError error
  end.
Definition ListenerExit_into_error (r : JoinResult) : Error :=
  match r with
  | Ok (Ok _) => TaskExitedUnexpectedly (task_name ListenerTask)
  | Ok (Err error) => error
  | Err error => TaskError error
  end.
Definition RpcExit_into_error (r : JoinResult) : Error :=
  match r with
  | Ok (Ok _) => TaskExitedUnexpectedly (task_name RpcTask)
  | Ok (Err error) => error
  | Err error => TaskError error
  end.
Definition SubmissionRpcExit_into_error (r : JoinResult) : Error :=
  match r with
  | Ok (Ok _) => TaskExitedUnexpectedly (task_name SubmissionTask)
  | Ok (Err error) => error
  | Err error => TaskError error
  end.

Inductive Act : Set :=
| Spawned (t : Task)
| NotServing (t : Task)
| Stop (t : Task)
| Joined (t : Task)
(** aborted, and waited for *)
| Aborted (t : Task)
(** aborted by the [Drop] of its owner, not waited for *)
| DropAborted (t : Task)
(** the driver answered the drain *)
| Drained
(** the service's own driver client is gone *)
| DropClient
| SocketBound
(** the control server is dropped, and with it its socket unless it cannot be removed *)
| SocketDropped (gone : bool).

#[export] Instance Act_eq_dec : EqDecision Act.
Proof. solve_decision. Defined.

(** The handles the process owns, whether the P2P service has its driver client, and what was
    done so far. *)
Record Process : Type := mkProcess { handles : gset Task; client : bool; log : list Act }.

(** Why a computation does not return: an error, the time limit around it, a failed [expect],
    [std::future::pending()]. *)
Inductive Interrupt : Set :=
| Failing (e : Error)
| Elapsed
| Panicked
| Pending.

Abbreviation procM := (stm Process Interrupt).

Definition note (a : Act) : procM unit := modify (fun p => mkProcess (handles p) (client p) (log p ++ [a])).
Definition fail {A} (e : Error) : procM A := throw (Failing e).
(** An answer of the world under a time limit; [None] when the limit comes first. *)
Definition await {A} (o : option A) : procM A := match o with Some a => mret a | None => throw Elapsed end.
Definition returns {A} (r : Result A) : procM A := match r with Ok a => mret a | Err e => fail e end.
(** A [match] on the [Result] of a call. *)
Definition try_ {A} (m : procM A) : procM (Result A) := fun p =>
  match m p with
  | (Ok a, p') => (Ok (Ok a), p')
  | (Err (Failing e), p') => (Ok (Err e), p')
  | (Err i, p') => (Err i, p')
  end.
Definition when (b : bool) (m : procM unit) : procM unit := if b then m else mret tt.
Definition has_handle (t : Task) : procM bool := p ← get_state; mret (bool_decide (t ∈ handles p)).
Definition set_client (b : bool) : procM unit := modify (fun p => mkProcess (handles p) b (log p)).

(** [tokio::spawn], keeping the handle. *)
Definition spawn (t : Task) : procM unit :=
  modify (fun p => mkProcess ({[t]} ∪ handles p) (client p) (log p ++ [Spawned t])).
(** [task.take()] once the task has ended. *)
Definition take_joined (t : Task) : procM unit :=
  modify (fun p => mkProcess (handles p ∖ {[t]}) (client p) (log p ++ [Joined t])).

Definition abort_task (t : Task) : procM unit :=
  here ← has_handle t;
  if (here : bool)
  then modify (fun p => mkProcess (handles p ∖ {[t]}) (client p) (log p ++ [Aborted t]))
  else mret tt.

(** [Drop] of the owner of a task. *)
Definition drop_task (t : Task) : procM unit :=
  here ← has_handle t;
  if (here : bool)
  then modify (fun p => mkProcess (handles p ∖ {[t]}) (client p) (log p ++ [DropAborted t]))
  else mret tt.

(** ** The P2P service *)

(** The select of [wait_for_exit]. *)
Inductive P2pEnd : Set :=
| DriverEnded (r : JoinResult)
| WorkerEnded (r : JoinResult).

(** [P2pService::wait_for_exit]. *)
Definition P2pService_wait_for_exit (e : P2pEnd) : procM (Task * JoinResult) :=
  d ← has_handle DriverTask;
  k ← has_handle WorkerTask;
  if negb (d && k) then throw Panicked
  else match e with
  | DriverEnded r => _ ← take_joined DriverTask; mret (DriverTask, r)
  | WorkerEnded r => _ ← take_joined WorkerTask; mret (WorkerTask, r)
  end.

(** The select of [shutdown_ordered]: the drain is answered, or a task ends. *)
Inductive DrainOutcome : Set :=
| DrainAnswered (r : Result unit)
| DrainExit (e : P2pEnd).

Record P2pWorld : Set := mkP2pWorld {
  pw_drain : option DrainOutcome;
  pw_worker : option P2pEnd;
  (** the driver's end, awaited because the worker found the driver closed *)
  pw_driver_closed : option JoinResult;
  pw_join_driver : option JoinResult
}.

Definition wait_for_worker_shutdown (w : P2pWorld) : procM unit :=
  d ← has_handle DriverTask;
  if negb d then fail (TaskExitedUnexpectedly (task_name DriverTask))
  else
    k ← has_handle WorkerTask;
    if negb k then fail (TaskExitedUnexpectedly (task_name WorkerTask))
    else
      e ← await (pw_worker w);
      match e with
      | WorkerEnded r =>
          _ ← take_joined WorkerTask;
          match r with
          | Ok (Err P2pDriverClosed) =>
              closed ← await (pw_driver_closed w);
              _ ← take_joined DriverTask;
              fail (P2pExit_into_error DriverTask closed)
          | r => returns (task_result r)
          end
      | DriverEnded r => _ ← take_joined DriverTask; fail (P2pExit_into_error DriverTask r)
      end.

Definition join_task (t : Task) (outcome : option JoinResult) : procM unit :=
  here ← has_handle t;
  if negb here then fail (TaskExitedUnexpectedly (task_name t))
  else
    r ← await outcome;
    _ ← take_joined t;
    returns (task_result r).

Definition shutdown_ordered (w : P2pWorld) : procM unit :=
  p ← get_state;
  if negb (client p) then fail P2pDriverClosed
  else
    outcome ← await (pw_drain w);
    _ ← match outcome with
        | DrainAnswered r => _ ← returns r; note Drained
        | DrainExit e => x ← P2pService_wait_for_exit e; fail (P2pExit_into_error (fst x) (snd x))
        end;
    _ ← note (Stop WorkerTask);
    _ ← wait_for_worker_shutdown w;
    _ ← set_client false;
    _ ← note DropClient;
    join_task DriverTask (pw_join_driver w).

Definition P2pService_abort_and_join : procM unit := _ ← abort_task WorkerTask; abort_task DriverTask.

Definition P2pService_shutdown (w : P2pWorld) (timeout : Z) : procM (Result unit) := fun p =>
  match shutdown_ordered w p with
  | (Ok _, p') => (Ok (Ok tt), p')
  | (Err (Failing error), p') => (_ ← P2pService_abort_and_join; mret (Err error)) p'
  | (Err Elapsed, p') => (_ ← P2pService_abort_and_join; mret (Err (ShutdownTimeout timeout))) p'
  | (Err i, p') => (Err i, p')
  end.

(** ** The servers and the listener *)

(** [shutdown] of an owner of one task: told to stop, then awaited. *)
Definition stop_and_join (t : Task) (outcome : option JoinResult) (timeout : Z) : procM (Result unit) :=
  _ ← note (Stop t);
  here ← has_handle t;
  if negb here then mret (Err (TaskExitedUnexpectedly (task_name t)))
  else match outcome with
  | Some r => _ ← take_joined t; mret (task_result r)
  | None => _ ← abort_task t; mret (Err (ShutdownTimeout timeout))
  end.

Definition RpcServer_shutdown := stop_and_join RpcTask.
Definition SubmissionRpcServer_shutdown := stop_and_join SubmissionTask.
Definition PulsarListener_shutdown := stop_and_join ListenerTask.

(** [wait_for_exit] of an owner of one task. *)
Definition wait_for_exit (t : Task) (r : JoinResult) : procM JoinResult :=
  here ← has_handle t;
  if negb here then throw Panicked else _ ← take_joined t; mret r.

(** [RpcServer::start]: the address is bound before the task is spawned. *)
Definition RpcServer_start (address : SocketAddr) (bind local_addr : result IoError unit) : procM unit :=
  _ ← returns (map_err (RpcBind address) bind);
  _ ← returns (map_err (RpcBind address) local_addr);
  spawn RpcTask.

Definition PROTOBUF_ENVELOPE_OVERHEAD : Z := 16.

Definition request_limit (max_proof_bytes max_transaction_bytes : Z) : option Z :=
  limit ← checked_add usize_max max_proof_bytes max_transaction_bytes;
  checked_add usize_max limit PROTOBUF_ENVELOPE_OVERHEAD.

Definition SubmissionRpcServer_start (config : SubmissionConfig) (max_proof_bytes : Z)
  (bind local_addr : result IoError unit) : procM unit :=
  _ ← returns (ok_or (request_limit max_proof_bytes (max_transaction_bytes config))
         (InvalidConfig "submission request limit overflows usize"));
  _ ← returns (map_err (RpcBind (submission_listen_address config)) bind);
  _ ← returns (map_err (RpcBind (submission_listen_address config)) local_addr);
  spawn SubmissionTask.

(** ** The application *)

(** The components that are there; the verification task always is. *)
Record RuntimeComponents : Set := mkComponents
  { has_p2p : bool; has_listener : bool; has_rpc : bool; has_submission_rpc : bool }.

(** How the parts of a shutdown go, and the clock when each is reached. *)
Record ShutdownWorld : Set := mkShutdownWorld {
  sw_start : Z;
  sw_now : Task -> Z;
  sw_submission : option JoinResult;
  sw_listener : option JoinResult;
  sw_p2p : P2pWorld;
  sw_verification : option JoinResult;
  sw_rpc : option JoinResult
}.

(** The timeout of a part is reported as the one of the whole shutdown. *)
Definition total_timeout_error (total : Z) (r : Result unit) : Result unit :=
  map_err (fun e => match e with ShutdownTimeout _ => ShutdownTimeout total | e => e end) r.

(** A part of the shutdown, by force when the deadline has passed. *)
Definition shutdown_within (now deadline total : Z) (graceful : Z -> procM (Result unit))
  (force : procM unit) : procM (Result unit) :=
  if deadline <? now then _ ← force; mret (Err (ShutdownTimeout total))
  else r ← graceful (deadline - now); mret (total_timeout_error total r).

Definition shutdown_submission_rpc (w : ShutdownWorld) (deadline total : Z) : procM (Result unit) :=
  shutdown_within (sw_now w SubmissionTask) deadline total
    (SubmissionRpcServer_shutdown (sw_submission w)) (abort_task SubmissionTask).
Definition shutdown_listener (w : ShutdownWorld) (deadline total : Z) : procM (Result unit) :=
  shutdown_within (sw_now w ListenerTask) deadline total
    (PulsarListener_shutdown (sw_listener w)) (abort_task ListenerTask).
Definition shutdown_p2p (w : ShutdownWorld) (deadline total : Z) : procM (Result unit) :=
  shutdown_within (sw_now w DriverTask) deadline total
    (P2pService_shutdown (sw_p2p w)) P2pService_abort_and_join.
Definition shutdown_rpc (w : ShutdownWorld) (deadline total : Z) : procM (Result unit) :=
  shutdown_within (sw_now w RpcTask) deadline total
    (RpcServer_shutdown (sw_rpc w)) (abort_task RpcTask).

Definition shutdown_verification (w : ShutdownWorld) (deadline total : Z) : procM (Result unit) :=
  _ ← note (Stop VerificationTask);
  if deadline <? sw_now w VerificationTask then
    _ ← abort_task VerificationTask; mret (Err (ShutdownTimeout total))
  else
    here ← has_handle VerificationTask;
    if negb here then mret (Err (TaskExitedUnexpectedly (task_name VerificationTask)))
    else match sw_verification w with
    | Some r => _ ← take_joined VerificationTask; mret (task_result r)
    | None => _ ← abort_task VerificationTask; mret (Err (ShutdownTimeout total))
    end.

Definition preserve_first_error (first : option Error) (r : Result unit) : option Error :=
  match r, first with
  | Err e, None => Some e
  | _, first => first
  end.

(** One part of [shutdown_requested]: nothing when the component is not there. *)
Definition shutdown_part (present : bool) (m : procM (Result unit)) (first : option Error)
  : procM (option Error) :=
  if present then r ← m; mret (preserve_first_error first r) else mret first.

Definition shutdown_requested (w : ShutdownWorld) (request : Result unit) (c : RuntimeComponents)
  (total : Z) : procM unit :=
  let deadline := sw_start w + total in
  let first := match request with Err e => Some e | Ok _ => None end in
  _ ← when (has_rpc c) (note (NotServing RpcTask));
  _ ← when (has_submission_rpc c) (note (NotServing SubmissionTask));
  first ← shutdown_part (has_submission_rpc c) (shutdown_submission_rpc w deadline total) first;
  first ← shutdown_part (has_listener c) (shutdown_listener w deadline total) first;
  first ← shutdown_part (has_p2p c) (shutdown_p2p w deadline total) first;
  first ← shutdown_part true (shutdown_verification w deadline total) first;
  first ← shutdown_part (has_rpc c) (shutdown_rpc w deadline total) first;
  match first with Some e => fail e | None => mret tt end.

Definition force_shutdown_components (c : RuntimeComponents) : procM unit :=
  _ ← when (has_submission_rpc c) (abort_task SubmissionTask);
  _ ← when (has_listener c) (abort_task ListenerTask);
  _ ← when (has_p2p c) P2pService_abort_and_join;
  _ ← note (Stop VerificationTask);
  _ ← abort_task VerificationTask;
  when (has_rpc c) (abort_task RpcTask).

Definition cleanup_startup (p2p listener rpc : bool) : procM unit :=
  _ ← when rpc (abort_task RpcTask);
  _ ← when listener (abort_task ListenerTask);
  _ ← when p2p P2pService_abort_and_join;
  _ ← note (Stop VerificationTask);
  abort_task VerificationTask.

(** The branch of [wait_for_app_exit] that fires. *)
Inductive AppEnd : Set :=
| EndControl (accepted : list (result IoError Connection))
| EndSignal (r : Result unit)
| EndP2p (e : P2pEnd)
| EndListener (r : JoinResult)
| EndVerification (r : JoinResult)
| EndRpc (r : JoinResult)
| EndSubmission (r : JoinResult).

Inductive AppExit : Set :=
| Requested (r : Result unit)
| P2pTask (t : Task) (r : JoinResult)
| ListenerExitTask (r : JoinResult)
| VerificationExitTask (r : JoinResult)
| RpcExitTask (r : JoinResult)
| SubmissionRpcExitTask (r : JoinResult).

(** [wait_for_p2p_exit], [wait_for_listener_exit], [wait_for_rpc_exit] and
    [wait_for_submission_rpc_exit]: a component that is not there never ends. *)
Definition wait_for_component {A} (present : bool) (m : procM A) : procM A :=
  if present then m else throw Pending.

Definition wait_for_verification_exit (r : JoinResult) : procM JoinResult :=
  here ← has_handle VerificationTask;
  if negb here then throw Panicked else mret r.

(** [control.wait_for_shutdown()] over the connections that have come in. *)
Definition control_shutdown (path : string) (accepted : list (result IoError Connection)) : procM (Result unit) :=
  match wait_for_shutdown accepted path with Some r => mret r | None => throw Pending end.

Definition wait_for_app_exit (path : string) (e : AppEnd) (c : RuntimeComponents) : procM AppExit :=
  match e with
  | EndControl accepted => r ← control_shutdown path accepted; mret (Requested r)
  | EndSignal r => mret (Requested r)
  | EndP2p e =>
      x ← wait_for_component (has_p2p c) (P2pService_wait_for_exit e); mret (P2pTask (fst x) (snd x))
  | EndListener r =>
      r ← wait_for_component (has_listener c) (wait_for_exit ListenerTask r); mret (ListenerExitTask r)
  | EndVerification r => r ← wait_for_verification_exit r; mret (VerificationExitTask r)
  | EndRpc r => r ← wait_for_component (has_rpc c) (wait_for_exit RpcTask r); mret (RpcExitTask r)
  | EndSubmission r =>
      r ← wait_for_component (has_submission_rpc c) (wait_for_exit SubmissionTask r);
      mret (SubmissionRpcExitTask r)
  end.

Definition handle_app_exit (w : ShutdownWorld) (exit : AppExit) (c : RuntimeComponents) (total : Z)
  : procM unit :=
  let fatal (error : Error) : procM unit := _ ← force_shutdown_components c; fail error in
  match exit with
  | Requested r => shutdown_requested w r c total
  | P2pTask t r => fatal (P2pExit_into_error t r)
  | ListenerExitTask r => fatal (ListenerExit_into_error r)
  | VerificationExitTask r =>
      _ ← take_joined VerificationTask; fatal (unexpected_task_error VerificationTask r)
  | RpcExitTask r => fatal (RpcExit_into_error r)
  | SubmissionRpcExitTask r => fatal (SubmissionRpcExit_into_error r)
  end.
