(* ===== verification/LifecycleProps.v ===== *)
(** * Shutdown leaves nothing running (proofs about Lifecycle)

    A ledger replays the log: a task is spawned when it does not run and ended when it does. *)

From stdpp Require Import base gmap list strings.
From S2P Require Import Prelude Types Wire Samples ConfigTypes Config Control Lifecycle.

Definition ledger_step (o : option (gset Task)) (a : Act) : option (gset Task) :=
  running ← o;
  match a with
  | Spawned t => if decide (t ∈ running) then None else Some ({[t]} ∪ running)
  | Joined t | Aborted t | DropAborted t =>
      if decide (t ∈ running) then Some (running ∖ {[t]}) else None
  | _ => Some running
  end.

(** The tasks that run after the log, when every end is the end of a running task. *)
Definition ledger (l : list Act) : option (gset Task) := foldl ledger_step (Some ∅) l.

Definition kept (p : Process) : Prop := ledger (log p) = Some (handles p).

(** An act on one of the tasks [T]; the drain and the client are the driver's. *)
Definition about (T : gset Task) (a : Act) : Prop :=
  match a with
  | Spawned t | NotServing t | Stop t | Joined t | Aborted t | DropAborted t => t ∈ T
  | Drained | DropClient => DriverTask ∈ T
  | SocketBound | SocketDropped _ => False
  end.

Definition graceful (a : Act) : Prop :=
  match a with Aborted _ | DropAborted _ => False | _ => True end.

(** From [p] to [p'] the acts [l] ended exactly the tasks of [T] that were running. *)
Record closed (T : gset Task) (l : list Act) (p p' : Process) : Prop := mkClosed {
  closed_kept : kept p';
  closed_handles : handles p' = handles p ∖ T;
  closed_log : log p' = log p ++ l;
  closed_about : Forall (about T) l
}.

Definition closes {A} (T : gset Task) (m : procM A) : Prop :=
  forall p, kept p -> wp m (fun _ p' => exists l, closed T l p p') (fun _ _ => False) p.

(** A part of the shutdown, of the tasks [T]: without an error what it did satisfies [G]. *)
Definition ends_part (T : gset Task) (G : list Act -> Prop) (m : procM (Result unit)) (p : Process) : Prop :=
  kept p -> wp m (fun r p' => exists l, closed T l p p' /\ (r = Ok tt -> G l)) (fun _ _ => False) p.

Lemma ledger_snoc l a : ledger (l ++ [a]) = ledger_step (ledger l) a.
Proof. unfold ledger. by rewrite foldl_app. Qed.

(** A computation that always returns. *)
Lemma wp_sure {A} (m : procM A) (Q Q' : A -> Process -> Prop) (X : Interrupt -> Process -> Prop) p :
  wp m Q (fun _ _ => False) p -> (forall a p', Q a p' -> Q' a p') -> wp m Q' X p.
Proof. unfold wp. destruct (m p) as [[a|i] p']; [|done]. intros HQ Hk. by apply Hk. Qed.

(** ** Primitive steps *)

(** An act that neither starts nor ends a task. *)
Definition silent (a : Act) : bool :=
  match a with NotServing _ | Stop _ | Drained | DropClient => true | _ => false end.
Definition socket_act (a : Act) : bool :=
  match a with SocketBound | SocketDropped _ => true | _ => false end.

Lemma kept_note a p b : silent a -> kept p -> kept (mkProcess (handles p) b (log p ++ [a])).
Proof. unfold kept. intros Ha E. simpl. rewrite ledger_snoc, E. by destruct a. Qed.

Lemma kept_socket a p b : socket_act a -> kept p -> kept (mkProcess (handles p) b (log p ++ [a])).
Proof. unfold kept. intros Ha E. simpl. rewrite ledger_snoc, E. by destruct a. Qed.

(** [a] is the end of [t]. *)
Definition ended_by (a : Act) (t : Task) : Prop := a = Joined t \/ a = Aborted t \/ a = DropAborted t.

Lemma kept_ended a t p b :
  ended_by a t -> kept p -> t ∈ handles p -> kept (mkProcess (handles p ∖ {[t]}) b (log p ++ [a])).
Proof.
  unfold kept. intros Ha E Ht. simpl. rewrite ledger_snoc, E. simpl.
  destruct Ha as [->|[->| ->]]; simpl; by rewrite decide_True.
Qed.

Lemma closed_nil p : kept p -> closed ∅ [] p p.
Proof. intros. split; [done|set_solver|by rewrite app_nil_r|constructor]. Qed.

Lemma closed_trans T1 T2 l1 l2 p1 p2 p3 :
  closed T1 l1 p1 p2 -> closed T2 l2 p2 p3 -> closed (T1 ∪ T2) (l1 ++ l2) p1 p3.
Proof.
  intros [K1 H1' L1 A1] [K2 H2' L2 A2]. split; [done|set_solver|by rewrite L2, L1, app_assoc|].
  apply Forall_app; split; (eapply Forall_impl; [eassumption|]);
    intros []; simpl; set_solver.
Qed.

Lemma closed_weaken T T' l p p' :
  closed T l p p' -> T ⊆ T' -> handles p ∩ T' ⊆ T -> closed T' l p p'.
Proof.
  intros [K Hh L A] Hs Hr. split; [done| |done|].
  - rewrite Hh. apply set_eq. intros t. rewrite !elem_of_difference. set_solver.
  - eapply Forall_impl; [eassumption|]. intros []; simpl; set_solver.
Qed.

Lemma closed_ended a t p b :
  ended_by a t -> kept p -> t ∈ handles p ->
  closed {[t]} [a] p (mkProcess (handles p ∖ {[t]}) b (log p ++ [a])).
Proof.
  intros Ha K Ht. split; [by eapply kept_ended|done|done|].
  repeat constructor. destruct Ha as [->|[->| ->]]; simpl; set_solver.
Qed.

Lemma closed_note a T l p b p' :
  silent a -> about T a -> closed T l (mkProcess (handles p) b (log p ++ [a])) p' ->
  closed T (a :: l) p p'.
Proof.
  intros Ha Hab [K Hh L A]. split; [done|done| |by constructor].
  rewrite L. simpl. by rewrite <- app_assoc.
Qed.

Lemma closes_abort_task t : closes {[t]} (abort_task t).
Proof.
  intros p K. unfold abort_task, has_handle. repeat apply wp_bind. apply wp_get, wp_ret.
  case_bool_decide as Ht; [apply wp_modify; eexists; apply closed_ended; unfold ended_by; auto|].
  apply wp_ret. eexists. eapply closed_weaken; [by apply closed_nil|set_solver..].
Qed.

Lemma closes_bind {A B} T1 T2 (m : procM A) (f : A -> procM B) :
  closes T1 m -> (forall a, closes T2 (f a)) -> closes (T1 ∪ T2) (m ≫= f).
Proof.
  intros Hm Hf p K. apply wp_bind. eapply wp_mono; [by apply Hm|]. intros a p' [l C]. cbv beta.
  eapply wp_mono; [apply Hf, C|]. intros b p2 [l2 C2]. eexists. by eapply closed_trans.
Qed.

Lemma closes_ret {A} (a : A) : closes ∅ (mret a : procM A).
Proof. intros p K. apply wp_ret. eexists. by apply closed_nil. Qed.

Lemma closes_when (b : bool) (T : gset Task) m : closes T m -> closes (if b then T else ∅) (when b m).
Proof. destruct b; [done|intros _; apply closes_ret]. Qed.

Lemma closes_p2p_abort : closes {[DriverTask; WorkerTask]} P2pService_abort_and_join.
Proof.
  intros p K. eapply wp_mono; [apply (closes_bind {[WorkerTask]} {[DriverTask]}); [|intros|exact K]|].
  - apply closes_abort_task.
  - apply closes_abort_task.
  - intros u p' [l C]. exists l. eapply closed_weaken; [exact C|set_solver..].
Qed.

(** ** The parts of a shutdown *)

Lemma stop_and_join_part t outcome timeout p :
  t ∈ handles p -> ends_part {[t]} (Forall graceful) (stop_and_join t outcome timeout) p.
Proof.
  intros Ht K. unfold stop_and_join, note, has_handle.
  apply wp_bind, wp_modify, wp_bind, wp_bind, wp_get, wp_ret. simpl.
  rewrite bool_decide_true by done. simpl.
  assert (kept (mkProcess (handles p) (client p) (log p ++ [Stop t]))) as K' by by apply kept_note.
  destruct outcome as [r|]; apply wp_bind.
  - apply wp_modify, wp_ret. exists [Stop t; Joined t]. split; [|by repeat constructor].
    eapply closed_note; [done|set_solver|]. apply closed_ended; unfold ended_by; auto.
  - eapply wp_mono; [apply closes_abort_task, K'|]. intros u p' [l C]. apply wp_ret.
    exists (Stop t :: l). split; [|done]. by eapply closed_note; [|set_solver|].
Qed.

Lemma within_part T G now deadline total gentle force p :
  (forall timeout, ends_part T G (gentle timeout) p) -> closes T force ->
  ends_part T G (shutdown_within now deadline total gentle force) p.
Proof.
  intros Hg Hf K. unfold shutdown_within. destruct (deadline <? now); apply wp_bind.
  - eapply wp_mono; [by apply Hf|]. intros u p' [l C]. apply wp_ret. by exists l.
  - eapply wp_mono; [by apply Hg|]. intros r p' [l [C Hl]]. apply wp_ret. exists l. split; [done|].
    intros E. apply Hl. destruct r as [[]|]; [done|]. discriminate E.
Qed.

Lemma verification_part w deadline total p :
  VerificationTask ∈ handles p ->
  ends_part {[VerificationTask]} (Forall graceful) (shutdown_verification w deadline total) p.
Proof.
  intros Ht K. unfold shutdown_verification. destruct (deadline <? _).
  - apply wp_bind, wp_modify, wp_bind.
    assert (kept (mkProcess (handles p) (client p) (log p ++ [Stop VerificationTask]))) as K'
      by by apply kept_note.
    eapply wp_mono; [apply closes_abort_task, K'|]. intros u p' [l C]. apply wp_ret.
    exists (Stop VerificationTask :: l). split; [|done]. by eapply closed_note; [|set_solver|].
  - by apply (stop_and_join_part VerificationTask (sw_verification w) total p).
Qed.

(** ** The P2P service *)

(** What an ordered shutdown of the P2P service does when nothing goes wrong. *)
Definition p2p_acts : list Act :=
  [Drained; Stop WorkerTask; Joined WorkerTask; DropClient; Joined DriverTask].

Abbreviation p2p_tasks := ({[DriverTask; WorkerTask]} : gset Task).

(** From [p] to [p'] only tasks of [T] may have ended. *)
Record progress (T : gset Task) (p p' : Process) : Prop := mkProgress {
  progress_kept : kept p';
  progress_few : handles p ∖ T ⊆ handles p';
  progress_sub : handles p' ⊆ handles p;
  progress_log : exists l, log p' = log p ++ l /\ Forall (about T) l
}.

Lemma progress_refl T p : kept p -> progress T p p.
Proof. intros. split; [done|set_solver|done|]. exists []. by rewrite app_nil_r. Qed.

Lemma progress_note T p p' a b :
  silent a -> about T a -> progress T p p' -> progress T p (mkProcess (handles p') b (log p' ++ [a])).
Proof.
  intros Ha Hab [K F S (l&L&A)]. split; [by apply kept_note|done|done|].
  exists (l ++ [a]). simpl. rewrite L, app_assoc. split; [done|]. apply Forall_app; auto.
Qed.

Lemma progress_ended T p p' a t b :
  ended_by a t -> t ∈ T -> t ∈ handles p' -> progress T p p' ->
  progress T p (mkProcess (handles p' ∖ {[t]}) b (log p' ++ [a])).
Proof.
  intros Ha Ht Hin [K F S (l&L&A)].
  split; [by eapply kept_ended|set_solver|set_solver|].
  exists (l ++ [a]). simpl. rewrite L, app_assoc. split; [done|]. apply Forall_app. split; [done|].
  repeat constructor. destruct Ha as [->|[->| ->]]; done.
Qed.

Lemma progress_closes {A} T (m : procM A) p p' :
  progress T p p' -> closes T m -> wp m (fun _ p2 => exists l, closed T l p p2) (fun _ _ => False) p'.
Proof.
  intros [K F S (l&L&A')] Hm. eapply wp_mono; [by apply Hm|].
  intros a p2 [l2 [K2 Hh L2 A2]]. exists (l ++ l2). split; [done| |by rewrite L2, L, app_assoc|by apply Forall_app].
  rewrite Hh. apply set_eq. intros t. set_solver.
Qed.

(** A fault of the ordered shutdown that [shutdown] handles. *)
Definition handled (p : Process) (i : Interrupt) (p' : Process) : Prop :=
  (i = Elapsed \/ exists e, i = Failing e) /\ progress p2p_tasks p p'.

Section p2p.
#[local] Hint Extern 1 (ended_by _ _) => unfold ended_by; tauto : core.
Lemma driver_in : DriverTask ∈ p2p_tasks.
Proof. set_solver. Qed.
Lemma worker_in : WorkerTask ∈ p2p_tasks.
Proof. set_solver. Qed.
Lemma driver_stays (T : gset Task) : DriverTask ∈ T -> DriverTask ∈ T ∖ {[WorkerTask]}.
Proof. set_solver. Qed.
Lemma driver_about a : a = Drained \/ a = DropClient -> about p2p_tasks a.
Proof. intros [->| ->]; apply driver_in. Qed.
#[local] Hint Resolve progress_note progress_ended driver_in worker_in driver_stays driver_about : core.

Lemma wp_await {A} (o : option A) (Q : A -> Process -> Prop) (X : Interrupt -> Process -> Prop) p :
  (o = None -> X Elapsed p) -> (forall a, o = Some a -> Q a p) -> wp (await o) Q X p.
Proof. intros HX HQ. destruct o; [by apply wp_ret, HQ|by apply wp_throw, HX]. Qed.

Lemma wp_returns {A} (r : Result A) (Q : A -> Process -> Prop) (X : Interrupt -> Process -> Prop) p :
  (forall e, r = Err e -> X (Failing e) p) -> (forall a, r = Ok a -> Q a p) -> wp (returns r) Q X p.
Proof. intros HX HQ. destruct r; [by apply wp_ret, HQ|by apply wp_throw, HX]. Qed.

Lemma wp_has_handle t (Q : bool -> Process -> Prop) (X : Interrupt -> Process -> Prop) p :
  Q (bool_decide (t ∈ handles p)) p -> wp (has_handle t) Q X p.
Proof. done. Qed.

Lemma handled_elapsed p p' : progress p2p_tasks p p' -> handled p Elapsed p'.
Proof. unfold handled. auto. Qed.
Lemma handled_failing p p' e : progress p2p_tasks p p' -> handled p (Failing e) p'.
Proof. unfold handled. eauto. Qed.
#[local] Hint Resolve handled_elapsed handled_failing : core.

Lemma wait_for_worker_spec w p p0 :
  progress p2p_tasks p0 p -> DriverTask ∈ handles p -> WorkerTask ∈ handles p ->
  wp (wait_for_worker_shutdown w)
    (fun _ p' => p' = mkProcess (handles p ∖ {[WorkerTask]}) (client p) (log p ++ [Joined WorkerTask]))
    (handled p0) p.
Proof.
  intros P HD HW. unfold wait_for_worker_shutdown, take_joined, fail.
  apply wp_bind, wp_has_handle. rewrite bool_decide_true by done. simpl.
  apply wp_bind, wp_has_handle. rewrite bool_decide_true by done. simpl.
  apply wp_bind, wp_await; [by auto|]. intros [r|r] _; apply wp_bind, wp_modify; [apply wp_throw; auto|].
  assert (progress p2p_tasks p0
    (mkProcess (handles p ∖ {[WorkerTask]}) (client p) (log p ++ [Joined WorkerTask]))) as P' by auto.
  assert (wp (returns (task_result r))
    (fun _ p' => p' = mkProcess (handles p ∖ {[WorkerTask]}) (client p) (log p ++ [Joined WorkerTask]))
    (handled p0) (mkProcess (handles p ∖ {[WorkerTask]}) (client p) (log p ++ [Joined WorkerTask])))
    as D by (apply wp_returns; [auto|done]).
  destruct r as [[|[]]|]; try exact D.
  apply wp_bind, wp_await; [by auto|]. intros closed _. apply wp_bind, wp_modify, wp_throw.
  apply handled_failing, progress_ended; simpl; auto.
Qed.

Lemma join_driver_spec o p p0 :
  progress p2p_tasks p0 p -> DriverTask ∈ handles p ->
  wp (join_task DriverTask o)
    (fun _ p' => p' = mkProcess (handles p ∖ {[DriverTask]}) (client p) (log p ++ [Joined DriverTask]))
    (handled p0) p.
Proof.
  intros P HD. unfold join_task, take_joined. apply wp_bind, wp_has_handle.
  rewrite bool_decide_true by done. simpl. apply wp_bind, wp_await; [by auto|].
  intros r _. apply wp_bind, wp_modify, wp_returns; [|done]. intros e _.
  apply handled_failing, progress_ended; auto.
Qed.

Lemma shutdown_ordered_spec w p :
  kept p -> p2p_tasks ⊆ handles p ->
  wp (shutdown_ordered w) (fun _ p' => closed p2p_tasks p2p_acts p p') (handled p) p.
Proof.
  intros K Hin. assert (DriverTask ∈ handles p) as HD by by apply Hin, driver_in.
  assert (WorkerTask ∈ handles p) as HW by by apply Hin, worker_in.
  unfold shutdown_ordered, note, set_client, fail.
  assert (progress p2p_tasks p p) as P by by apply progress_refl.
  apply wp_bind, wp_get. destruct (client p); simpl; [|apply wp_throw; auto].
  apply wp_bind, wp_await; [by auto|]. intros [r|e] _; apply wp_bind.
  - apply wp_bind, wp_returns; [by auto|]. intros [] _. apply wp_modify, wp_bind, wp_modify. simpl.
    apply (progress_note _ _ _ Drained (client p)) in P; [|done|auto].
    apply (progress_note _ _ _ (Stop WorkerTask) (client p)) in P; [|done|apply worker_in].
    apply wp_bind. eapply wp_mono; [apply wait_for_worker_spec; [exact P|done..]|].
    intros [] p' ->. apply wp_bind, wp_modify, wp_bind, wp_modify. simpl.
    apply (progress_ended _ _ _ (Joined WorkerTask) WorkerTask false) in P; [|by auto..].
    apply (progress_note _ _ _ DropClient false) in P; [|done|auto]. simpl in P.
    eapply wp_mono; [apply join_driver_spec; [exact P|simpl; auto]|]. intros [] p' ->. simpl.
    apply (progress_ended _ _ _ (Joined DriverTask) DriverTask false) in P; [|simpl; by auto..].
    split; [apply (progress_kept _ _ _ P)|simpl|simpl; by rewrite <- !app_assoc|].
    + by rewrite difference_difference_l_L, (union_comm_L {[WorkerTask]}).
    + repeat constructor; apply driver_in || apply worker_in.
  - unfold P2pService_wait_for_exit. apply wp_bind, wp_bind, wp_has_handle, wp_bind, wp_has_handle.
    rewrite !bool_decide_true by done. simpl.
    destruct e as [r|r]; apply wp_bind, wp_modify, wp_ret, wp_throw; auto.
Qed.

Lemma p2p_part w timeout p :
  p2p_tasks ⊆ handles p -> ends_part p2p_tasks (fun l => l = p2p_acts) (P2pService_shutdown w timeout) p.
Proof.
  intros Hin K. pose proof (shutdown_ordered_spec w p K Hin) as S. unfold wp, P2pService_shutdown in *.
  destruct (shutdown_ordered w p) as [[[]|i] p']; [by eexists|]. destruct S as [Hi P].
  assert (forall e, wp (_ ← P2pService_abort_and_join; mret (Err e : Result unit))
    (fun r p2 => exists l, closed p2p_tasks l p p2 /\ (r = Ok tt -> l = p2p_acts)) (fun _ _ => False) p') as D.
  { intros e. apply wp_bind. eapply wp_mono; [eapply progress_closes, closes_p2p_abort; exact P|].
    intros u p2 [l C]. apply wp_ret. by exists l. }
  destruct Hi as [->|[e ->]]; apply D.
Qed.
End p2p.

(** ** The application *)

Definition only (b : bool) (T : gset Task) : gset Task := if b then T else ∅.

(** The tasks of the components that are there. *)
Definition tasks_of (c : RuntimeComponents) : gset Task :=
  only (has_submission_rpc c) {[SubmissionTask]} ∪ only (has_listener c) {[ListenerTask]}
  ∪ only (has_p2p c) p2p_tasks ∪ {[VerificationTask]} ∪ only (has_rpc c) {[RpcTask]}.

Lemma shutdown_part_spec (present : bool) T G m first p :
  (present = true -> ends_part T G m p) -> kept p ->
  wp (shutdown_part present m first)
    (fun f p' => exists l, closed (only present T) l p p' /\ (forall e, first = Some e -> f = Some e)
       /\ (f = None -> first = None /\ if present then G l else l = [])) (fun _ _ => False) p.
Proof.
  intros Hm K. destruct present; simpl.
  - apply wp_bind. eapply wp_mono; [by apply Hm|]. intros r p' (l&C&HG). apply wp_ret.
    exists l. split; [done|]. destruct r as [[]|e], first; simpl; split; try done; naive_solver.
  - apply wp_ret. exists []. split; [by apply closed_nil|]. naive_solver.
Qed.

Lemma elem_of_only t b T : t ∈ only b T <-> b = true /\ t ∈ T.
Proof. unfold only. destruct b; set_solver. Qed.

Definition runs (c : RuntimeComponents) (t : Task) : bool :=
  match t with
  | DriverTask | WorkerTask => has_p2p c
  | ListenerTask => has_listener c
  | VerificationTask => true
  | RpcTask => has_rpc c
  | SubmissionTask => has_submission_rpc c
  end.

Lemma elem_of_tasks t c : t ∈ tasks_of c <-> runs c t = true.
Proof. unfold tasks_of. rewrite !elem_of_union, !elem_of_only. destruct t; set_solver. Qed.

(** Membership in what is left of the tasks of [c]. *)
Ltac left_over :=
  rewrite ?elem_of_difference, elem_of_tasks, ?elem_of_only, ?elem_of_union, ?elem_of_singleton;
  simpl; intuition congruence.

Lemma tasks_gone c :
  (((((tasks_of c ∖ only (has_submission_rpc c) {[SubmissionTask]}) ∖ only (has_listener c) {[ListenerTask]})
     ∖ only (has_p2p c) p2p_tasks) ∖ only true {[VerificationTask]}) ∖ only (has_rpc c) {[RpcTask]}) = ∅.
Proof.
  apply set_eq. intros t. split; [|set_solver].
  rewrite !elem_of_difference, !elem_of_only, elem_of_union, !elem_of_singleton, elem_of_tasks.
  destruct t; simpl; intuition congruence.
Qed.

(** The process [p'] after the parts of the shutdown, in their order; [served] is what is said
    before the first. [ok]: nothing was reported. *)
Definition in_order (c : RuntimeComponents) (ok : Prop) (p p' : Process) : Prop :=
  kept p' /\ handles p' = ∅ /\
  exists served submission listening network verifying answering,
    log p' = log p ++ served ++ submission ++ listening ++ network ++ verifying ++ answering /\
    Forall silent served /\
    Forall (about {[SubmissionTask]}) submission /\ Forall (about {[ListenerTask]}) listening /\
    Forall (about p2p_tasks) network /\ Forall (about {[VerificationTask]}) verifying /\
    Forall (about {[RpcTask]}) answering /\
    (ok -> Forall graceful (submission ++ listening ++ network ++ verifying ++ answering) /\
           network = if has_p2p c then p2p_acts else []).

Lemma about_only b T l : Forall (about (only b T)) l -> Forall (about T) l.
Proof. intros A. eapply Forall_impl; [exact A|]. intros []; simpl; rewrite ?elem_of_only; tauto. Qed.

Lemma graceful_part (b : bool) l : (if b then Forall graceful l else l = []) -> Forall graceful l.
Proof. destruct b; [done|by intros ->]. Qed.

Lemma wp_served (c : RuntimeComponents) (k : procM unit) Q X p :
  kept p ->
  (forall p' l, kept p' -> handles p' = handles p -> log p' = log p ++ l -> Forall silent l -> wp k Q X p') ->
  wp (_ ← when (has_rpc c) (note (NotServing RpcTask));
      _ ← when (has_submission_rpc c) (note (NotServing SubmissionTask)); k) Q X p.
Proof.
  intros K Hk. assert (forall b t p, kept p -> exists p' l, when b (note (NotServing t)) p = (Ok tt, p')
    /\ kept p' /\ handles p' = handles p /\ log p' = log p ++ l /\ Forall silent l) as W.
  { intros b t p1 K1. destruct b; simpl.
    - eexists _, [NotServing t]. split; [done|]. split; [by apply kept_note|]. by repeat constructor.
    - exists p1, []. by rewrite app_nil_r. }
  destruct (W (has_rpc c) RpcTask p K) as (p1&l1&E1&K1&Hh1&L1&S1).
  destruct (W (has_submission_rpc c) SubmissionTask p1 K1) as (p2&l2&E2&K2&Hh2&L2&S2).
  unfold wp, mbind, stm_bind. rewrite E1, E2. apply (Hk p2 (l1 ++ l2)); [done|congruence| |by apply Forall_app].
  by rewrite L2, L1, app_assoc.
Qed.

Lemma shutdown_requested_spec w request c total p :
  kept p -> handles p = tasks_of c ->
  wp (shutdown_requested w request c total) (fun _ p' => request = Ok tt /\ in_order c True p p')
    (fun i p' => (exists e, i = Failing e /\ forall e', request = Err e' -> e' = e) /\ in_order c False p p') p.
Proof.
  intros K Hc. unfold shutdown_requested. apply wp_served; [done|].
  intros p0 l0 K0 Hh0 L0 S0. rewrite Hc in Hh0.
  apply wp_bind. eapply wp_sure; [eapply shutdown_part_spec with (T := {[SubmissionTask]}); [|exact K0]|].
  { intros E. apply within_part; [|apply closes_abort_task]. intros. apply stop_and_join_part.
    rewrite Hh0. left_over. }
  intros f1 p1 (l1&[K1 Hh1 L1 A1]&F1&N1). rewrite Hh0 in Hh1. cbv beta.
  apply wp_bind. eapply wp_sure; [eapply shutdown_part_spec with (T := {[ListenerTask]}); [|exact K1]|].
  { intros E. apply within_part; [|apply closes_abort_task]. intros. apply stop_and_join_part.
    rewrite Hh1. left_over. }
  intros f2 p2 (l2&[K2 Hh2 L2 A2]&F2&N2). rewrite Hh1 in Hh2. cbv beta.
  apply wp_bind. eapply wp_sure; [eapply shutdown_part_spec with (T := p2p_tasks); [|exact K2]|].
  { intros E. apply within_part; [|apply closes_p2p_abort]. intros. apply p2p_part.
    intros t. rewrite elem_of_union, !elem_of_singleton, Hh2. intros [->| ->]; left_over. }
  intros f3 p3 (l3&[K3 Hh3 L3 A3]&F3&N3). rewrite Hh2 in Hh3. cbv beta.
  apply wp_bind. eapply wp_sure; [eapply shutdown_part_spec with (T := {[VerificationTask]}); [|exact K3]|].
  { intros E. apply verification_part. rewrite Hh3. left_over. }
  intros f4 p4 (l4&[K4 Hh4 L4 A4]&F4&N4). rewrite Hh3 in Hh4. cbv beta.
  apply wp_bind. eapply wp_sure; [eapply shutdown_part_spec with (T := {[RpcTask]}); [|exact K4]|].
  { intros E. apply within_part; [|apply closes_abort_task]. intros. apply stop_and_join_part.
    rewrite Hh4. left_over. }
  intros f5 p5 (l5&[K5 Hh5 L5 A5]&F5&N5). rewrite Hh4 in Hh5. cbv beta.
  rewrite tasks_gone in Hh5.
  assert (log p5 = log p ++ l0 ++ l1 ++ l2 ++ l3 ++ l4 ++ l5) as L by (rewrite L5, L4, L3, L2, L1, L0; by rewrite <- !app_assoc).
  apply about_only in A1, A2, A3, A4, A5.
  assert (forall ok : Prop, (ok -> f5 = None) -> in_order c ok p p5) as I.
  { intros ok Hok. split; [done|]. split; [done|]. exists l0, l1, l2, l3, l4, l5. do 7 (split; [done|]).
    intros Ho. apply N5 in Hok as [E4 G5]; [|done]. apply N4 in E4 as [E3 G4]. apply N3 in E3 as [E2 G3].
    apply N2 in E2 as [E1 G2]. apply N1 in E1 as [E0 G1]. split; [|by destruct (has_p2p c)].
    apply graceful_part in G5, G2, G1. rewrite !Forall_app. split_and!; try done.
    destruct (has_p2p c); subst l3; repeat constructor. }
  destruct f5 as [e|].
  - apply wp_throw. split; [|by apply I]. exists e. split; [done|]. intros e' ->.
    specialize (F1 e' eq_refl). apply F2, F3, F4, F5 in F1. congruence.
  - apply wp_ret. split; [|by apply I]. destruct request as [[]|e]; [done|].
    specialize (F1 e eq_refl). apply F2, F3, F4, F5 in F1. congruence.
Qed.

(** ** A whole run *)

Definition clean (p : Process) : Prop := kept p /\ handles p = ∅.
Definition runs_exactly (c : RuntimeComponents) (p : Process) : Prop := kept p /\ handles p = tasks_of c.

(** Ends all the tasks of [T] that run, whatever is said meanwhile. *)
Definition sweeps {A} (T : gset Task) (m : procM A) : Prop :=
  forall p, kept p -> wp m (fun _ p' => kept p' /\ handles p' = handles p ∖ T) (fun _ _ => False) p.

Lemma closes_sweeps {A} T (m : procM A) : closes T m -> sweeps T m.
Proof. intros Hm p K. eapply wp_mono; [by apply Hm|]. intros a p' [l []]. done. Qed.

Lemma sweeps_bind {A B} T1 T2 (m : procM A) (f : A -> procM B) :
  sweeps T1 m -> (forall a, sweeps T2 (f a)) -> sweeps (T1 ∪ T2) (m ≫= f).
Proof.
  intros Hm Hf p K. apply wp_bind. eapply wp_mono; [by apply Hm|]. intros a p' [K' E]. cbv beta.
  eapply wp_mono; [by apply Hf|]. intros b p2 [K2 E2]. split; [done|].
  by rewrite E2, E, difference_difference_l_L.
Qed.

Lemma sweeps_when b T m : sweeps T m -> sweeps (only b T) (when b m).
Proof.
  destruct b; [done|]. intros _ p K. apply wp_ret. split; [done|]. unfold only. by rewrite difference_empty_L.
Qed.

Lemma sweeps_note a : silent a -> sweeps ∅ (note a).
Proof.
  intros Ha p K. apply wp_modify. split; [by apply kept_note|]. simpl. by rewrite difference_empty_L.
Qed.

Lemma sweeps_clean {A} T (m : procM A) p X :
  sweeps T m -> kept p -> handles p ⊆ T -> wp m (fun _ => clean) X p.
Proof.
  intros Hm K Hs. eapply wp_sure; [by apply Hm|]. intros a p' [K' E]. split; [done|].
  rewrite E. set_solver.
Qed.

Lemma sweeps_force c : exists T, sweeps T (force_shutdown_components c) /\ tasks_of c ⊆ T.
Proof.
  eexists. split.
  - unfold force_shutdown_components.
    repeat (apply sweeps_bind; [|intros _]);
      first [apply sweeps_when | apply sweeps_note; done | idtac]; apply closes_sweeps;
      apply closes_abort_task || apply closes_p2p_abort.
  - intros t. rewrite elem_of_tasks, !elem_of_union, !elem_of_only, !elem_of_union, !elem_of_singleton.
    destruct t; simpl; tauto.
Qed.

Lemma sweeps_cleanup p2p listener rpc :
  exists T, sweeps T (cleanup_startup p2p listener rpc) /\ tasks_of (mkComponents p2p listener rpc false) ⊆ T.
Proof.
  eexists. split.
  - unfold cleanup_startup.
    repeat (apply sweeps_bind; [|intros _]);
      first [apply sweeps_when | apply sweeps_note; done | idtac]; apply closes_sweeps;
      apply closes_abort_task || apply closes_p2p_abort.
  - intros t. rewrite elem_of_tasks, !elem_of_union, !elem_of_only, !elem_of_union, !elem_of_singleton.
    destruct t; simpl; intuition discriminate.
Qed.

Lemma cleanup_clean p2p listener rpc p X :
  kept p -> handles p ⊆ tasks_of (mkComponents p2p listener rpc false) ->
  wp (cleanup_startup p2p listener rpc) (fun _ => clean) X p.
Proof.
  intros K Hs. destruct (sweeps_cleanup p2p listener rpc) as (T&Hm&Ht).
  eapply sweeps_clean; [exact Hm|done|]. by etrans.
Qed.

(** The process ends with an error and nothing running. *)
Definition ends_failing (i : Interrupt) (p : Process) : Prop := (exists e, i = Failing e) /\ clean p.

Lemma kept_spawn t p b :
  kept p -> t ∉ handles p -> kept (mkProcess ({[t]} ∪ handles p) b (log p ++ [Spawned t])).
Proof. unfold kept. intros E Ht. simpl. rewrite ledger_snoc, E. simpl. by rewrite decide_False. Qed.

Lemma wait_for_app_exit_spec path e c p X :
  runs_exactly c p ->
  match e with EndControl l => bool_decide (is_Some (wait_for_shutdown l path)) | EndP2p _ => has_p2p c | EndListener _ => has_listener c | EndRpc _ => has_rpc c
  | EndSubmission _ => has_submission_rpc c | _ => true end = true ->
  wp (wait_for_app_exit path e c)
    (fun exit p' => kept p' /\ match exit with
       | Requested _ => handles p' = tasks_of c
       | VerificationExitTask _ => handles p' ⊆ tasks_of c /\ VerificationTask ∈ handles p'
       | _ => handles p' ⊆ tasks_of c end) X p.
Proof.
  intros [K Hc] He. assert (forall t, runs c t = true -> t ∈ handles p) as R
    by (intros; by rewrite Hc, elem_of_tasks).
  assert (forall t b, runs c t = true ->
    kept (mkProcess (handles p ∖ {[t]}) b (log p ++ [Joined t])) /\ handles p ∖ {[t]} ⊆ tasks_of c) as J.
  { intros t b Ht. split; [apply kept_ended; unfold ended_by; auto|]. rewrite Hc. set_solver. }
  destruct e as [l|r|e|r|r|r|r]; simpl; try (rewrite He); try (apply wp_ret; by split).
  - unfold control_shutdown. destruct (wait_for_shutdown l path) as [r|]; [|done].
    apply wp_bind, wp_ret, wp_ret. by split.
  - unfold wait_for_component, P2pService_wait_for_exit.
    apply wp_bind, wp_bind, wp_has_handle, wp_bind, wp_has_handle. rewrite !bool_decide_true by by apply R.
    simpl. destruct e; apply wp_bind, wp_modify, wp_ret, wp_ret; by apply J.
  - unfold wait_for_component, wait_for_exit. apply wp_bind, wp_bind, wp_has_handle.
    rewrite bool_decide_true by by apply R. apply wp_bind, wp_modify, wp_ret, wp_ret. by apply J.
  - unfold wait_for_verification_exit. apply wp_bind, wp_bind, wp_has_handle.
    rewrite bool_decide_true by by apply R. apply wp_ret, wp_ret. rewrite Hc. split; [done|].
    split; [done|]. rewrite <- Hc. by apply R.
  - unfold wait_for_component, wait_for_exit. apply wp_bind, wp_bind, wp_has_handle.
    rewrite bool_decide_true by by apply R. apply wp_bind, wp_modify, wp_ret, wp_ret. by apply J.
  - unfold wait_for_component, wait_for_exit. apply wp_bind, wp_bind, wp_has_handle.
    rewrite bool_decide_true by by apply R. apply wp_bind, wp_modify, wp_ret, wp_ret. by apply J.
Qed.

Lemma force_clean c e p : kept p -> handles p ⊆ tasks_of c ->
  wp (_ ← force_shutdown_components c; fail e : procM unit) (fun _ => clean) ends_failing p.
Proof.
  intros K Hs. destruct (sweeps_force c) as (T&Hm&Ht). apply wp_bind.
  eapply wp_mono; [eapply sweeps_clean; [exact Hm|done|by etrans]|].
  intros [] p' C. apply wp_throw. split; [eauto|done].
Qed.

Lemma handle_app_exit_clean w exit c total p :
  kept p -> match exit with
       | Requested _ => handles p = tasks_of c
       | VerificationExitTask _ => handles p ⊆ tasks_of c /\ VerificationTask ∈ handles p
       | _ => handles p ⊆ tasks_of c end ->
  wp (handle_app_exit w exit c total) (fun _ => clean) ends_failing p.
Proof.
  intros K He. destruct exit as [r|t r|r|r|r|r]; simpl; try by apply force_clean.
  - pose proof (shutdown_requested_spec w r c total p K He) as S. unfold wp in *.
    destruct (shutdown_requested w r c total p) as [[[]|i] p'].
    + destruct S as [_ (K'&E&_)]. by split.
    + destruct S as [[e [-> _]] (K'&E&_)]. split; [eauto|by split].
  - destruct He as [Hs Hv]. apply wp_bind, wp_modify. apply force_clean.
    + apply kept_ended; unfold ended_by; auto.
    + simpl. set_solver.
Qed.

(** C29: A requested shutdown stops the components in order. From the running components it
    ends with none running, and what it does is, one after the other: the submission server,
    the listener, the P2P service, the verification worker, the verification server. An error
    of the request is the one reported. Without an error nothing was aborted, and the P2P
    service first drained the driver, then stopped and joined the worker, then let go of the
    driver and joined it. *)
Theorem shutdown_in_order (w : ShutdownWorld) (request : Result unit) (c : RuntimeComponents)
  (total : Z) (p : Process) :
  kept p -> handles p = tasks_of c ->
  let (r, p') := shutdown_requested w request c total p in
  in_order c (r = Ok tt) p p' /\
  match request with
  | Ok _ => r = Ok tt \/ exists e, r = Err (Failing e)
  | Err e => r = Err (Failing e)
  end.
Proof.
  intros K E. pose proof (shutdown_requested_spec w request c total p K E) as W. unfold wp in W.
  destruct (shutdown_requested w request c total p) as [[[]|i] p'].
  - destruct W as [-> I]. split; [|by left]. destruct I as (K'&E'&s&a&b&n&v&q&Hx).
    split; [done|]. split; [done|]. exists s, a, b, n, v, q. tauto.
  - destruct W as [(e&->&He) I]. split.
    + destruct I as (K'&E'&s&a&b&n&v&q&Hx). split; [done|]. split; [done|].
      exists s, a, b, n, v, q. intuition discriminate.
    + destruct request as [[]|e']; [eauto|]. by rewrite (He e' eq_refl).
Qed.

(** ** Concrete runs *)

Definition prompt : P2pWorld :=
  mkP2pWorld (Some (DrainAnswered (Ok tt))) (Some (WorkerEnded (Ok (Ok tt)))) None (Some (Ok (Ok tt))).

(** The RPC server does not stop in time; everything else does. *)
Definition sample_shutdown : ShutdownWorld :=
  mkShutdownWorld 0 (fun _ => 1) (Some (Ok (Ok tt))) (Some (Ok (Ok tt))) prompt (Some (Ok (Ok tt))) None.

Definition everything : RuntimeComponents := mkComponents true true true true.

Lemma shutdown_in_order_witness :
  let started := mkProcess (tasks_of everything) true
    (map Spawned [DriverTask; WorkerTask; VerificationTask; ListenerTask; RpcTask; SubmissionTask]) in
  let (r, p) := shutdown_requested sample_shutdown (Ok tt) everything 5 started in
  r = Err (Failing (ShutdownTimeout 5)) /\ in_order everything (r = Ok tt) started p.
Proof.
  cbv zeta.
  pose proof (shutdown_in_order sample_shutdown (Ok tt) everything 5 (mkProcess (tasks_of everything) true
    (map Spawned [DriverTask; WorkerTask; VerificationTask; ListenerTask; RpcTask; SubmissionTask]))
    ltac:(vm_compute; reflexivity) eq_refl) as P.
  remember (shutdown_requested sample_shutdown (Ok tt) everything 5 _) as x eqn:Ex.
  destruct x as [r p]. split; [|apply P].
  apply (f_equal fst) in Ex. cbn [fst] in Ex. rewrite Ex. vm_compute. reflexivity.
Defined.
