(* ===== verification/Chain.v ===== *)
(** * The chain: descriptors and the CometBFT client
    (src/src/chain/descriptor.rs, src/src/chain/client.rs)

    CometBFT and the [tendermint_rpc] client are foreign: a call answers after a while, with an
    error or a response, or does not answer within the timeout. A height is a number up to
    [i64::MAX], as [tendermint::block::Height] keeps it. *)

From stdpp Require Import base gmap list strings pretty.
From S2P Require Import Prelude Types StdText Wire Samples ConfigTypes ProofId.

(** ** Messages of the chain (pulsarchain/verification/v1) *)

Record ProofKey : Set := mkProofKey { key_height : Z; key_index : Z }.

(** [chain_v1::ProofRecord]. *)
Record ChainProofRecord : Set := mkChainRecord {
  rec_proof_type : Z;
  rec_proof_hash : bytes;
  rec_public_inputs_hash : bytes;
  rec_verification_key_hash : bytes;
  rec_verification_id : bytes
}.
(** [chain_v1::FinalProofResult], the fields the crate reads. *)
Record FinalProofResult : Set := mkFinalProofResult {
  final_proof_type : Z;
  final_proof_hash : bytes;
  final_public_inputs_hash : bytes;
  final_verification_key_hash : bytes;
  final_verification_id : bytes;
  final_height : Z
}.

Inductive QueryProofState : Set :=
| StatePending (record : ChainProofRecord)
| StateFinalResult (record : FinalProofResult).

Record QueryProofResponse : Set := mkQueryProof
  { proof_key : option ProofKey; query_state : option QueryProofState }.

Record PageRequest : Set := mkPageRequest
  { page_key : bytes; page_offset : Z; page_limit : Z; count_total : bool; page_reverse : bool }.
Record QueryProofsByHeightRequest : Set := mkByHeightRequest
  { request_height : Z; request_pagination : option PageRequest }.
(** The pagination of a response: its [next_key]. *)
Record QueryProofsByHeightResponse : Set := mkByHeightResponse
  { page_proofs : list QueryProofResponse; page_next_key : option bytes }.

(** ** Descriptors *)

Definition COMPONENT_HASH_LEN : nat := 32.
Definition MAX_PROOFS_PER_BLOCK : Z := 256.

Record ChainProof : Set := mkChainProof
  { chain_verification_id : VerificationId; submission_height : Z; index_in_block : Z }.

Definition component_hash (name : string) (b : bytes) : Result (array COMPONENT_HASH_LEN) :=
  ok_or (array_of COMPONENT_HASH_LEN b)
    (InvalidChainContract (name +:+ " must be " +:+ pretty COMPONENT_HASH_LEN +:+ " bytes, got "
      +:+ pretty (length b))).

Definition validate_position (height index expected_height : Z) : Result unit :=
  if (height =? 0) || negb (height =? expected_height) then
    Err (InvalidChainContract ("invalid proof submission height " +:+ pretty height +:+ "; expected "
      +:+ pretty expected_height))
  else if MAX_PROOFS_PER_BLOCK <=? index then
    Err (InvalidChainContract ("proof index " +:+ pretty index +:+ " exceeds the per-block contract limit"))
  else Ok tt.

Section descriptor.
Context `{Sha256}.

Definition validate_descriptor (proof_type : Z) (proof_hash public_inputs_hash verification_key_hash
  verification_id : bytes) : Result VerificationId :=
  t ← proof_type_try_from proof_type;
  ph ← component_hash "proof_hash" proof_hash;
  ih ← component_hash "public_inputs_hash" public_inputs_hash;
  kh ← component_hash "verification_key_hash" verification_key_hash;
  expected ← verification_id_try_from verification_id;
  if negb (bool_decide (from_component_hashes t ph ih kh = expected)) then
    Err (VerificationIdMismatch expected)
  else Ok expected.

Definition validate_pending_descriptor (r : ChainProofRecord) : Result VerificationId :=
  validate_descriptor (rec_proof_type r) (rec_proof_hash r) (rec_public_inputs_hash r)
    (rec_verification_key_hash r) (rec_verification_id r).

Definition validate_final_descriptor (r : FinalProofResult) : Result VerificationId :=
  validate_descriptor (final_proof_type r) (final_proof_hash r) (final_public_inputs_hash r)
    (final_verification_key_hash r) (final_verification_id r).

Definition validate_final_position (r : FinalProofResult) (height index : Z) : Result unit :=
  if negb (final_height r =? height) then
    Err (InvalidChainContract "final proof result disagrees with its proof key height")
  else Ok tt.

Definition validate_query_proof (response : QueryProofResponse) (requested_height : Z)
  : Result (option ChainProof) :=
  key ← ok_or (proof_key response)
    (InvalidChainContract "proof query response is missing proof_key");
  _ ← validate_position (key_height key) (key_index key) requested_height;
  match query_state response with
  | Some (StatePending record) =>
      id ← validate_pending_descriptor record;
      Ok (Some (mkChainProof id (key_height key) (key_index key)))
  | Some (StateFinalResult record) =>
      _ ← validate_final_position record (key_height key) (key_index key);
      _ ← validate_final_descriptor record;
      Ok None
  | None => Err (InvalidChainContract "proof query response has no state")
  end.
End descriptor.

(** ** The client *)

Definition PROOFS_BY_HEIGHT_PATH : string := "/pulsarchain.verification.v1.Query/ProofsByHeight".
Definition QUERY_PAGE_SIZE : Z := 100.

(** What a call to CometBFT comes to; an error is its text. *)
Inductive Answer (T : Type) : Type :=
| TimedOut
| Answered (r : result string T).
Arguments TimedOut {T}.
Arguments Answered {T} r.

Definition with_timeout {T} (operation : string) (a : Answer T) : Result T :=
  match a with
  | TimedOut => Err (ChainError ("CometBFT " +:+ operation +:+ " timed out"))
  | Answered r => map_err ChainError r
  end.

Definition height_max : Z := 2 ^ 63 - 1.
(** [Height::try_from]; the text of its error is foreign. *)
Class HeightText := height_error : string.
Definition height_try_from `{HeightText} (h : Z) : result string Z :=
  if h <=? height_max then Ok h else Err height_error.

(** The responses of CometBFT, as far as the client reads them. *)
Record StatusResponse : Set := mkStatus { network : string; catching_up : bool; latest_block_height : Z }.
Record BroadcastResponse : Set := mkBroadcast
  { b_hash : bytes; b_code : Z; b_codespace : string; b_log : string }.
Record ValidatorsResponse : Set := mkValidators
  { v_block_height : Z; v_total : Z; v_pub_keys : list bytes }.
Record BlockResponse : Set := mkBlockResponse { h_height : Z; h_validators_hash : bytes }.
Record AbciQuery : Set := mkAbciQuery { q_height : Z; q_code : Z; q_log : string; q_value : bytes }.

Record PulsarClient : Set := mkClient { c_chain_id : string; c_rpc_url : string; c_timeout : Z }.

(** [PulsarClient::new]: building the HTTP client may fail. *)
Definition PulsarClient_new (http_build : string -> Z -> result string unit) (config : ChainConfig)
  : Result PulsarClient :=
  _ ← map_err ChainError (http_build (comet_rpc_url config) (request_timeout config));
  Ok (mkClient (chain_id config) (comet_rpc_url config) (request_timeout config)).

Record ChainStatus : Set := mkChainStatus { latest_height : Z }.

Definition client_status (client : PulsarClient) (answer : Answer StatusResponse) : Result ChainStatus :=
  status ← with_timeout "status" answer;
  if negb (bool_decide (network status = c_chain_id client)) then
    Err (ChainIdMismatch (c_chain_id client) (network status))
  else if catching_up status then Err (ChainError "CometBFT node is still catching up")
  else Ok (mkChainStatus (latest_block_height status)).

(** [str::is_char_boundary] *)
Definition is_char_boundary (s : bytes) (i : nat) : bool :=
  (i =? 0)%nat || (i =? length s)%nat ||
  match s !! i with Some c => negb ((128 <=? byte_to_Z c) && (byte_to_Z c <? 192)) | None => false end.

(** The loop that walks back to a boundary. *)
Fixpoint walk_back (s : bytes) (boundary : nat) : nat :=
  if is_char_boundary s boundary then boundary
  else match boundary with O => O | S b => walk_back s b end.

Definition bounded_text (value : string) (max_bytes : nat) : string :=
  if (length (text value) <=? max_bytes)%nat then value
  else of_text (take (walk_back (text value) max_bytes) (text value)).

Record BroadcastReceipt : Set := mkReceipt
  { transaction_hash : array 32; receipt_code : Z; codespace : string; log : string }.

Definition broadcast_tx_sync (answer : Answer BroadcastResponse) : Result BroadcastReceipt :=
  response ← with_timeout "broadcast_tx_sync" answer;
  hash ← ok_or (array_of 32 (b_hash response)) (ChainError "transaction hash must contain 32 bytes");
  Ok (mkReceipt hash (b_code response) (bounded_text (b_codespace response) 64)
        (bounded_text (b_log response) 512)).

(** The loop over the validators' keys. *)
Fixpoint collect_keys (keys : list bytes) (unique : gset (array 32)) : Result (gset (array 32)) :=
  match keys with
  | [] => Ok unique
  | b :: rest =>
      key ← ok_or (array_of 32 b) (ChainError ("validator public key must be Ed25519 (32 bytes), got "
        +:+ pretty (length b) +:+ " bytes"));
      if bool_decide (key ∈ unique) then Err (ChainError "validator set contains a duplicate public key")
      else collect_keys rest ({[key]} ∪ unique)
  end.

(** [usize::try_from] of an [i32] total. *)
Definition validator_public_keys `{HeightText} (height : Z) (answer : Z -> Answer ValidatorsResponse)
  : Result (list (array 32)) :=
  h ← map_err (fun e => ChainError ("invalid validator height: " +:+ e)) (height_try_from height);
  response ← with_timeout "validators" (answer h);
  if negb (v_block_height response =? h) then
    Err (ChainError ("validator response height " +:+ pretty (v_block_height response)
      +:+ " does not match requested height " +:+ pretty h))
  else if v_total response <? 0 then
    Err (ChainError ("validator response has invalid total " +:+ pretty (v_total response)))
  else if negb (v_total response =? len (v_pub_keys response)) then
    Err (ChainError ("validator response count " +:+ pretty (len (v_pub_keys response))
      +:+ " does not match total " +:+ pretty (v_total response)))
  else
    unique ← collect_keys (v_pub_keys response) ∅;
    Ok (elements unique).

Definition client_validators_hash `{HeightText} (height : Z) (answer : Z -> Answer BlockResponse)
  : Result (array 32) :=
  h ← map_err (fun e => ChainError ("invalid block height: " +:+ e)) (height_try_from height);
  response ← with_timeout "block" (answer h);
  if negb (h_height response =? h) then
    Err (ChainError ("block response height " +:+ pretty (h_height response)
      +:+ " does not match requested height " +:+ pretty h))
  else ok_or (array_of 32 (h_validators_hash response))
    (ChainError "validators_hash must contain 32 bytes").

Definition pin_query_height (pinned : option Z) (response : Z) : Result (option Z) :=
  match pinned with
  | Some expected =>
      if negb (response =? expected) then
        Err (InvalidChainContract ("ProofsByHeight response height " +:+ pretty response
          +:+ " does not match pinned height " +:+ pretty expected))
      else Ok pinned
  | None => Ok (Some response)
  end.

Section proofs_by_height.
Context `{Sha256, Message QueryProofsByHeightRequest, Message QueryProofsByHeightResponse}.

(** The variables the loop over the records of a page updates. *)
Record Collected : Set := mkCollected
  { proofs : list ChainProof; positions : gset (Z * Z); last_index : option Z }.

Fixpoint collect_records (height : Z) (records : list QueryProofResponse) (c : Collected)
  : Result Collected :=
  match records with
  | [] => Ok c
  | record :: rest =>
      key ← ok_or (proof_key record) (InvalidChainContract "proof query response is missing proof_key");
      if bool_decide ((key_height key, key_index key) ∈ positions c) then
        Err (InvalidChainContract ("duplicate proof index " +:+ pretty (key_index key) +:+ " at height "
          +:+ pretty (key_height key)))
      else if match last_index c with Some index => key_index key <=? index | None => false end then
        Err (InvalidChainContract "ProofsByHeight records are not strictly ordered by proof key")
      else
        found ← validate_query_proof record height;
        collect_records height rest
          (mkCollected (proofs c ++ option_list found) ({[(key_height key, key_index key)]} ∪ positions c)
            (Some (key_index key)))
  end.

(** [QUERY_PAGE_SIZE] records at [height] after [next_key]. *)
Definition by_height_request (height : Z) (next_key : bytes) : QueryProofsByHeightRequest :=
  mkByHeightRequest height (Some (mkPageRequest next_key 0 QUERY_PAGE_SIZE false false)).

(** One page: the answer checked, its records collected, the key of the next page. *)
Definition read_page (height : Z) (answer : Answer AbciQuery) (pinned : option Z) (c : Collected)
  : Result (bytes * option Z * Collected * bool) :=
  response ← with_timeout "ProofsByHeight" answer;
  pinned ← pin_query_height pinned (q_height response);
  if negb (q_code response =? 0) then
    Err (ChainError ("ProofsByHeight ABCI query failed with code " +:+ pretty (q_code response)
      +:+ ": " +:+ q_log response))
  else
    page ← map_err (fun error => InvalidChainContract ("invalid ProofsByHeight response: " +:+ error))
      (decode (M := QueryProofsByHeightResponse) (q_value response));
    c ← collect_records height (page_proofs page) c;
    if MAX_PROOFS_PER_BLOCK <? Z.of_nat (size (positions c)) then
      Err (InvalidChainContract ("ProofsByHeight returned more than " +:+ pretty MAX_PROOFS_PER_BLOCK
        +:+ " records"))
    else Ok (default [] (page_next_key page), pinned, c, bool_decide (page_proofs page = [])).

(** The loop; [abci] answers the n-th query, by path, data and height, and [None] means that
    the fuel ran out. *)
Fixpoint read_pages (abci : nat -> string -> bytes -> option Z -> Answer AbciQuery) (height : Z)
  (fuel n : nat) (next_key : bytes) (pinned : option Z) (pagination_keys : gset bytes) (c : Collected)
  : option (Result (list ChainProof)) :=
  match fuel with
  | O => None
  | S fuel =>
      if bool_decide (next_key ∈ pagination_keys) then
        Some (Err (InvalidChainContract "ProofsByHeight repeated a pagination key"))
      else
        match read_page height (abci n PROOFS_BY_HEIGHT_PATH
            (encode_to_vec (by_height_request height next_key)) pinned) pinned c with
        | Err e => Some (Err e)
        | Ok (next_key', pinned', c', page_was_empty) =>
            if bool_decide (next_key' = []) then Some (Ok (proofs c'))
            else if page_was_empty then
              Some (Err (InvalidChainContract
                "ProofsByHeight returned an empty page with a continuation key"))
            else read_pages abci height fuel (S n) next_key' pinned' ({[next_key]} ∪ pagination_keys) c'
        end
  end.

(** Enough pages for one record each. *)
Definition PAGE_FUEL : nat := 257.

Definition proofs_by_height (abci : nat -> string -> bytes -> option Z -> Answer AbciQuery) (height : Z)
  : option (Result (list ChainProof)) :=
  if height =? 0 then Some (Err (ChainError "proof query height must be positive"))
  else read_pages abci height PAGE_FUEL 0 [] None ∅ (mkCollected [] ∅ None).
End proofs_by_height.

(** ** Blocks *)

(** An event attribute's key and value, which may fail to be UTF-8. *)
Record RpcAttribute : Set := mkRpcAttribute
  { key_str : result string string; value_str : result string string }.
Record RpcEvent : Set := mkRpcEvent { event_kind : string; event_attributes : list RpcAttribute }.
Record TxResult : Set := mkTxResult { tx_code : Z; tx_events : list RpcEvent }.

(** [tendermint_rpc::event::EventData], its [NewBlock] and the rest. *)
Inductive EventData : Set :=
| NewBlock (block : option BlockResponse) (result_finalize_block : option (list TxResult))
| OtherEventData.

Record CommittedEvent : Set := mkCommittedEvent
  { kind : string; attributes : list (string * string) }.
Record CommittedBlock : Set := mkCommittedBlock
  { block_height : Z; block_validators_hash : array 32; block_events : list CommittedEvent }.

(** [collect] of an iterator of results. *)
Fixpoint collect_results {A B} (f : A -> Result B) (l : list A) : Result (list B) :=
  match l with
  | [] => Ok []
  | a :: l' => b ← f a; bs ← collect_results f l'; Ok (b :: bs)
  end.

Definition committed_attribute (a : RpcAttribute) : Result (string * string) :=
  k ← map_err (fun e => InvalidChainContract ("event attribute key is not UTF-8: " +:+ e)) (key_str a);
  v ← map_err (fun e => InvalidChainContract ("event attribute value is not UTF-8: " +:+ e)) (value_str a);
  Ok (k, v).

Definition committed_event (e : RpcEvent) : Result CommittedEvent :=
  attributes ← collect_results committed_attribute (event_attributes e);
  Ok (mkCommittedEvent (event_kind e) attributes).

(** The events of the transactions that succeeded, in order. *)
Definition committed_events (txs : list TxResult) : Result (list CommittedEvent) :=
  collect_results committed_event (concat (map tx_events (filter (fun tx => tx_code tx = 0) txs))).

Definition committed_block (event : EventData) : Result CommittedBlock :=
  match event with
  | OtherEventData =>
      Err (InvalidChainContract "NewBlock subscription returned a different event type")
  | NewBlock block result_finalize_block =>
      block ← ok_or block (InvalidChainContract "NewBlock event is missing block data");
      finalize ← ok_or result_finalize_block
        (InvalidChainContract "NewBlock event is missing FinalizeBlock data");
      hash ← ok_or (array_of 32 (h_validators_hash block))
        (InvalidChainContract "block validators_hash must contain 32 bytes");
      events ← committed_events finalize;
      Ok (mkCommittedBlock (h_height block) hash events)
  end.

(** [NewBlockSubscription::next]: what the stream yields, or its end. *)
Definition subscription_next (item : option (result string EventData)) : Result (option CommittedBlock) :=
  match item with
  | None => Ok None
  | Some r => event ← map_err ChainError r; block ← committed_block event; Ok (Some block)
  end.

(** What happens to the task that drives a subscription's transport; a task whose handle is
    dropped goes on without an owner. *)
Inductive TransportAction : Set :=
| DriverSpawned
| DriverJoined
| DriverAborted
| DriverDetached.

(** [NewBlockSubscription::drop]; whether the handle is still there. *)
Definition subscription_drop (driver : bool) : list TransportAction :=
  if driver then [DriverAborted] else [].

(** [NewBlockSubscription::close]: [client.close()], then how the driver task ends within the
    timeout ([None] if it does not); the subscription is dropped at its end. *)
Definition subscription_close (client_close : result string unit)
  (driver : option (result JoinError (result string unit))) : Result unit * list TransportAction :=
  match client_close with
  | Err e => (Err (ChainError e), subscription_drop true)
  | Ok _ =>
      let (r, actions) :=
        match driver with
        | Some (Ok result) => (map_err ChainError result, [DriverJoined])
        | Some (Err error) => (Err (TaskError error), [DriverJoined])
        | None => (Err (ChainError "WebSocket driver did not stop before timeout"), [DriverAborted])
        end in
      (r, actions ++ subscription_drop false)
  end.

(** [split_once("://")] *)
Fixpoint split_scheme (s : bytes) : option (bytes * bytes) :=
  match strip_prefix (text "://") s with
  | Some rest => Some ([], rest)
  | None => match s with
            | [] => None
            | c :: s' => '(a, rest) ← split_scheme s'; Some (c :: a, rest)
            end
  end.

Fixpoint drop_slashes (reversed : bytes) : bytes :=
  match reversed with c :: r => if Byte.eqb c Byte.x2f then drop_slashes r else reversed | [] => [] end.

Definition websocket_url (http_url : string) : Result string :=
  match split_scheme (text http_url) with
  | None => Err (InvalidConfig "chain.comet_rpc_url must include an HTTP scheme")
  | Some (scheme, rest) =>
      let base := of_text (reverse (drop_slashes (reverse rest))) in
      if bool_decide (scheme = text "http") then Ok ("ws://" +:+ base +:+ "/websocket")
      else if bool_decide (scheme = text "https") then Ok ("wss://" +:+ base +:+ "/websocket")
      else Err (InvalidConfig "chain.comet_rpc_url must use http or https")
  end.

(** [PulsarClient::subscribe_new_blocks] up to the spawning of the driver task. *)
Definition subscribe_connect (client : PulsarClient) (url_ok : string -> result string unit)
  (connect : Answer unit) : Result unit :=
  url ← websocket_url (c_rpc_url client);
  _ ← map_err ChainError (url_ok url);
  with_timeout "WebSocket connect" connect.

(** The rest of it; without an answer the future is dropped while it waits for one. *)
Definition subscribe_events (subscribe : option (Answer unit)) : option (Result unit) * list TransportAction :=
  match subscribe with
  | None => (None, [DriverDetached])
  | Some answer =>
      match with_timeout "NewBlock subscribe" answer with
      | Ok _ => (Some (Ok tt), [])
      | Err error => (Some (Err error), [DriverAborted])
      end
  end.
