(* ===== verification/ChainProps.v ===== *)
(** * The chain client: bounded recovery, descriptor binding, receipts *)

From stdpp Require Import base gmap list strings sorting.
From S2P Require Import Prelude Types StdText Wire Samples ConfigTypes ProofId Chain.

(** ** Descriptors *)

Section descriptor.
Context `{Sha256}.

Lemma component_hash_Ok name b h : component_hash name b = Ok h <-> b = arr_data h.
Proof.
  unfold component_hash. destruct (array_of _ b) as [a|] eqn:Ea; simpl.
  - apply array_of_Some in Ea. split; [intros [= <-]; done|]. intros ->.
    by apply array_ext in Ea as ->.
  - split; [done|]. intros ->. by rewrite array_of_data in Ea.
Qed.

Lemma validate_descriptor_Ok t ph ih kh vid id :
  validate_descriptor t ph ih kh vid = Ok id <->
  exists ty p i k, t = proof_type_i32 ty /\ ph = arr_data p /\ ih = arr_data i /\ kh = arr_data k /\
    vid = as_bytes id /\ id = from_component_hashes ty p i k.
Proof.
  unfold validate_descriptor. split.
  - destruct (proof_type_try_from t) as [ty|] eqn:Et; simpl; [|done].
    destruct (component_hash "proof_hash" ph) as [p|] eqn:Ep; simpl; [|done].
    destruct (component_hash "public_inputs_hash" ih) as [i|] eqn:Ei; simpl; [|done].
    destruct (component_hash "verification_key_hash" kh) as [k|] eqn:Ek; simpl; [|done].
    unfold verification_id_try_from. destruct (array_of _ vid) as [e|] eqn:Ev; simpl; [|done].
    case_bool_decide as Heq; simpl; [|done]. intros [= <-].
    apply proof_type_try_from_spec in Et. apply component_hash_Ok in Ep, Ei, Ek.
    apply array_of_Some in Ev. exists ty, p, i, k. done.
  - intros (ty & p & i & k & -> & -> & -> & -> & -> & ->).
    rewrite (proj2 (proof_type_try_from_spec _ ty)) by done. simpl.
    rewrite !(proj2 (component_hash_Ok _ _ _) eq_refl). simpl.
    unfold verification_id_try_from, as_bytes. rewrite array_of_data. simpl.
    by rewrite bool_decide_true.
Qed.

Lemma validate_position_Ok h i e : validate_position h i e = Ok tt <-> h = e /\ h <> 0 /\ i < 256.
Proof.
  unfold validate_position, MAX_PROOFS_PER_BLOCK.
  destruct (Z.eqb_spec h 0), (Z.eqb_spec h e), (Z.leb_spec 256 i); simpl; naive_solver lia.
Qed.

Lemma validate_query_proof_some r height p :
  validate_query_proof r height = Ok (Some p) ->
  exists k, proof_key r = Some k /\ submission_height p = height /\ key_height k = height /\
    index_in_block p = key_index k /\ key_index k < 256.
Proof.
  unfold validate_query_proof. destruct (proof_key r) as [k|]; simpl; [|done].
  destruct (validate_position _ _ _) as [[]|] eqn:Ep; simpl; [|done].
  apply validate_position_Ok in Ep as (<- & ? & ?).
  destruct (query_state r) as [[x|x]|]; [..|done].
  - destruct (validate_pending_descriptor x); simpl; [|done]. intros [= <-]. exists k. done.
  - destruct (validate_final_position _ _ _); simpl; [|done].
    destruct (validate_final_descriptor x); simpl; done.
Qed.
End descriptor.

(** ** Recovery *)

Section pages.
Context `{Sha256, Message QueryProofsByHeightRequest, Message QueryProofsByHeightResponse}.

Abbreviation check height := (fun r => validate_query_proof r height).

(** What has been collected after the records [recs]. *)
Record collected (height : Z) (recs : list QueryProofResponse) (c : Collected) : Prop := {
  col_found : exists found, collect_results (check height) recs = Ok found /\ proofs c = omap id found;
  col_keys : exists keys, Forall2 (fun r k => proof_key r = Some k) recs keys /\
    last_index c = last (key_index <$> keys) /\ StronglySorted Z.lt (key_index <$> keys) /\
    positions c = list_to_set ((fun k => (key_height k, key_index k)) <$> keys) /\
    size (positions c) = length recs
}.

Lemma collect_results_snoc {A B} (f : A -> Result B) l a bs b :
  collect_results f l = Ok bs -> f a = Ok b -> collect_results f (l ++ [a]) = Ok (bs ++ [b]).
Proof.
  revert bs. induction l as [|x l IH]; intros bs; simpl.
  - intros [= <-] Ha. by rewrite Ha.
  - destruct (f x) as [y|]; simpl; [|done]. destruct (collect_results f l) as [ys|]; simpl; [|done].
    intros [= <-] Ha. by rewrite (IH ys eq_refl Ha).
Qed.

Lemma sorted_snoc (l : list Z) x :
  StronglySorted Z.lt l -> (forall y, last l = Some y -> y < x) -> StronglySorted Z.lt (l ++ [x]).
Proof.
  induction 1 as [|a l Hs IH Hf]; intros Hx; simpl; [by repeat constructor|].
  assert (forall y, last l = Some y -> y < x) as Hl.
  { intros y Hy. apply Hx. destruct l; [done|]. done. }
  constructor; [by apply IH|]. apply Forall_app. split; [done|]. constructor; [|done].
  destruct (last l) as [y|] eqn:Ey.
  - rewrite Forall_forall in Hf. apply last_Some_elem_of in Ey as Hin. specialize (Hf _ Hin).
    specialize (Hl _ eq_refl). lia.
  - apply last_None in Ey as ->. by apply Hx.
Qed.

Lemma collect_records_ok height recs done c c' :
  collected height done c -> collect_records height recs c = Ok c' ->
  collected height (done ++ recs) c'.
Proof.
  revert done c. induction recs as [|r recs IH]; intros done c C; simpl.
  { intros [= <-]. by rewrite app_nil_r. }
  destruct (proof_key r) as [k|] eqn:Ek; simpl; [|done].
  case_bool_decide as Hpos; [done|].
  destruct (match last_index c with Some i => _ | None => false end) eqn:El; [done|].
  destruct (validate_query_proof r height) as [found|] eqn:Ev; simpl; [|done].
  intros E. rewrite cons_middle, app_assoc. eapply IH; [|exact E].
  destruct C as [(fs & Hfs & Hp) (keys & Hk & Hlast & Hsort & Hset & Hsize)]. constructor; simpl.
  - exists (fs ++ [found]). split; [by apply collect_results_snoc|]. rewrite omap_app, Hp. simpl.
    by destruct found.
  - exists (keys ++ [k]). split_and!.
    + apply Forall2_app; [done|]. by constructor.
    + rewrite fmap_app. simpl. by rewrite last_snoc.
    + rewrite fmap_app. simpl. apply sorted_snoc; [done|]. intros y Hy. rewrite Hlast, Hy in El.
      by apply Z.leb_gt in El.
    + rewrite fmap_app, list_to_set_app_L, Hset. simpl. rewrite (right_id_L ∅ (∪)).
      apply (comm_L (∪)).
    + rewrite size_union by set_solver. rewrite size_singleton, Hsize, length_app. simpl. lia.
Qed.

Lemma read_page_ok height answer pinned done c key pinned' c' empty :
  collected height done c -> read_page height answer pinned c = Ok (key, pinned', c', empty) ->
  exists q page, answer = Answered (Ok q) /\ q_code q = 0 /\ decode (q_value q) = Ok page /\
    (pinned = None \/ pinned = Some (q_height q)) /\ pinned' = Some (q_height q) /\
    key = default [] (page_next_key page) /\ empty = bool_decide (page_proofs page = []) /\
    collected height (done ++ page_proofs page) c' /\ (length (done ++ page_proofs page) <= 256)%nat.
Proof.
  intros C. unfold read_page. destruct answer as [|[q|e]]; simpl; [done| |done].
  destruct (pin_query_height pinned (q_height q)) as [p|] eqn:Ep; simpl; [|done].
  destruct (Z.eqb_spec (q_code q) 0) as [Hc|]; simpl; [|done].
  destruct (decode (q_value q)) as [page|] eqn:Ed; simpl; [|done].
  destruct (collect_records height (page_proofs page) c) as [c2|] eqn:Ec; simpl; [|done].
  apply (collect_records_ok _ _ done) in Ec as C2; [|done].
  unfold MAX_PROOFS_PER_BLOCK. destruct (Z.ltb_spec 256 (Z.of_nat (size (positions c2)))); [done|].
  intros [= <- <- <- <-]. exists q, page.
  destruct C2 as [? (keys & ? & ? & ? & ? & Hsize)]. rewrite Hsize in *.
  unfold pin_query_height in Ep. destruct pinned as [e|].
  - destruct (Z.eqb_spec (q_height q) e) as [<-|]; [|done]. injection Ep as <-. simpl.
    split_and!; try done; [by right|constructor; eauto 10|lia].
  - injection Ep as <-. split_and!; try done; [by left|constructor; eauto 10|lia].
Qed.

(** The pages CometBFT served, from the n-th query on. *)
Inductive served (abci : nat -> string -> bytes -> option Z -> Answer AbciQuery) (height : Z)
  : nat -> bytes -> option Z -> list QueryProofsByHeightResponse -> Prop :=
| served_last n key pinned q page :
    abci n PROOFS_BY_HEIGHT_PATH (encode_to_vec (by_height_request height key)) pinned = Answered (Ok q) ->
    q_code q = 0 -> decode (q_value q) = Ok page ->
    (pinned = None \/ pinned = Some (q_height q)) ->
    default [] (page_next_key page) = [] -> served abci height n key pinned [page]
| served_more n key pinned q page pages :
    abci n PROOFS_BY_HEIGHT_PATH (encode_to_vec (by_height_request height key)) pinned = Answered (Ok q) ->
    q_code q = 0 -> decode (q_value q) = Ok page ->
    (pinned = None \/ pinned = Some (q_height q)) ->
    default [] (page_next_key page) <> [] ->
    served abci height (S n) (default [] (page_next_key page)) (Some (q_height q)) pages ->
    served abci height n key pinned (page :: pages).

Lemma read_pages_total abci height fuel n key pinned keys done c :
  collected height done c -> (length done <= 256 < fuel + length done)%nat ->
  exists r, read_pages abci height fuel n key pinned keys c = Some r /\
  forall l, r = Ok l -> exists pages c', served abci height n key pinned pages /\
    collected height (done ++ concat (map page_proofs pages)) c' /\ l = proofs c' /\
    (length (done ++ concat (map page_proofs pages)) <= 256)%nat.
Proof.
  revert n key pinned keys done c.
  induction fuel as [|fuel IH]; intros n key pinned keys done c C Hf; simpl; [lia|].
  case_bool_decide; [by eexists; split|].
  destruct (read_page _ _ _ _) as [[[[key' pinned'] c'] empty]|e] eqn:Er; [|by eexists; split].
  destruct (read_page_ok _ _ _ _ _ _ _ _ _ C Er)
    as (q & page & Ha & Hq & Hd & Hp & -> & -> & -> & C' & Hl).
  destruct (decide (default [] (page_next_key page) = [])) as [Hkey|Hkey];
    [rewrite (bool_decide_true (_ = [])) by done|rewrite (bool_decide_false (_ = [])) by done].
  { eexists. split; [done|]. intros l [= <-]. exists [page], c'. simpl. rewrite app_nil_r.
    split_and!; [by econstructor|done..]. }
  case_bool_decide as Hempty; [by eexists; split|].
  destruct (IH (S n) (default [] (page_next_key page)) (Some (q_height q)) ({[key]} ∪ keys) _ _ C')
    as (r & Hr & Hok).
  { split; [done|]. rewrite length_app. destruct (page_proofs page); [done|]. simpl. lia. }
  exists r. split; [done|]. intros l Hlr. destruct (Hok l Hlr) as (pages & c2 & Hs & C2 & -> & Hl2).
  exists (page :: pages), c2. simpl. rewrite app_assoc.
  split_and!; [by eapply served_more|done..].
Qed.

(** The proofs among checked records are sorted as their keys are. *)
Lemma sorted_found height recs found keys :
  collect_results (check height) recs = Ok found ->
  Forall2 (fun r k => proof_key r = Some k) recs keys -> StronglySorted Z.lt (key_index <$> keys) ->
  StronglySorted (fun a b => index_in_block a < index_in_block b) (omap id found) /\
  Forall (fun p => submission_height p = height /\ index_in_block p < 256 /\
    index_in_block p ∈ key_index <$> keys) (omap id found).
Proof.
  intros Hf Hk. revert found Hf. induction Hk as [|r k recs keys Hrk Hk IH]; intros found; simpl.
  { intros [= <-] _. split; constructor. }
  destruct (validate_query_proof r height) as [x|] eqn:Ex; simpl; [|done].
  destruct (collect_results _ recs) as [xs|] eqn:Exs; simpl; [|done]. intros [= <-] Hs.
  apply StronglySorted_inv in Hs as [Hs Hlt].
  destruct (IH xs eq_refl Hs) as [IHs IHf]. simpl. destruct x as [p|]; simpl.
  - destruct (validate_query_proof_some _ _ _ Ex) as (k' & Hk' & Hh & _ & Hi & Hb).
    assert (k' = k) as -> by congruence. split.
    + constructor; [done|]. eapply Forall_impl; [exact IHf|]. simpl. intros a (_ & _ & Ha).
      rewrite Forall_forall in Hlt. rewrite Hi. by apply Hlt.
    + constructor; [split_and!; [done|lia|rewrite Hi; by left]|].
      eapply Forall_impl; [exact IHf|]. simpl. intros a (? & ? & ?). split_and!; [done..|by right].
  - split; [done|]. eapply Forall_impl; [exact IHf|]. simpl. intros a (? & ? & ?).
    split_and!; [done..|by right].
Qed.

(** C24: the recovery query ends on every behaviour of the node it asks, after at most 257 pages.
    When it succeeds, it has read a complete chain of pages, all at one pinned height; every
    record of them passed the contract's checks, there are at most 256, and the result is
    exactly the pending ones, in strictly increasing position, at the requested height. *)
Theorem proofs_by_height_total abci height :
  exists r, proofs_by_height abci height = Some r /\
  forall l, r = Ok l -> exists pages found,
    served abci height 0 [] None pages /\
    collect_results (check height) (concat (map page_proofs pages)) = Ok found /\ l = omap id found /\
    (length (concat (map page_proofs pages)) <= 256)%nat /\
    StronglySorted (fun a b => index_in_block a < index_in_block b) l /\
    Forall (fun p => submission_height p = height /\ index_in_block p < 256) l.
Proof.
  unfold proofs_by_height. destruct (height =? 0); [by eexists; split|].
  destruct (read_pages_total abci height PAGE_FUEL 0 [] None ∅ [] (mkCollected [] ∅ None))
    as (r & Hr & Hok).
  { constructor; [by exists []|]. exists []. split_and!; try done. constructor. }
  { unfold PAGE_FUEL. simpl. lia. }
  exists r. split; [done|]. intros l Hl. destruct (Hok l Hl) as (pages & c & Hs & C & -> & Hlen).
  destruct C as [(found & Hf & Hp) (keys & Hk & _ & Hsort & _)]. exists pages, found.
  destruct (sorted_found _ _ _ _ Hf Hk Hsort) as [Hso Hall]. rewrite Hp. split_and!; try done.
  eapply Forall_impl; [exact Hall|]. simpl. tauto.
Qed.
End pages.

(** ** Texts *)

Lemma walk_back_ok s b : (walk_back s b <= b)%nat /\ is_char_boundary s (walk_back s b) = true.
Proof.
  induction b as [|b IH].
  - simpl. destruct (is_char_boundary s 0) eqn:E; done.
  - cbn [walk_back]. destruct (is_char_boundary s (S b)) eqn:E; [done|]. destruct IH. split; [lia|done].
Qed.

(** A text is cut to its limit at a character boundary. *)
Lemma bounded_text_ok value max_bytes :
  exists b, bounded_text value max_bytes = of_text (take b (text value)) /\
    is_char_boundary (text value) b = true /\
    (length (text (bounded_text value max_bytes)) <= max_bytes)%nat.
Proof.
  unfold bounded_text. destruct (Nat.leb_spec (length (text value)) max_bytes).
  - exists (length (text value)). rewrite take_ge by done. unfold of_text, text.
    rewrite String.string_of_list_byte_of_string. split_and!; [done| |done].
    unfold is_char_boundary. rewrite Nat.eqb_refl. by rewrite orb_true_r.
  - destruct (walk_back_ok (text value) max_bytes) as [Hle Hb]. eexists. split_and!; [done|done|].
    unfold of_text, text. rewrite String.list_byte_of_string_of_list_byte, length_take.
    unfold text in *. lia.
Qed.
