(* ===== verification/Noir.v ===== *)
(** * The Noir verifier (src/src/verification/noir.rs)

    The Barretenberg process, the file system and the MessagePack codec are foreign: what
    they answer is a world and a class. A failed [expect] is [None]. *)

From stdpp Require Import base list strings pretty.
From S2P Require Import Prelude Types StdText Wire ProofId StoreRecord ConfigTypes Chain ChainProps.

Definition BB_VERSION : string := "5.2.0".
Definition MAX_VERSION_BYTES : nat := 4096.
Definition MAX_RESPONSE_BYTES : Z := 1024 * 1024.

(** ** Failures *)

(** A computation that may panic, and fails with a [VerificationFailure]. *)
Definition noirM (A : Type) : Type := option (result VerificationFailure A).
#[export] Instance noirM_ret : MRet noirM := fun A a => Some (Ok a).
#[export] Instance noirM_bind : MBind noirM := fun A B f m =>
  match m with
  | Some (Ok a) => f a
  | Some (Err e) => Some (Err e)
  | None => None
  end.

(** [failure]: the message cut at a character boundary; [None] if the [expect] fails. *)
Definition noir_failure {A} (code message : string) (retryable : bool) : noirM A :=
  let limit := Z.to_nat FAILURE_MESSAGE_MAX_BYTES in
  let message :=
    if (limit <? length (text message))%nat
    then of_text (take (walk_back (text message) limit) (text message)) else message in
  match VerificationFailure_new code message retryable with
  | Ok f => Some (Err f)
  | Err _ => None
  end.

Definition unavailable {A} (message : string) : noirM A :=
  noir_failure "barretenberg_unavailable" message true.
Definition protocol {A} (message : string) : noirM A :=
  noir_failure "barretenberg_protocol" message false.

Definition initialization (message : string) : Error := NoirInitialization message.

(** ** The request *)

Record ProofSystemSettings : Set := mkSettings {
  ipa_accumulation : bool;
  oracle_hash_type : string;
  disable_zk : bool;
  optimized_solidity_verifier : bool
}.

(** [Command::CircuitVerify]. *)
Record CircuitVerify : Set := mkCircuitVerify {
  cv_verification_key : bytes;
  cv_public_inputs : list bytes;
  cv_proof : list bytes;
  cv_settings : ProofSystemSettings
}.

Inductive Response : Set :=
| CircuitVerifyResponse (verified : bool)
| ErrorResponse (message : string)
| OtherResponse.

(** [rmp_serde] on the generated types. *)
Class MsgPack := {
  to_vec_named : list CircuitVerify -> result string bytes;
  from_slice : bytes -> result string Response
}.

(** [as_chunks::<32>().0] *)
Fixpoint chunks (fuel : nat) (b : bytes) : list bytes :=
  match fuel with
  | O => []
  | S fuel => if (length b <? 32)%nat then [] else take 32 b :: chunks fuel (drop 32 b)
  end.

Definition fields (b : bytes) : noirM (list bytes) :=
  if negb (len b mod 32 =? 0) then
    noir_failure "invalid_noir_artifact"
      ("Noir proof and public inputs must use 32-byte field framing; got " +:+ pretty (len b) +:+ " bytes") false
  else mret (chunks (length b) b).

Definition build_command (p : Proof_) (public_inputs proof_fields : list bytes) : CircuitVerify :=
  mkCircuitVerify (verification_key p) public_inputs proof_fields (mkSettings false "poseidon2" false false).

Definition encode_request `{MsgPack} (p : Proof_) (public_inputs proof_fields : list bytes) : noirM bytes :=
  match to_vec_named [build_command p public_inputs proof_fields] with
  | Ok request => mret request
  | Err error => protocol ("failed to encode Barretenberg request: " +:+ error)
  end.

Definition classify_response (response : Response) : noirM VerificationVerdict :=
  match response with
  | CircuitVerifyResponse verified => mret (if verified then Valid else Invalid)
  | ErrorResponse message => noir_failure "barretenberg_error" ("Barretenberg error: " +:+ message) false
  | OtherResponse => protocol "Barretenberg returned an unexpected response variant"
  end.

(** ** The process *)

Record NoirVerifier : Set := mkNoirVerifier
  { nv_binary_path : string; nv_home_directory : string; nv_threads_per_job : Z }.

(** [tokio::process::Command]: the program, its arguments and the variables that are set. *)
Record ProcessCommand : Set := mkProcessCommand
  { pc_program : string; pc_args : list string; pc_env : list (string * string) }.

(** A child: what it does with the bytes on its standard input. *)
Record Child : Type := mkChild {
  spawn_result : result string unit;
  has_stdin : bool;
  has_stdout : bool;
  (** [None] when all of it is taken *)
  write_error : bytes -> option string;
  (** its output, and the error a reader gets at the end of it *)
  output : bytes -> bytes;
  read_error : bytes -> string;
  (** the cancellation token wins against the exchange *)
  cancelled : bool;
  (** [try_wait], and [kill] when it is still running *)
  try_wait : result string bool;
  kill : result string unit
}.

Inductive ExchangeError : Set :=
| ExchangeIo (error : string)
| Oversized.

Definition cleanup_process (c : Child) : result string unit :=
  exited ← try_wait c;
  if (exited : bool) then Ok tt else kill c.

(** [u32::from_le_bytes] *)
Definition u32_of_le_bytes (b : bytes) : Z := foldr (fun c acc => byte_to_Z c + 256 * acc) 0 b.

(** The frame that is written: the length, then the request. *)
Definition frame (request : bytes) : bytes := u32_to_le_bytes (len request) ++ request.

(** [read_exact] of the child's output. *)
Definition read_exact (c : Child) (written : bytes) (n : nat) (out : bytes) : result ExchangeError (bytes * bytes) :=
  if (length out <? n)%nat then Err (ExchangeIo (read_error c written)) else Ok (take n out, drop n out).

(** The [async] block of [exchange]. *)
Definition exchange_bytes (c : Child) (request : bytes) : result ExchangeError bytes :=
  let written := frame request in
  match write_error c written with
  | Some e => Err (ExchangeIo e)
  | None =>
      '(header, out) ← read_exact c written 4 (output c written);
      let response_len := u32_of_le_bytes header in
      if MAX_RESPONSE_BYTES <? response_len then Err Oversized
      else
        '(response, _) ← read_exact c written (Z.to_nat response_len) out;
        Ok response
  end.

Section noir.
Context `{MsgPack}.

(** [start] is what comes of starting a process. *)
Definition exchange (self : NoirVerifier) (start : ProcessCommand -> Child) (request : bytes) : noirM Response :=
  let c := start (mkProcessCommand (nv_binary_path self) ["msgpack"; "run"]
    [("HOME", nv_home_directory self); ("HARDWARE_CONCURRENCY", pretty (nv_threads_per_job self))]) in
  if u32_max <? len request then protocol "Barretenberg request exceeds the framing limit"
  else match spawn_result c with
  | Err error => unavailable ("failed to start Barretenberg: " +:+ error)
  | Ok _ =>
      if negb (has_stdin c) then unavailable "Barretenberg stdin pipe is unavailable"
      else if negb (has_stdout c) then unavailable "Barretenberg stdout pipe is unavailable"
      else
        let exchange_result := if cancelled c then None else Some (exchange_bytes c request) in
        match cleanup_process c with
        | Err error => noir_failure "barretenberg_cleanup" ("failed to stop Barretenberg: " +:+ error) true
        | Ok _ =>
            match exchange_result with
            | None => unavailable "Barretenberg verification was cancelled"
            | Some (Err Oversized) => protocol "Barretenberg response exceeds 1 MiB"
            | Some (Err (ExchangeIo error)) =>
                unavailable ("Barretenberg pipe closed unexpectedly: " +:+ error)
            | Some (Ok response) =>
                match from_slice response with
                | Ok r => mret r
                | Err error => protocol ("invalid Barretenberg response: " +:+ error)
                end
            end
        end
  end.

(** [NoirVerifier::verify]. *)
Definition noir_verify (self : NoirVerifier) (start : ProcessCommand -> Child) (p : Proof_)
  : noirM VerificationVerdict :=
  if negb (bool_decide (proof_type p = NoirBarretenberg)) then
    noir_failure "invalid_noir_artifact" "Noir verifier received a different proof type" false
  else
    proof_fields ← fields (proof p);
    public_inputs ← fields (public_inputs p);
    request ← encode_request p public_inputs proof_fields;
    response ← exchange self start request;
    classify_response response.
End noir.

(** ** Initialization *)

(** How [bb --version] goes within the time limit. *)
Inductive VersionRun : Set :=
| VersionTimedOut
| VersionFailed (error : string)
| VersionExited (out : bytes) (success : bool) (status : string).

Record NoirWorld : Type := mkNoirWorld {
  (** [fs::metadata] of a path: a regular file, a directory, the mode *)
  nw_metadata : string -> result string (bool * bool * Z);
  nw_spawn : string -> result string unit;
  nw_stdout : bool;
  nw_run : VersionRun;
  nw_try_wait : result string bool;
  nw_kill : result string unit
}.

Definition version_cleanup (w : NoirWorld) : Result unit :=
  map_err (fun e => initialization ("bb version cleanup failed: " +:+ e))
    (exited ← nw_try_wait w; if (exited : bool) then Ok tt else nw_kill w).

(** What is made of the output and the exit status. *)
Definition check_version (out : bytes) (success : bool) (status : string) : Result string :=
  let read := take (MAX_VERSION_BYTES + 1) out in
  if negb success then Err (initialization ("bb --version exited with " +:+ status))
  else if (MAX_VERSION_BYTES <? length read)%nat then Err (initialization "bb --version output is too large")
  else
    version ← map_err (fun e => initialization ("bb --version output is not UTF-8: " +:+ e)) (from_utf8 read);
    Ok (trim version).

Definition read_version (w : NoirWorld) (binary_path : string) : Result string :=
  _ ← map_err (fun e => initialization ("failed to execute bb --version: " +:+ e)) (nw_spawn w binary_path);
  if negb (nw_stdout w) then Err (initialization "bb version stdout pipe is unavailable")
  else match nw_run w with
  | VersionFailed error =>
      _ ← version_cleanup w; Err (initialization ("bb --version failed: " +:+ error))
  | VersionTimedOut =>
      _ ← version_cleanup w; Err (initialization "bb --version did not finish within 5 seconds")
  | VersionExited out success status => check_version out success status
  end.

Definition NoirVerifier_initialize (w : NoirWorld) (config : NoirConfig) : Result NoirVerifier :=
  '(is_file, _, mode) ← map_err (fun e => initialization ("cannot access bb binary: " +:+ e))
    (nw_metadata w (binary_path config));
  if negb is_file || (Z.land mode 73 =? 0) then
    Err (initialization "bb binary must be a regular executable file")
  else
    let crs := path_join (home_directory config) ".bb-crs" in
    if negb match nw_metadata w crs with Ok (_, is_dir, _) => is_dir | Err _ => false end then
      Err (initialization ("Barretenberg CRS directory is missing: " +:+ crs))
    else
      version ← read_version w (binary_path config);
      if negb (bool_decide (version = BB_VERSION)) then
        Err (initialization ("expected bb " +:+ BB_VERSION +:+ ", got " +:+ version))
      else Ok (mkNoirVerifier (binary_path config) (home_directory config) (threads_per_job config)).

(** ** Lemmas *)

(** The codes the verifier uses. *)
Definition noir_code (code : string) : bool :=
  match VerificationFailure_new code "" false with Ok _ => true | Err _ => false end.

Lemma noir_failure_some {A} code message retryable :
  noir_code code = true ->
  exists f, (noir_failure code message retryable : noirM A) = Some (Err f) /\ failure_wf f /\
    Types.code f = code /\ Types.retryable f = retryable.
Proof.
  intros Hc. unfold noir_failure.
  match goal with |- context [VerificationFailure_new _ ?x _] => set (m := x) end.
  assert (str_len m <= FAILURE_MESSAGE_MAX_BYTES) as Hm.
  { unfold m, str_len. rewrite <- length_text. destruct (Nat.ltb_spec (Z.to_nat FAILURE_MESSAGE_MAX_BYTES) (length (text message))).
    - unfold of_text, text at 1. rewrite String.list_byte_of_string_of_list_byte, length_take.
      pose proof (walk_back_ok (text message) (Z.to_nat FAILURE_MESSAGE_MAX_BYTES)) as [? _].
      unfold FAILURE_MESSAGE_MAX_BYTES in *. lia.
    - unfold FAILURE_MESSAGE_MAX_BYTES in *. lia. }
  assert (VerificationFailure_new code m retryable = Ok (mkFailure code m retryable)) as E.
  { unfold noir_code, VerificationFailure_new in *. repeat case_match; try done. lia. }
  rewrite E. exists (mkFailure code m retryable). by split_and!.
Qed.

Lemma chunks_concat fuel b n :
  (length b <= fuel)%nat -> (length b = 32 * n)%nat ->
  concat (chunks fuel b) = b /\ Forall (fun f => length f = 32%nat) (chunks fuel b).
Proof.
  revert b n. induction fuel as [|fuel IH]; intros b n Hf Hn; simpl.
  - destruct b; [by split|simpl in Hf; lia].
  - destruct (Nat.ltb_spec (length b) 32).
    + destruct b; [by split|]. destruct n; simpl in *; lia.
    + destruct (IH (drop 32 b) (n - 1)%nat) as [E F]; [rewrite length_drop; lia..|].
      simpl. rewrite E, take_drop. split; [done|]. constructor; [rewrite length_take; lia|done].
Qed.

Lemma chunks_unique fuel l :
  (length (concat l) <= fuel)%nat -> Forall (fun f => length f = 32%nat) l -> chunks fuel (concat l) = l.
Proof.
  revert l. induction fuel as [|fuel IH]; intros l Hf Hl.
  - destruct l as [|x l]; [done|]. inversion Hl; subst. simpl in Hf. rewrite length_app in Hf. lia.
  - destruct l as [|x l]; [done|]. inversion Hl as [|? ? Hx Hl']; subst. simpl in *. rewrite length_app in *.
    destruct (Nat.ltb_spec (length x + length (concat l)) 32); [lia|].
    rewrite <- Hx, take_app_length, drop_app_length, IH; [done|lia|done].
Qed.

Lemma u32_of_le_bytes_nonneg b : 0 <= u32_of_le_bytes b.
Proof. unfold u32_of_le_bytes. induction b as [|x b IH]; simpl; [done|]. pose proof (byte_to_Z_range x). lia. Qed.

Section verdict.
Context `{MsgPack}.

(** The command asks for the verification of exactly this proof: its key, its public inputs and its
    proof, these cut in 32-byte pieces, for the proof system Pulsar uses. *)
Definition asks_for (p : Proof_) (command : CircuitVerify) : Prop :=
  cv_verification_key command = verification_key p /\
  concat (cv_public_inputs command) = public_inputs p /\ concat (cv_proof command) = proof p /\
  Forall (fun f => length f = 32%nat) (cv_public_inputs command ++ cv_proof command) /\
  cv_settings command = {| ipa_accumulation := false; oracle_hash_type := "poseidon2";
    disable_zk := false; optimized_solidity_verifier := false |}.

(** The verifier's program was started in its home with its number of threads. *)
Definition started_as (self : NoirVerifier) (command : ProcessCommand) : Prop :=
  pc_program command = nv_binary_path self /\ pc_args command = ["msgpack"; "run"] /\
  pc_env command = [("HOME", nv_home_directory self); ("HARDWARE_CONCURRENCY", pretty (nv_threads_per_job self))].

(** The process that was started was given exactly the proof and answered with the verdict: it was
    written the length of the request in four bytes and the request, nothing else; what it wrote
    begins with the length of a response, at most 1 MiB, and that response; it was not cancelled,
    and it had exited or was killed. *)
Definition answered_with (self : NoirVerifier) (start : ProcessCommand -> Child) (p : Proof_)
  (v : VerificationVerdict) : Prop :=
  proof_type p = NoirBarretenberg /\
  exists cmd command request prefix header body rest,
    let c := start cmd in
    started_as self cmd /\ spawn_result c = Ok tt /\ has_stdin c = true /\ has_stdout c = true /\
    asks_for p command /\ to_vec_named [command] = Ok request /\ le32 (len request) prefix /\
    write_error c (prefix ++ request) = None /\ output c (prefix ++ request) = header ++ body ++ rest /\
    le32 (len body) header /\ len body <= 1048576 /\
    from_slice body = Ok (CircuitVerifyResponse (bool_decide (v = Valid))) /\
    cancelled c = false /\ (try_wait c = Ok true \/ try_wait c = Ok false /\ kill c = Ok tt).

(** Every way out that is not a value is a well-formed failure. *)
Definition fails_well {A} (m : noirM A) (Q : A -> Prop) : Prop :=
  match m with Some (Ok a) => Q a | Some (Err f) => failure_wf f | None => False end.

Lemma fails_well_bind {A B} (m : noirM A) (f : A -> noirM B) Q Q' :
  fails_well m Q -> (forall a, Q a -> fails_well (f a) Q') -> fails_well (m ≫= f) Q'.
Proof. destruct m as [[a|e]|]; simpl; auto. Qed.

Lemma fails_well_failure {A} code message retryable (Q : A -> Prop) :
  noir_code code = true -> fails_well (noir_failure code message retryable : noirM A) Q.
Proof. intros Hc. destruct (noir_failure_some (A := A) code message retryable Hc) as (f&->&W&_). exact W. Qed.

Lemma fields_spec b :
  fails_well (fields b) (fun l => concat l = b /\ Forall (fun f => length f = 32%nat) l).
Proof.
  unfold fields. destruct (Z.eqb_spec (len b mod 32) 0) as [E|E]; simpl; [|by apply fails_well_failure].
  apply (chunks_concat _ _ (Z.to_nat (len b / 32))); [lia|]. unfold len in *.
  pose proof (Z.div_mod (Z.of_nat (length b)) 32). lia.
Qed.

Lemma noir_failure_not_ok {A} code message b (a : A) : noir_failure code message b <> Some (Ok a).
Proof. unfold noir_failure. by destruct (VerificationFailure_new _ _ _). Qed.

Lemma le32_header n b : le32 n b <-> length b = 4%nat /\ u32_of_le_bytes b = n.
Proof.
  unfold le32, u32_of_le_bytes. split; [intros (b0&b1&b2&b3&->&->); simpl; lia|].
  destruct b as [|b0 [|b1 [|b2 [|b3 [|]]]]]; try (by intros []). intros [_ <-].
  exists b0, b1, b2, b3. split; [done|]. simpl. lia.
Qed.

Lemma exchange_bytes_spec c request body :
  exchange_bytes c request = Ok body <->
  write_error c (frame request) = None /\ exists header rest, output c (frame request) = header ++ body ++ rest /\
    le32 (len body) header /\ len body <= MAX_RESPONSE_BYTES.
Proof.
  setoid_rewrite le32_header.
  unfold exchange_bytes, read_exact. destruct (write_error c (frame request)) as [e|].
  { split; [done|]. by intros [[=] _]. }
  set (out := output c (frame request)). split.
  - destruct (Nat.ltb_spec (length out) 4); simpl; [done|].
    pose proof (u32_of_le_bytes_nonneg (take 4 out)) as Hp.
    destruct (Z.ltb_spec MAX_RESPONSE_BYTES (u32_of_le_bytes (take 4 out))); [done|].
    destruct (Nat.ltb_spec (length (drop 4 out)) (Z.to_nat (u32_of_le_bytes (take 4 out)))); simpl; [done|].
    intros [= <-]. split; [done|]. exists (take 4 out), (drop (Z.to_nat (u32_of_le_bytes (take 4 out))) (drop 4 out)).
    rewrite !take_drop. split; [done|]. unfold len. rewrite !length_take. lia.
  - intros [_ (header&rest&->&(Hh&Hn)&Hb)]. rewrite length_app.
    destruct (Nat.ltb_spec (length header + length (body ++ rest)) 4); simpl; [lia|].
    rewrite take_app_length', drop_app_length' by done. rewrite Hn.
    destruct (Z.ltb_spec MAX_RESPONSE_BYTES (len body)); [lia|].
    unfold len. rewrite Nat2Z.id, length_app.
    destruct (Nat.ltb_spec (length body + length rest) (length body)); simpl; [lia|].
    by rewrite take_app_length.
Qed.

Lemma cleanup_ok c :
  cleanup_process c = Ok tt <-> try_wait c = Ok true \/ try_wait c = Ok false /\ kill c = Ok tt.
Proof.
  unfold cleanup_process. destruct (try_wait c) as [[]|]; simpl; [naive_solver| |naive_solver].
  split; [by right|]. by intros [|[]].
Qed.

Lemma exchange_spec self start request r :
  exchange self start request = Some (Ok r) <->
  exists cmd, started_as self cmd /\ len request <= u32_max /\
    spawn_result (start cmd) = Ok tt /\ has_stdin (start cmd) = true /\ has_stdout (start cmd) = true /\
    cancelled (start cmd) = false /\ cleanup_process (start cmd) = Ok tt /\
    exists body, exchange_bytes (start cmd) request = Ok body /\ from_slice body = Ok r.
Proof.
  unfold exchange. set (cmd := mkProcessCommand _ _ _). set (c := start cmd).
  transitivity (len request <= u32_max /\ spawn_result c = Ok tt /\ has_stdin c = true /\ has_stdout c = true /\
    cancelled c = false /\ cleanup_process c = Ok tt /\
    exists body, exchange_bytes c request = Ok body /\ from_slice body = Ok r); last first.
  { split; [intros W; by exists cmd|]. intros ([prog args env]&(Hp&Ha&He)&W). simpl in *. by subst. }
  unfold unavailable, protocol.
  destruct (Z.ltb_spec u32_max (len request)); [split; [by intros ?%noir_failure_not_ok|]; intros []; lia|].
  destruct (spawn_result c) as [[]|]; [|split; [by intros ?%noir_failure_not_ok|]; by intros (_&?&_)].
  destruct (has_stdin c); simpl; [|split; [by intros ?%noir_failure_not_ok|]; by intros (_&_&?&_)].
  destruct (has_stdout c); simpl; [|split; [by intros ?%noir_failure_not_ok|]; by intros (_&_&_&?&_)].
  destruct (cleanup_process c) as [[]|]; [|split; [by intros ?%noir_failure_not_ok|]; by intros (_&_&_&_&_&?&_)].
  destruct (cancelled c); [split; [by intros ?%noir_failure_not_ok|]; by intros (_&_&_&_&?&_)|].
  destruct (exchange_bytes c request) as [body|[]];
    [|split; [by intros ?%noir_failure_not_ok|]; by intros (_&_&_&_&_&_&?&?&_)..].
  destruct (from_slice body) as [r'|] eqn:Er; simpl.
  - split; [intros [= <-]; split_and!; eauto|]. intros (_&_&_&_&_&_&b&[= <-]&Eb).
    assert (r' = r) as -> by congruence. done.
  - split; [by intros ?%noir_failure_not_ok|]. intros (_&_&_&_&_&_&b&[= <-]&Eb). congruence.
Qed.

Lemma exchange_fails_well self start request : fails_well (exchange self start request) (fun _ => True).
Proof.
  unfold exchange, unavailable, protocol. repeat case_match; try done; by apply fails_well_failure.
Qed.

Lemma fields_complete l :
  Forall (fun f => length f = 32%nat) l -> fields (concat l) = mret l.
Proof.
  intros Hl. assert (len (concat l) mod 32 = 0) as E.
  { unfold len. induction Hl as [|x l Hx Hl IH]; [done|]. simpl. rewrite length_app, Hx, Nat2Z.inj_add.
    by rewrite <- Zplus_mod_idemp_r, IH. }
  unfold fields. rewrite E. simpl. by rewrite chunks_unique.
Qed.

Lemma noirM_bind_ok {A B} (m : noirM A) (f : A -> noirM B) b :
  m ≫= f = Some (Ok b) <-> exists a, m = Some (Ok a) /\ f a = Some (Ok b).
Proof.
  destruct m as [[a|e]|]; simpl; (split; [|intros (a'&[=]&E); by subst]); [eauto|done|done].
Qed.

Lemma classify_ok r v :
  classify_response r = Some (Ok v) <-> r = CircuitVerifyResponse (bool_decide (v = Valid)).
Proof.
  destruct r as [[]|m|]; simpl.
  - split; [intros [= <-]|]; [done|]. intros [= E]. by rewrite (bool_decide_eq_true_1 _ (eq_sym E)).
  - split; [intros [= <-]|]; [done|]. intros [= E]. symmetry in E. apply bool_decide_eq_false_1 in E.
    by destruct v.
  - split; [|done]. by intros ?%noir_failure_not_ok.
  - split; [|done]. by intros ?%noir_failure_not_ok.
Qed.

Lemma encode_request_ok p input_fields proof_fields request :
  encode_request p input_fields proof_fields = Some (Ok request) <->
  to_vec_named [build_command p input_fields proof_fields] = Ok request.
Proof.
  unfold encode_request. destruct (to_vec_named _); simpl.
  - unfold mret, noirM_ret. split; congruence.
  - split; [|done]. by intros ?%noir_failure_not_ok.
Qed.

Lemma build_command_asks p input_fields proof_fields :
  concat proof_fields = proof p -> concat input_fields = public_inputs p ->
  Forall (fun f => length f = 32%nat) proof_fields -> Forall (fun f => length f = 32%nat) input_fields ->
  asks_for p (build_command p input_fields proof_fields).
Proof. intros. split_and!; simpl; try done. by apply Forall_app. Qed.

(** What asks for the proof is the command the verifier builds. *)
Lemma asks_for_inv p command :
  asks_for p command ->
  fields (proof p) = mret (cv_proof command) /\ fields (public_inputs p) = mret (cv_public_inputs command) /\
  command = build_command p (cv_public_inputs command) (cv_proof command).
Proof.
  intros (Hk&Hi&Hp&[L1 L2]%Forall_app&Hs). rewrite <- Hp, <- Hi. split_and!; [by apply fields_complete..|].
  destruct command; simpl in *. by subst.
Qed.

(** A verdict is the process's answer to exactly this proof. *)
Lemma noir_verify_answered self start p v :
  noir_verify self start p = Some (Ok v) <-> answered_with self start p v.
Proof.
  unfold noir_verify, answered_with. case_bool_decide as Ht; cbn [negb].
  2: { split; [by intros ?%noir_failure_not_ok|]. by intros [? _]. }
  rewrite noirM_bind_ok. setoid_rewrite noirM_bind_ok. setoid_rewrite noirM_bind_ok.
  setoid_rewrite noirM_bind_ok. setoid_rewrite encode_request_ok. setoid_rewrite classify_ok.
  setoid_rewrite exchange_spec. setoid_rewrite exchange_bytes_spec. setoid_rewrite cleanup_ok. split.
  - intros (pf&Ef&inf&Ei&request&Er&r&(cmd&Hcmd&Hl&Hs&Hi&Ho&Hc&Hcl&body&(Hw&header&rest&Hb)&Hr)&->).
    pose proof (fields_spec (proof p)) as F1. pose proof (fields_spec (public_inputs p)) as F2.
    rewrite Ef in F1. rewrite Ei in F2. destruct F1 as [C1 L1], F2 as [C2 L2]. split; [done|].
    exists cmd, (build_command p inf pf), request, (u32_to_le_bytes (len request)), header, body, rest.
    destruct Hb as (?&?&?). split_and!; try done; [by apply build_command_asks|].
    apply le32_to_le_bytes; [|done]. unfold len in *. lia.
  - intros (_&cmd&command&request&prefix&header&body&rest&Hcmd&Hs&Hi&Ho&Ha&Er&Hpre&Hw&Hb&H4&Hn&Hr&Hc&Hcl).
    assert (len request <= u32_max) as Hl.
    { destruct Hpre as (b0&b1&b2&b3&_&->). pose proof (byte_to_Z_range b0). pose proof (byte_to_Z_range b1).
      pose proof (byte_to_Z_range b2). pose proof (byte_to_Z_range b3). unfold u32_max. lia. }
    apply le32_to_le_bytes in Hpre as ->; [|unfold len in *; lia].
    apply asks_for_inv in Ha as (Ef&Ei&Ec). exists (cv_proof command). split; [done|].
    exists (cv_public_inputs command). split; [done|]. exists request. rewrite <- Ec. split; [done|].
    eexists. split; [|done]. exists cmd. split_and!; try done. exists body. split; [|done]. split; [done|].
    exists header, rest. by split_and!.
Qed.

(** Everything else is a failure within the bounds, never a panic. *)
Lemma noir_verify_fails_well self start p : fails_well (noir_verify self start p) (fun _ => True).
Proof.
  unfold noir_verify. case_bool_decide as Ht; cbn [negb]; [|by apply fails_well_failure].
  eapply fails_well_bind; [apply fields_spec|]. intros pf _.
  eapply fails_well_bind; [apply fields_spec|]. intros inf _.
  apply (fails_well_bind _ _ (fun _ => True)).
  { unfold encode_request. destruct (to_vec_named _); [done|by apply fails_well_failure]. }
  intros request _. eapply fails_well_bind; [apply exchange_fails_well|]. intros r _.
  destruct r; unfold classify_response, protocol; [done|by apply fails_well_failure..].
Qed.

(** C6: The verdict of the Noir verifier is the process's answer to exactly this proof, and
    everything else is a bounded failure. [verify] gives a verdict if and only if the proof is a
    Noir proof, the configured program was started as [msgpack run], it was written one frame, the
    length of the request and the request for this verification key, proof and public inputs cut
    into 32-byte fields, it was not cancelled and was cleaned up, and the first frame it wrote back,
    of at most 1 MiB, is a [CircuitVerifyResponse] with that verdict.
    In every other case it ends with a failure within the diagnostic bounds; it never panics. *)
Theorem noir_verdict_exact (self : NoirVerifier) (start : ProcessCommand -> Child) (p : Proof_) :
  (forall v, noir_verify self start p = Some (Ok v) <-> answered_with self start p v) /\
  match noir_verify self start p with
  | Some (Ok _) => True
  | Some (Err f) => failure_wf f
  | None => False
  end.
Proof. split; [intros v; apply noir_verify_answered|exact (noir_verify_fails_well self start p)]. Qed.
End verdict.

Lemma check_version_ok out success status v :
  check_version out success status = Ok v ->
  success = true /\ (length out <= MAX_VERSION_BYTES)%nat /\ from_utf8 out = Ok (of_text out) /\ v = trim (of_text out).
Proof.
  unfold check_version. destruct success; cbn [negb]; [|done].
  destruct (Nat.ltb_spec MAX_VERSION_BYTES (length (take (MAX_VERSION_BYTES + 1) out))) as [|Hlen]; [done|].
  assert (length out <= MAX_VERSION_BYTES)%nat as Hout by (rewrite length_take in Hlen; lia).
  rewrite take_ge by lia. intros Hv. split; [done|]. split; [done|].
  unfold from_utf8 in *. destruct (utf8_check _ _ _) as [[]|]; [|discriminate Hv].
  injection Hv as <-. done.
Qed.

Lemma read_version_ok w path v :
  read_version w path = Ok v ->
  exists out status, nw_run w = VersionExited out true status /\ (length out <= MAX_VERSION_BYTES)%nat /\
    from_utf8 out = Ok (of_text out) /\ v = trim (of_text out).
Proof.
  unfold read_version. destruct (nw_spawn _ _); simpl; [|done]. destruct (nw_stdout w); simpl; [|done].
  destruct (nw_run w) as [|e|out success status]; [by destruct (version_cleanup w)..|].
  intros (->&Hl&Hu&->)%check_version_ok. by exists out, status.
Qed.

(** A verifier is only built on an executable binary of the pinned version, beside its CRS. *)
Lemma noir_initialize_checked w config v :
  NoirVerifier_initialize w config = Ok v ->
  (exists dir mode, nw_metadata w (binary_path config) = Ok (true, dir, mode) /\ Z.land mode 73 <> 0) /\
  (exists file mode, nw_metadata w (path_join (home_directory config) ".bb-crs") = Ok (file, true, mode)) /\
  (exists out status, nw_run w = VersionExited out true status /\ (length out <= MAX_VERSION_BYTES)%nat /\
    trim (of_text out) = BB_VERSION) /\
  v = mkNoirVerifier (binary_path config) (home_directory config) (threads_per_job config).
Proof.
  unfold NoirVerifier_initialize. destruct (nw_metadata w (binary_path config)) as [[[file dir] mode]|] eqn:Em;
    cbn; [|done]. destruct file; cbn; [|done]. destruct (Z.eqb_spec (Z.land mode 73) 0); [done|].
  destruct (nw_metadata w (path_join _ _)) as [[[f d] m]|] eqn:Ec; cbn; [|done]. destruct d; cbn; [|done].
  destruct (read_version w _) as [version|] eqn:Er; cbn; [|done]. case_bool_decide as Hv; cbn; [|done].
  intros [= <-]. apply read_version_ok in Er as (out&status&Ho&Hl&_&->).
  split; [by do 2 eexists|]. split; [by do 2 eexists|]. split; [by exists out, status|done].
Qed.
