(* ===== verification/Submission.v ===== *)
(** * Proof submission (src/src/submission.rs)

    [validate_submission] is a function. [submit] runs concurrently: Moka's [try_get_with]
    lets one caller per transaction hash work while the others wait for its result, so the
    service is a transition system of requests, of the two awaits of the work, of callers that
    are dropped, and of receipts that leave the cache. *)

From stdpp Require Import base gmap list strings pretty.
From S2P Require Import Prelude Types StdText Wire Samples ProofId StoreRecord Store Chain.

Definition MSG_SUBMIT_PROOF_TYPE_URL : string := "/pulsarchain.verification.v1.MsgSubmitProof".
Definition RECEIPT_CACHE_TTL : Z := from_secs (15 * 60).

Record ProofSubmission : Set := mkSubmission { sub_proof : Proof_; sub_tx_raw : bytes }.

Record SubmissionReceipt : Set := mkSubmissionReceipt
  { receipt_verification_id : VerificationId; receipt_transaction_hash : array 32 }.

Record ValidatedSubmission : Set := mkValidated {
  valid_verification_id : VerificationId;
  valid_transaction_hash : array 32;
  valid_proof : Proof_;
  valid_tx_raw : bytes
}.

Definition invalid (message : string) : Error := InvalidSubmission message.

Definition submission_component_hash (name : string) (b : bytes) : Result (array COMPONENT_HASH_LEN) :=
  ok_or (array_of COMPONENT_HASH_LEN b)
    (invalid (name +:+ " must be " +:+ pretty COMPONENT_HASH_LEN +:+ " bytes, got " +:+ pretty (length b))).

Definition refuse (b : bool) (message : string) : Result unit := if b then Err (invalid message) else Ok tt.

Section submission.
Context `{Libp2p, !Sha256, !ProstVarint, !Hex, !Message TxRaw, !Message TxBody, !Message AuthInfo, !Message MsgSubmitProof}.

(** The structure of the signed transaction: its one message. *)
Definition decode_transaction (tx_raw : bytes) : Result MsgSubmitProof :=
  tx ← map_err (fun e => invalid ("invalid TxRaw: " +:+ e)) (decode (M := TxRaw) tx_raw);
  _ ← refuse (bool_decide (body_bytes tx = [])) "TxRaw body_bytes must not be empty";
  _ ← refuse (bool_decide (auth_info_bytes tx = [])) "TxRaw auth_info_bytes must not be empty";
  body ← map_err (fun e => invalid ("invalid TxBody: " +:+ e)) (decode (M := TxBody) (body_bytes tx));
  auth ← map_err (fun e => invalid ("invalid AuthInfo: " +:+ e)) (decode (M := AuthInfo) (auth_info_bytes tx));
  _ ← refuse (bool_decide (signer_infos auth = [])) "AuthInfo must contain at least one signer_info";
  _ ← refuse (negb (length (signatures tx) =? length (signer_infos auth))%nat)
        ("signature count " +:+ pretty (length (signatures tx)) +:+ " does not match signer_info count "
          +:+ pretty (length (signer_infos auth)));
  _ ← refuse (existsb (fun s => bool_decide (s = [])) (signatures tx)) "transaction signatures must not be empty";
  match messages body with
  | [message] =>
      if negb (bool_decide (type_url message = MSG_SUBMIT_PROOF_TYPE_URL)) then
        Err (invalid ("unexpected transaction message type " +:+ type_url message))
      else
        message ← map_err (fun e => invalid ("invalid MsgSubmitProof: " +:+ e)) (decode (M := MsgSubmitProof) (any_value message));
        _ ← refuse (bool_decide (trim (signer message) = "")) "MsgSubmitProof signer must not be empty";
        Ok message
  | l => Err (invalid ("TxBody must contain exactly one MsgSubmitProof, got " +:+ pretty (length l) +:+ " messages"))
  end.

(** The message against the proof: its type and its three hashes. *)
Definition check_binding (message : MsgSubmitProof) (p : Proof_) : Result VerificationId :=
  message_type ← proof_type_try_from (msg_proof_type message);
  _ ← refuse (negb (bool_decide (message_type = proof_type p))) "proof type does not match MsgSubmitProof";
  proof_hash ← submission_component_hash "proof_hash" (msg_proof_hash message);
  public_inputs_hash ← submission_component_hash "public_inputs_hash" (msg_public_inputs_hash message);
  verification_key_hash ← submission_component_hash "verification_key_hash" (msg_verification_key_hash message);
  _ ← refuse (negb (bool_decide (proof_hash = sha256 (proof p)))) "proof bytes do not match proof_hash";
  _ ← refuse (negb (bool_decide (public_inputs_hash = sha256 (public_inputs p))))
        "public input bytes do not match public_inputs_hash";
  _ ← refuse (negb (bool_decide (verification_key_hash = sha256 (verification_key p))))
        "verification key bytes do not match verification_key_hash";
  Ok (from_component_hashes message_type proof_hash public_inputs_hash verification_key_hash).

Definition validate_submission (s : ProofSubmission) (max_proof_bytes max_transaction_bytes : Z)
  : Result ValidatedSubmission :=
  let id := verification_id (sub_proof s) in
  let proof_bytes := proof_encoded_len (sub_proof s) in
  if max_proof_bytes <? proof_bytes then Err (ProofTooLarge id proof_bytes max_proof_bytes)
  else if max_transaction_bytes <? len (sub_tx_raw s) then
    Err (TransactionTooLarge (len (sub_tx_raw s)) max_transaction_bytes)
  else
    message ← decode_transaction (sub_tx_raw s);
    descriptor_id ← check_binding message (sub_proof s);
    if negb (bool_decide (descriptor_id = id)) then Err (VerificationIdMismatch descriptor_id)
    else Ok (mkValidated id (sha256 (sub_tx_raw s)) (sub_proof s) (sub_tx_raw s)).

(** ** The service *)

(** What becomes visible outside, in order. *)
Inductive SEvent : Type :=
(** the store took the proof, or had it *)
| StoredProof (p : Proof_)
(** the transaction is handed to the local node, and its answer *)
| Sent (tx : bytes)
| Responded (tx : bytes) (response : Result BroadcastReceipt)
| AnsweredCaller (caller : nat) (r : Result SubmissionReceipt).

(** One evaluation of [try_get_with]: who works, on what, how far, and who waits. *)
Record Flight : Type := mkFlight {
  f_owner : nat;
  f_job : ValidatedSubmission;
  f_sent : bool;
  f_waiting : list (nat * ValidatedSubmission)
}.

Record SubmissionService : Type := mkService {
  sv_store : ProofStore;
  sv_max_proof_bytes : Z;
  sv_max_transaction_bytes : Z;
  (** the cached receipts, each with the time it was put *)
  sv_receipts : gmap (array 32) (SubmissionReceipt * Z);
  sv_flights : gmap (array 32) Flight;
  sv_now : Z;
  sv_log : list SEvent
}.

Definition SubmissionService_new (store : ProofStore) (max_proof_bytes max_transaction_bytes now : Z) : SubmissionService :=
  mkService store max_proof_bytes max_transaction_bytes ∅ ∅ now [].

Definition set_flights (m : gmap (array 32) Flight) (s : SubmissionService) : SubmissionService :=
  mkService (sv_store s) (sv_max_proof_bytes s) (sv_max_transaction_bytes s) (sv_receipts s) m (sv_now s) (sv_log s).
Definition add_events (l : list SEvent) (s : SubmissionService) : SubmissionService :=
  mkService (sv_store s) (sv_max_proof_bytes s) (sv_max_transaction_bytes s) (sv_receipts s) (sv_flights s)
    (sv_now s) (sv_log s ++ l).
Definition set_receipts (m : gmap (array 32) (SubmissionReceipt * Z)) (s : SubmissionService) : SubmissionService :=
  mkService (sv_store s) (sv_max_proof_bytes s) (sv_max_transaction_bytes s) m (sv_flights s) (sv_now s) (sv_log s).
Definition set_store (st : ProofStore) (s : SubmissionService) : SubmissionService :=
  mkService st (sv_max_proof_bytes s) (sv_max_transaction_bytes s) (sv_receipts s) (sv_flights s) (sv_now s) (sv_log s).
Definition set_now (now : Z) (s : SubmissionService) : SubmissionService :=
  mkService (sv_store s) (sv_max_proof_bytes s) (sv_max_transaction_bytes s) (sv_receipts s) (sv_flights s) now (sv_log s).

(** A receipt that has not expired ([time_to_live]). *)
Definition live_receipt (h : array 32) (s : SubmissionService) : option SubmissionReceipt :=
  '(r, put) ← sv_receipts s !! h;
  if sv_now s <? put + RECEIPT_CACHE_TTL then Some r else None.

(** [submit], up to the first await of the work. *)
Definition submit (caller : nat) (submission : ProofSubmission) (s : SubmissionService) : SubmissionService :=
  match validate_submission submission (sv_max_proof_bytes s) (sv_max_transaction_bytes s) with
  | Err e => add_events [AnsweredCaller caller (Err e)] s
  | Ok v =>
      let h := valid_transaction_hash v in
      match live_receipt h s with
      | Some r => add_events [AnsweredCaller caller (Ok r)] s
      | None =>
          match sv_flights s !! h with
          | Some f =>
              set_flights (<[h := mkFlight (f_owner f) (f_job f) (f_sent f) (f_waiting f ++ [(caller, v)])]>
                (sv_flights s)) s
          | None => set_flights (<[h := mkFlight caller v false []]> (sv_flights s)) s
          end
      end
  end.

(** The evaluation is over: everybody gets its result, a receipt is cached. *)
Definition finish_flight (h : array 32) (f : Flight) (r : Result SubmissionReceipt) (s : SubmissionService)
  : SubmissionService :=
  let s := set_flights (delete h (sv_flights s)) s in
  let s := match r with Ok receipt => set_receipts (<[h := (receipt, sv_now s)]> (sv_receipts s)) s | Err _ => s end in
  add_events (map (fun c => AnsweredCaller c r) (f_owner f :: map fst (f_waiting f))) s.

(** The store call of the work; without another await the transaction is sent. *)
Definition flight_store (h : array 32) (stored_at : Instant) (f : Flight) (s : SubmissionService) : SubmissionService :=
  match insert_local_proof stored_at (valid_proof (f_job f)) Rpc (sv_store s) with
  | (Ok _, st) =>
      add_events [StoredProof (valid_proof (f_job f)); Sent (valid_tx_raw (f_job f))]
        (set_flights (<[h := mkFlight (f_owner f) (f_job f) true (f_waiting f)]> (sv_flights s)) (set_store st s))
  | (Err e, st) => finish_flight h f (Err e) (set_store st s)
  end.

(** What is made of the answer of [broadcast_tx_sync]. *)
Definition relay_result (v : ValidatedSubmission) (response : Result BroadcastReceipt) : Result SubmissionReceipt :=
  response ← response;
  if negb (bool_decide (transaction_hash response = valid_transaction_hash v)) then Err TransactionHashMismatch
  else if negb (receipt_code response =? 0) then
    Err (CheckTxRejected (hex_encode (arr_data (valid_transaction_hash v))) (codespace response) (receipt_code response)
      (Chain.log response))
  else Ok (mkSubmissionReceipt (valid_verification_id v) (valid_transaction_hash v)).

(** The answer to the relay. *)
Definition flight_relay (h : array 32) (answer : Answer BroadcastResponse) (f : Flight) (s : SubmissionService)
  : SubmissionService :=
  let response := broadcast_tx_sync answer in
  finish_flight h f (relay_result (f_job f) response) (add_events [Responded (valid_tx_raw (f_job f)) response] s).

(** The owner's request is dropped: the next one that waits starts its own work. *)
Definition drop_owner (h : array 32) (f : Flight) (s : SubmissionService) : SubmissionService :=
  match f_waiting f with
  | [] => set_flights (delete h (sv_flights s)) s
  | (caller, v) :: rest => set_flights (<[h := mkFlight caller v false rest]> (sv_flights s)) s
  end.

Definition drop_waiter (h : array 32) (caller : nat) (f : Flight) (s : SubmissionService) : SubmissionService :=
  set_flights (<[h := mkFlight (f_owner f) (f_job f) (f_sent f)
    (filter (fun w => w.1 <> caller) (f_waiting f))]> (sv_flights s)) s.

(** ** Steps *)

Inductive sub_step : SubmissionService -> SubmissionService -> Prop :=
| sub_submit s caller submission : sub_step s (submit caller submission s)
| sub_store s h f stored_at :
    sv_flights s !! h = Some f -> f_sent f = false -> sub_step s (flight_store h stored_at f s)
| sub_relay s h f answer :
    sv_flights s !! h = Some f -> f_sent f = true -> sub_step s (flight_relay h answer f s)
| sub_drop_owner s h f : sv_flights s !! h = Some f -> sub_step s (drop_owner h f s)
| sub_drop_waiter s h f caller : sv_flights s !! h = Some f -> sub_step s (drop_waiter h caller f s)
(** the cache gives up a receipt *)
| sub_evict s h : sub_step s (set_receipts (delete h (sv_receipts s)) s)
| sub_tick s now : sv_now s <= now -> sub_step s (set_now now s)
(** the rest of the process uses the store *)
| sub_environment s st : sub_step s (set_store st s).

Inductive sub_reachable (s0 : SubmissionService) : SubmissionService -> Prop :=
| sub_here : sub_reachable s0 s0
| sub_next s s' : sub_reachable s0 s -> sub_step s s' -> sub_reachable s0 s'.

(** ** What validation means *)

(** A signed transaction of one [MsgSubmitProof]: the parts of the Cosmos transaction are there and
    decode, every signer has a signature, and the one message has the type and a signer. *)
Definition signed_message (tx_raw : bytes) (message : MsgSubmitProof) : Prop :=
  exists (tx : TxRaw) (body : TxBody) (auth : AuthInfo) (any : Any),
    decode tx_raw = Ok tx /\ body_bytes tx <> [] /\ auth_info_bytes tx <> [] /\
    decode (body_bytes tx) = Ok body /\ decode (auth_info_bytes tx) = Ok auth /\
    signer_infos auth <> [] /\ length (signatures tx) = length (signer_infos auth) /\
    Forall (fun signature => signature <> []) (signatures tx) /\
    messages body = [any] /\ type_url any = "/pulsarchain.verification.v1.MsgSubmitProof" /\
    decode (any_value any) = Ok message /\ trim (signer message) <> "".

(** The signed transaction registers exactly this proof: the chain's number of its type, and the
    digests of its parts. *)
Definition binds (tx_raw : bytes) (p : Proof_) : Prop :=
  exists message, signed_message tx_raw message /\
    msg_proof_type message = match proof_type p with MinaPickles => 1 | NoirBarretenberg => 2 end /\
    msg_proof_hash message = arr_data (sha256 (proof p)) /\
    msg_public_inputs_hash message = arr_data (sha256 (public_inputs p)) /\
    msg_verification_key_hash message = arr_data (sha256 (verification_key p)).

Lemma refuse_ok b message u : refuse b message = Ok u <-> b = false.
Proof. unfold refuse. destruct b, u; naive_solver. Qed.

(** Decoding accepts exactly the signed transactions of one message. *)
Lemma decode_transaction_ok tx_raw message :
  decode_transaction tx_raw = Ok message <-> signed_message tx_raw message.
Proof.
  unfold decode_transaction, signed_message.
  repeat (setoid_rewrite result_bind_ok || setoid_rewrite map_err_ok || setoid_rewrite refuse_ok).
  setoid_rewrite bool_decide_eq_false. split.
  - intros (tx & Etx & u1 & Hb & u2 & Ha & body & Ebody & auth & Eauth & u3 & Hs & u4 & Hl & u5 & Hne & Hm).
    destruct (messages body) as [|any [|]] eqn:Em; try done.
    case_bool_decide as Hu; [cbn [negb] in Hm|done].
    apply result_bind_ok in Hm as (m & Edec & Hm). apply map_err_ok in Edec.
    apply result_bind_ok in Hm as (u6 & Hsig & [= <-]). apply refuse_ok, bool_decide_eq_false in Hsig.
    exists tx, body, auth, any. apply negb_false_iff, Nat.eqb_eq in Hl. split_and!; try done.
    apply Forall_forall. intros x Hx ->. apply list_elem_of_In in Hx.
    apply not_true_iff_false in Hne. apply Hne, existsb_exists. exists []. split; [done|]. by apply bool_decide_true.
  - intros (tx & body & auth & any & Etx & Hb & Ha & Ebody & Eauth & Hs & Hl & Hne & Em & Hu & Edec & Hsig).
    exists tx. split; [done|]. exists tt. split; [done|]. exists tt. split; [done|]. exists body. split; [done|].
    exists auth. split; [done|]. exists tt. split; [done|]. exists tt.
    split; [by apply negb_false_iff, Nat.eqb_eq|]. exists tt. split.
    { apply not_true_iff_false. intros (x & Hx & Ex)%existsb_exists. apply bool_decide_eq_true in Ex as ->.
      apply list_elem_of_In in Hx. by apply (proj1 (Forall_forall _ _) Hne _ Hx). }
    rewrite Em, bool_decide_true by done. simpl. rewrite Edec. simpl. unfold refuse. by rewrite bool_decide_false.
Qed.

Lemma component_hash_data name b a : submission_component_hash name b = Ok a -> b = arr_data a.
Proof.
  unfold submission_component_hash. destruct (array_of COMPONENT_HASH_LEN b) as [a'|] eqn:E; simpl; [|done].
  intros [= <-]. by apply array_of_Some in E.
Qed.

Lemma check_binding_ok message p id :
  check_binding message p = Ok id ->
  msg_proof_type message = match proof_type p with MinaPickles => 1 | NoirBarretenberg => 2 end /\
  msg_proof_hash message = arr_data (sha256 (proof p)) /\
  msg_public_inputs_hash message = arr_data (sha256 (public_inputs p)) /\
  msg_verification_key_hash message = arr_data (sha256 (verification_key p)) /\ id = verification_id p.
Proof.
  unfold check_binding, refuse. destruct (proof_type_try_from _) as [t|] eqn:Et; simpl; [|done].
  apply proof_type_try_from_spec in Et. case_bool_decide; simpl; [subst t|done].
  destruct (submission_component_hash _ (msg_proof_hash message)) as [a|] eqn:Ea; simpl; [|done].
  destruct (submission_component_hash _ (msg_public_inputs_hash message)) as [b|] eqn:Eb; simpl; [|done].
  destruct (submission_component_hash _ (msg_verification_key_hash message)) as [c|] eqn:Ec; simpl; [|done].
  apply component_hash_data in Ea, Eb, Ec.
  destruct (decide (a = sha256 (proof p))) as [Eq|N]; [rewrite (bool_decide_true _ Eq); subst|by rewrite (bool_decide_false _ N)]; simpl.
  destruct (decide (b = sha256 (public_inputs p))) as [Eq|N]; [rewrite (bool_decide_true _ Eq); subst|by rewrite (bool_decide_false _ N)]; simpl.
  destruct (decide (c = sha256 (verification_key p))) as [Eq|N]; [rewrite (bool_decide_true _ Eq); subst|by rewrite (bool_decide_false _ N)]; simpl.
  intros [= <-]. by rewrite Ea, Eb, Ec.
Qed.

Lemma validated_submission_binds s max_proof max_tx v :
  validate_submission s max_proof max_tx = Ok v ->
  proof_encoded_len (sub_proof s) <= max_proof /\ len (sub_tx_raw s) <= max_tx /\
  binds (sub_tx_raw s) (sub_proof s) /\
  v = mkValidated (verification_id (sub_proof s)) (sha256 (sub_tx_raw s)) (sub_proof s) (sub_tx_raw s).
Proof.
  unfold validate_submission. destruct (Z.ltb_spec max_proof (proof_encoded_len (sub_proof s))); [done|].
  destruct (Z.ltb_spec max_tx (len (sub_tx_raw s))); [done|].
  destruct (decode_transaction _) as [message|] eqn:Ed; simpl; [apply decode_transaction_ok in Ed|done].
  destruct (check_binding _ _) as [id|] eqn:Ec; simpl; [|done].
  apply check_binding_ok in Ec as (Ht&Hp&Hi&Hk&->). rewrite bool_decide_true by done. simpl. intros [= <-].
  split_and!; [done..| |done]. exists message. by split_and!.
Qed.

(** Nothing that binds is refused, up to the sizes. *)
Lemma binding_submission_validated s max_proof max_tx :
  proof_encoded_len (sub_proof s) <= max_proof -> len (sub_tx_raw s) <= max_tx ->
  binds (sub_tx_raw s) (sub_proof s) ->
  validate_submission s max_proof max_tx =
    Ok (mkValidated (verification_id (sub_proof s)) (sha256 (sub_tx_raw s)) (sub_proof s) (sub_tx_raw s)).
Proof.
  intros Hp Ht (message&Ed%decode_transaction_ok&Et%proof_type_try_from_spec&Ep&Ei&Ek). unfold validate_submission, check_binding, submission_component_hash, refuse.
  destruct (Z.ltb_spec max_proof (proof_encoded_len (sub_proof s))); [lia|].
  destruct (Z.ltb_spec max_tx (len (sub_tx_raw s))); [lia|]. rewrite Ed. simpl. rewrite Et. simpl.
  rewrite bool_decide_true by done. simpl. rewrite Ep, Ei, Ek, !array_of_data. simpl.
  rewrite !bool_decide_true by done. simpl. by rewrite bool_decide_true.
Qed.

(** ** The invariant *)

(** The local node accepted the transaction of the receipt, after its proof was stored. *)
Definition accepted (log : list SEvent) (r : SubmissionReceipt) : Prop :=
  exists p tx response, StoredProof p ∈ log /\ binds tx p /\ Responded tx (Ok response) ∈ log /\
    receipt_code response = 0 /\ transaction_hash response = sha256 tx /\
    r = mkSubmissionReceipt (verification_id p) (sha256 tx).

(** What an event needs before it. *)
Definition event_ok (before : list SEvent) (e : SEvent) : Prop :=
  match e with
  | Sent tx => exists p, StoredProof p ∈ before /\ binds tx p
  | Responded tx _ => Sent tx ∈ before
  | AnsweredCaller _ (Ok r) => accepted before r
  | _ => True
  end.

Definition log_ok (log : list SEvent) : Prop :=
  forall before e after, log = before ++ e :: after -> event_ok before e.

Lemma accepted_app log l r : accepted log r -> accepted (log ++ l) r.
Proof.
  intros (p&tx&response&Hp&Hb&Hr&E). exists p, tx, response. rewrite !elem_of_app.
  split; [by left|]. split; [done|]. by split; [left|].
Qed.

Lemma log_ok_snoc log e : log_ok log -> event_ok log e -> log_ok (log ++ [e]).
Proof.
  intros Hl He before e' after E. destruct after as [|x after' _] using rev_ind.
  - by apply app_inj_tail in E as [-> ->].
  - rewrite app_comm_cons, app_assoc in E. apply app_inj_tail in E as [E ->]. by eapply Hl.
Qed.

Lemma log_ok_answers log r callers :
  log_ok log -> (forall receipt, r = Ok receipt -> accepted log receipt) ->
  log_ok (log ++ map (fun c => AnsweredCaller c r) callers).
Proof.
  revert log. induction callers as [|c callers IH]; intros log Hl Hr; simpl; [by rewrite app_nil_r|].
  rewrite (cons_middle _ log), app_assoc. apply IH.
  - apply log_ok_snoc; [done|]. simpl. destruct r; [by apply Hr|done].
  - intros receipt E. by apply accepted_app, Hr.
Qed.

(** The work of a flight under the key [h]. *)
Definition job_ok (h : array 32) (v : ValidatedSubmission) : Prop :=
  valid_transaction_hash v = h /\ h = sha256 (valid_tx_raw v) /\ binds (valid_tx_raw v) (valid_proof v) /\
  valid_verification_id v = verification_id (valid_proof v).

Definition flight_ok (log : list SEvent) (h : array 32) (f : Flight) : Prop :=
  job_ok h (f_job f) /\ Forall (fun w => job_ok h (snd w)) (f_waiting f) /\
  (f_sent f = true -> StoredProof (valid_proof (f_job f)) ∈ log /\ Sent (valid_tx_raw (f_job f)) ∈ log).

Record service_inv (s : SubmissionService) : Prop := mkServiceInv {
  inv_flights : forall h f, sv_flights s !! h = Some f -> flight_ok (sv_log s) h f /\ live_receipt h s = None;
  inv_receipts : forall h r t, sv_receipts s !! h = Some (r, t) -> accepted (sv_log s) r /\ receipt_transaction_hash r = h;
  inv_log : log_ok (sv_log s)
}.

Lemma flight_ok_app log l h f : flight_ok log h f -> flight_ok (log ++ l) h f.
Proof.
  intros (J&W&S). split; [done|]. split; [done|]. intros E. rewrite !elem_of_app. destruct (S E); auto.
Qed.

(** A step that only adds valid events. *)
Lemma inv_add_events l s :
  service_inv s -> log_ok (sv_log s ++ l) -> service_inv (add_events l s).
Proof.
  intros [F R L] Hl. split; [..|done]; simpl.
  - intros h f E. destruct (F h f E). split; [by apply flight_ok_app|done].
  - intros h r t E. destruct (R h r t E). split; [by apply accepted_app|done].
Qed.

Lemma inv_insert_flight h f s :
  service_inv s -> flight_ok (sv_log s) h f -> live_receipt h s = None ->
  service_inv (set_flights (<[h := f]> (sv_flights s)) s).
Proof.
  intros [F R L] Hf Hr. split; [|done..]. intros h' f'. simpl.
  rewrite lookup_insert_Some. intros [[<- <-]|[_ E]]; [done|by apply F].
Qed.

Lemma inv_delete_flight h s : service_inv s -> service_inv (set_flights (delete h (sv_flights s)) s).
Proof.
  intros [F R L]. split; [|done..]. intros h' f'. simpl. rewrite lookup_delete_Some. intros [_ E]. by apply F.
Qed.

Lemma submit_inv caller submission s : service_inv s -> service_inv (submit caller submission s).
Proof.
  intros I. unfold submit. destruct (validate_submission _ _ _) as [v|e] eqn:Ev.
  2: { apply inv_add_events; [done|]. by apply log_ok_snoc; [apply I|]. }
  apply validated_submission_binds in Ev as (_&_&Hb&->). simpl.
  destruct (live_receipt _ s) as [r|] eqn:Er.
  - apply inv_add_events; [done|]. apply log_ok_snoc; [apply I|]. simpl.
    unfold live_receipt in Er. destruct (sv_receipts s !! _) as [[r' t]|] eqn:Es; simpl in Er; [|done].
    case_match; [|done]. simplify_eq. by eapply inv_receipts.
  - destruct (sv_flights s !! _) as [f|] eqn:Ef; apply inv_insert_flight; try done.
    destruct (inv_flights _ I _ _ Ef) as [(J&W&S) _]. split; [done|]. split; [|done].
    apply Forall_app. split; [done|]. by repeat constructor.
Qed.

Lemma finish_flight_inv h f r s :
  service_inv s -> (forall receipt, r = Ok receipt -> accepted (sv_log s) receipt /\ receipt_transaction_hash receipt = h) ->
  service_inv (finish_flight h f r s).
Proof.
  intros I Hr. unfold finish_flight.
  set (s1 := set_flights (delete h (sv_flights s)) s).
  assert (service_inv s1) as I1 by by apply inv_delete_flight.
  assert (sv_flights s1 !! h = None) as Hn by apply lookup_delete_eq.
  apply inv_add_events.
  - destruct r as [receipt|]; [|done]. destruct I1 as [F R L]. split; [|..|done]; simpl.
    + intros h' f' E. destruct (F h' f' E) as [Hf Hl]. split; [done|]. unfold live_receipt in *. simpl.
      rewrite lookup_insert_ne; [exact Hl|]. intros ->. simpl in *. congruence.
    + intros h' r' t. rewrite lookup_insert_Some. intros [[<- [= <- <-]]|[_ E]]; [by apply Hr|by eapply R].
  - assert (sv_log (match r with Ok receipt => set_receipts (<[h := (receipt, sv_now s1)]> (sv_receipts s1)) s1 | Err _ => s1 end)
      = sv_log s) as -> by by destruct r.
    apply log_ok_answers; [apply I|]. intros receipt E. by apply Hr.
Qed.

Lemma flight_store_inv h stored_at f s :
  service_inv s -> sv_flights s !! h = Some f -> service_inv (flight_store h stored_at f s).
Proof.
  intros I Ef. destruct (inv_flights _ I _ _ Ef) as [(J&W&S) Hl]. unfold flight_store.
  destruct (insert_local_proof _ _ _ _) as [[x|e] st];
    [|apply finish_flight_inv; [destruct I; by split|by intros]].
  set (s1 := set_store st s). assert (service_inv s1) as I1 by (destruct I; by split).
  set (l := [StoredProof (valid_proof (f_job f)); Sent (valid_tx_raw (f_job f))]).
  assert (log_ok (sv_log s ++ l)) as Hlog.
  { unfold l. rewrite (cons_middle _ (sv_log s)), app_assoc. apply log_ok_snoc; [apply log_ok_snoc; [apply I|done]|].
    exists (valid_proof (f_job f)). split; [|apply J]. rewrite elem_of_app, list_elem_of_singleton. by right. }
  apply (inv_insert_flight h (mkFlight (f_owner f) (f_job f) true (f_waiting f)) (add_events l s1)).
  - by apply inv_add_events.
  - split; [done|]. split; [done|]. intros _. simpl. unfold l. rewrite !elem_of_app, !elem_of_cons. tauto.
  - exact Hl.
Qed.

Lemma relay_result_ok v response r :
  relay_result v response = Ok r ->
  exists x, response = Ok x /\ transaction_hash x = valid_transaction_hash v /\ receipt_code x = 0 /\
    r = mkSubmissionReceipt (valid_verification_id v) (valid_transaction_hash v).
Proof.
  unfold relay_result. destruct response as [x|]; simpl; [|done]. case_bool_decide; simpl; [|done].
  destruct (Z.eqb_spec (receipt_code x) 0); simpl; [|done]. intros [= <-]. by exists x.
Qed.

Lemma flight_relay_inv h answer f s :
  service_inv s -> sv_flights s !! h = Some f -> f_sent f = true -> service_inv (flight_relay h answer f s).
Proof.
  intros I Ef Es. destruct (inv_flights _ I _ _ Ef) as [((Hh&Hx&Hb&Hv)&W&S) Hl]. destruct (S Es) as [Sp St].
  unfold flight_relay. apply finish_flight_inv.
  - apply inv_add_events; [done|]. apply log_ok_snoc; [apply I|done].
  - intros receipt (x&Ex&Et&Ec&->)%relay_result_ok. simpl. split; [|done].
    exists (valid_proof (f_job f)), (valid_tx_raw (f_job f)), x. rewrite !elem_of_app, !list_elem_of_singleton.
    split_and!; [by left|done| |done|congruence|by rewrite Hv, Hh, Hx]. right. by rewrite Ex.
Qed.

Lemma live_receipt_later h now s : sv_now s <= now -> live_receipt h s = None -> live_receipt h (set_now now s) = None.
Proof.
  unfold live_receipt. simpl. intros Hn. destruct (sv_receipts s !! h) as [[r t]|]; simpl; [|done].
  destruct (Z.ltb_spec (sv_now s) (t + RECEIPT_CACHE_TTL)); [done|]. destruct (Z.ltb_spec now (t + RECEIPT_CACHE_TTL)); [lia|done].
Qed.

Lemma sub_step_inv s s' : sub_step s s' -> service_inv s -> service_inv s'.
Proof.
  intros Hs I. destruct Hs as [s caller submission|s h f at_ Ef Es|s h f answer Ef Es|s h f Ef|s h f caller Ef|s h|s now Hn|s st].
  - by apply submit_inv.
  - by apply flight_store_inv.
  - by apply flight_relay_inv.
  - unfold drop_owner. destruct (inv_flights _ I _ _ Ef) as [(J&W&S) Hl].
    destruct (f_waiting f) as [|[caller v] rest]; [by apply inv_delete_flight|].
    apply Forall_cons in W as [Jv Wr]. by apply inv_insert_flight; [|split_and!|].
  - destruct (inv_flights _ I _ _ Ef) as [(J&W&S) Hl]. apply inv_insert_flight; [done| |done].
    split; [done|]. split; [|done]. rewrite Forall_forall in *. intros w' [_ Hw]%list_elem_of_filter. by apply W.
  - destruct I as [F R L]. split; [..|done]; simpl.
    + intros h' f E. destruct (F h' f E) as [Hf Hl]. split; [done|]. unfold live_receipt in *. simpl.
      rewrite lookup_delete. by case_decide.
    + intros h' r t. rewrite lookup_delete_Some. intros [_ E]. by eapply R.
  - destruct I as [F R L]. split; [|done..]. intros h f E. destruct (F h f E). split; [done|]. by apply live_receipt_later.
  - by destruct I.
Qed.

Lemma sub_reachable_inv store max_proof max_tx now s :
  sub_reachable (SubmissionService_new store max_proof max_tx now) s -> service_inv s.
Proof.
  intros R. induction R as [|s s' R IH Hs]; [|by eapply sub_step_inv].
  split; [done..|]. intros before e after E. by destruct before.
Qed.

(** C7: A submission is relayed only after its proof is stored, and a receipt is only given for
    what the local node accepted. In every reachable state of the service, with any number of
    concurrent requests, dropped requests, cache evictions and store activity: a transaction that
    was sent binds a proof that was stored before; a receipt that was answered is the one of a
    stored proof and a transaction binding it, whose hash the node confirmed with code 0 before;
    and no work is under way for a transaction that has a live receipt. *)
Theorem submission_stored_before_relay (store : ProofStore) (max_proof max_tx now : Z) (s : SubmissionService) :
  sub_reachable (SubmissionService_new store max_proof max_tx now) s ->
  (forall before tx after, sv_log s = before ++ Sent tx :: after ->
     exists p, StoredProof p ∈ before /\ binds tx p) /\
  (forall before caller r after, sv_log s = before ++ AnsweredCaller caller (Ok r) :: after -> accepted before r) /\
  (forall h f, sv_flights s !! h = Some f -> h = sha256 (valid_tx_raw (f_job f)) /\ live_receipt h s = None).
Proof.
  intros R. apply sub_reachable_inv in R as [F _ L]. split; [|split].
  - intros before tx after E. exact (L before (Sent tx) after E).
  - intros before caller r after E. exact (L before (AnsweredCaller caller (Ok r)) after E).
  - intros h f E. destruct (F h f E) as [((_&Hx&_)&_) Hl]. done.
Qed.

(** C15: Validation accepts exactly the submissions whose signed transaction registers the proof:
    within the two size limits, a submission is accepted if and only if the transaction is complete,
    has a non-empty signature for each of its signers, of which there is one at least, and its one
    message is a [MsgSubmitProof] with a signer, the proof's type and the SHA-256 digests of its three
    parts; what is accepted carries the content-derived id and the digest of the transaction's exact
    bytes. *)
Theorem validation_exact (s : ProofSubmission) (max_proof max_tx : Z) (v : ValidatedSubmission) :
  validate_submission s max_proof max_tx = Ok v <->
  proof_encoded_len (sub_proof s) <= max_proof /\ len (sub_tx_raw s) <= max_tx /\
  binds (sub_tx_raw s) (sub_proof s) /\
  v = mkValidated (verification_id (sub_proof s)) (sha256 (sub_tx_raw s)) (sub_proof s) (sub_tx_raw s).
Proof.
  split; [apply validated_submission_binds|]. intros (Hp&Ht&Hb&->). by apply binding_submission_validated.
Qed.
End submission.

(** ** A concrete submission *)

Section sample.
#[local] Existing Instance sample_libp2p.
#[local] Existing Instance sample_sha256.
#[local] Existing Instance sample_varint.
#[local] Existing Instance sample_hex.

Definition sample_msg : MsgSubmitProof :=
  mkMsgSubmitProof "consumer" (arr_data (sha256 (proof sample_proof))) (proof_type_i32 (proof_type sample_proof))
    (arr_data (sha256 (public_inputs sample_proof))) (arr_data (sha256 (verification_key sample_proof))).

(** A codec that knows one message, under one byte. *)
Definition one_message (M : Type) (b : byte) (m : M) : Message M := {|
  encode_to_vec _ := [b];
  encoded_len _ := 1;
  decode x := if bool_decide (x = [b]) then Ok m else Err "invalid message"
|}.

#[local] Instance sample_tx_raw : Message TxRaw :=
  one_message TxRaw Byte.x01 (mkTxRaw [Byte.x02] [Byte.x03] [[Byte.x05]]).
#[local] Instance sample_tx_body : Message TxBody :=
  one_message TxBody Byte.x02 (mkTxBody [mkAny MSG_SUBMIT_PROOF_TYPE_URL [Byte.x04]] "").
#[local] Instance sample_auth_info : Message AuthInfo :=
  one_message AuthInfo Byte.x03 (mkAuthInfo [mkSignerInfo None 0]).
#[local] Instance sample_msg_submit : Message MsgSubmitProof := one_message MsgSubmitProof Byte.x04 sample_msg.

Definition sample_submission : ProofSubmission := mkSubmission sample_proof [Byte.x01].
Definition sample_store : ProofStore := mkStore ∅ 0 [] 1000 1000 1000.
Definition sample_service : SubmissionService := SubmissionService_new sample_store 1000 1000 0.
Definition sample_hash : array 32 := sha256 [Byte.x01].
Definition sample_flight (sent : bool) : Flight :=
  mkFlight 7 (mkValidated (verification_id sample_proof) sample_hash sample_proof [Byte.x01]) sent [].

Lemma sample_binds : binds [Byte.x01] sample_proof.
Proof. exists sample_msg. split; [by apply decode_transaction_ok|]. split_and!; reflexivity. Qed.

Lemma sample_submit :
  submit 7 sample_submission sample_service = set_flights {[sample_hash := sample_flight false]} sample_service.
Proof.
  unfold submit. rewrite binding_submission_validated; [reflexivity|vm_compute; discriminate..|apply sample_binds].
Qed.

Lemma sample_insert : is_ok (fst (insert_local_proof 0 sample_proof Rpc sample_store)) = true.
Proof. vm_refl. Qed.

Lemma submission_stored_before_relay_witness :
  exists s, (exists p, StoredProof p ∈ [StoredProof sample_proof] /\ binds [Byte.x01] p) /\
    sv_log s = [StoredProof sample_proof] ++ [Sent [Byte.x01]].
Proof.
  pose (s1 := submit 7 sample_submission sample_service).
  pose (s2 := flight_store sample_hash 0 (sample_flight false) s1).
  assert (sv_flights s1 !! sample_hash = Some (sample_flight false)) as F1
    by (unfold s1; rewrite sample_submit; apply lookup_singleton_eq).
  assert (sub_reachable sample_service s2) as R
    by (eapply sub_next; [eapply sub_next; [apply sub_here|apply sub_submit]|by apply sub_store]).
  assert (sv_log s2 = [StoredProof sample_proof] ++ [Sent [Byte.x01]]) as L.
  { unfold s2, flight_store, s1. rewrite sample_submit. pose proof sample_insert as Ei. simpl.
    destruct (insert_local_proof _ _ _ _) as [[x|e] st]; [reflexivity|discriminate Ei]. }
  exists s2. split; [|exact L].
  destruct (submission_stored_before_relay sample_store 1000 1000 0 s2 R) as [P _]. exact (P _ _ [] L).
Defined.
End sample.
