(* ===== verification/Rpc.v ===== *)
(** * The RPC services
    (src/src/rpc/contract.rs, src/src/rpc/service.rs, the handlers of src/src/rpc/submission.rs)

    Requests and responses are the lists their protobuf messages repeat. Tonic and prost are
    foreign; the sizes of the messages are those of the proto3 wire format. *)

From stdpp Require Import base gmap list strings pretty.
From S2P Require Import Prelude Types StdText Wire ErrorText Samples ProofId ConfigTypes.
From S2P Require Import StoreRecord Store StoreProps StoreLimits Lifecycle Submission.

Definition MAX_VERIFICATION_IDS : nat := 512.
Definition MAX_RPC_MESSAGE_BYTES : Z := 256 * 1024.
Definition RESPONSE_MESSAGE_LIMIT : Z := 1024.

(** [tonic::Status], with the codes the services use. *)
Inductive Code : Set :=
| InvalidArgument
| ResourceExhausted
| FailedPrecondition
| Unavailable
| Internal.

Record Status : Set := mkStatus { status_code : Code; status_message : string }.

(** ** The verification service *)

Definition wire_verdict (v : VerificationVerdict) : Z :=
  match v with
  | Valid => wire_verdict_value VerdictValid
  | Invalid => wire_verdict_value VerdictInvalid
  end.

Definition wire_status (s : StoredVerificationStatus) : ProofVerificationStatus :=
  let '(phase, verdict, failure) :=
    match status s with
    | StatusUnavailable => (PhaseUnavailable, None, None)
    | StatusQueued => (PhaseQueued, None, None)
    | StatusVerifying => (PhaseVerifying, None, None)
    | StatusCompleted verdict => (PhaseCompleted, Some (wire_verdict verdict), None)
    | StatusFailed failure =>
        (PhaseFailed, None, Some (mkWireFailure (code failure) (message failure) (retryable failure)))
    end in
  mkProofVerificationStatus (as_bytes (status_id s)) (wire_phase_value phase)
    (default (wire_verdict_value VerdictUnspecified) verdict) failure.

Section contract.
Context `{Libp2p, !Sha256, !ProstVarint, !Hex, !Formatting}.

(** The loop of [parse_ids]. *)
Fixpoint parse_id_loop (raw_ids : list bytes) (seen : gset VerificationId) : Result (list VerificationId) :=
  match raw_ids with
  | [] => Ok []
  | raw_id :: raw_ids =>
      id ← verification_id_try_from raw_id;
      if bool_decide (id ∈ seen) then
        Err (InvalidVerificationRequest ("duplicate verification ID " +:+ verification_id_to_string id))
      else
        ids ← parse_id_loop raw_ids ({[id]} ∪ seen);
        Ok (id :: ids)
  end.

Definition parse_ids (raw_ids : list bytes) : Result (list VerificationId) :=
  if (MAX_VERIFICATION_IDS <? length raw_ids)%nat then
    Err (InvalidVerificationRequest ("at most " +:+ pretty MAX_VERIFICATION_IDS +:+ " verification IDs are allowed"))
  else parse_id_loop raw_ids ∅.

Definition get_verification_results (s : ProofStore) (verification_ids : list bytes) : Result (list WireResult) :=
  ids ← parse_ids verification_ids;
  Ok (map (fun r => mkWireResult (as_bytes (completed_id r)) (wire_verdict (verdict r)))
        (completed_results ids s)).

Definition get_proof_statuses (s : ProofStore) (verification_ids : list bytes)
  : Result (list ProofVerificationStatus) :=
  ids ← parse_ids verification_ids;
  Ok (map wire_status (statuses ids s)).

Definition rpc_status (e : Error) : Status :=
  match e with
  | InvalidVerificationId _ | InvalidVerificationRequest _ => mkStatus InvalidArgument (error_to_string e)
  | _ => mkStatus Internal "verification service request failed"
  end.

(** The two methods of [VerificationRpc]. *)
Definition VerificationRpc_get_verification_results (s : ProofStore) (ids : list bytes) : result Status (list WireResult) :=
  map_err rpc_status (get_verification_results s ids).
Definition VerificationRpc_get_proof_statuses (s : ProofStore) (ids : list bytes)
  : result Status (list ProofVerificationStatus) :=
  map_err rpc_status (get_proof_statuses s ids).

(** ** The submission service *)

Definition submission_status (e : Error) : Status :=
  match e with
  | InvalidSubmission _ | UnsupportedProofType _ | VerificationIdMismatch _ =>
      mkStatus InvalidArgument (error_to_string e)
  | ProofTooLarge _ _ _ | TransactionTooLarge _ _ => mkStatus ResourceExhausted (error_to_string e)
  | CheckTxRejected _ _ _ _ => mkStatus FailedPrecondition (error_to_string e)
  | ChainError _ => mkStatus Unavailable "local CometBFT RPC is unavailable"
  | _ => mkStatus Internal "submission service request failed"
  end.

(** [submit_proof] up to the call of the service: the permit the interceptor left, the request. *)
Definition submit_proof_request (permit : bool) (request : SubmitProofRequest) : result Status ProofSubmission :=
  if negb permit then Err (mkStatus Internal "submission admission permit is missing")
  else
    wire ← ok_or (submit_proof request) (mkStatus InvalidArgument "proof is required");
    p ← map_err submission_status (proof_try_from wire);
    Ok (mkSubmission p (submit_tx_raw request)).

(** The rest of [submit_proof]. *)
Definition submit_proof_response (r : Result SubmissionReceipt) : result Status SubmitProofResponse :=
  receipt ← map_err submission_status r;
  Ok (mkSubmitProofResponse (as_bytes (receipt_verification_id receipt)) (arr_data (receipt_transaction_hash receipt))).
End contract.

(** The semaphore of [SubmissionAdmission]: who holds a permit. *)
Record SubmissionAdmission : Set := mkAdmission { permits : Z; holders : list nat }.

Definition SubmissionAdmission_new (max_concurrent_requests : Z) : SubmissionAdmission :=
  mkAdmission max_concurrent_requests [].

(** The interceptor, before the request is decoded. *)
Definition admission_call (request : nat) (a : SubmissionAdmission) : result Status unit * SubmissionAdmission :=
  if permits a <=? 0 then (Err (mkStatus ResourceExhausted "submission concurrency limit reached"), a)
  else (Ok tt, mkAdmission (permits a - 1) (request :: holders a)).

(** The request ends, or is dropped, and with it its permit. *)
Definition admission_release (request : nat) (a : SubmissionAdmission) : SubmissionAdmission :=
  if bool_decide (request ∈ holders a)
  then mkAdmission (permits a + 1) (filter (fun r => r <> request) (holders a)) else a.

(** ** The sizes of the messages in proto3 *)

(** A string or bytes field, a message field (always written when it is there), a bool. *)
Definition proto3_string_field (tag : byte) (s : string) : bytes := proto3_bytes_field tag (text s).
Definition proto3_message_field (tag : byte) (b : bytes) : bytes := tag :: varint (len b) ++ b.
Definition proto3_bool_field (tag : byte) (b : bool) : bytes := if b then [tag; Byte.x01] else [].

Definition proto3_failure (f : WireFailure) : bytes :=
  proto3_string_field Byte.x0a (wire_code f) ++ proto3_string_field Byte.x12 (wire_message f)
    ++ proto3_bool_field Byte.x18 (wire_retryable f).

Definition proto3_status (s : ProofVerificationStatus) : bytes :=
  proto3_bytes_field Byte.x0a (status_verification_id s) ++ proto3_enum_field Byte.x10 (status_phase s)
    ++ proto3_enum_field Byte.x18 (status_verdict s)
    ++ match status_failure s with Some f => proto3_message_field Byte.x22 (proto3_failure f) | None => [] end.

Definition proto3_result (r : WireResult) : bytes :=
  proto3_bytes_field Byte.x0a (result_verification_id r) ++ proto3_enum_field Byte.x10 (result_verdict r).

(** A message that repeats one message field, and one that repeats [bytes]. *)
Definition proto3_repeated {A} (f : A -> bytes) (l : list A) : bytes :=
  concat (map (fun a => proto3_message_field Byte.x0a (f a)) l).

Definition proto3_submit_request (r : SubmitProofRequest) : bytes :=
  match submit_proof r with Some p => proto3_message_field Byte.x0a (proto3_proof p) | None => [] end
    ++ proto3_bytes_field Byte.x12 (submit_tx_raw r).

(** ** The contract *)

#[local] Instance as_bytes_inj : Inj eq eq as_bytes.
Proof. intros a b E. by apply array_ext. Qed.

Section contract_props.
Context `{Libp2p, !Sha256, !ProstVarint, !Hex, !Formatting}.

(** A request within the bounds of the protocol. *)
Definition valid_request (raw_ids : list bytes) : Prop :=
  (length raw_ids <= 512)%nat /\ Forall (fun b => length b = 32%nat) raw_ids /\ NoDup raw_ids.

(** The errors of a request that is not. *)
Definition request_error (e : Error) : bool :=
  match e with InvalidVerificationId _ | InvalidVerificationRequest _ => true | _ => false end.

Lemma try_from_cases b :
  (exists id, verification_id_try_from b = Ok id /\ as_bytes id = b /\ length b = 32%nat) \/
  (exists m, verification_id_try_from b = Err (InvalidVerificationId m)) /\ length b <> 32%nat.
Proof.
  destruct (verification_id_try_from b) as [id|e] eqn:E.
  - left. exists id. pose proof (proj1 (verification_id_try_from_spec b id) E) as Eb.
    split_and!; [done..|]. rewrite <- Eb. apply array_length.
  - right. unfold verification_id_try_from in E. destruct (array_of _ b) eqn:Ea; [done|]. simplify_eq.
    split; [eauto|]. by apply array_of_None in Ea.
Qed.

Lemma parse_id_loop_spec raw_ids (seen : gset VerificationId) :
  match parse_id_loop raw_ids seen with
  | Ok ids => map as_bytes ids = raw_ids /\ NoDup ids /\ forall id, id ∈ ids -> id ∉ seen
  | Err e => request_error e = true /\
      ~ (Forall (fun b => length b = 32%nat) raw_ids /\ NoDup raw_ids /\ forall id, as_bytes id ∈ raw_ids -> id ∉ seen)
  end.
Proof.
  revert seen. induction raw_ids as [|b raw_ids IH]; intros seen; cbn [parse_id_loop].
  { split; [done|]. split; [constructor|]. by intros id ?%elem_of_nil. }
  destruct (try_from_cases b) as [(id&->&Eb&Hl)|[[m ->] Hl]]; cbn.
  2: { split; [done|]. intros [Hf _]. by apply Forall_cons in Hf as [? _]. }
  case_bool_decide as Hs.
  { split; [done|]. intros (_&_&Hn). apply (Hn id); [rewrite Eb; left|done]. }
  specialize (IH ({[id]} ∪ seen)). destruct (parse_id_loop raw_ids _) as [ids|e]; cbn.
  - destruct IH as (Hm&Hd&Hn). split; [by rewrite Eb, Hm|]. split.
    + constructor; [|done]. intros Hin. apply Hn in Hin. set_solver.
    + intros id'. rewrite elem_of_cons. intros [->|Hin]; [done|]. apply Hn in Hin. set_solver.
  - destruct IH as [He Hx]. split; [done|]. intros (Hf&Hd&Hn). apply Hx.
    apply Forall_cons in Hf as [_ Hf]. apply NoDup_cons in Hd as [Hb Hd]. split; [done|]. split; [done|].
    intros id' Hin. apply not_elem_of_union. split; [|apply Hn; by right].
    apply not_elem_of_singleton. intros ->. by rewrite Eb in Hin.
Qed.

Lemma parse_ids_spec raw_ids :
  match parse_ids raw_ids with
  | Ok ids => map as_bytes ids = raw_ids /\ NoDup ids /\ valid_request raw_ids
  | Err e => request_error e = true /\ ~ valid_request raw_ids
  end.
Proof.
  unfold parse_ids, valid_request, MAX_VERIFICATION_IDS. destruct (Nat.ltb_spec 512 (length raw_ids)).
  { split; [done|]. intros [? _]. lia. }
  pose proof (parse_id_loop_spec raw_ids ∅) as S. destruct (parse_id_loop raw_ids ∅) as [ids|e].
  - destruct S as (Hm&Hd&_). split; [done|]. split; [done|]. subst raw_ids. split; [done|]. split.
    + apply Forall_forall. intros b (id&->&_)%list_elem_of_fmap. apply array_length.
    + by apply (NoDup_fmap_2 as_bytes).
  - destruct S as [He Hx]. split; [done|]. intros (_&Hf&Hd). apply Hx. split; [done|]. split; [done|]. set_solver.
Qed.

(** The local status, read back from the wire. *)
Definition status_of_wire (s : ProofVerificationStatus) : option VerificationStatus :=
  if status_phase s =? 1 then Some StatusUnavailable
  else if status_phase s =? 2 then Some StatusQueued
  else if status_phase s =? 3 then Some StatusVerifying
  else if status_phase s =? 4 then
    if status_verdict s =? 1 then Some (StatusCompleted Valid)
    else if status_verdict s =? 2 then Some (StatusCompleted Invalid) else None
  else if status_phase s =? 5 then
    f ← status_failure s; Some (StatusFailed (mkFailure (wire_code f) (wire_message f) (wire_retryable f)))
  else None.

(** The documented meaning of the fields: a verdict only when completed, a failure only when failed. *)
Definition status_fields_ok (s : ProofVerificationStatus) : Prop :=
  1 <= status_phase s <= 5 /\ (status_verdict s <> 0 <-> status_phase s = 4) /\
  (is_Some (status_failure s) <-> status_phase s = 5).

Lemma wire_status_spec s :
  status_of_wire (wire_status s) = Some (status s) /\ status_fields_ok (wire_status s) /\
  status_verification_id (wire_status s) = as_bytes (status_id s).
Proof.
  unfold status_fields_ok. destruct s as [id [| | |[]|[]]]; cbn; (split; [done|]); (split; [|done]);
    (split; [lia|]); split; split; (done || lia || (intros [? ?]; done) || eauto).
Qed.

Lemma completed_result_status s id r :
  (a ← get id s; match verification (metadata (arc_value a)) with
     | Some (Completed v) => Some (mkCompleted id v) | _ => None end) = Some r <->
  completed_id r = id /\ status_of s id = StatusCompleted (verdict r).
Proof.
  unfold status_of. destruct (get id s) as [a|]; simpl; [|by split; [|intros []]].
  destruct (verification _) as [[| |v|f]|]; simpl; split; try by (intros [? [=]] || done).
  - by intros [= <-].
  - intros [E [= ->]]. by destruct r; simpl in *; subst.
Qed.

Lemma elem_of_completed_results s ids r :
  r ∈ completed_results ids s <-> completed_id r ∈ ids /\ status_of s (completed_id r) = StatusCompleted (verdict r).
Proof.
  unfold completed_results. rewrite list_elem_of_omap. setoid_rewrite completed_result_status. split.
  - intros (id&Hin&<-&Hs). done.
  - intros [Hin Hs]. by exists (completed_id r).
Qed.

Lemma completed_results_NoDup s ids :
  NoDup ids -> NoDup (map (fun r => as_bytes (completed_id r)) (completed_results ids s)).
Proof.
  intros Hd. rewrite <- (map_map completed_id as_bytes). apply (NoDup_fmap_2 as_bytes).
  unfold completed_results. induction Hd as [|id ids Hn Hd IH]; simpl; [constructor|].
  destruct (get id s ≫= _) as [r|] eqn:E; [|done]. apply completed_result_status in E as [Ei _]. simpl.
  constructor; [|done]. rewrite Ei. intros (r'&E'&Hin)%list_elem_of_fmap.
  apply (elem_of_completed_results s ids r') in Hin as [Hin _]. by rewrite <- E' in Hin.
Qed.

(** The numbers of the verdicts in the protocol. *)
Definition verdict_number (v : VerificationVerdict) : Z := match v with Valid => 1 | Invalid => 2 end.

Lemma elem_of_wire_results s ids x :
  x ∈ map (fun r => mkWireResult (as_bytes (completed_id r)) (wire_verdict (verdict r))) (completed_results ids s) <->
  exists id v, x = mkWireResult (as_bytes id) (verdict_number v) /\ as_bytes id ∈ map as_bytes ids /\
    state_of s id = Some (Completed v).
Proof.
  assert (forall id v, status_of s id = StatusCompleted v <-> state_of s id = Some (Completed v)) as Hst.
  { intros id v. rewrite status_of_state_of. destruct (state_of s id) as [[]|]; simpl; naive_solver. }
  rewrite list_elem_of_fmap. setoid_rewrite elem_of_completed_results. setoid_rewrite Hst. split.
  - intros ([id v]&->&Hin&Hs). exists id, v. split; [by destruct v|]. split; [|done].
    apply list_elem_of_fmap. eauto.
  - intros (id&v&->&(id'&Ei&Hin)%list_elem_of_fmap&Hs). apply array_ext in Ei. subst id'.
    exists (mkCompleted id v). split; [by destruct v|done].
Qed.

Lemma wire_results_sublist s ids :
  map result_verification_id (map (fun r => mkWireResult (as_bytes (completed_id r)) (wire_verdict (verdict r)))
    (completed_results ids s)) `sublist_of` map as_bytes ids.
Proof.
  rewrite map_map. unfold completed_results. induction ids as [|id ids IH]; simpl; [constructor|].
  destruct (get id s ≫= _) as [r|] eqn:E; simpl; [|by apply sublist_cons].
  apply completed_result_status in E as [-> _]. by apply sublist_skip.
Qed.

(** C30: The verification service answers what the store knows, in the terms of its protocol. A
    request of at most 512 distinct 32-byte ids is answered, any other is refused as an invalid
    argument. The results are exactly one per requested id whose record is completed, with the
    number of its verdict, in the order of the request, and nothing else. The statuses are one per
    requested id, in the order of the request; each has a phase, a verdict exactly when completed, a
    failure exactly when failed, and reads back as the state of the id's record. *)
Theorem rpc_contract (s : ProofStore) (raw_ids : list bytes) :
  match VerificationRpc_get_verification_results s raw_ids, VerificationRpc_get_proof_statuses s raw_ids with
  | Ok results, Ok l =>
      valid_request raw_ids /\
      (forall x, x ∈ results <-> exists id v, x = mkWireResult (as_bytes id) (verdict_number v) /\
         as_bytes id ∈ raw_ids /\ state_of s id = Some (Completed v)) /\
      map result_verification_id results `sublist_of` raw_ids /\
      NoDup (map result_verification_id results) /\
      map status_verification_id l = raw_ids /\ Forall status_fields_ok l /\
      (forall x id, x ∈ l -> status_verification_id x = as_bytes id ->
         status_of_wire x = Some (status_of_state (state_of s id)))
  | Err e1, Err e2 => ~ valid_request raw_ids /\ status_code e1 = InvalidArgument /\ e1 = e2
  | _, _ => False
  end.
Proof.
  unfold VerificationRpc_get_verification_results, VerificationRpc_get_proof_statuses,
    get_verification_results, get_proof_statuses.
  pose proof (parse_ids_spec raw_ids) as P. destruct (parse_ids raw_ids) as [ids|e]; cbn.
  2: { destruct P as [He Hn]. split; [done|]. split; [|done]. by destruct e. }
  destruct P as (Hm&Hd&Hv). split; [done|]. subst raw_ids. split; [|split; [|split; [|split; [|split]]]].
  - intros x. apply elem_of_wire_results.
  - apply wire_results_sublist.
  - rewrite map_map. apply completed_results_NoDup. done.
  - rewrite !map_map. unfold statuses. rewrite map_map. apply map_ext. intros id. apply wire_status_spec.
  - apply Forall_forall. intros x (y&->&_)%list_elem_of_fmap. apply wire_status_spec.
  - intros x id (y&->&(id'&->&_)%list_elem_of_fmap)%list_elem_of_fmap Ei.
    destruct (wire_status_spec (mkStoredStatus id' (status_of s id'))) as (Es&_&Eid).
    rewrite Eid in Ei. apply array_ext in Ei. simpl in Ei. subst id'. rewrite Es. f_equal. apply status_of_state_of.
Qed.

(** ** Sizes *)

Lemma leb128_length k fuel v :
  (1 <= k <= fuel)%nat -> 0 <= v < 128 ^ Z.of_nat k -> (length (leb128 fuel v) <= k)%nat.
Proof.
  revert fuel v. induction k as [|k IH]; intros fuel v Hk Hv; [lia|].
  destruct fuel as [|fuel]; [lia|]. cbn [leb128]. destruct (Z.ltb_spec v 128) as [|Hge]; [simpl; lia|].
  destruct k as [|k]; [change (128 ^ Z.of_nat 1) with 128 in Hv; lia|]. simpl.
  apply le_n_S, IH; [lia|]. replace (Z.of_nat (S (S k))) with (Z.of_nat (S k) + 1) in Hv by lia.
  rewrite Z.pow_add_r in Hv by lia. split; [apply Z.div_pos; lia|]. apply Z.div_lt_upper_bound; lia.
Qed.

Lemma varint_length k v : (1 <= k <= 10)%nat -> 0 <= v < 128 ^ Z.of_nat k -> len (varint v) <= Z.of_nat k.
Proof. intros Hk Hv. unfold len, varint. pose proof (leb128_length k 10 v Hk Hv). lia. Qed.

Lemma message_field_length k tag b :
  (1 <= k <= 10)%nat -> len b < 128 ^ Z.of_nat k -> len (proto3_message_field tag b) <= 1 + Z.of_nat k + len b.
Proof.
  intros Hk Hb. unfold proto3_message_field. rewrite len_cons, len_app. pose proof (len_nonneg b).
  pose proof (varint_length k (len b) Hk). lia.
Qed.

Lemma bytes_field_length k tag b :
  (1 <= k <= 10)%nat -> len b < 128 ^ Z.of_nat k -> len (proto3_bytes_field tag b) <= 1 + Z.of_nat k + len b.
Proof.
  intros Hk Hb. unfold proto3_bytes_field. pose proof (len_nonneg b). destruct (len b =? 0); [simpl; unfold len; simpl; lia|].
  by apply message_field_length.
Qed.

Lemma enum_field_length tag v : 0 <= v < 128 -> len (proto3_enum_field tag v) <= 2.
Proof.
  intros Hv. unfold proto3_enum_field. destruct (v =? 0); [unfold len; simpl; lia|].
  rewrite len_cons, Z.mod_small by lia. pose proof (varint_length 1 v). lia.
Qed.

Lemma repeated_length {A} (f : A -> bytes) k bound (l : list A) :
  (1 <= k <= 10)%nat -> bound < 128 ^ Z.of_nat k -> (forall a, a ∈ l -> len (f a) <= bound) ->
  len (proto3_repeated f l) <= len l * (1 + Z.of_nat k + bound).
Proof.
  intros Hk Hb Hf. unfold proto3_repeated. induction l as [|a l IH]; [done|]. cbn [map concat].
  rewrite len_app, len_cons. pose proof (Hf a ltac:(left)) as Ha.
  pose proof (message_field_length k Byte.x0a (f a) Hk ltac:(lia)).
  assert (len (concat (map (fun a => proto3_message_field Byte.x0a (f a)) l)) <= len l * (1 + Z.of_nat k + bound)).
  { apply IH. intros a' Hin. apply Hf. by right. }
  lia.
Qed.

Lemma text_len s : len (text s) = str_len s.
Proof. unfold len, str_len. by rewrite length_text. Qed.

(** The largest status: a failure with the longest code and message. *)
Lemma status_length s :
  (forall f, status s = StatusFailed f -> failure_wf f) -> len (proto3_status (wire_status s)) <= 370.
Proof.
  intros Hf. unfold proto3_status. rewrite !len_app.
  assert (len (as_bytes (status_id s)) = 32) as Hid by (unfold len, as_bytes; by rewrite array_length).
  pose proof (bytes_field_length 1 Byte.x0a (as_bytes (status_id s)) ltac:(lia) ltac:(rewrite Hid; done)) as H1'.
  destruct (wire_status_spec s) as (_&(Hp&_)&Eid). rewrite Eid.
  pose proof (enum_field_length Byte.x10 (status_phase (wire_status s)) ltac:(lia)) as H2'.
  assert (0 <= status_verdict (wire_status s) < 128) as Hv by (destruct s as [id [| | |[]|]]; cbn; lia).
  pose proof (enum_field_length Byte.x18 (status_verdict (wire_status s)) Hv) as H3'.
  assert (len match status_failure (wire_status s) with
    | Some f => proto3_message_field Byte.x22 (proto3_failure f) | None => [] end <= 330) as H4'; [|lia].
  destruct s as [id [| | |v|f]]; try (cbn; unfold len; simpl; lia). cbn [wire_status status status_failure].
  destruct (failure_wf_bounds f (Hf f eq_refl)) as [Hc Hm]. set (w := mkWireFailure _ _ _).
  assert (len (proto3_failure w) <= 327).
  { unfold proto3_failure, proto3_string_field, w. simpl. rewrite !len_app.
    pose proof (bytes_field_length 1 Byte.x0a (text (code f)) ltac:(lia) ltac:(rewrite text_len; lia)).
    pose proof (bytes_field_length 2 Byte.x12 (text (message f)) ltac:(lia) ltac:(rewrite text_len; lia)).
    rewrite !text_len in *. destruct (retryable f); unfold proto3_bool_field; unfold len in *; simpl in *; lia. }
  pose proof (message_field_length 2 Byte.x22 (proto3_failure w) ltac:(lia) ltac:(lia)). lia.
Qed.

Lemma status_of_failure_wf config s id f :
  reachable config s -> status_of s id = StatusFailed f -> failure_wf f.
Proof.
  intros R Es. apply reachable_inv in R. unfold status_of, get in Es.
  destruct (records s !! id) as [a|] eqn:Ea; [|done]. pose proof (inv_records _ R id a Ea) as W.
  destruct (verification _) as [[| |v|f']|] eqn:Ev; try done. simplify_eq. by apply (wf_failure _ _ _ W).
Qed.

Lemma statuses_fit config s ids :
  reachable config s -> (length ids <= MAX_VERIFICATION_IDS)%nat ->
  len (proto3_repeated proto3_status (map wire_status (statuses ids s))) <= MAX_RPC_MESSAGE_BYTES.
Proof.
  intros R Hl. etrans.
  - apply (repeated_length proto3_status 2 370); [lia|done|].
    intros x (y&->&(id&->&_)%list_elem_of_fmap)%list_elem_of_fmap. apply status_length.
    intros f. simpl. by eapply status_of_failure_wf.
  - unfold len, MAX_RPC_MESSAGE_BYTES, MAX_VERIFICATION_IDS, statuses in *. rewrite !length_map. lia.
Qed.

Lemma results_fit s ids :
  (length ids <= MAX_VERIFICATION_IDS)%nat ->
  len (proto3_repeated proto3_result (map (fun r => mkWireResult (as_bytes (completed_id r)) (wire_verdict (verdict r)))
    (completed_results ids s))) <= MAX_RPC_MESSAGE_BYTES.
Proof.
  intros Hl. etrans.
  - apply (repeated_length proto3_result 1 36); [lia|done|].
    intros x (r&->&_)%list_elem_of_fmap. unfold proto3_result. rewrite len_app. simpl.
    assert (len (as_bytes (completed_id r)) = 32) as Hid by (unfold len, as_bytes; by rewrite array_length).
    pose proof (bytes_field_length 1 Byte.x0a (as_bytes (completed_id r)) ltac:(lia) ltac:(rewrite Hid; done)).
    pose proof (enum_field_length Byte.x10 (wire_verdict (verdict r)) ltac:(destruct (verdict r); simpl; lia)). lia.
  - pose proof (length_omap_le (fun id => a ← get id s; match verification (metadata (arc_value a)) with
      | Some (Completed v) => Some (mkCompleted id v) | _ => None end) ids).
    unfold len, MAX_RPC_MESSAGE_BYTES, MAX_VERIFICATION_IDS, completed_results in *. rewrite length_map. lia.
Qed.

Lemma ids_fit raw_ids : valid_request raw_ids -> len (proto3_repeated id raw_ids) <= MAX_RPC_MESSAGE_BYTES.
Proof.
  intros (Hl&Hf&_). etrans.
  - apply (repeated_length id 1 32); [lia|done|]. intros b Hb. rewrite Forall_forall in Hf.
    unfold len. simpl. rewrite Hf by done. lia.
  - unfold len, MAX_RPC_MESSAGE_BYTES, MAX_VERIFICATION_IDS in *. lia.
Qed.

(** C39: The message limits of the verification server never cut a legal exchange: a valid
    request, and the answers to it from any store the operations lead to, fit its 256 KiB. *)
Theorem rpc_messages_fit (config : ProofStoreConfig) (s : ProofStore) (raw_ids : list bytes) :
  reachable config s -> valid_request raw_ids ->
  len (proto3_repeated id raw_ids) <= MAX_RPC_MESSAGE_BYTES /\
  (exists results, get_verification_results s raw_ids = Ok results /\
     len (proto3_repeated proto3_result results) <= MAX_RPC_MESSAGE_BYTES) /\
  (exists l, get_proof_statuses s raw_ids = Ok l /\ len (proto3_repeated proto3_status l) <= MAX_RPC_MESSAGE_BYTES).
Proof.
  intros R Hv. split; [by apply ids_fit|]. unfold get_verification_results, get_proof_statuses.
  pose proof (parse_ids_spec raw_ids) as P. destruct (parse_ids raw_ids) as [ids|e]; [|by destruct P].
  destruct P as (Hm&_&Hl&_). rewrite <- Hm, length_map in Hl.
  split; (eexists; split; [reflexivity|]); [by apply results_fit|by eapply statuses_fit].
Qed.

(** The request limit of the submission server admits every submission within the two limits:
    sixteen bytes are enough for the two tags and lengths, up to 2^49 bytes each. *)
Lemma submission_request_fits `{!VarintLaw} p tx_raw max_proof max_tx limit :
  proof_encoded_len p <= max_proof -> len tx_raw <= max_tx -> max_proof < 2 ^ 49 -> max_tx < 2 ^ 49 ->
  len (proof p) < 2 ^ 64 -> len (public_inputs p) < 2 ^ 64 -> len (verification_key p) < 2 ^ 64 ->
  request_limit max_proof max_tx = Some limit ->
  len (proto3_submit_request (mkSubmitProofRequest (Some (wire_of_proof p)) tx_raw)) <= limit.
Proof.
  intros Hp Ht Hmp Hmt Ha Hb Hc Hlim.
  assert (limit = max_proof + max_tx + 16) as ->.
  { unfold request_limit, checked_add in Hlim. destruct (max_proof + max_tx <=? usize_max); simpl in Hlim; [|done].
    destruct (_ <=? _); simpl in Hlim; [|done]. injection Hlim as <-. done. }
  unfold proto3_submit_request. cbn [submit_proof submit_tx_raw]. rewrite len_app.
  assert (proof_encoded_len p = len (proto3_proof (wire_of_proof p))) as Ep.
  { pose proof (@proto3_proof_len _ _ p). lia. }
  pose proof (message_field_length 7 Byte.x0a (proto3_proof (wire_of_proof p)) ltac:(lia) ltac:(simpl; lia)).
  pose proof (bytes_field_length 7 Byte.x12 tx_raw ltac:(lia) ltac:(simpl; lia)). lia.
Qed.
End contract_props.

(** Permits and holders add up: never more requests are under way than were allowed. *)
Lemma admission_call_bound max request a :
  permits a + len (holders a) = max -> 0 <= permits a ->
  let a' := snd (admission_call request a) in
  permits a' + len (holders a') = max /\ 0 <= permits a' /\ len (holders a') <= max /\
  (is_ok (fst (admission_call request a)) = true <-> len (holders a) < max).
Proof.
  intros Hm Hp. unfold admission_call. destruct (Z.leb_spec (permits a) 0); unfold len in *; simpl; split_and!; try lia;
    split; (done || lia).
Qed.

Lemma admission_release_bound max request a :
  permits a + len (holders a) = max -> 0 <= permits a -> NoDup (holders a) ->
  let a' := admission_release request a in permits a' + len (holders a') = max /\ 0 <= permits a'.
Proof.
  intros Hm Hp Hd. unfold admission_release. case_bool_decide as Hin; [|done]. simpl. split; [|lia].
  assert (S (length (filter (fun r => r <> request) (holders a))) = length (holders a)) as El; [|unfold len in *; lia].
  clear Hm Hp. induction Hd as [|x l Hn Hd IH]; [by apply elem_of_nil in Hin|].
  rewrite filter_cons. apply elem_of_cons in Hin as [->|Hin].
  - rewrite decide_False by tauto. simpl. f_equal. clear IH. induction l as [|y l IHl]; [done|].
    apply not_elem_of_cons in Hn as [Hy Hn]. apply NoDup_cons in Hd as [_ Hd].
    rewrite filter_cons, decide_True by done. simpl. by rewrite IHl.
  - rewrite decide_True by (intros ->; done). simpl. by rewrite IH.
Qed.

Section witness.
#[local] Existing Instance sample_libp2p.
#[local] Existing Instance sample_sha256.
#[local] Existing Instance sample_varint.
#[local] Existing Instance sample_hex.
#[local] Instance sample_formatting : Formatting := {|
  join_error_to_string _ := "task failed";
  str_debug s := s;
  socket_addr_to_string _ := "address"
|}.

Lemma rpc_messages_fit_witness :
  exists l, get_proof_statuses sample_store4 [as_bytes sample_id] = Ok l /\
    len (proto3_repeated proto3_status l) <= MAX_RPC_MESSAGE_BYTES.
Proof.
  refine (proj2 (proj2 (rpc_messages_fit StoreProps.sample_config sample_store4 [as_bytes sample_id]
    sample_store4_reachable _))).
  split; [unfold MAX_VERIFICATION_IDS; simpl; lia|]. split; [repeat constructor; apply array_length|].
  repeat constructor. intros Hin. by apply elem_of_nil in Hin.
Defined.
End witness.
