(* ===== verification/P2pIdentity.v ===== *)
(** * Validator identity and authorization
    (src/src/p2p/identity.rs, src/src/p2p/authorization.rs)

    The file system, [serde_json], base64 and Ed25519 are foreign. *)

From stdpp Require Import base gmap list strings pretty.
From S2P Require Import Prelude Types Wire Samples ConfigTypes ProofId Chain.

Definition ED25519_PUBLIC_KEY_LEN : nat := 32.
Definition ED25519_COMET_PRIVATE_KEY_LEN : nat := 64.
Definition ED25519_PUBLIC_TYPES : list string := ["tendermint/PubKeyEd25519"; "cometbft/PubKeyEd25519"].
Definition ED25519_PRIVATE_TYPES : list string := ["tendermint/PrivKeyEd25519"; "cometbft/PrivKeyEd25519"].

Record EncodedKey : Set := mkEncodedKey { key_type : string; key_value : string }.
Record ValidatorKeyFile : Set := mkValidatorKeyFile
  { address : string; pub_key : EncodedKey; priv_key : EncodedKey }.

(** What [fs::metadata] tells: whether it is a file, and the mode bits. *)
Record Metadata : Set := mkFileMetadata { is_file : bool; mode : Z }.

(** The foreign functions. *)
Class IdentityLib `{Libp2p} := {
  fs_metadata : string -> result string Metadata;
  fs_read_to_string : string -> result string string;
  json_key_file : string -> result string ValidatorKeyFile;
  base64_decode : string -> result string bytes;
  Keypair : Type;
  (** [Keypair::ed25519_from_bytes], and the bytes of its public half *)
  keypair_from_bytes : bytes -> result string Keypair;
  keypair_public : Keypair -> result string bytes;
  keypair_peer_id : Keypair -> PeerId;
  (** [ed25519::PublicKey::try_from_bytes], then [PeerId::from_public_key] *)
  peer_of_public_key : bytes -> result string PeerId;
  octal : Z -> string
}.

Section identity.
Context `{IdentityLib}.

Definition ensure_key_type (actual : string) (expected : list string) (label : string) : Result unit :=
  if bool_decide (actual ∈ expected) then Ok tt
  else Err (P2pIdentity ("unsupported validator " +:+ label +:+ " key type: " +:+ actual)).

Definition decode_key (value : string) (expected_len : nat) (label : string) : Result bytes :=
  decoded ← map_err (fun e => P2pIdentity ("invalid base64 " +:+ label +:+ " key: " +:+ e))
    (base64_decode value);
  if negb (length decoded =? expected_len)%nat then
    Err (P2pIdentity (label +:+ " key must be " +:+ pretty expected_len +:+ " bytes, got "
      +:+ pretty (length decoded)))
  else Ok decoded.

Definition load_validator_identity (path : string) : Result Keypair :=
  metadata ← map_err (fun e => P2pIdentity ("failed to inspect " +:+ path +:+ ": " +:+ e)) (fs_metadata path);
  if negb (is_file metadata) then Err (P2pIdentity ("validator key path is not a file: " +:+ path))
  else if negb (Z.land (mode metadata) 63 =? 0) then
    Err (P2pIdentity ("validator key " +:+ path +:+ " must not be accessible by group or others (mode "
      +:+ octal (Z.land (mode metadata) 511) +:+ ")"))
  else
    contents ← map_err (fun e => P2pIdentity ("failed to read " +:+ path +:+ ": " +:+ e))
      (fs_read_to_string path);
    encoded ← map_err (fun e => P2pIdentity ("failed to parse " +:+ path +:+ ": " +:+ e))
      (json_key_file contents);
    _ ← ensure_key_type (key_type (pub_key encoded)) ED25519_PUBLIC_TYPES "public";
    _ ← ensure_key_type (key_type (priv_key encoded)) ED25519_PRIVATE_TYPES "private";
    public ← decode_key (key_value (pub_key encoded)) ED25519_PUBLIC_KEY_LEN "public";
    private ← decode_key (key_value (priv_key encoded)) ED25519_COMET_PRIVATE_KEY_LEN "private";
    keypair ← map_err (fun e => P2pIdentity ("invalid Ed25519 private key: " +:+ e))
      (keypair_from_bytes (take ED25519_PUBLIC_KEY_LEN private));
    derived ← map_err (fun e => P2pIdentity ("invalid Ed25519 public key: " +:+ e)) (keypair_public keypair);
    if negb (bool_decide (derived = public)) then
      Err (P2pIdentity "validator public and private keys do not match")
    else Ok keypair.

Definition peer_id_from_ed25519 (public_key : bytes) : Result PeerId :=
  map_err (fun e => P2pAuthorization ("invalid validator key: " +:+ e)) (peer_of_public_key public_key).

(** *** [ValidatorSetClient] *)

Context `{HeightText}.

Definition load_at (validators : Z -> Answer ValidatorsResponse) (height : Z) : Result (gset PeerId) :=
  keys ← validator_public_keys height validators;
  l ← collect_results (fun key => peer_id_from_ed25519 (arr_data key)) keys;
  let peers := list_to_set l : gset PeerId in
  if negb (Z.of_nat (size peers) =? len keys) then
    Err (P2pAuthorization "validator set contains duplicate peer identities")
  else Ok peers.

Definition load (client : PulsarClient) (status : Answer StatusResponse)
  (validators : Z -> Answer ValidatorsResponse) : Result (gset PeerId) :=
  s ← client_status client status;
  load_at validators (latest_height s).

(** *** Lemmas *)

(** A key is used only from a private file, and only if its two halves match. *)
Lemma identity_checked path k :
  load_validator_identity path = Ok k ->
  exists m text file, fs_metadata path = Ok m /\ is_file m = true /\ Z.land (mode m) 63 = 0 /\
    fs_read_to_string path = Ok text /\ json_key_file text = Ok file /\
    key_type (pub_key file) ∈ ED25519_PUBLIC_TYPES /\ key_type (priv_key file) ∈ ED25519_PRIVATE_TYPES /\
    exists public, base64_decode (key_value (pub_key file)) = Ok public /\ length public = 32%nat /\
      keypair_public k = Ok public.
Proof.
  unfold load_validator_identity, ensure_key_type, decode_key.
  destruct (fs_metadata path) as [m|]; simpl; [|done]. destruct (is_file m) eqn:Hf; simpl; [|done].
  destruct (Z.eqb_spec (Z.land (mode m) 63) 0); simpl; [|done].
  destruct (fs_read_to_string path) as [t|]; simpl; [|done].
  destruct (json_key_file t) as [file|] eqn:Hj; simpl; [|done].
  destruct (bool_decide (_ ∈ ED25519_PUBLIC_TYPES)) eqn:Ht; simpl; [|done].
  destruct (bool_decide (_ ∈ ED25519_PRIVATE_TYPES)) eqn:Ht'; simpl; [|done].
  rewrite bool_decide_eq_true in Ht, Ht'.
  destruct (base64_decode (key_value (pub_key file))) as [pub|] eqn:Hp; simpl; [|done].
  destruct (Nat.eqb_spec (length pub) ED25519_PUBLIC_KEY_LEN); simpl; [|done].
  destruct (base64_decode (key_value (priv_key file))) as [priv|]; simpl; [|done].
  destruct (negb _); simpl; [done|]. destruct (keypair_from_bytes _) as [k'|]; simpl; [|done].
  destruct (keypair_public k') as [d|] eqn:Hd; simpl; [|done]. case_bool_decide; simpl; [|done].
  intros [= <-]. subst d. exists m, t, file. split_and!; try done. exists pub. split_and!; done.
Qed.

Lemma collect_keys_ok keys unique u :
  collect_keys keys unique = Ok u -> size u = (size unique + length keys)%nat.
Proof.
  revert unique. induction keys as [|b keys IH]; intros unique; simpl; [intros [= <-]; lia|].
  destruct (array_of 32 b) as [k|]; simpl; [|done]. case_bool_decide; [done|]. intros E.
  rewrite (IH _ E), size_union, size_singleton by set_solver. lia.
Qed.

Lemma collect_results_length {A B} (f : A -> Result B) l bs :
  collect_results f l = Ok bs -> length bs = length l.
Proof.
  revert bs. induction l as [|a l IH]; intros bs; simpl; [by intros [= <-]|].
  destruct (f a); simpl; [|done]. destruct (collect_results f l); simpl; [|done].
  intros [= <-]. simpl. by rewrite (IH _ eq_refl).
Qed.

(** The allow-list has one peer per validator of the answer, which is for the height asked. *)
Lemma load_at_complete validators height peers :
  load_at validators height = Ok peers ->
  exists r, validators height = Answered (Ok r) /\ v_block_height r = height /\
    size peers = length (v_pub_keys r) /\ v_total r = len (v_pub_keys r).
Proof.
  unfold load_at, validator_public_keys, height_try_from. destruct (height <=? height_max); simpl; [|done].
  destruct (validators height) as [|[r|e]]; simpl; [done| |done].
  destruct (Z.eqb_spec (v_block_height r) height); simpl; [|done].
  destruct (v_total r <? 0); [done|]. destruct (Z.eqb_spec (v_total r) (len (v_pub_keys r))); simpl; [|done].
  destruct (collect_keys _ _) as [u|] eqn:Eu; simpl; [|done].
  destruct (collect_results _ _) as [l|] eqn:El; simpl; [|done].
  destruct (Z.eqb_spec (Z.of_nat (size (list_to_set l : gset PeerId))) (len (elements u))); simpl; [|done].
  intros [= <-]. exists r. split_and!; try done.
  apply collect_keys_ok in Eu. rewrite size_empty in Eu. unfold len in *. unfold size, set_size in Eu. simpl in Eu.
  lia.
Qed.
End identity.
