(* ===== verification/Listener.v ===== *)
(** * The Pulsar listener (src/src/listener.rs; ValidatorSetUpdater of src/src/p2p/service.rs)

    What the listener calls (CometBFT, the store, the driver, its stop token, its random
    numbers) answers from a world, by the number of the call. What it does to the rest of
    the process is logged. *)

From stdpp Require Import base gmap list strings pretty list_numbers.
From S2P Require Import Prelude Types StdText Wire ProofId ConfigTypes Chain P2pIdentity.

Definition PROOF_SUBMITTED_EVENT : string := "verification.proof_submitted".
Definition ACTIVE_PROOF_HEIGHTS : Z := 3.
Definition VERIFICATION_ID : string := "verification_id".
Definition PROOF_HASH : string := "proof_hash".
Definition PUBLIC_INPUTS_HASH : string := "public_inputs_hash".
Definition VERIFICATION_KEY_HASH : string := "verification_key_hash".
Definition SUBMISSION_HEIGHT : string := "submission_height".
Definition INDEX_IN_BLOCK : string := "index_in_block".
Definition PROOF_TYPE : string := "proof_type".

(** ** Events of a block *)

(** [attributes]. *)
Fixpoint attribute_map (l : list (string * string)) (values : gmap string string)
  : Result (gmap string string) :=
  match l with
  | [] => Ok values
  | (key, value) :: l =>
      if bool_decide (is_Some (values !! key)) then
        Err (InvalidChainContract ("duplicate " +:+ key +:+ " attribute in " +:+ PROOF_SUBMITTED_EVENT))
      else attribute_map l (<[key := value]> values)
  end.

Definition required (attributes : gmap string string) (key : string) : Result string :=
  ok_or (attributes !! key) (InvalidChainContract (PROOF_SUBMITTED_EVENT +:+ " is missing " +:+ key)).

Definition invalid_attribute (key error : string) : Error :=
  InvalidChainContract (PROOF_SUBMITTED_EVENT +:+ " has invalid " +:+ key +:+ ": " +:+ error).

Definition parse_hex `{Hex} (attributes : gmap string string) (key : string) : Result bytes :=
  value ← required attributes key;
  map_err (invalid_attribute key) (hex_decode value).

Definition parse_integer (low high : Z) (attributes : gmap string string) (key : string) : Result Z :=
  value ← required attributes key;
  map_err (fun e => invalid_attribute key (int_error_text e)) (parse_int low high value).
Definition parse_u64 := parse_integer 0 u64_max.
Definition parse_u32 := parse_integer 0 u32_max.
Definition parse_i32 := parse_integer i32_min i32_max.

Section events.
Context `{Sha256, Hex}.

(** The closure of [parse_proof_events]: the position it adds, and the id. *)
Definition parse_proof_event (height : Z) (event : CommittedEvent) (positions : gset Z)
  : Result (Z * VerificationId) :=
  a ← attribute_map (attributes event) ∅;
  submission_height ← parse_u64 a SUBMISSION_HEIGHT;
  index ← parse_u32 a INDEX_IN_BLOCK;
  _ ← validate_position submission_height index height;
  if bool_decide (index ∈ positions) then
    Err (InvalidChainContract ("duplicate proof index " +:+ pretty index +:+ " in committed block "
      +:+ pretty height))
  else
    proof_type ← parse_i32 a PROOF_TYPE;
    proof_hash ← parse_hex a PROOF_HASH;
    public_inputs_hash ← parse_hex a PUBLIC_INPUTS_HASH;
    verification_key_hash ← parse_hex a VERIFICATION_KEY_HASH;
    verification_id ← parse_hex a VERIFICATION_ID;
    id ← validate_descriptor proof_type proof_hash public_inputs_hash verification_key_hash verification_id;
    Ok (index, id).

Fixpoint parse_events (height : Z) (l : list CommittedEvent) (positions : gset Z)
  : Result (list VerificationId) :=
  match l with
  | [] => Ok []
  | event :: l =>
      if negb (bool_decide (kind event = PROOF_SUBMITTED_EVENT)) then parse_events height l positions
      else
        '(index, id) ← parse_proof_event height event positions;
        ids ← parse_events height l ({[index]} ∪ positions);
        Ok (id :: ids)
  end.

Definition parse_proof_events (block : CommittedBlock) : Result (list VerificationId) :=
  parse_events (block_height block) (block_events block) ∅.
End events.

(** [latest.saturating_sub(2).max(1)..=latest] *)
Definition active_heights (latest_height : Z) : list Z :=
  let low := Z.max (saturating_sub latest_height (ACTIVE_PROOF_HEIGHTS - 1)) 1 in
  seqZ low (latest_height - low + 1).

Definition validator_set_changed (previous : option (array 32)) (current : array 32) : bool :=
  negb (bool_decide (previous = Some current)).

Definition is_fatal (e : Error) : bool :=
  match e with
  | ChainIdMismatch _ _ | InvalidChainContract _ | InvalidVerificationId _ | UnsupportedProofType _
  | VerificationIdMismatch _ | LocalValidatorRemoved _ | ProofStoreError _ => true
  | _ => false
  end.

(** [as_millis], a random number up to it, and back to a duration. *)
Definition full_jitter (random_range : Z -> Z) (maximum : Z) : Z :=
  from_millis (random_range (Z.min (maximum / 1000000) u64_max)).

(** ** State *)

Record ListenerState : Set := mkListenerState
  { last_height : option Z; validators_hash : option (array 32) }.

Inductive SessionExit : Set :=
| Stopped
| Reconnect (error : Error) (established : bool).

(** How a computation of the listener does not return: with an error, because the stop token won
    the race around it, or because the model looks at it before it does. *)
Inductive Fault : Set :=
| LErr (e : Error)
| Cancelled
| StillRunning.

Section listener.
Context `{Libp2p, !IdentityLib, !HeightText, !Sha256, !Hex,
  !Message QueryProofsByHeightRequest, !Message QueryProofsByHeightResponse}.

(** What the listener did. *)
Inductive LEvent : Type :=
(** the proofs the chain has at a height *)
| Queried (height : Z) (ids : list VerificationId)
(** a block whose events are valid *)
| SawBlock (block : CommittedBlock) (ids : list VerificationId)
| Observed (id : VerificationId)
(** the validators hash of a height, asked for *)
| LearnedHash (height : Z) (hash : array 32)
(** the driver replaced its authorized peers with those of a height *)
| Replaced (height : Z) (peers : gset PeerId)
| ReadySent
| Slept (backoff delay : Z)
| Transport (action : TransportAction).

Record Listener : Type := mkListener {
  l_state : ListenerState;
  l_ready : bool;
  l_calls : nat;
  l_log : list LEvent
}.

Abbreviation listenerM := (stm Listener Fault).

Record World : Type := mkWorld {
  (** the stop token is seen cancelled at a call *)
  w_stop : nat -> bool;
  (** a call that the stop token cut off had its effect nevertheless *)
  w_late : nat -> bool;
  w_url_ok : string -> result string unit;
  w_connect : nat -> Answer unit;
  w_subscribe : nat -> Answer unit;
  w_next : nat -> option (result string EventData);
  w_client_close : nat -> result string unit;
  w_driver_end : nat -> option (result JoinError (result string unit));
  w_status : nat -> Answer StatusResponse;
  w_abci : nat -> nat -> string -> bytes -> option Z -> Answer AbciQuery;
  w_block : nat -> Z -> Answer BlockResponse;
  w_validators : nat -> Z -> Answer ValidatorsResponse;
  w_observe : nat -> VerificationId -> Result unit;
  w_replace : nat -> gset PeerId -> Result unit;
  w_random : nat -> Z -> Z
}.

Definition emit (e : LEvent) : listenerM unit :=
  modify (fun s => mkListener (l_state s) (l_ready s) (l_calls s) (l_log s ++ [e])).
Definition set_state (st : ListenerState) : listenerM unit :=
  modify (fun s => mkListener st (l_ready s) (l_calls s) (l_log s)).
Definition next_call : listenerM nat := fun s =>
  (Ok (l_calls s), mkListener (l_state s) (l_ready s) (S (l_calls s)) (l_log s)).

Section world.
Context (w : World) (client : PulsarClient) (updates : option PeerId).

(** An await; inside [cancel_or] the stop token may win. *)
Definition call {A} (cancellable : bool) (f : nat -> Result A) : listenerM A :=
  k ← next_call;
  if cancellable && w_stop w k then throw Cancelled
  else match f k with Ok a => mret a | Err e => throw (LErr e) end.

(** An await of an effect in another task or in the store. When the stop token wins, the effect may
    have happened, or may still happen: only its answer is not waited for. *)
Definition perform (cancellable : bool) (f : nat -> Result unit) (e : LEvent) : listenerM unit :=
  k ← next_call;
  if cancellable && w_stop w k then _ ← (if w_late w k then emit e else mret tt); throw Cancelled
  else match f k with Ok _ => emit e | Err error => throw (LErr error) end.

(** [PulsarClient::proofs_by_height]; its pages always end. *)
Definition client_proofs (k : nat) (height : Z) : Result (list VerificationId) :=
  match proofs_by_height (w_abci w k) height with
  | Some r => proofs ← r; Ok (map chain_verification_id proofs)
  | None => Err (ChainError "")
  end.

Definition observe (cancellable : bool) (id : VerificationId) : listenerM unit :=
  perform cancellable (fun k => w_observe w k id) (Observed id).

Definition reconcile_height (cancellable : bool) (height : Z) : listenerM unit :=
  ids ← call cancellable (fun k => client_proofs k height);
  _ ← emit (Queried height ids);
  for_each (observe cancellable) ids.

Definition reconcile_active_window (cancellable : bool) (latest : Z) : listenerM unit :=
  for_each (reconcile_height cancellable) (active_heights latest).

(** [ValidatorSetUpdater::replace_at]. *)
Definition replace_at (cancellable : bool) (local_peer_id : PeerId) (height : Z) : listenerM unit :=
  peers ← call cancellable (fun k => load_at (w_validators w k) height);
  if bool_decide (local_peer_id ∈ peers) then
    perform cancellable (fun k => w_replace w k peers) (Replaced height peers)
  else
    _ ← perform cancellable (fun k => w_replace w k ∅) (Replaced height ∅);
    throw (LErr (LocalValidatorRemoved (peer_to_string local_peer_id))).

Definition initialize (cancellable : bool) : listenerM unit :=
  status ← call cancellable (fun k => client_status client (w_status w k));
  _ ← reconcile_active_window cancellable (latest_height status);
  _ ← match updates with
      | Some local =>
          hash ← call cancellable (fun k => client_validators_hash (latest_height status) (w_block w k));
          _ ← emit (LearnedHash (latest_height status) hash);
          s ← get_state;
          _ ← (if validator_set_changed (validators_hash (l_state s)) hash
               then replace_at cancellable local (latest_height status) else mret tt);
          set_state (mkListenerState (last_height (l_state s)) (Some hash))
      | None => mret tt
      end;
  s ← get_state;
  set_state (mkListenerState (Some (latest_height status)) (validators_hash (l_state s))).

Definition process_block (block : CommittedBlock) : listenerM unit :=
  observations ← (match parse_proof_events block with Ok l => mret l | Err e => throw (LErr e) end);
  _ ← emit (SawBlock block observations);
  s ← get_state;
  _ ← (if match last_height (l_state s) with
          | Some height => saturating_add u64_max height 1 <? block_height block
          | None => false
          end
       then reconcile_active_window false (block_height block) else mret tt);
  _ ← for_each (observe false) observations;
  if match last_height (l_state s) with
     | Some height => height <? block_height block
     | None => true
     end
  then
    _ ← match updates with
        | Some local =>
            if validator_set_changed (validators_hash (l_state s)) (block_validators_hash block)
            then replace_at false local (block_height block) else mret tt
        | None => mret tt
        end;
    set_state (mkListenerState (Some (block_height block)) (Some (block_validators_hash block)))
  else mret tt.

(** ** Sessions *)

Definition transport (actions : list TransportAction) : listenerM unit :=
  for_each (fun a => emit (Transport a)) actions.

(** [PulsarClient::subscribe_new_blocks]; the stop token may win while it connects or while it
    subscribes. *)
Definition subscribe_new_blocks : listenerM unit :=
  _ ← call true (fun k => subscribe_connect client (w_url_ok w) (w_connect w k));
  _ ← transport [DriverSpawned];
  k ← next_call;
  let (r, actions) := subscribe_events (if w_stop w k then None else Some (w_subscribe w k)) in
  _ ← transport actions;
  match r with
  | None => throw Cancelled
  | Some (Ok _) => mret tt
  | Some (Err error) => throw (LErr error)
  end.

Definition close : listenerM unit :=
  k ← next_call;
  let (r, actions) := subscription_close (w_client_close w k) (w_driver_end w k) in
  _ ← transport actions;
  match r with Ok _ => mret tt | Err error => throw (LErr error) end.

(** The subscription goes out of scope. *)
Definition drop_blocks : listenerM unit := transport (subscription_drop true).

(** The [Result] of a call, taken apart by the caller. *)
Definition caught {A} (m : listenerM A) : listenerM (Result A) := fun s =>
  match m s with
  | (Ok a, s') => (Ok (Ok a), s')
  | (Err (LErr e), s') => (Ok (Err e), s')
  | (Err f, s') => (Err f, s')
  end.

(** [cancel_or]: [None] when the stop token won. *)
Definition cancel_or {A} (m : listenerM A) : listenerM (option (Result A)) := fun s =>
  match caught m s with
  | (Ok r, s') => (Ok (Some r), s')
  | (Err Cancelled, s') => (Ok None, s')
  | (Err f, s') => (Err f, s')
  end.

(** [if is_fatal(&error) { Err(error) } else { Ok(Reconnect { .. }) }] *)
Definition lost (error : Error) (established : bool) : listenerM SessionExit :=
  if is_fatal error then throw (LErr error) else mret (Reconnect error established).

(** The loop over the blocks; it may go on for ever. *)
Fixpoint session_loop (fuel : nat) : listenerM SessionExit :=
  match fuel with
  | O => throw StillRunning
  | S fuel =>
      k ← next_call;
      if w_stop w k then _ ← close; mret Stopped
      else match subscription_next (w_next w k) with
      | Ok (Some block) =>
          r ← caught (process_block block);
          match r with
          | Ok _ => session_loop fuel
          | Err error => _ ← caught close; lost error true
          end
      | Ok None => _ ← drop_blocks; mret (Reconnect (ChainError "NewBlock subscription closed") true)
      | Err error => _ ← drop_blocks; lost error true
      end
  end.

Definition send_ready : listenerM unit := fun s =>
  if l_ready s then (Ok tt, s)
  else (Ok tt, mkListener (l_state s) true (l_calls s) (l_log s ++ [ReadySent])).

Definition run_session (fuel : nat) : listenerM SessionExit :=
  subscribed ← cancel_or subscribe_new_blocks;
  match subscribed with
  | None => mret Stopped
  | Some (Err error) => lost error false
  | Some (Ok _) =>
      initialized ← cancel_or (initialize true);
      match initialized with
      | None => _ ← close; mret Stopped
      | Some (Ok _) => _ ← send_ready; session_loop fuel
      | Some (Err error) => _ ← caught close; lost error false
      end
  end.

(** [backoff.checked_mul(2).unwrap_or(max).min(max)] *)
Definition next_backoff (config : ListenerConfig) (backoff : Z) : Z :=
  Z.min (default (reconnect_max_backoff config) (duration_checked_mul backoff 2)) (reconnect_max_backoff config).

Fixpoint listener_loop (config : ListenerConfig) (fuel : nat) (backoff : Z) : listenerM unit :=
  match fuel with
  | O => throw StillRunning
  | S fuel' =>
      exit ← run_session fuel';
      match exit with
      | Stopped => mret tt
      | Reconnect _ established =>
          let backoff := if established then reconnect_initial_backoff config else backoff in
          k ← next_call;
          if w_stop w k then mret tt
          else
            _ ← emit (Slept backoff (full_jitter (w_random w k) backoff));
            listener_loop config fuel' (next_backoff config backoff)
      end
  end.

Definition run_listener (config : ListenerConfig) (fuel : nat) : listenerM unit :=
  listener_loop config fuel (reconnect_initial_backoff config).
End world.

Definition initial_listener : Listener := mkListener (mkListenerState None None) false 0 [].
End listener.
