(* ===== verification/ListenerProps.v ===== *)
(** * What the listener guarantees (proofs about Listener) *)

From stdpp Require Import base gmap list strings pretty list_numbers.
From S2P Require Import Prelude Types StdText Wire ProofId ConfigTypes Chain P2pIdentity Listener.

Lemma elem_of_active_heights h latest :
  h ∈ active_heights latest <-> 1 <= h /\ latest - 2 <= h <= latest.
Proof.
  unfold active_heights, saturating_sub, ACTIVE_PROOF_HEIGHTS. rewrite elem_of_seqZ. lia.
Qed.

Section listener.
Context `{Libp2p, !IdentityLib, !HeightText, !Sha256, !Hex,
  !Message QueryProofsByHeightRequest, !Message QueryProofsByHeightResponse}.

Implicit Types (s : Listener) (log l : list LEvent).

(** ** What the log says *)

(** [id] is one of the proofs the chain was seen to have. *)
Definition announced log (id : VerificationId) : Prop :=
  (exists h ids, Queried h ids ∈ log /\ id ∈ ids) \/ (exists b ids, SawBlock b ids ∈ log /\ id ∈ ids).

(** Every proof of the height was observed: those a query answered, or those of its block. *)
Definition covered log (h : Z) : Prop :=
  (exists ids, Queried h ids ∈ log /\ forall id, id ∈ ids -> Observed id ∈ log) \/
  (exists b ids, SawBlock b ids ∈ log /\ block_height b = h /\ forall id, id ∈ ids -> Observed id ∈ log).

(** The validators hash of a height, from a block or from a query. *)
Definition has_hash log (h : Z) (x : array 32) : Prop :=
  LearnedHash h x ∈ log \/ exists b ids, SawBlock b ids ∈ log /\ block_height b = h /\ block_validators_hash b = x.

Definition is_replacement (e : LEvent) : bool := match e with Replaced _ _ => true | _ => false end.

(** The peers the driver was last given are those of a height with the validators hash [x],
    and the local validator is one of them. *)
Definition authorized_for (local : PeerId) log (x : array 32) : Prop :=
  exists before after h peers, log = before ++ Replaced h peers :: after /\
    Forall (fun e => is_replacement e = false) after /\ local ∈ peers /\ has_hash log h x.

Lemma announced_app log l id : announced log id -> announced (log ++ l) id.
Proof. intros [(h&ids&?&?)|(b&ids&?&?)]; [left|right]; do 2 eexists; rewrite elem_of_app; eauto. Qed.

Lemma covered_app log l h : covered log h -> covered (log ++ l) h.
Proof.
  intros [(ids&Hq&Ho)|(b&ids&Hq&Hb&Ho)]; [left; exists ids|right; exists b, ids];
    rewrite elem_of_app; (split; [by left|]); [|split; [done|]]; intros; rewrite elem_of_app; left; by apply Ho.
Qed.

Lemma has_hash_app log l h x : has_hash log h x -> has_hash (log ++ l) h x.
Proof.
  intros [Hl|(b&ids&Hb&E)]; [left; rewrite elem_of_app; by left|].
  right. exists b, ids. rewrite elem_of_app. by split; [left|].
Qed.

Lemma authorized_app local log l x :
  authorized_for local log x -> Forall (fun e => is_replacement e = false) l -> authorized_for local (log ++ l) x.
Proof.
  intros (before&after&h&peers&E&Ha&Hl&Hh) Hn. exists before, (after ++ l), h, peers.
  split; [rewrite E, <- app_assoc; done|]. split; [by apply Forall_app|]. split; [done|]. by apply has_hash_app.
Qed.

(** Nothing is observed that the chain was not seen to have. *)
Definition sound log : Prop := forall id, Observed id ∈ log -> announced log id.

(** ** Steps that keep the state and do not replace the peers *)

Record grows (s s' : Listener) : Prop := mkGrows {
  grows_state : l_state s' = l_state s;
  grows_calls : (l_calls s <= l_calls s')%nat;
  grows_log : exists l, l_log s' = l_log s ++ l /\ Forall (fun e => is_replacement e = false) l;
  grows_sound : sound (l_log s) -> sound (l_log s')
}.

#[export] Instance grows_preorder : PreOrder grows.
Proof.
  split.
  - intros s. split; [done|lia| |done]. exists []. by rewrite app_nil_r.
  - intros a b c [S1 C1 (l1&L1&F1) O1] [S2 C2 (l2&L2&F2) O2]. split; [congruence|lia| |by auto].
    exists (l1 ++ l2). rewrite L2, L1, app_assoc. split; [done|]. by apply Forall_app.
Qed.

Lemma grows_covered s s' h : grows s s' -> covered (l_log s) h -> covered (l_log s') h.
Proof. intros [_ _ (l&->&_) _]. apply covered_app. Qed.
Lemma grows_announced s s' id : grows s s' -> announced (l_log s) id -> announced (l_log s') id.
Proof. intros [_ _ (l&->&_) _]. apply announced_app. Qed.
Lemma grows_authorized local s s' x :
  grows s s' -> authorized_for local (l_log s) x -> authorized_for local (l_log s') x.
Proof. intros [_ _ (l&->&F) _] Ha. by apply authorized_app. Qed.
Lemma grows_elem s s' e : grows s s' -> e ∈ l_log s -> e ∈ l_log s'.
Proof. intros [_ _ (l&->&_) _] He. rewrite elem_of_app. by left. Qed.

(** Appending an event that observes nothing new keeps the log sound. *)
Lemma grows_emit s e :
  is_replacement e = false -> (forall id, e = Observed id -> announced (l_log s) id) ->
  grows s (mkListener (l_state s) (l_ready s) (l_calls s) (l_log s ++ [e])).
Proof.
  intros He Ho. split; [done|simpl; lia|exists [e]; split; [done|by constructor]|].
  intros Hs id. simpl. rewrite elem_of_app, list_elem_of_singleton.
  intros [Hi|Hi]; apply announced_app; [by apply Hs|by apply Ho].
Qed.

Section world.
Context (w : World) (client : PulsarClient) (updates : option PeerId).

Abbreviation listenerM := (stm Listener Fault).

(** [m] only makes the log grow, and ends with [Q] if it returns. *)
Definition growing {A} (m : listenerM A) (s : Listener) (Q : A -> Listener -> Prop) : Prop :=
  wp m (fun a s' => grows s s' /\ Q a s') (fun _ s' => grows s s') s.

Lemma growing_bind {A B} (m : listenerM A) (f : A -> listenerM B) s Q Q' :
  growing m s Q -> (forall a s', grows s s' -> Q a s' -> growing (f a) s' Q') -> growing (m ≫= f) s Q'.
Proof.
  unfold growing, wp, mbind, stm_bind. destruct (m s) as [[a|e] s1]; [|done]. intros [G HQ] Hf.
  specialize (Hf a s1 G HQ). destruct (f a s1) as [[b|e] s2]; [|by etrans].
  destruct Hf. split; [by etrans|done].
Qed.

Lemma growing_ret {A} (a : A) s (Q : A -> Listener -> Prop) : Q a s -> growing (mret a) s Q.
Proof. intros HQ. by split. Qed.

Lemma growing_emit e s (Q : unit -> Listener -> Prop) :
  is_replacement e = false -> (forall id, e = Observed id -> announced (l_log s) id) ->
  Q tt (mkListener (l_state s) (l_ready s) (l_calls s) (l_log s ++ [e])) -> growing (emit e) s Q.
Proof. intros He Ho HQ. split; [by apply grows_emit|done]. Qed.

Lemma grows_call s : grows s (mkListener (l_state s) (l_ready s) (S (l_calls s)) (l_log s)).
Proof. split; simpl; [done|lia|exists []; by rewrite app_nil_r|done]. Qed.

Lemma growing_call {A} c (f : nat -> Result A) s : growing (call w c f) s (fun _ s' => l_log s' = l_log s).
Proof.
  unfold growing, call, wp, mbind, stm_bind, next_call. pose proof (grows_call s).
  destruct (c && _); [done|]. by destruct (f _).
Qed.

(** The stop token was seen cancelled. *)
Definition stop_seen s : Prop := exists k, (k < l_calls s)%nat /\ w_stop w k = true.

(** What an effect leaves: nothing, or its event, also when the stop token cut it off. *)
Lemma wp_perform c f e s (Q : unit -> Listener -> Prop) (X : Fault -> Listener -> Prop) :
  let s1 := mkListener (l_state s) (l_ready s) (S (l_calls s)) (l_log s) in
  let s2 := mkListener (l_state s) (l_ready s) (S (l_calls s)) (l_log s ++ [e]) in
  Q tt s2 -> (forall error, X (LErr error) s1) ->
  (c = true -> stop_seen s1 -> X Cancelled s1 /\ X Cancelled s2) -> wp (perform w c f e) Q X s.
Proof.
  intros s1 s2 HQ HX HC. unfold wp, perform, mbind, stm_bind, next_call.
  destruct c; simpl; [destruct (w_stop w (l_calls s)) eqn:E|].
  - destruct HC as [HC1 HC2]; [done|exists (l_calls s); split; [simpl; lia|done]|].
    destruct (w_late w (l_calls s)); [exact HC2|exact HC1].
  - destruct (f (l_calls s)) as [[]|]; [exact HQ|exact (HX _)].
  - destruct (f (l_calls s)) as [[]|]; [exact HQ|exact (HX _)].
Qed.

Lemma observe_spec c id s :
  announced (l_log s) id -> growing (observe w c id) s (fun _ s' => Observed id ∈ l_log s').
Proof.
  intros Ha. set (s2 := mkListener (l_state s) (l_ready s) (S (l_calls s)) (l_log s ++ [Observed id])).
  assert (grows s s2) as G2.
  { etrans; [apply grows_call|]. apply (grows_emit (mkListener _ _ _ _)); [done|]. by intros id' [= <-]. }
  apply wp_perform; [|intros; apply grows_call|intros _ _; split; [apply grows_call|exact G2]].
  split; [exact G2|]. simpl. rewrite elem_of_app, list_elem_of_singleton. by right.
Qed.

Lemma observe_all_spec c ids s :
  (forall id, id ∈ ids -> announced (l_log s) id) ->
  growing (for_each (observe w c) ids) s (fun _ s' => forall id, id ∈ ids -> Observed id ∈ l_log s').
Proof.
  revert s. induction ids as [|id ids IH]; intros s Ha; simpl.
  - apply growing_ret. intros id Hid. by apply elem_of_nil in Hid.
  - eapply growing_bind; [apply observe_spec, Ha; left|]. intros [] s1 G1 O1.
    assert (growing (for_each (observe w c) ids) s1 (fun _ s' => forall id, id ∈ ids -> Observed id ∈ l_log s')) as W.
    { apply IH. intros id' Hid. eapply grows_announced; [exact G1|]. apply Ha. by right. }
    unfold growing, wp in *. destruct (for_each _ _ s1) as [[[]|e] s2]; [|done]. destruct W as [G2 O2].
    split; [done|]. intros id'. rewrite elem_of_cons. intros [->|Hid]; [by eapply grows_elem|by apply O2].
Qed.

Lemma reconcile_height_spec c h s : growing (reconcile_height w c h) s (fun _ s' => covered (l_log s') h).
Proof.
  eapply growing_bind; [apply growing_call|]. intros ids s1 G1 E1.
  eapply growing_bind; [apply growing_emit with (Q := fun _ s' => Queried h ids ∈ l_log s'); [done..|]|].
  { simpl. rewrite elem_of_app, list_elem_of_singleton. by right. }
  intros [] s2 G2 Hq. assert (growing (for_each (observe w c) ids) s2
    (fun _ s' => forall id, id ∈ ids -> Observed id ∈ l_log s')) as W by (apply observe_all_spec; left; eauto).
  unfold growing, wp in *. destruct (for_each _ _ s2) as [[[]|e] s3]; [|done]. destruct W as [G3 O3].
  split; [done|]. left. exists ids. split; [by eapply grows_elem|done].
Qed.

Lemma reconcile_window_spec c latest s :
  growing (reconcile_active_window w c latest) s
    (fun _ s' => forall h, h ∈ active_heights latest -> covered (l_log s') h).
Proof.
  unfold reconcile_active_window. revert s. induction (active_heights latest) as [|h hs IH]; intros s; simpl.
  - apply growing_ret. intros h Hh. by apply elem_of_nil in Hh.
  - eapply growing_bind; [apply reconcile_height_spec|]. intros [] s1 G1 C1. specialize (IH s1).
    unfold growing, wp in *. destruct (for_each _ _ s1) as [[[]|e] s2]; [|done]. destruct IH as [G2 C2].
    split; [done|]. intros h'. rewrite elem_of_cons. intros [->|Hh]; [by eapply grows_covered|by apply C2].
Qed.

(** ** The invariant *)

Definition coverage s : Prop :=
  forall latest, last_height (l_state s) = Some latest ->
  forall h, h ∈ active_heights latest -> covered (l_log s) h.

Definition authorized s : Prop :=
  forall local x, updates = Some local -> validators_hash (l_state s) = Some x ->
  authorized_for local (l_log s) x.

Definition inv s : Prop := coverage s /\ sound (l_log s) /\ authorized s.

(** The stop token won while the driver was being given the peers of a new validators hash [x]: it has
    them, all of them or none if the local validator is not one of them, and the hash is not
    recorded. *)
Definition overtaken s : Prop :=
  stop_seen s /\ exists local before after h peers x, updates = Some local /\
    l_log s = before ++ Replaced h peers :: after /\ Forall (fun e => is_replacement e = false) after /\
    (local ∈ peers \/ peers = ∅) /\ has_hash (l_log s) h x /\ validators_hash (l_state s) <> Some x.

Definition settled s : Prop := authorized s \/ overtaken s.

(** After a fault; a fatal error ends the listener, and the driver may have lost its peers. *)
Definition fault_inv (f : Fault) s : Prop :=
  coverage s /\ sound (l_log s) /\
  match f with
  | LErr e => is_fatal e = false -> authorized s
  | Cancelled => settled s
  | StillRunning => authorized s
  end.

Lemma inv_fault f s : inv s -> fault_inv f s.
Proof. intros (?&?&?). split_and!; [done..|]. destruct f; [done|by left|done]. Qed.

Lemma inv_grows s s' : grows s s' -> inv s -> inv s'.
Proof.
  intros G (C&S&A). pose proof (grows_state _ _ G) as E. split; [|split].
  - intros latest Hl h Hh. rewrite E in Hl. eapply grows_covered; [exact G|]. by eapply C.
  - by apply (grows_sound _ _ G).
  - intros local x Hu Hx. rewrite E in Hx. eapply grows_authorized; [exact G|]. by eapply A.
Qed.

Lemma wp_growing {A} (m : listenerM A) s Q (Q' : A -> Listener -> Prop) (X : Fault -> Listener -> Prop) :
  growing m s Q -> (forall a s', grows s s' -> Q a s' -> Q' a s') -> (forall f s', grows s s' -> X f s') ->
  wp m Q' X s.
Proof. unfold growing, wp. destruct (m s) as [[a|f] s']; intros W HQ HX; [apply HQ; apply W|by apply HX]. Qed.

Lemma sound_replaced log h peers : sound log -> sound (log ++ [Replaced h peers]).
Proof.
  intros S id. rewrite elem_of_app, list_elem_of_singleton. intros [Hi|]; [|done]. by apply announced_app, S.
Qed.

Definition replaced_by (h : Z) (peers : gset PeerId) s s' : Prop :=
  l_state s' = l_state s /\ (l_calls s <= l_calls s')%nat /\ l_log s' = l_log s ++ [Replaced h peers].

Lemma replace_at_spec c local h s :
  wp (replace_at w c local h) (fun _ s' => exists peers, local ∈ peers /\ replaced_by h peers s s')
    (fun f s' => grows s s' \/ (exists e, f = LErr e /\ is_fatal e = true) /\ replaced_by h ∅ s s' \/
       f = Cancelled /\ stop_seen s' /\ exists peers, (local ∈ peers \/ peers = ∅) /\ replaced_by h peers s s') s.
Proof.
  unfold replace_at. apply wp_bind. eapply wp_growing; [apply growing_call| |by left].
  intros peers s1 G1 E1.
  assert (forall p, replaced_by h p s (mkListener (l_state s1) (l_ready s1) (S (l_calls s1)) (l_log s1 ++ [Replaced h p])))
    as R.
  { intros p. pose proof (grows_calls _ _ G1). split; [|split]; simpl; [by rewrite (grows_state _ _ G1)|lia|].
    by rewrite E1. }
  assert (grows s (mkListener (l_state s1) (l_ready s1) (S (l_calls s1)) (l_log s1))) as G2
    by (etrans; [exact G1|apply grows_call]).
  case_bool_decide as Hl; [|apply wp_bind]; apply wp_perform; try by left.
  - exists peers. by split.
  - intros _ Hs. split; [by left|]. right. right. split_and!; [done|exact Hs|]. exists peers. by split; [left|].
  - apply wp_throw. right. left. split; [by eexists|]. apply R.
  - intros _ Hs. split; [by left|]. right. right. split_and!; [done|exact Hs|]. exists ∅. by split; [right|].
Qed.

(** A replacement for the hash that is recorded next. *)
Lemma replaced_inv h peers local x s s' last :
  inv s -> replaced_by h peers s s' -> local ∈ peers -> updates = Some local -> has_hash (l_log s) h x ->
  (forall latest, last = Some latest -> forall h, h ∈ active_heights latest -> covered (l_log s) h) ->
  inv (mkListener (mkListenerState last (Some x)) (l_ready s') (l_calls s') (l_log s')).
Proof.
  intros (C&S&A) (Es&Ec&El) Hp Hu Hh Hc. split; [|split]; simpl.
  - intros latest Hl h' Hh'. simpl in *. rewrite El. by eapply covered_app, Hc.
  - simpl. rewrite El. by apply sound_replaced.
  - intros local' x' Hu' Hx'. simpl in *. simplify_eq. exists (l_log s), [], h, peers.
    split; [done|]. split; [constructor|]. split; [congruence|]. rewrite El. by apply has_hash_app.
Qed.

Lemma replaced_fault h e s s' :
  inv s -> is_fatal e = true -> replaced_by h ∅ s s' -> fault_inv (LErr e) s'.
Proof.
  intros (C&S&A) He (Es&Ec&El). split; [|split].
  - intros latest Hl h' Hh'. rewrite Es in Hl. rewrite El. by eapply covered_app, C.
  - rewrite El. by apply sound_replaced.
  - by rewrite He.
Qed.

Lemma overtaken_fault h peers local x s s' :
  inv s -> updates = Some local -> has_hash (l_log s) h x -> validators_hash (l_state s) <> Some x ->
  stop_seen s' -> (local ∈ peers \/ peers = ∅) -> replaced_by h peers s s' -> fault_inv Cancelled s'.
Proof.
  intros (C&S&A) Hu Hh Hx Hs Hp (Es&Ec&El). split; [|split].
  - intros latest Hl h' Hh'. rewrite Es in Hl. rewrite El. by eapply covered_app, C.
  - rewrite El. by apply sound_replaced.
  - right. split; [done|]. exists local, (l_log s), [], h, peers, x. rewrite Es, El.
    split_and!; [done..|by constructor|done|by apply has_hash_app|done].
Qed.

(** The step that brings the driver's peers to the hash [x] of height [h] and records it. *)
Lemma update_spec c local h x last s :
  inv s -> updates = Some local -> has_hash (l_log s) h x ->
  (forall latest, last = Some latest -> forall h, h ∈ active_heights latest -> covered (l_log s) h) ->
  wp (if validator_set_changed (validators_hash (l_state s)) x then replace_at w c local h else mret tt)
    (fun _ s' => (l_calls s <= l_calls s')%nat /\
       l_state s' = l_state s /\
       inv (mkListener (mkListenerState last (Some x)) (l_ready s') (l_calls s') (l_log s'))) fault_inv s.
Proof.
  intros I Hu Hh Hc. unfold validator_set_changed. case_bool_decide as Hx; simpl.
  - apply wp_ret. split; [lia|]. split; [done|]. destruct I as (C&S&A). split; [|split]; simpl; [done..|].
    intros local' x' Hu' Hx'. simpl in Hx'. apply A; congruence.
  - pose proof (replace_at_spec c local h s) as W. unfold wp in *.
    destruct (replace_at w c local h s) as [[[]|f] s'].
    + destruct W as (peers&Hp&R). split; [apply R|]. split; [apply R|]. by eapply replaced_inv.
    + destruct W as [G|[[(e&->&He) R]|(->&Hs&peers&Hp&R)]];
        [by eapply inv_fault, inv_grows|by eapply replaced_fault|by eapply overtaken_fault].
Qed.

(** Between calls, in a session: the last height is known. *)
Definition session_inv s : Prop := inv s /\ is_Some (last_height (l_state s)).

Lemma inv_set_last latest s :
  inv s -> (forall h, h ∈ active_heights latest -> covered (l_log s) h) ->
  session_inv (mkListener (mkListenerState (Some latest) (validators_hash (l_state s)))
    (l_ready s) (l_calls s) (l_log s)).
Proof.
  intros (C&S&A) Hc. split; [|by eexists]. split; [|split]; [|done|exact A].
  intros latest' [= <-]. exact Hc.
Qed.

Lemma initialize_spec c s : inv s -> wp (initialize w client updates c) (fun _ => session_inv) fault_inv s.
Proof.
  intros I. unfold initialize. apply wp_bind.
  eapply wp_growing; [apply growing_call| |intros f s' G; by eapply inv_fault, inv_grows].
  intros status s1 G1 _. assert (inv s1) as I1 by by eapply inv_grows. apply wp_bind.
  eapply wp_growing; [apply reconcile_window_spec| |intros f s' G; by eapply inv_fault, inv_grows].
  intros [] s2 G2 C2. assert (inv s2) as I2 by by eapply inv_grows.
  destruct updates as [local|] eqn:Hu; [|by apply wp_bind, wp_ret, wp_bind, wp_get, wp_modify, inv_set_last].
  apply wp_bind, wp_bind.
  eapply wp_growing; [apply growing_call| |intros f s' G; by eapply inv_fault, inv_grows].
  intros hash s3 G3 _. apply wp_bind, wp_modify, wp_bind, wp_get. simpl. apply wp_bind.
  set (s4 := mkListener (l_state s3) (l_ready s3) (l_calls s3) (l_log s3 ++ [LearnedHash (latest_height status) hash])).
  assert (grows s2 s4) as G4 by (etrans; [exact G3|]; by apply grows_emit).
  eapply wp_mono; [apply (update_spec c local (latest_height status) hash (Some (latest_height status)) s4)|].
  - by eapply inv_grows.
  - done.
  - left. simpl. rewrite elem_of_app, list_elem_of_singleton. by right.
  - intros latest [= <-] h Hh. eapply grows_covered; [exact G4|]. by apply C2.
  - intros [] s5 (Hc5&Es5&I5). apply wp_modify, wp_bind, wp_get, wp_modify. simpl. split; [exact I5|by eexists].
Qed.

(** The part of [process_block] that recovers a gap. *)
Lemma recover_gap_spec latest height s :
  growing (if saturating_add u64_max latest 1 <? height then reconcile_active_window w false height else mret tt) s
    (fun _ s' => saturating_add u64_max latest 1 < height ->
      forall h, h ∈ active_heights height -> covered (l_log s') h).
Proof.
  destruct (Z.ltb_spec (saturating_add u64_max latest 1) height).
  - pose proof (reconcile_window_spec false height s) as W. unfold growing, wp in *.
    destruct (reconcile_active_window _ _ _ s) as [[[]|f] s']; [|done]. destruct W. split; auto.
  - apply growing_ret. lia.
Qed.

(** A block past the last height keeps the window covered. *)
Lemma block_window log latest block ids :
  (forall h, h ∈ active_heights latest -> covered log h) ->
  SawBlock block ids ∈ log -> (forall id, id ∈ ids -> Observed id ∈ log) -> latest < block_height block ->
  (saturating_add u64_max latest 1 < block_height block ->
    forall h, h ∈ active_heights (block_height block) -> covered log h) ->
  forall h, h ∈ active_heights (block_height block) -> covered log h.
Proof.
  intros C Hb Ho Hlt Hg h Hh. destruct (decide (h = block_height block)) as [->|Hn]; [right; eauto|].
  destruct (decide (saturating_add u64_max latest 1 < block_height block)) as [Hs|Hs]; [by apply Hg|].
  apply C. rewrite elem_of_active_heights in *. unfold saturating_add in Hs. lia.
Qed.

Lemma process_block_spec block s :
  session_inv s -> wp (process_block w updates block) (fun _ => session_inv) fault_inv s.
Proof.
  intros [I [latest Hl]]. unfold process_block. apply wp_bind.
  destruct (parse_proof_events block) as [ids|e]; [apply wp_ret|by apply wp_throw, inv_fault].
  apply wp_bind, wp_modify, wp_bind, wp_get. simpl. rewrite Hl.
  set (s1 := mkListener (l_state s) (l_ready s) (l_calls s) (l_log s ++ [SawBlock block ids])).
  assert (grows s s1) as G1 by by apply grows_emit.
  assert (SawBlock block ids ∈ l_log s1) as Hb by (simpl; rewrite elem_of_app, list_elem_of_singleton; by right).
  assert (inv s1) as I1 by by eapply inv_grows.
  apply wp_bind. eapply wp_growing; [by apply (recover_gap_spec latest (block_height block) s1)| |
    intros f s' G; by eapply inv_fault, inv_grows].
  intros [] s2 G2 C2. assert (inv s2) as I2 by by eapply inv_grows.
  apply wp_bind. eapply wp_growing; [apply observe_all_spec| |intros f s' G; by eapply inv_fault, inv_grows].
  { intros id Hid. right. exists block, ids. split; [by eapply grows_elem|done]. }
  intros [] s3 G3 O3. assert (inv s3) as I3 by by eapply inv_grows.
  assert (grows s1 s3) as G13 by by etrans.
  assert (l_state s3 = l_state s) as Es3 by by rewrite (grows_state _ _ G13).
  destruct (Z.ltb_spec latest (block_height block)) as [Hlt|];
    [|apply wp_ret; split; [done|]; rewrite Es3; by eexists].
  assert (forall h, h ∈ active_heights (block_height block) -> covered (l_log s3) h) as C3.
  { apply (block_window _ latest block ids); [|by eapply grows_elem|done..|].
    - intros h Hh. destruct I3 as [C _]. apply (C latest); [by rewrite Es3|done].
    - intros Hg h Hh. eapply grows_covered; [exact G3|]. by apply C2. }
  assert (forall latest', Some (block_height block) = Some latest' ->
    forall h, h ∈ active_heights latest' -> covered (l_log s3) h) as C3' by by intros ? [= <-].
  rewrite <- Es3. destruct updates as [local|] eqn:Hu.
  - apply wp_bind. eapply wp_mono;
      [apply (update_spec false local (block_height block) (block_validators_hash block) (Some (block_height block)) s3)|].
    + done.
    + done.
    + right. exists block, ids. split; [by eapply grows_elem|done].
    + done.
    + intros [] s4 (_&Es4&I4). apply wp_modify. split; [exact I4|by eexists].
  - apply wp_bind, wp_ret, wp_modify. split; [|by eexists]. destruct I3 as (C&S&A).
    split; [exact C3'|]. split; [exact S|]. intros local x Hu'. congruence.
Qed.

Lemma authorized_grows s s' : grows s s' -> authorized s -> authorized s'.
Proof.
  intros G A local x Hu Hx. rewrite (grows_state _ _ G) in Hx. eapply grows_authorized; [exact G|]. by eapply A.
Qed.

Lemma grows_settled s s' : grows s s' -> settled s -> settled s'.
Proof.
  intros G [A|[(k&Hk&Es) (local&before&after&h&peers&x&Hu&El&Hf&Hp&Hh&Hx)]];
    [left; by eapply authorized_grows|right].
  pose proof (grows_calls _ _ G). split; [exists k; split; [lia|done]|].
  pose proof (grows_state _ _ G) as Est. destruct (grows_log _ _ G) as (l&Hl&Fl).
  exists local, before, (after ++ l), h, peers, x. rewrite Hl, Est. split_and!; try done.
  - by rewrite El, <- app_assoc.
  - by apply Forall_app.
  - by apply has_hash_app.
Qed.

Lemma fault_inv_grows f s s' : grows s s' -> fault_inv f s -> fault_inv f s'.
Proof.
  intros G (C&S&A). pose proof (grows_state _ _ G) as E. split; [|split].
  - intros latest Hl h Hh. rewrite E in Hl. eapply grows_covered; [exact G|]. by eapply C.
  - by apply (grows_sound _ _ G).
  - destruct f; [|by eapply grows_settled|by eapply authorized_grows].
    intros Hn. by eapply authorized_grows; [|apply A].
Qed.

Lemma wp_caught {A} (m : listenerM A) (Q : Result A -> Listener -> Prop) (X : Fault -> Listener -> Prop) s :
  wp m (fun a => Q (Ok a)) (fun f s' => match f with LErr e => Q (Err e) s' | _ => X f s' end) s ->
  wp (caught m) Q X s.
Proof. unfold wp, caught. by destruct (m s) as [[a|[]] s']. Qed.

Lemma wp_cancel_or {A} (m : listenerM A) (Q : option (Result A) -> Listener -> Prop)
  (X : Fault -> Listener -> Prop) s :
  wp m (fun a => Q (Some (Ok a)))
    (fun f s' => match f with LErr e => Q (Some (Err e)) s' | Cancelled => Q None s' | _ => X f s' end) s ->
  wp (cancel_or m) Q X s.
Proof. unfold wp, cancel_or, caught. by destruct (m s) as [[a|[]] s']. Qed.


(** An await that cannot be cancelled fails with an error only. *)
Lemma wp_call_errs {A} (f : nat -> Result A) s (Q : A -> Listener -> Prop) (X : Fault -> Listener -> Prop) :
  (forall a s', grows s s' -> f (l_calls s) = Ok a -> Q a s') ->
  (forall e s', grows s s' -> f (l_calls s) = Err e -> X (LErr e) s') -> wp (call w false f) Q X s.
Proof.
  intros HQ HX. unfold wp, call, mbind, stm_bind, next_call. simpl. pose proof (grows_call s).
  destruct (f (l_calls s)) eqn:E; [by apply HQ|by apply HX].
Qed.

Lemma wp_transport actions s (Q : unit -> Listener -> Prop) (X : Fault -> Listener -> Prop) :
  (forall s', grows s s' -> Q tt s') -> wp (transport actions) Q X s.
Proof.
  revert s. induction actions as [|a actions IH]; intros s HQ; [by apply wp_ret, HQ|].
  apply wp_bind, wp_modify, IH. intros s' G. apply HQ. etrans; [|exact G]. by apply grows_emit.
Qed.

(** Closing the subscription fails with an error only. *)
Lemma wp_close s (Q : unit -> Listener -> Prop) (X : Fault -> Listener -> Prop) :
  (forall s', grows s s' -> Q tt s') -> (forall e s', grows s s' -> X (LErr e) s') -> wp (close w) Q X s.
Proof.
  intros HQ HX. apply wp_bind. unfold wp at 1, next_call.
  destruct (subscription_close _ _) as [r actions]. apply wp_bind, wp_transport. intros s' G.
  assert (grows s s') as G' by (etrans; [apply grows_call|exact G]).
  destruct r as [[]|e]; [apply wp_ret|apply wp_throw]; auto.
Qed.

(** Subscribing fails with an error, or because the stop token won. *)
Lemma wp_subscribe s (Q : unit -> Listener -> Prop) (X : Fault -> Listener -> Prop) :
  (forall s', grows s s' -> w_stop w (l_calls s) = false -> (l_calls s < l_calls s')%nat -> Q tt s') ->
  (forall e s', grows s s' -> X (LErr e) s') ->
  (forall s', grows s s' -> stop_seen s' -> X Cancelled s') -> wp (subscribe_new_blocks w client) Q X s.
Proof.
  intros HQ HX HC. unfold subscribe_new_blocks, call, wp, mbind, stm_bind, next_call. simpl.
  set (s1 := mkListener _ _ (S (l_calls s)) _). assert (grows s s1) as G1 by apply grows_call.
  destruct (w_stop w (l_calls s)) eqn:E; simpl.
  { apply HC; [done|]. exists (l_calls s). split; [simpl; lia|done]. }
  destruct (subscribe_connect _ _ _) as [[]|e]; simpl; [|by apply HX].
  set (s2 := mkListener _ _ (S (S _)) _).
  assert (grows s s2) as G2 by (etrans; [exact G1|]; etrans; [by apply (grows_emit _ (Transport DriverSpawned))|]; apply grows_call).
  destruct (w_stop w (S (l_calls s))) eqn:E'; simpl.
  - apply HC; [etrans; [exact G2|]; by apply (grows_emit s2 (Transport DriverDetached))|]. exists (S (l_calls s)). split; [simpl; lia|done].
  - destruct (with_timeout _ _) as [[]|e]; simpl; [apply HQ; [done..|simpl; lia]|].
    apply HX. etrans; [exact G2|]. by apply (grows_emit s2 (Transport DriverAborted)).
Qed.

(** How a session ends: when it is stopped, the driver may have been overtaken. *)
Definition ended s : Prop := coverage s /\ sound (l_log s) /\ settled s.
Definition exit_inv (x : SessionExit) s : Prop := match x with Stopped => ended s | Reconnect _ _ => inv s end.
Definition end_inv (f : Fault) s : Prop :=
  coverage s /\ sound (l_log s) /\
  match f with LErr e => is_fatal e = false -> settled s | Cancelled => settled s | StillRunning => authorized s end.

Lemma inv_ended s : inv s -> ended s.
Proof. intros (?&?&?). split_and!; [done..|by left]. Qed.

Lemma fault_end f s : fault_inv f s -> end_inv f s.
Proof. intros (?&?&A). split_and!; [done..|]. destruct f; [|done..]. intros Hn. left. by apply A. Qed.

Lemma ended_grows s s' : grows s s' -> ended s -> ended s'.
Proof.
  intros G (C&S&A). assert (fault_inv Cancelled s) as F by done.
  destruct (fault_inv_grows _ _ _ G F) as (?&?&?). by split_and!.
Qed.

Lemma lost_exit error established s :
  fault_inv (LErr error) s -> wp (lost error established) exit_inv end_inv s.
Proof.
  intros F. unfold lost. destruct (is_fatal error) eqn:E; [by apply wp_throw, fault_end|]. apply wp_ret.
  destruct F as (C&S&A). split; [done|]. split; [done|]. by apply A.
Qed.

(** A failed session closes the subscription, whatever that gives. *)
Lemma close_lost_spec error established s :
  fault_inv (LErr error) s ->
  wp (_ ← caught (close w); lost error established) exit_inv end_inv s.
Proof.
  intros F. apply wp_bind, wp_caught, wp_close; intros; apply lost_exit; by eapply fault_inv_grows.
Qed.

Lemma close_stopped_spec s : ended s -> wp (_ ← close w; mret Stopped) exit_inv end_inv s.
Proof.
  intros I. apply wp_bind, wp_close; intros.
  - apply wp_ret. by eapply ended_grows.
  - destruct (ended_grows s s') as (?&?&?); [done..|]. by split_and!.
Qed.

Lemma session_loop_inv fuel s : session_inv s -> wp (session_loop w updates fuel) exit_inv end_inv s.
Proof.
  revert s. induction fuel as [|fuel IH]; intros s [I Hl]; simpl; [by apply wp_throw, fault_end, inv_fault|].
  apply wp_bind. unfold wp at 1, next_call.
  set (s1 := mkListener _ _ _ _). assert (grows s s1) as G1 by apply grows_call.
  assert (inv s1) as I1 by by eapply inv_grows.
  destruct (w_stop w (l_calls s)); [by apply close_stopped_spec, inv_ended|].
  destruct (subscription_next _) as [[block|]|e]; 
    [|apply wp_bind, wp_transport; intros s2 G2; assert (inv s2) by (by eapply inv_grows);
      first [by apply wp_ret|by apply lost_exit, inv_fault]..].
  apply wp_bind, wp_caught.
  pose proof (process_block_spec block s1 (conj I1 Hl)) as W. unfold wp in W |- *.
  destruct (process_block w updates block s1) as [[[]|f] s2]; [by apply IH|].
  destruct f as [e| |]; [by apply close_lost_spec|by apply fault_end in W..].
Qed.

Lemma send_ready_inv s : session_inv s -> wp send_ready (fun _ => session_inv) end_inv s.
Proof.
  intros [I Hl]. unfold send_ready, wp. destruct (l_ready s); [done|]. split; [|done].
  eapply inv_grows; [|exact I]. split; simpl; [done|lia|exists [ReadySent]; split; [done|by constructor]|].
  intros S id. rewrite elem_of_app, list_elem_of_singleton. intros [Hi|]; [|done]. by apply announced_app, S.
Qed.

Lemma run_session_inv fuel s : inv s -> wp (run_session w client updates fuel) exit_inv end_inv s.
Proof.
  intros I. unfold run_session. apply wp_bind, wp_cancel_or.
  apply wp_subscribe.
  2: { intros e s' G. apply lost_exit, inv_fault. by eapply inv_grows. }
  2: { intros s' G _. apply wp_ret, inv_ended. by eapply inv_grows. }
  intros s1 G1 _ _. assert (inv s1) as I1 by by eapply inv_grows. apply wp_bind, wp_cancel_or.
  pose proof (initialize_spec true s1 I1) as W. unfold wp in W |- *.
  destruct (initialize w client updates true s1) as [[[]|f] s2].
  - apply wp_bind. eapply wp_mono; [by apply send_ready_inv|]. intros [] s3 I3. by apply session_loop_inv.
  - destruct f as [e| |]; [by apply close_lost_spec|by apply close_stopped_spec|by apply fault_end in W].
Qed.

Lemma listener_loop_inv config fuel backoff s :
  inv s -> wp (listener_loop w client updates config fuel backoff) (fun _ => ended) end_inv s.
Proof.
  revert backoff s. induction fuel as [|fuel IH]; intros backoff s I; simpl; [by apply wp_throw, fault_end, inv_fault|].
  apply wp_bind. eapply wp_mono; [by apply run_session_inv|]. intros [|e established] s1 I1; [by apply wp_ret|].
  apply wp_bind. unfold wp at 1, next_call.
  set (s2 := mkListener _ _ _ _). assert (inv s2) as I2 by (eapply inv_grows; [apply grows_call|done]).
  destruct (w_stop w (l_calls s1)); [by apply wp_ret, inv_ended|]. apply wp_bind, wp_modify, IH.
  eapply inv_grows; [|exact I2]. by apply grows_emit.
Qed.

(** ** How the listener ends *)

Definition plain_fault (c : bool) (f : Fault) s : Prop :=
  match f with LErr _ => True | Cancelled => c = true /\ stop_seen s | StillRunning => False end.

(** Calls are counted; a fault is an error, or the stop token where it is raced. *)
Definition forward {A} (c : bool) (m : listenerM A) : Prop := forall s,
  wp m (fun _ s' => (l_calls s <= l_calls s')%nat)
    (fun f s' => (l_calls s <= l_calls s')%nat /\ plain_fault c f s') s.

Lemma forward_bind {A B} c (m : listenerM A) (f : A -> listenerM B) :
  forward c m -> (forall a, forward c (f a)) -> forward c (m ≫= f).
Proof.
  intros Hm Hf s. specialize (Hm s). unfold wp, mbind, stm_bind in *.
  destruct (m s) as [[a|e] s1]; [|done]. specialize (Hf a s1). unfold wp in Hf.
  destruct (f a s1) as [[b|e] s2]; [lia|]. split; [lia|apply Hf].
Qed.

Lemma forward_ret {A} c (a : A) : forward c (mret a).
Proof. intros s. apply wp_ret. lia. Qed.
Lemma forward_get c : forward c get_state.
Proof. intros s. apply wp_get. lia. Qed.
Lemma forward_emit c e : forward c (emit e).
Proof. intros s. apply wp_modify. simpl. lia. Qed.
Lemma forward_set_state c st : forward c (set_state st).
Proof. intros s. apply wp_modify. simpl. lia. Qed.
Lemma forward_throw {A} c e : forward c (throw (LErr e) : listenerM A).
Proof. intros s. apply wp_throw. split; [lia|done]. Qed.

Lemma forward_call {A} c (f : nat -> Result A) : forward c (call w c f).
Proof.
  intros s. unfold wp, call, mbind, stm_bind, next_call. destruct c; simpl.
  - destruct (w_stop w (l_calls s)) eqn:E; simpl.
    + split; [lia|]. split; [done|]. exists (l_calls s). split; [simpl; lia|done].
    + destruct (f _); simpl; [lia|]. split; [lia|done].
  - destruct (f _); simpl; [lia|]. split; [lia|done].
Qed.

Lemma forward_perform c f e : forward c (perform w c f e).
Proof.
  intros s. apply wp_perform; simpl; [lia|intros; split; [lia|done]|].
  intros -> Hs. split; (split; [simpl; lia|]); (split; [done|exact Hs]).
Qed.

Lemma forward_for_each {A} c (f : A -> listenerM unit) (items : list A) :
  (forall a, forward c (f a)) -> forward c (for_each f items).
Proof. intros Hf. induction items; simpl; [apply forward_ret|]. by apply forward_bind. Qed.

#[local] Hint Resolve forward_ret forward_get forward_emit forward_set_state forward_throw forward_call forward_perform
  forward_for_each : core.

Ltac forward := repeat first [solve [auto] | case_match | apply forward_bind; [|intros] | apply forward_for_each; intros].

Lemma forward_observe c id : forward c (observe w c id).
Proof. unfold observe. forward. Qed.
#[local] Hint Resolve forward_observe : core.
Lemma forward_window c latest : forward c (reconcile_active_window w c latest).
Proof. unfold reconcile_active_window, reconcile_height. forward. Qed.
Lemma forward_replace_at c local h : forward c (replace_at w c local h).
Proof. unfold replace_at. forward. Qed.
#[local] Hint Resolve forward_window forward_replace_at : core.
Lemma forward_initialize c : forward c (initialize w client updates c).
Proof. unfold initialize. forward. Qed.
Lemma forward_process_block block : forward false (process_block w updates block).
Proof. unfold process_block. forward. Qed.

(** At least [fuel] awaits found the stop token alive. *)
Definition busy (fuel : nat) s : Prop :=
  fuel = O \/ exists k, (l_calls s + fuel <= S k)%nat /\ w_stop w k = false.

Definition exit_fault (fuel : nat) s (f : Fault) s' : Prop :=
  match f with
  | LErr e => is_fatal e = true \/ stop_seen s'
  | Cancelled => False
  | StillRunning => busy fuel s
  end.

(** A session that ends stopped saw the token. *)
Definition exit_ok s (x : SessionExit) s' : Prop :=
  (l_calls s <= l_calls s')%nat /\ match x with Stopped => stop_seen s' | Reconnect e _ => is_fatal e = false end.

Lemma stop_seen_later s s' : stop_seen s -> (l_calls s <= l_calls s')%nat -> stop_seen s'.
Proof. intros (k&Hk&E) Hl. exists k. split; [lia|done]. Qed.

Lemma wp_close_stopped fuel s0 s :
  stop_seen s -> (l_calls s0 <= l_calls s)%nat ->
  wp (_ ← close w; mret Stopped) (exit_ok s0) (exit_fault fuel s0) s.
Proof.
  intros Hs Hl. apply wp_bind, wp_close; [intros s' G|intros e s' G]; pose proof (grows_calls _ _ G).
  - apply wp_ret. split; [lia|]. by eapply stop_seen_later.
  - right. by eapply stop_seen_later.
Qed.

Lemma wp_lost fuel e established s0 s :
  (l_calls s0 <= l_calls s)%nat -> wp (lost e established) (exit_ok s0) (exit_fault fuel s0) s.
Proof.
  intros Hl. unfold lost. destruct (is_fatal e) eqn:E; [apply wp_throw; by left|by apply wp_ret].
Qed.

Lemma wp_close_lost fuel e established s0 s :
  (l_calls s0 <= l_calls s)%nat ->
  wp (_ ← caught (close w); lost e established) (exit_ok s0) (exit_fault fuel s0) s.
Proof.
  intros Hl. apply wp_bind, wp_caught, wp_close; [intros s' G|intros e' s' G]; apply wp_lost;
    pose proof (grows_calls _ _ G); lia.
Qed.

Lemma session_loop_exits fuel s :
  wp (session_loop w updates fuel) (exit_ok s) (exit_fault fuel s) s.
Proof.
  revert s. induction fuel as [|fuel IH]; intros s; simpl; [apply wp_throw; by left|].
  apply wp_bind. unfold wp at 1, next_call. set (s1 := mkListener _ _ _ _).
  destruct (w_stop w (l_calls s)) eqn:Es.
  { apply wp_close_stopped; [exists (l_calls s); split; [simpl; lia|done]|simpl; lia]. }
  destruct (subscription_next _) as [[block|]|e]; 
    [|apply wp_bind, wp_transport; intros s2 G2; pose proof (grows_calls _ _ G2); simpl in *;
      first [apply wp_ret; split; [lia|done]|apply wp_lost; lia]..].
  apply wp_bind, wp_caught.
  pose proof (forward_process_block block s1) as W. unfold wp in W |- *.
  destruct (process_block w updates block s1) as [[[]|f] s2].
  - specialize (IH s2). unfold wp in IH. destruct (session_loop w updates fuel s2) as [[x|f] s3].
    + destruct IH as [Hl Hx]. split; [simpl in *; lia|done].
    + destruct f as [e| |]; [exact IH|done|]. right. destruct IH as [->|(k&Hk&Hs)].
      * exists (l_calls s). split; [lia|done].
      * exists k. split; [simpl in *; lia|done].
  - destruct W as [Hl Hf]. destruct f as [e| |]; [apply wp_close_lost; simpl in *; lia|by destruct Hf|done].
Qed.

Lemma run_session_exits fuel s :
  wp (run_session w client updates fuel) (exit_ok s) (exit_fault (S fuel) s) s.
Proof.
  unfold run_session. apply wp_bind, wp_cancel_or, wp_subscribe.
  2: { intros e s' G. apply wp_lost, G. }
  2: { intros s' G Hs. apply wp_ret. by split; [apply G|]. }
  intros s1 _ Es Hl1. apply wp_bind, wp_cancel_or. pose proof (forward_initialize true s1) as W. unfold wp in W |- *.
  destruct (initialize w client updates true s1) as [[[]|f] s2].
  - apply wp_bind. unfold send_ready, wp at 1.
    set (s3 := mkListener (l_state s2) true (l_calls s2) (l_log s2 ++ [ReadySent])).
    assert (forall s', l_calls s' = l_calls s2 -> wp (session_loop w updates fuel) (exit_ok s) (exit_fault (S fuel) s) s') as D.
    { intros s' Hc. pose proof (session_loop_exits fuel s') as X. unfold wp in *.
      destruct (session_loop w updates fuel s') as [[x|f] s4].
      - destruct X as [Hl Hx]. split; [simpl in *; lia|done].
      - destruct f as [e| |]; [exact X|done|]. right. destruct X as [->|(k&Hk&Hs)].
        + exists (l_calls s). split; [lia|done].
        + exists k. split; [simpl in *; lia|done]. }
    destruct (l_ready s2); by apply D.
  - destruct W as [Hl Hf]. destruct f as [e| |].
    + apply wp_close_lost. simpl in *; lia.
    + apply wp_close_stopped; [apply Hf|simpl in *; lia].
    + done.
Qed.

Lemma listener_loop_exits config fuel backoff s :
  wp (listener_loop w client updates config fuel backoff) (fun _ => stop_seen) (exit_fault fuel s) s.
Proof.
  revert backoff s. induction fuel as [|fuel IH]; intros backoff s; simpl; [apply wp_throw; by left|].
  apply wp_bind. pose proof (run_session_exits fuel s) as W. unfold wp in W |- *.
  destruct (run_session w client updates fuel s) as [[[|e established]|f] s1]; [apply W| |exact W].
  destruct W as [Hl _]. unfold mbind, stm_bind, next_call. simpl.
  destruct (w_stop w (l_calls s1)) eqn:Es; [exists (l_calls s1); split; [simpl; lia|done]|].
  set (b := if established then _ else _).
  set (s2 := mkListener _ _ _ _). specialize (IH (next_backoff config b) s2). unfold wp in IH.
  destruct (listener_loop w client updates config fuel _ s2) as [[[]|f] s3]; [done|].
  destruct f as [e'| |]; [exact IH|done|]. right. destruct IH as [->|(k&Hk&Hs)].
  - exists (l_calls s1). split; [lia|done].
  - exists k. split; [simpl in *; lia|done].
Qed.
End world.

(** ** The back-off *)

Lemma next_backoff_bounds config backoff :
  0 <= reconnect_initial_backoff config <= reconnect_max_backoff config ->
  reconnect_initial_backoff config <= backoff <= reconnect_max_backoff config ->
  reconnect_initial_backoff config <= next_backoff config backoff <= reconnect_max_backoff config
  /\ backoff <= next_backoff config backoff.
Proof.
  intros Hi Hb. unfold next_backoff, duration_checked_mul. case_match; simpl; lia.
Qed.

Lemma full_jitter_bounds random maximum :
  0 <= maximum -> (forall m, 0 <= m -> 0 <= random m <= m) -> 0 <= full_jitter random maximum <= maximum.
Proof.
  intros Hm Hr. unfold full_jitter, from_millis.
  assert (0 <= maximum / 1000000) by (apply Z.div_pos; lia).
  pose proof (Z.mul_div_le maximum 1000000 ltac:(lia)).
  assert (0 <= u64_max) by (unfold u64_max; lia).
  specialize (Hr (Z.min (maximum / 1000000) u64_max) ltac:(lia)). lia.
Qed.

(** ** The properties *)

Lemma initial_inv updates : inv updates initial_listener.
Proof. split; [|split]; [done| |done]. intros id Hid. by apply elem_of_nil in Hid. Qed.


(** C32: How the listener ends. It returns only after it saw the stop token cancelled; it fails
    only with a fatal error, or with an error of closing the subscription after it saw the
    token; any other error leads to another session. Once the token is cancelled for good it
    ends: if that is so from its [n]-th await on, it goes through at most [n] rounds. *)
Theorem listener_ends (w : World) (client : PulsarClient) (updates : option PeerId)
  (config : ListenerConfig) (fuel : nat) :
  let (r, s) := run_listener w client updates config fuel initial_listener in
  match r with
  | Ok _ => stop_seen w s
  | Err (LErr e) => is_fatal e = true \/ stop_seen w s
  | Err Cancelled => False
  | Err StillRunning => forall n, (forall k, (n <= k)%nat -> w_stop w k = true) -> (fuel <= n)%nat
  end.
Proof.
  pose proof (listener_loop_exits w client updates config fuel (reconnect_initial_backoff config) initial_listener) as W.
  unfold run_listener, wp in *. destruct (listener_loop _ _ _ _ _ _ _) as [[[]|[e| |]] s]; [done..|].
  intros n Hn. destruct W as [->|(k&Hk&Hs)]; [lia|]. simpl in Hk.
  destruct (decide (n <= k)%nat) as [Hle|]; [|lia]. rewrite Hn in Hs by done. done.
Qed.
End listener.
