(* ===== verification/ListenerTransport.v ===== *)
(** * The transport task of the listener's subscriptions

    Each session of the listener (listener.rs) subscribes through a WebSocket whose driver is a
    task of its own, owned by the [NewBlockSubscription] (chain/client.rs). *)

From stdpp Require Import base gmap list strings.
From S2P Require Import Prelude Types StdText Wire ProofId ConfigTypes Chain P2pIdentity Listener ListenerProps.

(** Whether a driver task runs, and who owns it. *)
Inductive DriverTask : Set :=
| NoDriver
| Owned
| Unowned.

Section transport.
Context `{Libp2p, !IdentityLib, !HeightText, !Sha256, !Hex,
  !Message QueryProofsByHeightRequest, !Message QueryProofsByHeightResponse}.

(** [None] when the log makes no sense: a second task is spawned beside the first, or a task
    ends that does not run. *)
Definition driver_step (d : option DriverTask) (e : LEvent) : option DriverTask :=
  match e, d with
  | Transport DriverSpawned, Some NoDriver => Some Owned
  | Transport DriverJoined, Some Owned | Transport DriverAborted, Some Owned => Some NoDriver
  | Transport DriverDetached, Some Owned => Some Unowned
  | Transport _, _ => None
  | _, _ => d
  end.

Definition driver_after (log : list LEvent) : option DriverTask := foldl driver_step (Some NoDriver) log.

Definition driver (s : Listener) : option DriverTask := driver_after (l_log s).

Lemma driver_emit s e c :
  driver (mkListener (l_state s) (l_ready s) c (l_log s ++ [e])) = driver_step (driver s) e.
Proof. unfold driver, driver_after. simpl. by rewrite foldl_app. Qed.

Section world.
Context (w : World) (client : PulsarClient) (updates : option PeerId).

Abbreviation listenerM := (stm Listener Fault).

(** [m] leaves the driver task alone. *)
Definition quiet {A} (m : listenerM A) : Prop := forall s,
  wp m (fun _ s' => driver s' = driver s) (fun _ s' => driver s' = driver s) s.

Lemma quiet_bind {A B} (m : listenerM A) (f : A -> listenerM B) :
  quiet m -> (forall a, quiet (f a)) -> quiet (m ≫= f).
Proof.
  intros Hm Hf s. specialize (Hm s). unfold wp, mbind, stm_bind in *.
  destruct (m s) as [[a|e] s1]; [|done]. specialize (Hf a s1). unfold wp in Hf.
  destruct (f a s1) as [[b|e] s2]; congruence.
Qed.

Lemma quiet_ret {A} (a : A) : quiet (mret a).
Proof. intros s. by apply wp_ret. Qed.
Lemma quiet_get : quiet get_state.
Proof. intros s. by apply wp_get. Qed.
Lemma quiet_throw {A} f : quiet (throw f : listenerM A).
Proof. intros s. by apply wp_throw. Qed.
Lemma quiet_set_state st : quiet (set_state st).
Proof. intros s. by apply wp_modify. Qed.
Lemma quiet_next_call : quiet next_call.
Proof. by intros s. Qed.
Lemma quiet_emit e : (forall a, e <> Transport a) -> quiet (emit e).
Proof. intros He s. apply wp_modify. rewrite driver_emit. destruct e; try done. by destruct (He action). Qed.

#[local] Hint Resolve quiet_ret quiet_get quiet_throw quiet_set_state quiet_next_call : core.
#[local] Hint Extern 1 (quiet (emit _)) => (apply quiet_emit; intros ?; discriminate) : core.

Ltac quiet := repeat first [solve [auto] | case_match | apply quiet_bind; [|intros]].

Lemma quiet_call {A} c (f : nat -> Result A) : quiet (call w c f).
Proof. unfold call. quiet. Qed.
Lemma transport_quiet_for_each {A} (f : A -> listenerM unit) (items : list A) :
  (forall a, quiet (f a)) -> quiet (for_each f items).
Proof. intros Hf. induction items; simpl; quiet. Qed.
#[local] Hint Resolve quiet_call transport_quiet_for_each : core.

Lemma quiet_observe c id : quiet (observe w c id).
Proof. unfold observe. quiet. Qed.
#[local] Hint Resolve quiet_observe : core.
Lemma quiet_window c latest : quiet (reconcile_active_window w c latest).
Proof. apply transport_quiet_for_each. intros h. unfold reconcile_height. quiet. Qed.
Lemma quiet_replace_at c local h : quiet (replace_at w c local h).
Proof. unfold replace_at. quiet. Qed.
#[local] Hint Resolve quiet_window quiet_replace_at : core.
Lemma quiet_initialize c : quiet (initialize w client updates c).
Proof. unfold initialize. quiet. Qed.
Lemma quiet_process_block block : quiet (process_block w updates block).
Proof. unfold process_block. quiet. Qed.
Lemma quiet_send_ready : quiet send_ready.
Proof.
  intros s. unfold wp, send_ready. destruct (l_ready s); [done|].
  unfold driver, driver_after. simpl. by rewrite foldl_app.
Qed.

(** ** The three ends of a subscription *)

(** A subscription is there exactly when subscribing succeeded. A failure leaves no task; the stop
    token leaves none, or one without an owner. *)
Definition left_behind s : Prop :=
  exists before, l_log s = before ++ [Transport DriverSpawned; Transport DriverDetached] /\
    driver_after before = Some NoDriver.

Lemma subscribe_driver s :
  driver s = Some NoDriver ->
  wp (subscribe_new_blocks w client) (fun _ s' => driver s' = Some Owned)
    (fun f s' => match f with
     | Cancelled => driver s' = Some NoDriver \/ left_behind s'
     | _ => driver s' = Some NoDriver
     end) s.
Proof.
  intros Hd. unfold subscribe_new_blocks, call, wp, mbind, stm_bind, next_call. simpl.
  destruct (w_stop w (l_calls s)); simpl; [by left|].
  destruct (subscribe_connect _ _ _) as [[]|e]; simpl; [|done].
  destruct (w_stop w (S (l_calls s))); simpl.
  - right. exists (l_log s). by rewrite <- app_assoc.
  - destruct (with_timeout _ _) as [[]|e]; simpl; unfold driver, driver_after in *; simpl;
      by rewrite !foldl_app, Hd.
Qed.

Lemma close_driver s :
  driver s = Some Owned ->
  wp (close w) (fun _ s' => driver s' = Some NoDriver)
    (fun f s' => (exists e, f = LErr e) /\ driver s' = Some NoDriver) s.
Proof.
  intros Hd. unfold close, wp, mbind, stm_bind, next_call, subscription_close.
  destruct (w_client_close w _) as [[]|e]; [destruct (w_driver_end w _) as [[[[]|e]|e]|]|]; simpl;
    repeat split; eauto; unfold driver, driver_after in *; simpl; by rewrite foldl_app, Hd.
Qed.

Lemma drop_driver s :
  driver s = Some Owned -> wp drop_blocks (fun _ s' => driver s' = Some NoDriver) (fun _ _ => False) s.
Proof.
  intros Hd. apply wp_bind, wp_modify, wp_ret. unfold driver, driver_after in *. simpl. by rewrite foldl_app, Hd.
Qed.

(** ** Sessions *)

Definition fault_driver (f : Fault) s : Prop :=
  match f with
  | LErr _ => driver s = Some NoDriver
  | Cancelled => False
  | StillRunning => driver s = Some NoDriver \/ driver s = Some Owned
  end.

Definition exit_driver (x : SessionExit) s : Prop :=
  driver s = Some NoDriver \/ x = Stopped /\ left_behind s.

Lemma lost_driver error established s :
  driver s = Some NoDriver -> wp (lost error established) exit_driver fault_driver s.
Proof. intros Hd. unfold lost. destruct (is_fatal error); [by apply wp_throw|apply wp_ret; by left]. Qed.

Lemma close_lost_driver error established s :
  driver s = Some Owned ->
  wp (_ ← caught (close w); lost error established) exit_driver fault_driver s.
Proof.
  intros Hd. apply wp_bind, wp_caught. pose proof (close_driver s Hd) as W. unfold wp in W |- *.
  destruct (close w s) as [[[]|f] s']; [by apply lost_driver|]. destruct W as [[e ->] W]. by apply lost_driver.
Qed.

Lemma close_stopped_driver s :
  driver s = Some Owned -> wp (_ ← close w; mret Stopped) exit_driver fault_driver s.
Proof.
  intros Hd. apply wp_bind. pose proof (close_driver s Hd) as W. unfold wp in W |- *.
  destruct (close w s) as [[[]|f] s']; [by left|]. by destruct W as [[e ->] W].
Qed.

Lemma session_loop_driver fuel s :
  driver s = Some Owned -> wp (session_loop w updates fuel) exit_driver fault_driver s.
Proof.
  revert s. induction fuel as [|fuel IH]; intros s Hd; simpl; [apply wp_throw; by right|].
  apply wp_bind. unfold wp at 1, next_call. set (s1 := mkListener _ _ _ _).
  assert (driver s1 = Some Owned) as Hd1 by done.
  destruct (w_stop w (l_calls s)); [by apply close_stopped_driver|].
  destruct (subscription_next _) as [[block|]|e].
  - apply wp_bind, wp_caught. pose proof (quiet_process_block block s1) as W.
    pose proof (forward_process_block w updates block s1) as F. unfold wp in W, F |- *.
    destruct (process_block w updates block s1) as [[[]|f] s2]; [apply IH; congruence|].
    rewrite Hd1 in W. destruct f as [e| |]; [by apply close_lost_driver|by destruct F as [_ [? _]]|by destruct F].
  - apply wp_bind. pose proof (drop_driver s1 Hd1) as W. unfold wp in W |- *.
    destruct (drop_blocks s1) as [[[]|f] s2]; [by left|done].
  - apply wp_bind. pose proof (drop_driver s1 Hd1) as W. unfold wp in W |- *.
    destruct (drop_blocks s1) as [[[]|f] s2]; [by apply lost_driver|done].
Qed.

Lemma run_session_driver fuel s :
  driver s = Some NoDriver -> wp (run_session w client updates fuel) exit_driver fault_driver s.
Proof.
  intros Hd. unfold run_session. apply wp_bind, wp_cancel_or.
  pose proof (subscribe_driver s Hd) as W.
  assert (wp (subscribe_new_blocks w client) (fun _ _ => True) (fun f _ => f <> StillRunning) s) as N
    by (by apply wp_subscribe).
  unfold wp in W, N |- *.
  destruct (subscribe_new_blocks w client s) as [[[]|[e| |]] s1];
    [|by apply lost_driver|by destruct W; [left|right]|done].
  apply wp_bind, wp_cancel_or. pose proof (quiet_initialize true s1) as Wi.
  pose proof (forward_initialize w client updates true s1) as F. unfold wp in Wi, F |- *.
  destruct (initialize w client updates true s1) as [[[]|[e| |]] s2]; rewrite W in Wi.
  - apply wp_bind. pose proof (quiet_send_ready s2) as Wr. unfold wp, send_ready in *.
    destruct (l_ready s2); apply session_loop_driver; congruence.
  - by apply close_lost_driver.
  - by apply close_stopped_driver.
  - by destruct F.
Qed.

Lemma listener_loop_driver config fuel backoff s :
  driver s = Some NoDriver ->
  wp (listener_loop w client updates config fuel backoff)
    (fun _ s' => driver s' = Some NoDriver \/ left_behind s') fault_driver s.
Proof.
  revert backoff s. induction fuel as [|fuel IH]; intros backoff s Hd; simpl; [apply wp_throw; by left|].
  apply wp_bind. eapply wp_mono; [by apply run_session_driver|].
  intros [|e established] s1 Hx; [apply wp_ret; by destruct Hx as [|[_ ?]]; [left|right]|].
  destruct Hx as [Hd1|[? _]]; [|done]. apply wp_bind. unfold wp at 1, next_call.
  destruct (w_stop w (l_calls s1)); [apply wp_ret; by left|].
  apply wp_bind, wp_modify, IH. by rewrite driver_emit.
Qed.
End world.

(** C18: the listener owns the transport task of its subscription. Through every number of
    sessions, however the chain, the transport and the stop token answer, a task is spawned
    only when none runs, and when a session ends, by a stop, an error, a closed stream or a
    close that fails or runs out of time, its task was joined or aborted before anything
    else is done. When the listener has returned none is left, with one exception: a stop token
    that wins while the subscribe request is awaited leaves the task it has just spawned
    running without an owner. *)
Theorem listener_owns_transport (w : World) (client : PulsarClient) (updates : option PeerId)
  (config : ListenerConfig) (fuel : nat) :
  let (r, s) := run_listener w client updates config fuel initial_listener in
  match r with
  | Ok _ => driver s = Some NoDriver \/ left_behind s
  | Err StillRunning => driver s = Some NoDriver \/ driver s = Some Owned
  | Err _ => driver s = Some NoDriver
  end.
Proof.
  pose proof (listener_loop_driver w client updates config fuel (reconnect_initial_backoff config)
    initial_listener eq_refl) as W. unfold run_listener, wp in *.
  destruct (listener_loop _ _ _ _ _ _ _) as [[[]|[e| |]] s]; done.
Qed.

(** The exception happens: a listener that is stopped while its first subscribe request is awaited. *)
Lemma stop_while_subscribing (w : World) (client : PulsarClient) updates config fuel :
  w_stop w 0 = false -> subscribe_connect client (w_url_ok w) (w_connect w 0) = Ok tt -> w_stop w 1 = true ->
  let (r, s) := run_listener w client updates config (S fuel) initial_listener in
  r = Ok tt /\ l_log s = [Transport DriverSpawned; Transport DriverDetached].
Proof.
  intros Hs Hc Ht. unfold run_listener. simpl.
  unfold run_session, cancel_or, caught, subscribe_new_blocks, call, mbind, stm_bind, next_call. simpl.
  rewrite Hs. simpl. rewrite Hc. simpl. rewrite Ht. done.
Qed.
End transport.
