(* ===== verification/Broadcast.v ===== *)
(** * Event subscriptions (tokio::sync::broadcast, as src/src/store/mod.rs uses it)

    The sender's history is a list; a receiver is a position in it. The channel retains the
    last [capacity] values: a receiver that is further behind gets [Lagged] with the number
    of values it lost and resumes at the oldest retained one. *)

From stdpp Require Import base list.
From S2P Require Import Prelude.

Inductive RecvError : Set :=
| Lagged (skipped : nat)
| Closed.

Section broadcast.
Context {T : Type} (capacity : nat).

(** [Receiver::recv], when it is ready: the result and the new position. *)
Definition recv (log : list T) (cursor : nat) : option (result RecvError T * nat) :=
  let behind := (length log - cursor)%nat in
  if (capacity <? behind)%nat then
    Some (Err (Lagged (behind - capacity)), (length log - capacity)%nat)
  else match log !! cursor with
  | Some e => Some (Ok e, S cursor)
  | None => None
  end.

Definition unread (log : list T) (cursor : nat) : list T := drop cursor log.

Definition lagged (log : list T) (cursor : nat) : bool :=
  (capacity <? length log - cursor)%nat.

Lemma recv_ok log cursor e c' :
  recv log cursor = Some (Ok e, c') ->
  c' = S cursor /\ unread log cursor = e :: unread log c' /\ lagged log cursor = false.
Proof.
  unfold recv, lagged, unread. destruct (Nat.ltb_spec capacity (length log - cursor)); [done|].
  destruct (log !! cursor) as [x|] eqn:El; [|done]. intros [= <- <-].
  split_and!; [done|by apply drop_S|done].
Qed.

Lemma recv_lagged log cursor n c' :
  recv log cursor = Some (Err (Lagged n), c') ->
  (cursor <= c' <= length log)%nat /\ (n = c' - cursor)%nat /\ lagged log c' = false.
Proof.
  unfold recv, lagged. destruct (Nat.ltb_spec capacity (length log - cursor)); [|by destruct (_ !! _)].
  intros [= <- <-]. split_and!; [lia..|]. apply Nat.ltb_ge. lia.
Qed.

Lemma recv_open log cursor c' : recv log cursor <> Some (Err Closed, c').
Proof. unfold recv. destruct (_ <? _)%nat; [done|]. by destruct (log !! cursor). Qed.

Lemma recv_none log cursor :
  recv log cursor = None -> unread log cursor = [] /\ lagged log cursor = false.
Proof.
  unfold recv, lagged, unread. destruct (_ <? _)%nat; [done|].
  destruct (log !! cursor) as [x|] eqn:El; [done|]. intros _.
  apply lookup_ge_None in El. by rewrite drop_ge.
Qed.

Lemma unread_app log cursor l :
  (cursor <= length log)%nat -> unread (log ++ l) cursor = unread log cursor ++ l.
Proof. intros Hc. apply drop_app_le, Hc. Qed.

Lemma lagged_app log cursor l : lagged log cursor = true -> lagged (log ++ l) cursor = true.
Proof. unfold lagged. rewrite !Nat.ltb_lt, length_app. lia. Qed.
End broadcast.
