(* ===== verification/Verification.v ===== *)
(** * Verifier registry and verification worker
    (src/src/verification/mod.rs, src/src/verification/worker.rs)

    The worker's [run] is a state machine whose control points are its await points; the
    handlers between them are functions. The verifier back ends are trait objects of a
    type of their own. *)

From stdpp Require Import base gmap list strings relations.
From S2P Require Import Prelude Types Wire ProofId StoreRecord ConfigTypes Store StoreProps Broadcast.

Definition ATTEMPT_CLEANUP_TIMEOUT : Z := from_secs 2.

(** ** Registry *)

Section registry.
(** [Arc<dyn Verifier>] *)
Context {V : Type}.

(** [VerifierRegistry]: the hash map as an association list without duplicate keys. *)
Definition VerifierRegistry : Type := list (ProofType * V).

(** [VerifierRegistry::get]. *)
Fixpoint registry_get (registry : VerifierRegistry) (t : ProofType) : option V :=
  match registry with
  | [] => None
  | (t', v) :: registry' => if decide (t = t') then Some v else registry_get registry' t
  end.

Fixpoint registry_insert_all (registry : VerifierRegistry) (l : list (ProofType * V))
  : Result VerifierRegistry :=
  match l with
  | [] => Ok registry
  | (t, v) :: l' =>
      match registry_get registry t with
      | Some _ => Err (DuplicateVerifier t)
      | None => registry_insert_all ((t, v) :: registry) l'
      end
  end.

(** [VerifierRegistry::new]. *)
Definition VerifierRegistry_new (verifiers : list (ProofType * V)) : Result VerifierRegistry :=
  registry_insert_all [] verifiers.
End registry.
Arguments VerifierRegistry V : clear implicits.

(** ** Executing one job *)

(** How a future ends: [Ok] a returned value, [Err] a panic. *)
Definition verify_result : Type := result VerificationFailure VerificationVerdict.

(** What the verifier does in one attempt: when and how [verify] ends by itself, and how
    long it takes to end once it was cancelled; [None] is never. *)
Record Attempt : Type := mkAttempt {
  ends : option (Z * result unit verify_result);
  ends_after_cancel : option Z
}.

(** [failure]; the static codes and messages satisfy the bounds ([failure_new]). *)
Definition failure (code message : string) (retryable : bool) : VerificationFailure :=
  match VerificationFailure_new code message retryable with
  | Ok f => f
  | Err _ => mkFailure code message retryable
  end.

(** [tokio::time::timeout] on a future: whether it ended in time, and the time that passed. *)
Definition timed {T} (limit : Z) (future : option (Z * T)) : option T * Z :=
  match future with
  | Some (d, t) => if d <=? limit then (Some t, d) else (None, limit)
  | None => (None, limit)
  end.

(** [execute_attempt], with the time it takes. *)
Definition execute_attempt (attempt : Attempt) (attempt_timeout : Z) : VerificationOutcome * Z :=
  match timed attempt_timeout (ends attempt) with
  | (Some (Ok (Ok verdict)), d) => (OutcomeCompleted verdict, d)
  | (Some (Ok (Err error)), d) => (OutcomeFailed error, d)
  | (Some (Err _), d) =>
      (OutcomeFailed (failure "verifier_panicked" "verifier backend panicked" false), d)
  | (None, d) =>
      let cleanup := timed ATTEMPT_CLEANUP_TIMEOUT ((fun t => (t, tt)) <$> ends_after_cancel attempt) in
      (OutcomeFailed (failure "verification_timeout" "verification attempt timed out" true),
        d + snd cleanup)
  end.

Definition outcome_retryable (o : VerificationOutcome) : bool :=
  match o with OutcomeFailed error => retryable error | OutcomeCompleted _ => false end.

(** [1_u32 << attempt]; the shift amount is taken modulo the width. *)
Definition shl_u32 (attempt : Z) : Z := Z.shiftl 1 (attempt mod 32) mod 2 ^ 32.

(** The loop of [execute_job] from attempt number [attempt] on, [left] attempts before the
    last one; [attempts] are the verifier's behaviours, by attempt number. *)
Fixpoint attempt_loop (config : VerificationConfig) (attempts : nat -> Attempt)
  (left : nat) (attempt : nat) : VerificationOutcome * Z :=
  let (outcome, d) := execute_attempt (attempts attempt) (job_timeout config) in
  match left with
  | O => (outcome, d)
  | S left' =>
      if negb (outcome_retryable outcome) then (outcome, d)
      else
        let pause := duration_saturating_mul (retry_backoff config) (shl_u32 (Z.of_nat attempt)) in
        let (final, d') := attempt_loop config attempts left' (S attempt) in
        (final, d + pause + d')
  end.

Section worker.
Context `{Libp2p, Sha256, ProstVarint} {V : Type}.

Record JobCompletion : Type := mkCompletion {
  completion_job : VerificationJob;
  outcome : VerificationOutcome
}.

(** [execute_job], with the time it takes; [verify] is what the verifier does on a proof in
    each attempt. *)
Definition execute_job (verify : V -> Proof_ -> nat -> Attempt) (job : VerificationJob)
  (verifier : option V) (config : VerificationConfig) : JobCompletion * Z :=
  match verifier with
  | None =>
      (mkCompletion job (OutcomeFailed (failure "unsupported_proof_type"
        "no verifier backend is registered for this proof type" false)), 0)
  | Some v =>
      let (o, d) := attempt_loop config (verify v (job_proof job)) (Z.to_nat (max_retries config)) 0 in
      (mkCompletion job o, d)
  end.

(** ** The worker *)

Record VerificationWorker : Type := mkWorker {
  store_events : nat;
  registry : VerifierRegistry V;
  worker_config : VerificationConfig;
  pending : list VerificationId;
  pending_ids : gset VerificationId;
  active_ids : gset VerificationId;
  jobs : list VerificationJob
}.

Definition set_cursor (c : nat) (w : VerificationWorker) : VerificationWorker :=
  mkWorker c (registry w) (worker_config w) (pending w) (pending_ids w) (active_ids w) (jobs w).
Definition set_pending (l : list VerificationId) (ids : gset VerificationId)
  (w : VerificationWorker) : VerificationWorker :=
  mkWorker (store_events w) (registry w) (worker_config w) l ids (active_ids w) (jobs w).
Definition set_active (ids : gset VerificationId) (l : list VerificationJob)
  (w : VerificationWorker) : VerificationWorker :=
  mkWorker (store_events w) (registry w) (worker_config w) (pending w) (pending_ids w) ids l.

(** [VerificationWorker::new]: subscribes at the end of what was published. *)
Definition VerificationWorker_new (s : ProofStore) (registry : VerifierRegistry V)
  (config : VerificationConfig) : VerificationWorker :=
  mkWorker (length (events s)) registry config [] ∅ ∅ [].

Definition enqueue (id : VerificationId) (w : VerificationWorker) : VerificationWorker :=
  if negb (bool_decide (id ∈ active_ids w)) && negb (bool_decide (id ∈ pending_ids w))
  then set_pending (pending w ++ [id]) ({[id]} ∪ pending_ids w) w
  else w.

Definition remove_pending (id : VerificationId) (w : VerificationWorker) : VerificationWorker :=
  if bool_decide (id ∈ pending_ids w)
  then set_pending (filter (fun p => p <> id) (pending w)) (pending_ids w ∖ {[id]}) w
  else w.

Definition reconcile_ready_records (s : ProofStore) (w : VerificationWorker) : VerificationWorker :=
  foldl (fun w p => enqueue (stored_id p) w) (set_pending [] ∅ w)
    (records_ready_for_verification s).

Definition handle_store_result (s : ProofStore) (event : result RecvError ProofStoreEvent)
  (w : VerificationWorker) : Result VerificationWorker :=
  match event with
  | Ok (VerificationChanged id Queued) => Ok (enqueue id w)
  | Ok (ProofEvicted id _) => Ok (remove_pending id w)
  | Ok _ => Ok w
  | Err (Lagged _) => Ok (reconcile_ready_records s w)
  | Err Closed => Err (ProofStoreError "proof store event channel closed")
  end.

(** Control points of [run]: before the first statement; in the loop of
    [start_ready_jobs]; at [select!]; in [commit_completion] between finishing the record
    and reading it again, [draining] when called from the final loop; in the final loop;
    returned. *)
Inductive control : Type :=
| Created
| Starting
| Selecting
| Rechecking (id : VerificationId) (draining : bool)
| Draining
| Returned (r : Result unit).

(** One pass of the loop of [start_ready_jobs], the stop token not cancelled: the new
    control point, the worker, and the store if [begin_verification] was called. *)
Definition start_pass (w : VerificationWorker) (s : ProofStore)
  : control * VerificationWorker * option ProofStore :=
  if negb (len (jobs w) <? max_concurrent_jobs (worker_config w)) then (Selecting, w, None)
  else match pending w with
  | [] => (Selecting, w, None)
  | id :: rest =>
      let w1 := set_pending rest (pending_ids w ∖ {[id]}) w in
      if bool_decide (id ∈ active_ids w1) then (Starting, w1, None)
      else match begin_verification id s with
      | (Err e, s') => (Returned (Err e), w1, Some s')
      | (Ok None, s') => (Starting, w1, Some s')
      | (Ok (Some job), s') =>
          (Starting, set_active ({[id]} ∪ active_ids w1) (jobs w1 ++ [job]) w1, Some s')
      end
  end.

(** [commit_completion] up to its second await, after the job left the set: the job's
    record is finished. *)
Definition commit_completion_finish (draining : bool) (now : Instant) (completion : JobCompletion)
  (w : VerificationWorker) (s : ProofStore) : control * VerificationWorker * ProofStore :=
  let id := job_id (completion_job completion) in
  let w1 := set_active (active_ids w ∖ {[id]}) (jobs w) w in
  match finish_verification now (completion_job completion) (outcome completion) s with
  | (Ok _, s') => (Rechecking id draining, w1, s')
  | (Err e, s') => (Returned (Err e), w1, s')
  end.

(** The rest of [commit_completion]. *)
Definition commit_completion_recheck (id : VerificationId) (s : ProofStore) (w : VerificationWorker)
  : VerificationWorker :=
  match get id s with
  | Some a => if bool_decide (verification (metadata (arc_value a)) = Some Queued)
              then enqueue id w else w
  | None => w
  end.

(** The stop branches of [run]: pending work is dropped, claimed jobs are drained. *)
Definition begin_drain (w : VerificationWorker) : VerificationWorker := set_pending [] ∅ w.

(** ** The running system *)

Record node : Type := mkNode {
  point : control;
  worker : VerificationWorker;
  node_sys : system;
  stop : bool
}.

(** What the other users of the store do: they observe, store and retry; only the worker
    claims and finishes. *)
Inductive env_op : ProofStore -> ProofStore -> Prop :=
| env_observe t id s : env_op s (snd (observe_chain_verification t id s))
| env_insert t p source s : env_op s (snd (insert_local_proof t p source s))
| env_attach t id p peer s : env_op s (snd (attach_downloaded_proof t id p peer s))
| env_retry id s : env_op s (snd (retry_verification id s)).

Definition commit_opt (s : option ProofStore) (y : system) : system :=
  match s with Some s' => commit s' y | None => y end.

(** Where [join_next] is awaited, and when it is polled: in [select!] after the stop token
    and the events. *)
Definition join_point (draining : bool) : control := if draining then Draining else Selecting.

Definition may_join (capacity : nat) (draining : bool) (w : VerificationWorker) (y : system)
  (b : bool) : Prop :=
  draining = true \/
  b = false /\ recv capacity (events (sys_store y)) (store_events w) = None.

(** A [VerificationFailure] a verifier returns was made by [VerificationFailure::new]. *)
Definition verify_wf (verify : V -> Proof_ -> nat -> Attempt) : Prop :=
  forall v p n d f, ends (verify v p n) = Some (d, Ok (Err f)) -> failure_wf f.

(** What the registered back ends may do in the attempts of a job. *)
Context (behaves : VerificationJob -> (V -> Proof_ -> nat -> Attempt) -> Prop).

(** The worker between two await points, [capacity] being the event channel's. *)
Inductive worker_step (capacity : nat) : node -> node -> Prop :=
| ws_reconcile w y b :
    worker_step capacity (mkNode Created w y b)
      (mkNode Starting (reconcile_ready_records (sys_store y) w) y b)
| ws_start w y p' w' s' :
    start_pass w (sys_store y) = (p', w', s') ->
    worker_step capacity (mkNode Starting w y false) (mkNode p' w' (commit_opt s' y) false)
| ws_start_stopped w y :
    worker_step capacity (mkNode Starting w y true) (mkNode Draining (begin_drain w) y true)
| ws_select_stopped w y :
    worker_step capacity (mkNode Selecting w y true) (mkNode Draining (begin_drain w) y true)
| ws_event w y event cursor w' :
    recv capacity (events (sys_store y)) (store_events w) = Some (event, cursor) ->
    handle_store_result (sys_store y) event (set_cursor cursor w) = Ok w' ->
    worker_step capacity (mkNode Selecting w y false) (mkNode Starting w' y false)
| ws_event_failed w y event cursor e :
    recv capacity (events (sys_store y)) (store_events w) = Some (event, cursor) ->
    handle_store_result (sys_store y) event (set_cursor cursor w) = Err e ->
    worker_step capacity (mkNode Selecting w y false) (mkNode (Returned (Err e)) w y false)
| ws_completion w y b draining l1 job l2 verify now p' w' s' :
    may_join capacity draining w y b -> jobs w = l1 ++ job :: l2 ->
    behaves job verify ->
    commit_completion_finish draining now
      (fst (execute_job verify job (registry_get (registry w) (proof_type (job_proof job))) (worker_config w)))
      (set_active (active_ids w) (l1 ++ l2) w) (sys_store y) = (p', w', s') ->
    worker_step capacity (mkNode (join_point draining) w y b) (mkNode p' w' (commit s' y) b)
| ws_join_failed w y b draining l1 job l2 e :
    may_join capacity draining w y b -> jobs w = l1 ++ job :: l2 ->
    worker_step capacity (mkNode (join_point draining) w y b)
      (mkNode (Returned (Err (TaskError e))) (set_active (active_ids w) (l1 ++ l2) w) y b)
| ws_recheck w y b id draining :
    worker_step capacity (mkNode (Rechecking id draining) w y b)
      (mkNode (if draining then Draining else Starting)
        (commit_completion_recheck id (sys_store y) w) y b)
| ws_drained w y b :
    jobs w = [] ->
    worker_step capacity (mkNode Draining w y b) (mkNode (Returned (Ok tt)) w y b).

Inductive node_step (capacity : nat) (n : node) : node -> Prop :=
| ns_worker n' : worker_step capacity n n' -> node_step capacity n n'
| ns_env s' :
    env_op (sys_store (node_sys n)) s' ->
    node_step capacity n (mkNode (point n) (worker n) (commit s' (node_sys n)) (stop n))
| ns_publish y' :
    pub_step (node_sys n) y' -> node_step capacity n (mkNode (point n) (worker n) y' (stop n))
| ns_evict id cause :
    cause <> CauseReplaced ->
    node_step capacity n (mkNode (point n) (worker n) (sys_evict id cause (node_sys n)) (stop n))
| ns_stop : node_step capacity n (mkNode (point n) (worker n) (node_sys n) true).

(** A store was built and used, then the worker was built on it, then any interleaving. *)
Definition node_reachable (capacity : nat) (store_config : ProofStoreConfig)
  (r : VerifierRegistry V) (config : VerificationConfig) (n : node) : Prop :=
  exists s0, ProofStore_new store_config = Ok s0 /\
    rtc (node_step capacity)
      (mkNode Created (VerificationWorker_new s0 r config) (sys_init s0) false) n.
End worker.
