(* ===== verification/VerificationProps.v ===== *)
(** * The verification worker: bounded retries, exclusive claims, no lost wake-ups

    [execute_job] is bounded in attempts and time. The running worker is an interleaving of
    its own steps with every other user of the store; its invariant ([node_inv]) gives the
    concurrency limit, the match between claimed records and running jobs, and that a
    queued record is never forgotten. *)

From stdpp Require Import base gmap list strings relations.
From S2P Require Import Prelude Types Wire Samples ProofId StoreRecord ConfigTypes Store.
From S2P Require Import StoreProps StoreLimits Broadcast Verification.

(** ** Executing one job *)

Lemma failure_static :
  failure_wf (failure "unsupported_proof_type"
    "no verifier backend is registered for this proof type" false) /\
  failure_wf (failure "verifier_panicked" "verifier backend panicked" false) /\
  failure_wf (failure "verification_timeout" "verification attempt timed out" true).
Proof. by vm_compute. Qed.

Lemma timed_le {T} limit (future : option (Z * T)) : snd (timed limit future) <= limit.
Proof.
  destruct future as [[d t]|]; simpl; [|lia]. destruct (Z.leb_spec d limit); simpl; lia.
Qed.

Lemma execute_attempt_time a t : 0 <= t -> snd (execute_attempt a t) <= t + ATTEMPT_CLEANUP_TIMEOUT.
Proof.
  intros Ht. unfold execute_attempt. pose proof (timed_le t (ends a)) as H1.
  assert (0 <= ATTEMPT_CLEANUP_TIMEOUT) by done.
  destruct (timed t (ends a)) as [[[[v|f]|u]|] d]; simpl in *; try lia.
  match goal with |- context [timed ?l ?f] => pose proof (timed_le l f) end. lia.
Qed.

Lemma shl_u32_small n : 0 <= n < 32 -> shl_u32 n = 2 ^ n.
Proof.
  intros Hn. unfold shl_u32. rewrite (Z.mod_small n 32), Z.shiftl_1_l by lia.
  apply Z.mod_small. split; [lia|]. apply Z.pow_lt_mono_r; lia.
Qed.

Lemma saturating_mul_le d m : duration_saturating_mul d m <= Z.max (d * m) 0.
Proof.
  unfold duration_saturating_mul, duration_checked_mul.
  destruct (Z.leb_spec (d * m) duration_max); simpl; lia.
Qed.

(** How the loop ends: at the first outcome that is not retryable, or at the last attempt. *)
Lemma attempt_loop_outcome config attempts left n :
  exists k, (n <= k <= n + left)%nat /\
    fst (attempt_loop config attempts left n) =
      fst (execute_attempt (attempts k) (job_timeout config)) /\
    (forall i, (n <= i < k)%nat ->
      outcome_retryable (fst (execute_attempt (attempts i) (job_timeout config))) = true) /\
    (k = (n + left)%nat \/
      outcome_retryable (fst (execute_attempt (attempts k) (job_timeout config))) = false).
Proof.
  revert n. induction left as [|left IH]; intros n; simpl;
    destruct (execute_attempt (attempts n) (job_timeout config)) as [o d] eqn:E.
  - exists n. rewrite E. split_and!; [lia|lia|done|intros; lia|left; lia].
  - destruct (outcome_retryable o) eqn:Er; simpl.
    + destruct (attempt_loop _ _ _ _) as [final d'] eqn:El.
      destruct (IH (S n)) as (k & Hk & H1 & H2 & H3). rewrite El in H1. exists k.
      split_and!; [lia|lia|done| |naive_solver lia].
      intros i Hi. destruct (decide (i = n)) as [->|Hne]; [by rewrite E|]. apply H2. lia.
    + exists n. rewrite E. split_and!; [lia|lia|done|intros; lia|by right].
Qed.

Lemma attempt_loop_time config attempts left n :
  0 <= job_timeout config -> 0 <= retry_backoff config -> (n + left < 32)%nat ->
  snd (attempt_loop config attempts left n) <=
    (Z.of_nat left + 1) * (job_timeout config + ATTEMPT_CLEANUP_TIMEOUT) +
    retry_backoff config * (2 ^ Z.of_nat (n + left) - 2 ^ Z.of_nat n).
Proof.
  intros Ht Hb. revert n. induction left as [|left IH]; intros n Hn;
    pose proof (execute_attempt_time (attempts n) (job_timeout config) Ht) as Ha; simpl attempt_loop;
    destruct (execute_attempt (attempts n) (job_timeout config)) as [o d] eqn:E; simpl in Ha.
  - rewrite Nat.add_0_r, Z.sub_diag. simpl. lia.
  - assert (2 ^ Z.of_nat n <= 2 ^ Z.of_nat (n + left)) by (apply Z.pow_le_mono_r; lia).
    assert (2 ^ Z.of_nat (S n) = 2 * 2 ^ Z.of_nat n) as E2
      by (rewrite Nat2Z.inj_succ, Z.pow_succ_r by lia; lia).
    assert (2 ^ Z.of_nat (n + S left) = 2 * 2 ^ Z.of_nat (n + left)) as E3
      by (rewrite Nat.add_succ_r, Nat2Z.inj_succ, Z.pow_succ_r by lia; lia).
    assert (0 < 2 ^ Z.of_nat n) by lia.
    assert (0 <= job_timeout config + ATTEMPT_CLEANUP_TIMEOUT)
      by (unfold ATTEMPT_CLEANUP_TIMEOUT, from_secs, NANOS_PER_SEC; lia).
    destruct (negb (outcome_retryable o)); simpl snd.
    + rewrite E3. nia.
    + specialize (IH (S n) ltac:(lia)).
      destruct (attempt_loop _ _ _ _) as [final d']; simpl in IH |- *.
      pose proof (saturating_mul_le (retry_backoff config) (shl_u32 (Z.of_nat n))) as Hs.
      rewrite (shl_u32_small (Z.of_nat n)) in Hs |- * by lia.
      replace (S (n + left)) with (n + S left)%nat in IH by lia. rewrite E2 in IH.
      assert (Z.of_nat (S left) = Z.of_nat left + 1) as -> by lia.
      rewrite Z.max_l in Hs by nia. nia.
Qed.

Lemma execute_attempt_wf a t :
  (forall d f, ends a = Some (d, Ok (Err f)) -> failure_wf f) -> outcome_wf (fst (execute_attempt a t)).
Proof.
  intros Hf. unfold execute_attempt, timed. destruct failure_static as (_ & F1 & F2).
  destruct (ends a) as [[d [[v|f]|u]]|]; [..|done]; destruct (d <=? t); simpl; try done. by eapply Hf.
Qed.

Section worker_props.
Context `{Libp2p, Sha256, ProstVarint} {V : Type}.
Implicit Types (w : VerificationWorker (V := V)) (y : system).

Lemma execute_job_wf verify job (v : option V) config :
  verify_wf verify -> outcome_wf (outcome (fst (execute_job verify job v config))).
Proof.
  intros Hv. unfold execute_job. destruct v as [v|]; [|apply failure_static].
  destruct (attempt_loop_outcome config (verify v (job_proof job)) (Z.to_nat (max_retries config)) 0)
    as (k & _ & E & _). destruct (attempt_loop _ _ _ _) as [o d]. simpl in *. subst o.
  apply execute_attempt_wf. intros d' f. apply Hv.
Qed.

Lemma execute_job_id verify job (v : option V) config :
  completion_job (fst (execute_job verify job v config)) = job.
Proof. unfold execute_job. destruct v; [|done]. by destruct (attempt_loop _ _ _ _). Qed.

(** ** The store announces every queued record *)

Definition announced y : Prop := forall id,
  state_of (sys_store y) id = Some Queued ->
  VerificationChanged id Queued ∈ concat (inflight y) \/
  exists l1 l2, events (sys_store y) = l1 ++ VerificationChanged id Queued :: l2 /\
    forall c, ProofEvicted id c ∉ l2.

Definition no_eviction_owed y : Prop := forall id c, ProofEvicted id c ∉ concat (inflight y).

Lemma record_step_events max id old r evs :
  record_step max id old r evs ->
  (forall id' c, ProofEvicted id' c ∉ evs) /\
  (verification (metadata r) = Some Queued -> VerificationChanged id Queued ∈ evs).
Proof.
  intros []; unfold queued_events; simpl; split;
    try (intros; repeat case_bool_decide; set_solver);
    by destruct o.
Qed.

Lemma op_effect_announces s s' :
  op_effect s s' ->
  (forall id c, ProofEvicted id c ∉ new_events s s') /\
  (forall id, state_of s' id = Some Queued ->
    VerificationChanged id Queued ∈ new_events s s' \/ state_of s id = Some Queued).
Proof.
  unfold new_events. intros [|id r evs Hr].
  - rewrite drop_all. split; [set_solver|auto].
  - simpl. rewrite drop_app_length. apply record_step_events in Hr as [R1 R2].
    split; [done|]. intros id'. unfold state_of; simpl. rewrite lookup_insert.
    case_decide as Hd; [subst; simpl; auto|auto].
Qed.

Lemma sys_step_announced y y' :
  sys_step y y' -> no_eviction_owed y -> announced y -> no_eviction_owed y' /\ announced y'.
Proof.
  intros Hs N A. destruct Hs as [s' Hs|? [l1 e evs l2 Hi]|id' c Hc].
  - apply op_step_effect, op_effect_announces in Hs as [S1 S2]. split.
    + intros id c. simpl. rewrite concat_app. specialize (N id c). specialize (S1 id c).
      simpl. set_solver.
    + intros id. simpl. rewrite concat_app. simpl. intros Hq.
      destruct (S2 id Hq) as [?|Hq']; [left; set_solver|].
      destruct (A id Hq') as [?|?]; [left; set_solver|by right].
  - unfold no_eviction_owed, announced in *. simpl in *. rewrite Hi in N, A. split.
    + intros id c. specialize (N id c). rewrite concat_app in *. simpl in *. set_solver.
    + intros id Hq. rewrite concat_app in *. simpl in *.
      destruct (A id Hq) as [Hin|(k1 & k2 & El & Hev)].
      * assert (VerificationChanged id Queued = e \/
          VerificationChanged id Queued ∈ concat l1 ++ evs ++ concat l2) as [<-|?] by set_solver;
          [right; eexists _, []; split; [done|set_solver]|by left].
      * right. exists k1, (k2 ++ [e]). rewrite El, <- app_assoc. split; [done|].
        intros c. specialize (Hev c). specialize (N id c). set_solver.
  - split; [done|]. intros id. simpl.
    destruct (evict_events (sys_store y) id' c) as [->|[_ ->]]; [apply A|].
    unfold state_of; simpl. rewrite lookup_delete. case_decide as Hd; [done|].
    intros Hq. destruct (A id Hq) as [?|(k1 & k2 & El & Hev)]; [by left|right].
    exists k1, (k2 ++ eviction_listener id' c). rewrite El, <- app_assoc. split; [done|].
    intros c'. specialize (Hev c'). destruct c; set_solver.
Qed.

(** What the position of a reader says about its unread events. *)
Lemma announced_unread y id n :
  (n <= length (events (sys_store y)))%nat -> announced y ->
  state_of (sys_store y) id = Some Queued ->
  VerificationChanged id Queued ∈ concat (inflight y) \/
  (forall c, ProofEvicted id c ∉ unread (events (sys_store y)) n) \/
  exists l1 l2, unread (events (sys_store y)) n = l1 ++ VerificationChanged id Queued :: l2 /\
    forall c, ProofEvicted id c ∉ l2.
Proof.
  intros Hn A Hq. destruct (A id Hq) as [?|(l1 & l2 & El & Hev)]; [by left|right].
  unfold unread. rewrite El. destruct (decide (n <= length l1)%nat) as [Hle|Hgt].
  - right. exists (drop n l1), l2. by rewrite drop_app_le.
  - left. intros c Hin. apply (Hev c). rewrite drop_app_ge in Hin by lia.
    destruct (n - length l1)%nat eqn:En; [lia|]. simpl in Hin.
    apply list_elem_of_lookup in Hin as [i Hi]. rewrite lookup_drop in Hi.
    by eapply list_elem_of_lookup_2.
Qed.

(** ** The worker's own state *)

Record queue_inv w : Prop := {
  qi_pending : NoDup (pending w);
  qi_ids : pending_ids w = list_to_set (pending w);
  qi_active : active_ids w = list_to_set (map job_id (jobs w));
  qi_jobs : NoDup (map job_id (jobs w));
  qi_disjoint : forall id, id ∈ pending w -> id ∉ active_ids w;
  qi_bound : len (jobs w) <= Z.max 0 (max_concurrent_jobs (worker_config w))
}.

(** The parts of the worker the queue operations leave alone. *)
Definition same_jobs w w' : Prop :=
  store_events w' = store_events w /\ registry w' = registry w /\
  worker_config w' = worker_config w /\ active_ids w' = active_ids w /\ jobs w' = jobs w.

Lemma queue_inv_set_pending w l ids :
  queue_inv w -> NoDup l -> ids = list_to_set l -> (forall id, id ∈ l -> id ∉ active_ids w) ->
  queue_inv (set_pending l ids w).
Proof. intros [] ???. by split. Qed.

Lemma enqueue_spec w id :
  queue_inv w -> queue_inv (enqueue id w) /\ same_jobs w (enqueue id w) /\
  (forall id', id' ∈ pending (enqueue id w) <-> id' ∈ pending w \/ id' = id /\ id ∉ active_ids w).
Proof.
  intros I. unfold enqueue.
  case_bool_decide as Ha; [by split_and!; [..|naive_solver]|].
  case_bool_decide as Hp; simpl.
  - split_and!; [done..|]. rewrite (qi_ids _ I), elem_of_list_to_set in Hp. naive_solver.
  - rewrite (qi_ids _ I), elem_of_list_to_set in Hp. split_and!.
    + apply queue_inv_set_pending; [done| | |].
      * apply NoDup_app. split_and!; [apply I|set_solver|apply NoDup_singleton].
      * rewrite (qi_ids _ I), list_to_set_app_L. set_solver.
      * intros id'. rewrite elem_of_app, list_elem_of_singleton. intros [Hi| ->]; [|done].
        by apply (qi_disjoint _ I).
    + done.
    + set_solver.
Qed.

Lemma remove_pending_spec w id :
  queue_inv w -> queue_inv (remove_pending id w) /\ same_jobs w (remove_pending id w) /\
  (forall id', id' ∈ pending (remove_pending id w) <-> id' ∈ pending w /\ id' <> id).
Proof.
  intros I. unfold remove_pending. case_bool_decide as Hp;
    rewrite (qi_ids _ I), elem_of_list_to_set in Hp.
  - split_and!; [|done|].
    + apply queue_inv_set_pending; [done| | |].
      * apply NoDup_filter, I.
      * rewrite (qi_ids _ I). apply set_eq. intros x.
        rewrite elem_of_difference, !elem_of_list_to_set, list_elem_of_filter. set_solver.
      * intros id' [_ Hi]%list_elem_of_filter. by apply (qi_disjoint _ I).
    + intros id'. simpl. rewrite list_elem_of_filter. naive_solver.
  - split_and!; [done..|]. naive_solver.
Qed.

Lemma enqueue_all_spec l w :
  queue_inv w ->
  let w' := foldl (fun w p => enqueue (stored_id p) w) w l in
  queue_inv w' /\ same_jobs w w' /\
  (forall id, id ∈ pending w' <-> id ∈ pending w \/ id ∈ map stored_id l /\ id ∉ active_ids w).
Proof.
  revert w. induction l as [|p l IH]; intros w I; simpl.
  - split_and!; [done..|]. set_solver.
  - destruct (enqueue_spec w (stored_id p) I) as (I1 & J1 & P1).
    destruct (IH _ I1) as (I2 & J2 & P2).
    destruct J1 as (? & ? & ? & Ea & ?), J2 as (? & ? & ? & ? & ?).
    split_and!; [done|split_and!; congruence|].
    intros id. rewrite P2, P1, Ea. set_solver.
Qed.

Lemma reconcile_spec s w :
  queue_inv w -> store_inv s ->
  let w' := reconcile_ready_records s w in
  queue_inv w' /\ same_jobs w w' /\
  (forall id, id ∈ pending w' <-> state_of s id = Some Queued /\ id ∉ active_ids w).
Proof.
  intros I Is. unfold reconcile_ready_records.
  destruct (enqueue_all_spec (records_ready_for_verification s) (set_pending [] ∅ w))
    as (I1 & J1 & P1).
  { apply queue_inv_set_pending; [done|constructor|done|set_solver]. }
  split_and!; [done|done|]. intros id. rewrite P1, ready_snapshot_queued, status_of_state_of by done.
  simpl. destruct (state_of s id) as [[]|]; set_solver.
Qed.

(** ** Claims and running jobs *)

Record claims_inv w (s : ProofStore) : Prop := {
  ci_jobs : forall j, j ∈ jobs w ->
    verification (metadata (arc_value (claim j))) = Some Verifying /\ held (job_id j) (claim j) s;
  ci_verifying : forall id a, records s !! id = Some a ->
    verification (metadata (arc_value a)) = Some Verifying ->
    exists j, j ∈ jobs w /\ job_id j = id /\ claim j = a
}.

Lemma claims_inv_same_jobs w w' s : jobs w' = jobs w -> claims_inv w s -> claims_inv w' s.
Proof. intros E []. split; by rewrite E. Qed.

Lemma claims_inv_events w l s : claims_inv w s -> claims_inv w (set_events l s).
Proof.
  intros [C1 C2]. split; [|done]. intros j Hj. destruct (C1 j Hj) as [? [? ?]].
  split; [done|]. split; [by apply inv_set_events|done].
Qed.

Lemma claims_inv_evict w s id c : claims_inv w s -> claims_inv w (evict id c s).
Proof.
  intros [C1 C2]. split.
  - intros j Hj. destruct (C1 j Hj). split; [done|by apply evict_held].
  - intros id' a. destruct (evict_events s id c) as [->|[_ ->]]; [apply C2|]. simpl.
    rewrite lookup_delete_Some. intros [_ Hl]. by apply C2.
Qed.

(** The other users of the store never make a record [Verifying]. *)
Lemma env_op_step s s' : env_op s s' -> op_step s s'.
Proof. intros []; constructor. Qed.

Lemma queue_if_ready_state r st :
  st <> Queued -> verification (metadata (queue_if_ready r)) = Some st ->
  verification (metadata r) = Some st.
Proof. intros Hst. by destruct (queue_if_ready_cases r) as [[-> _]|[-> _]]; [|intros [= <-]]. Qed.

Lemma put_not_state s id' r evs id a st :
  verification (metadata r) <> Some st ->
  records (put_record id' r evs s) !! id = Some a ->
  verification (metadata (arc_value a)) = Some st -> records s !! id = Some a.
Proof.
  intros Hr. simpl. rewrite lookup_insert. case_decide; [|done]. by intros [= <-] ?.
Qed.

(** The other users of the store bring a record only to [Queued]. *)
Lemma env_op_state s s' id a st :
  st <> Queued -> store_inv s -> env_op s s' -> records s' !! id = Some a ->
  verification (metadata (arc_value a)) = Some st -> records s !! id = Some a.
Proof.
  intros Hst I Ho.
  assert (forall id0 a0, records s !! id0 = Some a0 ->
    verification (metadata (arc_value a0)) = Some st ->
    is_some (chain_observed_at (metadata (arc_value a0))) = true /\
    is_some (record_proof (arc_value a0)) = true) as Hready.
  { intros id0 a0 Hl Hv. pose proof (wf_ready _ _ _ (inv_records _ I _ _ Hl)) as W.
    rewrite Hv in W. symmetry in W. by apply andb_true_iff in W. }
  destruct Ho as [t id' s|t p source s|t id' p peer s|id' s].
  - rewrite observe_eq. destruct (records s !! id') as [a'|] eqn:El; [|by apply put_not_state].
    destruct (is_some _) eqn:Ec; [done|]. apply put_not_state.
    intros Hv%queue_if_ready_state; [|done]. by destruct (Hready _ _ El Hv); congruence.
  - rewrite insert_eq. destruct (validate_proof _ _ _); [|done]. cbv zeta.
    destruct (records s !! _) as [a'|] eqn:El; [|by apply put_not_state].
    destruct (is_some _) eqn:Ec; [done|]. apply put_not_state.
    intros Hv%queue_if_ready_state; [|done]. by destruct (Hready _ _ El Hv); congruence.
  - rewrite attach_eq. destruct (validate_proof _ _ _); [|done].
    destruct (records s !! _) as [a'|] eqn:El; [|done]. destruct (is_none _); [done|].
    destruct (is_some _) eqn:Ec; [done|]. apply put_not_state.
    intros Hv%queue_if_ready_state; [|done]. by destruct (Hready _ _ El Hv); congruence.
  - rewrite retry_eq. destruct (records s !! id') as [a'|] eqn:El; [|done].
    destruct (verification _) as [[]|]; try done. destruct (retryable _); [|done].
    apply put_not_state. by intros [= ?].
Qed.

Lemma claims_inv_env w s s' :
  store_inv s -> env_op s s' -> claims_inv w s -> claims_inv w s'.
Proof.
  intros I Ho [C1 C2]. split.
  - intros j Hj. destruct (C1 j Hj). split; [done|].
    eapply op_effect_held; [done|]. by apply op_step_effect, env_op_step.
  - intros id a Hl Hv. apply C2; [|done]. by eapply (env_op_state _ _ _ _ Verifying).
Qed.

(** Claiming a record: the new job is the one that holds it. *)
Lemma claims_inv_begin w id s job s' ids :
  store_inv s -> begin_verification id s = (Ok (Some job), s') -> claims_inv w s ->
  claims_inv (set_active ids (jobs w ++ [job]) w) s'.
Proof.
  intros I Hb [C1 C2]. pose proof (begin_some _ _ _ _ Hb) as (Hj & Hl & Hv & _).
  assert (op_effect s s') as He.
  { apply op_step_effect. replace s' with (snd (begin_verification id s)) by (by rewrite Hb).
    constructor. }
  pose proof (op_effect_inv _ _ I He) as I'. split; simpl.
  - intros j. rewrite elem_of_app, list_elem_of_singleton. intros [Hj'| ->].
    + destruct (C1 j Hj'). split; [done|]. by eapply op_effect_held.
    + split; [done|]. split; [done|]. left. by rewrite Hj.
  - intros id' a Hl' Hv'. destruct (decide (id' = id)) as [->|Hne].
    + exists job. set_solver.
    + destruct (C2 id' a) as (j & ? & ? & ?); [|done|exists j; set_solver].
      clear -Hb Hl' Hne. rewrite begin_eq in Hb. destruct (records s !! id); [|done]. simpl in Hb.
      destruct (chain_observed_at _); [|done]. destruct (record_proof _); [|done].
      case_bool_decide; [|done].
      simplify_eq. simpl in Hl'. by rewrite lookup_insert_ne in Hl'.
Qed.

(** Finishing a job of the worker never fails, and leaves no record with its claim. *)
Lemma claims_inv_finish w t o s l1 job l2 ids :
  store_inv s -> outcome_wf o -> NoDup (map job_id (jobs w)) ->
  jobs w = l1 ++ job :: l2 -> claims_inv w s ->
  exists c s', finish_verification t job o s = (Ok c, s') /\ op_effect s s' /\
    claims_inv (set_active ids (l1 ++ l2) w) s'.
Proof.
  intros I Ho Hnd Ejobs [C1 C2]. rewrite Ejobs in C1, C2, Hnd.
  destruct (C1 job) as [Hv [_ Hh]]; [set_solver|].
  assert (op_effect s (snd (finish_verification t job o s))) as He
    by (apply op_step_effect; by constructor).
  assert (exists c s', finish_verification t job o s = (Ok c, s') /\
    (forall a, records s' !! job_id job = Some a ->
      verification (metadata (arc_value a)) <> Some Verifying) /\
    forall id a, id <> job_id job -> records s' !! id = Some a -> records s !! id = Some a)
    as (c & s' & E & Hown & Hother).
  { destruct Hh as [Hl|D].
    - rewrite finish_eq, Hl. unfold ptr_eq. rewrite Nat.eqb_refl, Hv. simpl.
      eexists _, _. split_and!; [done|..]; simpl.
      + intros a. rewrite lookup_insert_eq. intros [= <-]. by destruct o.
      + intros id a Hne. by rewrite lookup_insert_ne.
    - exists ChangeUnchanged, s. split_and!; [by apply finish_dead| |done].
      intros a Hl Ha. destruct (C2 _ _ Hl Ha) as (j & Hj & Hid & <-).
      assert (j = job) as ->; [|by eapply (proj2 D)].
      by apply (NoDup_map_inj job_id (l1 ++ job :: l2)); [|set_solver..|]. }
  rewrite E in He. exists c, s'. split_and!; [done|done|]. split; simpl.
  - intros j Hj. destruct (C1 j) as [? Hj']; [set_solver|]. split; [done|].
    by eapply op_effect_held.
  - intros id a Hl Hv'. destruct (decide (id = job_id job)) as [->|Hne]; [by destruct (Hown a)|].
    destruct (C2 id a) as (j & Hj & <- & ?); [by apply Hother|done|]. exists j. set_solver.
Qed.

Lemma begin_cases id s :
  store_inv s ->
  (begin_verification id s = (Ok None, s) /\ state_of s id <> Some Queued) \/
  exists job s', begin_verification id s = (Ok (Some job), s').
Proof.
  intros I. rewrite begin_eq. unfold state_of. destruct (records s !! id) as [a|] eqn:El; [|by left].
  pose proof (wf_ready _ _ _ (inv_records _ I _ _ El)) as W. simpl.
  destruct (chain_observed_at _), (record_proof _); simpl in W;
    try (left; split; [done|]; by destruct (verification _)).
  case_bool_decide; [by eauto|by left].
Qed.

(** ** The invariant of the running worker *)

Definition wakeup (capacity : nat) (p : control) w y : Prop := forall id,
  state_of (sys_store y) id = Some Queued ->
  VerificationChanged id Queued ∈ concat (inflight y) \/
  VerificationChanged id Queued ∈ unread (events (sys_store y)) (store_events w) \/
  lagged capacity (events (sys_store y)) (store_events w) = true \/
  id ∈ pending w \/ id ∈ active_ids w \/ p = Rechecking id false.

(** The control points at which the worker still starts jobs. *)
Definition running (p : control) : bool :=
  match p with Starting | Selecting | Rechecking _ false => true | _ => false end.

Record node_inv (capacity : nat) (n : node (V := V)) : Prop := {
  ni_store : store_inv (sys_store (node_sys n));
  ni_owed : no_eviction_owed (node_sys n);
  ni_announced : announced (node_sys n);
  ni_cursor : (store_events (worker n) <= length (events (sys_store (node_sys n))))%nat;
  ni_queue : queue_inv (worker n);
  ni_claims : claims_inv (worker n) (sys_store (node_sys n));
  ni_wakeup : running (point n) = true ->
    wakeup capacity (point n) (worker n) (node_sys n);
  ni_selecting : point n = Selecting -> pending (worker n) = [] \/
    max_concurrent_jobs (worker_config (worker n)) <= len (jobs (worker n));
  ni_returned : forall r, point n = Returned r -> r = Ok tt /\ jobs (worker n) = []
}.

(** The one way a run fails: a job's task ended without a value. *)
Definition node_ok (capacity : nat) (n : node (V := V)) : Prop :=
  (exists e, point n = Returned (Err (TaskError e))) \/ node_inv capacity n.

Lemma sys_step_events y y' :
  sys_step y y' -> exists l, events (sys_store y') = events (sys_store y) ++ l.
Proof. intros Hs. by apply sys_steps_log, rtc_once. Qed.

Lemma wakeup_mono capacity p w p' w' y :
  wakeup capacity p w y -> store_events w' = store_events w ->
  (forall id, state_of (sys_store y) id = Some Queued ->
    id ∈ pending w \/ id ∈ active_ids w \/ p = Rechecking id false ->
    id ∈ pending w' \/ id ∈ active_ids w' \/ p' = Rechecking id false) ->
  wakeup capacity p' w' y.
Proof.
  intros W E Hm id Hq. rewrite E. specialize (Hm id Hq). specialize (W id Hq). tauto.
Qed.

Lemma wakeup_sys capacity p w y y' :
  sys_step y y' -> (store_events w <= length (events (sys_store y)))%nat ->
  wakeup capacity p w y -> wakeup capacity p w y'.
Proof.
  intros Hs Hc W id Hq. destruct (sys_step_events _ _ Hs) as [l El].
  rewrite El, unread_app, elem_of_app by done.
  set (e := VerificationChanged id Queued) in *.
  assert ((e ∈ concat (inflight y) -> e ∈ concat (inflight y') \/ e ∈ l) /\
    (e ∈ concat (inflight y') \/ state_of (sys_store y) id = Some Queued)) as [Hf [?|Hq']];
    [|by left|].
  { destruct Hs as [s' Hs|? [l1 e' evs l2 Hi]|id' c Hc']; simpl in *.
    - apply op_step_effect, op_effect_announces in Hs as [_ S2]. rewrite concat_app. simpl.
      destruct (S2 id Hq) as [?|?]; set_solver.
    - apply app_inv_head in El as <-. rewrite Hi, !concat_app. simpl.
      split; [set_solver|by right].
    - split; [by left|right]. revert Hq.
      destruct (evict_events (sys_store y) id' c) as [->|[_ ->]]; [done|].
      unfold state_of; simpl. rewrite lookup_delete. by case_decide. }
  destruct (W id Hq') as [Hi|[?|[Hl|?]]]; [destruct (Hf Hi); tauto|tauto| |tauto].
  right; right; left. by apply lagged_app.
Qed.

Lemma node_inv_sys capacity p w y b y' b' :
  sys_step y y' -> claims_inv w (sys_store y') ->
  node_inv capacity (mkNode p w y b) -> node_inv capacity (mkNode p w y' b').
Proof.
  intros Hs Hc [I1 I2 I3 I4 I5 I6 I7 I8 I9]. simpl in *.
  destruct (sys_step_announced _ _ Hs I2 I3). destruct (sys_step_events _ _ Hs) as [l El].
  split; simpl; try done.
  - eapply steps_inv; [by apply rtc_once|done].
  - rewrite El, length_app. lia.
  - intros Hr. eapply wakeup_sys; [done..|]. by apply I7.
Qed.

Lemma node_inv_worker capacity p w y b p' w' b' :
  node_inv capacity (mkNode p w y b) ->
  queue_inv w' -> jobs w' = jobs w ->
  (store_events w' <= length (events (sys_store y)))%nat ->
  (running p' = true -> wakeup capacity p' w' y) ->
  (p' = Selecting -> pending w' = [] \/ max_concurrent_jobs (worker_config w') <= len (jobs w')) ->
  (forall r, p' = Returned r -> r = Ok tt /\ jobs w' = []) ->
  node_inv capacity (mkNode p' w' y b').
Proof.
  intros [I1 I2 I3 I4 I5 I6 I7 I8 I9] ??????. simpl in *. split; simpl; try done.
  by eapply claims_inv_same_jobs.
Qed.

Lemma queue_inv_cursor c w : queue_inv w -> queue_inv (set_cursor c w).
Proof. intros []. by split. Qed.

(** An event was read: what is left of each wake-up reason, and what the new worker owes. *)
Lemma event_wakeup capacity w y e c w' :
  node_inv capacity (mkNode Selecting w y false) ->
  recv capacity (events (sys_store y)) (store_events w) = Some (Ok e, c) ->
  same_jobs (set_cursor c w) w' ->
  (forall id, state_of (sys_store y) id = Some Queued ->
    e = VerificationChanged id Queued \/ id ∈ pending w ->
    VerificationChanged id Queued ∈ concat (inflight y) \/
    VerificationChanged id Queued ∈ unread (events (sys_store y)) c \/
    id ∈ pending w' \/ id ∈ active_ids w) ->
  (c <= length (events (sys_store y)))%nat /\ wakeup capacity Starting w' y.
Proof.
  intros N Hrecv (Ec' & _ & _ & Ea & _) Hp.
  pose proof (recv_ok _ _ _ _ _ Hrecv) as (Ec & Eu & El). simpl in Ec', Ea. split.
  { assert (length (unread (events (sys_store y)) (store_events w)) > 0)%nat as Hlen
      by (rewrite Eu; simpl; lia).
    unfold unread in Hlen. rewrite length_drop in Hlen. lia. }
  intros id Hq. specialize (Hp id Hq). rewrite Ea, Ec'.
  destruct (ni_wakeup _ _ N eq_refl id Hq) as [?|[Hu|[?|[?|[?|?]]]]]; simpl in *;
    [by left| |congruence|tauto|tauto|done].
  rewrite Eu in Hu. apply elem_of_cons in Hu as [?|?]; [|tauto].
  destruct Hp as [?|[?|[?|?]]]; [by left|tauto..].
Qed.

(** An eviction was read while the record is queued again: its announcement is still ahead. *)
Lemma eviction_read_early y id cause n l :
  (n <= length (events (sys_store y)))%nat -> announced y ->
  state_of (sys_store y) id = Some Queued ->
  unread (events (sys_store y)) n = ProofEvicted id cause :: l ->
  VerificationChanged id Queued ∈ concat (inflight y) \/ VerificationChanged id Queued ∈ l.
Proof.
  intros Hn A Hq Eu.
  destruct (announced_unread y id n Hn A Hq) as [?|[Hno|(l1 & l2 & E & Hno)]]; [by left| |right].
  - destruct (Hno cause). rewrite Eu. left.
  - rewrite Eu in E. destruct l1 as [|x l1]; [done|]. injection E as _ ->. set_solver.
Qed.

Lemma handle_event_wakeup capacity w y event c w' :
  node_inv capacity (mkNode Selecting w y false) ->
  recv capacity (events (sys_store y)) (store_events w) = Some (event, c) ->
  handle_store_result (sys_store y) event (set_cursor c w) = Ok w' ->
  queue_inv w' /\ same_jobs (set_cursor c w) w' /\ (c <= length (events (sys_store y)))%nat /\
  wakeup capacity Starting w' y.
Proof.
  intros N Hrecv Hh. pose proof (queue_inv_cursor c w (ni_queue _ _ N)) as Iq'.
  destruct event as [e|[k|]]; [| |by destruct (recv_open _ _ _ _ Hrecv)].
  - pose proof (recv_ok _ _ _ _ _ Hrecv) as (_ & Eu & _).
    destruct e as [id|id src|id st|id cause]; simpl in Hh;
      [| |destruct st|]; injection Hh as <-;
      try (do 2 (split; [done|]); apply (event_wakeup _ _ _ _ _ _ N Hrecv); [done|];
        intros ?? [?|?]; [done|tauto]).
    + destruct (enqueue_spec (set_cursor c w) id Iq') as (Q & J & P). do 2 (split; [done|]).
      apply (event_wakeup _ _ _ _ _ _ N Hrecv J). intros id' Hq He. rewrite P. simpl.
      destruct (decide (id' ∈ active_ids w)), He as [[= ->]|]; tauto.
    + destruct (remove_pending_spec (set_cursor c w) id Iq') as (Q & J & P). do 2 (split; [done|]).
      apply (event_wakeup _ _ _ _ _ _ N Hrecv J). intros id' Hq [?|Hp]; [done|]. rewrite P. simpl.
      destruct (decide (id' = id)) as [->|]; [|tauto].
      destruct (eviction_read_early _ _ _ _ _ (ni_cursor _ _ N) (ni_announced _ _ N) Hq Eu); tauto.
  - apply recv_lagged in Hrecv as (Hc & _ & _). injection Hh as <-.
    destruct (reconcile_spec (sys_store y) (set_cursor c w) Iq' (ni_store _ _ N))
      as (Q & J & P). split_and!; [done|done|lia|]. intros id Hq.
    destruct J as (-> & _ & _ & -> & _). rewrite P. simpl.
    destruct (decide (id ∈ active_ids w)); tauto.
Qed.

Lemma queue_inv_pop w id rest :
  queue_inv w -> pending w = id :: rest ->
  queue_inv (set_pending rest (pending_ids w ∖ {[id]}) w) /\ id ∉ rest /\ id ∉ active_ids w.
Proof.
  intros I E. pose proof (qi_pending _ I) as Hnd. rewrite E in Hnd.
  apply NoDup_cons in Hnd as [Hni Hnd]. split_and!; [|done|apply (qi_disjoint _ I); rewrite E; left].
  apply queue_inv_set_pending; [done|done| |].
  - rewrite (qi_ids _ I), E. simpl. set_solver.
  - intros id' Hin. apply (qi_disjoint _ I). rewrite E. by right.
Qed.

Lemma queue_inv_push w id job :
  queue_inv w -> job_id job = id -> id ∉ pending w -> id ∉ active_ids w ->
  len (jobs w) < max_concurrent_jobs (worker_config w) ->
  queue_inv (set_active ({[id]} ∪ active_ids w) (jobs w ++ [job]) w).
Proof.
  intros I <- Hp Ha Hb. pose proof (qi_active _ I) as Ea. rewrite Ea in Ha. split; simpl; try apply I.
  - rewrite map_app, Ea. set_solver.
  - rewrite map_app. apply NoDup_app. split_and!; [apply I| |apply NoDup_singleton].
    intros x Hx. simpl. set_solver.
  - intros id' Hin. pose proof (qi_disjoint _ I id' Hin). set_solver.
  - unfold len in *. rewrite length_app. simpl. lia.
Qed.

Lemma queue_inv_pull w l1 job l2 :
  queue_inv w -> jobs w = l1 ++ job :: l2 ->
  queue_inv (set_active (active_ids w ∖ {[job_id job]}) (l1 ++ l2) w) /\ job_id job ∈ active_ids w.
Proof.
  intros I E. pose proof (qi_jobs _ I) as Hnd. pose proof (qi_active _ I) as Ea.
  rewrite E, map_app in Hnd, Ea. simpl in Hnd, Ea. apply NoDup_app in Hnd as (N1 & N2 & N3).
  apply NoDup_cons in N3 as [N3 N4]. split; [|rewrite Ea; set_solver].
  split; simpl; try apply I.
  - rewrite map_app, Ea. apply set_eq. intros x. specialize (N2 (job_id job)).
    rewrite elem_of_difference, !list_to_set_app_L. set_solver.
  - rewrite map_app. apply NoDup_app. split_and!; [done|set_solver|done].
  - intros id Hin. pose proof (qi_disjoint _ I id Hin). set_solver.
  - pose proof (qi_bound _ I) as Hb. rewrite E in Hb. unfold len in *.
    rewrite length_app in *. simpl in Hb. lia.
Qed.

Lemma start_claim_inv capacity w y id rest job s1 :
  node_inv capacity (mkNode Starting w y false) -> pending w = id :: rest ->
  begin_verification id (sys_store y) = (Ok (Some job), s1) ->
  len (jobs w) < max_concurrent_jobs (worker_config w) ->
  node_inv capacity (mkNode Starting (set_active ({[id]} ∪ active_ids w) (jobs w ++ [job])
    (set_pending rest (pending_ids w ∖ {[id]}) w)) (commit s1 y) false).
Proof.
  intros [I1 I2 I3 I4 I5 I6 I7 I8 I9] Ep E Hlt. simpl in *.
  destruct (queue_inv_pop _ _ _ I5 Ep) as (Iq1 & Hr & Ha).
  pose proof (begin_some _ _ _ _ E) as (Hj & _).
  assert (sys_step y (commit s1 y)) as Hs.
  { apply sys_op. replace s1 with (snd (begin_verification id (sys_store y))) by (by rewrite E).
    constructor. }
  destruct (sys_step_announced _ _ Hs I2 I3). split; simpl; try done.
  - exact (steps_inv _ _ (rtc_once _ _ Hs) I1).
  - exact (queue_inv_push _ id job Iq1 Hj Hr Ha Hlt).
  - apply claims_inv_events.
    set (w1 := set_pending rest (pending_ids w ∖ {[id]}) w).
    exact (claims_inv_begin w1 _ _ _ _ _ I1 E (claims_inv_same_jobs w w1 _ eq_refl I6)).
  - intros _. apply (wakeup_mono _ _ _ _ _ _ (wakeup_sys _ _ _ _ _ Hs I4 (I7 eq_refl))); [done|].
    simpl. rewrite Ep. intros id' Hq [Hin|[?|?]]; [|right; left; set_solver|done].
    apply elem_of_cons in Hin as [->|?]; [right; left; set_solver|by left].
Qed.

Lemma start_pass_inv capacity w y p' w' s' :
  node_inv capacity (mkNode Starting w y false) ->
  start_pass w (sys_store y) = (p', w', s') ->
  node_inv capacity (mkNode p' w' (commit_opt s' y) false).
Proof.
  intros N Hst. pose proof (ni_queue _ _ N) as Iq. pose proof (ni_wakeup _ _ N eq_refl) as W.
  unfold start_pass in Hst. simpl in *.
  destruct (Z.ltb_spec (len (jobs w)) (max_concurrent_jobs (worker_config w))) as [Hlt|Hge]; simpl in Hst.
  2: { simplify_eq. apply (node_inv_worker _ _ _ _ _ _ _ _ N); try done; [apply N| |by right].
       intros _. apply (wakeup_mono _ _ _ _ _ _ W); [done|]. by intros id Hq [?|[?|?]]; auto. }
  destruct (pending w) as [|id rest] eqn:Ep.
  { simplify_eq. apply (node_inv_worker _ _ _ _ _ _ _ _ N); try done; [apply N| |by left].
    intros _. apply (wakeup_mono _ _ _ _ _ _ W); [done|]. by intros id Hq [?|[?|?]]; auto. }
  destruct (queue_inv_pop _ _ _ Iq Ep) as (Iq1 & Hr & Ha).
  rewrite bool_decide_eq_false_2 in Hst by done.
  destruct (begin_cases id (sys_store y) (ni_store _ _ N)) as [[E Hnq]|(job & s1 & E)];
    rewrite E in Hst; simplify_eq; simpl.
  - assert (node_inv capacity (mkNode Starting w (commit (sys_store y) y) false)) as N1.
    { apply (node_inv_sys _ _ _ y false); [|by apply claims_inv_events, N|done].
      apply sys_op. replace (sys_store y) with (snd (begin_verification id (sys_store y))) at 2
        by (by rewrite E). constructor. }
    apply (node_inv_worker _ _ _ _ _ _ _ _ N1); try done; [apply N1|].
    intros _. apply (wakeup_mono _ _ _ _ _ _ (ni_wakeup _ _ N1 eq_refl)); [done|]. simpl.
    rewrite Ep. intros id' Hq [Hin|[?|?]]; [|tauto|done].
    apply elem_of_cons in Hin as [->|?]; [done|by left].
  - by eapply start_claim_inv.
Qed.

Lemma completion_inv capacity w y b draining l1 job l2 o t p' w' s' :
  node_inv capacity (mkNode (join_point draining) w y b) -> jobs w = l1 ++ job :: l2 ->
  outcome_wf o ->
  commit_completion_finish draining t (mkCompletion job o)
    (set_active (active_ids w) (l1 ++ l2) w) (sys_store y) = (p', w', s') ->
  node_inv capacity (mkNode p' w' (commit s' y) b).
Proof.
  intros [I1 I2 I3 I4 I5 I6 I7 I8 I9] Ej Ho Hc. simpl in *.
  destruct (queue_inv_pull _ _ _ _ I5 Ej) as [Iq Ha].
  destruct (claims_inv_finish w t o (sys_store y) l1 job l2 (active_ids w ∖ {[job_id job]})
    I1 Ho (qi_jobs _ I5) Ej I6) as (ch & s1 & E & He & C).
  unfold commit_completion_finish in Hc. simpl in Hc. rewrite E in Hc. simplify_eq.
  assert (sys_step y (commit s' y)) as Hs.
  { apply sys_op. replace s' with (snd (finish_verification t job o (sys_store y))) by (by rewrite E).
    by constructor. }
  destruct (sys_step_announced _ _ Hs I2 I3). split; simpl; try done.
  - exact (steps_inv _ _ (rtc_once _ _ Hs) I1).
  - by apply claims_inv_events.
  - intros Hr. destruct draining; [done|].
    apply (wakeup_mono _ _ _ _ _ _ (wakeup_sys _ _ _ _ _ Hs I4 (I7 eq_refl))); [done|].
    simpl. intros id Hq [?|[Hin|?]]; [tauto| |done].
    destruct (decide (id = job_id job)) as [->|]; [tauto|right; left; set_solver].
Qed.

Lemma recheck_inv capacity w y b id draining :
  node_inv capacity (mkNode (Rechecking id draining) w y b) ->
  node_inv capacity (mkNode (if draining then Draining else Starting)
    (commit_completion_recheck id (sys_store y) w) y b).
Proof.
  intros N. pose proof (ni_queue _ _ N) as Iq. simpl in Iq.
  assert (queue_inv (commit_completion_recheck id (sys_store y) w) /\
    same_jobs w (commit_completion_recheck id (sys_store y) w) /\
    (forall id', id' ∈ pending w -> id' ∈ pending (commit_completion_recheck id (sys_store y) w)) /\
    (state_of (sys_store y) id = Some Queued ->
      id ∈ pending (commit_completion_recheck id (sys_store y) w) \/ id ∈ active_ids w))
    as (Q & (J1 & J2 & J3 & J4 & J5) & P1 & P2).
  { unfold commit_completion_recheck, get, state_of.
    destruct (records (sys_store y) !! id) as [a|]; [|done]. simpl.
    case_bool_decide; [|done]. destruct (enqueue_spec w id Iq) as (Q & J & P).
    split_and!; [done|done|naive_solver|]. rewrite P.
    destruct (decide (id ∈ active_ids w)); tauto. }
  apply (node_inv_worker _ _ _ _ _ _ _ _ N); try done; [rewrite J1; apply N| |by destruct draining..].
  intros Hr. destruct draining; [done|].
  apply (wakeup_mono _ _ _ _ _ _ (ni_wakeup _ _ N eq_refl)); [done|]. simpl. rewrite J4.
  intros id' Hq [?|[?|[= <-]]]; [auto|auto|naive_solver].
Qed.

Lemma worker_begin_drain_inv capacity p w y b :
  node_inv capacity (mkNode p w y b) -> node_inv capacity (mkNode Draining (begin_drain w) y b).
Proof.
  intros N. apply (node_inv_worker _ _ _ _ _ _ _ _ N); try done; [|apply N].
  apply queue_inv_set_pending; [apply N|constructor|done|set_solver].
Qed.

(** The back ends of the node's registry: whatever they do, their failures are well formed. *)
Context (behaves : VerificationJob -> (V -> Proof_ -> nat -> Attempt) -> Prop).
Context (behaves_wf : forall job verify, behaves job verify -> verify_wf verify).

Lemma worker_step_ok capacity n n' :
  worker_step behaves capacity n n' -> node_inv capacity n -> node_ok capacity n'.
Proof.
  intros Hs N. destruct Hs as [w y b|w y p' w' s' E|w y|w y|w y event c w' Hr Hh|w y event c e Hr Hh
    |w y b draining l1 job l2 verify t p' w' s' _ Ej Hv Hc|w y b draining l1 job l2 e _ Ej
    |w y b id draining|w y b Ej].
  - right. destruct (reconcile_spec (sys_store y) w (ni_queue _ _ N) (ni_store _ _ N))
      as (Q & (J1 & J2 & J3 & J4 & J5) & P).
    apply (node_inv_worker _ _ _ _ _ _ _ _ N); try done; [rewrite J1; apply N|].
    intros _ id Hq. rewrite P, J4. destruct (decide (id ∈ active_ids w)); tauto.
  - right. by eapply start_pass_inv.
  - right. by eapply worker_begin_drain_inv.
  - right. by eapply worker_begin_drain_inv.
  - right. destruct (handle_event_wakeup _ _ _ _ _ _ N Hr Hh) as (Q & (J1 & _ & _ & _ & J5) & Hle & W).
    apply (node_inv_worker _ _ _ _ _ _ _ _ N); try done. by rewrite J1.
  - destruct event as [ev|[k|]]; [by destruct ev as [| |? []|]|done|].
    by destruct (recv_open _ _ _ _ Hr).
  - right. set (v := registry_get _ _) in Hc. pose proof (execute_job_id verify job v (worker_config w)) as Ei.
    pose proof (execute_job_wf verify job v (worker_config w) (behaves_wf _ _ Hv)) as Eo.
    destruct (fst (execute_job verify job v (worker_config w))) as [j o]; simpl in Ei, Eo; subst j.
    by eapply completion_inv.
  - left. by eexists.
  - right. by apply recheck_inv.
  - right. apply (node_inv_worker _ _ _ _ _ _ _ _ N); try done; [apply N..|].
    by intros r [= <-].
Qed.

Lemma node_step_ok capacity n n' : node_step behaves capacity n n' -> node_ok capacity n -> node_ok capacity n'.
Proof.
  intros Hs [[e He]|N].
  { left. destruct Hs as [n' Hw| | | |]; simpl; eauto. destruct Hw; simpl in He; try done.
    all: by destruct draining. }
  destruct n as [p w y b]. destruct Hs as [n' Hw|s' Ho|y' Hp|id c Hc|]; simpl in *.
  - by eapply worker_step_ok.
  - right. apply (node_inv_sys _ _ _ y b); [by apply sys_op, env_op_step| |done].
    apply claims_inv_events. eapply claims_inv_env; [apply N|done|apply N].
  - right. apply (node_inv_sys _ _ _ y b); [by apply sys_publish| |done].
    destruct Hp. by apply claims_inv_events, N.
  - right. apply (node_inv_sys _ _ _ y b); [by apply sys_eviction|by apply claims_inv_evict, N|done].
  - right. destruct N. by split.
Qed.

Lemma node_reachable_ok capacity store_config (r : VerifierRegistry V) config n :
  node_reachable behaves capacity store_config r config n -> node_ok capacity n.
Proof.
  intros (s0 & Hn & Hs). apply new_inv in Hn as (I & He & Hr).
  assert (node_ok capacity
    (mkNode Created (VerificationWorker_new s0 r config) (sys_init s0) false)) as N0.
  { right. split; simpl; try done.
    - intros id c. set_solver.
    - intros id. unfold state_of. simpl. by rewrite Hr, lookup_empty.
    - split; simpl; [apply NoDup_nil_2|done|done|apply NoDup_nil_2|set_solver|unfold len; simpl; lia].
    - split; simpl; [intros j Hj; by apply not_elem_of_nil in Hj|].
      intros id a. by rewrite Hr, lookup_empty. }
  clear I He Hr. induction Hs; eauto using node_step_ok.
Qed.

(** A completed job is always committed and the worker goes on. *)
Lemma completion_continues capacity p w y b l1 job l2 verify t draining :
  node_inv capacity (mkNode p w y b) -> jobs w = l1 ++ job :: l2 -> verify_wf verify ->
  exists s', commit_completion_finish draining t
    (fst (execute_job verify job (registry_get (registry w) (proof_type (job_proof job))) (worker_config w)))
    (set_active (active_ids w) (l1 ++ l2) w) (sys_store y) =
  (Rechecking (job_id job) draining,
    set_active (active_ids w ∖ {[job_id job]}) (l1 ++ l2) w, s').
Proof.
  intros N Ej Hv. unfold commit_completion_finish. rewrite execute_job_id.
  set (o := outcome _).
  destruct (claims_inv_finish w t o (sys_store y) l1 job l2 ∅ (ni_store _ _ N)) as (c & s' & E & _);
    [by apply execute_job_wf|apply (qi_jobs _ (ni_queue _ _ N))|done|apply N|].
  rewrite E. by eexists.
Qed.

Lemma recheck_jobs id s w : jobs (commit_completion_recheck id s w) = jobs w.
Proof.
  unfold commit_completion_recheck, enqueue. destruct (get id s); [|done].
  case_bool_decide; [|done]. by destruct (_ && _).
Qed.

(** A draining worker can always finish, whatever its verifiers do. *)
Lemma drain_run capacity w y b :
  (forall job, exists verify, behaves job verify) -> node_inv capacity (mkNode Draining w y b) ->
  exists n', rtc (worker_step behaves capacity) (mkNode Draining w y b) n' /\ point n' = Returned (Ok tt).
Proof.
  intros Hv. remember (length (jobs w)) as k eqn:Ek. revert w y Ek.
  induction k as [|k IH]; intros w y Ek N; destruct (jobs w) as [|job l] eqn:Ej; try done.
  - eexists. split; [by apply rtc_once, ws_drained|done].
  - injection Ek as Ek. destruct (Hv job) as [verify Hvj].
    destruct (completion_continues _ _ _ _ _ [] job l verify 0 true N Ej (behaves_wf _ _ Hvj)) as [s' Ec].
    pose proof (ws_completion behaves capacity w y b true [] job l verify 0 _ _ _ (or_introl eq_refl) Ej Hvj Ec)
      as Hs.
    destruct (worker_step_ok _ _ _ Hs N) as [[e He]|N1]; [done|].
    pose proof (recheck_inv _ _ _ _ _ _ N1) as N2. simpl in N2.
    edestruct (fun E => IH _ _ E N2) as (n' & Hr & Hp); [by rewrite recheck_jobs|].
    exists n'. split; [|done]. eapply rtc_l; [exact Hs|]. eapply rtc_l; [|exact Hr].
    exact (ws_recheck behaves capacity (set_active _ _ w) (commit s' y) b (job_id job) true).
Qed.

(** ** Properties *)

(** C9: the worker's concurrency: at most the configured number of jobs run, no two for the
    same identifier, nothing pending is running or pending twice, and the records being
    verified are exactly those whose current allocation a running job has claimed. *)
Theorem worker_claims_exact capacity store_config (r : VerifierRegistry V) config n :
  node_reachable behaves capacity store_config r config n ->
  (forall e, point n <> Returned (Err e)) ->
  let w := worker n in let s := sys_store (node_sys n) in
  len (jobs w) <= Z.max 0 (max_concurrent_jobs (worker_config w)) /\
  NoDup (map job_id (jobs w) ++ pending w) /\
  forall id, status_of s id = StatusVerifying <->
    exists j, j ∈ jobs w /\ job_id j = id /\ records s !! id = Some (claim j).
Proof.
  intros Hr Hne w s. destruct (node_reachable_ok _ _ _ _ _ Hr) as [[e He]|N]; [by destruct (Hne _ He)|].
  pose proof (ni_queue _ _ N) as Q. pose proof (ni_claims _ _ N) as C. fold w s in Q, C.
  split_and!; [apply Q| |].
  - apply NoDup_app. split_and!; [apply Q| |apply Q]. intros id Hin Hp.
    apply (qi_disjoint _ Q id Hp). rewrite (qi_active _ Q). by apply elem_of_list_to_set.
  - intros id. rewrite status_of_state_of. unfold state_of. split.
    + destruct (records s !! id) as [a|] eqn:El; [|done]. simpl.
      destruct (verification _) as [[]|] eqn:Ev; try done. intros _.
      destruct (ci_verifying _ _ C id a El Ev) as (j & ? & ? & <-). eauto.
    + intros (j & Hj & _ & ->). simpl. by rewrite (proj1 (ci_jobs _ _ C j Hj)).
Qed.

(** C10: no lost wake-up: when the worker waits, has read every event and no publication is
    owed, a queued record is pending behind a full set of jobs, or belongs to an identifier
    whose superseded job is still running and which is looked at again when that job ends. *)
Theorem worker_never_forgets capacity store_config (r : VerifierRegistry V) config n id :
  node_reachable behaves capacity store_config r config n ->
  point n = Selecting -> concat (inflight (node_sys n)) = [] ->
  recv capacity (events (sys_store (node_sys n))) (store_events (worker n)) = None ->
  status_of (sys_store (node_sys n)) id = StatusQueued ->
  (id ∈ pending (worker n) /\
    max_concurrent_jobs (worker_config (worker n)) <= len (jobs (worker n))) \/
  exists j, j ∈ jobs (worker n) /\ job_id j = id.
Proof.
  intros Hr Hp Hi Hrecv Hq.
  destruct (node_reachable_ok _ _ _ _ _ Hr) as [[e He]|N]; [congruence|].
  apply recv_none in Hrecv as [Hu Hl].
  assert (state_of (sys_store (node_sys n)) id = Some Queued) as Hq'
    by (rewrite status_of_state_of in Hq; by destruct (state_of _ id) as [[]|]).
  pose proof (ni_wakeup _ _ N) as W. rewrite Hp in W. specialize (W eq_refl id Hq').
  rewrite Hi, Hu, Hl in W.
  destruct W as [?|[?|[?|[Hin|[Hin|?]]]]]; try done; [set_solver..| |].
  - left. split; [done|]. destruct (ni_selecting _ _ N Hp) as [E|?]; [|done].
    rewrite E in Hin. set_solver.
  - right. rewrite (qi_active _ (ni_queue _ _ N)), elem_of_list_to_set in Hin.
    apply list_elem_of_fmap in Hin as (j & -> & Hj). eauto.
Qed.

(** C21: a run ends cleanly: when [run] has returned, either no record is left in
    verification, or a job's task ended without a value; the store and the event channel
    never make it fail. *)
Theorem worker_run_result capacity store_config (reg : VerifierRegistry V) config n r :
  node_reachable behaves capacity store_config reg config n -> point n = Returned r ->
  (r = Ok tt /\ jobs (worker n) = [] /\
    forall id, status_of (sys_store (node_sys n)) id <> StatusVerifying) \/
  exists e, r = Err (TaskError e).
Proof.
  intros Hr Hp. destruct (node_reachable_ok _ _ _ _ _ Hr) as [[e He]|N];
    [right; exists e; congruence|].
  left. destruct (ni_returned _ _ N r Hp) as [-> Ej]. split_and!; [done..|].
  intros id. rewrite status_of_state_of. unfold state_of.
  destruct (records _ !! id) as [a|] eqn:El; [|done]. simpl.
  destruct (verification _) as [[]|] eqn:Ev; try done. intros _.
  destruct (ci_verifying _ _ (ni_claims _ _ N) id a El Ev) as (j & Hj & _).
  rewrite Ej in Hj. set_solver.
Qed.

(** C26: shutdown is not blocked by pending work: from every reachable node that started to
    drain, finishing the jobs that were already claimed leads to the end of the run. *)
Theorem worker_drain_completes capacity store_config (r : VerifierRegistry V) config n :
  node_reachable behaves capacity store_config r config n -> point n = Draining ->
  (forall job, exists verify, behaves job verify) ->
  exists n', rtc (worker_step behaves capacity) n n' /\ point n' = Returned (Ok tt).
Proof.
  intros Hr Hp Hv. destruct (node_reachable_ok _ _ _ _ _ Hr) as [[e He]|N]; [congruence|].
  destruct n as [p w y b]. simpl in Hp. subst p. by eapply drain_run.
Qed.

(** C31: a job is bounded and honest: with the validated retry limit, [execute_job] ends with
    the outcome of the first attempt that is not a retryable failure, or of the last one,
    so a verdict is one the verifier returned in time, and it takes at most the attempts'
    time limits with their clean-up plus the doubling pauses. *)
Theorem execute_job_bounded verify job (v : V) config :
  0 <= max_retries config <= 10 -> 0 <= job_timeout config -> 0 <= retry_backoff config ->
  let n := max_retries config in
  let attempts := verify v (job_proof job) in
  let run k := fst (execute_attempt (attempts k) (job_timeout config)) in
  let (completion, elapsed) := execute_job verify job (Some v) config in
  completion_job completion = job /\
  (exists k, Z.of_nat k <= n /\ outcome completion = run k /\
    (forall i, (i < k)%nat -> outcome_retryable (run i) = true) /\
    (Z.of_nat k = n \/ outcome_retryable (run k) = false)) /\
  (forall d, outcome completion = OutcomeCompleted d ->
    exists k t, ends (attempts k) = Some (t, Ok (Ok d)) /\ t <= job_timeout config) /\
  elapsed <= (n + 1) * (job_timeout config + ATTEMPT_CLEANUP_TIMEOUT)
    + retry_backoff config * (2 ^ n - 1).
Proof.
  intros Hn Ht Hb n attempts run. unfold execute_job. fold attempts.
  destruct (attempt_loop_outcome config attempts (Z.to_nat (max_retries config)) 0)
    as (k & Hk & E & A1 & A2).
  pose proof (attempt_loop_time config attempts (Z.to_nat (max_retries config)) 0 Ht Hb ltac:(lia)) as A3.
  destruct (attempt_loop _ _ _ _) as [o d]. simpl in *. subst o. split_and!; [done| | |].
  - exists k. split_and!; [lia|done| |].
    + intros i Hi. apply A1. lia.
    + destruct A2; [left; lia|by right].
  - intros d'. unfold execute_attempt, timed.
    destruct (ends (attempts k)) as [[t [[v'|f]|u]]|] eqn:Ee; [..|done];
      destruct (Z.leb_spec t (job_timeout config)); simpl; try done.
    intros [= ->]. eauto.
  - rewrite Z2Nat.id in A3 by lia. exact A3.
Qed.
End worker_props.

Section registry_props.
Context {V : Type}.

Lemma registry_get_spec (r : VerifierRegistry V) t v :
  NoDup (map fst r) -> registry_get r t = Some v <-> (t, v) ∈ r.
Proof.
  induction r as [|[t' v'] r IH]; simpl; [set_solver|]. intros [Hn Hnd]%NoDup_cons.
  rewrite elem_of_cons. case_decide as Hd; [subst t'|].
  - split; [intros [= ->]; by left|]. intros [[= ->]|Hin]; [done|].
    destruct Hn. apply list_elem_of_fmap. by exists (t, v).
  - rewrite IH by done. naive_solver.
Qed.

Lemma registry_get_None (r : VerifierRegistry V) t :
  registry_get r t = None <-> t ∉ map fst r.
Proof.
  induction r as [|[t' v'] r IH]; simpl; [set_solver|]. case_decide; set_solver.
Qed.

Lemma registry_insert_all_spec l (r : VerifierRegistry V) :
  NoDup (map fst r) ->
  match registry_insert_all r l with
  | Ok r' => NoDup (map fst (r ++ l)) /\ r' ≡ₚ r ++ l
  | Err e => exists l1 t v l2, l = l1 ++ (t, v) :: l2 /\ e = DuplicateVerifier t /\
      t ∈ map fst (r ++ l1) /\ NoDup (map fst (r ++ l1))
  end.
Proof.
  revert r. induction l as [|[t v] l IH]; intros r Hnd; simpl; [by rewrite app_nil_r|].
  destruct (registry_get r t) as [v'|] eqn:Eg.
  - exists [], t, v, l. rewrite app_nil_r. split_and!; try done.
    apply registry_get_spec in Eg; [|done]. apply list_elem_of_fmap. by exists (t, v').
  - apply registry_get_None in Eg. specialize (IH ((t, v) :: r)). simpl in IH.
    specialize (IH ltac:(by constructor)).
    assert (forall l', map fst ((t, v) :: r ++ l') ≡ₚ map fst (r ++ (t, v) :: l')) as Hp
      by (intros l'; by rewrite Permutation_middle).
    destruct (registry_insert_all _ l) as [r'|e].
    + destruct IH as [I1 I2]. rewrite <- Hp, I2. split; [done|]. apply Permutation_middle.
    + destruct IH as (l1 & t' & v'' & l2 & -> & -> & I3 & I4).
      exists ((t, v) :: l1), t', v'', l2. rewrite <- Hp. done.
Qed.

(** The registry routes by proof type: building it succeeds exactly when no proof type
    occurs twice, and then a lookup finds exactly the given back end; otherwise the error
    names the first proof type that repeats. *)
Theorem registry_routes (l : list (ProofType * V)) :
  match VerifierRegistry_new l with
  | Ok r => NoDup (map fst l) /\ forall t v, registry_get r t = Some v <-> (t, v) ∈ l
  | Err e => exists l1 t v l2, l = l1 ++ (t, v) :: l2 /\ e = DuplicateVerifier t /\
      t ∈ map fst l1 /\ NoDup (map fst l1)
  end.
Proof.
  unfold VerifierRegistry_new. pose proof (registry_insert_all_spec l []) as Hs.
  simpl in Hs. specialize (Hs (NoDup_nil_2)).
  destruct (registry_insert_all [] l) as [r|e]; [|done]. destruct Hs as [Hnd Hp].
  split; [done|]. intros t v. rewrite registry_get_spec, Hp; [done|]. by rewrite Hp.
Qed.
End registry_props.

(** ** An executable schedule *)

Section schedule.
Context `{Libp2p, Sha256, ProstVarint} {V : Type}.
Context (behaves : VerificationJob -> (V -> Proof_ -> nat -> Attempt) -> Prop).
Context (verify : V -> Proof_ -> nat -> Attempt) (capacity : nat).

(** The first job ends. *)
Definition advance_join (draining : bool) (now : Instant) (n : node (V := V)) : node :=
  let w := worker n in
  match jobs w with
  | [] => n
  | job :: l =>
      let v := registry_get (registry w) (proof_type (job_proof job)) in
      let '(p', w', s') := commit_completion_finish draining now
        (fst (execute_job verify job v (worker_config w)))
        (set_active (active_ids w) l w) (sys_store (node_sys n)) in
      mkNode p' w' (commit s' (node_sys n)) (stop n)
  end.

(** One step of the worker, jobs ending in the order they were started. *)
Definition advance (now : Instant) (n : node (V := V)) : node :=
  let w := worker n in let y := node_sys n in let b := stop n in
  match point n, b with
  | Created, _ => mkNode Starting (reconcile_ready_records (sys_store y) w) y b
  | Starting, false =>
      let '(p', w', s') := start_pass w (sys_store y) in mkNode p' w' (commit_opt s' y) b
  | Starting, true | Selecting, true => mkNode Draining (begin_drain w) y b
  | Selecting, false =>
      match recv capacity (events (sys_store y)) (store_events w) with
      | Some (event, c) =>
          match handle_store_result (sys_store y) event (set_cursor c w) with
          | Ok w' => mkNode Starting w' y b
          | Err e => mkNode (Returned (Err e)) w y b
          end
      | None => advance_join false now n
      end
  | Rechecking id draining, _ =>
      mkNode (if draining then Draining else Starting)
        (commit_completion_recheck id (sys_store y) w) y b
  | Draining, _ =>
      match jobs w with [] => mkNode (Returned (Ok tt)) w y b | _ => advance_join true now n end
  | Returned _, _ => n
  end.

Lemma advance_join_step draining now p w y b :
  (forall job, behaves job verify) -> may_join capacity draining w y b -> p = join_point draining ->
  rtc (worker_step behaves capacity) (mkNode p w y b) (advance_join draining now (mkNode p w y b)).
Proof.
  intros Hv Hm ->. unfold advance_join. simpl. destruct (jobs w) as [|job l] eqn:Ej; [apply rtc_refl|].
  destruct (commit_completion_finish _ _ _ _ _) as [[p' w'] s'] eqn:Ec. apply rtc_once.
  by apply (ws_completion behaves capacity w y b draining [] job l verify now).
Qed.

Lemma advance_steps now n : (forall job, behaves job verify) -> rtc (worker_step behaves capacity) n (advance now n).
Proof.
  intros Hv. destruct n as [p w y b]. unfold advance. cbn [point worker node_sys stop].
  destruct p as [| | |id draining| |r].
  - apply rtc_once, ws_reconcile.
  - destruct b; [apply rtc_once, ws_start_stopped|].
    destruct (start_pass w (sys_store y)) as [[p' w'] s'] eqn:E. by apply rtc_once, ws_start.
  - destruct b; [apply rtc_once, ws_select_stopped|].
    destruct (recv _ _ _) as [[event c]|] eqn:Er.
    + destruct (handle_store_result _ _ _) as [w'|e] eqn:Eh; apply rtc_once;
        [by eapply ws_event|by eapply ws_event_failed].
    + apply advance_join_step; [done|by right|done].
  - apply rtc_once, ws_recheck.
  - destruct (jobs w) eqn:Ej; [by apply rtc_once, ws_drained|].
    apply advance_join_step; [done|by left|done].
  - apply rtc_refl.
Qed.

Definition run_worker (k : nat) (n : node (V := V)) : node := Nat.iter k (advance 30) n.

Lemma run_worker_steps k n : (forall job, behaves job verify) -> rtc (node_step behaves capacity) n (run_worker k n).
Proof.
  intros Hv. induction k as [|k IH]; [apply rtc_refl|]. etransitivity; [exact IH|].
  apply (rtc_congruence id (R := worker_step behaves capacity)); [exact (ns_worker behaves capacity)|].
  by apply advance_steps.
Qed.
End schedule.

(** ** Witnesses *)

Section witnesses.
#[local] Existing Instance sample_libp2p.
#[local] Existing Instance sample_sha256.
#[local] Existing Instance sample_varint.

(** one back end that accepts every proof after one nanosecond *)
Definition sample_verify : unit -> Proof_ -> nat -> Attempt :=
  fun _ _ _ => mkAttempt (Some (1, Ok (Ok Valid))) None.

Lemma sample_verify_wf : verify_wf sample_verify.
Proof. intros v p n d f. discriminate. Qed.

Definition sample_registry : VerifierRegistry unit := [(NoirBarretenberg, tt)].
Definition sample_vconfig (jobs : Z) : VerificationConfig := mkVerificationConfig jobs 1000 1 10.

(** the record is queued and everything is published *)
Definition sample_node (jobs : Z) : node :=
  mkNode Created (VerificationWorker_new sample_store0 sample_registry (sample_vconfig jobs))
    (sample_sys sample_store2 2) false.

Lemma sample_op_steps p w s k b s' s2 :
  env_op s s' -> s' = s2 -> deliver (commit s2 (sample_sys s k)) = sample_sys s2 (S k) ->
  rtc (node_step (V := unit) (fun _ => verify_wf) 8) (mkNode p w (sample_sys s k) b) (mkNode p w (sample_sys s2 (S k)) b).
Proof.
  intros Ho -> <-. eapply rtc_l; [exact (ns_env (fun _ => verify_wf) 8 (mkNode p w (sample_sys s k) b) s2 Ho)|].
  apply (rtc_congruence (fun y => mkNode p w y b) (R := pub_step)); [|apply deliver_steps].
  intros y1 y2. exact (ns_publish (fun _ => verify_wf) 8 (mkNode p w y1 b) y2).
Qed.

Definition sample_reachable (jobs : Z) : node -> Prop :=
  node_reachable (fun _ => verify_wf) 8 sample_config sample_registry (sample_vconfig jobs).

Lemma sample_node_reachable jobs : sample_reachable jobs (sample_node jobs).
Proof.
  exists sample_store0. split; [vm_refl|]. etransitivity.
  - eapply (sample_op_steps Created _ sample_store0 0 false _ sample_store1);
      [exact (env_observe 10 sample_id sample_store0)|vm_refl|vm_refl].
  - eapply (sample_op_steps Created _ sample_store1 1 false _ sample_store2);
      [exact (env_insert 20 sample_proof Rpc sample_store1)|vm_refl|vm_refl].
Qed.

Lemma sample_run_reachable jobs k n :
  sample_reachable jobs n -> sample_reachable jobs (run_worker sample_verify 8 k n).
Proof.
  intros (s0 & Hn & Hs). exists s0. split; [done|]. etransitivity; [exact Hs|].
  apply (run_worker_steps (fun _ => verify_wf)). intros _. exact sample_verify_wf.
Qed.

Lemma sample_stop_reachable jobs n :
  sample_reachable jobs n -> sample_reachable jobs (mkNode (point n) (worker n) (node_sys n) true).
Proof.
  intros (s0 & Hn & Hs). exists s0. split; [done|]. eapply rtc_r; [exact Hs|apply ns_stop].
Qed.

Definition sample_worker (jobs : Z) (cursor : nat) (pending : list VerificationId)
  (running : list VerificationJob) : VerificationWorker :=
  mkWorker cursor sample_registry (sample_vconfig jobs) pending (list_to_set pending)
    (list_to_set (map job_id running)) running.

(** the record is claimed, the claim not announced yet *)
Definition sample_claimed_sys : system :=
  mkSystem (set_events (take 3 sample_events) sample_store3)
    [[]; []; [VerificationChanged sample_id Verifying]] (take 4 sample_events).
Definition sample_claimed : node :=
  mkNode Starting (sample_worker 2 0 [] [sample_job]) sample_claimed_sys false.
(** ... then the worker is told to stop and drains *)
Definition sample_draining : node :=
  mkNode Draining (sample_worker 2 0 [] [sample_job]) sample_claimed_sys true.
Definition sample_returned : node :=
  mkNode (Returned (Ok tt)) (sample_worker 2 0 [] [])
    (mkSystem (set_events (take 3 sample_events) sample_store4)
      [[]; []; [VerificationChanged sample_id Verifying];
       [VerificationChanged sample_id (Completed Valid)]] sample_events) true.
(** a worker that may run no job has read everything and waits *)
Definition sample_waiting : node :=
  mkNode Selecting (sample_worker 0 3 [sample_id] []) (sample_sys sample_store2 2) false.

Lemma sample_claimed_reachable : sample_reachable 2 sample_claimed.
Proof.
  replace sample_claimed with (run_worker sample_verify 8 2 (sample_node 2)) by vm_refl.
  apply sample_run_reachable, sample_node_reachable.
Qed.

Lemma sample_draining_reachable : sample_reachable 2 sample_draining.
Proof.
  replace sample_draining with (run_worker sample_verify 8 1
    (mkNode (point sample_claimed) (worker sample_claimed) (node_sys sample_claimed) true)) by vm_refl.
  apply sample_run_reachable, sample_stop_reachable, sample_claimed_reachable.
Qed.

Lemma sample_returned_reachable : sample_reachable 2 sample_returned.
Proof.
  replace sample_returned with (run_worker sample_verify 8 3 sample_draining) by vm_refl.
  apply sample_run_reachable, sample_draining_reachable.
Qed.

Lemma sample_waiting_reachable : sample_reachable 0 sample_waiting.
Proof.
  replace sample_waiting with (run_worker sample_verify 8 8 (sample_node 0)) by vm_refl.
  apply sample_run_reachable, sample_node_reachable.
Qed.

Lemma worker_claims_exact_witness :
  let w := worker sample_claimed in let s := sys_store (node_sys sample_claimed) in
  map job_id (jobs w) = [sample_id] /\
  (len (jobs w) <= Z.max 0 (max_concurrent_jobs (worker_config w)) /\
  NoDup (map job_id (jobs w) ++ pending w) /\
  forall id, status_of s id = StatusVerifying <->
    exists j, j ∈ jobs w /\ job_id j = id /\ records s !! id = Some (claim j)).
Proof.
  cbv zeta. split; [vm_refl|].
  apply (worker_claims_exact (fun _ => verify_wf) (fun _ _ h => h) 8 sample_config sample_registry (sample_vconfig 2)).
  - exact sample_claimed_reachable.
  - intros e. assert (point sample_claimed = Starting) as -> by vm_refl. discriminate.
Defined.

Lemma worker_never_forgets_witness :
  (sample_id ∈ pending (worker sample_waiting) /\
    max_concurrent_jobs (worker_config (worker sample_waiting)) <= len (jobs (worker sample_waiting))) \/
  exists j, j ∈ jobs (worker sample_waiting) /\ job_id j = sample_id.
Proof.
  apply (worker_never_forgets (fun _ => verify_wf) (fun _ _ h => h) 8 sample_config sample_registry (sample_vconfig 0)).
  - exact sample_waiting_reachable.
  - vm_refl.
  - vm_refl.
  - vm_refl.
  - vm_refl.
Defined.

Lemma worker_run_result_witness :
  (Ok tt = Ok tt :> Result unit /\ jobs (worker sample_returned) = [] /\
    forall id, status_of (sys_store (node_sys sample_returned)) id <> StatusVerifying) \/
  exists e, (Ok tt : Result unit) = Err (TaskError e).
Proof.
  apply (worker_run_result (fun _ => verify_wf) (fun _ _ h => h) 8 sample_config sample_registry (sample_vconfig 2)).
  - exact sample_returned_reachable.
  - vm_refl.
Defined.

Lemma worker_drain_completes_witness :
  length (jobs (worker sample_draining)) = 1%nat /\
  exists n', rtc (worker_step (fun _ => verify_wf) 8) sample_draining n' /\ point n' = Returned (Ok tt).
Proof.
  split; [vm_refl|].
  apply (worker_drain_completes (fun _ => verify_wf) (fun _ _ h => h) 8 sample_config sample_registry (sample_vconfig 2)).
  - exact sample_draining_reachable.
  - vm_refl.
  - intros _. exists sample_verify. exact sample_verify_wf.
Defined.

(** a verifier that times out once and then accepts *)
Definition sample_slow_verify : unit -> Proof_ -> nat -> Attempt :=
  fun _ _ k => match k with O => mkAttempt None (Some 5)
    | S _ => mkAttempt (Some (1, Ok (Ok Valid))) None end.

Lemma execute_job_bounded_witness :
  execute_job sample_slow_verify sample_job (Some tt) (sample_vconfig 2) =
    (mkCompletion sample_job (OutcomeCompleted Valid), 1000 + 5 + 10 + 1) /\
  let (completion, elapsed) := execute_job sample_slow_verify sample_job (Some tt) (sample_vconfig 2) in
  completion_job completion = sample_job.
Proof.
  split; [vm_refl|].
  pose proof (execute_job_bounded sample_slow_verify sample_job tt (sample_vconfig 2)) as Hb.
  simpl max_retries in Hb. specialize (Hb ltac:(lia) ltac:(done) ltac:(done)).
  destruct (execute_job _ _ _ _) as [c d]. exact (proj1 Hb).
Defined.
End witnesses.
