(* ===== verification/P2pTypes.v ===== *)
(** * Identifiers and events of the P2P component (src/src/p2p/types.rs) *)

From stdpp Require Import base gmap list strings.
From S2P Require Import Prelude Types Wire ProofId.

Definition QUERY_ID_LEN : nat := 16.

Abbreviation QueryId := (array QUERY_ID_LEN).

(** [ProofRequestId(u64)], [InboundProofRequestId(u64)]. *)
Record ProofRequestId : Set := mkProofRequestId { request_number : Z }.
Record InboundProofRequestId : Set := mkInboundId { inbound_number : Z }.

#[export] Instance ProofRequestId_eq_dec : EqDecision ProofRequestId.
Proof. solve_decision. Defined.
#[export] Instance InboundProofRequestId_eq_dec : EqDecision InboundProofRequestId.
Proof. solve_decision. Defined.
#[export] Program Instance InboundProofRequestId_countable : Countable InboundProofRequestId :=
  inj_countable' inbound_number mkInboundId _.
Next Obligation. by intros []. Qed.

Section types.
Context `{Libp2p}.

(** A listen address is kept as its text. *)
Inductive DriverEvent : Type :=
| Listening (address : string)
| PeerConnected (peer : PeerId)
| PeerDisconnected (peer : PeerId)
| AvailabilityAnnounced (peer : PeerId) (verification_id : VerificationId)
| ProvidersDiscovered (query_id : QueryId) (verification_id : VerificationId)
    (providers : list PeerId)
| ProofRequested (request_id : InboundProofRequestId) (peer : PeerId)
    (verification_id : VerificationId)
| ProofReceived (request_id : ProofRequestId) (peer : PeerId) (verification_id : VerificationId)
    (proof : Proof_)
| ProofNotFound (request_id : ProofRequestId) (peer : PeerId) (verification_id : VerificationId)
| ProofRequestFailed (request_id : ProofRequestId) (peer : PeerId)
    (verification_id : VerificationId) (reason : string).
End types.
