(* ===== verification/P2pAvailability.v ===== *)
(** * Availability messages and the proof exchange codec
    (src/src/p2p/availability.rs, src/src/p2p/codec.rs) *)

From stdpp Require Import base gmap list strings pretty sorting.
From S2P Require Import Prelude Types Wire Samples ProofId P2pTypes.

(** ** Availability *)

(** The derived order on byte vectors: lexicographic. *)
Fixpoint bytes_leb (a b : bytes) : bool :=
  match a, b with
  | [], _ => true
  | _ :: _, [] => false
  | x :: a', y :: b' =>
      (byte_to_Z x <? byte_to_Z y) || (byte_to_Z x =? byte_to_Z y) && bytes_leb a' b'
  end.

(** [struct AvailabilityIndex] *)
Abbreviation AvailabilityIndex := (gmap VerificationId (gset PeerId)).

Section availability.
Context `{Libp2p}.

Inductive ValidatedAvailability : Type :=
| VAnnouncement (verification_id : VerificationId)
| VQuery (query_id : QueryId) (verification_id : VerificationId)
| VResponse (query_id : QueryId) (verification_id : VerificationId) (providers : list PeerId).

Definition index_add (id : VerificationId) (peer : PeerId) (index : AvailabilityIndex)
  : AvailabilityIndex :=
  <[id := {[peer]} ∪ default ∅ (index !! id)]> index.

Definition peer_le (p q : PeerId) : Prop :=
  bytes_leb (peer_to_bytes p) (peer_to_bytes q) = true.
#[export] Instance peer_le_dec p q : Decision (peer_le p q).
Proof. unfold peer_le. apply _. Defined.

(** [sort_by_key(|peer| peer.to_bytes())] *)
Definition sort_peers (l : list PeerId) : list PeerId := merge_sort peer_le l.

Definition index_providers (id : VerificationId) (index : AvailabilityIndex) : list PeerId :=
  sort_peers (elements (default ∅ (index !! id))).

Definition remove_provider (id : VerificationId) (peer : PeerId) (index : AvailabilityIndex)
  : AvailabilityIndex :=
  match index !! id with
  | Some providers =>
      let providers' := providers ∖ {[peer]} in
      if decide (providers' = ∅) then delete id index else <[id := providers']> index
  | None => index
  end.

(** The closure of [retain]: the set without the peer, kept if it is not empty. *)
Definition without_peer (peer : PeerId) (providers : gset PeerId) : option (gset PeerId) :=
  let providers' := providers ∖ {[peer]} in
  if decide (providers' = ∅) then None else Some providers'.

Definition remove_peer (peer : PeerId) (index : AvailabilityIndex) : AvailabilityIndex :=
  omap (without_peer peer) index.

Definition replace_provider_proofs (peer : PeerId) (ids : gset VerificationId)
  (index : AvailabilityIndex) : AvailabilityIndex :=
  set_fold (fun id index => index_add id peer index) (remove_peer peer index) ids.

Definition query_id_of (b : bytes) : Result QueryId :=
  match array_of QUERY_ID_LEN b with
  | Some q => Ok q
  | None =>
      Err (P2pProtocol ("query ID must be " +:+ pretty QUERY_ID_LEN +:+ " bytes, got "
        +:+ pretty (length b)))
  end.

(** The loop over the provider identities of a response. *)
Fixpoint collect_providers (authorized : gset PeerId) (l : list bytes) (unique : gset PeerId)
  : Result (gset PeerId) :=
  match l with
  | [] => Ok unique
  | b :: l' =>
      match peer_from_bytes b with
      | Err error => Err (P2pProtocol ("invalid provider PeerId: " +:+ error))
      | Ok peer =>
          if bool_decide (peer ∈ authorized)
          then collect_providers authorized l' ({[peer]} ∪ unique)
          else Err (P2pProtocol ("provider " +:+ peer_to_string peer
            +:+ " is not an active validator"))
      end
  end.

Context `{Message AvailabilityMessage}.

Definition decode_and_validate (b : bytes) (expected_chain_id : string) (authorized : gset PeerId)
  (maximum_providers : Z) : Result ValidatedAvailability :=
  envelope ← map_err (fun e => P2pProtocol ("invalid availability protobuf: " +:+ e)) (decode b);
  if negb (bool_decide (avail_chain_id envelope = expected_chain_id)) then
    Err (P2pProtocol ("availability chain ID mismatch: expected " +:+ expected_chain_id
      +:+ ", got " +:+ avail_chain_id envelope))
  else match payload envelope with
  | Some (PayloadAnnouncement value) =>
      id ← verification_id_try_from (ann_verification_id value);
      Ok (VAnnouncement id)
  | Some (PayloadQuery value) =>
      qid ← query_id_of (query_request_id value);
      id ← verification_id_try_from (query_verification_id value);
      Ok (VQuery qid id)
  | Some (PayloadResponse value) =>
      if maximum_providers <? len (provider_peer_ids value) then
        Err (P2pProtocol ("availability response exceeds " +:+ pretty maximum_providers
          +:+ " providers"))
      else
        unique ← collect_providers authorized (provider_peer_ids value) ∅;
        let providers := sort_peers (elements unique) in
        qid ← query_id_of (resp_request_id value);
        id ← verification_id_try_from (resp_verification_id value);
        Ok (VResponse qid id providers)
  | None => Err (P2pProtocol "availability message has no payload")
  end.

Definition announcement (chain_id : string) (id : VerificationId) : bytes :=
  encode_to_vec (mkAvailabilityMessage chain_id
    (Some (PayloadAnnouncement (mkAvailabilityAnnouncement (as_bytes id))))).

Definition availability_query (chain_id : string) (qid : QueryId) (id : VerificationId) : bytes :=
  encode_to_vec (mkAvailabilityMessage chain_id
    (Some (PayloadQuery (mkAvailabilityQuery (arr_data qid) (as_bytes id))))).

Definition availability_response (chain_id : string) (qid : QueryId) (id : VerificationId)
  (providers : list PeerId) : bytes :=
  encode_to_vec (mkAvailabilityMessage chain_id
    (Some (PayloadResponse (mkAvailabilityResponse (arr_data qid) (as_bytes id)
      (map peer_to_bytes providers))))).
End availability.

(** ** The codec of the proof exchange *)

Definition MAX_REQUEST_BYTES : Z := 1024.

Record ProofExchangeCodec : Set := mkCodec { max_response_bytes : Z }.

(** [ProofExchangeCodec::new]. *)
Definition ProofExchangeCodec_new `{ProstVarint} (max_proof_bytes : Z) (chain_id : string)
  : Result ProofExchangeCodec :=
  let chain_len := str_len chain_id in
  max_response_bytes ← ok_or (
    size ← checked_add usize_max max_proof_bytes 1;
    size ← checked_add usize_max size (encoded_len_varint chain_len);
    size ← checked_add usize_max size chain_len;
    size ← checked_add usize_max size 1;
    checked_add usize_max size (encoded_len_varint max_proof_bytes))
    (InvalidConfig "proof exchange size limit overflows usize");
  Ok (mkCodec max_response_bytes).

(** A substream to read from: its bytes, and the error that ends it, if one does. *)
Record ReadStream : Set := mkReadStream { stream_data : bytes; stream_error : option IoError }.

(** [io.take(limit).read_to_end(&mut bytes)] *)
Definition read_limited (io : ReadStream) (limit : Z) : result IoError bytes :=
  if limit <=? len (stream_data io) then Ok (take (Z.to_nat limit) (stream_data io))
  else match stream_error io with
  | Some e => Err e
  | None => Ok (stream_data io)
  end.

Definition read_message {M} `{Message M} (io : ReadStream) (maximum : Z) : result IoError M :=
  read_limit ← ok_or (checked_add usize_max maximum 1)
    (mkIoError KindInvalidInput "frame limit overflows usize");
  b ← read_limited io read_limit;
  if maximum <? len b then
    Err (mkIoError KindInvalidData ("protobuf frame exceeds " +:+ pretty maximum +:+ " bytes"))
  else map_err (mkIoError KindInvalidData) (decode b).

(** What [write_message] hands to the substream before it closes it. *)
Definition write_message {M} `{Message M} (message : M) (maximum : Z) : result IoError bytes :=
  if maximum <? encoded_len message then
    Err (mkIoError KindInvalidInput ("protobuf frame exceeds " +:+ pretty maximum +:+ " bytes"))
  else Ok (encode_to_vec message).

(** The codec's four operations. *)
Definition read_request `{Message GetProofRequest} (c : ProofExchangeCodec) (io : ReadStream) :=
  read_message (M := GetProofRequest) io MAX_REQUEST_BYTES.
Definition read_response `{Message GetProofResponse} (c : ProofExchangeCodec) (io : ReadStream) :=
  read_message (M := GetProofResponse) io (max_response_bytes c).
Definition write_request `{Message GetProofRequest} (c : ProofExchangeCodec) (r : GetProofRequest) :=
  write_message r MAX_REQUEST_BYTES.
Definition write_response `{Message GetProofResponse} (c : ProofExchangeCodec) (r : GetProofResponse) :=
  write_message r (max_response_bytes c).

(** The proto3 encoding of the exchange's response (exchange.proto), as a reference. *)
Definition proto3_response (r : GetProofResponse) : bytes :=
  proto3_bytes_field Byte.x0a (String.list_byte_of_string (gps_chain_id r)) ++
  match gps_result r with
  | Some (ResultProof w) => Byte.x12 :: varint (len (proto3_proof w)) ++ proto3_proof w
  | Some ResultNotFound => [Byte.x1a; Byte.x00]
  | None => []
  end.

Class ResponseMessageLaw `{Message GetProofResponse} : Prop :=
  encode_response : forall r, encode_to_vec r = proto3_response r.

(** ** Lemmas *)

Lemma leb128_mono fuel a b :
  0 <= a <= b -> (length (leb128 fuel a) <= length (leb128 fuel b))%nat.
Proof.
  revert a b. induction fuel as [|fuel IH]; intros a b Hab; [done|]. cbn [leb128].
  destruct (Z.ltb_spec a 128), (Z.ltb_spec b 128); simpl; [lia|lia|lia|].
  specialize (IH (a / 128) (b / 128)).
  assert (0 <= a / 128 <= b / 128) by (split; [apply Z.div_pos; lia|apply Z.div_le_mono; lia]).
  lia.
Qed.

Lemma varint_mono a b : 0 <= a <= b -> len (varint a) <= len (varint b).
Proof. intros Hab. unfold len, varint. pose proof (leb128_mono 10 a b Hab). lia. Qed.

Lemma varint_pos a : 1 <= len (varint a).
Proof. unfold len, varint. pose proof (leb128_nonempty 10 a ltac:(done)). lia. Qed.

Lemma len_of_string s : len (String.list_byte_of_string s) = str_len s.
Proof.
  unfold len, str_len, String.list_byte_of_string. f_equal. rewrite length_map.
  induction s as [|a s IH]; simpl; [done|by rewrite IH].
Qed.

Lemma checked_add_Some limit a b c : checked_add limit a b = Some c <-> c = a + b /\ c <= limit.
Proof.
  unfold checked_add. destruct (Z.leb_spec (a + b) limit); split; naive_solver lia.
Qed.

Lemma codec_new_value `{ProstVarint} max chain c :
  ProofExchangeCodec_new max chain = Ok c ->
  max_response_bytes c = max + 1 + encoded_len_varint (str_len chain) + str_len chain + 1
    + encoded_len_varint max /\ max_response_bytes c <= usize_max.
Proof.
  unfold ProofExchangeCodec_new. destruct (checked_add usize_max max 1) as [a|] eqn:E1; [|done].
  simpl. destruct (checked_add usize_max a _) as [b|] eqn:E2; [|done]. simpl.
  destruct (checked_add usize_max b _) as [d|] eqn:E3; [|done]. simpl.
  destruct (checked_add usize_max d _) as [e|] eqn:E4; [|done]. simpl.
  destruct (checked_add usize_max e _) as [f|] eqn:E5; [|done]. intros [= <-]. simpl.
  apply checked_add_Some in E1 as [-> _], E2 as [-> _], E3 as [-> _], E4 as [-> _], E5 as [-> ?].
  split; [lia|done].
Qed.

Lemma read_limited_fits b maximum :
  len b <= maximum -> read_limited (mkReadStream b None) (maximum + 1) = Ok b.
Proof. intros Hb. unfold read_limited. simpl. by rewrite (proj2 (Z.leb_gt _ _)) by lia. Qed.

Lemma read_limited_len io limit b :
  0 <= limit -> read_limited io limit = Ok b -> len b = Z.min limit (len (stream_data io)).
Proof.
  intros Hl. unfold read_limited. destruct (Z.leb_spec limit (len (stream_data io))) as [Hle|Hgt].
  - intros [= <-]. unfold len in *. rewrite length_take. lia.
  - destruct (stream_error io); [done|]. intros [= <-]. lia.
Qed.

Section index_lemmas.
Context `{Libp2p}.

(** The abstract index: who provides what. *)
Definition provides (index : AvailabilityIndex) (id : VerificationId) (peer : PeerId) : Prop :=
  peer ∈ default ∅ (index !! id).

Definition index_wf (index : AvailabilityIndex) : Prop :=
  forall id s, index !! id = Some s -> s <> ∅.

Lemma provides_add index id peer id' peer' :
  provides (index_add id peer index) id' peer' <->
  provides index id' peer' \/ id' = id /\ peer' = peer.
Proof.
  unfold provides, index_add. rewrite lookup_insert. case_decide as Hd; simpl; [subst|].
  - rewrite elem_of_union, elem_of_singleton. naive_solver.
  - naive_solver.
Qed.

Lemma index_add_wf index id peer : index_wf index -> index_wf (index_add id peer index).
Proof.
  intros W id' s. unfold index_add. rewrite lookup_insert. case_decide; [|apply W].
  intros [= <-] E. assert (peer ∈ (∅ : gset PeerId)) as Hin by (rewrite <- E; set_solver).
  by apply not_elem_of_empty in Hin.
Qed.

Lemma remove_peer_lookup peer index id :
  remove_peer peer index !! id = index !! id ≫= without_peer peer.
Proof. unfold remove_peer. by rewrite lookup_omap. Qed.

Lemma without_peer_default peer s : default ∅ (without_peer peer s) = s ∖ {[peer]}.
Proof. unfold without_peer. by destruct (decide _). Qed.

Lemma provides_remove_peer index peer id' peer' :
  provides (remove_peer peer index) id' peer' <-> provides index id' peer' /\ peer' <> peer.
Proof.
  unfold provides. rewrite remove_peer_lookup. destruct (index !! id') as [s|]; simpl; [|set_solver].
  rewrite without_peer_default. set_solver.
Qed.

Lemma remove_peer_wf index peer : index_wf (remove_peer peer index).
Proof.
  intros id s. rewrite remove_peer_lookup. destruct (index !! id) as [s0|]; simpl; [|done].
  unfold without_peer. destruct (decide _); [done|]. by intros [= <-].
Qed.

Lemma provides_remove_provider index id peer id' peer' :
  provides (remove_provider id peer index) id' peer' <->
  provides index id' peer' /\ ~ (id' = id /\ peer' = peer).
Proof.
  unfold provides, remove_provider. destruct (index !! id) as [s|] eqn:E.
  - destruct (decide (s ∖ {[peer]} = ∅)) as [Hs|Hs];
      destruct (decide (id' = id)) as [->|Hne]; rewrite ?lookup_delete_eq, ?lookup_delete_ne,
        ?lookup_insert_eq, ?lookup_insert_ne, ?E by done; simpl; set_solver.
  - destruct (decide (id' = id)) as [->|Hne]; rewrite ?E; simpl; set_solver.
Qed.

Lemma remove_provider_wf index id peer : index_wf index -> index_wf (remove_provider id peer index).
Proof.
  intros W. unfold remove_provider. destruct (index !! id) as [s|]; [|done].
  destruct (decide _); intros id' s'.
  - rewrite lookup_delete_Some. intros [_ ?]. by eapply W.
  - rewrite lookup_insert. case_decide; [|apply W]. by intros [= <-].
Qed.

Lemma provides_replace peer ids index id' peer' :
  provides (replace_provider_proofs peer ids index) id' peer' <->
  provides index id' peer' /\ peer' <> peer \/ peer' = peer /\ id' ∈ ids.
Proof.
  unfold replace_provider_proofs.
  apply (set_fold_ind_L (fun index' X => provides index' id' peer' <->
    provides index id' peer' /\ peer' <> peer \/ peer' = peer /\ id' ∈ X)).
  - rewrite provides_remove_peer. set_solver.
  - intros id X index' Hni IH. rewrite provides_add, IH. set_solver.
Qed.

Lemma replace_wf peer ids index : index_wf (replace_provider_proofs peer ids index).
Proof.
  unfold replace_provider_proofs. apply (set_fold_ind_L (fun index' _ => index_wf index')).
  - apply remove_peer_wf.
  - intros id X index' _ IH. by apply index_add_wf.
Qed.

(** ** The order of peers *)

Lemma bytes_leb_total a b : bytes_leb a b = true \/ bytes_leb b a = true.
Proof.
  revert b. induction a as [|x a IH]; intros [|y b]; simpl; auto.
  destruct (Z.ltb_spec (byte_to_Z x) (byte_to_Z y)), (Z.ltb_spec (byte_to_Z y) (byte_to_Z x)),
    (Z.eqb_spec (byte_to_Z x) (byte_to_Z y)), (Z.eqb_spec (byte_to_Z y) (byte_to_Z x)); simpl; auto; lia.
Qed.

#[export] Instance peer_le_total : Total peer_le.
Proof. intros p q. apply bytes_leb_total. Qed.

Lemma sort_peers_perm l : sort_peers l ≡ₚ l.
Proof. apply merge_sort_Permutation. Qed.

Lemma sort_peers_sorted l : Sorted peer_le (sort_peers l).
Proof. apply Sorted_merge_sort, _. Qed.

Lemma elem_of_index_providers id index peer :
  peer ∈ index_providers id index <-> provides index id peer.
Proof. unfold index_providers, provides. by rewrite sort_peers_perm, elem_of_elements. Qed.

Lemma index_providers_NoDup id index : NoDup (index_providers id index).
Proof. unfold index_providers. rewrite sort_peers_perm. apply NoDup_elements. Qed.

(** ** Decoding *)

Lemma collect_providers_ok authorized l acc unique :
  collect_providers authorized l acc = Ok unique ->
  acc ⊆ authorized -> unique ⊆ authorized /\ (size unique <= size acc + length l)%nat.
Proof.
  revert acc. induction l as [|b l IH]; intros acc; simpl; [intros [= <-] ?; split; [done|lia]|].
  destruct (peer_from_bytes b) as [peer|e]; [|done]. case_bool_decide as Hin; [|done].
  intros Hc Hacc. destruct (IH _ Hc) as [I1 I2]; [set_solver|]. split; [done|].
  rewrite size_union_alt, size_singleton in I2.
  assert (size (acc ∖ {[peer]}) <= size acc)%nat by (apply subseteq_size; set_solver). lia.
Qed.

Lemma collect_providers_complete `{!Libp2pLaws} authorized l acc :
  (forall p, p ∈ l -> p ∈ authorized) ->
  collect_providers authorized (map peer_to_bytes l) acc = Ok (list_to_set l ∪ acc).
Proof.
  revert acc. induction l as [|p l IH]; intros acc Hl; simpl; [f_equal; set_solver|].
  rewrite peer_from_to_bytes, bool_decide_eq_true_2 by (apply Hl; left).
  rewrite IH by (intros q Hq; apply Hl; by right). f_equal. set_solver.
Qed.

Lemma query_id_of_spec q : query_id_of (arr_data q) = Ok q.
Proof. unfold query_id_of. by rewrite array_of_data. Qed.
End index_lemmas.

(** ** Properties *)

Section properties.

(** Every response the node may send fits the codec's frame limit: with the limit derived
    from the largest proof, a proof of that size and a miss are both accepted for writing. *)
Theorem codec_limit_sufficient `{ProstVarint, !VarintLaw, Message GetProofResponse,
    !ResponseMessageLaw} max chain c w :
  (forall r, encoded_len r = len (encode_to_vec r)) ->
  0 <= max < 2 ^ 64 -> str_len chain < 2 ^ 64 -> ProofExchangeCodec_new max chain = Ok c ->
  len (proto3_proof w) <= max ->
  forall result, result = ResultProof w \/ result = ResultNotFound ->
  let r := mkGetProofResponse chain (Some result) in
  write_response c r = Ok (encode_to_vec r).
Proof.
  intros Hlen Hmax Hchain Hc Hw result Hr r. destruct (codec_new_value _ _ _ Hc) as [Ec _].
  unfold write_response, write_message. rewrite Hlen, (proj2 (Z.ltb_ge _ _)); [done|].
  rewrite encode_response, Ec. unfold r, proto3_response, proto3_bytes_field. simpl.
  rewrite len_of_string, len_app.
  assert (0 <= str_len chain) by (unfold str_len; lia).
  rewrite !encoded_len_varint_spec by lia.
  pose proof (varint_pos (str_len chain)). pose proof (varint_pos max).
  assert (len (if str_len chain =? 0 then [] else
    Byte.x0a :: varint (str_len chain) ++ String.list_byte_of_string chain) <=
    1 + len (varint (str_len chain)) + str_len chain).
  { destruct (str_len chain =? 0); [unfold len at 1; simpl; lia|].
    rewrite len_cons, len_app, len_of_string. lia. }
  destruct Hr as [->| ->].
  - rewrite len_cons, len_app. pose proof (varint_mono (len (proto3_proof w)) max).
    pose proof (len_nonneg (proto3_proof w)). lia.
  - change (len [Byte.x1a; Byte.x00]) with 2. lia.
Qed.

(** Frames: what one side writes the other reads back, and a longer frame is refused
    without looking at more than one byte past the limit. *)
Theorem frame_round_trip {M} `{Message M, !MessageLaws M} (m : M) maximum b :
  0 <= maximum < usize_max ->
  (write_message m maximum = Ok b -> read_message (mkReadStream b None) maximum = Ok m) /\
  (forall io, maximum < len (stream_data io) ->
    read_message (M := M) io maximum =
      Err (mkIoError KindInvalidData ("protobuf frame exceeds " +:+ pretty maximum +:+ " bytes"))).
Proof.
  intros Hmax. unfold read_message, checked_add. rewrite (proj2 (Z.leb_le _ _)) by lia. simpl. split.
  - unfold write_message. destruct (Z.ltb_spec maximum (encoded_len m)) as [|Hle]; [done|].
    intros [= <-]. rewrite encoded_len_encode in Hle. rewrite read_limited_fits by done. simpl.
    rewrite (proj2 (Z.ltb_ge _ _)) by done. by rewrite decode_encode.
  - intros io Hio. unfold read_limited. rewrite (proj2 (Z.leb_le _ _)) by lia. simpl.
    assert (len (take (Z.to_nat (maximum + 1)) (stream_data io)) = maximum + 1) as ->
      by (unfold len in *; rewrite length_take; lia).
    by rewrite (proj2 (Z.ltb_lt _ _)) by lia.
Qed.

(** C36: the availability index is a set of provider facts: each operation adds or removes
    exactly its facts, no empty entry is kept, and the provider list of an identifier is
    duplicate-free, sorted and complete. *)
Theorem index_refines_facts `{Libp2p} index id peer ids :
  index_wf index ->
  (index_wf (index_add id peer index) /\ index_wf (remove_provider id peer index) /\
    index_wf (remove_peer peer index) /\ index_wf (replace_provider_proofs peer ids index)) /\
  (forall id' peer',
    (provides (index_add id peer index) id' peer' <->
      provides index id' peer' \/ id' = id /\ peer' = peer) /\
    (provides (remove_provider id peer index) id' peer' <->
      provides index id' peer' /\ ~ (id' = id /\ peer' = peer)) /\
    (provides (remove_peer peer index) id' peer' <-> provides index id' peer' /\ peer' <> peer) /\
    (provides (replace_provider_proofs peer ids index) id' peer' <->
      provides index id' peer' /\ peer' <> peer \/ peer' = peer /\ id' ∈ ids)) /\
  NoDup (index_providers id index) /\ Sorted peer_le (index_providers id index) /\
  forall peer', peer' ∈ index_providers id index <-> provides index id peer'.
Proof.
  intros W. split_and!; [by apply index_add_wf|by apply remove_provider_wf|apply remove_peer_wf
    |apply replace_wf| |apply index_providers_NoDup|apply sort_peers_sorted
    |intros; apply elem_of_index_providers].
  intros id' peer'. split_and!; [apply provides_add|apply provides_remove_provider
    |apply provides_remove_peer|apply provides_replace].
Qed.

(** C38: gossip messages: what a node announces, queries or answers is understood by another
    node of the same chain, and an accepted response names at most the allowed number of
    peers, each once, in order, and all of them active validators. *)
Theorem availability_round_trip `{Libp2p, !Libp2pLaws, Message AvailabilityMessage,
    !MessageLaws AvailabilityMessage} chain authorized max qid id providers :
  (forall p, p ∈ providers -> p ∈ authorized) -> len providers <= max ->
  decode_and_validate (announcement chain id) chain authorized max = Ok (VAnnouncement id) /\
  decode_and_validate (availability_query chain qid id) chain authorized max = Ok (VQuery qid id) /\
  decode_and_validate (availability_response chain qid id providers) chain authorized max =
    Ok (VResponse qid id (sort_peers (elements (list_to_set (C := gset PeerId) providers)))) /\
  (forall b qid' id' ps, decode_and_validate b chain authorized max = Ok (VResponse qid' id' ps) ->
    len ps <= max /\ NoDup ps /\ Sorted peer_le ps /\ forall p, p ∈ ps -> p ∈ authorized).
Proof.
  intros Hp Hmax. unfold decode_and_validate, announcement, availability_query, availability_response.
  rewrite !decode_encode. simpl. rewrite bool_decide_eq_true_2 by done. simpl.
  rewrite verification_id_try_from_bytes, query_id_of_spec.
  rewrite collect_providers_complete by done. simpl.
  assert (len (map peer_to_bytes providers) = len providers) as -> by (unfold len; by rewrite length_map).
  rewrite (proj2 (Z.ltb_ge _ _)) by done. split_and!; [done|done|by rewrite (right_id_L ∅ (∪))|].
  intros b qid' id' ps. destruct (decode b) as [env|e]; simpl; [|done].
  case_bool_decide; simpl; [|done].
  destruct (payload env) as [[v|v|v]|]; simpl; [..|done].
  - by destruct (verification_id_try_from _).
  - destruct (query_id_of _); simpl; [|done]. by destruct (verification_id_try_from _).
  - destruct (Z.ltb_spec max (len (provider_peer_ids v))) as [|Hle]; [done|].
    destruct (collect_providers _ _ ∅) as [unique|e] eqn:Ec; simpl; [|done].
    destruct (query_id_of _); simpl; [|done]. destruct (verification_id_try_from _); simpl; [|done].
    intros [= <- <- <-]. apply collect_providers_ok in Ec as [Ha Hs]; [|set_solver].
    rewrite size_empty in Hs. split_and!.
    + unfold len in *. rewrite sort_peers_perm. change (length (elements unique)) with (size unique). lia.
    + rewrite sort_peers_perm. apply NoDup_elements.
    + apply sort_peers_sorted.
    + intros p. rewrite sort_peers_perm, elem_of_elements. set_solver.
Qed.
End properties.

(** ** Witnesses *)

Section witnesses.
#[local] Existing Instance sample_libp2p.
#[local] Existing Instance sample_libp2p_laws.
#[local] Existing Instance sample_varint.
#[local] Existing Instance sample_varint_law.

Definition sample_response_message : Message GetProofResponse := {|
  encode_to_vec := proto3_response;
  encoded_len r := len (proto3_response r);
  decode _ := Err "not decoded"
|}.

Lemma sample_response_law : @ResponseMessageLaw sample_response_message.
Proof. intros r. reflexivity. Qed.

Lemma codec_limit_sufficient_witness :
  write_response (H := sample_response_message) (mkCodec 1037)
    (mkGetProofResponse "pulsar-1" (Some ResultNotFound)) =
  Ok (proto3_response (mkGetProofResponse "pulsar-1" (Some ResultNotFound))).
Proof.
  refine (@codec_limit_sufficient sample_varint sample_varint_law sample_response_message
    sample_response_law 1024 "pulsar-1" (mkCodec 1037) (wire_of_proof sample_proof) _ _ _ _ _
    ResultNotFound (or_intror eq_refl)).
  - intros r. reflexivity.
  - split; vm_compute; [discriminate|reflexivity].
  - vm_compute. reflexivity.
  - vm_refl.
  - vm_compute. discriminate.
Defined.

#[local] Instance sample_request_eq_dec : EqDecision GetProofRequest.
Proof. solve_decision. Defined.
#[local] Program Instance sample_request_countable : Countable GetProofRequest :=
  inj_countable' (fun r => (gpr_chain_id r, gpr_verification_id r))
    (fun p => mkGetProofRequest (fst p) (snd p)) _.
Next Obligation. by intros []. Qed.

Definition sample_get_request : GetProofRequest := mkGetProofRequest "p" [Byte.x01].

Lemma frame_round_trip_witness :
  exists b, write_message (H := sample_message GetProofRequest) sample_get_request 1024 = Ok b /\
  read_message (H := sample_message GetProofRequest) (mkReadStream b None) 1024 =
    Ok sample_get_request.
Proof.
  eexists. split; [reflexivity|].
  refine (proj1 (@frame_round_trip GetProofRequest (sample_message GetProofRequest)
    (sample_message_laws GetProofRequest) sample_get_request 1024 _ _) _).
  - split; vm_compute; [discriminate|reflexivity].
  - reflexivity.
Defined.

#[local] Instance sample_announcement_eq_dec : EqDecision AvailabilityAnnouncement.
Proof. solve_decision. Defined.
#[local] Instance sample_query_eq_dec : EqDecision AvailabilityQuery.
Proof. solve_decision. Defined.
#[local] Instance sample_response_eq_dec : EqDecision AvailabilityResponse.
Proof. solve_decision. Defined.
#[local] Instance sample_payload_eq_dec : EqDecision AvailabilityPayload.
Proof. solve_decision. Defined.
#[local] Program Instance sample_payload_countable : Countable AvailabilityPayload :=
  inj_countable' (fun p => match p with
    | PayloadAnnouncement v => inl (ann_verification_id v)
    | PayloadQuery v => inr (inl (query_request_id v, query_verification_id v))
    | PayloadResponse v => inr (inr (resp_request_id v, resp_verification_id v, provider_peer_ids v))
    end) (fun p => match p with
    | inl a => PayloadAnnouncement (mkAvailabilityAnnouncement a)
    | inr (inl (a, b)) => PayloadQuery (mkAvailabilityQuery a b)
    | inr (inr (a, b, l)) => PayloadResponse (mkAvailabilityResponse a b l)
    end) _.
Next Obligation. by intros [[]|[]|[]]. Qed.
#[local] Instance sample_availability_eq_dec : EqDecision AvailabilityMessage.
Proof. solve_decision. Defined.
#[local] Program Instance sample_availability_countable : Countable AvailabilityMessage :=
  inj_countable' (fun m => (avail_chain_id m, payload m)) (fun p => mkAvailabilityMessage (fst p) (snd p)) _.
Next Obligation. by intros []. Qed.

Definition sample_availability_message : Message AvailabilityMessage := sample_message AvailabilityMessage.

(** One of the two providers of a proof goes; the other still provides it. *)
Definition sample_gone : PeerId := Byte.x0a.
Definition sample_left : PeerId := Byte.x0b.
Definition sample_index : AvailabilityIndex := {[ zero_array := {[ sample_gone; sample_left ]} ]}.

Lemma index_refines_facts_witness :
  index_wf (remove_peer sample_gone sample_index) /\
  ~ provides (remove_peer sample_gone sample_index) zero_array sample_gone /\
  provides (remove_peer sample_gone sample_index) zero_array sample_left.
Proof.
  assert (index_wf sample_index) as W.
  { intros id s. unfold sample_index. intros Hs. apply lookup_singleton_Some in Hs as [<- <-]. set_solver. }
  destruct (index_refines_facts sample_index zero_array sample_gone ∅ W) as ((_&_&Wr&_)&Facts&_).
  split; [exact Wr|]. split.
  - intros [_ Hp]%(proj1 (proj1 (proj2 (proj2 (Facts zero_array sample_gone))))). by apply Hp.
  - apply (proj2 (proj1 (proj2 (proj2 (Facts zero_array sample_left))))). split; [|discriminate].
    unfold provides, sample_index. rewrite lookup_singleton_eq. simpl. set_solver.
Defined.

Definition sample_query_id : QueryId := @Array 16 (replicate 16 Byte.x00) I.

Lemma availability_round_trip_witness :
  decode_and_validate (H0 := sample_availability_message)
    (availability_query (H0 := sample_availability_message) "p" sample_query_id zero_array)
    "p" {[ (Byte.x0a : PeerId) ]} 128 = Ok (VQuery sample_query_id zero_array).
Proof.
  refine (proj1 (proj2 (@availability_round_trip sample_libp2p sample_libp2p_laws
    sample_availability_message (sample_message_laws AvailabilityMessage) "p"
    {[ (Byte.x0a : PeerId) ]} 128 sample_query_id zero_array [Byte.x0a : PeerId] _ _))).
  - intros p Hp. apply list_elem_of_singleton in Hp as ->. by apply elem_of_singleton.
  - vm_compute. discriminate.
Defined.
End witnesses.
