(* ===== verification/P2pBehaviour.v ===== *)
(** * The composed network behaviour (src/src/p2p/behaviour.rs)

    libp2p's behaviours are foreign: what the crate configures them with is a record, and
    the steps libp2p may refuse are answers of a [BehaviourWorld]. *)

From stdpp Require Import base gmap list strings sorting.
From S2P Require Import Prelude Types Wire Samples ProofId ConfigTypes P2pTypes P2pAvailability.

Definition PROOF_EXCHANGE_PROTOCOL : string := "/pulsar/verifier/proof-exchange/1".

(** The [blake3] crate. *)
Class Blake3 := blake3 : bytes -> array 32.

Section behaviour.
Context `{Multiaddrs, ProstVarint}.

(** [gossipsub::Message] with the peer it came through. *)
Record GossipMessage : Type := mkGossip {
  propagation_source : PeerId;
  source : option PeerId;
  data : bytes
}.

(** [struct PulsarBehaviour], as configured. *)
Record PulsarBehaviour : Type := mkBehaviour {
  allowed_peers : gset PeerId;
  explicit_peers : gset PeerId;
  max_transmit_size : Z;
  subscribed_topic : string;
  exchange_codec : ProofExchangeCodec;
  exchange_protocol : string;
  exchange_timeout : Z;
  identify_protocol : string;
  ping_interval : Z;
  ping_timeout : Z
}.

Record BehaviourWorld : Type := mkBehaviourWorld {
  bw_gossip_config : result string unit;
  bw_gossipsub : result string unit;
  bw_subscribe : string -> result string unit
}.

Definition behaviour_build (w : BehaviourWorld) (config : P2pConfig) (authorized : gset PeerId)
  : Result (PulsarBehaviour * string) :=
  let topic := "/pulsar/verifier/" +:+ p2p_chain_id config +:+ "/availability/1" in
  _ ← map_err (fun e => P2pDriver ("invalid GossipSub config: " +:+ e)) (bw_gossip_config w);
  _ ← map_err (fun e => P2pDriver ("failed to build GossipSub: " +:+ e)) (bw_gossipsub w);
  _ ← map_err (fun e => P2pDriver ("failed to subscribe topic: " +:+ e)) (bw_subscribe w topic);
  codec ← ProofExchangeCodec_new (p2p_max_proof_bytes config) (p2p_chain_id config);
  Ok (mkBehaviour authorized authorized (max_availability_message_bytes config) topic codec
        PROOF_EXCHANGE_PROTOCOL (proof_request_timeout config)
        ("/pulsar/verifier/" +:+ p2p_chain_id config +:+ "/1") (from_secs 15) (from_secs 10), topic).
End behaviour.

Section message_id.
Context `{Libp2p, Blake3, Message AvailabilityMessage}.

Definition str_bytes (s : string) : bytes := String.list_byte_of_string s.

Definition bytes_le (a b : bytes) : Prop := bytes_leb a b = true.
#[export] Instance bytes_le_dec a b : Decision (bytes_le a b).
Proof. unfold bytes_le. apply _. Defined.

(** [Vec<Vec<u8>>::sort] *)
Definition sort_bytes (l : list bytes) : list bytes := merge_sort bytes_le l.

(** What is fed to the hasher after the domain and the source. *)
Definition payload_preimage (b : bytes) : bytes :=
  match decode b with
  | Ok envelope =>
      str_bytes (avail_chain_id envelope) ++
      match payload envelope with
      | Some (PayloadAnnouncement value) => str_bytes "announcement" ++ ann_verification_id value
      | Some (PayloadQuery value) =>
          str_bytes "query" ++ query_request_id value ++ query_verification_id value
      | Some (PayloadResponse value) =>
          str_bytes "response" ++ resp_request_id value ++ resp_verification_id value ++
            concat (sort_bytes (provider_peer_ids value))
      | None => str_bytes "missing-payload" ++ b
      end
  | Err _ => str_bytes "malformed" ++ b
  end.

Definition message_preimage (m : GossipMessage) : bytes :=
  str_bytes "pulsar-availability-message-v1" ++
  match source m with Some peer => peer_to_bytes peer | None => [] end ++
  payload_preimage (data m).

(** [finalize().to_hex()] *)
Definition semantic_message_id `{Hex} (m : GossipMessage) : string :=
  hex_encode (arr_data (blake3 (message_preimage m))).

(** What a validated message says, its providers as one string of bytes. *)
Definition meaning (v : ValidatedAvailability) : string * bytes * bytes :=
  match v with
  | VAnnouncement id => ("announcement", [], as_bytes id)
  | VQuery qid id => ("query", arr_data qid, as_bytes id)
  | VResponse qid id _ => ("response", arr_data qid, as_bytes id)
  end.

Lemma app_inj_length {A} (a a' b b' : list A) :
  length a = length a' -> a ++ b = a' ++ b' -> a = a' /\ b = b'.
Proof. intros Hl Heq. by apply app_inj_1. Qed.

Lemma payload_meaning chain authorized maximum b v :
  decode_and_validate b chain authorized maximum = Ok v ->
  exists rest, payload_preimage b =
    str_bytes chain ++ str_bytes (meaning v).1.1 ++ (meaning v).1.2 ++ (meaning v).2 ++ rest.
Proof.
  unfold decode_and_validate, payload_preimage. destruct (decode b) as [env|e]; simpl; [|done].
  case_bool_decide as Hc; simpl; [subst chain|done].
  destruct (payload env) as [[x|x|x]|]; [..|done].
  - unfold verification_id_try_from. destruct (array_of _ _) as [id|] eqn:Eid; [|done].
    intros [= <-]. apply array_of_Some in Eid. exists []. simpl. rewrite app_nil_r. by rewrite <- Eid.
  - unfold query_id_of. destruct (array_of _ _) as [q|] eqn:Eq; simpl; [|done].
    unfold verification_id_try_from. destruct (array_of _ (query_verification_id x)) as [id|] eqn:Eid;
      simpl; [|done].
    intros [= <-]. apply array_of_Some in Eid, Eq. exists []. simpl. rewrite app_nil_r.
    by rewrite <- Eid, <- Eq.
  - destruct (_ <? _); [done|]. destruct (collect_providers _ _ _) as [u|]; simpl; [|done].
    unfold query_id_of. destruct (array_of _ _) as [q|] eqn:Eq; simpl; [|done].
    unfold verification_id_try_from. destruct (array_of _ (resp_verification_id x)) as [id|] eqn:Eid;
      simpl; [|done].
    intros [= <-]. apply array_of_Some in Eid, Eq.
    exists (concat (sort_bytes (provider_peer_ids x))). simpl. by rewrite <- Eid, <- Eq.
Qed.

Lemma meaning_unique v v' rest rest' :
  str_bytes (meaning v).1.1 ++ (meaning v).1.2 ++ (meaning v).2 ++ rest =
  str_bytes (meaning v').1.1 ++ (meaning v').1.2 ++ (meaning v').2 ++ rest' ->
  meaning v = meaning v'.
Proof.
  destruct v as [id|q id|q id ps], v' as [id'|q' id'|q' id' ps']; simpl; unfold as_bytes;
    try done.
  - intros [= Heq]. apply app_inj_length in Heq as [Heq _]; [|by rewrite !array_length].
    by rewrite Heq.
  - intros [= Heq]. apply app_inj_length in Heq as [Hq Heq]; [|by rewrite !array_length].
    apply app_inj_length in Heq as [Heq _]; [|by rewrite !array_length]. by rewrite Heq, Hq.
  - intros [= Heq]. apply app_inj_length in Heq as [Hq Heq]; [|by rewrite !array_length].
    apply app_inj_length in Heq as [Heq _]; [|by rewrite !array_length]. by rewrite Heq, Hq.
Qed.

(** Two gossip messages that validate on the same chain and come from peers whose
    identities have the same length share a message identifier only if they come from the same
    peer and say the same (kind, query, verification), or BLAKE3 collides. A message is never
    dropped as a duplicate of another peer's or of another verification's. *)
Theorem message_id_separates `{HexLaws, !Libp2pLaws} m m' p p' v v' chain authorized maximum :
  source m = Some p -> source m' = Some p' ->
  length (peer_to_bytes p) = length (peer_to_bytes p') ->
  decode_and_validate (data m) chain authorized maximum = Ok v ->
  decode_and_validate (data m') chain authorized maximum = Ok v' ->
  semantic_message_id m = semantic_message_id m' ->
  p = p' /\ meaning v = meaning v' \/
  message_preimage m <> message_preimage m' /\
    blake3 (message_preimage m) = blake3 (message_preimage m').
Proof.
  intros Hs Hs' Hl Hv Hv' Hid.
  destruct (decide (message_preimage m = message_preimage m')) as [Heq|Hne].
  - left. unfold message_preimage in Heq. rewrite Hs, Hs' in Heq. apply app_inv_head in Heq.
    apply app_inj_length in Heq as [Hp Heq]; [|done]. split.
    + apply (f_equal peer_from_bytes) in Hp. rewrite !peer_from_to_bytes in Hp. congruence.
    + apply payload_meaning in Hv as [rest Hv], Hv' as [rest' Hv']. rewrite Hv, Hv' in Heq.
      apply app_inv_head in Heq. by eapply meaning_unique.
  - right. split; [done|]. unfold semantic_message_id in Hid.
    apply (f_equal hex_decode) in Hid. rewrite !hex_decode_encode in Hid.
    apply array_ext. congruence.
Qed.
End message_id.

(** ** Witness *)

Definition sample_blake3 : Blake3 := sample_sha256.

Section witness.
#[local] Existing Instance sample_libp2p.
#[local] Existing Instance sample_libp2p_laws.
#[local] Existing Instance sample_hex.
#[local] Existing Instance sample_hex_laws.
#[local] Existing Instance sample_blake3.
#[local] Existing Instance sample_availability_message.

Definition sample_announcement : GossipMessage :=
  mkGossip (Byte.x01 : PeerId) (Some (Byte.x01 : PeerId)) (announcement "c" zero_array).

Lemma message_id_separates_witness :
  (Byte.x01 : PeerId) = Byte.x01 /\ meaning (VAnnouncement zero_array) = meaning (VAnnouncement zero_array) \/
  message_preimage sample_announcement <> message_preimage sample_announcement /\
  blake3 (message_preimage sample_announcement) = blake3 (message_preimage sample_announcement).
Proof.
  refine (message_id_separates sample_announcement sample_announcement (Byte.x01 : PeerId)
    (Byte.x01 : PeerId) _ _ "c" ∅ 128 eq_refl eq_refl eq_refl _ _ eq_refl); vm_refl.
Defined.
End witness.
