(* ===== verification/P2pDriver.v ===== *)
(** * The network driver (src/src/p2p/driver.rs)

    The driver owns the libp2p swarm, which is foreign: its identifiers are parameters, its
    answers come from a [SwarmWorld], and what the driver does to it is logged, as are the
    events it emits. Everything runs on one task, one input at a time. *)

From stdpp Require Import base gmap list strings pretty.
From S2P Require Import Prelude Types Wire ErrorText ProofId StoreRecord ConfigTypes P2pTypes.
From S2P Require Import P2pAvailability P2pBehaviour.

Definition MAX_PROVIDER_HINTS : Z := 128.

(** [gossipsub::PublishError], as far as the driver distinguishes it. *)
Inductive PublishError : Set :=
| NoPeersSubscribedToTopic
| PublishDuplicate
| PublishOther (message : string).

(** libp2p's tokens. *)
Class SwarmTypes := {
  ListenerId : Type;
  ListenerId_eq_dec :: EqDecision ListenerId;
  ListenerId_countable :: Countable ListenerId;
  OutboundRequestId : Type;
  OutboundRequestId_eq_dec :: EqDecision OutboundRequestId;
  OutboundRequestId_countable :: Countable OutboundRequestId;
  ResponseChannel : Type;
  publish_error_to_string : PublishError -> string
}.

Section driver.
Context `{Multiaddrs, SwarmTypes, Hex, Formatting, Sha256, ProstVarint}.
Context `{Message AvailabilityMessage, Message WireProof}.

Inductive DriverCommand : Type :=
| CmdAnnounce (id : VerificationId)
| CmdForgetLocalProof (id : VerificationId)
| CmdReplaceLocalProofs (ids : gset VerificationId)
| CmdQueryAvailability (id : VerificationId)
| CmdProviders (id : VerificationId)
| CmdRequestProof (peer : PeerId) (id : VerificationId)
| CmdRespondProof (request_id : InboundProofRequestId) (proof : option Proof_)
| CmdReplaceAuthorizedPeers (peers : gset PeerId)
| CmdDrain.

(** What is sent on a command's reply channel. *)
Inductive Reply : Type :=
| ReplyUnit (r : Result unit)
| ReplyQuery (r : Result QueryId)
| ReplyProviders (r : Result (list PeerId))
| ReplyRequest (r : Result ProofRequestId)
(** the channel is kept until the drain ends *)
| ReplyLater.

Inductive DriverState : Set := Running | Draining | Drained.

#[export] Instance DriverState_eq_dec : EqDecision DriverState.
Proof. solve_decision. Defined.

Record OutboundProofRequest : Type := mkOutbound {
  application_id : ProofRequestId;
  out_peer : PeerId;
  out_id : VerificationId
}.

Record InboundProofRequest : Type := mkInbound {
  in_peer : PeerId;
  in_id : VerificationId;
  channel : ResponseChannel
}.

Record Driver : Type := mkDriver {
  config : P2pConfig;
  local_peer : PeerId;
  authorized_peers : gset PeerId;
  availability : AvailabilityIndex;
  outstanding_queries : gmap QueryId (VerificationId * Instant);
  outbound_requests : gmap OutboundRequestId OutboundProofRequest;
  in_flight : gset (PeerId * VerificationId);
  inbound_requests : gmap InboundProofRequestId InboundProofRequest;
  next_proof_request_id : Z;
  next_inbound_request_id : Z;
  (** the bytes to publish when a delay has passed, which may be in any order *)
  delayed_responses : list bytes;
  pending_listeners : gset ListenerId;
  listeners : gset ListenerId;
  ready : bool;
  state : DriverState
}.

(** What the driver does to the swarm and to the channels it was given. *)
Inductive Action : Type :=
| ActPublish (data : bytes)
| ActSendRequest (peer : PeerId) (request : GetProofRequest)
| ActSendResponse (c : ResponseChannel) (response : GetProofResponse)
| ActReport (accepted : bool)
| ActAllow (peer : PeerId)
| ActDisallow (peer : PeerId)
| ActAddExplicit (peer : PeerId)
| ActRemoveExplicit (peer : PeerId)
| ActRemoveListener (l : ListenerId)
| ActReady (r : Result unit)
| ActDrainReply (r : Result unit).

Record SwarmWorld : Type := mkSwarmWorld {
  sw_now : nat -> Instant;
  sw_publish : nat -> result PublishError unit;
  sw_send_request : nat -> OutboundRequestId;
  sw_send_response : nat -> bool;
  sw_query_id : nat -> QueryId;
  sw_emit : nat -> bool
}.

Record DNet : Type := mkDNet {
  driver : Driver;
  dtick : nat;
  actions : list Action;
  emitted : list DriverEvent
}.

Abbreviation driverM := (stm DNet Error).

Context (world : SwarmWorld).

(** Effects: reading and updating the driver, an action with its answer, an emitted event
    (which tells whether the channel is open). *)
Definition get_driver : driverM Driver := fun n => (Ok (driver n), n).
Definition update (f : Driver -> Driver) : driverM unit :=
  modify (fun n => mkDNet (f (driver n)) (dtick n) (actions n) (emitted n)).
Definition act {A} (a : Action) (answer : nat -> A) : driverM A := fun n =>
  (Ok (answer (dtick n)), mkDNet (driver n) (S (dtick n)) (actions n ++ [a]) (emitted n)).
Definition act_ (a : Action) : driverM unit := act a (fun _ => tt).
Definition ask {A} (answer : nat -> A) : driverM A := fun n =>
  (Ok (answer (dtick n)), mkDNet (driver n) (S (dtick n)) (actions n) (emitted n)).
Definition emit (e : DriverEvent) : driverM bool := fun n =>
  (Ok (sw_emit world (dtick n)),
    mkDNet (driver n) (S (dtick n)) (actions n) (emitted n ++ [e])).
(** The result of a method, as a value. *)
Definition reified {A} (m : driverM A) : driverM (Result A) := fun n =>
  let (r, n') := m n in (Ok r, n').

(** Field updates. *)
Definition set_authorized (x : gset PeerId) (d : Driver) : Driver :=
  mkDriver (config d) (local_peer d) x (availability d) (outstanding_queries d)
    (outbound_requests d) (in_flight d) (inbound_requests d) (next_proof_request_id d)
    (next_inbound_request_id d) (delayed_responses d) (pending_listeners d) (listeners d) (ready d)
    (state d).
Definition set_availability (x : AvailabilityIndex) (d : Driver) : Driver :=
  mkDriver (config d) (local_peer d) (authorized_peers d) x (outstanding_queries d)
    (outbound_requests d) (in_flight d) (inbound_requests d) (next_proof_request_id d)
    (next_inbound_request_id d) (delayed_responses d) (pending_listeners d) (listeners d) (ready d)
    (state d).
Definition set_queries (x : gmap QueryId (VerificationId * Instant)) (d : Driver) : Driver :=
  mkDriver (config d) (local_peer d) (authorized_peers d) (availability d) x
    (outbound_requests d) (in_flight d) (inbound_requests d) (next_proof_request_id d)
    (next_inbound_request_id d) (delayed_responses d) (pending_listeners d) (listeners d) (ready d)
    (state d).
Definition set_outbound (x : gmap OutboundRequestId OutboundProofRequest)
  (y : gset (PeerId * VerificationId)) (next : Z) (d : Driver) : Driver :=
  mkDriver (config d) (local_peer d) (authorized_peers d) (availability d) (outstanding_queries d)
    x y (inbound_requests d) next (next_inbound_request_id d) (delayed_responses d)
    (pending_listeners d) (listeners d) (ready d) (state d).
Definition set_inbound (x : gmap InboundProofRequestId InboundProofRequest) (next : Z) (d : Driver)
  : Driver :=
  mkDriver (config d) (local_peer d) (authorized_peers d) (availability d) (outstanding_queries d)
    (outbound_requests d) (in_flight d) x (next_proof_request_id d) next (delayed_responses d)
    (pending_listeners d) (listeners d) (ready d) (state d).
Definition set_delayed (x : list bytes) (d : Driver) : Driver :=
  mkDriver (config d) (local_peer d) (authorized_peers d) (availability d) (outstanding_queries d)
    (outbound_requests d) (in_flight d) (inbound_requests d) (next_proof_request_id d)
    (next_inbound_request_id d) x (pending_listeners d) (listeners d) (ready d) (state d).
Definition set_listeners (pending all : gset ListenerId) (r : bool) (d : Driver) : Driver :=
  mkDriver (config d) (local_peer d) (authorized_peers d) (availability d) (outstanding_queries d)
    (outbound_requests d) (in_flight d) (inbound_requests d) (next_proof_request_id d)
    (next_inbound_request_id d) (delayed_responses d) pending all r (state d).
Definition set_state (x : DriverState) (d : Driver) : Driver :=
  mkDriver (config d) (local_peer d) (authorized_peers d) (availability d) (outstanding_queries d)
    (outbound_requests d) (in_flight d) (inbound_requests d) (next_proof_request_id d)
    (next_inbound_request_id d) (delayed_responses d) (pending_listeners d) (listeners d) (ready d) x.

Definition is_running (d : Driver) : bool := match state d with Running => true | _ => false end.

Definition require_running : driverM unit :=
  d ← get_driver; if is_running d then mret tt else throw P2pDraining.

Definition announce (id : VerificationId) : driverM unit :=
  d ← get_driver;
  _ ← update (fun d => set_availability (index_add id (local_peer d) (availability d)) d);
  if negb (is_running d) then mret tt
  else
    let data := announcement (p2p_chain_id (config d)) id in
    published ← act (ActPublish data) (sw_publish world);
    match published with
    | Ok _ | Err NoPeersSubscribedToTopic | Err PublishDuplicate => mret tt
    | Err error => throw (P2pDriver ("failed to publish announcement: "
        +:+ publish_error_to_string error))
    end.

Definition query_availability (id : VerificationId) : driverM QueryId :=
  _ ← require_running;
  qid ← ask (sw_query_id world);
  d ← get_driver;
  let data := availability_query (p2p_chain_id (config d)) qid id in
  published ← act (ActPublish data) (sw_publish world);
  match published with
  | Ok _ | Err NoPeersSubscribedToTopic =>
      now ← ask (sw_now world);
      _ ← update (fun d => set_queries (<[qid := (id, now)]> (outstanding_queries d)) d);
      mret qid
  | Err error => throw (P2pDriver ("failed to publish query: " +:+ publish_error_to_string error))
  end.

Definition request_proof (peer : PeerId) (id : VerificationId) : driverM ProofRequestId :=
  _ ← require_running;
  d ← get_driver;
  if negb (bool_decide (peer ∈ authorized_peers d)) then
    throw (P2pAuthorization ("refusing proof request to unauthorized peer " +:+ peer_to_string peer))
  else if bool_decide ((peer, id) ∈ in_flight d) then
    throw (P2pDriver ("proof request to " +:+ peer_to_string peer +:+ " is already in flight"))
  else
    let app := mkProofRequestId (next_proof_request_id d) in
    request_id ← act (ActSendRequest peer
      (mkGetProofRequest (p2p_chain_id (config d)) (as_bytes id))) (sw_send_request world);
    _ ← update (fun d => set_outbound (<[request_id := mkOutbound app peer id]> (outbound_requests d))
      ({[(peer, id)]} ∪ in_flight d) (next_proof_request_id d + 1) d);
    mret app.

Definition not_found_response (chain_id : string) : GetProofResponse :=
  mkGetProofResponse chain_id (Some ResultNotFound).

(** The result [respond_proof] puts in a response to a request for [id]. *)
Definition response_result (max_proof_bytes : Z) (id : VerificationId) (proof : option Proof_)
  : Result GetProofResult :=
  match proof with
  | Some p =>
      if max_proof_bytes <? proof_encoded_len p then
        Err (P2pProtocol "proof exceeds configured limit")
      else if negb (bool_decide (verification_id p = id)) then
        Err (P2pProtocol "proof response does not match inbound request")
      else Ok (ResultProof (wire_of_proof p))
  | None => Ok ResultNotFound
  end.

Definition respond_proof (request_id : InboundProofRequestId) (proof : option Proof_)
  : driverM unit :=
  d ← get_driver;
  match inbound_requests d !! request_id with
  | None => throw (P2pDriver ("unknown inbound proof request InboundProofRequestId("
      +:+ pretty (inbound_number request_id) +:+ ")"))
  | Some inbound =>
      _ ← update (fun d => set_inbound (delete request_id (inbound_requests d))
        (next_inbound_request_id d) d);
      result ← lift (response_result (p2p_max_proof_bytes (config d)) (in_id inbound) proof);
      sent ← act (ActSendResponse (channel inbound)
        (mkGetProofResponse (p2p_chain_id (config d)) (Some result))) (sw_send_response world);
      if (sent : bool) then mret tt
      else throw (P2pDriver ("failed to respond to " +:+ peer_to_string (in_peer inbound)))
  end.

Definition replace_authorized_peers (peers : gset PeerId) : driverM unit :=
  d ← get_driver;
  let peers := peers ∖ {[local_peer d]} in
  _ ← for_each (fun removed =>
        _ ← act_ (ActDisallow removed);
        _ ← act_ (ActRemoveExplicit removed);
        update (fun d => set_availability (remove_peer removed (availability d)) d))
      (elements (authorized_peers d ∖ peers));
  _ ← for_each (fun added => _ ← act_ (ActAllow added); act_ (ActAddExplicit added))
      (elements (peers ∖ authorized_peers d));
  update (set_authorized peers).

Definition begin_drain : driverM unit :=
  d ← get_driver;
  _ ← for_each (fun l => act_ (ActRemoveListener l)) (elements (listeners d));
  update (fun d => set_state Draining (set_queries ∅
    (set_listeners (pending_listeners d ∖ listeners d) ∅ (ready d) d))).

Definition finish_drain : driverM unit :=
  d ← get_driver;
  if negb (bool_decide (state d = Draining)) || negb (bool_decide (inbound_requests d = ∅))
    || negb (bool_decide (outbound_requests d = ∅)) || negb (bool_decide (in_flight d = ∅))
    || negb (bool_decide (delayed_responses d = []))
  then mret tt
  else _ ← update (set_state Drained); act_ (ActDrainReply (Ok tt)).

Definition handle_command (command : DriverCommand) : driverM Reply :=
  match command with
  | CmdAnnounce id => r ← reified (announce id); mret (ReplyUnit r)
  | CmdForgetLocalProof id =>
      _ ← update (fun d => set_availability (remove_provider id (local_peer d) (availability d)) d);
      mret (ReplyUnit (Ok tt))
  | CmdReplaceLocalProofs ids =>
      _ ← update (fun d =>
        set_availability (replace_provider_proofs (local_peer d) ids (availability d)) d);
      mret (ReplyUnit (Ok tt))
  | CmdQueryAvailability id => r ← reified (query_availability id); mret (ReplyQuery r)
  | CmdProviders id => d ← get_driver; mret (ReplyProviders (Ok (index_providers id (availability d))))
  | CmdRequestProof peer id => r ← reified (request_proof peer id); mret (ReplyRequest r)
  | CmdRespondProof request_id proof => r ← reified (respond_proof request_id proof); mret (ReplyUnit r)
  | CmdReplaceAuthorizedPeers peers =>
      d ← get_driver;
      if is_running d
      then _ ← replace_authorized_peers peers; mret (ReplyUnit (Ok tt))
      else mret (ReplyUnit (Err P2pDraining))
  | CmdDrain =>
      d ← get_driver;
      match state d with
      | Running => _ ← begin_drain; mret ReplyLater
      | Draining => mret (ReplyUnit (Err P2pDraining))
      | Drained => mret (ReplyUnit (Ok tt))
      end
  end.

(** ** Swarm events *)

Definition validate_gossip (d : Driver) (m : GossipMessage) : Result (PeerId * ValidatedAvailability) :=
  match source m with
  | Some peer =>
      if bool_decide (peer ∈ authorized_peers d) && bool_decide (propagation_source m ∈ authorized_peers d)
      then payload ← decode_and_validate (data m) (p2p_chain_id (config d)) (authorized_peers d)
             MAX_PROVIDER_HINTS;
           Ok (peer, payload)
      else Err (P2pProtocol "unauthorized gossip source")
  | None => Err (P2pProtocol "unauthorized gossip source")
  end.

Definition handle_gossip (m : GossipMessage) : driverM unit :=
  d ← get_driver;
  let validated := validate_gossip d m in
  _ ← act_ (ActReport (is_ok validated));
  match validated with
  | Err _ => mret tt
  | Ok (peer, payload) =>
      if negb (is_running d) then mret tt
      else match payload with
      | VAnnouncement id =>
          _ ← update (fun d => set_availability (index_add id peer (availability d)) d);
          _ ← emit (AvailabilityAnnounced peer id);
          mret tt
      | VQuery qid id =>
          let providers := index_providers id (availability d) in
          if bool_decide (providers = []) then mret tt
          else
            let data := availability_response (p2p_chain_id (config d)) qid id
              (take (Z.to_nat (Z.min (len providers) MAX_PROVIDER_HINTS)) providers) in
            update (fun d => set_delayed (delayed_responses d ++ [data]) d)
      | VResponse qid id providers =>
          _ ← update (fun d => set_availability
            (foldl (fun index provider => index_add id provider index) (availability d) providers) d);
          match outstanding_queries d !! qid with
          | Some (expected, _) =>
              if bool_decide (expected = id)
              then _ ← emit (ProvidersDiscovered qid id providers); mret tt
              else mret tt
          | None => mret tt
          end
      end
  end.

Definition emit_failed (request : OutboundProofRequest) (reason : string) : driverM unit :=
  _ ← update (fun d => set_availability
    (remove_provider (out_id request) (out_peer request) (availability d)) d);
  _ ← emit (ProofRequestFailed (application_id request) (out_peer request) (out_id request) reason);
  mret tt.

Definition driver_validate_proof (wire : WireProof) (expected_id : VerificationId) (maximum : Z)
  : Result Proof_ :=
  if maximum <? encoded_len wire then
    Err (P2pProtocol "proof response exceeds configured limit")
  else
    p ← map_err (fun error => P2pProtocol ("invalid proof response: " +:+ error_to_string error))
           (proof_try_from wire);
    if negb (bool_decide (verification_id p = expected_id)) then
      Err (P2pProtocol "proof response failed verification ID binding")
    else Ok p.

(** The entry of a finished outbound request leaves both tables. *)
Definition take_outbound (request_id : OutboundRequestId) : driverM (option OutboundProofRequest) :=
  d ← get_driver;
  match outbound_requests d !! request_id with
  | None => mret None
  | Some request =>
      _ ← update (fun d => set_outbound (delete request_id (outbound_requests d))
        (in_flight d ∖ {[(out_peer request, out_id request)]}) (next_proof_request_id d) d);
      mret (Some request)
  end.

Definition handle_outbound_response (peer : PeerId) (request_id : OutboundRequestId)
  (response : GetProofResponse) : driverM unit :=
  found ← take_outbound request_id;
  match found with
  | None => mret tt
  | Some request =>
      d ← get_driver;
      if negb (bool_decide (peer = out_peer request))
        || negb (bool_decide (gps_chain_id response = p2p_chain_id (config d)))
      then emit_failed request "proof response context mismatch"
      else match gps_result response with
      | Some (ResultProof wire) =>
          match driver_validate_proof wire (out_id request) (p2p_max_proof_bytes (config d)) with
          | Ok p =>
              _ ← update (fun d => set_availability (index_add (out_id request) peer (availability d)) d);
              _ ← emit (ProofReceived (application_id request) peer (out_id request) p);
              mret tt
          | Err error => emit_failed request (error_to_string error)
          end
      | Some ResultNotFound =>
          _ ← update (fun d => set_availability (remove_provider (out_id request) peer (availability d)) d);
          _ ← emit (ProofNotFound (application_id request) peer (out_id request));
          mret tt
      | None => emit_failed request "proof response has no result"
      end
  end.

Definition handle_outbound_failure (peer : PeerId) (request_id : OutboundRequestId) (error : string)
  : driverM unit :=
  found ← take_outbound request_id;
  match found with
  | None => mret tt
  | Some request =>
      _ ← update (fun d => set_availability
        (remove_provider (out_id request) (out_peer request) (availability d)) d);
      _ ← emit (ProofRequestFailed (application_id request) peer (out_id request) error);
      mret tt
  end.

Definition handle_inbound_request (peer : PeerId) (request : GetProofRequest) (c : ResponseChannel)
  : driverM unit :=
  d ← get_driver;
  let refuse := _ ← act (ActSendResponse c (not_found_response (p2p_chain_id (config d))))
                     (sw_send_response world); mret tt in
  if negb (is_running d) then refuse
  else
    let id := if bool_decide (peer ∈ authorized_peers d)
                && bool_decide (gpr_chain_id request = p2p_chain_id (config d))
              then ok (verification_id_try_from (gpr_verification_id request)) else None in
    match id with
    | None => refuse
    | Some id =>
        let request_id := mkInboundId (next_inbound_request_id d) in
        _ ← update (fun d => set_inbound (<[request_id := mkInbound peer id c]> (inbound_requests d))
          (next_inbound_request_id d + 1) d);
        open ← emit (ProofRequested request_id peer id);
        if (open : bool) then mret tt
        else _ ← reified (respond_proof request_id None); mret tt
    end.

Inductive ExchangeEvent : Type :=
| ExRequest (peer : PeerId) (request : GetProofRequest) (c : ResponseChannel)
| ExResponse (peer : PeerId) (request_id : OutboundRequestId) (response : GetProofResponse)
| ExOutboundFailure (peer : PeerId) (request_id : OutboundRequestId) (error : string)
| ExInboundFailure (peer : PeerId)
| ExResponseSent.

Definition handle_exchange (event : ExchangeEvent) : driverM unit :=
  match event with
  | ExRequest peer request c => handle_inbound_request peer request c
  | ExResponse peer request_id response => handle_outbound_response peer request_id response
  | ExOutboundFailure peer request_id error => handle_outbound_failure peer request_id error
  | ExInboundFailure _ | ExResponseSent => mret tt
  end.

Inductive SwarmEvent : Type :=
| NewListenAddr (l : ListenerId) (address : string)
| ListenerError (l : ListenerId) (error : string)
| ConnectionEstablished (peer : PeerId)
| ConnectionClosed (peer : PeerId) (num_established : Z)
| Gossip (m : GossipMessage)
| ProofExchange (event : ExchangeEvent)
(** identify, ping and every other event *)
| OtherEvent.

Definition handle_swarm_event (event : SwarmEvent) : driverM unit :=
  match event with
  | NewListenAddr l address =>
      _ ← update (fun d => set_listeners (pending_listeners d ∖ {[l]}) ({[l]} ∪ listeners d) (ready d) d);
      d ← get_driver;
      _ ← (if is_running d then emit (Listening address) else mret true);
      if bool_decide (pending_listeners d = ∅) && ready d
      then _ ← update (fun d => set_listeners (pending_listeners d) (listeners d) false d);
           act_ (ActReady (Ok tt))
      else mret tt
  | ListenerError l error =>
      d ← get_driver;
      _ ← update (fun d => set_listeners (pending_listeners d ∖ {[l]}) (listeners d ∖ {[l]}) false d);
      _ ← (if ready d
           then act_ (ActReady (Err (P2pDriver ("listener failed during startup: " +:+ error))))
           else mret tt);
      if is_running d then throw (P2pDriver ("listener failed: " +:+ error)) else mret tt
  | ConnectionEstablished peer =>
      d ← get_driver;
      if is_running d then _ ← emit (PeerConnected peer); mret tt else mret tt
  | ConnectionClosed peer num_established =>
      if num_established =? 0
      then
        d ← get_driver;
        _ ← update (fun d => set_availability (remove_peer peer (availability d)) d);
        if is_running d then _ ← emit (PeerDisconnected peer); mret tt else mret tt
      else mret tt
  | Gossip m => handle_gossip m
  | ProofExchange event => handle_exchange event
  | OtherEvent => mret tt
  end.

Definition expire_queries : driverM unit :=
  now ← ask (sw_now world);
  update (fun d => set_queries
    (filter (fun '(_, (_, created)) => saturating_sub now created < proof_request_timeout (config d))
      (outstanding_queries d)) d).

(** ** The loop *)

Inductive Input : Type :=
| InCommand (c : DriverCommand)
| InSwarm (e : SwarmEvent)
(** the delay of the i-th response has passed *)
| InDelayed (i : nat)
| InTick
(** every client is gone *)
| InClosed.

(** The branches of the [select!]; [true] when the driver should stop. *)
Definition handle_input (i : Input) : driverM bool :=
  match i with
  | InCommand c => _ ← handle_command c; mret false
  | InSwarm e => _ ← handle_swarm_event e; mret false
  | InDelayed i =>
      d ← get_driver;
      match delayed_responses d !! i with
      | Some response =>
          _ ← update (fun d => set_delayed (delete i (delayed_responses d)) d);
          _ ← act (ActPublish response) (sw_publish world); mret false
      | None => mret false
      end
  | InTick => _ ← expire_queries; mret false
  | InClosed =>
      d ← get_driver;
      if bool_decide (state d = Drained) then mret true else throw P2pDriverClosed
  end.

(** One round of the loop of [run]. *)
Definition turn (i : Input) : driverM bool :=
  should_stop ← handle_input i;
  _ ← finish_drain;
  mret should_stop.

(** [run], over the inputs that arrive; [false] if it is still running after them. *)
Fixpoint run (inputs : list Input) : driverM bool :=
  match inputs with
  | [] => mret false
  | i :: inputs' => should_stop ← turn i; if (should_stop : bool) then mret true else run inputs'
  end.

(** ** Building *)

Definition split_peer_address (address : Multiaddr) : Result (PeerId * Multiaddr) :=
  match multiaddr_pop address with
  | (Some (P2p peer), address) => Ok (peer, address)
  | _ => Err (InvalidConfig "bootnode multiaddr must end with /p2p/<peer-id>")
  end.

(** The swarm's answers while it is built. *)
Record BuildWorld : Type := mkBuildWorld {
  bd_behaviour : BehaviourWorld;
  bd_tcp : result string unit;
  bd_dns : result string unit;
  bd_with_behaviour : result string unit;
  bd_listen : nat -> result string ListenerId;
  bd_dial : PeerId -> list Multiaddr -> result string unit
}.

(** The loop over the listen addresses, the i-th of which comes first. *)
Fixpoint listen_all (w : BuildWorld) (i : nat) (addresses : list Multiaddr) (opened : gset ListenerId)
  : Result (gset ListenerId) :=
  match addresses with
  | [] => Ok opened
  | address :: rest =>
      id ← map_err (fun e => P2pDriver ("failed to listen on " +:+ multiaddr_to_string address
             +:+ ": " +:+ e)) (bd_listen w i);
      listen_all w (S i) rest ({[id]} ∪ opened)
  end.

(** The loop over the bootnodes: the addresses of each peer, in order. *)
Fixpoint group_bootnodes (authorized : gset PeerId) (l : list Multiaddr)
  (known : gmap PeerId (list Multiaddr)) : Result (gmap PeerId (list Multiaddr)) :=
  match l with
  | [] => Ok known
  | bootnode :: rest =>
      '(peer, address) ← split_peer_address bootnode;
      if negb (bool_decide (peer ∈ authorized)) then
        Err (P2pAuthorization ("bootnode " +:+ peer_to_string peer
          +:+ " is not in the active validator set"))
      else group_bootnodes authorized rest
        (<[peer := default [] (known !! peer) ++ [address]]> known)
  end.

(** Every bootnode is dialled once, in the order of the map. *)
Fixpoint dial_all (w : BuildWorld) (l : list (PeerId * list Multiaddr)) : Result unit :=
  match l with
  | [] => Ok tt
  | (peer, addresses) :: rest =>
      _ ← map_err (fun e => P2pDriver ("failed to dial bootnode " +:+ peer_to_string peer
            +:+ ": " +:+ e)) (bd_dial w peer addresses);
      dial_all w rest
  end.

(** [Driver::build]: the driver with the behaviour it configured and the bootnodes it dialled. *)
Definition Driver_build (w : BuildWorld) (config : P2pConfig) (local : PeerId)
  (authorized : gset PeerId) : Result (Driver * PulsarBehaviour * gmap PeerId (list Multiaddr)) :=
  let authorized := authorized ∖ {[local]} in
  '(behaviour, _) ← behaviour_build (bd_behaviour w) config authorized;
  _ ← map_err (fun e => P2pDriver ("failed to build TCP transport: " +:+ e)) (bd_tcp w);
  _ ← map_err (fun e => P2pDriver ("failed to build DNS transport: " +:+ e)) (bd_dns w);
  _ ← map_err (fun e => P2pDriver ("failed to build behaviour: " +:+ e)) (bd_with_behaviour w);
  opened ← listen_all w 0 (listen_addresses config) ∅;
  bootnodes ← group_bootnodes authorized (bootnodes config) ∅;
  _ ← dial_all w (map_to_list bootnodes);
  Ok (mkDriver config local authorized ∅ ∅ ∅ ∅ ∅ 1 1 [] opened opened true Running, behaviour,
      bootnodes).
End driver.
