(* ===== verification/P2pDriverProps.v ===== *)
(** * The network driver: exchange accounting, answers, authorization, drain *)

From stdpp Require Import base gmap list strings fin_maps sorting.
From S2P Require Import Prelude Types Wire Samples ErrorText ProofId StoreRecord ConfigTypes.
From S2P Require Import P2pTypes P2pAvailability P2pBehaviour P2pDriver.

Section props.
Context `{Multiaddrs, SwarmTypes, Hex, Formatting, Sha256, ProstVarint}.
Context `{Message AvailabilityMessage, Message WireProof} (world : SwarmWorld).

(** ** Views of the logs *)

(** The proof request an event ends, its identifier, and the proof it brings. *)
Definition terminal (e : DriverEvent) : option (ProofRequestId * bytes * option Proof_) :=
  match e with
  | ProofReceived rid _ id p => Some (rid, as_bytes id, Some p)
  | ProofNotFound rid _ id | ProofRequestFailed rid _ id _ => Some (rid, as_bytes id, None)
  | _ => None
  end.
Definition ended (n : DNet) : list (ProofRequestId * bytes * option Proof_) :=
  omap terminal (emitted n).

(** The requests sent, the responses sent, the answers to drain commands. *)
Definition sent_request (a : Action) : option bytes :=
  match a with ActSendRequest _ r => Some (gpr_verification_id r) | _ => None end.
Definition answered (a : Action) : option (ResponseChannel * GetProofResponse) :=
  match a with ActSendResponse c r => Some (c, r) | _ => None end.
Definition drain_reply (a : Action) : option (Result unit) :=
  match a with ActDrainReply r => Some r | _ => None end.

(** Requests are numbered from 1 in the order they are sent. *)
Definition issued (l : list Action) : list (ProofRequestId * bytes) :=
  imap (fun i b => (mkProofRequestId (Z.of_nat i + 1), b)) (omap sent_request l).

Definition outstanding (d : Driver) : list (ProofRequestId * bytes) :=
  (fun x => (application_id x.2, as_bytes (out_id x.2))) <$> map_to_list (outbound_requests d).

Definition waiting (d : Driver) : list ResponseChannel :=
  (fun x => channel x.2) <$> map_to_list (inbound_requests d).

(** A request that arrived: from whom, what, and the channel to answer on. *)
Abbreviation Arrival := (PeerId * GetProofRequest * ResponseChannel)%type.

Definition arrival (i : Input) : option Arrival :=
  match i with InSwarm (ProofExchange (ExRequest peer r c)) => Some (peer, r, c) | _ => None end.

(** ** Invariants *)

Record exchange_inv (cfg : P2pConfig) (n : DNet) : Prop := {
  ex_config : config (driver n) = cfg;
  ex_account : (fst <$> ended n) ++ outstanding (driver n) ≡ₚ issued (actions n);
  ex_next : next_proof_request_id (driver n) = len (omap sent_request (actions n)) + 1;
  ex_flight : forall peer id, (peer, id) ∈ in_flight (driver n) <->
    exists k r, outbound_requests (driver n) !! k = Some r /\ out_peer r = peer /\ out_id r = id;
  ex_distinct : forall k k' r r', outbound_requests (driver n) !! k = Some r ->
    outbound_requests (driver n) !! k' = Some r' ->
    out_peer r = out_peer r' -> out_id r = out_id r' -> k = k';
  ex_fresh : forall k, is_Some (outbound_requests (driver n) !! k) ->
    exists t, (t < dtick n)%nat /\ sw_send_request world t = k;
  ex_proofs : forall rid id p, (rid, id, Some p) ∈ ended n ->
    as_bytes (verification_id p) = id /\ encoded_len (wire_of_proof p) <= p2p_max_proof_bytes cfg
}.

(** A response is for a request that arrived; a proof in it is the one asked for. *)
Definition answer_ok (cfg : P2pConfig) (rcv : list Arrival) (c : ResponseChannel)
  (r : GetProofResponse) : Prop :=
  gps_chain_id r = p2p_chain_id cfg /\
  match gps_result r with
  | Some (ResultProof w) => exists peer q p, (peer, q, c) ∈ rcv /\ w = wire_of_proof p /\
      gpr_chain_id q = p2p_chain_id cfg /\ gpr_verification_id q = as_bytes (verification_id p) /\
      proof_encoded_len p <= p2p_max_proof_bytes cfg
  | Some ResultNotFound => exists peer q, (peer, q, c) ∈ rcv
  | None => False
  end.

Record inbound_inv (cfg : P2pConfig) (rcv : list Arrival) (n : DNet) : Prop := {
  inb_config : config (driver n) = cfg;
  inb_once : (fst <$> omap answered (actions n)) ++ waiting (driver n) ⊆+ (fun x => x.2) <$> rcv;
  inb_next : forall k, next_inbound_request_id (driver n) <= inbound_number k ->
    inbound_requests (driver n) !! k = None;
  inb_known : forall k x, inbound_requests (driver n) !! k = Some x -> exists q,
    (in_peer x, q, channel x) ∈ rcv /\ gpr_chain_id q = p2p_chain_id cfg /\
    gpr_verification_id q = as_bytes (in_id x);
  inb_answers : forall c r, (c, r) ∈ omap answered (actions n) -> answer_ok cfg rcv c r
}.

(** Nothing is left to wait for. *)
Definition settled (d : Driver) : Prop :=
  inbound_requests d = ∅ /\ outbound_requests d = ∅ /\ in_flight d = ∅ /\ delayed_responses d = [].

Definition drain_inv (n : DNet) : Prop :=
  match state (driver n) with
  | Running => omap drain_reply (actions n) = []
  | Draining => outstanding_queries (driver n) = ∅ /\ omap drain_reply (actions n) = []
  | Drained => outstanding_queries (driver n) = ∅ /\ settled (driver n) /\
      omap drain_reply (actions n) = [Ok tt]
  end.

Definition driver_inv (cfg : P2pConfig) (rcv : list Arrival) (n : DNet) : Prop :=
  exchange_inv cfg n /\ inbound_inv cfg rcv n /\ drain_inv n.

(** ** Effects *)

(** [m] ends, in either way, in a state that satisfies [Q]. *)
Abbreviation ends m Q := (wp m (fun _ => Q) (fun _ => Q)).

Lemma wp_get_driver (Q : Driver -> DNet -> Prop) X n : Q (driver n) n -> wp get_driver Q X n.
Proof. done. Qed.
Lemma wp_update f (Q : unit -> DNet -> Prop) X n :
  Q tt (mkDNet (f (driver n)) (dtick n) (actions n) (emitted n)) -> wp (update f) Q X n.
Proof. done. Qed.
Lemma wp_act {A} a (answer : nat -> A) (Q : A -> DNet -> Prop) X n :
  Q (answer (dtick n)) (mkDNet (driver n) (S (dtick n)) (actions n ++ [a]) (emitted n)) ->
  wp (act a answer) Q X n.
Proof. done. Qed.
Lemma wp_ask {A} (answer : nat -> A) (Q : A -> DNet -> Prop) X n :
  Q (answer (dtick n)) (mkDNet (driver n) (S (dtick n)) (actions n) (emitted n)) ->
  wp (ask answer) Q X n.
Proof. done. Qed.
Lemma wp_emit e (Q : bool -> DNet -> Prop) X n :
  Q (sw_emit world (dtick n)) (mkDNet (driver n) (S (dtick n)) (actions n) (emitted n ++ [e])) ->
  wp (emit world e) Q X n.
Proof. done. Qed.
Lemma wp_reified {A} (m : stm DNet Error A) (Q : Result A -> DNet -> Prop) X n :
  wp m (fun t => Q (Ok t)) (fun e => Q (Err e)) n -> wp (reified m) Q X n.
Proof. unfold wp, reified. by destruct (m n) as [[]]. Qed.
Lemma wp_ends {A} (m : stm DNet Error A) (Q : DNet -> Prop) (Q' : A -> DNet -> Prop) X n :
  ends m Q n -> (forall a s, Q s -> Q' a s) -> (forall e s, Q s -> X e s) -> wp m Q' X n.
Proof. unfold wp. destruct (m n) as [[]]; eauto. Qed.
Lemma wp_weaken {A} (m : stm DNet Error A) (Q Q' : A -> DNet -> Prop) (X X' : Error -> DNet -> Prop)
  n : wp m Q X n -> (forall a s, Q a s -> Q' a s) -> (forall e s, X e s -> X' e s) -> wp m Q' X' n.
Proof. unfold wp. destruct (m n) as [[]]; eauto. Qed.
Lemma wp_lift {A} (r : Result A) (Q : A -> DNet -> Prop) X n :
  match r with Ok a => Q a n | Err e => X e n end -> wp (lift r) Q X n.
Proof. by destruct r. Qed.

(** A step that leaves the exchanges and the drain as they are. *)
Record quiet (n n' : DNet) : Prop := {
  q_config : config (driver n') = config (driver n);
  q_outbound : outbound_requests (driver n') = outbound_requests (driver n);
  q_flight : in_flight (driver n') = in_flight (driver n);
  q_next : next_proof_request_id (driver n') = next_proof_request_id (driver n);
  q_inbound : inbound_requests (driver n') = inbound_requests (driver n);
  q_next_in : next_inbound_request_id (driver n') = next_inbound_request_id (driver n);
  q_state : state (driver n') = state (driver n);
  q_queries : state (driver n) <> Running -> outstanding_queries (driver n) = ∅ ->
    outstanding_queries (driver n') = ∅;
  q_delayed : state (driver n) <> Running ->
    (length (delayed_responses (driver n')) <= length (delayed_responses (driver n)))%nat;
  q_tick : (dtick n <= dtick n')%nat;
  q_ended : ended n' = ended n;
  q_sent : omap sent_request (actions n') = omap sent_request (actions n);
  q_answered : omap answered (actions n') = omap answered (actions n);
  q_drained : omap drain_reply (actions n') = omap drain_reply (actions n)
}.

#[export] Instance quiet_preorder : PreOrder quiet.
Proof.
  split; [by constructor|]. intros n1 n2 n3 [] []. constructor; try congruence; try lia.
  - intros Hs Hq. auto with congruence.
  - intros Hs. transitivity (length (delayed_responses (driver n2))); [|by auto].
    apply q_delayed1. congruence.
Qed.

Lemma quiet_inv cfg rcv n n' : quiet n n' -> driver_inv cfg rcv n -> driver_inv cfg rcv n'.
Proof.
  intros Q (E & I & D). destruct Q. split_and!.
  - destruct E. constructor; unfold outstanding, issued in *;
      rewrite ?q_config0, ?q_outbound0, ?q_flight0, ?q_next0, ?q_ended0, ?q_sent0; try done.
    intros k Hk. destruct (ex_fresh0 k Hk) as (t & ? & ?). exists t. split; [lia|done].
  - destruct I. constructor; unfold waiting in *;
      rewrite ?q_config0, ?q_inbound0, ?q_next_in0, ?q_answered0; done.
  - unfold drain_inv, settled in *. rewrite q_state0, q_inbound0, q_outbound0, q_flight0, q_drained0.
    destruct (state (driver n)); [done|..].
    + destruct D. split; [|done]. by apply q_queries0.
    + destruct D as (? & (? & ? & ? & Hd) & ?). split_and!; try done; [by apply q_queries0|].
      specialize (q_delayed0 ltac:(done)). rewrite Hd in q_delayed0.
      by apply length_zero_iff_nil, Nat.le_0_r.
Qed.
End props.


#[export] Hint Resolve wp_get_driver wp_update wp_act wp_ask wp_emit wp_reified wp_lift : stm.

(** One step of the symbolic execution of a driver program. *)
Ltac dstep :=
  lazymatch goal with
  | |- wp (_ ≫= _) _ _ _ => apply wp_bind
  | |- wp (mret _) _ _ _ => apply wp_ret
  | |- wp (throw _) _ _ _ => apply wp_throw
  | |- wp get_driver _ _ _ => apply wp_get_driver
  | |- wp (update _) _ _ _ => apply wp_update
  | |- wp (act_ _) _ _ _ => apply wp_act
  | |- wp (act _ _) _ _ _ => apply wp_act
  | |- wp (ask _) _ _ _ => apply wp_ask
  | |- wp (emit _ _) _ _ _ => apply wp_emit
  | |- wp (reified _) _ _ _ => apply wp_reified
  | |- wp (lift _) _ _ _ => apply wp_lift
  | |- wp (if ?b then _ else _) _ _ _ => destruct b eqn:?
  | |- wp (match ?x with _ => _ end) _ _ _ => destruct x eqn:?
  end.

Ltac quiet_tac :=
  constructor; unfold ended; simpl; rewrite ?omap_app; simpl; rewrite ?app_nil_r; try done; try lia.

(** Symbolic execution to the ends of a program whose effects are quiet. *)
Ltac quiet_exec := repeat (dstep; simpl); try quiet_tac.

Section operations.
Context `{Multiaddrs, SwarmTypes, Hex, Formatting, Sha256, ProstVarint}.
Context `{Message AvailabilityMessage, Message WireProof} (world : SwarmWorld).

Abbreviation ends m Q := (wp m (fun _ => Q) (fun _ => Q)).

Lemma announce_quiet id n : ends (announce world id) (quiet n) n.
Proof. unfold announce. quiet_exec. Qed.

Lemma running_state (d : Driver) : is_running d = true <-> state d = Running.
Proof. unfold is_running. by destruct (state d). Qed.

Lemma query_availability_quiet id n : ends (query_availability world id) (quiet n) n.
Proof.
  unfold query_availability, require_running. quiet_exec.
  all: intros Hs; rewrite running_state in *; congruence.
Qed.

Lemma replace_authorized_peers_quiet peers n : ends (replace_authorized_peers peers) (quiet n) n.
Proof.
  unfold replace_authorized_peers. do 2 dstep. dstep.
  eapply wp_mono; [apply (wp_for_each _ _ _ (quiet n)); [|done]|].
  { intros a s _ Hq. repeat dstep. transitivity s; [done|]. quiet_tac. }
  intros [] s Hs. dstep.
  eapply wp_mono; [apply (wp_for_each _ _ _ (quiet n)); [|done]|].
  { intros a s' _ Hq. repeat dstep. transitivity s'; [done|]. quiet_tac. }
  intros [] s' Hs'. dstep. transitivity s'; [done|]. quiet_tac.
Qed.

Lemma handle_gossip_quiet m n : ends (handle_gossip world m) (quiet n) n.
Proof.
  unfold handle_gossip. quiet_exec.
  all: intros Hs; destruct (is_running (driver n)) eqn:Er; [rewrite running_state in Er; congruence|done].
Qed.

Lemma expire_queries_quiet n : ends (expire_queries world) (quiet n) n.
Proof. unfold expire_queries. quiet_exec. intros _ Hq. rewrite Hq. apply map_filter_empty. Qed.

Lemma listen_quiet event n :
  match event with NewListenAddr _ _ | ListenerError _ _ | ConnectionEstablished _
    | ConnectionClosed _ _ | Gossip _ | OtherEvent => True | ProofExchange _ => False end ->
  ends (handle_swarm_event world event) (quiet n) n.
Proof.
  destruct event as [l a|l e|peer|peer k|m|ev|]; intros Hev; try done; simpl;
    [quiet_exec..|apply handle_gossip_quiet].
Qed.

(** ** Exchanges we started *)

Context (fresh : forall i j, sw_send_request world i = sw_send_request world j -> i = j).

Lemma issued_app l peer r :
  issued (l ++ [ActSendRequest peer r]) =
  issued l ++ [(mkProofRequestId (len (omap sent_request l) + 1), gpr_verification_id r)].
Proof.
  unfold issued. rewrite omap_app. simpl. rewrite imap_app. simpl. by rewrite Nat.add_0_r.
Qed.

Lemma request_proof_inv cfg rcv peer id n :
  driver_inv world cfg rcv n -> ends (request_proof world peer id) (driver_inv world cfg rcv) n.
Proof.
  intros (E & I & D). unfold request_proof, require_running. repeat dstep; try done. simpl.
  rewrite bool_decide_eq_false in *. rename Heqb1 into Hnew.
  assert (outbound_requests (driver n) !! sw_send_request world (dtick n) = None) as Hnone.
  { apply eq_None_not_Some. intros (t & Ht & Heq)%(ex_fresh _ _ _ E). apply fresh in Heq. lia. }
  assert (forall k r, outbound_requests (driver n) !! k = Some r ->
    ~ (out_peer r = peer /\ out_id r = id)) as Hdiff.
  { intros k r Hk [Hp Hi]. apply Hnew, (ex_flight _ _ _ E). eauto. }
  split_and!.
  - destruct E. constructor; unfold ended; simpl; rewrite ?omap_app; simpl; try done.
    + rewrite issued_app, <- ex_account0. unfold outstanding. simpl.
      rewrite map_to_list_insert by done. simpl. rewrite ex_next0.
      rewrite <- (app_assoc _ _ [_]). apply Permutation_app; [done|apply Permutation_cons_append].
    + unfold len in *. rewrite length_app. simpl. lia.
    + intros p i. rewrite elem_of_union, elem_of_singleton, ex_flight0. split.
      * intros [[= -> ->]|(k & r & Hk & Hp & Hi)].
        -- eexists _, _. rewrite lookup_insert_eq. done.
        -- exists k, r. rewrite lookup_insert_ne by congruence. done.
      * intros (k & r & Hk & Hp & Hi). apply lookup_insert_Some in Hk as [[<- <-]|[Hne Hk]].
        -- left. simpl in *. by subst.
        -- right. eauto.
    + intros k k' r r' [[<- <-]|[Hne Hk]]%lookup_insert_Some [[<- <-]|[Hne' Hk']]%lookup_insert_Some
        Hp Hi; simpl in *; [done|..|eauto].
      * by destruct (Hdiff _ _ Hk').
      * by destruct (Hdiff _ _ Hk).
    + intros k [r [[<- <-]|[Hne Hk]]%lookup_insert_Some].
      * eexists. split; [|done]. lia.
      * destruct (ex_fresh0 k ltac:(eauto)) as (t & ? & ?). exists t. split; [lia|done].
  - destruct I. constructor; simpl; rewrite ?omap_app; simpl; rewrite ?app_nil_r; done.
  - unfold drain_inv in *. simpl. rewrite omap_app. simpl. rewrite app_nil_r.
    rewrite negb_false_iff, running_state in *. by destruct (state (driver n)).
Qed.

(** A request leaves the tables and ends with one event. *)
Lemma settle_inv cfg rcv k r n n' outcome :
  driver_inv world cfg rcv n -> outbound_requests (driver n) !! k = Some r ->
  quiet (mkDNet (set_outbound (delete k (outbound_requests (driver n)))
    (in_flight (driver n) ∖ {[(out_peer r, out_id r)]}) (next_proof_request_id (driver n)) (driver n))
    (dtick n) (actions n) (emitted n)) (mkDNet (driver n') (dtick n') (actions n') (emitted n)) ->
  ended n' = ended n ++ [(application_id r, as_bytes (out_id r), outcome)] ->
  (forall p, outcome = Some p -> verification_id p = out_id r /\
    encoded_len (wire_of_proof p) <= p2p_max_proof_bytes cfg) ->
  driver_inv world cfg rcv n'.
Proof.
  intros (E & I & D) Hk Q He Hp. destruct Q; simpl in *. split_and!.
  - destruct E. constructor; unfold outstanding, issued in *;
      rewrite ?q_config0, ?q_outbound0, ?q_flight0, ?q_next0, ?He, ?q_sent0; try done.
    + rewrite <- ex_account0, <- (map_to_list_delete _ _ _ Hk), fmap_app, <- app_assoc. done.
    + intros p i. rewrite elem_of_difference, elem_of_singleton, ex_flight0. split.
      * intros [(k' & r' & Hk' & <- & <-) Hne]. exists k', r'.
        rewrite lookup_delete_ne by (intros ->; congruence). done.
      * intros (k' & r' & [Hne Hk']%lookup_delete_Some & <- & <-). split; [eauto|].
        intros [= Hp' Hi]. eauto.
    + intros k1 k2 r1 r2 [_ ?]%lookup_delete_Some [_ ?]%lookup_delete_Some. eauto.
    + intros k' [r' [_ Hk']%lookup_delete_Some].
      destruct (ex_fresh0 k' ltac:(eauto)) as (t & ? & ?). exists t. split; [lia|done].
    + intros rid id p [Hin|Hin]%elem_of_app; [eauto|].
      apply list_elem_of_singleton in Hin as [= -> -> <-]. destruct (Hp p eq_refl) as [-> ?]. done.
  - destruct I. constructor; unfold waiting in *;
      rewrite ?q_config0, ?q_inbound0, ?q_next_in0, ?q_answered0; done.
  - unfold drain_inv, settled in *. rewrite q_state0, q_inbound0, q_outbound0, q_flight0, q_drained0.
    destruct (state (driver n)); [done|..].
    + destruct D. split; [|done]. by apply q_queries0.
    + destruct D as (? & (? & Ho & ? & Hd) & ?). rewrite Ho in Hk. done.
Qed.

Lemma driver_validate_proof_ok wire id maximum p :
  driver_validate_proof wire id maximum = Ok p ->
  verification_id p = id /\ encoded_len (wire_of_proof p) <= maximum.
Proof.
  unfold driver_validate_proof. destruct (Z.ltb_spec maximum (encoded_len wire)); [done|].
  destruct (proof_try_from wire) as [p'|e] eqn:Ep; simpl; [|done].
  case_bool_decide; simpl; [|done]. intros [= <-].
  apply proof_try_from_Ok in Ep as ->. done.
Qed.

Lemma handle_outbound_response_inv cfg rcv peer k response n :
  driver_inv world cfg rcv n ->
  ends (handle_outbound_response world peer k response) (driver_inv world cfg rcv) n.
Proof.
  intros I. unfold handle_outbound_response, take_outbound, emit_failed. repeat dstep; simpl in *;
    try done; match goal with Hk : outbound_requests _ !! _ = Some ?r |- _ =>
      eapply (settle_inv _ _ k r n); [done|done|quiet_tac|unfold ended; simpl; by rewrite omap_app|]
    end; try done.
  intros p [= <-]. apply driver_validate_proof_ok in Heqr as [-> ?]. split; [done|].
  destruct I as ([<-] & _). done.
Qed.

Lemma handle_outbound_failure_inv cfg rcv peer k error n :
  driver_inv world cfg rcv n ->
  ends (handle_outbound_failure world peer k error) (driver_inv world cfg rcv) n.
Proof.
  intros I. unfold handle_outbound_failure, take_outbound. repeat dstep; simpl in *; try done.
  eapply (settle_inv _ _ k _ n); [done|done|quiet_tac|unfold ended; simpl; by rewrite omap_app|].
  done.
Qed.

(** ** Requests that arrive *)

Lemma answer_ok_more cfg rcv rcv' c r :
  rcv ⊆ rcv' -> answer_ok cfg rcv c r -> answer_ok cfg rcv' c r.
Proof.
  intros Hsub [Hc Hr]. split; [done|]. destruct (gps_result r) as [[w|]|]; [..|done].
  - destruct Hr as (peer & q & p & Hin & ?). exists peer, q, p. split; [by apply Hsub|done].
  - destruct Hr as (peer & q & Hin). exists peer, q. by apply Hsub.
Qed.

Lemma inbound_more cfg rcv a n :
  driver_inv world cfg rcv n -> driver_inv world cfg (rcv ++ [a]) n.
Proof.
  intros (E & I & D). split_and!; [done| |done]. destruct I. constructor; try done.
  - rewrite fmap_app. etrans; [done|]. apply submseteq_inserts_r. done.
  - intros k x Hk. destruct (inb_known0 k x Hk) as (q & Hin & ?). exists q.
    split; [apply elem_of_app; by left|done].
  - intros c r Hin. eapply answer_ok_more; [|by apply inb_answers0]. intros y Hy.
    apply elem_of_app. by left.
Qed.

Lemma response_result_ok maximum id proof r :
  response_result maximum id proof = Ok r ->
  match r with
  | ResultProof w => exists p, proof = Some p /\ w = wire_of_proof p /\ verification_id p = id /\
      proof_encoded_len p <= maximum
  | ResultNotFound => proof = None
  end.
Proof.
  unfold response_result. destruct proof as [p|]; [|by intros [= <-]].
  destruct (Z.ltb_spec maximum (proof_encoded_len p)); [done|].
  case_bool_decide; simpl; [|done]. intros [= <-]. eauto.
Qed.

(** A pending request is dropped, or answered. *)
Lemma drop_inbound cfg rcv k x n n' :
  driver_inv world cfg rcv n -> inbound_requests (driver n) !! k = Some x ->
  quiet (mkDNet (set_inbound (delete k (inbound_requests (driver n)))
    (next_inbound_request_id (driver n)) (driver n)) (dtick n) (actions n) (emitted n)) n' ->
  driver_inv world cfg rcv n'.
Proof.
  intros (E & I & D) Hk Q. eapply quiet_inv; [exact Q|]. split_and!; simpl.
  - destruct E. by constructor.
  - destruct I. constructor; simpl; try done.
    + unfold waiting in *. simpl. rewrite <- inb_once0. apply submseteq_app; [done|].
      rewrite <- (map_to_list_delete (inbound_requests (driver n)) k x Hk). simpl.
      by apply submseteq_cons.
    + intros k' Hk'. apply lookup_delete_None. right. by apply inb_next0.
    + intros k' x' [_ Hk']%lookup_delete_Some. eauto.
  - unfold drain_inv, settled in *. simpl. destruct (state (driver n)); [done|done|].
    destruct D as (? & (Hi & ?) & ?). by rewrite Hi in Hk.
Qed.

Lemma answer_inbound cfg rcv k x r n :
  driver_inv world cfg rcv n -> inbound_requests (driver n) !! k = Some x ->
  answer_ok cfg rcv (channel x) r ->
  driver_inv world cfg rcv (mkDNet (set_inbound (delete k (inbound_requests (driver n)))
    (next_inbound_request_id (driver n)) (driver n)) (S (dtick n))
    (actions n ++ [ActSendResponse (channel x) r]) (emitted n)).
Proof.
  intros I Hk Hr.
  pose proof (drop_inbound cfg rcv k x n _ I Hk (reflexivity _)) as (E & I' & D).
  destruct I as (_ & I & _). split_and!.
  - destruct E. constructor; unfold issued in *; simpl in *; rewrite ?omap_app; simpl;
      rewrite ?app_nil_r; try done.
    intros k' Hk'. destruct (ex_fresh0 k' Hk') as (t & ? & ?). exists t. split; [lia|done].
  - destruct I'. constructor; simpl in *; try done.
    + rewrite omap_app, fmap_app, <- app_assoc. simpl. destruct I. unfold waiting in *.
      simpl. rewrite <- (map_to_list_delete (inbound_requests (driver n)) k x Hk) in inb_once1. done.
    + intros c r'. rewrite omap_app, elem_of_app. simpl. rewrite list_elem_of_singleton.
      intros [Hin|[= -> ->]]; [by apply inb_answers0|done].
  - unfold drain_inv, settled in *. simpl in *. rewrite omap_app. simpl. by rewrite app_nil_r.
Qed.

Lemma respond_proof_inv cfg rcv k proof n :
  driver_inv world cfg rcv n ->
  ends (respond_proof world k proof) (driver_inv world cfg rcv) n.
Proof.
  intros I. pose proof I as (_ & [Hcfg _ _ Hknown _] & _).
  unfold respond_proof. do 2 dstep. dstep; [|by dstep]. dstep. dstep. simpl. dstep. dstep.
  destruct (response_result _ _ _) as [r|e] eqn:Er; simpl.
  2: { eapply drop_inbound; [done|done|quiet_tac]. }
  do 2 dstep. simpl.
  assert (driver_inv world cfg rcv (mkDNet
    (set_inbound (delete k (inbound_requests (driver n))) (next_inbound_request_id (driver n))
      (driver n)) (S (dtick n))
    (actions n ++ [ActSendResponse (channel i)
      (mkGetProofResponse (p2p_chain_id (config (driver n))) (Some r))]) (emitted n))) as Hinv.
  { apply answer_inbound; [done|done|]. rewrite Hcfg. split; [done|]. simpl.
    destruct (Hknown _ _ Heqo) as (q & Hin & Hc & Hid).
    apply response_result_ok in Er. destruct r as [w|]; [|by eauto].
    destruct Er as (p & _ & -> & Hp & Hlen). rewrite Hcfg in Hlen. exists (in_peer i), q, p.
    by rewrite Hp. }
  dstep; by dstep.
Qed.

Lemma refuse_inv cfg rcv peer q c n :
  driver_inv world cfg rcv n ->
  driver_inv world cfg (rcv ++ [(peer, q, c)]) (mkDNet (driver n) (S (dtick n))
    (actions n ++ [ActSendResponse c (not_found_response (p2p_chain_id cfg))]) (emitted n)).
Proof.
  intros I0. pose proof (inbound_more _ _ (peer, q, c) _ I0) as (E & I & D).
  destruct I0 as (_ & I0 & _). split_and!.
  - destruct E. constructor; unfold issued in *; simpl; rewrite ?omap_app; simpl;
      rewrite ?app_nil_r; try done.
    intros k' Hk'. destruct (ex_fresh0 k' Hk') as (t & ? & ?). exists t. split; [lia|done].
  - destruct I. constructor; simpl in *; try done.
    + rewrite omap_app, !fmap_app, <- app_assoc. simpl.
      rewrite <- Permutation_middle, <- Permutation_cons_append. apply submseteq_skip, I0.
    + intros c' r'. rewrite omap_app, elem_of_app. simpl. rewrite list_elem_of_singleton.
      intros [Hin|[= -> ->]]; [by apply inb_answers0|]. split; [done|]. simpl. exists peer, q.
      apply elem_of_app. right. by apply list_elem_of_singleton.
  - unfold drain_inv in *. simpl. rewrite omap_app. simpl. by rewrite app_nil_r.
Qed.

Lemma accept_inv cfg rcv peer q c id n :
  driver_inv world cfg rcv n -> state (driver n) = Running ->
  gpr_chain_id q = p2p_chain_id cfg -> gpr_verification_id q = as_bytes id ->
  driver_inv world cfg (rcv ++ [(peer, q, c)]) (mkDNet
    (set_inbound (<[mkInboundId (next_inbound_request_id (driver n)) := mkInbound peer id c]>
      (inbound_requests (driver n))) (next_inbound_request_id (driver n) + 1) (driver n))
    (S (dtick n)) (actions n)
    (emitted n ++ [ProofRequested (mkInboundId (next_inbound_request_id (driver n))) peer id])).
Proof.
  intros I0 Hrun Hc Hid. pose proof (inbound_more _ _ (peer, q, c) _ I0) as (E & I & D).
  destruct I0 as (_ & I0 & _). split_and!.
  - destruct E. constructor; unfold ended in *; simpl; rewrite ?omap_app; simpl;
      rewrite ?app_nil_r; try done.
    intros k' Hk'. destruct (ex_fresh0 k' Hk') as (t & ? & ?). exists t. split; [lia|done].
  - destruct I. constructor; simpl in *; try done.
    + unfold waiting in *. simpl. rewrite map_to_list_insert by (apply inb_next0; simpl; lia).
      rewrite !fmap_app. simpl. rewrite <- Permutation_middle, <- Permutation_cons_append.
      apply submseteq_skip, I0.
    + intros k Hk. rewrite lookup_insert_ne; [apply inb_next0; lia|]. intros <-. simpl in *. lia.
    + intros k x [[<- <-]|[_ Hk]]%lookup_insert_Some; [|by apply inb_known0 in Hk]. exists q.
      split; [|done]. apply elem_of_app. right. by apply list_elem_of_singleton.
  - unfold drain_inv in *. simpl. by rewrite Hrun in *.
Qed.

Lemma verification_id_try_from_Ok b id : verification_id_try_from b = Ok id -> b = as_bytes id.
Proof.
  unfold verification_id_try_from. destruct (array_of _ b) as [x|] eqn:Eb; [|done].
  intros [= <-]. symmetry. by apply array_of_Some in Eb.
Qed.

Lemma handle_inbound_request_inv cfg rcv peer q c n :
  driver_inv world cfg rcv n ->
  ends (handle_inbound_request world peer q c) (driver_inv world cfg (rcv ++ [(peer, q, c)])) n.
Proof.
  intros I. pose proof I as (_ & [Hcfg _ _ _ _] & _). unfold handle_inbound_request.
  dstep. dstep. dstep; [repeat dstep; rewrite Hcfg; by apply refuse_inv|].
  rewrite negb_false_iff, running_state in *.
  dstep; [|repeat dstep; rewrite Hcfg; by apply refuse_inv].
  do 4 dstep. dstep; simpl.
  all: destruct (_ && _) eqn:Ec in Heqo; [|done]; apply andb_true_iff in Ec as [_ Hc%bool_decide_eq_true].
  all: destruct (verification_id_try_from _) as [id|] eqn:Eid in Heqo; [|done].
  all: apply verification_id_try_from_Ok in Eid; injection Heqo as <-.
  all: pose proof (accept_inv cfg rcv peer q c id n I Heqb ltac:(congruence) Eid) as I'.
  - by dstep.
  - do 2 dstep. eapply wp_ends; [by apply respond_proof_inv|done..].
Qed.

(** ** The drain *)

Lemma begin_drain_inv cfg rcv n :
  driver_inv world cfg rcv n -> state (driver n) = Running ->
  ends begin_drain (driver_inv world cfg rcv) n.
Proof.
  intros I Hrun. unfold begin_drain. do 3 dstep.
  eapply wp_ends; [apply (wp_for_each _ _ _ (quiet n)); [|done]| |].
  { intros l s _ Hq. repeat dstep. transitivity s; [done|]. quiet_tac. }
  2: { intros e s Hq. by eapply quiet_inv. }
  intros [] s Hq. dstep. pose proof (quiet_inv _ _ _ _ _ Hq I) as (E & B & D). split_and!.
  - destruct E. by constructor.
  - destruct B. by constructor.
  - unfold drain_inv in *. simpl. rewrite (q_state _ _ Hq), Hrun in D. done.
Qed.

Lemma finish_drain_inv cfg rcv n :
  driver_inv world cfg rcv n -> ends finish_drain (driver_inv world cfg rcv) n.
Proof.
  intros (E & I & D). unfold finish_drain. do 3 dstep; [by dstep|]. repeat dstep. simpl.
  rewrite !orb_false_iff, !negb_false_iff, !bool_decide_eq_true in *.
  destruct Heqb as ((((Hs & Hi) & Ho) & Hf) & Hd). split_and!.
  - destruct E. constructor; unfold issued in *; simpl; rewrite ?omap_app; simpl;
      rewrite ?app_nil_r; try done.
    intros k Hk. destruct (ex_fresh0 k Hk) as (t & ? & ?). exists t. split; [lia|done].
  - destruct I. constructor; simpl; rewrite ?omap_app; simpl; rewrite ?app_nil_r; done.
  - unfold drain_inv, settled in *. simpl. rewrite Hs in D. destruct D as [Hq Hr].
    rewrite omap_app, Hr. done.
Qed.

Lemma handle_command_inv cfg rcv c n :
  driver_inv world cfg rcv n -> ends (handle_command world c) (driver_inv world cfg rcv) n.
Proof.
  intros I. destruct c as [id|id|ids|id|id|peer id|k proof|peers|]; simpl.
  - do 2 dstep. eapply wp_ends; [apply announce_quiet|intros; by eapply quiet_inv..].
  - repeat dstep. eapply quiet_inv; [|done]. quiet_tac.
  - repeat dstep. eapply quiet_inv; [|done]. quiet_tac.
  - do 2 dstep. eapply wp_ends; [apply query_availability_quiet|intros; by eapply quiet_inv..].
  - by repeat dstep.
  - do 2 dstep. eapply wp_ends; [by apply request_proof_inv|done..].
  - do 2 dstep. eapply wp_ends; [by apply respond_proof_inv|done..].
  - dstep. dstep. dstep; [|by dstep]. dstep.
    eapply wp_ends; [apply replace_authorized_peers_quiet|intros; by eapply quiet_inv..].
  - dstep. dstep. dstep; [|by dstep..]. dstep.
    eapply wp_ends; [by apply begin_drain_inv|done..].
Qed.

Lemma handle_swarm_event_inv cfg rcv e n :
  driver_inv world cfg rcv n ->
  ends (handle_swarm_event world e)
    (driver_inv world cfg (rcv ++ option_list (arrival (InSwarm e)))) n.
Proof.
  intros I. destruct (match e with ProofExchange _ => true | _ => false end) eqn:Ee.
  2: { assert (arrival (InSwarm e) = None) as -> by (by destruct e). simpl. rewrite app_nil_r.
       eapply wp_ends; [apply listen_quiet; by destruct e|intros; by eapply quiet_inv..]. }
  destruct e as [| | | | |[peer q c|peer k response|peer k error|peer|]|]; try done; simpl.
  - by apply handle_inbound_request_inv.
  - rewrite app_nil_r. by apply handle_outbound_response_inv.
  - rewrite app_nil_r. by apply handle_outbound_failure_inv.
  - rewrite app_nil_r. by dstep.
  - rewrite app_nil_r. by dstep.
Qed.

Lemma delayed_quiet i x n :
  delayed_responses (driver n) !! i = Some x ->
  quiet n (mkDNet (set_delayed (delete i (delayed_responses (driver n))) (driver n)) (S (dtick n))
    (actions n ++ [ActPublish x]) (emitted n)).
Proof.
  intros Hi. quiet_tac. intros _. pose proof (length_delete _ _ (mk_is_Some _ _ Hi)). lia.
Qed.

Lemma handle_input_inv cfg rcv i n :
  driver_inv world cfg rcv n ->
  ends (handle_input world i) (driver_inv world cfg (rcv ++ option_list (arrival i))) n.
Proof.
  intros I. destruct i as [c|e|i| |]; simpl; rewrite ?app_nil_r.
  - dstep. eapply wp_ends; [by apply handle_command_inv|done..].
  - dstep. eapply wp_ends; [by apply handle_swarm_event_inv|done..].
  - dstep. dstep. dstep; [|by dstep]. repeat dstep. eapply quiet_inv; [|exact I].
    exact (delayed_quiet i _ n Heqo).
  - dstep. eapply wp_ends; [apply expire_queries_quiet|intros; by eapply quiet_inv..].
  - dstep. dstep. dstep; by dstep.
Qed.

Lemma turn_inv cfg rcv i n :
  driver_inv world cfg rcv n ->
  ends (turn world i) (driver_inv world cfg (rcv ++ option_list (arrival i))) n.
Proof.
  intros I. unfold turn. dstep. eapply wp_ends; [by apply handle_input_inv| |done].
  intros stop s Hs. dstep. eapply wp_ends; [by apply finish_drain_inv|done..].
Qed.

Lemma inbound_later cfg rcv more n :
  driver_inv world cfg rcv n -> driver_inv world cfg (rcv ++ more) n.
Proof.
  revert rcv. induction more as [|a more IH]; intros rcv I; [by rewrite app_nil_r|].
  rewrite cons_middle, app_assoc. by apply IH, inbound_more.
Qed.

Lemma run_inv cfg rcv inputs n :
  driver_inv world cfg rcv n ->
  ends (run world inputs) (driver_inv world cfg (rcv ++ omap arrival inputs)) n.
Proof.
  revert rcv n. induction inputs as [|i inputs IH]; intros rcv n I; simpl;
    [dstep; by rewrite app_nil_r|].
  assert (forall m, driver_inv world cfg (rcv ++ option_list (arrival i)) m ->
    driver_inv world cfg (rcv ++ omap arrival (i :: inputs)) m) as Hlater.
  { intros m. simpl. destruct (arrival i) as [x|]; simpl; intros Hm.
    - rewrite cons_middle, app_assoc. by apply inbound_later.
    - rewrite app_nil_r in Hm. by apply inbound_later. }
  dstep. eapply wp_ends; [by apply turn_inv| |intros _; apply Hlater].
  intros stop s Hs. dstep; [dstep; by apply Hlater|].
  eapply wp_ends; [by apply IH| |]; simpl; intros _ m; destruct (arrival i); simpl;
    rewrite ?app_nil_r, <- ?app_assoc; done.
Qed.

(** ** From the start *)

(** A driver just built, with nothing sent or emitted. *)
Definition net_of (d : Driver) : DNet := mkDNet d 0 [] [].

Lemma build_inv w cfg local authorized d b boot :
  Driver_build w cfg local authorized = Ok (d, b, boot) ->
  driver_inv world cfg [] (net_of d) /\ state d = Running.
Proof.
  unfold Driver_build. destruct (behaviour_build _ _ _) as [[b' topic]|]; simpl; [|done].
  destruct (bd_tcp w), (bd_dns w), (bd_with_behaviour w); simpl; try done.
  destruct (listen_all _ _ _ _); simpl; [|done]. destruct (group_bootnodes _ _ _); simpl; [|done].
  destruct (dial_all _ _); simpl; [|done]. intros [= <- <- <-]. split; [|done].
  split_and!; [constructor|constructor|]; simpl; try done.
  - intros peer id. split; [set_solver|]. intros (k & r & Hk & _). by rewrite lookup_empty in Hk.
  - intros k [r Hk]. by rewrite lookup_empty in Hk.
  - intros rid id p Hp. by apply elem_of_nil in Hp.
  - intros c r Hp. by apply elem_of_nil in Hp.
Qed.

(** ** Drain progress *)

Definition drain_measure (d : Driver) : nat :=
  size (inbound_requests d) + size (outbound_requests d) + length (delayed_responses d).

(** The input ends one of the things a drain waits for: a response or failure of a request of
    ours, an answer for a pending request, a delay that passed. *)
Definition settles (d : Driver) (i : Input) : bool :=
  match i with
  | InSwarm (ProofExchange (ExResponse _ k _ | ExOutboundFailure _ k _)) =>
      bool_decide (is_Some (outbound_requests d !! k))
  | InCommand (CmdRespondProof k _) => bool_decide (is_Some (inbound_requests d !! k))
  | InDelayed i => bool_decide (is_Some (delayed_responses d !! i))
  | _ => false
  end.

(** *** Failures *)

(** [m] returns a value. *)
Abbreviation returns m := (wp m (fun _ _ => True) (fun _ _ => False)).

Lemma handle_command_returns c n : returns (handle_command world c) n.
Proof.
  assert (forall A (m : stm DNet Error A) Q n, (forall r s, Q r s) ->
    wp (reified m) Q (fun _ _ => False) n) as Hreify.
  { intros A m Q s HQ. apply wp_reified. unfold wp. destruct (m s) as [[]]; eauto. }
  assert (forall A (f : A -> stm DNet Error unit) l Q s, (forall a s, returns (f a) s) ->
    (forall r s, Q r s) -> wp (for_each f l) Q (fun _ _ => False) s) as Heach.
  { intros A f l Q s Hf HQ.
    eapply wp_mono; [apply (wp_for_each _ f l (fun _ => True))|]; eauto. }
  destruct c; simpl; unfold replace_authorized_peers, begin_drain; repeat first
    [ progress simpl | done | apply Hreify; intros | apply Heach; intros | dstep ].
Qed.

Lemma handle_exchange_returns ev n : returns (handle_exchange world ev) n.
Proof.
  destruct ev; simpl; unfold handle_inbound_request, handle_outbound_response,
    handle_outbound_failure, take_outbound, emit_failed; repeat first [ progress simpl | done |
    lazymatch goal with |- wp (reified _) _ _ _ => apply wp_reified end | dstep ].
  all: unfold wp; by destruct (respond_proof _ _ _ _) as [[]].
Qed.

Lemma handle_input_result i n :
  wp (handle_input world i)
    (fun stop s => stop = true <-> i = InClosed /\ state (driver n) = Drained)
    (fun e s => (exists l error, i = InSwarm (ListenerError l error) /\ state (driver n) = Running /\
        e = P2pDriver ("listener failed: " +:+ error)) \/
      i = InClosed /\ state (driver n) <> Drained /\ e = P2pDriverClosed) n.
Proof.
  destruct i as [c|ev|k| |]; simpl.
  - dstep. eapply wp_weaken; [apply handle_command_returns|..]; [|done]. intros r s _. dstep.
    naive_solver.
  - dstep. destruct ev as [l a|l e|peer|peer k|m|ev|]; simpl.
    6: { eapply wp_weaken; [apply handle_exchange_returns|..]; [|done]. intros r s _. dstep.
         naive_solver. }
    2: { repeat dstep; simpl; try naive_solver.
         all: left; exists l, e; by rewrite <- running_state. }
    all: unfold handle_gossip; repeat (dstep; simpl); naive_solver.
  - repeat dstep; naive_solver.
  - unfold expire_queries. repeat dstep. naive_solver.
  - dstep. dstep. dstep; dstep; rewrite ?bool_decide_eq_true, ?bool_decide_eq_false in *; naive_solver.
Qed.

(** *** Progress *)

(** Once the driver is not running, an input starts nothing and settles what it settles. *)
Definition shrinks (n : DNet) (i : Input) (n' : DNet) : Prop :=
  state (driver n') = state (driver n) /\
  (drain_measure (driver n') + (if settles (driver n) i then 1 else 0)
    <= drain_measure (driver n))%nat.

Lemma quiet_shrinks n i n' :
  state (driver n) <> Running -> settles (driver n) i = false -> quiet n n' -> shrinks n i n'.
Proof.
  intros Hs Hi Q. destruct Q. split; [done|]. rewrite Hi. unfold drain_measure.
  rewrite q_inbound0, q_outbound0. specialize (q_delayed0 Hs). lia.
Qed.

Lemma delete_shrinks `{Countable K} {V} (m : gmap K V) k x :
  m !! k = Some x -> S (size (delete k m)) = size m.
Proof. intros Hk. rewrite map_size_delete_Some by eauto. pose proof (map_size_ne_0_lookup_2 m k ltac:(eauto)). lia. Qed.

Lemma outbound_shrinks peer k n :
  (forall response, ends (handle_outbound_response world peer k response)
    (shrinks n (InSwarm (ProofExchange (ExResponse peer k response)))) n) /\
  (forall error, ends (handle_outbound_failure world peer k error)
    (shrinks n (InSwarm (ProofExchange (ExOutboundFailure peer k error)))) n).
Proof.
  split; intros x; unfold handle_outbound_response, handle_outbound_failure, take_outbound, emit_failed;
    repeat dstep; unfold shrinks, drain_measure; simpl in *; (split; [done|]);
    match goal with Hk : outbound_requests _ !! _ = Some _ |- _ =>
      rewrite bool_decide_true by eauto; pose proof (delete_shrinks _ _ _ Hk); lia
    | Hk : outbound_requests _ !! _ = None |- _ =>
      rewrite bool_decide_false by (rewrite Hk; apply is_Some_None); lia end.
Qed.

Lemma respond_shrinks k proof n :
  ends (respond_proof world k proof) (shrinks n (InCommand (CmdRespondProof k proof))) n.
Proof.
  unfold respond_proof. repeat dstep; unfold shrinks, drain_measure; simpl in *;
    try (destruct (response_result _ _ _)); repeat dstep; simpl; (split; [done|]);
    match goal with Hk : inbound_requests _ !! _ = Some _ |- _ =>
      rewrite bool_decide_true by eauto; pose proof (delete_shrinks _ _ _ Hk); lia
    | Hk : inbound_requests _ !! _ = None |- _ =>
      rewrite bool_decide_false by (rewrite Hk; apply is_Some_None); lia end.
Qed.

Lemma input_shrinks i n :
  state (driver n) <> Running -> ends (handle_input world i) (shrinks n i) n.
Proof.
  intros Hs. assert (is_running (driver n) = false) as Hrun.
  { apply not_true_iff_false. by rewrite running_state. }
  assert (forall c, settles (driver n) (InCommand c) = false -> quiet n n ->
    shrinks n (InCommand c) n) as Hnone by (intros; by apply quiet_shrinks).
  destruct i as [c|ev|k| |]; simpl.
  - dstep. destruct c as [id|id|ids|id|id|peer id|k proof|peers|]; simpl.
    + do 2 dstep. eapply wp_ends; [apply announce_quiet|intros; by apply quiet_shrinks..].
    + repeat dstep. apply quiet_shrinks; [done..|quiet_tac].
    + repeat dstep. apply quiet_shrinks; [done..|quiet_tac].
    + do 2 dstep. eapply wp_ends; [apply query_availability_quiet|intros; by apply quiet_shrinks..].
    + repeat dstep. by apply Hnone.
    + unfold request_proof, require_running. repeat dstep; first [congruence|by apply Hnone].
    + do 2 dstep. eapply wp_ends; [apply respond_shrinks|done..].
    + dstep. dstep. rewrite Hrun. repeat dstep. by apply Hnone.
    + dstep. dstep. destruct (state (driver n)) eqn:E; [done|..]; repeat dstep; by apply Hnone.
  - dstep. destruct (match ev with ProofExchange _ => true | _ => false end) eqn:Ee.
    2: { eapply wp_ends; [apply listen_quiet; by destruct ev|intros; apply quiet_shrinks; try done;
           by destruct ev..]. }
    destruct ev as [| | | | |[peer q c|peer k response|peer k error|peer|]|]; try done; simpl.
    + unfold handle_inbound_request. dstep. dstep. rewrite Hrun. simpl. repeat dstep.
      split; [done|]. simpl. lia.
    + eapply wp_ends; [apply outbound_shrinks|done..].
    + eapply wp_ends; [apply outbound_shrinks|done..].
    + repeat dstep. by apply quiet_shrinks.
    + repeat dstep. by apply quiet_shrinks.
  - repeat dstep; unfold shrinks, drain_measure; simpl; (split; [done|]).
    + rewrite bool_decide_true by eauto. pose proof (length_delete _ _ (mk_is_Some _ _ Heqo)).
      pose proof (lookup_lt_Some _ _ _ Heqo). lia.
    + rewrite bool_decide_false by (rewrite Heqo; apply is_Some_None). lia.
  - dstep. eapply wp_ends; [apply expire_queries_quiet|intros; by apply quiet_shrinks..].
  - repeat dstep; by apply quiet_shrinks.
Qed.

Lemma ends_snd {A} (m : stm DNet Error A) Q n : ends m Q n -> Q (snd (m n)).
Proof. unfold wp. by destruct (m n) as [[]]. Qed.

Lemma finish_drain_measure n :
  wp finish_drain (fun _ n' => drain_measure (driver n') = drain_measure (driver n) /\
    state (driver n') = match state (driver n) with
      | Draining => if bool_decide (settled (driver n)) then Drained else Draining
      | s => s end) (fun _ _ => False) n.
Proof.
  unfold finish_drain. do 3 dstep; repeat dstep; (split; [done|]); simpl.
  - destruct (state (driver n)) eqn:Es; [done| |done]. rewrite bool_decide_false; [done|].
    intros (Hi & Ho & Hf & Hd). rewrite Hi, Ho, Hf, Hd, !bool_decide_true in Heqb by done. done.
  - rewrite !orb_false_iff, !negb_false_iff, !bool_decide_eq_true in *.
    destruct Heqb as ((((Hs & Hi) & Ho) & Hf) & Hd). rewrite Hs, bool_decide_true; done.
Qed.

Lemma measure_settled cfg n :
  exchange_inv world cfg n -> drain_measure (driver n) = 0%nat -> settled (driver n).
Proof.
  unfold drain_measure, settled. intros E Hm.
  assert (outbound_requests (driver n) = ∅) as Ho by (apply map_size_empty_iff; lia).
  split_and!; [apply map_size_empty_iff; lia|done| |apply length_zero_iff_nil; lia].
  apply set_eq. intros [peer id]. rewrite (ex_flight _ _ _ E), Ho.
  split; [|set_solver]. intros (k & r & Hk & _). by rewrite lookup_empty in Hk.
Qed.

(** The number of inputs that settle something, as they are handled. *)
Fixpoint settling (inputs : list Input) (n : DNet) : nat :=
  match inputs with
  | [] => 0
  | i :: inputs' => (if settles (driver n) i then 1 else 0) + settling inputs' (snd (turn world i n))
  end.

Lemma turn_draining cfg rcv i n :
  driver_inv world cfg rcv n -> state (driver n) = Draining -> i <> InClosed ->
  wp (turn world i) (fun stop n' => stop = false /\
    (state (driver n') = Drained \/ state (driver n') = Draining /\
      (0 < drain_measure (driver n') /\
       drain_measure (driver n') + (if settles (driver n) i then 1 else 0)
        <= drain_measure (driver n))%nat)) (fun _ _ => False) n.
Proof.
  intros I Hs Hi. unfold turn. dstep.
  pose proof (ends_snd _ _ _ (input_shrinks i n ltac:(congruence))) as [Hst Hm].
  pose proof (ends_snd _ _ _ (handle_input_inv cfg rcv i n I)) as (E & _).
  pose proof (handle_input_result i n) as Hr. unfold wp in Hr |- * at 1.
  destruct (handle_input world i n) as [[stop|e] n'] eqn:En; simpl in *.
  2: { destruct Hr as [(l & err & -> & Hrun & _)|[-> _]]; congruence. }
  dstep. eapply wp_weaken; [apply finish_drain_measure| |done].
  intros [] n2 [Hm2 Hs2]. dstep. split.
  { destruct stop; [|done]. by destruct (proj1 Hr eq_refl) as [-> _]. }
  rewrite Hst, Hs in Hs2. case_bool_decide as Hset; [by left|]. right. split; [done|].
  rewrite Hm2. split; [|done]. destruct (decide (drain_measure (driver n') = 0)%nat); [|lia].
  destruct Hset. by eapply measure_settled.
Qed.

Lemma turn_drained i n :
  state (driver n) = Drained -> i <> InClosed ->
  wp (turn world i) (fun stop n' => stop = false /\ state (driver n') = Drained)
    (fun _ _ => False) n.
Proof.
  intros Hs Hi. unfold turn. dstep.
  pose proof (ends_snd _ _ _ (input_shrinks i n ltac:(congruence))) as [Hst _].
  pose proof (handle_input_result i n) as Hr. unfold wp in Hr |- * at 1.
  destruct (handle_input world i n) as [[stop|e] n'] eqn:En; simpl in *.
  2: { destruct Hr as [(l & err & -> & Hrun & _)|[-> _]]; congruence. }
  dstep. eapply wp_weaken; [apply finish_drain_measure| |done].
  intros [] n2 [Hm2 Hs2]. dstep. rewrite Hst, Hs in Hs2. split; [|done].
  destruct stop; [|done]. by destruct (proj1 Hr eq_refl) as [-> _].
Qed.

Lemma run_drained inputs n :
  state (driver n) = Drained -> InClosed ∉ inputs ->
  wp (run world inputs) (fun stop n' => stop = false /\ state (driver n') = Drained)
    (fun _ _ => False) n.
Proof.
  revert n. induction inputs as [|i inputs IH]; intros n Hs Hi; simpl; [by dstep|].
  apply not_elem_of_cons in Hi as [Hi Hin]. dstep.
  eapply wp_weaken; [by apply turn_drained| |done]. intros stop n' [-> Hs']. by apply IH.
Qed.

Lemma run_draining cfg rcv inputs n :
  driver_inv world cfg rcv n -> state (driver n) = Draining -> InClosed ∉ inputs ->
  (0 < drain_measure (driver n) <= settling inputs n)%nat ->
  wp (run world inputs) (fun stop n' => stop = false /\ state (driver n') = Drained)
    (fun _ _ => False) n.
Proof.
  revert rcv n. induction inputs as [|i inputs IH]; intros rcv n I Hs Hi Hm; simpl in Hm |- *; [lia|].
  apply not_elem_of_cons in Hi as [Hi Hin]. dstep.
  pose proof (turn_draining cfg rcv i n I Hs (not_eq_sym Hi)) as Ht.
  pose proof (ends_snd _ _ _ (turn_inv cfg rcv i n I)) as I'.
  unfold wp in Ht |- * at 1. destruct (turn world i n) as [[stop|e] n'] eqn:En; simpl in *; [|done].
  destruct Ht as [-> [Hd|(Hd & Hpos & Hle)]]; [by apply run_drained|].
  eapply IH; [done|done|done|]. lia.
Qed.

(** A draining driver has something left between two turns. *)
Definition busy (n : DNet) : Prop :=
  state (driver n) = Draining -> (0 < drain_measure (driver n))%nat.

Lemma turn_busy cfg rcv i n :
  driver_inv world cfg rcv n -> busy n -> ends (turn world i) busy n.
Proof.
  intros I Hb. unfold turn. dstep.
  pose proof (ends_snd _ _ _ (handle_input_inv cfg rcv i n I)) as (E & _).
  pose proof (handle_input_result i n) as Hr. unfold wp in Hr |- * at 1.
  destruct (handle_input world i n) as [[stop|e] n'] eqn:En; simpl in *.
  - dstep. eapply wp_weaken; [apply finish_drain_measure| |done].
    intros [] n2 [Hm2 Hs2]. dstep. unfold busy. rewrite Hm2. intros Hd.
    destruct (decide (drain_measure (driver n') = 0)%nat) as [Hz|]; [|lia].
    rewrite Hs2 in Hd. destruct (state (driver n')) eqn:Es; try done.
    rewrite bool_decide_true in Hd by (by eapply measure_settled). done.
  - destruct Hr as [(l & err & -> & Hrun & _)|(-> & Hnd & _)].
    + pose proof (ends_snd _ _ _ (listen_quiet (ListenerError l err) n ltac:(done))) as Q.
      unfold handle_input, mbind, stm_bind in En.
      destruct (handle_swarm_event world (ListenerError l err) n) as [[]]; [done|].
      injection En as _ <-. intros Hd. apply q_state in Q. simpl in Q. congruence.
    + simpl in En. unfold mbind, stm_bind in En. simpl in En.
      case_bool_decide; [done|]. by injection En as _ <-.
Qed.

Lemma run_busy cfg rcv inputs n :
  driver_inv world cfg rcv n -> busy n -> ends (run world inputs) busy n.
Proof.
  revert rcv n. induction inputs as [|i inputs IH]; intros rcv n I Hb; simpl; [by dstep|]. dstep.
  pose proof (ends_snd _ _ _ (turn_inv cfg rcv i n I)) as I'.
  pose proof (turn_busy cfg rcv i n I Hb) as Ht. unfold wp in Ht |- * at 1.
  destruct (turn world i n) as [[[]|e] n'] eqn:En; simpl in *; [by dstep|by eapply IH|done].
Qed.
End operations.

Section theorems.
Context `{Multiaddrs, SwarmTypes, Hex, Formatting, Sha256, ProstVarint}.
Context `{Message AvailabilityMessage, Message WireProof} (world : SwarmWorld).
Context (fresh : forall i j, sw_send_request world i = sw_send_request world j -> i = j).

(** C12: whatever a driver is sent from the moment it is built, every proof request it issues is
    at each moment either outstanding or ended by exactly one event that names its identifier;
    a peer is asked for an identifier once at a time, and every proof it hands on has the
    identifier that was asked for and fits the configured limit. *)
Theorem exchange_accounting w cfg local authorized d b boot inputs :
  Driver_build w cfg local authorized = Ok (d, b, boot) ->
  let n := snd (run world inputs (net_of d)) in
  (fst <$> ended n) ++ outstanding (driver n) ≡ₚ issued (actions n) /\
  (state (driver n) = Drained -> (fst <$> ended n) ≡ₚ issued (actions n)) /\
  (forall peer id, (peer, id) ∈ in_flight (driver n) <->
    exists k r, outbound_requests (driver n) !! k = Some r /\ out_peer r = peer /\ out_id r = id) /\
  (forall rid id p, (rid, id, Some p) ∈ ended n ->
    as_bytes (verification_id p) = id /\ encoded_len (wire_of_proof p) <= p2p_max_proof_bytes cfg).
Proof.
  intros Hb n. destruct (build_inv world fresh _ _ _ _ _ _ _ Hb) as [I0 _].
  destruct (ends_snd _ _ _ (run_inv world fresh cfg [] inputs _ I0)) as ([? Hacc ? Hf ? ? Hp] & _ & D).
  fold n in Hacc, Hf, Hp, D. split_and!; try done.
  intros Hs. unfold drain_inv in D. rewrite Hs in D. destruct D as (_ & (_ & Ho & _) & _).
  rewrite <- Hacc. unfold outstanding. rewrite Ho. by rewrite map_to_list_empty, app_nil_r.
Qed.

(** C22: a request that arrives is answered at most once, and never answered after it has been
    given up; every answer goes to a request that arrived, and a proof in it is the proof that
    was asked for, on this chain, within the configured limit. *)
Theorem inbound_answered_once w cfg local authorized d b boot inputs :
  Driver_build w cfg local authorized = Ok (d, b, boot) ->
  let n := snd (run world inputs (net_of d)) in
  (fst <$> omap answered (actions n)) ++ waiting (driver n) ⊆+ (fun x => x.2) <$> omap arrival inputs /\
  forall c r, (c, r) ∈ omap answered (actions n) -> answer_ok cfg (omap arrival inputs) c r.
Proof.
  intros Hb n. destruct (build_inv world fresh _ _ _ _ _ _ _ Hb) as [I0 _].
  by destruct (ends_snd _ _ _ (run_inv world fresh cfg [] inputs _ I0)) as (_ & [? Ho ? ? Ha] & _).
Qed.

(** C27: a drain command stops the driver for good: from then on nothing new is started, and as
    soon as as many inputs have settled something (a response or failure of a request of ours, an
    answer to a pending request, a delay that passed) as there was left to settle, the driver is
    drained; it answers the drain command once, and only then. *)
Theorem drain_completes w cfg local authorized d b boot before inputs :
  Driver_build w cfg local authorized = Ok (d, b, boot) ->
  InClosed ∉ inputs ->
  let n := snd (run world before (net_of d)) in
  state (driver n) = Draining ->
  (drain_measure (driver n) <= settling world inputs n)%nat ->
  let n' := snd (run world inputs n) in
  fst (run world inputs n) = Ok false /\ state (driver n') = Drained /\ settled (driver n') /\
  omap drain_reply (actions n) = [] /\ omap drain_reply (actions n') = [Ok tt].
Proof.
  intros Hb Hc n Hs Hm n'. destruct (build_inv world fresh _ _ _ _ _ _ _ Hb) as [I0 Hrun].
  pose proof (ends_snd _ _ _ (run_inv world fresh cfg [] before _ I0)) as I. fold n in I.
  pose proof (ends_snd _ _ _ (run_busy world fresh cfg [] before _ I0 ltac:(intros ?; simpl in *; congruence)) Hs)
    as Hpos. fold n in Hpos.
  pose proof (run_draining world fresh cfg _ inputs n I Hs Hc (conj Hpos Hm)) as Hr.
  pose proof (ends_snd _ _ _ (run_inv world fresh cfg _ inputs n I)) as (_ & _ & D).
  destruct I as (_ & _ & D0). fold n' in D. unfold n', wp in *.
  destruct (run world inputs n) as [[stop|e] n2]; [|done]. destruct Hr as [-> Hd]. simpl in *.
  unfold drain_inv in *. rewrite Hd in D. rewrite Hs in D0.
  destruct D as (_ & ? & ?), D0. done.
Qed.

End theorems.

Section steps.
Context `{Multiaddrs, SwarmTypes, Hex, Formatting, Sha256, ProstVarint}.
Context `{Message AvailabilityMessage, Message WireProof} (world : SwarmWorld).

(** C33: the driver stops with an error exactly when a listener fails while it is running or its
    clients disappear before it is drained, and stops cleanly exactly when they disappear after;
    no message from the network and no command can make it fail. *)
Theorem driver_failures i n :
  match fst (turn world i n) with
  | Ok true => i = InClosed /\ state (driver n) = Drained
  | Ok false => i <> InClosed /\
      ~ (exists l error, i = InSwarm (ListenerError l error) /\ state (driver n) = Running)
  | Err e =>
      (exists l error, i = InSwarm (ListenerError l error) /\ state (driver n) = Running /\
        e = P2pDriver ("listener failed: " +:+ error)) \/
      i = InClosed /\ state (driver n) <> Drained /\ e = P2pDriverClosed
  end.
Proof.
  pose proof (handle_input_result world i n) as Hr. unfold wp in Hr.
  unfold turn, mbind, stm_bind. destruct (handle_input world i n) as [[stop|e] n'] eqn:En; [|done].
  pose proof (finish_drain_measure n') as Hf. unfold wp in Hf.
  destruct (finish_drain n') as [[[]|e] n2]; [|done]. simpl. destruct stop; [by apply Hr|]. split.
  - intros ->. simpl in En. unfold mbind, stm_bind in En. simpl in En.
    clear Hf. case_bool_decide; done.
  - intros (l & error & -> & Hrun). unfold handle_input, mbind, stm_bind in En. simpl in En.
    unfold mbind, stm_bind in En. simpl in En. unfold is_running in En. rewrite Hrun in En.
    destruct (ready (driver n)); done.
Qed.

Lemma replace_authorized_availability (peers : gset PeerId) (d : Driver) l t a e :
  exists t' a', for_each (fun removed =>
        _ ← act_ (ActDisallow removed);
        _ ← act_ (ActRemoveExplicit removed);
        update (fun d => set_availability (remove_peer removed (availability d)) d)) l
      (mkDNet d t a e) =
    (Ok tt, mkDNet (set_availability (foldl (fun x p => remove_peer p x) (availability d) l) d) t' a' e).
Proof.
  revert d t a. induction l as [|p l IH]; intros d t a; simpl; [by destruct d; eauto|].
  unfold mbind, stm_bind. simpl.
  destruct (IH (set_availability (remove_peer p (availability d)) d) (S (S t))
    ((a ++ [ActDisallow p]) ++ [ActRemoveExplicit p])) as (t' & a' & Heq).
  exists t', a'. exact Heq.
Qed.

Lemma allow_each (l : list PeerId) n :
  exists t' a', for_each (fun added => _ ← act_ (ActAllow added); act_ (ActAddExplicit added)) l n =
    (Ok tt, mkDNet (driver n) t' a' (emitted n)).
Proof.
  revert n. induction l as [|p l IH]; intros n; simpl; [destruct n; eauto|].
  unfold mbind, stm_bind. simpl. apply (IH (mkDNet _ _ _ _)).
Qed.

Lemma provides_remove_all l (index : AvailabilityIndex) id p :
  provides (foldl (fun x p => remove_peer p x) index l) id p <-> provides index id p /\ p ∉ l.
Proof.
  revert index. induction l as [|q l IH]; intros index; simpl; [set_solver|].
  rewrite IH, provides_remove_peer, not_elem_of_cons. tauto.
Qed.

Lemma replace_authorized_effect peers n :
  wp (replace_authorized_peers peers) (fun _ n' =>
    authorized_peers (driver n') = peers ∖ {[local_peer (driver n)]} /\
    forall id p, provides (availability (driver n')) id p <-> provides (availability (driver n)) id p /\
      (p ∈ authorized_peers (driver n) -> p ∈ authorized_peers (driver n'))) (fun _ n' =>
    authorized_peers (driver n') = peers ∖ {[local_peer (driver n)]} /\
    forall id p, provides (availability (driver n')) id p <-> provides (availability (driver n)) id p /\
      (p ∈ authorized_peers (driver n) -> p ∈ authorized_peers (driver n'))) n.
Proof.
  unfold replace_authorized_peers. destruct n as [d t a e]. do 3 dstep. simpl. unfold wp at 1.
  destruct (replace_authorized_availability peers d
    (elements (authorized_peers d ∖ (peers ∖ {[local_peer d]}))) t a e) as (t1 & a1 & ->).
  dstep. unfold wp at 1.
  match goal with |- context [for_each ?f ?l ?m] => destruct (allow_each l m) as (t2 & a2 & ->) end.
  dstep. simpl. split; [done|]. intros id p.
  rewrite provides_remove_all, elem_of_elements, elem_of_difference.
  destruct (decide (p ∈ peers ∖ {[local_peer d]})); tauto.
Qed.

(** *** To whom proofs are sent *)

Abbreviation ends m Q := (wp m (fun _ => Q) (fun _ => Q)).

(** The pending requests, and the responses sent so far, as they were. *)
Definition same_answers (n n' : DNet) : Prop :=
  inbound_requests (driver n') = inbound_requests (driver n) /\
  omap answered (actions n') = omap answered (actions n).

Lemma quiet_same_answers n n' : quiet n n' -> same_answers n n'.
Proof. intros []. by split. Qed.

(** Whoever has a request pending, or was sent a proof, was admitted. *)
Definition admission (admitted : PeerId -> ResponseChannel -> Prop) (n : DNet) : Prop :=
  (forall k x, inbound_requests (driver n) !! k = Some x -> admitted (in_peer x) (channel x)) /\
  (forall c r w, (c, r) ∈ omap answered (actions n) -> gps_result r = Some (ResultProof w) ->
     exists peer, admitted peer c).

Section admission.
Context (admitted : PeerId -> ResponseChannel -> Prop).

Lemma same_admission n n' : same_answers n n' -> admission admitted n -> admission admitted n'.
Proof. intros [E1 E2] [A1 A2]. split; [rewrite E1; exact A1|rewrite E2; exact A2]. Qed.

Lemma quiet_admission {A} (m : stm DNet Error A) n :
  ends m (quiet n) n -> admission admitted n -> ends m (admission admitted) n.
Proof.
  intros Hm Ha. eapply wp_ends; [exact Hm|..]; intros; (eapply same_admission; [by apply quiet_same_answers|done]).
Qed.

(** Symbolic execution of a program that leaves the answers alone. *)
Ltac same_exec :=
  repeat (dstep; simpl);
  try (eapply same_admission; [|eassumption]; split; simpl; rewrite ?omap_app; simpl; by rewrite ?app_nil_r).

Lemma request_proof_admission peer id n :
  admission admitted n -> ends (request_proof world peer id) (admission admitted) n.
Proof. intros A. unfold request_proof, require_running. same_exec. Qed.

Lemma respond_proof_admission k proof n :
  admission admitted n -> ends (respond_proof world k proof) (admission admitted) n.
Proof.
  intros [A1 A2]. unfold respond_proof. do 2 dstep. dstep; [|by dstep]. dstep. dstep. simpl. dstep. dstep.
  assert (forall t e, admission admitted (mkDNet (set_inbound (delete k (inbound_requests (driver n)))
    (next_inbound_request_id (driver n)) (driver n)) t (actions n) e)) as Hd.
  { intros t e. split; simpl; [|exact A2]. intros k' x' [_ Hk']%lookup_delete_Some. eauto. }
  destruct (response_result _ _ _) as [r|e] eqn:Er; simpl; [|apply Hd]. do 2 dstep. simpl.
  assert (forall t e, admission admitted (mkDNet (set_inbound (delete k (inbound_requests (driver n)))
    (next_inbound_request_id (driver n)) (driver n)) t (actions n ++ [ActSendResponse (channel i)
      (mkGetProofResponse (p2p_chain_id (config (driver n))) (Some r))]) e)) as Ha.
  { intros t e. split; simpl; [apply (Hd t e)|]. intros c r' w. rewrite omap_app, elem_of_app. simpl.
    rewrite list_elem_of_singleton. intros [Hin|[= -> ->]] Hr; [by eapply A2|]. eauto. }
  dstep; by dstep.
Qed.

Lemma handle_outbound_admission n peer k :
  admission admitted n ->
  (forall response, ends (handle_outbound_response world peer k response) (admission admitted) n) /\
  (forall error, ends (handle_outbound_failure world peer k error) (admission admitted) n).
Proof.
  intros A. split; intros ?; unfold handle_outbound_response, handle_outbound_failure, take_outbound, emit_failed;
    same_exec.
Qed.

Lemma handle_inbound_request_admission peer q c n :
  admission admitted n -> (peer ∈ authorized_peers (driver n) -> admitted peer c) ->
  ends (handle_inbound_request world peer q c) (admission admitted) n.
Proof.
  intros [A1 A2] Hadm.
  assert (forall chain t, admission admitted (mkDNet (driver n) t
    (actions n ++ [ActSendResponse c (not_found_response chain)]) (emitted n))) as Href.
  { intros chain t. split; simpl; [exact A1|]. intros c' r w. rewrite omap_app, elem_of_app. simpl.
    rewrite list_elem_of_singleton. intros [Hin|[= -> ->]]; [by eapply A2|]. done. }
  unfold handle_inbound_request. dstep. dstep. dstep; [repeat dstep; apply Href|].
  dstep; [|repeat dstep; apply Href]. do 4 dstep.
  assert (admitted peer c) as Hp.
  { apply Hadm. destruct (_ && _) eqn:Ec in Heqo; [|done].
    by apply andb_true_iff in Ec as [Hin%bool_decide_eq_true _]. }
  match goal with |- wp (if _ then _ else _) _ _ ?m => assert (admission admitted m) as Hi end.
  { split; simpl; [|exact A2]. intros k x [[_ <-]|[_ Hk]]%lookup_insert_Some; [done|by eapply A1]. }
  dstep; [by dstep|]. do 2 dstep. eapply wp_ends; [by apply respond_proof_admission|done..].
Qed.

Lemma handle_command_admission c n :
  admission admitted n -> ends (handle_command world c) (admission admitted) n.
Proof.
  intros A. destruct c as [id|id|ids|id|id|peer id|k proof|peers|]; simpl.
  - do 2 dstep. eapply wp_ends; [apply quiet_admission; [apply announce_quiet|done]|done..].
  - same_exec.
  - same_exec.
  - do 2 dstep. eapply wp_ends; [apply quiet_admission; [apply query_availability_quiet|done]|done..].
  - same_exec.
  - do 2 dstep. eapply wp_ends; [by apply request_proof_admission|done..].
  - do 2 dstep. eapply wp_ends; [by apply respond_proof_admission|done..].
  - dstep. dstep. dstep; [|by dstep]. dstep.
    eapply wp_ends; [apply quiet_admission; [apply replace_authorized_peers_quiet|done]|done..].
  - dstep. dstep. dstep; [|by dstep..]. dstep. unfold begin_drain. do 3 dstep.
    eapply wp_ends; [apply (wp_for_each _ _ _ (admission admitted)); [|done]| |done].
    { intros l s _ A'. same_exec. }
    intros [] s A'. same_exec.
Qed.

Lemma turn_admission i n :
  admission admitted n ->
  (forall peer q c, arrival i = Some (peer, q, c) -> peer ∈ authorized_peers (driver n) -> admitted peer c) ->
  ends (turn world i) (admission admitted) n.
Proof.
  intros A Hadm. unfold turn. dstep. apply (wp_ends _ (admission admitted)); [|clear A Hadm|done].
  - destruct i as [c|e|i| |]; simpl.
    + dstep. eapply wp_ends; [by apply handle_command_admission|done..].
    + dstep. destruct (match e with ProofExchange _ => true | _ => false end) eqn:Ee.
      2: { eapply wp_ends; [apply quiet_admission; [apply listen_quiet; by destruct e|done]|done..]. }
      destruct e as [| | | | |[peer q c|peer k response|peer k error|peer|]|]; try done; simpl.
      * eapply wp_ends; [apply handle_inbound_request_admission; [done|]|done..]. by eapply Hadm.
      * eapply wp_ends; [by apply (handle_outbound_admission n peer k)|done..].
      * eapply wp_ends; [by apply (handle_outbound_admission n peer k)|done..].
    + dstep. dstep. dstep; [|by dstep]. same_exec.
    + dstep. eapply wp_ends; [apply quiet_admission; [apply expire_queries_quiet|done]|done..].
    + dstep. dstep. dstep; by dstep.
  - intros stop s A. dstep. unfold finish_drain. same_exec.
Qed.

Lemma run_admission inputs n :
  admission admitted n ->
  (forall before i after peer q c, inputs = before ++ i :: after -> arrival i = Some (peer, q, c) ->
     peer ∈ authorized_peers (driver (snd (run world before n))) -> admitted peer c) ->
  ends (run world inputs) (admission admitted) n.
Proof.
  revert n. induction inputs as [|i inputs IH]; intros n A Hadm; simpl; [by dstep|]. dstep.
  pose proof (turn_admission i n A (fun peer q c Ei Hp => Hadm [] i inputs peer q c eq_refl Ei Hp)) as Ht.
  unfold wp in Ht |- * at 1. destruct (turn world i n) as [[[]|e] n'] eqn:En; [by dstep| |done].
  apply IH; [done|]. intros before j after peer q c -> Ej Hp. apply (Hadm (i :: before) j after peer q c); [done..|].
  simpl. unfold mbind, stm_bind. by rewrite En.
Qed.
End admission.

(** The peer's request came on the channel while the peer was in the set. *)
Definition admitted_at_arrival (d : Driver) (inputs : list Input) (peer : PeerId) (c : ResponseChannel) : Prop :=
  exists before i after q, inputs = before ++ i :: after /\ arrival i = Some (peer, q, c) /\
    peer ∈ authorized_peers (driver (snd (run world before (net_of d)))).

Lemma build_no_requests w cfg local authorized d b boot :
  Driver_build w cfg local authorized = Ok (d, b, boot) -> inbound_requests d = ∅.
Proof.
  unfold Driver_build. destruct (behaviour_build _ _ _) as [[b' topic]|]; simpl; [|done].
  destruct (bd_tcp w), (bd_dns w), (bd_with_behaviour w); simpl; try done.
  destruct (listen_all _ _ _ _); simpl; [|done]. destruct (group_bootnodes _ _ _); simpl; [|done].
  destruct (dial_all _ _); simpl; [|done]. by intros [= <- <- <-].
Qed.

(** A proof is sent to a peer that was in the set when it asked. *)
Lemma proofs_to_admitted w cfg local authorized d b boot inputs c r p :
  Driver_build w cfg local authorized = Ok (d, b, boot) ->
  ActSendResponse c r ∈ actions (snd (run world inputs (net_of d))) -> gps_result r = Some (ResultProof p) ->
  exists peer, admitted_at_arrival d inputs peer c.
Proof.
  intros Hb Hin Hr. assert (admission (admitted_at_arrival d inputs) (net_of d)) as A0.
  { split; simpl; [rewrite (build_no_requests _ _ _ _ _ _ _ Hb); intros k x; by rewrite lookup_empty|].
    intros c' r' w' Hc. by apply elem_of_nil in Hc. }
  assert (ends (run world inputs) (admission (admitted_at_arrival d inputs)) (net_of d)) as W.
  { apply run_admission; [done|]. intros before i after peer q c' E Ei Hp. exists before, i, after, q. done. }
  apply ends_snd in W as [_ W]. eapply W; [|exact Hr]. apply list_elem_of_omap. by exists (ActSendResponse c r).
Qed.

(** C23: only active validators are served. Gossip from or through a peer outside the set is
    reported as rejected and changes nothing; a proof request that arrives from such a peer is
    answered not-found at once and never reaches the application; no request is sent to one; and
    replacing the set removes the peers that leave it from the providers. Over a whole run, whatever
    the driver is sent, a proof is only ever sent in answer to a request that came from a peer in the
    set at that time; a peer that leaves the set while its request is pending still gets its
    answer. *)
Theorem strangers_ignored :
  (forall peer n, peer ∉ authorized_peers (driver n) ->
    (forall m, source m = Some peer \/ propagation_source m = peer ->
      handle_gossip world m n =
      (Ok tt, mkDNet (driver n) (S (dtick n)) (actions n ++ [ActReport false]) (emitted n))) /\
    (forall q c, handle_inbound_request world peer q c n =
      (Ok tt, mkDNet (driver n) (S (dtick n)) (actions n ++ [ActSendResponse c
        (not_found_response (p2p_chain_id (config (driver n))))]) (emitted n))) /\
    (forall id, request_proof world peer id n =
      (Err (if is_running (driver n) then P2pAuthorization ("refusing proof request to unauthorized peer "
        +:+ peer_to_string peer) else P2pDraining), n))) /\
  (forall peers n, let d' := driver (snd (replace_authorized_peers peers n)) in
    authorized_peers d' = peers ∖ {[local_peer (driver n)]} /\
    forall id p, provides (availability d') id p <-> provides (availability (driver n)) id p /\
      (p ∈ authorized_peers (driver n) -> p ∈ authorized_peers d')) /\
  (forall w cfg local authorized d b boot inputs c r p,
    Driver_build w cfg local authorized = Ok (d, b, boot) ->
    ActSendResponse c r ∈ actions (snd (run world inputs (net_of d))) -> gps_result r = Some (ResultProof p) ->
    exists peer, admitted_at_arrival d inputs peer c).
Proof.
  split; [|split; [intros peers n; exact (ends_snd _ _ _ (replace_authorized_effect peers n))|
    intros; by eapply proofs_to_admitted]].
  intros peer n Hp. split_and!.
  - intros m Hm. unfold handle_gossip, mbind, stm_bind. simpl.
    assert (exists e, validate_gossip (driver n) m = Err e) as [e He].
    { unfold validate_gossip. destruct (source m) as [s|]; [|eauto].
      destruct Hm as [[= ->]|Hm]; [by rewrite bool_decide_false; eauto|].
      rewrite Hm, (bool_decide_false (peer ∈ _)) by done. rewrite andb_false_r. eauto. }
    by rewrite He.
  - intros q c. unfold handle_inbound_request, mbind, stm_bind. simpl.
    destruct (negb _); [done|]. by rewrite bool_decide_false.
  - intros id. unfold request_proof, require_running, mbind, stm_bind. simpl.
    destruct (is_running _); [|done]. simpl. by rewrite bool_decide_false.
Qed.
End steps.

(** ** Witnesses *)

Section witnesses.
#[local] Existing Instance sample_libp2p.
#[local] Existing Instance sample_hex.
#[local] Existing Instance sample_sha256.
#[local] Existing Instance sample_varint.
#[local] Existing Instance sample_wire_proof_message.
#[local] Existing Instance sample_availability_message.
#[local] Existing Instance sample_multiaddrs.
#[local] Instance sample_formatting : Formatting := {|
  join_error_to_string _ := "task failed";
  str_debug s := s;
  socket_addr_to_string _ := "address"
|}.
#[local] Instance sample_swarm : SwarmTypes := {|
  ListenerId := nat;
  OutboundRequestId := nat;
  ResponseChannel := nat;
  publish_error_to_string _ := "not published"
|}.

Definition sample_world : SwarmWorld :=
  mkSwarmWorld (fun _ => 0) (fun _ => Ok tt) id (fun _ => true) (fun _ => sample_query_id) (fun _ => true).

Lemma sample_fresh i j : sw_send_request sample_world i = sw_send_request sample_world j -> i = j.
Proof. done. Qed.

Definition sample_p2p_config : P2pConfig :=
  mkP2pConfig true "c" ["listen"] [] "/key" 65536 1024 10 4 30 1 2 8 8.

Definition sample_build_world : BuildWorld :=
  mkBuildWorld (mkBehaviourWorld (Ok tt) (Ok tt) (fun _ => Ok tt)) (Ok tt) (Ok tt) (Ok tt) (fun i => Ok i)
    (fun _ _ => Ok tt).

Definition sample_driver : Driver :=
  mkDriver sample_p2p_config (Byte.x01 : PeerId) {[ (Byte.x02 : PeerId) ]} ∅ ∅ ∅ ∅ ∅ 1 1 []
    {[ 0%nat : ListenerId ]} {[ 0%nat : ListenerId ]} true Running.

Definition sample_behaviour : PulsarBehaviour :=
  mkBehaviour {[ (Byte.x02 : PeerId) ]} {[ (Byte.x02 : PeerId) ]} 65536
    "/pulsar/verifier/c/availability/1" (mkCodec 1030) PROOF_EXCHANGE_PROTOCOL 10
    "/pulsar/verifier/c/1" (from_secs 15) (from_secs 10).

Lemma sample_build : Driver_build sample_build_world sample_p2p_config (Byte.x01 : PeerId)
  {[ (Byte.x01 : PeerId); (Byte.x02 : PeerId) ]} = Ok (sample_driver, sample_behaviour, ∅).
Proof. vm_refl. Qed.

Definition sample_before : list Input :=
  [InCommand (CmdRequestProof (Byte.x02 : PeerId) zero_array); InCommand CmdDrain].
Definition sample_after : list Input :=
  [InSwarm (ProofExchange (ExResponse (Byte.x02 : PeerId) (0%nat : OutboundRequestId)
    (mkGetProofResponse "c" (Some ResultNotFound))))].

Lemma exchange_accounting_witness :
  let n := snd (run sample_world sample_before (net_of sample_driver)) in
  (fst <$> ended n) ++ outstanding (driver n) ≡ₚ issued (actions n).
Proof.
  exact (proj1 (exchange_accounting sample_world sample_fresh _ _ _ _ _ _ _ sample_before sample_build)).
Defined.

(** a request that arrives from the other validator is answered with its proof *)
Definition sample_exchange : list Input :=
  [InSwarm (ProofExchange (ExRequest (Byte.x02 : PeerId)
     (mkGetProofRequest "c" (as_bytes (verification_id sample_proof))) (5%nat : ResponseChannel)));
   InCommand (CmdRespondProof (mkInboundId 1) (Some sample_proof))].

Lemma sample_exchange_actions :
  actions (snd (run sample_world sample_exchange (net_of sample_driver))) =
  [ActSendResponse (5%nat : ResponseChannel)
    (mkGetProofResponse "c" (Some (ResultProof (wire_of_proof sample_proof))))].
Proof. vm_refl. Qed.

Lemma inbound_answered_once_witness :
  answer_ok sample_p2p_config (omap arrival sample_exchange) (5%nat : ResponseChannel)
    (mkGetProofResponse "c" (Some (ResultProof (wire_of_proof sample_proof)))).
Proof.
  apply (proj2 (inbound_answered_once sample_world sample_fresh _ _ _ _ _ _ _ sample_exchange sample_build)).
  rewrite sample_exchange_actions. by apply list_elem_of_singleton.
Defined.

Lemma drain_completes_witness :
  let n := snd (run sample_world sample_before (net_of sample_driver)) in
  let n' := snd (run sample_world sample_after n) in
  fst (run sample_world sample_after n) = Ok false /\ state (driver n') = Drained.
Proof.
  refine (let P := drain_completes sample_world sample_fresh _ _ _ _ _ _ _ sample_before sample_after
    sample_build _ _ _ in conj (proj1 P) (proj1 (proj2 P))).
  - intros Hin. apply list_elem_of_singleton in Hin. discriminate.
  - vm_compute. reflexivity.
  - vm_compute. repeat constructor.
Defined.

(** the authorized peer's request is answered with the proof, so it was admitted *)
Lemma strangers_ignored_witness :
  exists peer, admitted_at_arrival sample_world sample_driver sample_exchange peer (5%nat : ResponseChannel).
Proof.
  refine (proj2 (proj2 (strangers_ignored sample_world)) _ _ _ _ _ _ _ sample_exchange (5%nat : ResponseChannel)
    (mkGetProofResponse "c" (Some (ResultProof (wire_of_proof sample_proof)))) (wire_of_proof sample_proof)
    sample_build _ eq_refl).
  rewrite sample_exchange_actions. by apply list_elem_of_singleton.
Defined.
End witnesses.
