(* ===== verification/P2pWorker.v ===== *)
(** * The retrieval worker (src/src/p2p/worker.rs)

    The worker owns its state; what it awaits (the store, the driver's replies, the clock,
    random numbers) is answered by a [World], one answer per question, so that every
    interleaving with the other tasks is some world. Calls to the driver are logged. *)

From stdpp Require Import base gmap list strings.
From S2P Require Import Prelude Types Wire ProofId StoreRecord ConfigTypes Store Broadcast P2pTypes.

(** [1_u32.checked_shl(n)]. *)
Definition checked_shl_u32 (n : Z) : option Z :=
  if n <? 32 then Some (Z.shiftl 1 n mod 2 ^ 32) else None.

Definition retry_cap (initial maximum round : Z) : Z :=
  let multiplier := default u32_max (checked_shl_u32 (Z.min round 31)) in
  Z.min (duration_saturating_mul initial multiplier) maximum.

(** [u64::try_from(..).unwrap_or(u64::MAX)] of a number of nanoseconds. *)
Definition clamp_u64 (n : Z) : Z := if n <=? u64_max then n else u64_max.

(** [full_jitter], [random] being [rand::random_range(0..=n)]. *)
Definition full_jitter (random : Z -> Z) (cap remaining : Z) : Z :=
  random (clamp_u64 (Z.min cap remaining)).

Section worker.
Context `{Libp2p, Sha256, ProstVarint}.

Record RetrievalState : Type := mkRetrieval {
  discovery_deadline : option Instant;
  transfer_deadline : option Instant;
  attempted : gset PeerId;
  active : option (ProofRequestId * PeerId);
  query : option QueryId;
  retry_round : Z;
  timer_generation : Z;
  queued : bool;
  finished : bool
}.

Record RetrievalWake : Type := mkWake { wake_id : VerificationId; generation : Z }.

Record Worker : Type := mkWorker {
  local_peer_id : PeerId;
  max_concurrent_retrievals : Z;
  retrieval_timeout : Z;
  retrieval_initial_backoff : Z;
  retrieval_max_backoff : Z;
  retrievals : gmap VerificationId RetrievalState;
  pending : list VerificationId;
  active_retrievals : Z;
  (** the timers, each with its delay *)
  wakes : list (RetrievalWake * Z)
}.

(** A call of the worker's [DriverClient], with its result. *)
Inductive DriverCall : Type :=
| CallAnnounce (id : VerificationId) (r : Result unit)
| CallForget (id : VerificationId) (r : Result unit)
| CallReplaceLocal (ids : gset VerificationId) (r : Result unit)
| CallQuery (id : VerificationId) (r : Result QueryId)
| CallProviders (id : VerificationId) (r : Result (list PeerId))
| CallRequest (peer : PeerId) (id : VerificationId) (r : Result ProofRequestId)
| CallRespond (request_id : InboundProofRequestId) (proof : option Proof_) (r : Result unit).

(** The answers to the worker's questions, by the number of the question. *)
Record World : Type := mkWorld {
  world_now : nat -> Instant;
  world_get : nat -> VerificationId -> option (Arc ProofRecord);
  world_get_proof : nat -> VerificationId -> option Proof_;
  world_attach : nat -> VerificationId -> Proof_ -> PeerId -> Result StoreChange;
  world_local : nat -> list StoredProof;
  world_waiting : nat -> list StoredProof;
  world_unit : nat -> Result unit;
  world_providers : nat -> Result (list PeerId);
  world_request : nat -> Result ProofRequestId;
  world_query : nat -> Result QueryId;
  world_shuffle : nat -> list PeerId -> list PeerId;
  world_random : nat -> Z -> Z
}.

(** Why a handler did not return: its error, a panic, or too little fuel. *)
Inductive Fault : Type :=
| Fail (e : Error)
| Panic (what : string)
| OutOfFuel.

Record Net : Type := mkNet { wk : Worker; tick : nat; calls : list DriverCall }.

Abbreviation netM := (stm Net Fault).

Context (world : World).

(** A question to the world, and a call of the driver with its reply. *)
Definition ask {A} (f : nat -> A) : netM A := fun n =>
  (Ok (f (tick n)), mkNet (wk n) (S (tick n)) (calls n)).

Definition call {A} (c : A -> DriverCall) (f : nat -> A) : netM A := fun n =>
  (Ok (f (tick n)), mkNet (wk n) (S (tick n)) (calls n ++ [c (f (tick n))])).

(** [?] *)
Definition try_ {A} (r : Result A) : netM A :=
  match r with Ok a => mret a | Err e => throw (Fail e) end.

Definition get_worker : netM Worker := fun n => (Ok (wk n), n).
Definition update (f : Worker -> Worker) : netM unit :=
  modify (fun n => mkNet (f (wk n)) (tick n) (calls n)).

Definition set_retrievals (m : gmap VerificationId RetrievalState) (w : Worker) : Worker :=
  mkWorker (local_peer_id w) (max_concurrent_retrievals w) (retrieval_timeout w)
    (retrieval_initial_backoff w) (retrieval_max_backoff w) m (pending w) (active_retrievals w)
    (wakes w).
Definition set_pending (l : list VerificationId) (w : Worker) : Worker :=
  mkWorker (local_peer_id w) (max_concurrent_retrievals w) (retrieval_timeout w)
    (retrieval_initial_backoff w) (retrieval_max_backoff w) (retrievals w) l (active_retrievals w)
    (wakes w).
Definition set_active_retrievals (n : Z) (w : Worker) : Worker :=
  mkWorker (local_peer_id w) (max_concurrent_retrievals w) (retrieval_timeout w)
    (retrieval_initial_backoff w) (retrieval_max_backoff w) (retrievals w) (pending w) n (wakes w).
Definition set_wakes (l : list (RetrievalWake * Z)) (w : Worker) : Worker :=
  mkWorker (local_peer_id w) (max_concurrent_retrievals w) (retrieval_timeout w)
    (retrieval_initial_backoff w) (retrieval_max_backoff w) (retrievals w) (pending w)
    (active_retrievals w) l.
Definition put_state_of (id : VerificationId) (st : RetrievalState) (w : Worker) : Worker :=
  set_retrievals (<[id := st]> (retrievals w)) w.

(** Updates of one retrieval. *)
Definition with_deadlines (discovery transfer : option Instant) (st : RetrievalState) : RetrievalState :=
  mkRetrieval discovery transfer (attempted st) (active st) (query st) (retry_round st)
    (timer_generation st) (queued st) (finished st).
Definition with_attempted (peer : PeerId) (st : RetrievalState) : RetrievalState :=
  mkRetrieval (discovery_deadline st) (transfer_deadline st) ({[peer]} ∪ attempted st) (active st)
    (query st) (retry_round st) (timer_generation st) (queued st) (finished st).
Definition with_active (a : option (ProofRequestId * PeerId)) (st : RetrievalState) : RetrievalState :=
  mkRetrieval (discovery_deadline st) (transfer_deadline st) (attempted st) a (query st)
    (retry_round st) (timer_generation st) (queued st) (finished st).
Definition with_query (q : option QueryId) (st : RetrievalState) : RetrievalState :=
  mkRetrieval (discovery_deadline st) (transfer_deadline st) (attempted st) (active st) q
    (retry_round st) (timer_generation st) (queued st) (finished st).
Definition with_queued (b : bool) (st : RetrievalState) : RetrievalState :=
  mkRetrieval (discovery_deadline st) (transfer_deadline st) (attempted st) (active st) (query st)
    (retry_round st) (timer_generation st) b (finished st).
(** [timer_generation.wrapping_add(1)] *)
Definition bump_timer (st : RetrievalState) : RetrievalState :=
  mkRetrieval (discovery_deadline st) (transfer_deadline st) (attempted st) (active st) (query st)
    (retry_round st) ((timer_generation st + 1) mod 2 ^ 64) (queued st) (finished st).
(** [retry_round.saturating_add(1)] *)
Definition bump_round (st : RetrievalState) : RetrievalState :=
  mkRetrieval (discovery_deadline st) (transfer_deadline st) (attempted st) (active st) (query st)
    (saturating_add u32_max (retry_round st) 1) (timer_generation st) (queued st) (finished st).
Definition with_finished (st : RetrievalState) : RetrievalState :=
  mkRetrieval (discovery_deadline st) (transfer_deadline st) (attempted st) (active st) (query st)
    (retry_round st) (timer_generation st) (queued st) true.

Definition new_retrieval : RetrievalState :=
  mkRetrieval None None ∅ None None 0 0 false false.

(** [Worker::new]. *)
Definition Worker_new (peer : PeerId) (max timeout initial maximum : Z) : Worker :=
  mkWorker peer max timeout initial maximum ∅ [] 0 [].

Definition active_deadline (st : RetrievalState) : option Instant :=
  match transfer_deadline st with Some d => Some d | None => discovery_deadline st end.

(** [deadline.is_some_and(|deadline| Instant::now() >= deadline)] *)
Definition passed (deadline : option Instant) : netM bool :=
  match deadline with
  | Some d => now ← ask (world_now world); mret (d <=? now)
  | None => mret false
  end.

Definition enqueue (id : VerificationId) (w : Worker) : Worker :=
  match retrievals w !! id with
  | None => w
  | Some st =>
      if queued st || is_some (active st) || finished st then w
      else set_pending (pending w ++ [id]) (put_state_of id (with_queued true st) w)
  end.

Definition stop_retrieval (id : VerificationId) (w : Worker) : Worker :=
  match retrievals w !! id with
  | None => w
  | Some st =>
      let st' := bump_timer (with_query None (with_queued false (with_finished st))) in
      if is_none (active st') then set_retrievals (delete id (retrievals w)) w
      else put_state_of id st' w
  end.

Definition clear_query (id : VerificationId) (w : Worker) : Worker :=
  match retrievals w !! id with
  | None => w
  | Some st => put_state_of id (bump_timer (with_query None st)) w
  end.

Definition schedule_retry (id : VerificationId) : netM unit :=
  w ← get_worker;
  match retrievals w !! id with
  | None => mret tt
  | Some st =>
      let cap := retry_cap (retrieval_initial_backoff w) (retrieval_max_backoff w) (retry_round st) in
      match active_deadline st with
      | None => throw (Panic "scheduled retrieval retry has an active deadline")
      | Some deadline =>
          now ← ask (world_now world);
          let remaining := saturating_sub deadline now in
          delay ← ask (fun k => full_jitter (world_random world k) cap remaining);
          let st' := bump_timer (bump_round st) in
          update (fun w => set_wakes (wakes w ++ [(mkWake id (timer_generation st'), delay)])
            (put_state_of id st' w))
      end
  end.

(** The rest of [try_retrieve]'s loop body after a provider was chosen; [true] for
    [continue]. *)
Definition request_from (id : VerificationId) (peer : PeerId) : netM bool :=
  w ← get_worker;
  late ← passed (retrievals w !! id ≫= transfer_deadline);
  if (late : bool) then update (stop_retrieval id) ≫= fun _ => mret false
  else if max_concurrent_retrievals w <=? active_retrievals w then
    update (enqueue id) ≫= fun _ => mret false
  else
    reply ← call (CallRequest peer id) (world_request world);
    match reply with
    | Ok request_id =>
        w ← get_worker;
        match retrievals w !! id with
        | None => mret false
        | Some st =>
            deadline ← match transfer_deadline st with
                       | Some d => mret d
                       | None => now ← ask (world_now world); mret (now + retrieval_timeout w)
                       end;
            let st' := with_active (Some (request_id, peer)) (bump_timer (with_query None
              (with_deadlines (discovery_deadline st) (Some deadline) st))) in
            update (fun w => set_active_retrievals (active_retrievals w + 1) (put_state_of id st' w))
              ≫= fun _ => mret false
        end
    | Err (P2pAuthorization _) =>
        update (fun w => match retrievals w !! id with
                         | Some st => put_state_of id (with_attempted peer st) w
                         | None => w
                         end) ≫= fun _ => mret true
    | Err P2pDraining => update (stop_retrieval id) ≫= fun _ => mret false
    | Err e => throw (Fail e)
    end.

(** The part of [try_retrieve] without a provider left. *)
Definition search_providers (id : VerificationId) : netM unit :=
  w ← get_worker;
  if is_some (retrievals w !! id ≫= query) then mret tt
  else
    late ← passed (retrievals w !! id ≫= active_deadline);
    if (late : bool) then update (stop_retrieval id)
    else
      reply ← call (CallQuery id) (world_query world);
      match reply with
      | Ok query_id =>
          w ← get_worker;
          match retrievals w !! id with
          | None => mret tt
          | Some st =>
              deadline ← match discovery_deadline st with
                         | Some d => mret d
                         | None => now ← ask (world_now world); mret (now + retrieval_timeout w)
                         end;
              update (put_state_of id (with_query (Some query_id)
                (with_deadlines (Some deadline) (transfer_deadline st) st)))
          end ≫= fun _ => schedule_retry id
      | Err P2pDraining => update (stop_retrieval id)
      | Err e => throw (Fail e)
      end.

(** [try_retrieve]: at most [fuel] rounds of its loop. *)
Fixpoint try_retrieve (fuel : nat) (id : VerificationId) : netM unit :=
  match fuel with
  | O => throw OutOfFuel
  | S fuel' =>
      w ← get_worker;
      let tried := default ∅ (attempted <$> retrievals w !! id) in
      reply ← call (CallProviders id) (world_providers world);
      providers ← try_ reply;
      let candidates := filter (fun peer => peer <> local_peer_id w /\ peer ∉ tried) providers in
      candidates ← ask (fun k => world_shuffle world k candidates);
      match last candidates with
      | Some peer => again ← request_from id peer; if (again : bool) then try_retrieve fuel' id else mret tt
      | None => search_providers id
      end
  end.

Context (fuel : nat).

(** [drive_pending]: each round takes one identifier from [pending]. *)
Fixpoint drive_loop (rounds : nat) : netM unit :=
  match rounds with
  | O => throw OutOfFuel
  | S rounds' =>
      w ← get_worker;
      if negb (active_retrievals w <? max_concurrent_retrievals w) then mret tt
      else match pending w with
      | [] => mret tt
      | id :: rest =>
          _ ← update (set_pending rest);
          match retrievals w !! id with
          | None => drive_loop rounds'
          | Some st =>
              _ ← update (put_state_of id (with_queued false st));
              if finished st || is_some (active st) then drive_loop rounds'
              else try_retrieve fuel id ≫= fun _ => drive_loop rounds'
          end
      end
  end.

Definition drive_pending : netM unit :=
  w ← get_worker; drive_loop (S (length (pending w))).

Definition ensure_retrieval (id : VerificationId) : netM unit :=
  record ← ask (fun k => world_get world k id);
  let waiting := match record with
                 | Some a => waiting_for_content (arc_value a)
                 | None => false
                 end in
  if negb waiting then update (stop_retrieval id)
  else
    _ ← update (fun w => match retrievals w !! id with
                         | Some _ => w
                         | None => put_state_of id new_retrieval w
                         end);
    _ ← update (enqueue id);
    drive_pending.

Definition handle_wake (wake : RetrievalWake) : netM unit :=
  let id := wake_id wake in
  w ← get_worker;
  match retrievals w !! id with
  | None => mret tt
  | Some st =>
      if negb (timer_generation st =? generation wake) || finished st then mret tt
      else
        _ ← update (put_state_of id (with_query None st));
        late ← passed (active_deadline st);
        if (late : bool) then update (stop_retrieval id)
        else update (enqueue id) ≫= fun _ => drive_pending
  end.

(** A timer fires: [wakes.next()] and the handler. *)
Definition fire (i : nat) : netM unit :=
  w ← get_worker;
  match wakes w !! i with
  | None => mret tt
  | Some (wake, _) => update (set_wakes (delete i (wakes w))) ≫= fun _ => handle_wake wake
  end.

Definition finish_request (id : VerificationId) (request_id : ProofRequestId) (peer : PeerId)
  (succeeded : bool) : netM unit :=
  w ← get_worker;
  match retrievals w !! id with
  | None => mret tt
  | Some st =>
      if negb (bool_decide (active st = Some (request_id, peer))) then mret tt
      else
        let st' := with_active None st in
        if active_retrievals w <? 1 then throw (Panic "tracked proof request owns one retrieval slot")
        else
          _ ← update (fun w => set_active_retrievals (active_retrievals w - 1) (put_state_of id st' w));
          late ← (if succeeded || finished st' then mret true else passed (active_deadline st'));
          if (late : bool) then update (fun w => set_retrievals (delete id (retrievals w)) w)
          else update (fun w => enqueue id (put_state_of id (with_attempted peer st') w))
  end.

Definition reconcile_store : netM unit :=
  local ← ask (world_local world);
  reply ← call (CallReplaceLocal (list_to_set (map stored_id local))) (world_unit world);
  _ ← try_ reply;
  _ ← for_each (fun p => reply ← call (CallAnnounce (stored_id p)) (world_unit world); try_ reply) local;
  waiting ← ask (world_waiting world);
  w ← get_worker;
  _ ← for_each (fun id =>
        if bool_decide (id ∈ map stored_id waiting) then mret tt else update (stop_retrieval id))
      (map fst (map_to_list (retrievals w)));
  for_each (fun p => ensure_retrieval (stored_id p)) waiting.

Definition drive_unless (draining : bool) : netM unit :=
  if draining then mret tt else drive_pending.

Definition handle_driver_event (event : DriverEvent) (draining : bool) : netM unit :=
  match event with
  | ProofRequested request_id _ id =>
      proof ← ask (fun k => world_get_proof world k id);
      reply ← call (CallRespond request_id proof) (world_unit world);
      try_ reply
  | ProofReceived request_id peer id proof =>
      stored ← ask (fun k => world_attach world k id proof peer);
      _ ← match stored with
          | Ok _ => finish_request id request_id peer true
          | Err (VerificationIdMismatch _) | Err (ProofTooLarge _ _ _) =>
              finish_request id request_id peer false
          | Err (ProofNotObserved _) =>
              finish_request id request_id peer true ≫= fun _ => update (stop_retrieval id)
          | Err e => throw (Fail e)
          end;
      drive_unless draining
  | ProofNotFound request_id peer id | ProofRequestFailed request_id peer id _ =>
      _ ← finish_request id request_id peer false;
      drive_unless draining
  | AvailabilityAnnounced peer id =>
      if draining then mret tt
      else
        w ← get_worker;
        let tried := match retrievals w !! id with
                     | Some st => bool_decide (peer ∈ attempted st)
                     | None => false
                     end in
        if tried then mret tt else ensure_retrieval id
  | ProvidersDiscovered query_id id _ =>
      if draining then mret tt
      else
        w ← get_worker;
        let matches := match retrievals w !! id with
                       | Some st => bool_decide (query st = Some query_id)
                       | None => false
                       end in
        if matches
        then update (clear_query id) ≫= fun _ => update (enqueue id) ≫= fun _ => drive_pending
        else mret tt
  | PeerConnected _ => if draining then mret tt else reconcile_store
  | Listening _ | PeerDisconnected _ => mret tt
  end.

Definition handle_store_event (event : ProofStoreEvent) (draining : bool) : netM unit :=
  if draining then mret tt
  else match event with
  | VerificationObserved id => ensure_retrieval id
  | ProofStored id _ =>
      _ ← update (stop_retrieval id);
      reply ← call (CallAnnounce id) (world_unit world);
      _ ← try_ reply;
      drive_pending
  | ProofEvicted id _ =>
      _ ← update (stop_retrieval id);
      reply ← call (CallForget id) (world_unit world);
      _ ← try_ reply;
      drive_pending
  | VerificationChanged id _ =>
      _ ← update (stop_retrieval id);
      drive_pending
  end.

Definition handle_store_result (event : result RecvError ProofStoreEvent) (draining : bool)
  : netM unit :=
  match event with
  | Ok event => handle_store_event event draining
  | Err (Lagged _) => if draining then mret tt else reconcile_store
  | Err Closed => throw (Fail (ProofStoreError "proof store event channel closed"))
  end.

(** What the [select!] of [run] does while the token is not cancelled; a driver event is
    [None] when the channel is closed. *)
Inductive turn : Type :=
| TurnDriver (event : option DriverEvent)
| TurnStore (event : result RecvError ProofStoreEvent)
| TurnWake (i : nat).

Definition take_turn (t : turn) : netM unit :=
  match t with
  | TurnDriver (Some event) => handle_driver_event event false
  | TurnDriver None => throw (Fail P2pDriverClosed)
  | TurnStore event => handle_store_result event false
  | TurnWake i => fire i
  end.

(** [run] up to cancellation: the initial reconciliation, then the turns. *)
Definition run_turns (turns : list turn) : netM unit :=
  _ ← reconcile_store; for_each take_turn turns.

(** [drain], on what is in the channels in each round of its outer loop; [None] is a
    disconnected driver channel. *)
Definition drain (rounds : list (list (option DriverEvent) * list (result RecvError ProofStoreEvent)))
  : netM unit :=
  _ ← update (fun w => set_wakes [] (set_pending [] w));
  for_each (fun '(driver_events, store_events) =>
    _ ← for_each (fun e => match e with
                           | Some event => handle_driver_event event true
                           | None => throw (Fail P2pDriverClosed)
                           end) driver_events;
    for_each (fun e => match e with
                       | Ok event => handle_store_event event true
                       | Err (Lagged _) => mret tt
                       | Err Closed => throw (Fail (ProofStoreError "proof store event channel closed"))
                       end) store_events) rounds.
End worker.
