(* ===== verification/P2pWorkerProps.v ===== *)
(** * The retrieval worker: slots, liveness, termination, drain

    In every world each turn of the worker keeps its slot accounting, never panics, leaves
    no retrieval without a way to make progress, and uses every free slot while work is
    pending. *)

From stdpp Require Import base gmap list strings fin_maps.
From S2P Require Import Prelude Types Wire Samples ProofId StoreRecord ConfigTypes Store Broadcast.
From S2P Require Import P2pTypes P2pWorker.

(** ** Back-off *)

Lemma retry_cap_value initial maximum round :
  0 <= initial -> 0 <= maximum -> 0 <= round ->
  retry_cap initial maximum round =
    Z.min (Z.min (initial * 2 ^ Z.min round 31) duration_max) maximum.
Proof.
  intros Hi Hm Hr. unfold retry_cap, checked_shl_u32.
  rewrite (proj2 (Z.ltb_lt (Z.min round 31) 32)) by lia. simpl.
  rewrite Z.shiftl_1_l, Z.mod_small.
  2: { split; [apply Z.pow_nonneg; lia|apply Z.pow_lt_mono_r; lia]. }
  unfold duration_saturating_mul, duration_checked_mul.
  destruct (Z.leb_spec (initial * 2 ^ Z.min round 31) duration_max); simpl; lia.
Qed.

Lemma flat_map_nil {A B} (l : list A) : flat_map (fun _ => @nil B) l = [].
Proof. by induction l. Qed.

Section props.
Context `{Libp2p, Sha256, ProstVarint} {limit : Z}.

(** ** The invariant *)

(** The identifiers that hold a slot. *)
Definition actives (m : gmap VerificationId RetrievalState) : gset VerificationId :=
  dom (filter (fun '(_, st) => is_some (active st) = true) m).

(** A timer of the current generation is running. *)
Definition live (w : Worker) (id : VerificationId) (st : RetrievalState) : Prop :=
  exists d, (mkWake id (timer_generation st), d) ∈ wakes w.

(** One retrieval; [x] is the one being worked on, which need not have a way on yet. *)
Record st_ok (x : option VerificationId) (w : Worker) (id : VerificationId) (st : RetrievalState)
  : Prop := {
  ok_finished : finished st = true -> active st <> None /\ query st = None;
  ok_queued : queued st = true -> id ∈ pending w;
  ok_query : query st <> None -> live w id st;
  ok_live : x <> Some id -> finished st = false -> queued st = true \/ active st <> None \/ live w id st
}.

Record count_inv (w : Worker) : Prop := {
  ci_count : active_retrievals w = Z.of_nat (size (actives (retrievals w)));
  ci_bound : active_retrievals w <= Z.max 0 limit;
  ci_limit : max_concurrent_retrievals w = limit
}.

Definition slots_inv (x : option VerificationId) (w : Worker) : Prop :=
  count_inv w /\ forall id st, retrievals w !! id = Some st -> st_ok x w id st.

(** No slot is free while an identifier is pending. *)
Definition driven (w : Worker) : Prop :=
  pending w = [] \/ max_concurrent_retrievals w <= active_retrievals w.

Definition same_limits (w w' : Worker) : Prop :=
  local_peer_id w' = local_peer_id w /\
  max_concurrent_retrievals w' = max_concurrent_retrievals w.

Lemma elem_of_actives m id :
  id ∈ actives m <-> exists st, m !! id = Some st /\ is_some (active st) = true.
Proof.
  unfold actives. rewrite elem_of_dom. unfold is_Some. split.
  - intros [st [Hl Ha]%map_lookup_filter_Some]. by exists st.
  - intros (st & ? & ?). exists st. by rewrite map_lookup_filter_Some.
Qed.

Lemma elem_of_actives_insert m id st id' :
  id' ∈ actives (<[id := st]> m) <->
  id' = id /\ is_some (active st) = true \/ id' <> id /\ id' ∈ actives m.
Proof.
  rewrite !elem_of_actives. destruct (decide (id' = id)) as [->|Hne].
  - rewrite lookup_insert_eq. split.
    + intros (st' & [= <-] & Ha). by left.
    + intros [[_ Ha]|[? _]]; [by exists st|done].
  - rewrite lookup_insert_ne by done. split; [by right|]. by intros [[? _]|[_ ?]].
Qed.

Lemma actives_insert m id st :
  actives (<[id := st]> m) =
    if is_some (active st) then {[id]} ∪ actives m else actives m ∖ {[id]}.
Proof.
  apply set_eq. intros id'. rewrite elem_of_actives_insert.
  destruct (decide (id' = id)), (is_some (active st)); set_solver.
Qed.

Lemma actives_delete m id : actives (delete id m) = actives m ∖ {[id]}.
Proof.
  apply set_eq. intros id'. rewrite elem_of_difference, elem_of_singleton, !elem_of_actives.
  destruct (decide (id' = id)) as [->|Hne].
  - rewrite lookup_delete_eq. split; [by intros (? & ? & ?)|tauto].
  - rewrite lookup_delete_ne by done. tauto.
Qed.

Lemma not_active m id st : m !! id = Some st -> is_some (active st) = false -> id ∉ actives m.
Proof. intros Hl Ha (st' & Hl' & Ha')%elem_of_actives. congruence. Qed.

Lemma actives_same m id st st' :
  m !! id = Some st -> is_some (active st') = is_some (active st) ->
  actives (<[id := st']> m) = actives m.
Proof.
  intros Hl E. rewrite actives_insert, E. destruct (is_some (active st)) eqn:Ea.
  - assert (id ∈ actives m) by (apply elem_of_actives; eauto). set_solver.
  - assert (id ∉ actives m) by by eapply not_active. set_solver.
Qed.

Lemma is_active m id st : m !! id = Some st -> is_some (active st) = true -> id ∈ actives m.
Proof. intros. apply elem_of_actives. eauto. Qed.

Lemma st_ok_mono x x' w w' id st :
  st_ok x w id st -> (x' <> Some id -> x <> Some id) ->
  (id ∈ pending w -> id ∈ pending w') -> (live w id st -> live w' id st) -> st_ok x' w' id st.
Proof. intros [O1 O2 O3 O4] Hx Hp Hl. split; auto. intros ??. destruct O4 as [?|[?|?]]; auto. Qed.

(** The condition on the exempt identifier, when it is the one at hand or none. *)
Ltac others Hx := intros; destruct Hx; congruence.

(** Replacing one retrieval by another with the same slot. *)
Lemma slots_put x x' w w' id st st' :
  slots_inv x w -> retrievals w !! id = Some st -> is_some (active st') = is_some (active st) ->
  retrievals w' = <[id := st']> (retrievals w) -> active_retrievals w' = active_retrievals w ->
  same_limits w w' -> (forall id', id' <> id -> id' ∈ pending w -> id' ∈ pending w') ->
  (forall e, e ∈ wakes w -> e ∈ wakes w') ->
  (forall id', id' <> id -> x' <> Some id' -> x <> Some id') ->
  st_ok x' w' id st' -> slots_inv x' w'.
Proof.
  intros [[C1 C2 C3] Hs] Hl Ea Er Eact [_ Em] Hp Hw Hx Hok. split; [split|].
  - rewrite Eact, Er. by erewrite actives_same.
  - by rewrite Eact.
  - by rewrite Em.
  - intros id' st0. rewrite Er, lookup_insert. case_decide as Hd.
    + subst. by intros [= <-].
    + intros Hl'. eapply st_ok_mono; [by apply Hs|by apply Hx|by apply Hp|].
      intros [d Hin]. exists d. by apply Hw.
Qed.

Lemma slots_delete x x' w id :
  slots_inv x w -> (forall st, retrievals w !! id = Some st -> is_some (active st) = false) ->
  (forall id', id' <> id -> x' <> Some id' -> x <> Some id') ->
  slots_inv x' (set_retrievals (delete id (retrievals w)) w).
Proof.
  intros [[C1 C2 C3] Hs] Hna Hx. split; [split; simpl; [|done|done]|].
  - rewrite actives_delete, difference_disjoint_L; [done|].
    rewrite disjoint_singleton_r, elem_of_actives. intros (st & Hl & Ha).
    by rewrite (Hna st Hl) in Ha.
  - intros id' st. simpl. rewrite lookup_delete_Some. intros [Hne Hl].
    eapply st_ok_mono; [by apply Hs|by apply Hx|done|done].
Qed.

Lemma enqueue_inv x w id :
  slots_inv x w -> x = None \/ x = Some id ->
  (forall st, retrievals w !! id = Some st -> x = Some id -> finished st = true -> False) ->
  slots_inv None (enqueue id w).
Proof.
  intros [C Hs] Hx Hf. unfold enqueue. destruct (retrievals w !! id) as [st|] eqn:El.
  2: { split; [done|]. intros id' st' Hl'. eapply st_ok_mono; [by apply Hs|others Hx|done|done]. }
  pose proof (Hs id st El) as Hok.
  destruct (queued st || is_some (active st) || finished st) eqn:Eq.
  - split; [done|]. intros id' st' Hl'. destruct (decide (id' = id)) as [->|Hne].
    + simplify_eq. destruct Hok as [O1 O2 O3 O4]. split; try done. intros _ Hfin.
      destruct (queued st); [by left|]. rewrite Hfin in Eq.
      destruct (active st); [right; left; done|done].
    + eapply st_ok_mono; [by apply Hs|others Hx|done|done].
  - eapply (slots_put x None w _ id st (with_queued true st)); try done; [|others Hx|].
    { intros id' _ Hin. simpl. apply elem_of_app. by left. }
    destruct Hok as [O1 O2 O3 O4]. split; simpl; [done| |done|by left].
    intros _. apply elem_of_app. right. by apply list_elem_of_singleton.
Qed.

Lemma stop_retrieval_inv x w id :
  slots_inv x w -> x = None \/ x = Some id -> slots_inv None (stop_retrieval id w).
Proof.
  intros Hi Hx. unfold stop_retrieval. destruct (retrievals w !! id) as [st|] eqn:El.
  - simpl. destruct (active st) as [a|] eqn:Ea; simpl.
    + eapply (slots_put x None w _ id st (bump_timer (with_query None (with_queued false (with_finished st)))));
        try done; [others Hx|].
      split; simpl; try done. by rewrite Ea.
    + eapply slots_delete; [done|intros st' ?; simplify_eq; by rewrite Ea|others Hx].
  - destruct Hi as [C Hs]. split; [done|]. intros id' st' Hl'.
    eapply st_ok_mono; [by apply Hs|others Hx|done|done].
Qed.
(** ** Ending a request *)

Lemma finish_count w id st :
  count_inv w -> retrievals w !! id = Some st -> active st <> None ->
  1 <= active_retrievals w /\
  (forall m, (forall x, x ∈ actives m <-> x ∈ actives (retrievals w) /\ x <> id) ->
    active_retrievals w - 1 = Z.of_nat (size (actives m))).
Proof.
  intros [C1 C2 C3] L Ha.
  assert (id ∈ actives (retrievals w)) as Hin by (eapply is_active; [done|by destruct (active st)]).
  assert (forall m, (forall x, x ∈ actives m <-> x ∈ actives (retrievals w) /\ x <> id) ->
    size (actives (retrievals w)) = S (size (actives m))) as Hm.
  { intros m Hm. assert (actives (retrievals w) = {[id]} ∪ actives m) as ->.
    { apply set_eq. intros x. rewrite elem_of_union, elem_of_singleton, Hm.
      destruct (decide (x = id)) as [->|]; tauto. }
    rewrite size_union, size_singleton; [lia|]. rewrite disjoint_singleton_l, Hm. tauto. }
  split.
  - rewrite C1, (Hm (delete id (retrievals w))); [lia|].
    intros x. rewrite actives_delete. set_solver.
  - intros m Hx. rewrite C1, (Hm m Hx). lia.
Qed.

(** Removing a retrieval that held a slot. *)
Lemma finish_remove w id st :
  slots_inv None w -> retrievals w !! id = Some st -> active st <> None ->
  slots_inv None (set_active_retrievals (active_retrievals w - 1)
    (set_retrievals (delete id (retrievals w)) w)).
Proof.
  intros [C Hs] L Ha. destruct (finish_count w id st C L Ha) as [Hpos Hc]. destruct C as [C1 C2 C3].
  split; [split; simpl|].
  - apply Hc. intros x. rewrite actives_delete. set_solver.
  - lia.
  - done.
  - intros id' st'. simpl. rewrite lookup_delete_Some. intros [_ Hl].
    eapply st_ok_mono; [by apply Hs|done|done|done].
Qed.

(** Keeping it, to be tried with another provider. *)
Lemma finish_keep w id st p :
  slots_inv None w -> retrievals w !! id = Some st -> active st <> None -> finished st = false ->
  slots_inv None (enqueue id (put_state_of id (with_attempted p (with_active None st))
    (set_active_retrievals (active_retrievals w - 1) w))).
Proof.
  intros [C Hs] L Ha Hf. destruct (finish_count w id st C L Ha) as [Hpos Hc]. destruct C as [C1 C2 C3].
  apply (enqueue_inv (Some id)); [|by right|].
  - split; [split; simpl|].
    + apply Hc. intros x. rewrite actives_insert. simpl. set_solver.
    + lia.
    + done.
    + intros id' st'. simpl. rewrite lookup_insert. case_decide as Hd.
      * subst. intros [= <-]. pose proof (Hs _ _ L) as [O1 O2 O3 O4]. split; simpl; try done.
        by rewrite Hf.
      * intros Hl'. eapply st_ok_mono; [by apply Hs|done|done|done].
  - intros st'. simpl. rewrite lookup_insert_eq. intros [= <-]. simpl. congruence.
Qed.

(** ** Reasoning about the worker's programs *)

Abbreviation netM := (stm Net Fault).

(** A program, on the worker's state only, whatever was asked and called before; the one
    allowed fault is an error that [run] returns. *)
Definition wpw {A} (m : netM A) (P : A -> Worker -> Prop) (w : Worker) : Prop :=
  forall t c, wp m (fun a n' => P a (wk n')) (fun f _ => exists e, f = Fail e) (mkNet w t c).

Lemma wpw_ret {A} (a : A) P w : P a w -> wpw (mret a) P w.
Proof. by intros ? t c. Qed.

Lemma wpw_bind {A B} (m : netM A) (k : A -> netM B) P w :
  wpw m (fun a w' => wpw (k a) P w') w -> wpw (m ≫= k) P w.
Proof.
  intros Hm t c. apply wp_bind. eapply wp_mono; [exact (Hm t c)|].
  intros a [w' t' c'] Hk. exact (Hk t' c').
Qed.

Lemma wpw_mono {A} (m : netM A) (P P' : A -> Worker -> Prop) w :
  wpw m P w -> (forall a w', P a w' -> P' a w') -> wpw m P' w.
Proof. intros Hm HP t c. eapply wp_mono; [exact (Hm t c)|]. simpl. auto. Qed.

Lemma wpw_get {B} (k : Worker -> netM B) P w : wpw (k w) P w -> wpw (get_worker ≫= k) P w.
Proof. intros Hk t c. exact (Hk t c). Qed.

Lemma wpw_ask {A B} (f : nat -> A) (k : A -> netM B) P w :
  (forall i, wpw (k (f i)) P w) -> wpw (ask f ≫= k) P w.
Proof. intros Hk t c. exact (Hk t (S t) c). Qed.

Lemma wpw_call {A B} (call_ : A -> DriverCall) (f : nat -> A) (k : A -> netM B) P w :
  (forall i, wpw (k (f i)) P w) -> wpw (call call_ f ≫= k) P w.
Proof. intros Hk t c. exact (Hk t (S t) (c ++ [call_ (f t)])). Qed.

Lemma wpw_try {A} (r : Result A) P w : (forall a, r = Ok a -> P a w) -> wpw (try_ r) P w.
Proof. intros Hk t c. destruct r as [a|e]; [by apply Hk|]. by exists e. Qed.

Lemma wpw_update g P w : P tt (g w) -> wpw (update g) P w.
Proof. by intros ? t c. Qed.

Lemma wpw_update_bind {B} g (k : unit -> netM B) P w : wpw (k tt) P (g w) -> wpw (update g ≫= k) P w.
Proof. intros Hk t c. exact (Hk t c). Qed.

Lemma wpw_fail {A} e P w : wpw (A := A) (throw (Fail e)) P w.
Proof. intros t c. by exists e. Qed.

Lemma wpw_passed world d P w : (forall b, P b w) -> wpw (passed world d) P w.
Proof.
  intros Hk. unfold passed. destruct d as [d|]; [|by apply wpw_ret].
  apply wpw_ask. intros i. by apply wpw_ret.
Qed.

Lemma wpw_for_each {A} (f : A -> netM unit) (l : list A) (I : Worker -> Prop) w :
  (forall a w, a ∈ l -> I w -> wpw (f a) (fun _ => I) w) -> I w ->
  wpw (for_each f l) (fun _ => I) w.
Proof.
  intros Hf HI t c. apply (wp_for_each _ f l (fun n => I (wk n))); [|done].
  intros a [w' t' c'] Ha Hs. by apply Hf.
Qed.
End props.

(** One step of a program. *)
Ltac wstep :=
  first
    [ apply wpw_get
    | apply wpw_ask; intros ?
    | apply wpw_call; intros ?
    | apply wpw_update_bind
    | apply wpw_bind, wpw_try; intros
    | apply wpw_bind, wpw_passed; intros []
    | apply wpw_try; intros
    | apply wpw_update
    | apply wpw_ret
    | apply wpw_fail ].

Section turns.
Context `{Libp2p, Sha256, ProstVarint} {limit : Z} (world : World) (fuel : nat) (peers : gset PeerId).
(** The driver's provider lists name peers of a finite set, the authorized validators. *)
Hypothesis providers_known :
  forall k l p, world_providers world k = Ok l -> p ∈ l -> p ∈ peers.
(** [SliceRandom::shuffle] permutes. *)
Hypothesis shuffle_permutes : forall k l, world_shuffle world k l ≡ₚ l.
Hypothesis fuel_enough : (size peers < fuel)%nat.

(** The state of a retrieval while [try_retrieve] works on it. *)
Record working (id : VerificationId) (st : RetrievalState) (w : Worker) : Prop := {
  wo_inv : slots_inv (limit := limit) (Some id) w;
  wo_lookup : retrievals w !! id = Some st;
  wo_queued : queued st = false;
  wo_active : active st = None;
  wo_finished : finished st = false;
  wo_room : active_retrievals w < max_concurrent_retrievals w
}.

Definition keeps (w w' : Worker) : Prop :=
  slots_inv (limit := limit) None w' /\ pending w' = pending w /\ same_limits w w'.

Lemma working_stop id st w : working id st w -> keeps w (stop_retrieval id w).
Proof.
  intros [I L Q Ac F R]. split; [apply (stop_retrieval_inv (limit := limit) (Some id)); auto|].
  unfold stop_retrieval. rewrite L. simpl. by destruct (is_none _).
Qed.

(** A query was sent: the retrieval waits for it with a timer. *)
Lemma working_query id st w q d delay :
  working id st w ->
  let st1 := with_query (Some q) (with_deadlines (Some d) (transfer_deadline st) st) in
  let st2 := bump_timer (bump_round st1) in
  keeps w (set_wakes (wakes w ++ [(mkWake id (timer_generation st2), delay)])
    (put_state_of id st2 (put_state_of id st1 w))).
Proof.
  intros [I L Q Ac F R] st1 st2. split; [|done].
  eapply (slots_put (Some id) None w _ id st st2); try done.
  - simpl. by rewrite insert_insert_eq.
  - intros e He. simpl. apply elem_of_app. by left.
  - intros id' Hne _. congruence.
  - assert (live (set_wakes (wakes w ++ [(mkWake id (timer_generation st2), delay)])
      (put_state_of id st2 (put_state_of id st1 w))) id st2) as Hl.
    { exists delay. simpl. apply elem_of_app. right. by apply list_elem_of_singleton. }
    split; simpl; [by rewrite F|by rewrite Q|done|auto].
Qed.

Lemma search_providers_spec id st w :
  working id st w -> wpw (search_providers world id) (fun _ => keeps w) w.
Proof.
  intros Wo. pose proof Wo as [I L Q Ac F R]. unfold search_providers. wstep. rewrite L. simpl.
  destruct (query st) as [q|] eqn:Eq; simpl.
  { wstep. split; [|done]. destruct I as [C Hs]. split; [done|]. intros id' st' Hl'.
    pose proof (Hs _ _ L) as [O1 O2 O3 O4]. destruct (decide (id' = id)) as [->|Hne].
    - simplify_eq. split; try done. intros _ _. right; right. by apply O3; rewrite Eq.
    - eapply st_ok_mono; [by apply Hs|congruence|done|done]. }
  wstep; [wstep; by eapply working_stop|].
  wstep. destruct (world_query world i) as [qid|e]; [|destruct e; wstep; by eapply working_stop].
  wstep. rewrite L. apply wpw_bind, wpw_bind.
  assert (forall d, wpw (update (put_state_of id (with_query (Some qid)
      (with_deadlines (Some d) (transfer_deadline st) st))))
    (fun _ w' => wpw (schedule_retry world id) (fun _ => keeps w) w') w) as Hd.
  { intros d. wstep. unfold schedule_retry. wstep. simpl. rewrite lookup_insert_eq. simpl.
    destruct (active_deadline _) as [d'|] eqn:Ed.
    - do 3 wstep. exact (working_query id st w qid d _ Wo).
    - unfold active_deadline in Ed. simpl in Ed. by destruct (transfer_deadline st). }
  destruct (discovery_deadline st); [wstep; apply Hd|wstep; wstep; apply Hd].
Qed.
(** A request was sent: the retrieval holds a slot. *)
Lemma working_request id st w d r p :
  working id st w ->
  let st' := with_active (Some (r, p)) (bump_timer (with_query None
    (with_deadlines (discovery_deadline st) (Some d) st))) in
  keeps w (set_active_retrievals (active_retrievals w + 1) (put_state_of id st' w)).
Proof.
  intros [[[C1 C2 C3] Hs] L Q Ac F R] st'. split; [|done].
  assert (id ∉ actives (retrievals w)) as Hna by (eapply not_active; [done|by rewrite Ac]).
  split; [split; simpl|].
  - rewrite actives_insert. simpl. rewrite size_union by set_solver. rewrite size_singleton. lia.
  - lia.
  - done.
  - intros id' st0. simpl. rewrite lookup_insert. case_decide as Hd.
    + subst. intros [= <-]. split; simpl; [by rewrite F|by rewrite Q|done|auto].
    + intros Hl'. eapply st_ok_mono; [by apply Hs|congruence|done|done].
Qed.

(** A refused request: the provider counts as attempted. *)
Lemma working_attempted id st w p :
  working id st w -> working id (with_attempted p st) (put_state_of id (with_attempted p st) w).
Proof.
  intros [I L Q Ac F R]. split; try done; [|simpl; by rewrite lookup_insert_eq].
  eapply (slots_put (Some id) (Some id) w _ id st (with_attempted p st)); try done.
  pose proof (proj2 I _ _ L) as [O1 O2 O3 O4]. by split.
Qed.

Lemma request_from_spec id st w p :
  working id st w -> p ∉ attempted st ->
  wpw (request_from world id p) (fun again w' =>
    if again then w' = put_state_of id (with_attempted p st) w else keeps w w') w.
Proof.
  intros Wo Hp. pose proof Wo as [I L Q Ac F R]. unfold request_from. wstep. rewrite L. simpl.
  wstep; [repeat wstep; by eapply working_stop|].
  rewrite (proj2 (Z.leb_gt _ _)) by done.
  wstep. destruct (world_request world i) as [r|e].
  - wstep. rewrite L. apply wpw_bind.
    assert (forall d, wpw (update (fun w => set_active_retrievals (active_retrievals w + 1)
        (put_state_of id (with_active (Some (r, p)) (bump_timer (with_query None
          (with_deadlines (discovery_deadline st) (Some d) st)))) w)) ≫= fun _ => mret false)
      (fun again w' => if again : bool then w' = put_state_of id (with_attempted p st) w
        else keeps w w') w) as Hd
      by (intros d; do 2 wstep; by apply working_request).
    destruct (transfer_deadline st); [wstep; apply Hd|wstep; wstep; apply Hd].
  - destruct e; repeat wstep; try by eapply working_stop. by rewrite L.
Qed.

Lemma try_retrieve_spec k id st w :
  working id st w -> (size (peers ∖ attempted st) < k)%nat ->
  wpw (try_retrieve world k id) (fun _ => keeps w) w.
Proof.
  revert st w. induction k as [|k IH]; intros st w Wo Hk; [lia|].
  pose proof (wo_lookup _ _ _ Wo) as L. simpl. wstep. rewrite L. simpl.
  wstep. wstep. wstep. rename a into l, H2 into El.
  destruct (last _) as [p|] eqn:Ep; [|by apply search_providers_spec with st].
  assert (p ∈ l /\ p ∉ attempted st) as [Hpl Hpa].
  { apply last_Some_elem_of in Ep. rewrite shuffle_permutes in Ep.
    apply list_elem_of_filter in Ep as [[_ ?] ?]. done. }
  apply wpw_bind. eapply wpw_mono; [by apply (request_from_spec id st)|].
  intros again w' Hw'. simpl in Hw'. destruct again; [|by wstep]. subst w'.
  eapply wpw_mono; [apply (IH (with_attempted p st)); [by apply working_attempted|]|].
  - simpl. assert (p ∈ peers ∖ attempted st) by (pose proof (providers_known _ _ _ El Hpl); set_solver).
    assert (peers ∖ ({[p]} ∪ attempted st) ⊂ peers ∖ attempted st) as Hsub by set_solver.
    apply subset_size in Hsub. lia.
  - intros [] w' (I' & Hp' & Hl'). split_and!; done.
Qed.
(** What holds between two turns. *)
Definition turn_inv (w : Worker) : Prop := slots_inv (limit := limit) None w /\ driven w.

Lemma pop_missing w id rest :
  slots_inv (limit := limit) None w -> pending w = id :: rest -> retrievals w !! id = None ->
  slots_inv (limit := limit) None (set_pending rest w).
Proof.
  intros [[C1 C2 C3] Hs] Ep L. split; [by split|]. intros id' st' Hl'. simpl in Hl'.
  eapply st_ok_mono; [by apply Hs|done| |done]. rewrite Ep. simpl.
  intros [->|?]%elem_of_cons; [congruence|done].
Qed.

Lemma pop_found x w id rest st :
  slots_inv (limit := limit) None w -> pending w = id :: rest -> retrievals w !! id = Some st ->
  x = Some id \/ x = None /\ finished st || is_some (active st) = true ->
  slots_inv (limit := limit) x (put_state_of id (with_queued false st) (set_pending rest w)).
Proof.
  intros I Ep L Hx.
  eapply (slots_put None x w _ id st (with_queued false st)); try done.
  - intros id' Hne. rewrite Ep. simpl. by intros [->|?]%elem_of_cons.
  - pose proof (proj2 I _ _ L) as [O1 O2 O3 O4]. split; simpl; try done.
    intros Hx' Hf. destruct Hx as [->|[-> Ha]]; [done|]. rewrite Hf in Ha.
    right; left. by destruct (active st).
Qed.

Lemma drive_loop_spec rounds w :
  slots_inv (limit := limit) None w -> (length (pending w) < rounds)%nat ->
  wpw (drive_loop world fuel rounds) (fun _ => turn_inv) w.
Proof.
  revert w. induction rounds as [|rounds IH]; intros w I Hr; [lia|]. simpl. wstep.
  destruct (Z.ltb_spec (active_retrievals w) (max_concurrent_retrievals w)) as [Hlt|Hge]; simpl.
  2: { wstep. split; [done|by right]. }
  destruct (pending w) as [|id rest] eqn:Ep; [wstep; split; [done|by left]|].
  wstep. simpl in Hr. destruct (retrievals w !! id) as [st|] eqn:L.
  2: { apply IH; [by eapply pop_missing|simpl; lia]. }
  wstep. destruct (finished st || is_some (active st)) eqn:Ef.
  { apply IH; [eapply pop_found; [done..|by right]|simpl; lia]. }
  apply orb_false_iff in Ef as [Ef Ea]. apply wpw_bind.
  eapply wpw_mono; [apply (try_retrieve_spec fuel id (with_queued false st))|].
  - split; simpl; try done; [by eapply pop_found; [..|left]|by rewrite lookup_insert_eq|].
    by destruct (active st).
  - simpl. assert (size (peers ∖ attempted st) <= size peers)%nat by (apply subseteq_size; set_solver).
    lia.
  - intros [] w' (I' & Ep' & _). apply IH; [done|]. rewrite Ep'. simpl. lia.
Qed.

Lemma drive_pending_spec w : slots_inv (limit := limit) None w -> wpw (drive_pending world fuel) (fun _ => turn_inv) w.
Proof. intros I. unfold drive_pending. wstep. apply drive_loop_spec; [done|lia]. Qed.

Lemma stop_driven id w : driven w -> driven (stop_retrieval id w).
Proof.
  unfold driven, stop_retrieval. destruct (retrievals w !! id) as [st|]; [|done]. by destruct (is_none _).
Qed.

Lemma stop_turn_inv id w : turn_inv w -> turn_inv (stop_retrieval id w).
Proof. intros [I D]. split; [apply (stop_retrieval_inv (limit := limit) None); auto|by apply stop_driven]. Qed.

Lemma enqueue_slots id w : slots_inv (limit := limit) None w -> slots_inv (limit := limit) None (enqueue id w).
Proof. intros I. apply (enqueue_inv None); auto. done. Qed.

Lemma ensure_retrieval_spec id w :
  turn_inv w -> wpw (ensure_retrieval world fuel id) (fun _ => turn_inv) w.
Proof.
  intros T. unfold ensure_retrieval. wstep.
  destruct (match world_get world i id with Some a => _ | None => _ end); simpl.
  2: { wstep. by apply stop_turn_inv. }
  wstep. wstep. apply drive_pending_spec. destruct T as [I D].
  destruct (retrievals w !! id) as [st|] eqn:L; [by apply enqueue_slots|].
  assert (slots_inv (limit := limit) (Some id) (put_state_of id new_retrieval w)) as I1.
  { destruct I as [[C1 C2 C3] Hs]. split; [split; simpl; [|done|done]|].
    - rewrite actives_insert. simpl. rewrite difference_disjoint_L; [done|].
      rewrite disjoint_singleton_r, elem_of_actives. intros (st & Hl & _). congruence.
    - intros id' st'. simpl. rewrite lookup_insert. case_decide as Hd.
      + subst. intros [= <-]. by split.
      + intros Hl'. eapply st_ok_mono; [by apply Hs|done|done|done]. }
  apply (enqueue_inv (Some id)); [done|by right|].
  intros st. simpl. rewrite lookup_insert_eq. by intros [= <-].
Qed.

(** Only the retrieval a timer was for can depend on it. *)
Lemma live_drop_wake i w wake d id st :
  wakes w !! i = Some (wake, d) ->
  (wake_id wake = id -> timer_generation st <> generation wake) ->
  live w id st -> live (set_wakes (delete i (wakes w)) w) id st.
Proof.
  intros Ew Hne [d' Hin]. exists d'. simpl. apply list_elem_of_lookup in Hin as [j Hj].
  destruct (decide (j = i)) as [->|Hji].
  - rewrite Ew in Hj. injection Hj as -> ->. simpl in Hne. by destruct Hne.
  - rewrite delete_take_drop. apply elem_of_app. destruct (decide (j < i)%nat).
    + left. apply list_elem_of_lookup. exists j. by rewrite lookup_take_lt.
    + right. apply list_elem_of_lookup. exists (j - S i)%nat. rewrite lookup_drop.
      by replace (S i + (j - S i))%nat with j by lia.
Qed.

Lemma slots_drop_wake x i w wake d :
  slots_inv (limit := limit) None w -> wakes w !! i = Some (wake, d) ->
  (forall st, retrievals w !! wake_id wake = Some st -> timer_generation st = generation wake ->
    query st = None /\ (x = Some (wake_id wake) \/ finished st = true)) ->
  slots_inv (limit := limit) x (set_wakes (delete i (wakes w)) w).
Proof.
  intros [[C1 C2 C3] Hs] Ew Hx. split; [by split|]. intros id st Hl. simpl in Hl.
  pose proof (Hs _ _ Hl) as [O1 O2 O3 O4].
  destruct (decide (wake_id wake = id /\ timer_generation st = generation wake)) as [[<- Hg]|Hn].
  - destruct (Hx st Hl Hg) as [Hq [->|Hf]]; split; simpl; try done; by rewrite Hf.
  - assert (live w id st -> live (set_wakes (delete i (wakes w)) w) id st) as Hl1
      by (apply (live_drop_wake i w wake d); [done|]; intros E1 E2; by apply Hn).
    split; simpl; auto. intros _ Hf. destruct O4 as [?|[?|?]]; auto.
Qed.

Lemma fire_spec i w : turn_inv w -> wpw (fire world fuel i) (fun _ => turn_inv) w.
Proof.
  intros [I D]. unfold fire. wstep. destruct (wakes w !! i) as [[wake d]|] eqn:Ew; [|by wstep].
  wstep. unfold handle_wake. wstep. simpl. destruct (retrievals w !! wake_id wake) as [st|] eqn:L.
  2: { wstep. split; [|done]. eapply slots_drop_wake; [done..|]. congruence. }
  destruct (Z.eqb_spec (timer_generation st) (generation wake)) as [Hg|Hg]; simpl.
  2: { wstep. split; [|done]. eapply slots_drop_wake; [done..|]. congruence. }
  destruct (finished st) eqn:Ef.
  { wstep. split; [|done]. eapply slots_drop_wake; [done..|]. intros st' Hl' _. simplify_eq.
    pose proof (ok_finished _ _ _ _ (proj2 I _ _ L) Ef) as [_ ?]. auto. }
  wstep. set (w0 := put_state_of (wake_id wake) (with_query None st) w).
  assert (slots_inv (limit := limit) None w0) as I0.
  { eapply (slots_put None None w _ (wake_id wake) st (with_query None st)); try done.
    pose proof (proj2 I _ _ L) as [O1 O2 O3 O4]. split; simpl; try done. by rewrite Ef. }
  assert (slots_inv (limit := limit) (Some (wake_id wake)) (set_wakes (delete i (wakes w0)) w0)) as I1.
  { eapply (slots_drop_wake (Some (wake_id wake)) i w0 wake d); [done|done|].
    intros st' Hl' _. simpl in Hl'. rewrite lookup_insert_eq in Hl'. simplify_eq. auto. }
  change (put_state_of (wake_id wake) (with_query None st) (set_wakes (delete i (wakes w)) w))
    with (set_wakes (delete i (wakes w0)) w0).
  wstep.
  - wstep. split; [apply (stop_retrieval_inv (limit := limit) (Some (wake_id wake))); auto|by apply stop_driven].
  - wstep. apply drive_pending_spec. apply (enqueue_inv (Some (wake_id wake))); [done|by right|].
    intros st' Hl' _. simpl in Hl'. rewrite lookup_insert_eq in Hl'. simplify_eq. simpl. congruence.
Qed.

Lemma finish_request_spec id r p succeeded w :
  slots_inv (limit := limit) None w -> wpw (finish_request world id r p succeeded) (fun _ => slots_inv (limit := limit) None) w.
Proof.
  intros I. unfold finish_request. wstep. destruct (retrievals w !! id) as [st|] eqn:L; [|by wstep].
  case_bool_decide as Ea; simpl; [|by wstep].
  assert (active st <> None) as Ha by (by rewrite Ea).
  destruct (finish_count w id st (proj1 I) L Ha) as [Hpos _].
  rewrite (proj2 (Z.ltb_ge _ _)) by done. wstep. simpl.
  assert (slots_inv (limit := limit) None (set_retrievals (delete id (<[id := with_active None st]> (retrievals w)))
    (set_active_retrievals (active_retrievals w - 1) w))) as Hrm.
  { rewrite delete_insert_eq. exact (finish_remove w id st I L Ha). }
  destruct (succeeded || finished st) eqn:Esf.
  - apply wpw_bind. wstep. wstep. exact Hrm.
  - apply orb_false_iff in Esf as [_ Ef]. wstep; wstep; [exact Hrm|].
    pose proof (finish_keep w id st p I L Ha Ef) as Hk. unfold put_state_of in *. simpl in *.
    unfold set_retrievals, set_active_retrievals in *. simpl in *. by rewrite insert_insert_eq.
Qed.

(** ** The handlers *)

Lemma reconcile_store_spec w :
  turn_inv w -> wpw (reconcile_store world fuel) (fun _ => turn_inv) w.
Proof.
  intros T. unfold reconcile_store. wstep. wstep. wstep. apply wpw_bind.
  eapply wpw_mono; [apply (wpw_for_each _ _ turn_inv); [|done]|].
  { intros p w' _ T'. wstep. by wstep. }
  intros [] w1 T1. wstep. wstep. apply wpw_bind.
  eapply wpw_mono; [apply (wpw_for_each _ _ turn_inv); [|done]|].
  { intros id w' _ T'. case_bool_decide; wstep; [done|by apply stop_turn_inv]. }
  intros [] w2 T2. apply wpw_for_each; [|done]. intros p w' _ T'. by apply ensure_retrieval_spec.
Qed.

Lemma handle_driver_event_spec event w :
  turn_inv w -> wpw (handle_driver_event world fuel event false) (fun _ => turn_inv) w.
Proof.
  intros T. pose proof (proj1 T) as I.
  assert (forall id r p b, wpw (finish_request world id r p b ≫= fun _ => drive_unless world fuel false)
    (fun _ => turn_inv) w) as Hfinish.
  { intros id r p b. apply wpw_bind. eapply wpw_mono; [by apply finish_request_spec|].
    intros [] w' I'. by apply drive_pending_spec. }
  destruct event as [address|peer|peer|peer id|qid id l|rid peer id|rid peer id proof|rid peer id|rid peer id reason];
    simpl; try by wstep.
  - by apply reconcile_store_spec.
  - wstep. destruct (match retrievals w !! id with Some _ => _ | None => _ end);
      [by wstep|by apply ensure_retrieval_spec].
  - wstep. destruct (retrievals w !! id) as [st|] eqn:L; [|by wstep].
    case_bool_decide; [|by wstep]. wstep. wstep. apply drive_pending_spec.
    unfold clear_query. rewrite L. apply (enqueue_inv (Some id)); [|by right|].
    + eapply (slots_put None (Some id) w _ id st (bump_timer (with_query None st))); try done.
      pose proof (proj2 I _ _ L) as [O1 O2 O3 O4]. split; simpl; try done. intros Hf.
      by destruct (O1 Hf).
    + intros st'. simpl. rewrite lookup_insert_eq. intros [= <-] _ Hf. simpl in Hf.
      pose proof (ok_finished _ _ _ _ (proj2 I _ _ L) Hf) as [_ ?]. congruence.
  - wstep. wstep. by wstep.
  - wstep. destruct (world_attach world i id proof peer) as [ch|e]; [apply Hfinish|].
    destruct e; try (apply wpw_bind; by wstep); try apply Hfinish.
    apply wpw_bind, wpw_bind. eapply wpw_mono; [by apply finish_request_spec|].
    intros [] w' I'. wstep. apply drive_pending_spec. apply (stop_retrieval_inv (limit := limit) None); auto.
  - apply Hfinish.
  - apply Hfinish.
Qed.

Lemma take_turn_spec t w : turn_inv w -> wpw (take_turn world fuel t) (fun _ => turn_inv) w.
Proof.
  intros T. destruct t as [[event|]|[[id|id src|id st|id c]|[k|]]|i]; simpl;
    [by apply handle_driver_event_spec|by wstep|by apply ensure_retrieval_spec|..].
  - wstep. wstep. wstep. by apply drive_pending_spec, stop_turn_inv.
  - wstep. by apply drive_pending_spec, stop_turn_inv.
  - wstep. wstep. wstep. by apply drive_pending_spec, stop_turn_inv.
  - by apply reconcile_store_spec.
  - wstep.
  - by apply fire_spec.
Qed.

Lemma run_turns_spec turns w : turn_inv w -> wpw (run_turns world fuel turns) (fun _ => turn_inv) w.
Proof.
  intros T. apply wpw_bind. eapply wpw_mono; [by apply reconcile_store_spec|].
  intros [] w' T'. apply wpw_for_each; [|done]. intros t w2 _ T2. by apply take_turn_spec.
Qed.
End turns.

(** ** Draining *)

Section draining.
Context `{Libp2p, Sha256, ProstVarint} {limit : Z} (world : World) (fuel : nat).

(** The inbound requests among the driver's events, with the identifiers they ask for. *)
Definition requested (e : option DriverEvent) : list (InboundProofRequestId * VerificationId) :=
  match e with Some (ProofRequested rid _ id) => [(rid, id)] | _ => [] end.

(** The response to a request: what the store holds for the identifier, and how the driver
    took it. *)
Definition response (outcome : Result unit) (request : InboundProofRequestId * VerificationId)
    (c : DriverCall) : Prop :=
  exists k, c = CallRespond (fst request) (world_get_proof world k (snd request)) outcome.

(** The calls between two states are one response to each request, in order, which the driver took. *)
Definition answered (requests : list (InboundProofRequestId * VerificationId)) (n n' : Net) : Prop :=
  exists l, Forall2 (response (Ok tt)) requests l /\ calls n' = calls n ++ l.

(** The errors that end the drain between two answers. *)
Definition drain_error (e : Error) : Prop :=
  e = P2pDriverClosed \/ e = ProofStoreError "proof store event channel closed" \/
  exists k id proof peer, world_attach world k id proof peer = Err e.

(** A drain that stopped: the requests before the stop have their response, and it stopped
    between two answers or because the driver refused the next one. *)
Definition cut_short (requests : list (InboundProofRequestId * VerificationId)) (f : Fault)
    (n n' : Net) : Prop :=
  exists e served rest l, f = Fail e /\ requests = served ++ rest /\ Forall2 (response (Ok tt)) served l /\
    ((drain_error e /\ calls n' = calls n ++ l) \/
     (exists request c, head rest = Some request /\ response (Err e) request c /\
        calls n' = calls n ++ l ++ [c])).

Lemma answered_nil n n' : calls n' = calls n -> answered [] n n'.
Proof. intros E. exists []. by rewrite app_nil_r. Qed.

Lemma answered_trans l1 l2 n1 n2 n3 :
  answered l1 n1 n2 -> answered l2 n2 n3 -> answered (l1 ++ l2) n1 n3.
Proof.
  intros (a & Ha & E1) (b & Hb & E2). exists (a ++ b). rewrite E2, E1, app_assoc.
  split; [by apply Forall2_app|done].
Qed.

Lemma cut_between e requests n n' : drain_error e -> calls n' = calls n -> cut_short requests (Fail e) n n'.
Proof.
  intros He E. exists e, [], requests, []. split_and!; [done..|]. left. by rewrite app_nil_r.
Qed.

Lemma cut_later l1 l2 f n1 n2 n3 :
  answered l1 n1 n2 -> cut_short l2 f n2 n3 -> cut_short (l1 ++ l2) f n1 n3.
Proof.
  intros (a & Ha & E1) (e & served & rest & l & -> & -> & Hl & Hend).
  exists e, (l1 ++ served), rest, (a ++ l). split_and!; [done|by rewrite app_assoc|by apply Forall2_app|].
  destruct Hend as [[He Hc]|(q & c & Hq & Hr & Hc)]; [left|right; exists q, c];
    rewrite Hc, E1, <- !app_assoc; done.
Qed.

Lemma cut_extend l1 l2 f n n' : cut_short l1 f n n' -> cut_short (l1 ++ l2) f n n'.
Proof.
  intros (e & served & rest & l & -> & -> & Hl & Hend). exists e, served, (rest ++ l2), l.
  split_and!; [done|by rewrite app_assoc|done|]. destruct Hend as [?|(q & c & Hq & Hr)]; [by left|right].
  exists q, c. by destruct rest.
Qed.

(** A program that keeps the slot count and calls the driver only to answer the requests. *)
Definition quiet (m : stm Net Fault unit) (requests : list (InboundProofRequestId * VerificationId))
    (n : Net) : Prop :=
  wp m (fun _ n' => count_inv (limit := limit) (wk n') /\ answered requests n n')
    (fun f n' => cut_short requests f n n') n.

Lemma quiet_seq (m : stm Net Fault unit) (f : unit -> stm Net Fault unit) l1 l2 n :
  quiet m l1 n -> (forall n1, count_inv (limit := limit) (wk n1) -> quiet (f tt) l2 n1) ->
  quiet (m ≫= f) (l1 ++ l2) n.
Proof.
  unfold quiet, wp, mbind, stm_bind. intros Hm Hf.
  destruct (m n) as [[[]|e] n1]; [|by apply cut_extend]. destruct Hm as [C A1]. specialize (Hf n1 C).
  destruct (f tt n1) as [[[]|e] n2]; [|by eapply cut_later]. destruct Hf as [C2 A2].
  split; [done|by eapply answered_trans].
Qed.

Lemma answers_ret n : count_inv (limit := limit) (wk n) -> quiet (mret tt) [] n.
Proof. intros C. split; [done|by apply answered_nil]. Qed.

Lemma answers_fail e requests n : drain_error e -> quiet (throw (Fail e)) requests n.
Proof. intros He. by apply cut_between. Qed.

Lemma quiet_for_each {A} (f : A -> stm Net Fault unit)
    (g : A -> list (InboundProofRequestId * VerificationId)) l n :
  (forall a n, count_inv (limit := limit) (wk n) -> quiet (f a) (g a) n) ->
  count_inv (limit := limit) (wk n) -> quiet (for_each f l) (flat_map g l) n.
Proof.
  intros Hf. revert n. induction l as [|a l IH]; intros n C; simpl.
  - split; [done|by apply answered_nil].
  - apply quiet_seq; [by apply Hf|]. intros n1 C1. by apply IH.
Qed.

Lemma enqueue_count id w : count_inv (limit := limit) w -> count_inv (limit := limit) (enqueue id w).
Proof.
  intros [C1 C2 C3]. unfold enqueue. destruct (retrievals w !! id) as [st|] eqn:L; [|by split].
  destruct (_ || _); [by split|]. split; simpl; [|done|done]. by erewrite actives_same.
Qed.

Lemma finish_request_quiet id r p b n :
  count_inv (limit := limit) (wk n) -> quiet (finish_request world id r p b) [] n.
Proof.
  destruct n as [w t c]. intros C. simpl in C. unfold quiet, finish_request. apply wp_bind. simpl.
  unfold wp at 1. simpl. destruct (retrievals w !! id) as [st|] eqn:L; [|by split; [|apply answered_nil]].
  case_bool_decide as Ea; simpl; [|by split; [|apply answered_nil]].
  assert (active st <> None) as Ha by (by rewrite Ea).
  destruct (finish_count w id st C L Ha) as [Hpos Hc]. rewrite (proj2 (Z.ltb_ge _ _)) by done.
  destruct C as [C1 C2 C3]. apply wp_bind. unfold wp at 1. simpl.
  set (w1 := set_active_retrievals (active_retrievals w - 1) (put_state_of id (with_active None st) w)).
  assert (count_inv (limit := limit) (set_retrievals (delete id (retrievals w1)) w1)) as Hrm.
  { split; simpl; [|lia|done]. apply Hc. intros x. rewrite delete_insert_eq, actives_delete. set_solver. }
  assert (count_inv (limit := limit) (enqueue id (put_state_of id
      (with_attempted p (with_active None st)) w1))) as Hkeep.
  { apply enqueue_count. split; simpl; [|lia|done]. apply Hc. intros x.
    rewrite insert_insert_eq, actives_insert. simpl. set_solver. }
  destruct (b || finished st); [split; [exact Hrm|by apply answered_nil]|].
  unfold passed. destruct (active_deadline _) as [d|]; simpl.
  - unfold wp, mbind, stm_bind, ask. simpl. destruct (d <=? _); simpl;
      (split; [exact Hrm || exact Hkeep|by apply answered_nil]).
  - split; [exact Hkeep|by apply answered_nil].
Qed.

Lemma stop_retrieval_quiet id n :
  count_inv (limit := limit) (wk n) -> quiet (update (stop_retrieval id)) [] n.
Proof.
  intros C. split; [|by apply answered_nil]. simpl. unfold stop_retrieval.
  destruct (retrievals (wk n) !! id) as [st|] eqn:L; [|done].
  destruct C as [D1 D2 D3]. simpl. destruct (active st) eqn:Ea; simpl.
  - split; simpl; [|done|done]. erewrite actives_same; [done|done|]. done.
  - split; simpl; [|done|done]. rewrite actives_delete, difference_disjoint_L; [done|].
    rewrite disjoint_singleton_r. eapply not_active; [done|by rewrite Ea].
Qed.

Lemma finish_then_quiet id r p b n :
  count_inv (limit := limit) (wk n) ->
  quiet (finish_request world id r p b ≫= fun _ => drive_unless world fuel true) [] n.
Proof. intros C. apply (quiet_seq _ _ [] []); [by apply finish_request_quiet|apply answers_ret]. Qed.

(** A downloaded proof that arrives while draining is stored and its request ended. *)
Lemma received_quiet rid peer id proof n :
  count_inv (limit := limit) (wk n) ->
  quiet (handle_driver_event world fuel (ProofReceived rid peer id proof) true) [] n.
Proof.
  intros C. unfold quiet. simpl. apply wp_bind. unfold wp at 1. simpl.
  set (n1 := mkNet (wk n) (S (tick n)) (calls n)).
  assert (count_inv (limit := limit) (wk n1)) as C1 by done.
  destruct (world_attach world _ id proof peer) as [ch|err] eqn:Hat; [by apply (finish_then_quiet id rid peer true n1)|].
  assert (drain_error err) as He by (right; right; by eexists _, _, _, _).
  destruct err; try (by apply (finish_then_quiet id rid peer false n1));
    try (by apply (cut_between _ [] n n1)).
  apply (quiet_seq _ _ [] [] n1); [|apply answers_ret].
  apply (quiet_seq _ _ [] [] n1); [by apply finish_request_quiet|apply stop_retrieval_quiet].
Qed.

(** A request that arrives while draining is answered from the store, unless the driver
    refuses the answer. *)
Lemma requested_quiet rid peer id n :
  count_inv (limit := limit) (wk n) ->
  quiet (handle_driver_event world fuel (ProofRequested rid peer id) true) [(rid, id)] n.
Proof.
  intros C. unfold quiet. simpl. apply wp_bind. unfold wp at 1. simpl. apply wp_bind. unfold wp at 1. simpl.
  destruct (world_unit world _) as [[]|e].
  - split; [done|]. eexists [_]. split; [|done]. constructor; [by eexists|constructor].
  - exists e, [], [(rid, id)], []. split_and!; [done..|]. right. by eexists (rid, id), _; split_and!; [|eexists|].
Qed.

Lemma handle_driver_event_quiet e n :
  count_inv (limit := limit) (wk n) ->
  quiet (handle_driver_event world fuel e true) (requested (Some e)) n.
Proof.
  intros C. destruct e; try (by apply answers_ret); try (by apply finish_then_quiet);
    [by apply requested_quiet|by apply received_quiet].
Qed.

Lemma drain_quiet rounds n :
  count_inv (limit := limit) (wk n) ->
  quiet (drain world fuel rounds) (flat_map (fun r => flat_map requested (fst r)) rounds) n.
Proof.
  intros C. apply (quiet_seq _ _ []).
  { split; [by destruct C|by apply answered_nil]. }
  intros n1. apply quiet_for_each. clear. intros [ds ss] n C. simpl.
  rewrite <- (app_nil_r (flat_map requested ds)). apply quiet_seq.
  - apply quiet_for_each; [|done]. intros [e|] n1 C1; [by apply handle_driver_event_quiet|].
    apply answers_fail. by left.
  - intros n1 C1. rewrite <- (flat_map_nil (B := InboundProofRequestId * VerificationId) ss).
    apply quiet_for_each; [|done]. intros [e|[k|]] n2 C2; [by apply answers_ret..|].
    apply answers_fail. by right; left.
Qed.
End draining.
Section initial.
Context `{Libp2p, Sha256, ProstVarint}.

Lemma new_turn_inv peer max timeout initial maximum :
  turn_inv (limit := max) (Worker_new peer max timeout initial maximum).
Proof.
  split; [split|by left]; simpl; [|intros id st; by rewrite lookup_empty].
  split; simpl; [|lia|done]. unfold actives. by rewrite map_filter_empty, dom_empty_L, size_empty.
Qed.
End initial.

(** ** Properties *)

Section properties.
Context `{Libp2p, Sha256, ProstVarint}.

(** What the worker relies on: the driver's provider lists name peers of a finite set, the
    authorized validators, and [SliceRandom::shuffle] permutes. *)
Record world_ok (world : World) (peers : gset PeerId) : Prop := {
  wok_providers : forall k l p, world_providers world k = Ok l -> p ∈ l -> p ∈ peers;
  wok_shuffle : forall k l, world_shuffle world k l ≡ₚ l
}.

Lemma run_from_start world fuel peers peer max timeout initial maximum turns :
  world_ok world peers -> (size peers < fuel)%nat ->
  match run_turns world fuel turns (mkNet (Worker_new peer max timeout initial maximum) 0 []) with
  | (Ok _, n) => turn_inv (limit := max) (wk n)
  | (Err f, _) => exists e, f = Fail e
  end.
Proof.
  intros [W1 W2] Hf. exact (run_turns_spec (limit := max) world fuel peers W1 W2 Hf turns _
    (new_turn_inv peer max timeout initial maximum) 0%nat []).
Qed.

(** An answer the driver cannot deliver ends the worker: the error of the [respond_proof] call
    is returned from the loop, whatever is left to do. *)
Lemma failed_answer_ends_worker world fuel request_id peer id rest n e :
  world_unit world (S (tick n)) = Err e ->
  fst (for_each (take_turn world fuel)
         (TurnDriver (Some (ProofRequested request_id peer id)) :: rest) n) = Err (Fail e).
Proof.
  intros He. cbn [for_each take_turn handle_driver_event].
  unfold mbind, stm_bind, ask, call, try_, throw. cbn [tick]. by rewrite He.
Qed.

(** C13: retrieval slots: whatever the network, the store and the clock do, the worker's run
    ends only with an error it returns, never in a panic or an endless loop, and between
    turns the number of slots in use is the number of retrievals with a request in flight,
    within the limit, with no slot free while an identifier is pending. *)
Theorem retrieval_slots world fuel peers peer max timeout initial maximum turns :
  world_ok world peers -> (size peers < fuel)%nat ->
  match run_turns world fuel turns (mkNet (Worker_new peer max timeout initial maximum) 0 []) with
  | (Ok _, n) =>
      active_retrievals (wk n) = Z.of_nat (size (actives (retrievals (wk n)))) /\
      active_retrievals (wk n) <= Z.max 0 max /\
      (pending (wk n) = [] \/ max <= active_retrievals (wk n))
  | (Err f, _) => exists e, f = Fail e
  end.
Proof.
  intros W Hf. pose proof (run_from_start world fuel peers peer max timeout initial maximum turns W Hf) as Hr.
  destruct (run_turns _ _ _ _) as [[[]|f] n]; [|done]. destruct Hr as [[[C1 C2 C3] _] D].
  unfold driven in D. rewrite C3 in D. done.
Qed.

(** C14: no retrieval is forgotten: between turns every retrieval still wanted is waiting in
    the queue, has a request in flight, or has a running timer of its current generation,
    and a retrieval that waits for an answer to its query has such a timer. *)
Theorem retrieval_progress world fuel peers peer max timeout initial maximum turns n id st :
  world_ok world peers -> (size peers < fuel)%nat ->
  run_turns world fuel turns (mkNet (Worker_new peer max timeout initial maximum) 0 []) = (Ok tt, n) ->
  retrievals (wk n) !! id = Some st ->
  (finished st = false ->
    (queued st = true /\ id ∈ pending (wk n)) \/ active st <> None \/ live (wk n) id st) /\
  (finished st = true -> active st <> None) /\
  (query st <> None -> live (wk n) id st).
Proof.
  intros W Hf Er L. pose proof (run_from_start world fuel peers peer max timeout initial maximum turns W Hf) as Hr.
  rewrite Er in Hr. destruct Hr as [[_ Hs] _]. destruct (Hs id st L) as [O1 O2 O3 O4].
  split_and!; [|by intros Hfin; destruct (O1 Hfin)|done].
  intros Hfin. destruct O4 as [Hq|[?|?]]; auto.
Qed.

(** C28: shutdown: draining starts no query and no request; all it sends to the driver are
    responses to the inbound proof requests that were waiting. When it completes, each of them
    has had exactly one response, in order, holding what the store has for the identifier asked
    for. When it ends with an error, only the requests before some point have: either the driver
    refused the answer to the request at that point, or a channel was closed or the store failed
    there, and the requests after that point get no answer. *)
Theorem drain_answers_inbound world fuel peers peer max timeout initial maximum turns n rounds :
  world_ok world peers -> (size peers < fuel)%nat ->
  run_turns world fuel turns (mkNet (Worker_new peer max timeout initial maximum) 0 []) = (Ok tt, n) ->
  let requests := flat_map (fun r => flat_map requested (fst r)) rounds in
  match drain world fuel rounds n with
  | (Ok _, n') => answered world requests n n'
  | (Err f, n') => cut_short world requests f n n'
  end.
Proof.
  intros W Hf Er. pose proof (run_from_start world fuel peers peer max timeout initial maximum turns W Hf) as Hr.
  rewrite Er in Hr. destruct Hr as [[C _] _].
  pose proof (drain_quiet (limit := max) world fuel rounds n C) as Hd. unfold quiet, wp in Hd.
  destruct (drain world fuel rounds n) as [[[]|f] n']; [by destruct Hd|done].
Qed.

(** Retry pauses: the pause before a query is repeated lies between zero and the least of
    the doubling back-off, its maximum and the time left to the deadline, and at most [u64]
    nanoseconds. *)
Theorem retry_pause_bounded random initial maximum round remaining :
  (forall m, 0 <= m -> 0 <= random m <= m) ->
  0 <= initial -> 0 <= maximum -> 0 <= round -> 0 <= remaining ->
  let pause := full_jitter random (retry_cap initial maximum round) remaining in
  0 <= pause /\ pause <= initial * 2 ^ Z.min round 31 /\ pause <= maximum /\ pause <= remaining /\
  pause <= u64_max.
Proof.
  intros Hr Hi Hm Hn Hrem pause. unfold pause, full_jitter. rewrite retry_cap_value by done.
  set (b := initial * 2 ^ Z.min round 31).
  assert (0 <= b) by (apply Z.mul_nonneg_nonneg; [lia|apply Z.pow_nonneg; lia]).
  assert (0 <= duration_max /\ 0 <= u64_max) as [Hd Hu] by (split; vm_compute; discriminate).
  unfold clamp_u64. destruct (Z.leb_spec (Z.min (Z.min (Z.min b duration_max) maximum) remaining) u64_max) as [Hc|Hc].
  - specialize (Hr (Z.min (Z.min (Z.min b duration_max) maximum) remaining)). lia.
  - specialize (Hr u64_max Hu). lia.
Qed.
End properties.

(** ** Witnesses *)

Section witnesses.
#[local] Existing Instance sample_libp2p.
#[local] Existing Instance sample_sha256.
#[local] Existing Instance sample_varint.

Definition peer_a : byte := Byte.x0a.
Definition peer_b : byte := Byte.x0b.

(** One record waits for content; peer b provides it and refuses nothing. *)
Definition sample_waiting_record : Arc ProofRecord :=
  mkArc 0 (mkRecord (mkMetadata (Some 1) None None None None) None).
Definition sample_wanted : VerificationId := zero_array.

Definition sample_world : World := {|
  world_now k := Z.of_nat k;
  world_get _ _ := Some sample_waiting_record;
  world_get_proof _ _ := None;
  world_attach _ _ _ _ := Ok ChangeUpdated;
  world_local _ := [];
  world_waiting _ := [mkStoredProof sample_wanted sample_waiting_record];
  world_unit _ := Ok tt;
  world_providers _ := Ok [peer_a; peer_b];
  world_request _ := Ok (mkProofRequestId 1);
  world_query _ := Ok (@Array 16 (replicate 16 Byte.x00) I);
  world_shuffle _ l := l;
  world_random _ m := m
|}.

Lemma sample_providers_ok l p : Ok (E := Error) [peer_a; peer_b] = Ok l -> p ∈ l ->
  p ∈ ({[peer_a; peer_b]} : gset PeerId).
Proof.
  intros [= <-]. rewrite !elem_of_cons, elem_of_union, !elem_of_singleton. intros [?|[?|Hp]]; auto.
  by apply not_elem_of_nil in Hp.
Qed.

Lemma sample_world_ok : world_ok sample_world {[peer_a; peer_b]}.
Proof. split; [|done]. intros k. apply sample_providers_ok. Qed.

Lemma sample_world_size : (size ({[peer_a; peer_b]} : gset PeerId) < 3)%nat.
Proof. vm_compute. repeat constructor. Qed.

Definition sample_net : Net := mkNet (Worker_new peer_a 1 1000 10 100) 0 [].
Definition sample_retrieval : RetrievalState :=
  mkRetrieval None (Some 1007) ∅ (Some (mkProofRequestId 1, peer_b)) None 0 1 false false.
Definition sample_after : Net :=
  mkNet (mkWorker peer_a 1 1000 10 100 {[ sample_wanted := sample_retrieval ]} [] 1 []) 8
    [CallReplaceLocal ∅ (Ok tt); CallProviders sample_wanted (Ok [peer_a; peer_b]);
      CallRequest peer_b sample_wanted (Ok (mkProofRequestId 1))].

(** the initial reconciliation requests the proof from the other peer *)
Lemma sample_run_eq : run_turns sample_world 3 [] sample_net = (Ok tt, sample_after).
Proof. vm_refl. Qed.

Lemma retrieval_slots_witness :
  match run_turns sample_world 3 [] sample_net with
  | (Ok _, n) =>
      active_retrievals (wk n) = Z.of_nat (size (actives (retrievals (wk n)))) /\
      active_retrievals (wk n) <= Z.max 0 1 /\
      (pending (wk n) = [] \/ 1 <= active_retrievals (wk n))
  | (Err f, _) => exists e, f = Fail e
  end.
Proof.
  exact (retrieval_slots sample_world 3 _ peer_a 1 1000 10 100 [] sample_world_ok sample_world_size).
Defined.

Lemma retrieval_progress_witness :
  (queued sample_retrieval = true /\ sample_wanted ∈ pending (wk sample_after)) \/
  active sample_retrieval <> None \/ live (wk sample_after) sample_wanted sample_retrieval.
Proof.
  refine (proj1 (retrieval_progress sample_world 3 _ peer_a 1 1000 10 100 [] sample_after
    sample_wanted sample_retrieval sample_world_ok sample_world_size sample_run_eq _) eq_refl).
  vm_refl.
Defined.

(** The same world, but the driver is gone when the second answer is given to it. *)
Definition deaf_world : World := {|
  world_now := world_now sample_world;
  world_get := world_get sample_world;
  world_get_proof := world_get_proof sample_world;
  world_attach := world_attach sample_world;
  world_local := world_local sample_world;
  world_waiting := world_waiting sample_world;
  world_unit k := if (k =? 11)%nat then Err P2pDriverClosed else Ok tt;
  world_providers := world_providers sample_world;
  world_request := world_request sample_world;
  world_query := world_query sample_world;
  world_shuffle := world_shuffle sample_world;
  world_random := world_random sample_world
|}.

Definition sample_rounds :
    list (list (option DriverEvent) * list (result RecvError ProofStoreEvent)) :=
  [(map (fun i => Some (ProofRequested (mkInboundId i) peer_b sample_wanted)) [7; 8; 9], [])].
Definition sample_requests : list (InboundProofRequestId * VerificationId) :=
  map (fun i => (mkInboundId i, sample_wanted)) [7; 8; 9].

(** Three requests wait: all are answered, or only the first when the driver refuses the second. *)
Definition sample_drained : Net :=
  mkNet (wk sample_after) 14
    (calls sample_after ++ map (fun i => CallRespond (mkInboundId i) None (Ok tt)) [7; 8; 9]).
Definition sample_stopped : Net :=
  mkNet (wk sample_after) 12
    (calls sample_after ++ [CallRespond (mkInboundId 7) None (Ok tt);
       CallRespond (mkInboundId 8) None (Err P2pDriverClosed)]).

Lemma sample_drained_eq : drain sample_world 3 sample_rounds sample_after = (Ok tt, sample_drained).
Proof. vm_refl. Qed.

Lemma sample_stopped_eq :
  drain deaf_world 3 sample_rounds sample_after = (Err (Fail P2pDriverClosed), sample_stopped).
Proof. vm_refl. Qed.

Lemma deaf_world_ok : world_ok deaf_world {[peer_a; peer_b]}.
Proof. split; [|done]. intros k. apply sample_providers_ok. Qed.

Lemma deaf_run_eq : run_turns deaf_world 3 [] sample_net = (Ok tt, sample_after).
Proof. vm_refl. Qed.

Lemma drain_answers_inbound_witness :
  answered sample_world sample_requests sample_after sample_drained /\
  cut_short deaf_world sample_requests (Fail P2pDriverClosed) sample_after sample_stopped.
Proof.
  pose proof (drain_answers_inbound sample_world 3 _ peer_a 1 1000 10 100 [] sample_after
    sample_rounds sample_world_ok sample_world_size sample_run_eq) as served.
  pose proof (drain_answers_inbound deaf_world 3 _ peer_a 1 1000 10 100 [] sample_after
    sample_rounds deaf_world_ok sample_world_size deaf_run_eq) as stopped.
  cbv zeta in served, stopped. rewrite sample_drained_eq in served.
  rewrite sample_stopped_eq in stopped. exact (conj served stopped).
Defined.

Lemma retry_pause_bounded_witness :
  full_jitter (fun m => m / 2) (retry_cap 10 1000 3) 500 = 40 /\
  full_jitter (fun m => m / 2) (retry_cap 10 1000 3) 500 <= 500.
Proof.
  split; [vm_refl|].
  refine (proj1 (proj2 (proj2 (proj2 (retry_pause_bounded (fun m => m / 2) 10 1000 3 500 _ _ _ _ _)))));
    [|lia..].
  intros m Hm. split; [apply Z.div_pos; lia|]. apply Z.div_le_upper_bound; lia.
Defined.
End witnesses.
