(* ===== verification/P2pSystem.v ===== *)
(** * The worker and the driver together
    (src/src/p2p/worker.rs, src/src/p2p/driver.rs; the [DriverClient] between them)

    The worker calls the driver through its client's mailbox and reads the driver's events from a
    channel. In between the driver serves the network, its other clients and its timers. *)

From stdpp Require Import base gmap list strings.
From S2P Require Import Prelude Types Wire Samples ErrorText ProofId StoreRecord ConfigTypes Store Broadcast.
From S2P Require Import P2pTypes P2pAvailability P2pBehaviour P2pDriver P2pDriverProps P2pWorker P2pWorkerProps.

(** ** The client *)

Section client.
Context `{Multiaddrs, SwarmTypes, Hex, Formatting, Sha256, ProstVarint}.
Context `{Message AvailabilityMessage, Message WireProof}.

(** What comes of a command that is sent: a reply, or nothing because the driver does not take it or
    drops its reply channel. *)
Abbreviation Mailbox := (DriverCommand -> option Reply).

(** The reply channel has the type of the command's answer. *)
Definition unit_reply (reply : Reply) : option (Result unit) :=
  match reply with ReplyUnit r => Some r | _ => None end.
Definition query_reply (reply : Reply) : option (Result QueryId) :=
  match reply with ReplyQuery r => Some r | _ => None end.
Definition providers_reply (reply : Reply) : option (Result (list PeerId)) :=
  match reply with ReplyProviders r => Some r | _ => None end.
Definition request_reply (reply : Reply) : option (Result ProofRequestId) :=
  match reply with ReplyRequest r => Some r | _ => None end.

(** [DriverClient::call]. *)
Definition DriverClient_call {T} (reply_type : Reply -> option (Result T)) (mailbox : Mailbox)
  (command : DriverCommand) : Result T :=
  match mailbox command ≫= reply_type with
  | Some r => r
  | None => Err P2pDriverClosed
  end.

Definition client_announce (m : Mailbox) (id : VerificationId) : Result unit :=
  DriverClient_call unit_reply m (CmdAnnounce id).
Definition client_forget_local_proof (m : Mailbox) (id : VerificationId) : Result unit :=
  DriverClient_call unit_reply m (CmdForgetLocalProof id).
Definition client_replace_local_proofs (m : Mailbox) (ids : gset VerificationId) : Result unit :=
  DriverClient_call unit_reply m (CmdReplaceLocalProofs ids).
Definition client_query_availability (m : Mailbox) (id : VerificationId) : Result QueryId :=
  DriverClient_call query_reply m (CmdQueryAvailability id).
Definition client_providers (m : Mailbox) (id : VerificationId) : Result (list PeerId) :=
  DriverClient_call providers_reply m (CmdProviders id).
Definition client_request_proof (m : Mailbox) (peer : PeerId) (id : VerificationId) : Result ProofRequestId :=
  DriverClient_call request_reply m (CmdRequestProof peer id).
Definition client_respond_proof (m : Mailbox) (request_id : InboundProofRequestId) (proof : option Proof_)
  : Result unit :=
  DriverClient_call unit_reply m (CmdRespondProof request_id proof).
Definition client_replace_authorized_peers (m : Mailbox) (peers : gset PeerId) : Result unit :=
  DriverClient_call unit_reply m (CmdReplaceAuthorizedPeers peers).
Definition client_drain (m : Mailbox) : Result unit := DriverClient_call unit_reply m CmdDrain.

(** The command of a call of the worker. *)
Definition command_of (c : DriverCall) : DriverCommand :=
  match c with
  | CallAnnounce id _ => CmdAnnounce id
  | CallForget id _ => CmdForgetLocalProof id
  | CallReplaceLocal ids _ => CmdReplaceLocalProofs ids
  | CallQuery id _ => CmdQueryAvailability id
  | CallProviders id _ => CmdProviders id
  | CallRequest peer id _ => CmdRequestProof peer id
  | CallRespond request_id proof _ => CmdRespondProof request_id proof
  end.

(** The result the worker got is the one its client returns. *)
Definition returned_by (m : Mailbox) (c : DriverCall) : Prop :=
  match c with
  | CallAnnounce id r => r = client_announce m id
  | CallForget id r => r = client_forget_local_proof m id
  | CallReplaceLocal ids r => r = client_replace_local_proofs m ids
  | CallQuery id r => r = client_query_availability m id
  | CallProviders id r => r = client_providers m id
  | CallRequest peer id r => r = client_request_proof m peer id
  | CallRespond request_id proof r => r = client_respond_proof m request_id proof
  end.
End client.

(** ** Where a slot comes from *)

Section slots.
Context `{Libp2p, Sha256, ProstVarint} (world : World) (fuel : nat).

Abbreviation netM := (stm Net Fault).

(** The retrieval of [id] has a slot for the request [rid] to [peer]. *)
Definition held (w : Worker) (rid : ProofRequestId) (peer : PeerId) (id : VerificationId) : Prop :=
  exists st, retrievals w !! id = Some st /\ active st = Some (rid, peer).

(** A slot was there before, or its request was accepted since. *)
Definition slots_from (n n' : Net) : Prop :=
  exists l, calls n' = calls n ++ l /\ forall rid peer id, held (wk n') rid peer id ->
    held (wk n) rid peer id \/ CallRequest peer id (Ok rid) ∈ l.

#[export] Instance slots_from_preorder : PreOrder slots_from.
Proof.
  split.
  - intros n. exists []. rewrite app_nil_r. split; [done|]. auto.
  - intros n1 n2 n3 (l1 & E1 & F1) (l2 & E2 & F2). exists (l1 ++ l2). rewrite E2, E1, app_assoc.
    split; [done|]. intros rid peer id Hh. rewrite elem_of_app.
    destruct (F2 _ _ _ Hh) as [Hh'|]; [|by auto]. destruct (F1 _ _ _ Hh'); auto.
Qed.

(** The worker's state changes without a new slot. *)
Definition shrinks (w w' : Worker) : Prop := forall rid peer id, held w' rid peer id -> held w rid peer id.

Lemma shrinks_refl w : shrinks w w.
Proof. intros rid peer id Hh. exact Hh. Qed.

Lemma shrinks_trans w1 w2 w3 : shrinks w1 w2 -> shrinks w2 w3 -> shrinks w1 w3.
Proof. intros S1 S2 rid peer id Hh. by apply S1, S2. Qed.

Lemma shrinks_same w w' : retrievals w' = retrievals w -> shrinks w w'.
Proof. intros E rid peer id. unfold held. by rewrite E. Qed.

Lemma shrinks_put id st st' w :
  retrievals w !! id = Some st -> active st' = active st \/ active st' = None ->
  shrinks w (put_state_of id st' w).
Proof.
  intros L Ha rid peer id' (x & Hx & Hr). simpl in Hx. apply lookup_insert_Some in Hx as [[<- <-]|[_ Hx]].
  - exists st. split; [done|]. by destruct Ha as [<-|Ha]; [|rewrite Ha in Hr].
  - by exists x.
Qed.

Lemma shrinks_new id st w : active st = None -> shrinks w (put_state_of id st w).
Proof.
  intros Ha rid peer id' (x & Hx & Hr). simpl in Hx. apply lookup_insert_Some in Hx as [[<- <-]|[_ Hx]].
  - congruence.
  - by exists x.
Qed.

Lemma shrinks_delete id w : shrinks w (set_retrievals (delete id (retrievals w)) w).
Proof. intros rid peer id' (x & Hx & Hr). simpl in Hx. apply lookup_delete_Some in Hx as [_ Hx]. by exists x. Qed.

Lemma shrinks_enqueue id w : shrinks w (enqueue id w).
Proof.
  unfold enqueue. destruct (retrievals w !! id) as [st|] eqn:L; [|apply shrinks_refl].
  destruct (_ || _); [apply shrinks_refl|]. apply (shrinks_put id st (with_queued true st) w); auto.
Qed.

Lemma shrinks_stop id w : shrinks w (stop_retrieval id w).
Proof.
  unfold stop_retrieval. destruct (retrievals w !! id) as [st|] eqn:L; [|apply shrinks_refl].
  destruct (is_none _); [apply shrinks_delete|]. eapply shrinks_put; [done|by left].
Qed.

Lemma shrinks_clear id w : shrinks w (clear_query id w).
Proof.
  unfold clear_query. destruct (retrievals w !! id) as [st|] eqn:L; [|apply shrinks_refl]. eapply shrinks_put; [done|by left].
Qed.

(** [m] takes slots only for requests the driver accepted. *)
Definition backed {A} (m : netM A) : Prop := forall n, wp m (fun _ n' => slots_from n n') (fun _ _ => True) n.

Lemma backed_bind {A B} (m : netM A) (f : A -> netM B) :
  backed m -> (forall a, backed (f a)) -> backed (m ≫= f).
Proof.
  intros Hm Hf n. specialize (Hm n). unfold wp, mbind, stm_bind in *.
  destruct (m n) as [[a|e] n1]; [|done]. specialize (Hf a n1). unfold wp in Hf.
  destruct (f a n1) as [[b|e] n2]; [|done]. by etrans.
Qed.

Lemma backed_ret {A} (a : A) : backed (mret a).
Proof. intros n. apply wp_ret. reflexivity. Qed.
Lemma backed_throw {A} f : backed (throw f : netM A).
Proof. intros n. by apply wp_throw. Qed.
Lemma backed_get_worker : backed get_worker.
Proof. intros n. exact (reflexivity n). Qed.
Lemma backed_ask {A} (f : nat -> A) : backed (ask f).
Proof. intros n. exists []. simpl. rewrite app_nil_r. by auto. Qed.
Lemma backed_call {A} (c : A -> DriverCall) (f : nat -> A) : backed (call c f).
Proof. intros n. eexists. split; [done|]. by auto. Qed.
Lemma backed_try {A} (r : Result A) : backed (try_ r).
Proof. destruct r; [apply backed_ret|apply backed_throw]. Qed.
Lemma backed_update f : (forall w, shrinks w (f w)) -> backed (update f).
Proof. intros Hf n. exists []. simpl. rewrite app_nil_r. split; [done|]. intros rid peer id Hh. left. by apply Hf. Qed.
Lemma backed_passed d : backed (passed world d).
Proof. destruct d; [|apply backed_ret]. apply backed_bind; [apply backed_ask|]. intros. apply backed_ret. Qed.
Lemma backed_for_each {A} (f : A -> netM unit) (l : list A) :
  (forall a, backed (f a)) -> backed (for_each f l).
Proof. intros Hf. induction l; simpl; [apply backed_ret|]. by apply backed_bind. Qed.

(** Symbolic execution: from a state whose slots have their origin since [n0]. *)
Definition backs (n0 : Net) {A} (m : netM A) (n : Net) : Prop :=
  slots_from n0 n -> wp m (fun _ n' => slots_from n0 n') (fun _ _ => True) n.

Lemma backs_backed {A} (m : netM A) : (forall n, backs n m n) -> backed m.
Proof. intros Hm n. apply Hm. reflexivity. Qed.

Lemma backs_call n0 {A} (m : netM A) n : backed m -> backs n0 m n.
Proof.
  intros Hm S. specialize (Hm n). unfold wp in *. destruct (m n) as [[a|e] n']; [|done]. by etrans.
Qed.

Lemma backs_then n0 {A B} (m : netM A) (k : A -> netM B) n :
  backed m -> (forall a n', backs n0 (k a) n') -> backs n0 (m ≫= k) n.
Proof.
  intros Hm Hk S. specialize (Hm n). unfold wp, mbind, stm_bind in *.
  destruct (m n) as [[a|e] n']; [|done]. apply Hk. by etrans.
Qed.

Lemma wp_assoc {A B C} (m : netM A) (f : A -> netM B) (k : B -> netM C) Q X n :
  wp (a ← m; b ← f a; k b) Q X n -> wp (b ← (a ← m; f a); k b) Q X n.
Proof. unfold wp, mbind, stm_bind. by destruct (m n) as [[a|e] n']. Qed.

Lemma backs_assoc n0 {A B C} (m : netM A) (f : A -> netM B) (k : B -> netM C) n :
  backs n0 (a ← m; b ← f a; k b) n -> backs n0 (b ← (a ← m; f a); k b) n.
Proof. intros Hm Hs. by apply wp_assoc, Hm. Qed.

Lemma backs_ret n0 {A B} (a : A) (k : A -> netM B) n : backs n0 (k a) n -> backs n0 (mret a ≫= k) n.
Proof. done. Qed.
Lemma backs_throw n0 {A B} f (k : A -> netM B) n : backs n0 (throw f ≫= k) n.
Proof. done. Qed.
Lemma backs_get n0 {B} (k : Worker -> netM B) n : backs n0 (k (wk n)) n -> backs n0 (get_worker ≫= k) n.
Proof. done. Qed.
Lemma backs_ask n0 {A B} (f : nat -> A) (k : A -> netM B) n :
  (forall a, backs n0 (k a) (mkNet (wk n) (S (tick n)) (calls n))) -> backs n0 (ask f ≫= k) n.
Proof.
  intros Hk Hs. apply (Hk (f (tick n))). etrans; [exact Hs|]. exists []. simpl. rewrite app_nil_r. auto.
Qed.

(** An update of the worker as it is. *)
Lemma slots_from_update n0 n w :
  slots_from n0 n -> shrinks (wk n) w -> slots_from n0 (mkNet w (tick n) (calls n)).
Proof.
  intros Hs Hw. etrans; [exact Hs|]. exists []. simpl. rewrite app_nil_r. split; [done|].
  intros rid peer id Hh. left. by apply Hw.
Qed.
Lemma backs_update n0 {B} f (k : unit -> netM B) n :
  shrinks (wk n) (f (wk n)) -> backs n0 (k tt) (mkNet (f (wk n)) (tick n) (calls n)) -> backs n0 (update f ≫= k) n.
Proof. intros Hf Hk Hs. apply Hk. by apply slots_from_update. Qed.
Lemma backs_update_last n0 f n : shrinks (wk n) (f (wk n)) -> backs n0 (update f) n.
Proof. intros Hf Hs. by apply slots_from_update. Qed.

(** The request the driver has just accepted gets the slot. *)
Lemma slots_from_request n0 n w t rid peer id st :
  slots_from n0 n -> retrievals w = <[id := st]> (retrievals (wk n)) -> active st = Some (rid, peer) ->
  slots_from n0 (mkNet w t (calls n ++ [CallRequest peer id (Ok rid)])).
Proof.
  intros Hs Hw Ha. etrans; [exact Hs|]. eexists. split; [done|]. intros rid' peer' id' (x & Hx & Hr).
  simpl in Hx. rewrite Hw in Hx. apply lookup_insert_Some in Hx as [[<- <-]|[_ Hx]].
  - right. apply list_elem_of_singleton. congruence.
  - left. by exists x.
Qed.

Lemma backs_request n0 {B} peer id f (k : Result ProofRequestId -> netM B) n :
  (forall rid, slots_from n0 n -> wp (k (Ok rid)) (fun _ => slots_from n0) (fun _ _ => True)
    (mkNet (wk n) (S (tick n)) (calls n ++ [CallRequest peer id (Ok rid)]))) ->
  (forall e n', backs n0 (k (Err e)) n') -> backs n0 (call (CallRequest peer id) f ≫= k) n.
Proof.
  intros Ho He Hs. apply wp_bind. unfold wp at 1, call. destruct (f (tick n)) as [rid|e]; [by apply Ho|].
  apply He. etrans; [exact Hs|]. eexists. split; [done|]. by auto.
Qed.

#[local] Hint Resolve backed_ret backed_throw backed_get_worker backed_ask backed_call backed_try backed_passed
  shrinks_refl shrinks_enqueue shrinks_stop shrinks_clear shrinks_delete : core.

Ltac backing := repeat first
  [ solve [auto] | apply backed_update; intros ? | apply backed_bind; [|intros ?]
  | apply backed_for_each; intros ? | case_match ].

(** One step; awaits keep the worker, so what was read of it stays true. *)
Ltac bstep :=
  lazymatch goal with
  | |- backs _ ((_ ≫= _) ≫= _) _ => apply backs_assoc
  | |- backs _ (mret _ ≫= _) _ => apply backs_ret
  | |- backs _ (throw _ ≫= _) _ => apply backs_throw
  | |- backs _ (get_worker ≫= _) _ => apply backs_get; cbn [wk]
  | |- backs _ (ask _ ≫= _) _ => apply backs_ask; intros ?; cbn [wk tick calls]
  | |- backs _ (passed _ ?d ≫= _) _ => unfold passed; destruct d
  | |- backs _ (update _ ≫= _) _ => apply backs_update; [cbn [wk]|]
  | |- backs _ (update _) _ => apply backs_update_last; cbn [wk]
  | |- backs _ (match ?x with _ => _ end ≫= _) _ => destruct x eqn:?
  | |- backs _ (match ?x with _ => _ end) _ => destruct x eqn:?
  | |- backs _ (mret _) _ => apply backs_call, backed_ret
  | |- backs _ (throw _) _ => apply backs_call, backed_throw
  | |- backs _ (call (CallRequest _ _) _ ≫= _) _ => apply backs_request; [intros ? ?|intros ? ?]
  | |- backs _ (call _ _ ≫= _) _ => apply backs_then; [apply backed_call|intros ? ?]
  end.

Ltac bdone := first
  [ solve [auto] | apply backs_call; solve [auto] | apply shrinks_same; reflexivity
  | eapply shrinks_put; [eassumption|first [by left|by right]] ].

Lemma schedule_retry_backed id : backed (schedule_retry world id).
Proof. apply backs_backed. intros n. unfold schedule_retry. repeat (bstep; cbv zeta). bdone. Qed.
#[local] Hint Resolve schedule_retry_backed : core.

Lemma search_providers_backed id : backed (search_providers world id).
Proof. apply backs_backed. intros n. unfold search_providers. repeat bstep; bdone. Qed.
#[local] Hint Resolve search_providers_backed : core.

Lemma request_from_backed id peer : backed (request_from world id peer).
Proof.
  assert (forall n, backs n (request_from world id peer) n) as Hn; [|by apply backs_backed].
  intros n. unfold request_from. repeat bstep; try bdone.
  all: try (destruct (retrievals (wk n') !! id) eqn:?; bdone).
  all: match goal with S : slots_from _ _ |- _ => unfold wp, mbind, stm_bind, get_worker, update, modify; simpl;
    destruct (retrievals (wk n) !! id) as [st|] eqn:L; simpl end.
  all: try (eexists; split; [done|]; by auto).
  all: destruct (transfer_deadline st); simpl; (eapply (slots_from_request n n); [reflexivity|done|done]).
Qed.
#[local] Hint Resolve request_from_backed : core.

Lemma try_retrieve_backed k id : backed (try_retrieve world k id).
Proof.
  induction k as [|k IH]; simpl; [auto|]. apply backs_backed. intros n. bstep.
  apply backs_call. backing.
Qed.
#[local] Hint Resolve try_retrieve_backed : core.

Lemma drive_loop_backed rounds : backed (drive_loop world fuel rounds).
Proof.
  induction rounds as [|rounds IH]; simpl; [auto|]. apply backs_backed. intros n. repeat bstep; try bdone.
  apply backs_then; [auto|]. intros. bdone.
Qed.

Lemma drive_pending_backed : backed (drive_pending world fuel).
Proof. apply backs_backed. intros n. unfold drive_pending. bstep. apply backs_call, drive_loop_backed. Qed.
#[local] Hint Resolve drive_pending_backed : core.

Lemma ensure_retrieval_backed id : backed (ensure_retrieval world fuel id).
Proof.
  unfold ensure_retrieval. backing; by apply shrinks_new.
Qed.
#[local] Hint Resolve ensure_retrieval_backed : core.

Lemma handle_wake_backed wake : backed (handle_wake world fuel wake).
Proof. apply backs_backed. intros n. unfold handle_wake. repeat (bstep; cbv zeta); bdone. Qed.

Lemma fire_backed i : backed (fire world fuel i).
Proof.
  apply backs_backed. intros n. unfold fire. repeat bstep; try bdone. apply backs_call, handle_wake_backed.
Qed.

Lemma finish_request_backed id rid peer succeeded : backed (finish_request world id rid peer succeeded).
Proof.
  apply backs_backed. intros n. unfold finish_request. repeat (bstep; cbv zeta); try bdone.
  all: eapply shrinks_trans; [|apply shrinks_enqueue]; by apply shrinks_new.
Qed.
#[local] Hint Resolve finish_request_backed : core.

Lemma reconcile_store_backed : backed (reconcile_store world fuel).
Proof.
  unfold reconcile_store. backing.
Qed.
#[local] Hint Resolve reconcile_store_backed : core.

(** ** The event that ends a request *)

(** A request, the peer it went to and the identifier it is for. *)
Definition ends_request (e : DriverEvent) : option (ProofRequestId * PeerId * VerificationId) :=
  match e with
  | ProofReceived rid peer id _ | ProofNotFound rid peer id | ProofRequestFailed rid peer id _ => Some (rid, peer, id)
  | _ => None
  end.

Lemma finish_request_clears id rid peer succeeded n :
  wp (finish_request world id rid peer succeeded) (fun _ n' => ~ held (wk n') rid peer id) (fun _ _ => True) n.
Proof.
  unfold finish_request. apply wp_bind. unfold wp at 1, get_worker.
  destruct (retrievals (wk n) !! id) as [st|] eqn:L; [|intros (st & Hst & _); congruence].
  case_bool_decide as Ha; simpl.
  2: { intros (st' & Hst & Ha'). by simplify_eq. }
  destruct (_ <? _); [done|]. apply wp_bind, wp_modify, wp_bind. simpl.
  assert (forall late n', retrievals (wk n') = <[id := with_active None st]> (retrievals (wk n)) ->
    wp (if late : bool then update (fun w => set_retrievals (delete id (retrievals w)) w)
        else update (fun w => enqueue id (put_state_of id (with_attempted peer (with_active None st)) w)))
      (fun _ n2 => ~ held (wk n2) rid peer id) (fun _ _ => True) n') as Hend.
  { intros late n' E. destruct late; apply wp_modify; simpl.
    - intros (st' & Hst & _). simpl in Hst. by rewrite lookup_delete_eq in Hst.
    - intros Hh%shrinks_enqueue. destruct Hh as (st' & Hst & Hr). simpl in Hst.
      rewrite lookup_insert_eq in Hst. by simplify_eq. }
  destruct (succeeded || _); [by apply Hend|]. unfold passed.
  destruct (active_deadline _); [apply wp_bind; by apply Hend|by apply Hend].
Qed.

(** After the event that ends a request, its slot is free, unless the same request was made anew. *)
Lemma event_frees e draining rid peer id n :
  ends_request e = Some (rid, peer, id) ->
  wp (handle_driver_event world fuel e draining) (fun _ n' => exists l, calls n' = calls n ++ l /\
    (held (wk n') rid peer id -> CallRequest peer id (Ok rid) ∈ l)) (fun _ _ => True) n.
Proof.
  assert (forall b (k : unit -> netM unit) n0, calls n0 = calls n -> backed (k tt) ->
    wp (finish_request world id rid peer b ≫= k) (fun _ n' => exists l, calls n' = calls n ++ l /\
      (held (wk n') rid peer id -> CallRequest peer id (Ok rid) ∈ l)) (fun _ _ => True) n0) as Hf.
  { intros b k n0 Ec Hk. apply wp_bind. pose proof (finish_request_clears id rid peer b n0) as Hc.
    pose proof (finish_request_backed id rid peer b n0) as Hb. unfold wp in Hc, Hb |- * at 1.
    destruct (finish_request world id rid peer b n0) as [[[]|f] n1]; [|done].
    specialize (Hk n1). unfold wp in Hk |- *. destruct (k tt n1) as [[[]|f] n2]; [|done].
    destruct Hb as (l1 & E1 & _), Hk as (l2 & E2 & F2). exists (l1 ++ l2).
    rewrite E2, E1, Ec, app_assoc. split; [done|]. intros Hh. rewrite elem_of_app.
    destruct (F2 _ _ _ Hh) as [Hh'|]; [by destruct Hc|by right]. }
  assert (backed (drive_unless world fuel draining)) as Hd by (destruct draining; simpl; auto).
  destruct e as [| | | | | |rid' peer' id' p|rid' peer' id'|rid' peer' id' reason]; try done; intros [= -> -> ->]; simpl;
    try by apply Hf.
  apply wp_bind. unfold wp at 1, ask. destruct (world_attach _ _ _ _ _) as [c|err]; [by apply Hf|].
  destruct err; try done; try by apply Hf.
  apply wp_assoc, Hf; [done|]. backing.
Qed.

Lemma handle_driver_event_backed e draining : backed (handle_driver_event world fuel e draining).
Proof.
  assert (backed (drive_unless world fuel draining)) by (destruct draining; simpl; auto).
  destruct e; simpl; backing.
Qed.

Lemma handle_store_result_backed e draining : backed (handle_store_result world fuel e draining).
Proof. destruct e as [e|[]]; simpl; [|backing..]. destruct draining; [auto|]. destruct e; simpl; backing. Qed.

Definition turn_ends (t : turn) : option (ProofRequestId * PeerId * VerificationId) :=
  match t with TurnDriver (Some e) => ends_request e | _ => None end.

(** A slot after a turn: its request was accepted in the turn, or it was there and the turn did not
    read its end. *)
Lemma take_turn_slots t n :
  wp (take_turn world fuel t) (fun _ n' => exists l, calls n' = calls n ++ l /\
    forall rid peer id, held (wk n') rid peer id ->
      CallRequest peer id (Ok rid) ∈ l \/
      held (wk n) rid peer id /\ turn_ends t <> Some (rid, peer, id)) (fun _ _ => True) n.
Proof.
  assert (backed (take_turn world fuel t)) as Hb.
  { destruct t as [[e|]|e|i]; simpl; [apply handle_driver_event_backed|auto|apply handle_store_result_backed|
      apply fire_backed]. }
  specialize (Hb n).
  assert (forall rid peer id, turn_ends t = Some (rid, peer, id) ->
    wp (take_turn world fuel t) (fun _ n' => exists l, calls n' = calls n ++ l /\
      (held (wk n') rid peer id -> CallRequest peer id (Ok rid) ∈ l)) (fun _ _ => True) n) as Hf.
  { intros rid peer id. destruct t as [[e|]|e|i]; try done. apply event_frees. }
  unfold wp in *. destruct (take_turn world fuel t n) as [[[]|f] n']; [|done].
  destruct Hb as (l & El & Hl). exists l. split; [done|]. intros rid peer id Hh.
  destruct (Hl _ _ _ Hh) as [Hh'|]; [|by left].
  destruct (decide (turn_ends t = Some (rid, peer, id))) as [Ht|Ht]; [|by right].
  left. destruct (Hf _ _ _ Ht) as (l' & El' & Hl'). rewrite El in El'. apply app_inv_head in El' as <-. auto.
Qed.
End slots.

(** ** What becomes of an outstanding request *)

Section requests.
Context `{Multiaddrs, SwarmTypes, Hex, Formatting, Sha256, ProstVarint}.
Context `{Message AvailabilityMessage, Message WireProof} (world : SwarmWorld).

Abbreviation ends m Q := (wp m (fun _ => Q) (fun _ => Q)).

(** Outstanding requests stay, or the event that ends them is emitted. *)
Definition hands (n n' : DNet) : Prop :=
  exists evs, emitted n' = emitted n ++ evs /\
  forall k r, outbound_requests (driver n) !! k = Some r ->
    outbound_requests (driver n') !! k = Some r \/
    exists e, e ∈ evs /\ ends_request e = Some (application_id r, out_peer r, out_id r).

#[export] Instance hands_preorder : PreOrder hands.
Proof.
  split.
  - intros n. exists []. rewrite app_nil_r. auto.
  - intros n1 n2 n3 (l1 & E1 & F1) (l2 & E2 & F2). exists (l1 ++ l2). rewrite E2, E1, app_assoc.
    split; [done|]. intros k r Hk. setoid_rewrite elem_of_app.
    destruct (F1 _ _ Hk) as [Hk'|(e & ? & ?)]; [|right; eauto].
    destruct (F2 _ _ Hk') as [|(e & ? & ?)]; [by left|right; eauto].
Qed.

Lemma hands_same n n' evs :
  emitted n' = emitted n ++ evs -> outbound_requests (driver n') = outbound_requests (driver n) -> hands n n'.
Proof. intros E Eo. exists evs. rewrite Eo. auto. Qed.

Ltac hands_tac := first
  [ eapply (hands_same _ _ []); simpl; [by rewrite app_nil_r|done]
  | eapply hands_same; simpl; [rewrite <- ?app_assoc; reflexivity|done] ].
Ltac hands_exec := repeat (dstep; simpl); try hands_tac.

Lemma announce_hands id n : ends (announce world id) (hands n) n.
Proof. unfold announce. hands_exec. Qed.
Lemma query_availability_hands id n : ends (query_availability world id) (hands n) n.
Proof. unfold query_availability, require_running. hands_exec. Qed.
Lemma respond_proof_hands rid p n : ends (respond_proof world rid p) (hands n) n.
Proof.
  unfold respond_proof. hands_exec. destruct (response_result _ _ _); hands_exec.
Qed.

Lemma replace_authorized_peers_hands peers n : ends (replace_authorized_peers peers) (hands n) n.
Proof.
  unfold replace_authorized_peers. do 2 dstep. dstep.
  eapply wp_mono; [apply (wp_for_each _ _ _ (hands n)); [|reflexivity]|].
  { intros a s _ Hq. repeat dstep. etrans; [exact Hq|]. hands_tac. }
  intros [] s Hs. dstep.
  eapply wp_mono; [apply (wp_for_each _ _ _ (hands n)); [|exact Hs]|].
  { intros a s' _ Hq. repeat dstep. etrans; [exact Hq|]. hands_tac. }
  intros [] s' Hs'. dstep. etrans; [exact Hs'|]. hands_tac.
Qed.

Lemma begin_drain_hands n : ends begin_drain (hands n) n.
Proof.
  unfold begin_drain. do 2 dstep. dstep.
  eapply wp_mono; [apply (wp_for_each _ _ _ (hands n)); [|reflexivity]|].
  { intros a s _ Hq. repeat dstep. etrans; [exact Hq|]. hands_tac. }
  intros [] s Hs. dstep. etrans; [exact Hs|]. hands_tac.
Qed.

Lemma finish_drain_hands n : ends finish_drain (hands n) n.
Proof. unfold finish_drain. hands_exec; reflexivity. Qed.

Lemma handle_gossip_hands m n : ends (handle_gossip world m) (hands n) n.
Proof. unfold handle_gossip. hands_exec. Qed.
Lemma expire_queries_hands n : ends (expire_queries world) (hands n) n.
Proof. unfold expire_queries. hands_exec. Qed.
Lemma handle_inbound_request_hands peer q c n : ends (handle_inbound_request world peer q c) (hands n) n.
Proof.
  unfold handle_inbound_request. hands_exec. eapply wp_ends; [apply respond_proof_hands|..]; simpl; intros ? s Hs; dstep;
    (etrans; [|exact Hs]; hands_tac).
Qed.

(** A request leaves the table, and its end is emitted. *)
Lemma hands_taken n n' k r e evs :
  outbound_requests (driver n) !! k = Some r ->
  outbound_requests (driver n') = delete k (outbound_requests (driver n)) ->
  emitted n' = emitted n ++ evs -> e ∈ evs ->
  ends_request e = Some (application_id r, out_peer r, out_id r) -> hands n n'.
Proof.
  intros Hk Ho Ee Hin He. exists evs. split; [done|]. intros k' r' Hk'. rewrite Ho.
  destruct (decide (k' = k)) as [->|Hne]; [right|left; by rewrite lookup_delete_ne].
  simplify_eq. eauto.
Qed.

Lemma handle_outbound_response_hands peer k response n :
  ends (handle_outbound_response world peer k response) (hands n) n.
Proof.
  unfold handle_outbound_response, take_outbound, emit_failed. do 3 dstep.
  destruct (outbound_requests (driver n) !! k) as [r|] eqn:Hk; simpl; [|by do 2 dstep].
  repeat (dstep; simpl).
  all: rewrite ?orb_false_iff, ?negb_false_iff, ?bool_decide_eq_true in *; destruct_and?; subst.
  all: eapply (hands_taken _ _ k r); [done|done|done|by apply list_elem_of_singleton|done].
Qed.

(** libp2p reports a failure with the peer the request was sent to. *)
Definition names_peer (d : Driver) (i : Input) : Prop :=
  match i with
  | InSwarm (ProofExchange (ExOutboundFailure peer k _)) =>
      forall r, outbound_requests d !! k = Some r -> out_peer r = peer
  | _ => True
  end.

Lemma handle_outbound_failure_hands peer k error n :
  (forall r, outbound_requests (driver n) !! k = Some r -> out_peer r = peer) ->
  ends (handle_outbound_failure world peer k error) (hands n) n.
Proof.
  intros Hp. unfold handle_outbound_failure, take_outbound. do 3 dstep.
  destruct (outbound_requests (driver n) !! k) as [r|] eqn:Hk; simpl; [|by do 2 dstep].
  repeat (dstep; simpl). rewrite <- (Hp r eq_refl).
  eapply (hands_taken _ _ k r); [done|done|done|by apply list_elem_of_singleton|done].
Qed.

Context (fresh : forall i j, sw_send_request world i = sw_send_request world j -> i = j).

Lemma request_proof_hands cfg rcv peer id n :
  driver_inv world cfg rcv n ->
  wp (request_proof world peer id) (fun rid n' => hands n n' /\
      exists k r, outbound_requests (driver n') !! k = Some r /\ application_id r = rid /\
        out_peer r = peer /\ out_id r = id) (fun _ => hands n) n.
Proof.
  intros (E & _ & _). unfold request_proof, require_running. repeat (dstep; simpl); try reflexivity.
  assert (outbound_requests (driver n) !! sw_send_request world (dtick n) = None) as Hnone.
  { apply eq_None_not_Some. intros (t & Ht & Heq)%(ex_fresh _ _ _ E). apply fresh in Heq. lia. }
  split.
  - exists []. simpl. rewrite app_nil_r. split; [done|]. intros k r Hk. left.
    rewrite lookup_insert_ne by congruence. done.
  - eexists _, _. simpl. rewrite lookup_insert_eq. done.
Qed.

Lemma handle_command_hands cfg rcv c n :
  driver_inv world cfg rcv n -> ends (handle_command world c) (hands n) n.
Proof.
  intros I. destruct c as [id|id|ids|id|id|peer id|k proof|peers|]; simpl.
  - do 2 dstep. eapply wp_ends; [apply announce_hands|done..].
  - repeat dstep. hands_tac.
  - repeat dstep. hands_tac.
  - do 2 dstep. eapply wp_ends; [apply query_availability_hands|done..].
  - repeat dstep. reflexivity.
  - do 2 dstep. eapply wp_weaken; [by eapply request_proof_hands| |done]. intros a s [Hs _]. exact Hs.
  - do 2 dstep. eapply wp_ends; [apply respond_proof_hands|done..].
  - dstep. dstep. dstep; [|dstep; reflexivity]. dstep.
    eapply wp_ends; [apply replace_authorized_peers_hands|done..].
  - dstep. dstep. dstep; [|dstep; reflexivity..]. dstep.
    eapply wp_ends; [apply begin_drain_hands|done..].
Qed.

Lemma handle_swarm_event_hands e n :
  names_peer (driver n) (InSwarm e) -> ends (handle_swarm_event world e) (hands n) n.
Proof.
  destruct e as [l a|l e|peer|peer k|m|[peer q c|peer k response|peer k error|peer|]|]; simpl; intros Hp.
  - hands_exec.
  - hands_exec.
  - hands_exec.
  - hands_exec.
  - apply handle_gossip_hands.
  - apply handle_inbound_request_hands.
  - apply handle_outbound_response_hands.
  - by apply handle_outbound_failure_hands.
  - dstep. reflexivity.
  - dstep. reflexivity.
  - dstep. reflexivity.
Qed.

Lemma turn_hands cfg rcv i n :
  driver_inv world cfg rcv n -> names_peer (driver n) i -> ends (P2pDriver.turn world i) (hands n) n.
Proof.
  intros I Hp. unfold P2pDriver.turn. dstep.
  assert (ends (handle_input world i) (hands n) n) as Hi.
  { destruct i as [c|e|i| |]; simpl.
    - dstep. eapply wp_ends; [by eapply handle_command_hands|done..].
    - dstep. eapply wp_ends; [by apply handle_swarm_event_hands|done..].
    - dstep. dstep. dstep; [|dstep; reflexivity]. repeat dstep. hands_tac.
    - dstep. eapply wp_ends; [apply expire_queries_hands|done..].
    - dstep. dstep. dstep; dstep; reflexivity. }
  eapply wp_ends; [exact Hi| |done]. intros stop s Hs. dstep.
  eapply wp_ends; [apply finish_drain_hands|..]; intros ? s' Hs'; [dstep|]; (etrans; [exact Hs|exact Hs']).
Qed.
End requests.

(** ** The joint run *)

Section joint.
Context `{Multiaddrs, SwarmTypes, Hex, Formatting, Sha256, ProstVarint}.
Context `{Message AvailabilityMessage, Message WireProof}.
Context (sworld : SwarmWorld) (wworld : World) (fuel : nat).

(** The mailbox of the driver in the state [n]. *)
Definition mailbox (n : DNet) (c : DriverCommand) : option Reply := ok (fst (handle_command sworld c n)).

(** The running driver serves the calls of the worker in order; in between it takes other inputs,
    among them the commands of its other clients, which request no proofs. *)
Inductive served : DNet -> list DriverCall -> DNet -> Prop :=
| served_done n : served n [] n
| served_other i n n1 l n2 :
    (forall peer id, i <> InCommand (CmdRequestProof peer id)) -> names_peer (driver n) i ->
    P2pDriver.turn sworld i n = (Ok false, n1) -> served n1 l n2 -> served n l n2
| served_call c n n1 l n2 :
    P2pDriver.turn sworld (InCommand (command_of c)) n = (Ok false, n1) ->
    returned_by (mailbox n) c -> served n1 l n2 -> served n (c :: l) n2.

(** The worker, the driver, and how many of the driver's events the worker has read. *)
Inductive joint (n0 : Net) (d0 : DNet) : Net -> DNet -> nat -> Prop :=
| joint_start n d :
    reconcile_store wworld fuel n0 = (Ok tt, n) -> served d0 (drop (length (calls n0)) (calls n)) d ->
    joint n0 d0 n d 0
| joint_driver n d k d' : joint n0 d0 n d k -> served d [] d' -> joint n0 d0 n d' k
| joint_worker n d k t n' d' k' :
    joint n0 d0 n d k ->
    match t with
    | TurnDriver (Some e) => emitted d !! k = Some e /\ k' = S k
    | TurnDriver None => False
    | _ => k' = k
    end ->
    take_turn wworld fuel t n = (Ok tt, n') -> served d (drop (length (calls n)) (calls n')) d' ->
    joint n0 d0 n' d' k'.

(** The request of a slot is outstanding, or the event that ends it is on its way. *)
Definition in_progress (d : DNet) (k : nat) (rid : ProofRequestId) (peer : PeerId) (id : VerificationId) : Prop :=
  (exists key r, outbound_requests (driver d) !! key = Some r /\
     application_id r = rid /\ out_peer r = peer /\ out_id r = id) \/
  exists e, e ∈ drop k (emitted d) /\ ends_request e = Some (rid, peer, id).

Lemma hands_in_progress d d' k rid peer id :
  hands d d' -> (k <= length (emitted d))%nat -> in_progress d k rid peer id -> in_progress d' k rid peer id.
Proof.
  intros (evs & Ee & Ho) Hk [(key & r & Hr & <- & <- & <-)|(e & He & Hx)].
  - destruct (Ho _ _ Hr) as [Hr'|(e & He & Hx)]; [left; eauto 10|].
    right. exists e. split; [|done]. rewrite Ee, drop_app_le by done. apply elem_of_app. by right.
  - right. exists e. split; [|done]. rewrite Ee, drop_app_le by done. apply elem_of_app. by left.
Qed.

Context (fresh : forall i j, sw_send_request sworld i = sw_send_request sworld j -> i = j).

Lemma in_progress_mono d k k' rid peer id :
  (k <= k')%nat -> in_progress d k' rid peer id -> in_progress d k rid peer id.
Proof.
  intros Hk [Ho|(e & He & Hx)]; [by left|]. right. exists e. split; [|done].
  rewrite <- (take_drop (k' - k) (drop k (emitted d))), drop_drop, elem_of_app. right.
  by replace (k + (k' - k))%nat with k' by lia.
Qed.

Lemma turn_step cfg rcv i n n1 :
  driver_inv sworld cfg rcv n -> names_peer (driver n) i -> P2pDriver.turn sworld i n = (Ok false, n1) ->
  driver_inv sworld cfg (rcv ++ option_list (arrival i)) n1 /\ hands n n1.
Proof.
  intros I Hp Ht. pose proof (P2pDriverProps.turn_inv sworld fresh cfg rcv i n I) as Hi.
  pose proof (turn_hands sworld fresh cfg rcv i n I Hp) as Hh. unfold wp in *. by rewrite Ht in Hi, Hh.
Qed.

(** The client has the driver's word that a request was started. *)
Lemma request_accepted cfg rcv peer id rid n n1 :
  driver_inv sworld cfg rcv n -> Ok rid = client_request_proof (mailbox n) peer id ->
  P2pDriver.turn sworld (InCommand (CmdRequestProof peer id)) n = (Ok false, n1) ->
  in_progress n1 (length (emitted n)) rid peer id.
Proof.
  intros I Hc Ht. pose proof (request_proof_hands sworld fresh cfg rcv peer id n I) as Hr.
  unfold client_request_proof, DriverClient_call, mailbox in Hc.
  unfold P2pDriver.turn, handle_input, handle_command, mbind, stm_bind, reified in Hc, Ht. unfold wp in Hr.
  destruct (request_proof sworld peer id n) as [[x|e] n0]; simpl in Hc; [|done]. injection Hc as ->.
  destruct Hr as [(evs & Ee & _) Hout]. simpl in Ht.
  pose proof (finish_drain_hands n0) as Hf. unfold wp in Hf.
  destruct (finish_drain n0) as [[[]|e] n2]; [|done]. injection Ht as <-.
  apply (in_progress_mono _ _ (length (emitted n0))); [rewrite Ee, length_app; lia|].
  apply (hands_in_progress n0); [exact Hf|done|by left].
Qed.

Lemma served_spec cfg rcv d l d' :
  served d l d' -> driver_inv sworld cfg rcv d ->
  exists rcv', driver_inv sworld cfg rcv' d' /\ hands d d' /\
    forall rid peer id, CallRequest peer id (Ok rid) ∈ l -> in_progress d' (length (emitted d)) rid peer id.
Proof.
  intros Hs. revert rcv. induction Hs as [n|i n n1 l n2 Hi Hp Ht Hs IH|c n n1 l n2 Ht Hc Hs IH]; intros rcv I.
  - exists rcv. split_and!; [done|reflexivity|]. by intros rid peer id ?%elem_of_nil.
  - destruct (turn_step _ _ _ _ _ I Hp Ht) as [I1 G1]. destruct (IH _ I1) as (rcv' & I2 & G2 & Hl).
    exists rcv'. split_and!; [done|by etrans|]. intros rid peer id Hin.
    eapply in_progress_mono; [|by apply Hl]. destruct G1 as (evs & -> & _). rewrite length_app. lia.
  - destruct (turn_step _ _ (InCommand (command_of c)) _ _ I Logic.I Ht) as [I1 G1].
    destruct (IH _ I1) as (rcv' & I2 & G2 & Hl). exists rcv'. split_and!; [done|by etrans|].
    intros rid peer id [Ec|Hin]%elem_of_cons.
    + subst c. apply (hands_in_progress n1); [done|destruct G1 as (evs & -> & _); rewrite length_app; lia|].
      by eapply request_accepted.
    + eapply in_progress_mono; [|by apply Hl]. destruct G1 as (evs & -> & _). rewrite length_app. lia.
Qed.

(** Every slot of the worker has its request in progress. *)
Record joint_inv (n : Net) (d : DNet) (k : nat) : Prop := {
  ji_driver : exists cfg rcv, driver_inv sworld cfg rcv d;
  ji_read : (k <= length (emitted d))%nat;
  ji_slots : forall rid peer id, held (wk n) rid peer id -> in_progress d k rid peer id
}.

(** A turn of the worker with the driver serving it. *)
Lemma joint_turn n d k k' l n' d' :
  joint_inv n d k -> served d l d' -> (k <= k' <= length (emitted d))%nat ->
  (forall rid peer id, held (wk n') rid peer id ->
     CallRequest peer id (Ok rid) ∈ l \/ held (wk n) rid peer id /\
       (in_progress d k rid peer id -> in_progress d k' rid peer id)) ->
  joint_inv n' d' k'.
Proof.
  intros [(cfg & rcv & I) Hk Hs] Hd Hk' Hh. destruct (served_spec _ _ _ _ _ Hd I) as (rcv' & I' & Hands & Hl).
  split; [eauto|destruct Hands as (evs & -> & _); rewrite length_app; lia|].
  intros rid peer id Hx. destruct (Hh _ _ _ Hx) as [Hc|[Hold Hp]].
  - eapply in_progress_mono; [|by apply Hl]. lia.
  - eapply hands_in_progress; [done|lia|]. apply Hp, Hs, Hold.
Qed.

Lemma joint_calls n n' l : calls n' = calls n ++ l -> drop (length (calls n)) (calls n') = l.
Proof. intros ->. by rewrite drop_app_length. Qed.

Lemma joint_invariant n0 d0 n d k :
  retrievals (wk n0) = ∅ -> (exists cfg rcv, driver_inv sworld cfg rcv d0) ->
  joint n0 d0 n d k -> joint_inv n d k.
Proof.
  intros Hn0 Hd0. assert (joint_inv n0 d0 0) as J0.
  { split; [done|lia|]. intros rid peer id (st & Hst & _). by rewrite Hn0, lookup_empty in Hst. }
  induction 1 as [n d Hr Hs|n d k d' Hj IH Hs|n d k t n' d' k' Hj IH Ht Hr Hs].
  - pose proof (reconcile_store_backed wworld fuel n0) as Hb. unfold wp in Hb. rewrite Hr in Hb.
    destruct Hb as (l & El & Hl). rewrite (joint_calls _ _ _ El) in Hs.
    eapply joint_turn; [exact J0|exact Hs|lia|]. intros rid peer id Hh.
    destruct (Hl _ _ _ Hh) as [Hh'|]; [right; by split|by left].
  - eapply joint_turn; [exact IH|exact Hs|split; [done|apply IH]|]. intros rid peer id Hh. right. by split.
  - pose proof (take_turn_slots wworld fuel t n) as Hb. unfold wp in Hb. rewrite Hr in Hb.
    destruct Hb as (l & El & Hl). rewrite (joint_calls _ _ _ El) in Hs.
    assert (k <= k' <= length (emitted d))%nat as Hk'.
    { pose proof (ji_read _ _ _ IH). destruct t as [[e|]|e|i]; [|done|lia..].
      destruct Ht as [He%lookup_lt_Some ->]. lia. }
    eapply joint_turn; [exact IH|exact Hs|done|]. intros rid peer id Hh.
    destruct (Hl _ _ _ Hh) as [|[Hh' Hne]]; [by left|right]. split; [done|].
    destruct t as [[e|]|e|i]; [|done|by subst..]. destruct Ht as [He ->].
    intros [Ho|(e' & He' & Hx)]; [by left|]. right. exists e'. split; [|done].
    rewrite (drop_S _ _ _ He) in He'. apply elem_of_cons in He' as [->|]; [|done]. by destruct Hne.
Qed.

(** The worker's part of a joint run is a run of the worker. *)
Lemma joint_run n0 d0 n d k : joint n0 d0 n d k -> exists turns, run_turns wworld fuel turns n0 = (Ok tt, n).
Proof.
  induction 1 as [n d Hr Hs|n d k d' Hj IH Hs|n d k t n' d' k' Hj IH Ht Hr Hs].
  - exists []. unfold run_turns, mbind, stm_bind. by rewrite Hr.
  - done.
  - destruct IH as [turns IH]. exists (turns ++ [t]). revert IH. unfold run_turns, mbind, stm_bind.
    destruct (reconcile_store wworld fuel n0) as [[[]|f] n1]; [|done]. revert n1.
    induction turns as [|t' turns IHt]; intros n1; simpl.
    + intros [= ->]. unfold mbind, stm_bind. by rewrite Hr.
    + unfold mbind, stm_bind. destruct (take_turn wworld fuel t' n1) as [[[]|f] n2]; [|done]. apply IHt.
Qed.
End joint.

Section slot_properties.
Context `{Multiaddrs, SwarmTypes, Hex, Formatting, Sha256, ProstVarint}.
Context `{Message AvailabilityMessage, Message WireProof}.

(** C8: no retrieval slot is lost between the worker and the driver. At every point of every joint run
    of a worker and a driver from their start, the worker's calls being served through its client
    while the driver also serves the network, its timers and its other clients, the slots in use
    are the retrievals with a request, and each such request is outstanding at the driver or the
    event that ends it is on its way to the worker; so when the driver has drained and the worker
    has read its events, no slot is in use. libp2p is relied on to number its requests afresh and to
    report a failure with the peer the request was sent to. *)
Theorem slots_backed (sworld : SwarmWorld) (wworld : World) fuel peers w cfg local authorized d0 b boot
  peer max timeout initial maximum n d k :
  (forall i j, sw_send_request sworld i = sw_send_request sworld j -> i = j) ->
  Driver_build w cfg local authorized = Ok (d0, b, boot) ->
  world_ok wworld peers -> (size peers < fuel)%nat ->
  joint sworld wworld fuel (mkNet (Worker_new peer max timeout initial maximum) 0 []) (net_of d0) n d k ->
  active_retrievals (wk n) = Z.of_nat (size (actives (retrievals (wk n)))) /\
  (forall id st rid peer, retrievals (wk n) !! id = Some st -> active st = Some (rid, peer) ->
     in_progress d k rid peer id) /\
  (state (driver d) = Drained -> k = length (emitted d) -> active_retrievals (wk n) = 0).
Proof.
  intros Hfresh Hb Hw Hf Hj. destruct (build_inv sworld Hfresh _ _ _ _ _ _ _ Hb) as [I0 _].
  assert (joint_inv sworld n d k) as [(cfg' & rcv & I) Hk Hs]
    by (eapply joint_invariant; [exact Hfresh| |by eauto|exact Hj]; done).
  destruct (joint_run _ _ _ _ _ _ _ _ Hj) as [turns Hr].
  pose proof (run_from_start wworld fuel peers peer max timeout initial maximum turns Hw Hf) as T.
  rewrite Hr in T. destruct T as [[[C1 C2 C3] _] _]. split_and!; [done| |].
  - intros id st rid p Hst Ha. apply Hs. by exists st.
  - intros Hd Ek. rewrite C1. destruct I as (_ & _ & D). unfold drain_inv in D. rewrite Hd in D.
    destruct D as (_ & (_ & Ho & _) & _).
    assert (actives (retrievals (wk n)) = ∅) as ->; [|by rewrite size_empty].
    apply elem_of_equiv_empty_L. intros id (st & Hst & Ha)%elem_of_actives.
    destruct (active st) as [[rid p]|] eqn:Ea; [|done].
    destruct (Hs rid p id) as [(key & r & Hkey & _)|(e & He & _)]; [by exists st|..].
    + by rewrite Ho, lookup_empty in Hkey.
    + rewrite Ek, drop_all in He. by apply elem_of_nil in He.
Qed.
End slot_properties.

(** ** A concrete joint run *)

Section witness.
#[local] Existing Instance sample_libp2p.
#[local] Existing Instance sample_multiaddrs.
#[local] Existing Instance P2pDriverProps.sample_swarm.
#[local] Existing Instance sample_hex.
#[local] Existing Instance P2pDriverProps.sample_formatting.
#[local] Existing Instance sample_sha256.
#[local] Existing Instance sample_varint.
#[local] Existing Instance sample_availability_message.
#[local] Existing Instance sample_wire_proof_message.

(** the other validator announces the proof, which the worker then requests *)
Definition joint_world : World := {|
  world_now k := Z.of_nat k;
  world_get _ _ := Some sample_waiting_record;
  world_get_proof _ _ := None;
  world_attach _ _ _ _ := Ok ChangeUpdated;
  world_local _ := [];
  world_waiting _ := [mkStoredProof sample_wanted sample_waiting_record];
  world_unit _ := Ok tt;
  world_providers _ := Ok [Byte.x02 : PeerId];
  world_request _ := Ok (mkProofRequestId 1);
  world_query _ := Ok sample_query_id;
  world_shuffle _ l := l;
  world_random _ m := m
|}.
Definition joint_announcement : Input :=
  InSwarm (Gossip (mkGossip (Byte.x02 : PeerId) (Some (Byte.x02 : PeerId)) (announcement "c" zero_array))).

Definition after (i : Input) (d : DNet) : DNet := snd (P2pDriver.turn P2pDriverProps.sample_world i d).

Lemma after_eq i d :
  fst (P2pDriver.turn P2pDriverProps.sample_world i d) = Ok false ->
  P2pDriver.turn P2pDriverProps.sample_world i d = (Ok false, after i d).
Proof. unfold after. destruct (P2pDriver.turn _ i d). simpl. by intros ->. Qed.

Definition joint_net0 : Net := mkNet (Worker_new (Byte.x01 : PeerId) 1 1000 10 100) 0 [].
Definition joint_retrieval : RetrievalState :=
  mkRetrieval None (Some 1007) ∅ (Some (mkProofRequestId 1, Byte.x02 : PeerId)) None 0 1 false false.
Definition joint_net : Net :=
  mkNet (mkWorker (Byte.x01 : PeerId) 1 1000 10 100
      {[ sample_wanted := joint_retrieval ]} [] 1 []) 8
    [CallReplaceLocal ∅ (Ok tt); CallProviders sample_wanted (Ok [Byte.x02 : PeerId]);
      CallRequest (Byte.x02 : PeerId) sample_wanted (Ok (mkProofRequestId 1))].

Lemma joint_start_eq : reconcile_store joint_world 3 joint_net0 = (Ok tt, joint_net).
Proof. vm_refl. Qed.

Definition joint_d1 : DNet := after joint_announcement (net_of sample_driver).
Definition joint_d2 : DNet := after (InCommand (CmdReplaceLocalProofs ∅)) joint_d1.
Definition joint_d3 : DNet := after (InCommand (CmdProviders sample_wanted)) joint_d2.
Definition joint_d4 : DNet := after (InCommand (CmdRequestProof (Byte.x02 : PeerId) sample_wanted)) joint_d3.

Lemma joint_served : served P2pDriverProps.sample_world (net_of sample_driver) (calls joint_net) joint_d4.
Proof.
  eapply (served_other _ joint_announcement); [done|done|by apply after_eq; vm_refl|].
  do 3 (eapply served_call; [by apply after_eq; vm_refl|by vm_compute|]).
  apply served_done.
Qed.

Lemma joint_world_ok : world_ok joint_world {[ (Byte.x02 : PeerId) ]}.
Proof.
  split; [|done]. intros k l p [= <-] Hp. apply list_elem_of_singleton in Hp as ->. by apply elem_of_singleton.
Qed.

Lemma slots_backed_witness :
  in_progress joint_d4 0 (mkProofRequestId 1) (Byte.x02 : PeerId) sample_wanted.
Proof.
  assert (joint P2pDriverProps.sample_world joint_world 3 joint_net0 (net_of sample_driver) joint_net joint_d4 0) as Hj
    by (apply joint_start; [exact joint_start_eq|exact joint_served]).
  destruct (slots_backed P2pDriverProps.sample_world joint_world 3 _ sample_build_world sample_p2p_config _ _ _ _ _
    _ 1 1000 10 100 joint_net joint_d4 0 sample_fresh sample_build joint_world_ok
    (Nat.lt_le_trans _ _ _ (Nat.lt_succ_diag_r _) (Nat.le_succ_diag_r _)) Hj) as (_ & Hp & _).
  apply (Hp sample_wanted joint_retrieval); [vm_refl|reflexivity].
Defined.
End witness.
