(* ===== verification/App.v ===== *)
(** * The application (src/src/app.rs, [start] of src/src/p2p/service.rs and src/src/listener.rs)

    [App::run] composed from the components: what it starts with their models, what it waits for
    and how it ends with [Lifecycle]. A world gives the answers of everything foreign on the way:
    the file system, CometBFT, the swarm, the external verifier, and which branch of a
    [select!] is ready first. *)

From stdpp Require Import base gmap list strings.
From S2P Require Import Prelude Types Wire ConfigTypes Config Control ProofId Store Chain Noir.
From S2P Require Import P2pIdentity Verification P2pBehaviour P2pDriver Lifecycle.

Section app.
Context `{Multiaddrs, !SwarmTypes, !IdentityLib, !HeightText, !Sha256, !ProstVarint}.

(** ** Starting the P2P service *)

(** Building the HTTP client of a [PulsarClient]. *)
Abbreviation HttpBuild := (string -> Z -> result string unit).

Record P2pStart : Type := mkP2pStart {
  ps_http : HttpBuild;
  ps_status : Answer StatusResponse;
  ps_validators : Z -> Answer ValidatorsResponse;
  ps_build : BuildWorld;
  (** [None]: the driver dropped its side *)
  ps_ready : option (Result unit)
}.

Definition P2pService_start (w : P2pStart) (config : P2pConfig) (chain_config : ChainConfig) : procM unit :=
  identity ← returns (load_validator_identity (validator_key_path config));
  let local_peer_id := keypair_peer_id identity in
  validator_client ← returns (PulsarClient_new (ps_http w) chain_config);
  authorized_peers ← returns (load validator_client (ps_status w) (ps_validators w));
  if negb (bool_decide (local_peer_id ∈ authorized_peers)) then
    fail (P2pAuthorization ("local peer " +:+ peer_to_string local_peer_id
      +:+ " is not in the active validator set"))
  else
    _ ← returns (Driver_build (ps_build w) config local_peer_id authorized_peers);
    _ ← spawn DriverTask;
    _ ← spawn WorkerTask;
    _ ← set_client true;
    match ps_ready w with
    | None => _ ← P2pService_abort_and_join; fail (P2pDriver "driver exited before becoming ready")
    | Some (Err error) => _ ← P2pService_abort_and_join; fail error
    | Some (Ok _) => mret tt
    end.

(** ** Starting the listener *)

(** [PulsarListener::start]: [ready] is [None] when the listener ended before it was ready. *)
Definition PulsarListener_start (http : HttpBuild) (chain_config : ChainConfig) (ready : option unit)
  (ended : JoinResult) : procM unit :=
  _ ← returns (PulsarClient_new http chain_config);
  _ ← spawn ListenerTask;
  match ready with
  | Some _ => mret tt
  | None =>
      _ ← take_joined ListenerTask;
      match ended with
      | Ok (Err error) => fail error
      | Ok (Ok _) => fail (TaskExitedUnexpectedly (task_name ListenerTask))
      | Err error => fail (TaskError error)
      end
  end.

(** The branch of [start_listener] that fires. When it is not the first, the listener's task
    may have been spawned already; its owner is dropped then. *)
Inductive ListenerEnd : Type :=
| StartEnds (http : HttpBuild) (ready : option unit) (ended : JoinResult)
| ControlEnds (accepted : list (result IoError Connection)) (http : HttpBuild) (polled : bool)
| SignalEnds (r : Result unit) (http : HttpBuild) (polled : bool)
| P2pEnds (e : P2pEnd) (http : HttpBuild) (polled : bool)
| VerificationEnds (r : JoinResult) (http : HttpBuild) (polled : bool).

Inductive ListenerStartup : Set :=
| Started
| Disabled
| StartupShutdown (r : Result unit)
| StartupP2pTask (t : Task) (r : JoinResult)
| StartupVerificationTask (r : JoinResult).

(** The start that another branch overtook: not polled yet, or waiting for its listener, whose
    owner is dropped with it. *)
Definition drop_start (polled : bool) (http : HttpBuild) (chain_config : ChainConfig) : procM unit :=
  when (polled && is_ok (PulsarClient_new http chain_config))
    (_ ← spawn ListenerTask; drop_task ListenerTask).

Definition start_listener (path : string) (enabled : bool) (chain_config : ChainConfig) (p2p : bool)
  (e : ListenerEnd) : procM ListenerStartup :=
  if negb enabled then mret Disabled
  else match e with
  | StartEnds http ready ended => _ ← PulsarListener_start http chain_config ready ended; mret Started
  | ControlEnds accepted http polled =>
      r ← control_shutdown path accepted;
      _ ← drop_start polled http chain_config; mret (StartupShutdown r)
  | SignalEnds r http polled => _ ← drop_start polled http chain_config; mret (StartupShutdown r)
  | P2pEnds e http polled =>
      x ← wait_for_component p2p (P2pService_wait_for_exit e);
      _ ← drop_start polled http chain_config; mret (StartupP2pTask (fst x) (snd x))
  | VerificationEnds r http polled =>
      r ← wait_for_verification_exit r;
      _ ← drop_start polled http chain_config; mret (StartupVerificationTask r)
  end.

(** ** The run *)

(** What [App::run] meets. *)
Record AppWorld : Type := mkAppWorld {
  aw_fs : FsWorld;
  aw_noir : NoirWorld;
  aw_http : HttpBuild;
  aw_p2p : P2pStart;
  aw_listener : ListenerEnd;
  aw_rpc_bind : result IoError unit;
  aw_rpc_local : result IoError unit;
  aw_submission_bind : result IoError unit;
  aw_submission_local : result IoError unit;
  aw_end : AppEnd;
  aw_shutdown : ShutdownWorld;
  aw_remove_socket : result IoError unit
}.

Context (config : Config).

(** From the components that are running to the end of [App::run]. *)
Definition run_components (w : AppWorld) (listener : bool) : procM unit :=
  let p2p := p2p_enabled (p2p config) in
  let rpc_on := rpc_enabled (rpc config) in
  let submission_on := submission_enabled (submission config) in
  let cleanup_and_fail (rpc : bool) (error : Error) : procM unit :=
    _ ← cleanup_startup p2p listener rpc; fail error in
  rpc_started ← try_ (when rpc_on
    (RpcServer_start (rpc_listen_address (rpc config)) (aw_rpc_bind w) (aw_rpc_local w)));
  match rpc_started with
  | Err error => cleanup_and_fail false error
  | Ok _ =>
      submission_started ← try_ (when submission_on
        (SubmissionRpcServer_start (submission config) (cfg_max_proof_bytes (proof_store config))
           (aw_submission_bind w) (aw_submission_local w)));
      match submission_started with
      | Err error => cleanup_and_fail rpc_on error
      | Ok _ =>
          let components := mkComponents p2p listener rpc_on submission_on in
          exit ← wait_for_app_exit (control_socket (runtime config)) (aw_end w) components;
          handle_app_exit (aw_shutdown w) exit components (shutdown_timeout (runtime config))
      end
  end.

(** The registry: the Noir verifier, if it is enabled. *)
Definition build_registry (w : NoirWorld) : Result (VerifierRegistry NoirVerifier) :=
  if noir_enabled (noir config) then
    verifier ← NoirVerifier_initialize w (noir config);
    VerifierRegistry_new [(NoirBarretenberg, verifier)]
  else Ok [].

(** A computation that owns the control server, which is dropped at its end. *)
Definition with_control {A} (remove_file : result IoError unit) (m : procM A) : procM A := fun p =>
  match m p with
  | (Err Pending, p') => (Err Pending, p')
  | (r, p') => (r, snd (note (SocketDropped (ControlServer_drop remove_file)) p'))
  end.

(** [App::run] from the control server on. *)
Definition run_controlled (w : AppWorld) : procM unit :=
  let p2p := p2p_enabled (p2p config) in
  _ ← returns (ProofStore_new (proof_store config));
  _ ← returns (build_registry (aw_noir w));
  _ ← when (submission_enabled (submission config))
        (_ ← returns (PulsarClient_new (aw_http w) (chain config)); mret tt);
  _ ← when p2p (P2pService_start (aw_p2p w) (Config.p2p config) (chain config));
  _ ← spawn VerificationTask;
  startup ← try_ (start_listener (control_socket (runtime config)) (listener_enabled (listener config))
    (chain config) p2p (aw_listener w));
  let cleanup := cleanup_startup p2p false false in
  match startup with
  | Ok Started => run_components w true
  | Ok Disabled => run_components w false
  | Ok (StartupShutdown request) => _ ← cleanup; returns request
  | Ok (StartupP2pTask t r) => _ ← cleanup; fail (P2pExit_into_error t r)
  | Ok (StartupVerificationTask r) =>
      _ ← take_joined VerificationTask; _ ← cleanup; fail (unexpected_task_error VerificationTask r)
  | Err error => _ ← cleanup; fail error
  end.

Definition App_run (w : AppWorld) : procM unit :=
  _ ← returns (ControlServer_bind (aw_fs w) (control_socket (runtime config)));
  _ ← note SocketBound;
  with_control (aw_remove_socket w) (run_controlled w).

(** Whether the control server has seen a connection that ends it. *)
Definition control_ended (accepted : list (result IoError Connection)) : bool :=
  bool_decide (is_Some (wait_for_shutdown accepted (control_socket (runtime config)))).

(** A branch of a select only fires when what it waits for has happened, and a component that is
    waited for is there. *)
Definition possible (w : AppWorld) : bool :=
  match aw_listener w with
  | P2pEnds _ _ _ => p2p_enabled (p2p config)
  | ControlEnds accepted _ _ => control_ended accepted
  | _ => true
  end
  && match aw_end w with
     | EndControl accepted => control_ended accepted
     | EndP2p _ => p2p_enabled (p2p config)
     | EndListener _ => listener_enabled (listener config)
     | EndRpc _ => rpc_enabled (rpc config)
     | EndSubmission _ => submission_enabled (submission config)
     | _ => true
     end.
End app.
