(* ===== verification/AppProps.v ===== *)
(** * The application: what it starts is checked, and nothing is left running (proofs about App) *)

From stdpp Require Import base gmap list strings.
From S2P Require Import Prelude Types Wire Samples ConfigTypes Config Control ProofId Store Chain Noir.
From S2P Require Import P2pIdentity Verification P2pBehaviour P2pDriver P2pDriverProps.
From S2P Require Import Lifecycle LifecycleProps App.

Section app_props.
Context `{Multiaddrs, !SwarmTypes, !IdentityLib, !HeightText, !Sha256, !ProstVarint}.

(** A step of the startup: it either returns with [Q], or fails with nothing running. *)
Lemma wp_returns_clean {A} (r : Result A) (Q : A -> Process -> Prop) p :
  clean p -> (forall a, Q a p) -> wp (returns r) Q ends_failing p.
Proof. intros C HQ. apply wp_returns; [|by auto]. intros e _. split; [eauto|done]. Qed.

Lemma P2pService_start_spec w config chain_config p :
  clean p ->
  wp (P2pService_start w config chain_config) (fun _ p' => kept p' /\ handles p' = p2p_tasks) ends_failing p.
Proof.
  intros C. unfold P2pService_start. do 3 (apply wp_bind, wp_returns_clean; [done|]; intros ?).
  case_bool_decide; simpl; [|apply wp_throw; split; eauto].
  apply wp_bind, wp_returns_clean; [done|]. intros _.
  unfold spawn, set_client. apply wp_bind, wp_modify, wp_bind, wp_modify, wp_bind, wp_modify. simpl.
  destruct C as [K E].
  assert (kept (mkProcess ({[WorkerTask]} ∪ ({[DriverTask]} ∪ handles p)) true
     ((log p ++ [Spawned DriverTask]) ++ [Spawned WorkerTask]))) as K'.
  { assert (kept (mkProcess ({[DriverTask]} ∪ handles p) true (log p ++ [Spawned DriverTask]))) as K1
      by (apply kept_spawn; set_solver).
    refine (kept_spawn WorkerTask _ true K1 _). simpl. set_solver. }
  assert ({[WorkerTask]} ∪ ({[DriverTask]} ∪ handles p) = p2p_tasks) as E' by set_solver.
  assert (forall e, wp (_ ← P2pService_abort_and_join; fail e : procM unit)
    (fun _ p' => kept p' /\ handles p' = p2p_tasks) ends_failing
    (mkProcess ({[WorkerTask]} ∪ ({[DriverTask]} ∪ handles p)) true
     ((log p ++ [Spawned DriverTask]) ++ [Spawned WorkerTask]))) as D.
  { intros e. apply wp_bind. eapply wp_mono; [eapply sweeps_clean;
      [apply closes_sweeps, closes_p2p_abort|done|simpl; by rewrite E']|].
    intros [] p' C. apply wp_throw. split; [eauto|done]. }
  destruct (ps_ready w) as [[[]|e]|]; [by apply wp_ret|apply D..].
Qed.

(** The tasks after the listener's startup. *)
Definition after_startup (p2p : bool) (r : Result ListenerStartup) (p : Process) : Prop :=
  kept p /\ match r with
  | Ok Started => handles p = tasks_of (mkComponents p2p true false false)
  | Ok Disabled => handles p = tasks_of (mkComponents p2p false false false)
  | Ok (StartupVerificationTask _) =>
      handles p ⊆ tasks_of (mkComponents p2p false false false) /\ VerificationTask ∈ handles p
  | _ => handles p ⊆ tasks_of (mkComponents p2p false false false)
  end.

Lemma tasks_spawn_listener p2p :
  {[ListenerTask]} ∪ tasks_of (mkComponents p2p false false false) = tasks_of (mkComponents p2p true false false).
Proof.
  apply set_eq. intros t. rewrite elem_of_union, elem_of_singleton, !elem_of_tasks.
  destruct t; simpl; intuition congruence.
Qed.

Lemma listener_absent p2p rpc sub : ListenerTask ∉ tasks_of (mkComponents p2p false rpc sub).
Proof. by rewrite elem_of_tasks. Qed.

Lemma drop_start_spec b http chain_config p (X : Interrupt -> Process -> Prop) :
  kept p -> ListenerTask ∉ handles p ->
  wp (drop_start b http chain_config) (fun _ p' => kept p' /\ handles p' = handles p) X p.
Proof.
  intros K Hn. unfold drop_start. destruct (b && _); simpl; [|by apply wp_ret].
  apply wp_bind, wp_modify. unfold drop_task.
  apply wp_bind, wp_has_handle. rewrite bool_decide_true by (simpl; set_solver). apply wp_modify. simpl.
  split; [|set_solver].
  refine (kept_ended (DropAborted ListenerTask) ListenerTask _ _ _ (kept_spawn _ _ (client p) K Hn) _);
    [unfold ended_by; auto|simpl; set_solver].
Qed.

Lemma start_listener_spec path enabled chain_config p2p e p :
  runs_exactly (mkComponents p2p false false false) p ->
  match e with
  | P2pEnds _ _ _ => p2p
  | ControlEnds l _ _ => bool_decide (is_Some (wait_for_shutdown l path))
  | _ => true
  end = true ->
  wp (try_ (start_listener path enabled chain_config p2p e))
    (fun r p' => after_startup p2p r p' /\ (enabled = false -> r = Ok Disabled)
       /\ (enabled = true -> r <> Ok Disabled)) (fun _ _ => False) p.
Proof.
  intros [K E] He. assert (ListenerTask ∉ handles p) as Hn by (rewrite E; apply listener_absent).
  assert (forall t, runs (mkComponents p2p false false false) t = true -> t ∈ handles p) as R
    by (intros; by rewrite E, elem_of_tasks).
  assert (wp (start_listener path enabled chain_config p2p e)
    (fun r p' => after_startup p2p (Ok r) p' /\ (enabled = false -> r = Disabled)
       /\ (enabled = true -> r <> Disabled))
    (fun i p' => enabled = true /\ exists e, i = Failing e /\ after_startup p2p (Err e) p') p) as W.
  2: { unfold wp, try_ in *. destruct (start_listener path enabled chain_config p2p e p) as [[r|i] p'].
       - destruct W as (A&D1&D2). split; [done|]. split; [intros; f_equal; auto|]. intros En [= Er]. by apply D2.
       - destruct W as (->&x&->&A). done. }
  destruct enabled; simpl; [|apply wp_ret; by repeat split].
  assert (forall b http (r : Result unit), wp (_ ← drop_start b http chain_config; mret (StartupShutdown r))
    (fun r p' => after_startup p2p (Ok r) p' /\ (true = false -> r = Disabled) /\ (true = true -> r <> Disabled))
    (fun i p' => true = true /\ exists e, i = Failing e /\ after_startup p2p (Err e) p') p) as D.
  { intros b http r. apply wp_bind. eapply wp_mono; [by apply drop_start_spec|]. intros [] p' [K' E'].
    apply wp_ret. split; [|done]. split; [done|]. by rewrite E', E. }
  destruct e as [c rd en|l http b|r http b|e http b|r http b].
  - unfold PulsarListener_start. apply wp_bind, wp_bind, wp_returns.
    + intros x _. split; [done|]. exists x. split; [done|]. split; [done|]. by rewrite E.
    + intros _ _. apply wp_bind, wp_modify.
      pose proof (kept_spawn ListenerTask p (client p) K Hn) as K1.
      destruct rd as [[]|].
      * apply wp_ret, wp_ret. split; [|done]. split; [done|]. simpl. rewrite E. apply tasks_spawn_listener.
      * apply wp_bind, wp_modify.
        assert (forall x, after_startup p2p (Err x) (mkProcess (({[ListenerTask]} ∪ handles p) ∖ {[ListenerTask]})
          (client p) ((log p ++ [Spawned ListenerTask]) ++ [Joined ListenerTask]))) as D'.
        { intros x. split; [|simpl; set_solver].
          refine (kept_ended (Joined ListenerTask) ListenerTask _ _ _ K1 _); [unfold ended_by; auto|simpl; set_solver]. }
        destruct en as [[[]|x]|x]; apply wp_throw; (split; [done|]); eexists; (split; [done|]); apply D'.
  - apply bool_decide_eq_true in He as [r Hr]. apply wp_bind.
    unfold control_shutdown. rewrite Hr. apply wp_ret, D.
  - apply D.
  - subst p2p. unfold wait_for_component, P2pService_wait_for_exit.
    apply wp_bind, wp_bind, wp_has_handle, wp_bind, wp_has_handle. rewrite !bool_decide_true by by apply R. simpl.
    destruct e; apply wp_bind, wp_modify, wp_ret, wp_bind;
      (eapply wp_mono; [apply drop_start_spec; [apply kept_ended; unfold ended_by; auto|simpl; set_solver]|]);
      intros [] p' [K' E']; apply wp_ret; (split; [|done]); (split; [done|]); rewrite E'; simpl; set_solver.
  - unfold wait_for_verification_exit. apply wp_bind, wp_bind, wp_has_handle.
    rewrite bool_decide_true by by apply R. simpl. apply wp_ret, wp_bind.
    eapply wp_mono; [by apply drop_start_spec|]. intros [] p' [K' E']. apply wp_ret.
    split; [|done]. split; [done|]. rewrite E'. split; [by rewrite E|]. by apply R.
Qed.

(** A server that is started: its task runs, or nothing has changed. *)
Lemma server_start_spec (b : bool) t (m : procM unit) p :
  (forall (Q : unit -> Process -> Prop) (X : Interrupt -> Process -> Prop),
     (forall e, X (Failing e) p) -> wp (spawn t) Q X p -> wp m Q X p) ->
  kept p -> t ∉ handles p ->
  wp (try_ (when b m)) (fun r p' => kept p' /\
    handles p' = match r with Ok _ => only b {[t]} ∪ handles p | Err _ => handles p end) (fun _ _ => False) p.
Proof.
  intros Hm K Hn. destruct b; simpl.
  - assert (wp m (fun _ p' => kept p' /\ handles p' = {[t]} ∪ handles p)
      (fun i p' => (exists e, i = Failing e) /\ p' = p) p) as W
      by (apply Hm; [eauto|]; apply wp_modify; split; [by apply kept_spawn|done]).
    unfold wp, try_ in *. destruct (m p) as [[[]|i] p']; [done|]. by destruct W as [[e ->] ->].
  - split; [done|]. unfold only. by rewrite union_empty_l_L.
Qed.

Lemma RpcServer_start_cases address bind local_addr p (Q : unit -> Process -> Prop) X :
  (forall e, X (Failing e) p) -> wp (spawn RpcTask) Q X p -> wp (RpcServer_start address bind local_addr) Q X p.
Proof. intros HX HQ. unfold RpcServer_start. do 2 (apply wp_bind, wp_returns; [by auto|intros [] _]). done. Qed.

Lemma SubmissionRpcServer_start_cases config n bind local_addr p (Q : unit -> Process -> Prop) X :
  (forall e, X (Failing e) p) -> wp (spawn SubmissionTask) Q X p ->
  wp (SubmissionRpcServer_start config n bind local_addr) Q X p.
Proof.
  intros HX HQ. unfold SubmissionRpcServer_start. apply wp_bind, wp_returns; [by auto|]. intros z _.
  do 2 (apply wp_bind, wp_returns; [by auto|intros [] _]). done.
Qed.

Lemma tasks_spawn_rpc p2p lis b :
  only b {[RpcTask]} ∪ tasks_of (mkComponents p2p lis false false) = tasks_of (mkComponents p2p lis b false).
Proof.
  apply set_eq. intros t. rewrite elem_of_union, elem_of_only, elem_of_singleton, !elem_of_tasks.
  destruct t; simpl; intuition congruence.
Qed.
Lemma tasks_spawn_submission p2p lis rpc b :
  only b {[SubmissionTask]} ∪ tasks_of (mkComponents p2p lis rpc false) = tasks_of (mkComponents p2p lis rpc b).
Proof.
  apply set_eq. intros t. rewrite elem_of_union, elem_of_only, elem_of_singleton, !elem_of_tasks.
  destruct t; simpl; intuition congruence.
Qed.

Lemma cleanup_failing p2p lis rpc e p :
  kept p -> handles p ⊆ tasks_of (mkComponents p2p lis rpc false) ->
  wp (_ ← cleanup_startup p2p lis rpc; fail e : procM unit) (fun _ => clean) ends_failing p.
Proof.
  intros K Hs. apply wp_bind. eapply wp_mono; [by apply cleanup_clean|].
  intros [] p' C. apply wp_throw. split; [eauto|done].
Qed.

Section run.
Context (config : Config).

Lemma run_components_clean w lis p :
  possible config w = true -> (listener_enabled (listener config) = true -> lis = true) ->
  runs_exactly (mkComponents (p2p_enabled (p2p config)) lis false false) p ->
  wp (run_components config w lis) (fun _ => clean) ends_failing p.
Proof.
  intros Hp Hl [K E]. unfold run_components. apply wp_bind.
  eapply wp_sure; [apply (server_start_spec _ RpcTask); [intros; by apply RpcServer_start_cases|done|]|].
  { by rewrite E, elem_of_tasks. }
  intros [[]|e] p1 [K1 E1]; [|apply cleanup_failing; [done|by rewrite E1, E]].
  rewrite E, tasks_spawn_rpc in E1. apply wp_bind.
  eapply wp_sure; [apply (server_start_spec _ SubmissionTask);
    [intros; by apply SubmissionRpcServer_start_cases|done|]|].
  { by rewrite E1, elem_of_tasks. }
  intros [[]|e] p2 [K2 E2]; [|apply cleanup_failing; [done|by rewrite E2, E1]].
  rewrite E1, tasks_spawn_submission in E2. apply wp_bind.
  eapply wp_mono; [apply wait_for_app_exit_spec; [by split|]|].
  - unfold possible in Hp. apply andb_prop in Hp as [_ Hp]. destruct (aw_end w); simpl; auto.
  - intros exit p3 [K3 E3]. by apply handle_app_exit_clean.
Qed.

Definition idle : Process := mkProcess ∅ false [].

Lemma idle_clean : clean idle.
Proof. done. Qed.

Lemma wp_when_same (b : bool) (m : procM unit) p :
  wp m (fun _ p' => p' = p) ends_failing p -> wp (when b m) (fun _ p' => p' = p) ends_failing p.
Proof. by destruct b. Qed.

Lemma start_p2p_spec (b : bool) w p :
  clean p -> wp (when b (P2pService_start w (Config.p2p config) (chain config)))
    (fun _ p' => kept p' /\ handles p' = only b p2p_tasks) ends_failing p.
Proof. intros C. destruct b; [by apply P2pService_start_spec|]. by apply wp_ret. Qed.

Lemma tasks_spawn_verification p2p :
  {[VerificationTask]} ∪ only p2p p2p_tasks = tasks_of (mkComponents p2p false false false).
Proof.
  apply set_eq. intros t. rewrite elem_of_union, elem_of_only, elem_of_union, !elem_of_singleton, elem_of_tasks.
  destruct t, p2p; simpl; intuition congruence.
Qed.

Lemma run_controlled_clean w p0 :
  possible config w = true -> clean p0 -> wp (run_controlled config w) (fun _ => clean) ends_failing p0.
Proof.
  intros Hp C. unfold run_controlled.
  do 2 (apply wp_bind, wp_returns_clean; [done|]; intros _).
  apply wp_bind. eapply wp_mono; [apply wp_when_same|].
  { apply wp_bind, wp_returns_clean; [done|]. intros _. by apply wp_ret. }
  intros [] p ->. apply wp_bind. eapply wp_mono; [by apply start_p2p_spec|].
  intros [] p1 [K1 E1]. apply wp_bind, wp_modify.
  assert (VerificationTask ∉ handles p1) as Hv by (rewrite E1, elem_of_only; set_solver).
  pose proof (kept_spawn VerificationTask p1 (client p1) K1 Hv) as K2.
  apply wp_bind. eapply wp_sure; [apply start_listener_spec|].
  { split; [done|]. simpl. by rewrite E1, tasks_spawn_verification. }
  { unfold possible in Hp. apply andb_prop in Hp as [Hp _]. by destruct (aw_listener w). }
  intros r p3 ([K3 E3]&D1&D2). destruct r as [[| |r|t r|r]|e]; simpl in E3.
  - by apply run_components_clean.
  - apply run_components_clean; [done| |done]. intros En. by destruct (D2 En).
  - apply wp_bind. eapply wp_mono; [by apply cleanup_clean|]. intros [] p4 C4. by apply wp_returns_clean.
  - by apply cleanup_failing.
  - destruct E3 as [Hs Hin]. apply wp_bind, wp_modify. apply cleanup_failing.
    + apply kept_ended; unfold ended_by; auto.
    + simpl. set_solver.
  - by apply cleanup_failing.
Qed.

Lemma clean_socket a p : socket_act a -> clean p -> clean (snd (note a p)).
Proof. intros Ha [K E]. split; [by apply kept_socket|done]. Qed.

Lemma App_run_clean w : possible config w = true -> wp (App_run config w) (fun _ => clean) ends_failing idle.
Proof.
  intros Hp. apply wp_bind, wp_returns_clean; [done|]. intros []. apply wp_bind, wp_modify.
  pose proof (run_controlled_clean w _ Hp (clean_socket SocketBound idle I idle_clean)) as W.
  unfold wp, with_control in *. simpl in W. destruct (run_controlled config w _) as [[[]|i] p].
  - by apply clean_socket.
  - destruct W as [[e ->] C]. split; [eauto|by apply clean_socket].
Qed.
End run.

(** ** What has to hold before a task is spawned *)

(** What [m] does: the tasks it spawns satisfy [P], and it touches the control socket only if
    [socket]. *)
Definition act_ok (P : Task -> Prop) (socket : Prop) (a : Act) : Prop :=
  match a with Spawned t => P t | SocketBound | SocketDropped _ => socket | _ => True end.
Definition acts (P : Task -> Prop) (socket : Prop) (p p' : Process) : Prop :=
  exists l, log p' = log p ++ l /\ Forall (act_ok P socket) l.
Definition spawns (P : Task -> Prop) (socket : Prop) {A} (m : procM A) : Prop :=
  forall p, acts P socket p (snd (m p)).

#[export] Instance acts_preorder P socket : PreOrder (acts P socket).
Proof.
  split.
  - intros p. exists []. by rewrite app_nil_r.
  - intros p1 p2 p3 (l1&E1&F1) (l2&E2&F2). exists (l1 ++ l2). rewrite E2, E1, app_assoc.
    split; [done|by apply Forall_app].
Qed.

Section spawns.
Context (P : Task -> Prop) (socket : Prop).

Lemma spawns_ret {A} (a : A) : spawns P socket (mret a : procM A).
Proof. intros p. simpl. reflexivity. Qed.
Lemma spawns_throw {A} i : spawns P socket (throw i : procM A).
Proof. intros p. simpl. reflexivity. Qed.
Lemma spawns_bind_ok {A B} (m : procM A) (f : A -> procM B) :
  spawns P socket m -> (forall p a p', m p = (Ok a, p') -> spawns P socket (f a)) -> spawns P socket (m ≫= f).
Proof.
  intros Hm Hf p. specialize (Hm p). unfold mbind, stm_bind.
  destruct (m p) as [[a|i] p'] eqn:E; [|exact Hm]. etrans; [exact Hm|]. by eapply Hf.
Qed.
Lemma spawns_bind {A B} (m : procM A) (f : A -> procM B) :
  spawns P socket m -> (forall a, spawns P socket (f a)) -> spawns P socket (m ≫= f).
Proof. intros Hm Hf. apply spawns_bind_ok; [done|]. intros p a p' _. apply Hf. Qed.
Lemma spawns_returns {A} (r : Result A) : spawns P socket (returns r).
Proof. destruct r; [apply spawns_ret|apply spawns_throw]. Qed.
Lemma spawns_returns_bind {A B} (r : Result A) (f : A -> procM B) :
  (forall a, r = Ok a -> spawns P socket (f a)) -> spawns P socket (returns r ≫= f).
Proof.
  intros Hf. apply spawns_bind_ok; [apply spawns_returns|]. intros p a p'. destruct r; [|done].
  intros [= -> _]. by apply Hf.
Qed.
Lemma spawns_one (f : Process -> Process) (a : Act) :
  (forall p, log (f p) = log p ++ [a]) -> act_ok P socket a -> spawns P socket (modify f).
Proof. intros Hf Ha p. exists [a]. simpl. rewrite Hf. split; [done|by constructor]. Qed.
Lemma spawns_spawn t : P t -> spawns P socket (spawn t).
Proof. intros Ht. by apply (spawns_one _ (Spawned t)). Qed.
Lemma spawns_note a : act_ok P socket a -> spawns P socket (note a).
Proof. intros Ha. by apply (spawns_one _ a). Qed.
Lemma spawns_set_client b : spawns P socket (set_client b).
Proof. intros p. exists []. simpl. by rewrite app_nil_r. Qed.
Lemma spawns_get : spawns P socket get_state.
Proof. intros p. simpl. reflexivity. Qed.
Lemma spawns_has_handle t : spawns P socket (has_handle t).
Proof. apply spawns_bind; [apply spawns_get|intros; apply spawns_ret]. Qed.
Lemma spawns_take_joined t : spawns P socket (take_joined t).
Proof. by apply (spawns_one _ (Joined t)). Qed.
Lemma spawns_abort_task t : spawns P socket (abort_task t).
Proof.
  apply spawns_bind; [apply spawns_has_handle|]. intros [|]; [|apply spawns_ret].
  by apply (spawns_one _ (Aborted t)).
Qed.
Lemma spawns_drop_task t : spawns P socket (drop_task t).
Proof.
  apply spawns_bind; [apply spawns_has_handle|]. intros [|]; [|apply spawns_ret].
  by apply (spawns_one _ (DropAborted t)).
Qed.
Lemma spawns_when b (m : procM unit) : (b = true -> spawns P socket m) -> spawns P socket (when b m).
Proof. destruct b; [by intros Hm; apply Hm|]. intros _. apply spawns_ret. Qed.
Lemma spawns_try {A} (m : procM A) : spawns P socket m -> spawns P socket (try_ m).
Proof. intros Hm p. specialize (Hm p). unfold try_. by destruct (m p) as [[a|[]] p']. Qed.
Lemma spawns_await {A} (o : option A) : spawns P socket (await o).
Proof. destruct o; [apply spawns_ret|apply spawns_throw]. Qed.
Lemma spawns_fail {A} e : spawns P socket (fail e : procM A).
Proof. apply spawns_throw. Qed.
End spawns.

#[local] Hint Resolve spawns_ret spawns_get spawns_throw spawns_returns spawns_set_client spawns_has_handle
  spawns_take_joined spawns_abort_task spawns_drop_task spawns_await spawns_fail : core.

(** Goes through a computation; what is left are the tasks that are spawned. *)
Ltac spawning := repeat first
  [ solve [auto] | apply spawns_note; exact I | apply spawns_try | apply spawns_when; intros _
  | apply spawns_bind; [|intros ?] | case_match ].

Lemma spawns_p2p_abort P socket : spawns P socket P2pService_abort_and_join.
Proof. unfold P2pService_abort_and_join. spawning. Qed.
Lemma spawns_stop_and_join P socket t o timeout : spawns P socket (stop_and_join t o timeout).
Proof. unfold stop_and_join. spawning. Qed.
#[local] Hint Resolve spawns_p2p_abort spawns_stop_and_join : core.

Lemma spawns_shutdown_ordered P socket w : spawns P socket (shutdown_ordered w).
Proof. unfold shutdown_ordered, wait_for_worker_shutdown, join_task, P2pService_wait_for_exit. spawning. Qed.

Lemma spawns_p2p_shutdown P socket w timeout : spawns P socket (P2pService_shutdown w timeout).
Proof.
  intros p. pose proof (spawns_shutdown_ordered P socket w p) as Hs. unfold P2pService_shutdown.
  assert (forall r, spawns P socket (_ ← P2pService_abort_and_join; mret r : procM (Result unit))) as Ha
    by (intros r; spawning).
  destruct (shutdown_ordered w p) as [[[]|[]] p']; try exact Hs; (etrans; [exact Hs|apply Ha]).
Qed.
#[local] Hint Resolve spawns_p2p_shutdown : core.

Lemma spawns_shutdown_requested P socket w r c total : spawns P socket (shutdown_requested w r c total).
Proof.
  unfold shutdown_requested, shutdown_part, shutdown_submission_rpc, shutdown_listener, shutdown_p2p,
    shutdown_rpc, shutdown_verification, shutdown_within, SubmissionRpcServer_shutdown, PulsarListener_shutdown,
    RpcServer_shutdown. spawning.
Qed.
Lemma spawns_cleanup P socket p2p lis rpc : spawns P socket (cleanup_startup p2p lis rpc).
Proof. unfold cleanup_startup. spawning. Qed.
Lemma spawns_force P socket c : spawns P socket (force_shutdown_components c).
Proof. unfold force_shutdown_components. spawning. Qed.
#[local] Hint Resolve spawns_shutdown_requested spawns_cleanup spawns_force : core.

Lemma spawns_handle_app_exit P socket w exit c total : spawns P socket (handle_app_exit w exit c total).
Proof. unfold handle_app_exit. spawning. Qed.
Lemma spawns_wait_for_app_exit P socket path e c : spawns P socket (wait_for_app_exit path e c).
Proof.
  unfold wait_for_app_exit, control_shutdown, wait_for_component, wait_for_exit, P2pService_wait_for_exit,
    wait_for_verification_exit. spawning.
Qed.
#[local] Hint Resolve spawns_handle_app_exit spawns_wait_for_app_exit : core.

(** *** The network *)

Lemma group_bootnodes_authorized authorized l known boot :
  group_bootnodes authorized l known = Ok boot -> dom known ⊆ authorized -> dom boot ⊆ authorized.
Proof.
  revert known. induction l as [|a l IH]; intros known; simpl; [by intros [= <-]|].
  destruct (split_peer_address a) as [[peer address]|]; simpl; [|done].
  case_bool_decide; simpl; [|done]. intros E Hk. apply (IH _ E). rewrite dom_insert_L. set_solver.
Qed.

Lemma Driver_build_authorized w config local authorized d b boot :
  Driver_build w config local authorized = Ok (d, b, boot) ->
  authorized_peers d = authorized ∖ {[local]} /\ dom boot ⊆ authorized_peers d.
Proof.
  unfold Driver_build. destruct (behaviour_build _ _ _) as [[b' topic]|]; simpl; [|done].
  destruct (bd_tcp w), (bd_dns w), (bd_with_behaviour w); simpl; try done.
  destruct (listen_all _ _ _ _); simpl; [|done]. destruct (group_bootnodes _ _ _) as [boot'|] eqn:Eb; simpl; [|done].
  destruct (dial_all _ _); simpl; [|done]. intros [= <- <- <-]. split; [done|].
  apply (group_bootnodes_authorized _ _ _ _ Eb). rewrite dom_empty_L. set_solver.
Qed.

Lemma client_status_ok http config client answer s :
  PulsarClient_new http config = Ok client -> client_status client answer = Ok s ->
  exists r, answer = Answered (Ok r) /\ network r = chain_id config /\ catching_up r = false /\
    latest_height s = latest_block_height r.
Proof.
  unfold PulsarClient_new, client_status. destruct (http _ _); simpl; [|done]. intros [= <-].
  destruct answer as [|[r|]]; simpl; [done| |done]. case_bool_decide; simpl; [|done].
  destruct (catching_up r) eqn:Ec; simpl; [done|]. intros [= <-]. by exists r.
Qed.

(** The network runs as a validator: with the key of a private file, on the configured chain, for
    the complete validator set of the node's latest height, of which the local peer is a member;
    the driver talks to the others only, the bootnodes included. *)
Definition p2p_checked (w : P2pStart) (config : P2pConfig) (chain_config : ChainConfig) : Prop :=
  exists k m status validators peers d b boot,
    load_validator_identity (validator_key_path config) = Ok k /\
    fs_metadata (validator_key_path config) = Ok m /\ Z.land (mode m) 63 = 0 /\
    ps_status w = Answered (Ok status) /\ network status = chain_id chain_config /\
    ps_validators w (latest_block_height status) = Answered (Ok validators) /\
    size peers = length (v_pub_keys validators) /\ keypair_peer_id k ∈ peers /\
    Driver_build (ps_build w) config (keypair_peer_id k) peers = Ok (d, b, boot) /\
    authorized_peers d = peers ∖ {[keypair_peer_id k]} /\ dom boot ⊆ authorized_peers d.

Lemma p2p_start_checked w config chain_config k client peers d b boot :
  load_validator_identity (validator_key_path config) = Ok k ->
  PulsarClient_new (ps_http w) chain_config = Ok client ->
  load client (ps_status w) (ps_validators w) = Ok peers -> keypair_peer_id k ∈ peers ->
  Driver_build (ps_build w) config (keypair_peer_id k) peers = Ok (d, b, boot) ->
  p2p_checked w config chain_config.
Proof.
  intros Ek Ec El Hin Ed. destruct (identity_checked _ _ Ek) as (m&_&_&Hm&_&Hmode&_).
  unfold load in El. destruct (client_status client (ps_status w)) as [s|] eqn:Es; simpl in El; [|done].
  destruct (client_status_ok _ _ _ _ _ Ec Es) as (r&Hr&Hn&_&Hl). rewrite Hl in El.
  destruct (load_at_complete _ _ _ El) as (v&Hv&_&Hs&_).
  destruct (Driver_build_authorized _ _ _ _ _ _ _ Ed) as [Ha Hb].
  by exists k, m, r, v, peers, d, b, boot.
Qed.

Lemma spawns_p2p_start P socket w config chain_config :
  (p2p_checked w config chain_config -> P DriverTask /\ P WorkerTask) ->
  spawns P socket (P2pService_start w config chain_config).
Proof.
  intros HP. unfold P2pService_start. apply spawns_returns_bind. intros k Ek.
  apply spawns_returns_bind. intros client Ec. apply spawns_returns_bind. intros peers El.
  case_bool_decide as Hin; simpl; [|auto]. apply spawns_returns_bind. intros [[d b] boot] Ed.
  destruct HP as [Pd Pw]; [by eapply p2p_start_checked|].
  apply spawns_bind; [by apply spawns_spawn|]. intros _. apply spawns_bind; [by apply spawns_spawn|]. intros _.
  spawning.
Qed.

(** Once the start has returned, the driver was ready. *)
Lemma p2p_start_ready w config chain_config p a p' :
  P2pService_start w config chain_config p = (Ok a, p') ->
  p2p_checked w config chain_config /\ ps_ready w = Some (Ok tt).
Proof.
  unfold P2pService_start, mbind, stm_bind, returns, fail, throw.
  destruct (load_validator_identity _) as [k|] eqn:Ek; simpl; [|done].
  destruct (PulsarClient_new _ _) as [client|] eqn:Ec; simpl; [|done].
  destruct (load client _ _) as [peers|] eqn:El; simpl; [|done].
  case_bool_decide as Hin; simpl; [|done].
  destruct (Driver_build _ _ _ _) as [[[d b] boot]|] eqn:Ed; simpl; [|done].
  destruct (ps_ready w) as [[[]|]|]; [|by case_match; case_match..]. intros _.
  split; [by eapply p2p_start_checked|done].
Qed.

(** *** The whole run *)

(** Nobody answered on the socket that was there before. *)
Lemma bind_alone w path m :
  ControlServer_bind w path = Ok tt -> fs_socket_metadata w = Ok m ->
  exists e, fs_connect w = Some (Err e) /\ is_not_running_error e = true.
Proof.
  unfold ControlServer_bind, prepare_socket_path. intros E Em. rewrite Em in E.
  destruct (prepare_parent_directory w path); simpl in E; [|done].
  destruct (is_socket m); simpl in E; [|done]. destruct (ensure_owned_by_uid _ _ _); simpl in E; [|done].
  destruct (fs_connect w) as [[|e]|]; simpl in E; [done| |done].
  destruct (is_not_running_error e) eqn:Ee; simpl in E; [|done]. eauto.
Qed.

(** What holds when a task is spawned: the process is the only one on its control socket, its store
    accepts the configuration, the Noir verifier has the pinned version if it is enabled, the
    network is checked if it is enabled, and ready before anything else runs; a component that
    is started is enabled, and a server has its address. *)
Definition started_ok (config : Config) (w : AppWorld) (t : Task) : Prop :=
  (forall m, fs_socket_metadata (aw_fs w) = Ok m ->
     exists e, fs_connect (aw_fs w) = Some (Err e) /\ is_not_running_error e = true) /\
  is_ok (ProofStore_new (proof_store config)) = true /\
  (noir_enabled (noir config) = true -> exists out status,
     nw_run (aw_noir w) = VersionExited out true status /\ StdText.trim (StdText.of_text out) = BB_VERSION) /\
  (p2p_enabled (p2p config) = true -> p2p_checked (aw_p2p w) (p2p config) (chain config)) /\
  match t with
  | DriverTask | WorkerTask => p2p_enabled (p2p config) = true
  | _ => p2p_enabled (p2p config) = true -> ps_ready (aw_p2p w) = Some (Ok tt)
  end /\
  match t with
  | DriverTask | WorkerTask | VerificationTask => True
  | ListenerTask => listener_enabled (listener config) = true
  | RpcTask => rpc_enabled (rpc config) = true /\ aw_rpc_bind w = Ok tt
  | SubmissionTask => submission_enabled (submission config) = true /\ aw_submission_bind w = Ok tt
  end.

Lemma build_registry_checked config w registry :
  build_registry config w = Ok registry -> noir_enabled (noir config) = true ->
  exists out status, nw_run w = VersionExited out true status /\
    StdText.trim (StdText.of_text out) = BB_VERSION.
Proof.
  unfold build_registry. intros E En. rewrite En in E.
  destruct (NoirVerifier_initialize w (noir config)) as [v|] eqn:Ev; simpl in E; [|done].
  apply noir_initialize_checked in Ev as (_&_&(out&status&Ho&_&Hv)&_). eauto.
Qed.

Lemma spawns_start_listener P socket path enabled chain_config p2p e :
  (enabled = true -> P ListenerTask) -> spawns P socket (start_listener path enabled chain_config p2p e).
Proof.
  intros HP. unfold start_listener. destruct enabled; simpl; [|auto]. specialize (HP eq_refl).
  pose proof (spawns_spawn P socket ListenerTask HP).
  unfold PulsarListener_start, drop_start, control_shutdown, wait_for_component, P2pService_wait_for_exit,
    wait_for_verification_exit. spawning.
Qed.

Lemma spawns_run_components P socket config w lis :
  (rpc_enabled (rpc config) = true -> aw_rpc_bind w = Ok tt -> P RpcTask) ->
  (submission_enabled (submission config) = true -> aw_submission_bind w = Ok tt -> P SubmissionTask) ->
  spawns P socket (run_components config w lis).
Proof.
  intros Hr Hs. unfold run_components. apply spawns_bind.
  { apply spawns_try, spawns_when. intros E. unfold RpcServer_start. apply spawns_returns_bind. intros [] Eb.
    apply spawns_bind; [auto|]. intros _. apply spawns_spawn, Hr; [done|]. by destruct (aw_rpc_bind w) as [[]|]. }
  intros [[]|]; [|spawning]. apply spawns_bind; [|intros [[]|]; spawning].
  apply spawns_try, spawns_when. intros E. unfold SubmissionRpcServer_start. apply spawns_bind; [auto|]. intros _.
  apply spawns_returns_bind. intros [] Eb. apply spawns_bind; [auto|]. intros _.
  apply spawns_spawn, Hs; [done|]. by destruct (aw_submission_bind w) as [[]|].
Qed.

Lemma run_controlled_spawns socket config w :
  ControlServer_bind (aw_fs w) (control_socket (runtime config)) = Ok tt ->
  spawns (started_ok config w) socket (run_controlled config w).
Proof.
  intros Ec. unfold run_controlled. apply spawns_returns_bind. intros store Es.
  apply spawns_returns_bind. intros registry Er. apply spawns_bind; [spawning|]. intros _.
  pose proof (fun m => bind_alone _ _ m Ec) as Ha.
  assert (is_ok (ProofStore_new (proof_store config)) = true) as Ho by by rewrite Es.
  pose proof (build_registry_checked _ _ _ Er) as Hn.
  apply spawns_bind_ok.
  { apply spawns_when. intros En. apply spawns_p2p_start. intros Hc. split; split_and!; auto. }
  intros p1 [] p1' Ep.
  assert (p2p_enabled (p2p config) = true ->
    p2p_checked (aw_p2p w) (p2p config) (chain config) /\ ps_ready (aw_p2p w) = Some (Ok tt)) as Hp.
  { intros En. rewrite En in Ep. by eapply p2p_start_ready. }
  apply spawns_bind; [apply spawns_spawn; split_and!; naive_solver|]. intros _.
  apply spawns_bind; [apply spawns_try, spawns_start_listener; intros; split_and!; naive_solver|].
  assert (forall lis, spawns (started_ok config w) socket (run_components config w lis)) as Hrun
    by (intros lis; apply spawns_run_components; intros; split_and!; naive_solver).
  intros [[]|]; spawning.
Qed.

Lemma spawns_with_control P remove_file (m : procM unit) :
  spawns P True m -> spawns P True (with_control remove_file m).
Proof.
  intros Hm p. specialize (Hm p). unfold with_control.
  destruct (m p) as [[[]|[]] p']; try exact Hm; (etrans; [exact Hm|by apply (spawns_note P True)]).
Qed.

Lemma App_run_spawns config w : spawns (started_ok config w) True (App_run config w).
Proof.
  unfold App_run. apply spawns_returns_bind. intros [] Ec. apply spawns_bind; [spawning|]. intros _.
  by apply spawns_with_control, run_controlled_spawns.
Qed.

(** The control socket is there from the first act of a run to its last. *)
Lemma App_run_socket config w :
  possible config w = true ->
  ControlServer_bind (aw_fs w) (control_socket (runtime config)) = Ok tt ->
  exists l, log (snd (App_run config w idle)) =
      (SocketBound :: l) ++ [SocketDropped (ControlServer_drop (aw_remove_socket w))] /\
    Forall (fun a => socket_act a = false) l /\ ledger (SocketBound :: l) = Some ∅.
Proof.
  intros Hp Hb. unfold App_run, returns. rewrite Hb. unfold mbind, stm_bind, mret, stm_ret. simpl.
  set (p0 := mkProcess ∅ false [SocketBound]).
  pose proof (run_controlled_clean config w p0 Hp (clean_socket SocketBound idle I idle_clean)) as W.
  destruct (run_controlled_spawns False config w Hb p0) as (l & El & Hl).
  unfold wp in W. unfold with_control.
  destruct (run_controlled config w p0) as [r p]. simpl in El. exists l.
  assert (clean p) as [K E] by (destruct r as [[]|i]; apply W).
  split_and!; [|eapply Forall_impl; [exact Hl|by intros []]|unfold kept in K; by rewrite <- E, <- K, El].
  rewrite app_comm_cons, <- El. destruct r as [[]|i]; [done|]. by destruct W as [[e ->] _].
Qed.

(** C16: A run of the process leaves no task behind. Whatever the starts, the selects, the
    joins and the time limits answer, [App::run] returns (no [expect] fails) and at its end no
    spawned task is owned any more; every task it spawned was joined or aborted exactly
    once, and nothing else was. This includes a startup that fails half way, a listener whose
    start is given up, and a component that ends unexpectedly. *)
Theorem run_leaves_no_task (config : Config) (w : AppWorld) :
  possible config w = true ->
  let (r, p) := App_run config w idle in
  (r = Ok tt \/ exists e, r = Err (Failing e)) /\ handles p = ∅ /\ ledger (log p) = Some ∅.
Proof.
  intros Hp. pose proof (App_run_clean config w Hp) as W. unfold wp in W.
  destruct (App_run config w idle) as [[[]|i] p].
  - destruct W as [K E]. split; [by left|]. unfold kept in K. by rewrite K, E.
  - destruct W as [[e ->] [K E]]. split; [eauto|]. unfold kept in K. by rewrite K, E.
Qed.

End app_props.

(** ** Concrete runs *)

Definition sample_peer (b : bytes) : @PeerId sample_libp2p := default Byte.x00 (head b).

(** A key file with the key of peer 1, on a file system with nothing else. *)
Definition sample_identity : @IdentityLib sample_libp2p := {|
  fs_metadata _ := Ok (mkFileMetadata true 384);
  fs_read_to_string _ := Ok "";
  json_key_file _ := Ok (mkValidatorKeyFile "" (mkEncodedKey "tendermint/PubKeyEd25519" "public")
    (mkEncodedKey "tendermint/PrivKeyEd25519" "private"));
  base64_decode s := Ok (replicate (if bool_decide (s = "public") then 32 else 64)%nat Byte.x01);
  Keypair := bytes;
  keypair_from_bytes b := Ok b;
  keypair_public b := Ok b;
  keypair_peer_id := sample_peer;
  peer_of_public_key b := Ok (sample_peer b);
  octal _ := ""
|}.

Definition sample_height_text : HeightText := "invalid height".

#[local] Existing Instance sample_libp2p.
#[local] Existing Instance sample_multiaddrs.
#[local] Existing Instance sample_swarm.
#[local] Existing Instance sample_identity.
#[local] Existing Instance sample_height_text.
#[local] Existing Instance sample_sha256.
#[local] Existing Instance sample_varint.

Definition sample_fs : FsWorld :=
  mkFsWorld (Some "/run") (Ok tt) (Ok (mkEntry true false 0)) (Ok tt)
    (Err (mkIoError KindNotFound "not found")) None (Ok tt) (Ok tt) (Ok tt) 0.

Definition sample_noir : NoirWorld :=
  mkNoirWorld (fun _ => Err "not found") (fun _ => Ok tt) true VersionTimedOut (Ok true) (Ok tt).

(** Two validators, the local one among them. *)
Definition sample_p2p_start : P2pStart :=
  mkP2pStart (fun _ _ => Ok tt) (Answered (Ok (Chain.mkStatus "pulsar-1" false 7)))
    (fun h => Answered (Ok (mkValidators h 2 [replicate 32 Byte.x01; replicate 32 Byte.x02])))
    sample_build_world (Some (Ok tt)).

(** Everything starts; then the P2P worker fails. *)
Definition sample_run : AppWorld :=
  mkAppWorld sample_fs sample_noir (fun _ _ => Ok tt) sample_p2p_start
    (StartEnds (fun _ _ => Ok tt) (Some tt) (Ok (Ok tt))) (Ok tt) (Ok tt) (Ok tt) (Ok tt)
    (EndP2p (WorkerEnded (Ok (Err P2pDriverClosed)))) sample_shutdown (Ok tt).

Definition sample_address : SocketAddr := mkSocketAddr (V4 127 0 0 1) 50051 0.

Definition sample_app_config : Config :=
  mkConfig (mkRuntimeConfig "/run/v.sock" 5) (mkChainConfig "pulsar-1" "http://127.0.0.1:26657" 5)
    (mkListenerConfig true 1 2) (mkProofStoreConfig 1000 100 5 4)
    (mkP2pConfig true "pulsar-1" [] [] "/key" 100 100 5 1 5 1 2 4 4) (mkVerificationConfig 1 5 0 1)
    (mkNoirConfig false "" "" 1) (mkRpcConfig true sample_address)
    (mkSubmissionConfig true sample_address 100 4).

Lemma run_leaves_no_task_witness :
  let (r, p) := App_run sample_app_config sample_run idle in
  r = Err (Failing P2pDriverClosed) /\ ledger (log p) = Some ∅.
Proof.
  pose proof (run_leaves_no_task sample_app_config sample_run eq_refl) as P.
  remember (App_run sample_app_config sample_run idle) as x eqn:Ex. destruct x as [r p].
  split; [|apply P]. apply (f_equal fst) in Ex. cbn [fst] in Ex. rewrite Ex. vm_compute. reflexivity.
Defined.
