(* ===== verification/Provenance.v ===== *)
(** * Where a verdict comes from

    The worker (verification/worker.rs) with the Noir back end (verification/noir.rs), the
    registry the application builds (app.rs), the store (store/mod.rs) and the verification
    service (rpc/service.rs, rpc/contract.rs) together: a verdict a client reads is the answer to
    the stored proof of a process that was started for it in this run. *)

From stdpp Require Import base gmap list strings relations.
From S2P Require Import Prelude Types StdText Wire ErrorText Samples ProofId ConfigTypes Config App.
From S2P Require Import Noir Rpc Broadcast StoreRecord Store StoreProps Verification VerificationProps.

(** ** The worker *)

Lemma execute_attempt_completed a t v :
  fst (execute_attempt a t) = OutcomeCompleted v ->
  exists d, ends a = Some (d, Ok (Ok v)) /\ d <= t.
Proof.
  unfold execute_attempt, timed. destruct (ends a) as [[d r]|]; [|done].
  destruct (Z.leb_spec d t); [|done]. destruct r as [[v'|f]|]; try done.
  intros [= <-]. eauto.
Qed.

Section provenance.
Context `{Libp2p, Sha256, ProstVarint} {V : Type}.
Context (behaves : VerificationJob -> (V -> Proof_ -> nat -> Attempt) -> Prop).
Context (behaves_wf : forall job verify, behaves job verify -> verify_wf verify).
Context (r : VerifierRegistry V) (config : VerificationConfig).

Section invariant.
(** The jobs of the run. *)
Context (ran : VerificationJob -> Prop).

(** The registered back end for the proof's type returned the verdict for it, for a job of the run
    in one of the allowed attempts and in time. *)
Definition returned_for (p : Proof_) (v : VerificationVerdict) : Prop :=
  exists job verifier verify k d,
    ran job /\ job_proof job = p /\ registry_get r (proof_type p) = Some verifier /\ behaves job verify /\
    (k <= Z.to_nat (max_retries config))%nat /\
    ends (verify verifier p k) = Some (d, Ok (Ok v)) /\ d <= job_timeout config.

Definition authentic (rec : ProofRecord) : Prop :=
  forall v, verification (metadata rec) = Some (Completed v) ->
  exists p, record_proof rec = Some p /\ returned_for p v.

(** A job carries the proof of the record it claimed. *)
Definition job_faithful (j : VerificationJob) : Prop :=
  record_proof (arc_value (claim j)) = Some (job_proof j).

Lemma execute_job_returned verify job v :
  ran job -> behaves job verify ->
  outcome (fst (execute_job verify job (registry_get r (proof_type (job_proof job))) config)) =
    OutcomeCompleted v ->
  returned_for (job_proof job) v.
Proof.
  intros Hran Hb. unfold execute_job. destruct (registry_get _ _) as [verifier|] eqn:Er; [|done].
  destruct (attempt_loop_outcome config (verify verifier (job_proof job))
    (Z.to_nat (max_retries config)) 0) as (k & Hk & Ho & _).
  destruct (attempt_loop _ _ _ _) as [o d]. simpl in *. intros ->. symmetry in Ho.
  apply execute_attempt_completed in Ho as (d' & He & Hd). exists job, verifier, verify, k, d'. split_and!; (done || lia).
Qed.

Record prov (n : node (V := V)) : Prop := {
  pv_store : store_inv (sys_store (node_sys n));
  pv_registry : registry (worker n) = r;
  pv_config : worker_config (worker n) = config;
  pv_jobs : forall j, j ∈ jobs (worker n) -> job_faithful j;
  pv_records : forall id a, records (sys_store (node_sys n)) !! id = Some a -> authentic (arc_value a)
}.

(** A step of the worker that leaves the store alone. *)
Lemma prov_worker p w y b p' w' b' :
  prov (mkNode p w y b) -> registry w' = registry w -> worker_config w' = worker_config w ->
  (forall j, j ∈ jobs w' -> j ∈ jobs w) -> prov (mkNode p' w' y b').
Proof. intros [P1 P2 P3 P4 P5] ?? Hj. split; simpl in *; try congruence; auto. Qed.

(** A step of the store that leaves the worker alone. *)
Lemma prov_store p w y b y' b' :
  prov (mkNode p w y b) -> store_inv (sys_store y') ->
  (forall id a, records (sys_store y') !! id = Some a ->
    records (sys_store y) !! id = Some a \/ authentic (arc_value a)) ->
  prov (mkNode p w y' b').
Proof.
  intros [P1 P2 P3 P4 P5] I Hr. split; simpl in *; try done.
  intros id a Ha. destruct (Hr id a Ha) as [Ha'|]; [by eapply P5|done].
Qed.

Lemma not_completed_authentic rec :
  (forall v, verification (metadata rec) <> Some (Completed v)) -> authentic rec.
Proof. intros Hn v Hv. by destruct (Hn v). Qed.

Lemma env_op_authentic s s' id a :
  store_inv s -> env_op s s' -> records s' !! id = Some a ->
  records s !! id = Some a \/ authentic (arc_value a).
Proof.
  intros I Ho Ha. destruct (verification (metadata (arc_value a))) as [[| |v|f]|] eqn:Ev;
    try (right; apply not_completed_authentic; by rewrite Ev).
  left. by eapply (env_op_state _ _ _ _ (Completed v)).
Qed.

Lemma prov_begin w y id s' o ws p' b :
  prov (mkNode Starting w y b) -> begin_verification id (sys_store y) = (o, s') ->
  registry ws = registry w -> worker_config ws = worker_config w ->
  (forall j, j ∈ jobs ws -> j ∈ jobs w \/ o = Ok (Some j)) ->
  prov (mkNode p' ws (commit s' y) b).
Proof.
  intros P Hb Er Ec Hj. pose proof (op_step_effect _ _ (step_begin id (sys_store y))) as He.
  rewrite Hb in He. simpl in He. destruct P as [P1 P2 P3 P4 P5]. simpl in *.
  split; simpl; try congruence.
  - by apply inv_set_events, (op_effect_inv (sys_store y)).
  - intros j Hin. destruct (Hj j Hin) as [?| ->]; [by apply P4|].
    by apply begin_some in Hb as (_ & _ & _ & ? & _).
  - intros id' a. rewrite begin_eq in Hb.
    destruct (records (sys_store y) !! id) as [a0|] eqn:El; [|simplify_eq; apply P5]. simpl in Hb.
    destruct (chain_observed_at _); [|simplify_eq; apply P5].
    destruct (record_proof _); [|simplify_eq; apply P5].
    case_bool_decide; [|simplify_eq; apply P5]. simplify_eq. simpl. rewrite lookup_insert.
    case_decide; [intros [= <-]|apply P5]. by apply not_completed_authentic.
Qed.

(** The record a job finishes is the record it claimed, with the proof that was verified. *)
Lemma prov_finish p w y b draining l1 job l2 verify t p' w' s' capacity :
  prov (mkNode p w y b) -> node_inv capacity (mkNode p w y b) ->
  jobs w = l1 ++ job :: l2 -> ran job -> behaves job verify ->
  commit_completion_finish draining t
    (fst (execute_job verify job (registry_get (registry w) (proof_type (job_proof job))) (worker_config w)))
    (set_active (active_ids w) (l1 ++ l2) w) (sys_store y) = (p', w', s') ->
  prov (mkNode p' w' (commit s' y) b).
Proof.
  intros [P1 P2 P3 P4 P5] N Ej Hran Hv. simpl in *. rewrite P2, P3.
  assert (job ∈ jobs w) as Hin by (rewrite Ej; set_solver).
  pose proof (execute_job_returned verify job) as Hret.
  set (completion := fst (execute_job _ _ _ _)) in *. unfold commit_completion_finish.
  assert (completion_job completion = job) as -> by apply execute_job_id.
  assert (outcome_wf (outcome completion)) as Hwf by (by eapply execute_job_wf, behaves_wf).
  set (ws := set_active _ _ _).
  assert (w' = ws -> s' = snd (finish_verification t job (outcome completion) (sys_store y)) ->
    prov (mkNode p' w' (commit s' y) b)) as Hprov; [|by destruct (finish_verification _ _ _ _) as [[] ?]; intros [= _ <- <-]; apply Hprov].
  intros -> ->. split; simpl; try done.
  - apply inv_set_events. eapply op_effect_inv; [exact P1|]. apply op_step_effect. by constructor.
  - intros j Hj. apply P4. rewrite Ej. set_solver.
  - intros id a. rewrite finish_eq. destruct (ci_jobs _ _ (ni_claims _ _ N) job Hin) as [_ [_ Hh]].
    simpl in Hh. destruct (records (sys_store y) !! job_id job) as [a0|] eqn:El; [|apply P5].
    destruct (ptr_eq a0 (claim job)) eqn:Ep; [|apply P5]. apply Nat.eqb_eq in Ep. simpl.
    destruct Hh as [[= ->]|[_ D]]; [|by destruct (D _ _ El)].
    destruct (bool_decide _); [|apply P5]. simpl. rewrite lookup_insert.
    case_decide; [intros [= <-]|apply P5]. intros v. simpl. intros Eo.
    exists (job_proof job). split; [exact (P4 job Hin)|]. apply (Hret v Hran Hv).
    destruct (outcome completion); simpl in Eo; congruence.
Qed.

Lemma start_pass_prov w y p' w' s' b :
  prov (mkNode Starting w y b) -> start_pass w (sys_store y) = (p', w', s') ->
  prov (mkNode p' w' (commit_opt s' y) b).
Proof.
  intros P. unfold start_pass. destruct (negb _); [intros [= <- <- <-]; by eapply prov_worker|].
  destruct (pending w) as [|id rest]; [intros [= <- <- <-]; by eapply prov_worker|].
  case_bool_decide; [intros [= <- <- <-]; by eapply prov_worker|].
  destruct (begin_verification id (sys_store y)) as [[[job|]|e] s1] eqn:Eb; intros [= <- <- <-];
    (eapply prov_begin; [exact P|exact Eb|done|done|]); simpl; set_solver.
Qed.

Lemma worker_step_prov capacity n n' :
  worker_step behaves capacity n n' -> node_ok capacity n ->
  (forall j, j ∈ jobs (worker n) -> ran j) -> prov n -> prov n'.
Proof.
  intros Hs Hok Hran P. assert ((forall e, point n <> Returned (Err e)) -> node_inv capacity n) as N.
  { intros Hne. destruct Hok as [[e He]|]; [by destruct (Hne _ He)|done]. }
  destruct Hs as [w y b|w y p' w' s' E|w y|w y|w y event c w' Hr Hh|w y event c e Hr Hh
    |w y b draining l1 job l2 verify t p' w' s' _ Ej Hv Hc|w y b draining l1 job l2 e _ Ej
    |w y b id draining|w y b Ej].
  - specialize (N ltac:(done)).
    destruct (reconcile_spec (sys_store y) w (ni_queue _ _ N) (ni_store _ _ N)) as (_ & (_ & ? & ? & _ & J) & _).
    eapply prov_worker; [exact P|done..|]. by rewrite J.
  - by eapply start_pass_prov.
  - by eapply prov_worker.
  - by eapply prov_worker.
  - destruct (handle_event_wakeup _ _ _ _ _ _ (N ltac:(done)) Hr Hh) as (_ & (_ & ? & ? & _ & J) & _).
    eapply prov_worker; [exact P|done..|]. by rewrite J.
  - by eapply prov_worker.
  - eapply prov_finish; [exact P| |exact Ej| |done..]; [apply N; by destruct draining|].
    apply Hran. simpl. rewrite Ej. set_solver.
  - eapply prov_worker; [exact P|done..|]. simpl. rewrite Ej. set_solver.
  - specialize (N ltac:(done)).
    eapply prov_worker; [exact P|..]; unfold commit_completion_recheck;
      (destruct (get _ _); [|done]); (case_bool_decide; [|done]);
      destruct (enqueue_spec w id (ni_queue _ _ N)) as (_ & (_ & ? & ? & _ & J) & _); [done..|by rewrite J].
  - by eapply prov_worker.
Qed.

Lemma node_step_prov capacity n n' :
  node_step behaves capacity n n' -> node_ok capacity n ->
  (forall j, j ∈ jobs (worker n) -> ran j) -> prov n -> prov n'.
Proof.
  intros Hs Hok Hran P. destruct Hs as [n' Hw|s' Ho|y' Hp|id c Hc|].
  - by eapply worker_step_prov.
  - destruct n as [p w y b]. eapply prov_store; [exact P| |]; simpl.
    + apply inv_set_events. eapply op_effect_inv; [apply P|]. by apply op_step_effect, env_op_step.
    + intros id a. apply env_op_authentic; [apply P|done].
  - destruct n as [p w y b], Hp. eapply prov_store; [exact P| |by left]. apply inv_set_events, P.
  - destruct n as [p w y b]. eapply prov_store; [exact P|apply evict_inv, P|]. intros id' a. simpl.
    destruct (evict_events (sys_store y) id c) as [->|[_ ->]]; [by left|]. simpl.
    rewrite lookup_delete. case_decide; [done|by left].
  - by destruct n as [p w y b], P.
Qed.

End invariant.

(** A job the worker had on the way from the first node to the last. *)
Definition ran_between (capacity : nat) (n0 n : node (V := V)) (j : VerificationJob) : Prop :=
  exists n1, rtc (node_step behaves capacity) n0 n1 /\ rtc (node_step behaves capacity) n1 n /\
    j ∈ jobs (worker n1).

Definition first_node (s0 : ProofStore) : node (V := V) :=
  mkNode Created (VerificationWorker_new s0 r config) (sys_init s0) false.

Lemma run_prov capacity store_config s0 n :
  ProofStore_new store_config = Ok s0 -> rtc (node_step behaves capacity) (first_node s0) n ->
  prov (ran_between capacity (first_node s0) n) n.
Proof.
  intros Hn Hs. set (ran := ran_between capacity (first_node s0) n).
  assert (prov ran (first_node s0)) as P0.
  { pose proof Hn as (I & _ & Hr)%new_inv. split; simpl; try done; [set_solver|].
    intros id a. by rewrite Hr, lookup_empty. }
  assert (forall m, rtc (node_step behaves capacity) m n ->
    rtc (node_step behaves capacity) (first_node s0) m -> prov ran m -> prov ran n) as Hgo.
  { apply (rtc_ind_l (fun m => rtc (node_step behaves capacity) (first_node s0) m -> prov ran m -> prov ran n));
      [done|].
    intros m1 m2 H12 H23 IH Hm P.
    apply IH; [by eapply rtc_r|]. eapply node_step_prov; [exact H12| | |exact P].
    - eapply node_reachable_ok; [done|]. by exists s0.
    - intros j Hj. exists m1. split_and!; [done|by eapply rtc_l|done]. }
  by apply (Hgo (first_node s0)); [|apply rtc_refl|].
Qed.

(** What a completed status says of the store and of the back end. *)
Lemma completed_status_authentic capacity store_config s0 n id v :
  ProofStore_new store_config = Ok s0 -> rtc (node_step behaves capacity) (first_node s0) n ->
  state_of (sys_store (node_sys n)) id = Some (Completed v) ->
  exists a p, records (sys_store (node_sys n)) !! id = Some a /\
    record_proof (arc_value a) = Some p /\ verification_id p = id /\
    chain_observed_at (metadata (arc_value a)) <> None /\
    returned_for (ran_between capacity (first_node s0) n) p v.
Proof.
  intros Hn0 Hn Hs. pose proof (run_prov _ _ _ _ Hn0 Hn) as P.
  unfold state_of in Hs. destruct (records _ !! id) as [a|] eqn:Ea; [|done]. simpl in Hs. rename Hs into Ev.
  destruct (pv_records _ _ P _ _ Ea v Ev) as (p & Ep & Hr).
  pose proof (inv_records _ (pv_store _ _ P) _ _ Ea) as W. exists a, p. split_and!; try done.
  - by apply (wf_proof _ _ _ W).
  - pose proof (wf_ready _ _ _ W) as Wr. rewrite Ev in Wr. by destruct (chain_observed_at _).
Qed.
End provenance.

(** ** The Noir back end of the application *)

Section noir_node.
Context `{Multiaddrs, !Sha256, !ProstVarint, !MsgPack, !Hex, !Formatting}.

(** The processes of a run: what comes of starting a process in an attempt for a claim. A claim has
    one job, an attempt starts one process, so the claim's address and the attempt's number are
    those of one process. *)
Definition Processes : Type := nat -> nat -> ProcessCommand -> Child.

(** The registered verifier's attempts for a job: whenever one ends by itself, it is
    [NoirVerifier::verify] with the process of that attempt; a panic is [Err tt]. *)
Definition noir_behaves (processes : Processes) (job : VerificationJob)
  (verify : NoirVerifier -> Proof_ -> nat -> Attempt) : Prop :=
  forall verifier p k d res, ends (verify verifier p k) = Some (d, res) ->
  res = match noir_verify verifier (processes (arc_ptr (claim job)) k) p with
        | Some r => Ok r
        | None => Err tt
        end.

Lemma noir_behaves_wf processes job verify : noir_behaves processes job verify -> verify_wf verify.
Proof.
  intros Hb verifier p n d f He. pose proof (Hb _ _ _ _ _ He) as Hc.
  pose proof (noir_verify_fails_well verifier (processes (arc_ptr (claim job)) n) p) as Hf.
  destruct (noir_verify _ _ _) as [[v|g]|]; try done. injection Hc as ->. exact Hf.
Qed.

Lemma build_registry_noir (config : Config) w r t verifier :
  build_registry config w = Ok r -> registry_get r t = Some verifier ->
  noir_enabled (noir config) = true /\ t = NoirBarretenberg /\
  NoirVerifier_initialize w (noir config) = Ok verifier.
Proof.
  unfold build_registry. destruct (noir_enabled _); [|by intros [= <-]].
  destruct (NoirVerifier_initialize w (noir config)) as [nv|e]; [|done]. cbn. intros [= <-]. cbn.
  case_decide as Hd; [|done]. by intros [= <-].
Qed.

(** C5: a verdict read over RPC is authentic. In every state of a run of the application with the
    registry it built, a result [(id, v)] of [GetVerificationResults] was asked for, and the
    store holds a proof whose identifier is [id], observed on chain, of the Noir type. Earlier in
    the run the worker had a job for exactly that proof, and the process that one of the job's
    attempts started, the program that passed the start-up checks, was written exactly that proof,
    its inputs and its key and answered [v]. *)
Theorem rpc_verdict_authentic (processes : Processes) (config : Config) w r capacity s0 n raw_ids results id v :
  build_registry config w = Ok r -> ProofStore_new (proof_store config) = Ok s0 ->
  rtc (node_step (noir_behaves processes) capacity) (first_node r (Config.verification config) s0) n ->
  VerificationRpc_get_verification_results (sys_store (node_sys n)) raw_ids = Ok results ->
  mkWireResult (as_bytes id) (verdict_number v) ∈ results ->
  as_bytes id ∈ raw_ids /\
  exists a p verifier job k,
    records (sys_store (node_sys n)) !! id = Some a /\ record_proof (arc_value a) = Some p /\
    verification_id p = id /\ chain_observed_at (metadata (arc_value a)) <> None /\
    NoirVerifier_initialize w (noir config) = Ok verifier /\ noir_enabled (noir config) = true /\
    ran_between (noir_behaves processes) capacity (first_node r (Config.verification config) s0) n job /\
    job_proof job = p /\ (k <= Z.to_nat (max_retries (Config.verification config)))%nat /\
    answered_with verifier (processes (arc_ptr (claim job)) k) p v.
Proof.
  intros Hr Hn0 Hn Hres Hin. unfold VerificationRpc_get_verification_results, get_verification_results in Hres.
  pose proof (parse_ids_spec raw_ids) as Pi. destruct (parse_ids raw_ids) as [ids|e]; [|done].
  cbn in Hres. injection Hres as <-. destruct Pi as (<- & _ & _).
  apply elem_of_wire_results in Hin as (id' & v' & [= Ei Ev] & Hin & Hs). apply array_ext in Ei. subst id'.
  assert (v' = v) as -> by (by destruct v, v'). split; [done|].
  destruct (completed_status_authentic _ (noir_behaves_wf processes) _ _ _ _ _ _ _ _ Hn0 Hn Hs)
    as (a & p & Ha & Hp & Hid & Hobs & job & verifier & verify & k & d & Hran & Hjp & Hget & Hb & Hk & He & _).
  destruct (build_registry_noir _ _ _ _ _ Hr Hget) as (Hen & _ & Hi).
  pose proof (Hb _ _ _ _ _ He) as Hc. exists a, p, verifier, job, k. split_and!; try done.
  apply noir_verify_answered. destruct (noir_verify _ _ _); by simplify_eq.
Qed.
End noir_node.

(** ** A concrete run *)

Section witness.
#[local] Existing Instance sample_libp2p.
#[local] Existing Instance sample_multiaddrs.
#[local] Existing Instance sample_sha256.
#[local] Existing Instance sample_varint.
#[local] Existing Instance sample_hex.
#[local] Instance sample_msgpack : MsgPack := {|
  to_vec_named _ := Ok [Byte.x01];
  from_slice b := if bool_decide (b = [Byte.x01]) then Ok (CircuitVerifyResponse true) else Ok OtherResponse
|}.
#[local] Instance sample_format : Formatting := {|
  join_error_to_string _ := "task failed";
  str_debug s := s;
  socket_addr_to_string _ := "address"
|}.

Definition noir_world : NoirWorld :=
  mkNoirWorld (fun _ => Ok (true, true, 73)) (fun _ => Ok tt) true
    (VersionExited (text BB_VERSION) true "0") (Ok true) (Ok tt).
Definition noir_verifier : NoirVerifier := mkNoirVerifier "/bb" "/home" 1.
Definition noir_app_config : Config :=
  mkConfig (mkRuntimeConfig "/run/v.sock" 5) (mkChainConfig "pulsar-1" "http://127.0.0.1:26657" 5)
    (mkListenerConfig true 1 2) StoreProps.sample_config
    (mkP2pConfig true "pulsar-1" [] [] "/key" 100 100 5 1 5 1 2 4 4) (sample_vconfig 2)
    (mkNoirConfig true "/bb" "/home" 1) (mkRpcConfig true (mkSocketAddr (V4 127 0 0 1) 50051 0))
    (mkSubmissionConfig true (mkSocketAddr (V4 127 0 0 1) 50052 0) 100 4).

(** a process that answers every request with the frame of a positive response *)
Definition noir_child : Child :=
  mkChild (Ok tt) true true (fun _ => None) (fun _ => frame [Byte.x01]) (fun _ => "end of file") false
    (Ok true) (Ok tt).
Definition noir_processes : Processes := fun _ _ _ => noir_child.
Definition noir_attempts : NoirVerifier -> Proof_ -> nat -> Attempt := fun verifier p _ =>
  mkAttempt (Some (1, match noir_verify verifier (fun _ => noir_child) p with Some r => Ok r | None => Err tt end))
    None.

Lemma noir_attempts_behave job : noir_behaves noir_processes job noir_attempts.
Proof. by intros verifier p k d res [= _ <-]. Qed.

Definition noir_proof : Proof_ :=
  mkProof NoirBarretenberg (replicate 32 Byte.x01) [] (String.list_byte_of_string "key").
Definition noir_id : VerificationId := Eval vm_compute in verification_id noir_proof.

(** the proof is observed, then submitted, then the worker runs up to the verdict *)
Definition noir_store1 : ProofStore := snd (observe_chain_verification 10 noir_id sample_store0).
Definition noir_sys1 : system := commit noir_store1 (sys_init sample_store0).
Definition noir_store2 : ProofStore := snd (insert_local_proof 20 noir_proof Rpc (sys_store noir_sys1)).
Definition noir_registry : VerifierRegistry NoirVerifier := [(NoirBarretenberg, noir_verifier)].
Definition noir_start : node :=
  mkNode Created (VerificationWorker_new sample_store0 noir_registry (sample_vconfig 2))
    (commit noir_store2 noir_sys1) false.
Definition noir_final : node := run_worker noir_attempts 8 4 noir_start.

Lemma noir_final_run :
  rtc (node_step (noir_behaves noir_processes) 8)
    (first_node noir_registry (Config.verification noir_app_config) sample_store0) noir_final.
Proof.
  eapply rtc_l.
  { apply ns_env. exact (env_observe 10 noir_id sample_store0). }
  eapply rtc_l.
  { apply ns_env. exact (env_insert 20 noir_proof Rpc (sys_store noir_sys1)). }
  exact (run_worker_steps (noir_behaves noir_processes) noir_attempts 8 4 noir_start noir_attempts_behave).
Qed.

Lemma noir_final_results :
  VerificationRpc_get_verification_results (sys_store (node_sys noir_final)) [as_bytes noir_id] =
  Ok [mkWireResult (as_bytes noir_id) 1].
Proof. vm_refl. Qed.

Lemma rpc_verdict_authentic_witness :
  exists p start, verification_id p = noir_id /\ answered_with noir_verifier start p Valid.
Proof.
  destruct (rpc_verdict_authentic noir_processes noir_app_config noir_world noir_registry 8
    sample_store0 noir_final [as_bytes noir_id] [mkWireResult (as_bytes noir_id) 1] noir_id Valid)
    as (_ & a & p & verifier & job & k & _ & _ & Hid & _ & Hv & _ & _ & _ & _ & Hc).
  - vm_refl.
  - vm_refl.
  - exact noir_final_run.
  - exact noir_final_results.
  - by apply list_elem_of_singleton.
  - exists p, (noir_processes (arc_ptr (claim job)) k). split; [exact Hid|].
    assert (Ok verifier = Ok (E := Error) noir_verifier) as E by (rewrite <- Hv; vm_refl).
    injection E as <-. exact Hc.
Defined.
End witness.
