(* ===== verification/Main.v ===== *)
(** * The command line (src/src/cli.rs, src/src/lib.rs, src/src/main.rs)

    The parser of the arguments is clap's; the model starts from the command it returns. *)

From stdpp Require Import base gmap list strings.
From S2P Require Import Prelude Types Wire Samples ErrorText ConfigTypes ProofId Config Control Store Chain.
From S2P Require Import P2pIdentity P2pBehaviour P2pDriver P2pDriverProps Lifecycle LifecycleProps App AppProps.

Definition DEFAULT_CONFIG_PATH : string := "config/default.toml".

Inductive Command : Set :=
| Run (config : string)
| StopCommand (config : string).

Section main.
Context `{Multiaddrs, !SwarmTypes, !IdentityLib, !HeightText, !Sha256, !ProstVarint, !Hex, !Formatting}.

(** What the two commands meet. *)
Record MainWorld : Type := mkMainWorld {
  mw_http_client : string -> result string unit;
  mw_read : string -> result IoError string;
  mw_toml : string -> result string FileConfig;
  mw_telemetry : result string unit;
  mw_app : Config -> AppWorld;
  mw_stop : StopWorld
}.

(** [pulsar_verifier::run]; [None] when the stop command would still be polling. *)
Definition run (w : MainWorld) (command : Command) (p : Process) : option (result Interrupt unit) * Process :=
  match command with
  | Run path =>
      match from_file (mw_http_client w) (mw_read w) (mw_toml w) path with
      | Err e => (Some (Err (Failing e)), p)
      | Ok config =>
          match mw_telemetry w with
          | Err e => (Some (Err (Failing (TelemetryError e))), p)
          | Ok _ => let (r, p') := App_run config (mw_app w config) p in (Some r, p')
          end
      end
  | StopCommand path =>
      match from_file (mw_http_client w) (mw_read w) (mw_toml w) path with
      | Err e => (Some (Err (Failing e)), p)
      | Ok config => (map_err Failing <$> request_shutdown (mw_stop w) (runtime config), p)
      end
  end.

(** [main]: the exit code, and what is written to the standard error. *)
Definition main_result (r : Result unit) : bool * option string :=
  match r with
  | Ok _ => (true, None)
  | Err error => (false, Some ("error: " +:+ error_to_string error))
  end.

(** [run] starts nothing from a configuration that is refused, and whatever it starts has ended
    when it returns; the stop command starts nothing. *)
Lemma run_command_clean w command :
  (forall config, possible config (mw_app w config) = true) ->
  let (r, p) := run w command idle in
  handles p = ∅ /\ (forall path, command = StopCommand path -> p = idle) /\
  (forall path e, command = Run path -> from_file (mw_http_client w) (mw_read w) (mw_toml w) path = Err e ->
     r = Some (Err (Failing e)) /\ p = idle).
Proof.
  intros Hp. destruct command as [path|path]; simpl.
  - destruct (from_file _ _ _ path) as [config|e] eqn:Ef.
    + destruct (mw_telemetry w); [|split_and!; [done..|]; intros ? ? [= <-]; congruence].
      pose proof (App_run_clean config (mw_app w config) (Hp config)) as W. unfold wp in W.
      destruct (App_run config (mw_app w config) idle) as [[[]|i] p'];
        (split_and!; [apply W|done|]; intros ? ? [= <-]; congruence).
    + split_and!; [done..|]. intros ? e' [= <-]. rewrite Ef. by intros [= <-].
  - by destruct (from_file _ _ _ path).
Qed.

(** C17: the stop command tells the truth. When it succeeds against a running instance, nobody else
    removing the instance's socket, then at some look at the file system the instance had
    finished its run, and of the tasks that [App::run] spawns (the P2P driver and worker, the
    listener, the verification worker and the two servers) none was left: each one it had spawned had
    been joined or aborted. Tasks which those spawn themselves are not in this account; the
    transport task of the listener is the subject of [listener_owns_transport]. [looks i] is what the
    instance had done by the [i]-th look. *)
Theorem stop_means_stopped (config : Config) (w : AppWorld) (s : StopWorld) (looks : nat -> list Act) :
  possible config w = true ->
  ControlServer_bind (aw_fs w) (control_socket (runtime config)) = Ok tt ->
  (forall i, looks i `prefix_of` log (snd (App_run config w idle))) ->
  (forall i, st_exists s i = false -> SocketDropped true ∈ looks i) ->
  request_shutdown s (runtime config) = Some (Ok tt) ->
  exists i, looks i = log (snd (App_run config w idle)) /\ ledger (looks i) = Some ∅.
Proof.
  intros Hp Hb Hl Hs Hr. apply stop_saw_gone in Hr as [i Hi]. exists i.
  destruct (App_run_socket config w Hp Hb) as (l & El & Hn & Hled).
  destruct (Hl i) as [rest Er]. specialize (Hs i Hi). rewrite El in Er |- *.
  assert (rest = []) as ->.
  { destruct rest as [|a rest _] using rev_ind; [done|]. exfalso.
    rewrite app_assoc in Er. apply app_inj_tail in Er as [Er _].
    assert (SocketDropped true ∈ SocketBound :: l) as Hin by (rewrite Er, elem_of_app; by left).
    apply elem_of_cons in Hin as [?|Hin]; [done|].
    by apply (proj1 (Forall_forall _ _) Hn) in Hin. }
  rewrite app_nil_r in Er. rewrite <- Er. split; [done|]. by rewrite ledger_snoc, Hled.
Qed.

(** C19: Whatever the process starts was checked before. When a run of the program has spawned a
    task, then its configuration was read, every section of it is within its limits and they agree;
    nobody answered on the control socket; the store accepts its section; the Noir verifier has
    the pinned version if it is enabled; the network, if it is enabled, runs with a private key
    file, on the configured chain, for the complete validator set of the latest height with the
    local peer in it, and was ready before any other task; and the task's component is enabled,
    with its address bound if it is a server. *)
Theorem startup_checked w path t :
  (forall text file, mw_toml w text = Ok file -> unsigned file) ->
  Spawned t ∈ log (snd (run w (Run path) idle)) ->
  exists c, from_file (mw_http_client w) (mw_read w) (mw_toml w) path = Ok c /\
    sections_ok c /\ sections_agree c /\ started_ok c (mw_app w c) t.
Proof.
  intros Hu. simpl. destruct (from_file _ _ _ path) as [c|e] eqn:Ef; [|by intros ?%elem_of_nil].
  destruct (mw_telemetry w); [|by intros ?%elem_of_nil]. intros Ht. exists c. split; [done|].
  assert (sections_ok c /\ sections_agree c) as [Ho Ha].
  { unfold from_file in Ef. destruct (mw_read w path) as [text|]; simpl in Ef; [|done].
    destruct (mw_toml w text) as [file|] eqn:Et; simpl in Ef; [|done].
    destruct (validate_sections _ _ _ (Hu text file Et) Ef) as (? & ? & _). done. }
  split_and!; [done..|]. destruct (App_run_spawns c (mw_app w c) idle) as (l & El & Hl).
  destruct (App_run c (mw_app w c) idle) as [r p]. simpl in *. subst.
  exact (proj1 (Forall_forall _ _) Hl _ Ht).
Qed.
End main.

(** ** A concrete run *)

Section witness.
#[local] Existing Instance sample_libp2p.
#[local] Existing Instance sample_multiaddrs.
#[local] Existing Instance sample_swarm.
#[local] Existing Instance sample_identity.
#[local] Existing Instance sample_height_text.
#[local] Existing Instance sample_sha256.
#[local] Existing Instance sample_varint.

Definition sample_main : MainWorld :=
  mkMainWorld (fun _ => Ok tt) (fun _ => Ok "") (fun _ => Ok sample_file) (Ok tt) (fun _ => sample_run)
    sample_stop_world.

Lemma sample_main_spawns :
  bool_decide (Spawned WorkerTask ∈ log (snd (run sample_main (Run "/etc/v.toml") idle))) = true.
Proof. vm_refl. Qed.

Lemma startup_checked_witness :
  exists c, started_ok c sample_run WorkerTask /\ p2p_enabled (p2p c) = true.
Proof.
  assert (unsigned sample_file) as Hu by (repeat split; vm_compute; discriminate).
  destruct (startup_checked sample_main "/etc/v.toml" WorkerTask) as (c&_&_&_&S).
  - intros text file [= <-]. exact Hu.
  - apply (bool_decide_eq_true_1 _ sample_main_spawns).
  - exists c. split; [exact S|]. apply S.
Defined.
(** an instance that is told to stop over its socket; the socket is gone at the first look *)
Definition sample_stopped_run : AppWorld :=
  mkAppWorld sample_fs sample_noir (fun _ _ => Ok tt) sample_p2p_start
    (StartEnds (fun _ _ => Ok tt) (Some tt) (Ok (Ok tt))) (Ok tt) (Ok tt) (Ok tt) (Ok tt)
    (EndControl [Ok (mkConnection SHUTDOWN_REQUEST EndTimeout WriteOk)]) sample_shutdown (Ok tt).
Definition sample_gone_world : StopWorld :=
  mkStopWorld (Some (Ok tt)) (mkConnection ACCEPTED_RESPONSE EndTimeout WriteOk) (fun _ => false)
    (fun i => Z.of_nat i * STOP_POLL_INTERVAL) 0 StdText.of_text.
Definition sample_looks (i : nat) : list Act := log (snd (App_run sample_app_config sample_stopped_run idle)).

Lemma sample_stopped_drops :
  bool_decide (SocketDropped true ∈ log (snd (App_run sample_app_config sample_stopped_run idle))) = true.
Proof. vm_refl. Qed.

Lemma stop_means_stopped_witness : exists i, ledger (sample_looks i) = Some ∅.
Proof.
  destruct (stop_means_stopped sample_app_config sample_stopped_run sample_gone_world sample_looks) as (i & _ & E).
  - vm_refl.
  - vm_refl.
  - intros i. reflexivity.
  - intros i _. exact (bool_decide_eq_true_1 _ sample_stopped_drops).
  - vm_refl.
  - exists i. exact E.
Defined.
End witness.
